(* ===== verification/_CoqProject ===== *)
-Q . S2P
Prelude.v
CStd.v
Glob.v
Double.v
Binary64.v
Bytes.v
Scan.v
Store.v
Evict.v
StoreFacts.v
StrOps.v
HashOps.v
ListOps.v
SetOps.v
ZSetOps.v
StreamOps.v
StreamFacts.v
KeySpace.v
EvictFacts.v
KeyOps.v
Rdb.v
Commands.v
Refinement.v
MultiKey.v
RdbFacts.v
SetAlgebra.v
Resp.v
RespReader.v
RespFacts.v
ClusterSlot.v
Slowlog.v
PubSub.v
Session.v
Request.v
CmdKeys.v
CmdColl.v
CmdRdb.v
Server.v
Aof.v
Blocking.v
Dispatch.v
DispatchFacts.v
Transactions.v
StoreInv.v
HandlerInv.v
ServerInv.v
BlockingFacts.v
Answers.v
AofFacts.v
Replication.v
ReplFacts.v
Timer.v
TimerFacts.v
LoadBalancer.v
CircuitBreaker.v
RateLimit.v
WebSocket.v
RpcClient.v
Http2.v
Sentinel.v
Election.v
KvNode.v
SentinelFacts.v
IoManager.v
IoFacts.v
ByteArray.v
ByteArrayFacts.v
Theorems.v
ServerTheorems.v
DistTheorems.v
CoreTheorems.v
NetTheorems.v
ServiceTheorems.v
Witnesses.v
ServerWitnesses.v
DistWitnesses.v
CoreWitnesses.v
NetWitnesses.v
ServiceWitnesses.v
