(* ===== verification/Prelude.v ===== *)
(** * zero-framework: a verification library

    zero-framework is a C++ server framework whose largest program is a Redis-like
    key-value server ([src/zero/kv]).  A connection's bytes are parsed into requests,
    a dispatcher finds the handler of each, handlers act on the store, on the
    publish/subscribe hub and on the hub of blocked clients, and the replies are encoded
    and sent back.  This library models that path from the bytes to the data:

    - the store, [KvStore] ([store/kv_store.h], [kv_store.cc], [kv_store_extras.cc]): a
      map from database and key to typed values with expiry times, split over 16 shards
      with a lock each, with eviction under a memory limit and watch tokens;
    - the protocol ([resp.cc], [resp_reader.cc]) and the session's buffers
      ([kv_session.cc]);
    - the command handlers and the dispatcher with its gates and transactions
      ([command_dispatch.cc], [commands_p0p1.cc], [kv_config.cc], [slowlog.cc], the
      request loop of [kv_server.cc], the list of mutating commands of
      [persistence/aof.cc]);
    - persistence: the RDB snapshots and the payloads of [DUMP] and [RESTORE]
      ([persistence/rdb.cc]), the rewriting and replay of the append-only file
      ([persistence/aof.cc]);
    - replication ([replication/replication.cc]): the backlog, [PSYNC] and the replica's
      side;
    - publish/subscribe ([pubsub/pubsub_hub.cc]), blocking lists
      ([blocking/blocking_list_hub.cc]) and the key slots of a cluster
      ([cluster/cluster_slot.cc]).

    Of the framework below the server it models

    - the byte arrays its protocols are written with ([core/io/bytearray.cc]);
    - the timers of its I/O manager ([core/concurrency/timer.cc]);
    - the I/O manager over epoll ([core/io/iomanager.cc]), on which fibers wait;
    - WebSocket frames ([http/ws_session.cc]) and HTTP/2 with its header compression
      ([http/http2.cc], [http/hpack.cc]);
    - the RPC clients: framing, load balancing, circuit breaking, retries and discovery
      ([rpc/rpc_channel.cc], [rpc_server.cc], [rpc_load_balancer.cc],
      [rpc_circuit_breaker.cc], [rpc_channel_manager.cc],
      [registry/service_discovery.cc]), and the guards of the HTTP server
      ([http/middleware/circuit_breaker_middleware.cc], [rate_limit_middleware.cc]);
    - the sentinels that watch key-value servers ([rpc/sentinel_manager.cc],
      [rpc/sentinel_service.cc]) and what a server answers them
      ([rpc/kv_node_service.cc]).

    ** The model of the store

    - A critical section is a state transformer: [State Shard] under the lock of one
      shard, lifted to the store with [on_shard]; the operations that lock every shard
      work on [State KvStore].  A method that takes a lock several times is the
      composition of its sections, with one reading of the clock ([now], in
      milliseconds) each.
    - A method's return value, its out parameters and its [*err] message are a [Res];
      [None] is an out parameter left unwritten.
    - [int64_t] and [uint64_t] are [Z] with the wrap-around written out ([i64], [u64]).
      Scores are binary64 numbers ([Double.v]), with [strtod] and [std::to_string]
      written out on exact integers.
    - What the standard leaves open ([std::hash], the order of hash containers, random
      draws) is the class [StdImpl] of [CStd.v]; every theorem quantifies over it, and
      [plain_impl] instantiates it for examples.
    - [std::map] and the hash containers are [gmap]s, [std::deque] and [std::vector]
      lists, [std::sort] an insertion sort whose result is unique wherever the
      comparator separates the values.

    ** The model of the server

    - [RespValue] is the value of the code, with all its fields, so that what an out
      parameter keeps from an earlier parse is kept.  The reader works on a list of
      characters and answers how many it took; whether [reserve] of a client's count
      succeeds is the predicate [reserves].
    - [World] holds what connections share, [KvContext] what a connection has, [Env]
      both.  A handler is a function of [M], a state monad on [Env] that can diverge; a
      data command is a [DataHandler] on the store and the clock ([DM]), which reads the
      clock as an endless sequence.
    - The append-only file, the replicas and the subscribers' sockets are the list of
      events [w_events], in order.  Whether a push to a subscriber writes anything is the
      parameter [pushed].
    - A waiting client polls; each poll yields to other fibers, and [yield] is what they
      make of the world.  [ServerInv.v] has the steps they can make: requests of other
      connections, connections opened and closed, the background purge, waits begun and
      left.  A frame of a waiting client is an address in [w_waiter].

    ** The model of the framework

    - [ByteArray] is a chain of blocks with a position.  Its methods are functions in
      [BM], a state monad that can throw [std::out_of_range] and can follow a null
      pointer; a read or write loop has a unit of fuel per block.
    - [TimerManager] is a heap of timers by address and the [std::set] as the list of
      addresses in the order of the comparator; [timer_run] is a sequence of its methods.

    - What a sentinel's thread runs is a [Prog]: sections under a lock, readings of the
      clock, draws, calls, lines of the log.  [sys_step] interleaves the threads and the
      handlers of any number of sentinels section by section, over a network that delays,
      repeats and loses; [run] runs a program alone.
    - A [Stream] is what is still to arrive, what was written, and whether it was closed;
      how many bytes a read or write moves is a parameter of the model.  Envelopes are
      serialised by protobuf, a parameter.  A call of [RpcChannelManager] runs alone, against
      an [Attempt] each time: the draw, the clock, and what the node would answer.

    ** Files

    - [Prelude.v]: integers, the state monad, results, shared lemmas and automation.
    - [CStd.v]: the standard library functions the code uses ([strtoll], [strtoull],
      [std::to_string], [std::sort]) and their round trips.
    - [Glob.v]: [matchGlob].  [Double.v]: doubles, [formatDouble].  [Scan.v]:
      [scanFlatItems], the page of every scanning command.
    - [Store.v]: [Entry], [Shard], [KvStore], expiry, [findEntry], watch tokens; the
      typed view of a store ([view]) and the equivalence of stores.
    - [Evict.v]: [estimateEntryBytes], [evictIfNeededLocked] and the settings.
    - [StrOps.v], [HashOps.v], [ListOps.v], [SetOps.v], [ZSetOps.v], [StreamOps.v]: the
      methods of each type, one definition per method under the method's name ([exists]
      is [exists_]), followed by their specifications on typed values ([spec_*]) and the
      proofs that they meet them ([*_ok]).
    - [KeyOps.v]: the methods over several keys or whole databases.
    - [StoreFacts.v]: [key_ok], the contract of a one-key method, and the tactics that
      execute a method symbolically.  [KeySpace.v]: the invariant [wf] and what [key_ok]
      means for the store as a client sees it.  [EvictFacts.v], [StreamFacts.v],
      [MultiKey.v], [SetAlgebra.v]: the lemmas
      on eviction, streams, [DEL]/[EXISTS], [MSETNX]/[RENAME], sweeps, set algebra, and
      consequences for clients.
    - [Commands.v]: the class [KeyCommands] of families of one-key commands and its six
      instances.  [Refinement.v]: the theorems proved once against the class.
    - [Resp.v]: [RespValue], [RespEncoder].  [RespReader.v]: [RespReader].
      [RespFacts.v]: their round trip, bounds and behaviour on cut input.
    - [Session.v]: [KvSession]'s buffers.  [Slowlog.v], [PubSub.v], [ClusterSlot.v]: the
      classes of those names, each with its invariant or specification.
    - [Server.v]: [KvContext], [World], the monad.  [Request.v]: argument parsing and
      common replies.  [CmdKeys.v], [CmdColl.v]: the data commands, [cmd_X] for the block
      [addCommand("X", ...)].  [Blocking.v]: [BlockingListHub], the pushes and the
      blocking pops.  [Dispatch.v]: the remaining handlers, [CommandDispatch] and
      [handleClient]'s loop ([serve]).
    - [Binary64.v]: the bits of a double.  [Rdb.v]: [Rdb]'s writers and readers over
      lists of bytes; [RdbFacts.v]: that the readers give back what was written, and what
      they make of less; [CmdRdb.v]: [DUMP] and [RESTORE].  [Aof.v]: [AofLog];
      [AofFacts.v]: that a rewrite, replayed by the dispatcher, brings the store back.
    - [Replication.v]: [ReplicationManager], [ROLE], [SLAVEOF], [PSYNC] and the replica's
      loop; [ReplFacts.v]: the stream of what was propagated and the offsets in it.
    - [Bytes.v]: little-endian bytes and [byteswap].  [ByteArray.v], [ByteArrayFacts.v]:
      [ByteArray], its invariant, the flat buffer it stands for, what its typed methods
      write and read.  [Timer.v], [TimerFacts.v]: [Timer] and [TimerManager], the order of
      the set, what is due, runs.
    - [Sentinel.v]: [SentinelManager] and the handler of its requests.  [Election.v]:
      systems of sentinels, the rely-guarantee proof that elections are safe, and running
      a system.  [KvNode.v]: the handler of a key-value node;
      [SentinelFacts.v]: the choice of a replica, missed checks, failover.
    - [IoManager.v]: [IOManager] by its locked sections and its methods, over an interface
      [Epoll]; [IoFacts.v]: its invariant under any interleaving, its deadlines, and what
      goes wrong between the sections.
    - [WebSocket.v]: frames over a stream.  [Http2.v]: header
      blocks and frames.  [LoadBalancer.v],
      [CircuitBreaker.v], [RateLimit.v]: the classes of those names
      and what their loops and runs amount to.  [RpcClient.v]: framing, the
      manager of channels, discovery.
    - [DispatchFacts.v], [Transactions.v]: the lemmas on lookup and gates, on
      requests that change nothing shared, and on [MULTI]/[EXEC]/[WATCH].
    - [StoreInv.v], [HandlerInv.v], [ServerInv.v]: program logics by which the invariant
      goes through every operation, every handler, every step of the server.
      [BlockingFacts.v]: who a push wakes.  [Answers.v]: which requests are answered.
    - [Theorems.v], [ServerTheorems.v], [DistTheorems.v], [CoreTheorems.v],
      [NetTheorems.v], [ServiceTheorems.v]: the properties, numbered C1 to C40
      in the order of their importance (C23 is in [Glob.v]).  [Witnesses.v],
      [ServerWitnesses.v], [DistWitnesses.v], [CoreWitnesses.v], [NetWitnesses.v],
      [ServiceWitnesses.v]: each
      conditional property applied to a concrete store, session or server.

    ** What is shown

    - The whole server (C1, C8): in every state it reaches the store is typed, each
      entry in the shard its key hashes to, no container but a stream empty, the hubs
      consistent; no request for a command of the table, well-formed or not, can break this,
      while [RESTORE], which is not in it, can.
    - Refinement (C2, [families_refine]): the one-key methods implement an abstract keyspace, one by
      one and in sequences.
    - The protocol (C3, C4, C9, C10): what is encoded, but for the faults of
      [replies_off_protocol], is read back exactly, also in pieces through a session unless one ends after a "*" or "$"; the parser ends and reads past its input by at most one
      character.
    - Transactions (C5, C6, [multi_only_queues]); authentication and the other gates (C7, [gates_hold]); dispatch by name ([dispatch_by_name]); every
      request that does not wait is answered (C11).
    - Blocking lists (C12), publish/subscribe ([publish_reaches]), cluster slots ([slot_of_key]).
    - Persistence: a snapshot loads to what it was made of (C13), and cut short to
      nothing ([rdb_truncated]); a rewritten append-only file, replayed through the parser, the
      dispatcher and the handlers, brings the store back (C14).
    - Replication: what a [PSYNC] is answered in every state of the backlog (C15),
      and that a replica loses and repeats nothing between connections (C16).
    - Byte arrays: one flat buffer whatever the blocks (C19), typed values read back as
      written (C20).  Timers: exactly the due ones fire (C22), when the manager
      said ([idle_sleep_exact]), and none after its end (C21).
    - Sentinels: one winner per term (C17), but not one leader (C40); a
      failover leaves one master (C18).
    - The I/O manager: no waiter is lost or resumed twice whatever the interleaving
      (C24), what its methods do (C25), timeouts (C26), and the faults
      between its sections (C39).
    - WebSocket messages arrive as they were sent (C27), receiving always ends (C28), and
      what is refused (C37).  HTTP/2: header blocks come back whole (C29), what the decoder does
      not read (C30), what frames do to a connection (C31).
    - RPC: requests and answers in order over any stream (C32), retries ([rpc_retries]), the balancer's
      choices and their fairness ([lb_selects], C36), what breakers guarantee (C34,
      [breaker_recovers]) and do not (C38), also for the calls that go through them
      (C33).  Rate limits: the sliding window is exact for each key (C35).
    - Eviction ([evict_ends]), several keys ([set_algebra], [many_keys]), whole databases ([databases_listed]), per type
      ([ranking], [xadd_increases], [group_deliveries]), [matchGlob] (C23).

    ** Bounds

    [glob_fuel] bounds the steps of [matchGlob] (C23 shows it is enough), and
    [evictIfNeededLocked] runs its loop one step more than there are live keys ([evict_ends]).  The
    reader gives each nested value one unit of fuel and starts with one more than there
    are characters (C9).  [recvCommand] needs one unit per read and per doubling of the
    buffer, [recv_steps] (C4).  [run_handler] takes one unit per nested [EXEC]: two are
    enough, since an [EXEC] that [EXEC] runs finds no transaction (C11).  Terms of sentinels are assumed below
    2^64 - 1.  [encode_groups] writes at most five groups of a 32-bit
    integer; the loops of [Http2.v] take a unit per byte.  [WSRecvMessage] and the loop of the RPC server take a unit per head or length read,
    so one more than the bytes there are is enough (C28, C32).  Round-robin indices are assumed
    below 2^64, sizes of messages below 2^31.  A blocking pop
    takes a unit per poll; no bound is claimed for it, as it waits for others.  Watch
    versions are assumed below 2^64 where a token must differ; stream sequence numbers
    below 2^64 - 1 where identifiers must increase.  Signed overflow, undefined in C++,
    is the two's-complement result.

    ** What is not modelled

    Locks are taken as giving atomic sections; the data race of expiring and touching
    entries under a read lock is outside the model.  Of the commands, [CONFIG], [INFO],
    [SAVE], [BGSAVE], [BGREWRITEAOF], [LASTSAVE],
    [TIME], [SHUTDOWN], [EVAL], [EVALSHA] and [SCRIPT] are not,
    since they reach the file system, the process, other clocks or Lua.  [RESTORE] is modelled
    ([CmdRdb.v]) but not in the table of [Dispatch.v], since it can break the invariant of
    C1 (C8 shows how), nor are [ROLE], [SLAVEOF] and [PSYNC]
    ([Replication.v]), whose state [World] holds only in part; [Dispatch.left_out] lists them
    all, and the runs of [ServerInv.v] send none of them.  The sessions that [CLIENT LIST] prints are a parameter of
    the table.  [randomReplId] is a parameter.  Of persistence, the files themselves and the JSON format
    of old snapshots (read by jsoncpp) are not.  The cluster's
    manager, bus and configuration are excluded from the repository's own build (its
    CMakeLists.txt says they no longer fit [KvContext] and [KvStore]), so only the key
    slots are modelled.  The
    rest of the runtime (fibers and their scheduler, the hooks but for the wait, logging), the HTTP server with its generated parsers,
    the WebSocket handshake and the clients of etcd, ZooKeeper and MySQL are left out. *)

From stdpp Require Export base tactics list gmap strings sets fin_maps fin_map_dom
  fin_sets sorting numbers pretty.
From stdpp Require Import options.
From Stdlib Require Export ZArith Lia.

#[export] Set Warnings "-clear-no-such-hyp".

(** ** Scope and literals *)

Declare Scope kv_scope.
Delimit Scope kv_scope with kv.
#[global] Open Scope Z_scope.

(** ** Machine integers

    [int64_t] and [uint64_t] are [Z] with the wrap-around written out.  Signed
    overflow is undefined in C++; the model uses the two's-complement result every
    supported compiler produces, and theorems that need it assume no overflow. *)

Definition INT64_MAX : Z := 2 ^ 63 - 1.
Definition INT64_MIN : Z := - 2 ^ 63.
Definition UINT64_MAX : Z := 2 ^ 64 - 1.

Definition i64 (z : Z) : Z := (z + 2 ^ 63) `mod` 2 ^ 64 - 2 ^ 63.
Definition u64 (z : Z) : Z := z `mod` 2 ^ 64.
Definition u32 (z : Z) : Z := z `mod` 2 ^ 32.
(** [(int)z] *)
Definition i32 (z : Z) : Z := (z + 2 ^ 31) `mod` 2 ^ 32 - 2 ^ 31.

Definition in_i64 (z : Z) : Prop := INT64_MIN ≤ z ≤ INT64_MAX.
Definition in_u64 (z : Z) : Prop := 0 ≤ z ≤ UINT64_MAX.

#[global] Instance in_i64_dec z : Decision (in_i64 z).
Proof. unfold in_i64. apply _. Defined.
#[global] Instance in_u64_dec z : Decision (in_u64 z).
Proof. unfold in_u64. apply _. Defined.

Lemma i64_id z : in_i64 z → i64 z = z.
Proof.
  unfold in_i64, INT64_MIN, INT64_MAX, i64. intros H.
  rewrite Z.mod_small; lia.
Qed.

Lemma u64_id z : in_u64 z → u64 z = z.
Proof. unfold in_u64, UINT64_MAX, u64. intros H. apply Z.mod_small; lia. Qed.

Lemma i64_range z : in_i64 (i64 z).
Proof.
  unfold in_i64, INT64_MIN, INT64_MAX, i64.
  pose proof (Z.mod_pos_bound (z + 2 ^ 63) (2 ^ 64)). lia.
Qed.

(** Wrapping an operand of a sum before the sum is the same. *)
Lemma i64_add_l a b : i64 (i64 a + b) = i64 (a + b).
Proof.
  unfold i64. f_equal.
  replace ((a + 2 ^ 63) mod 2 ^ 64 - 2 ^ 63 + b + 2 ^ 63) with ((a + 2 ^ 63) mod 2 ^ 64 + b) by ring.
  rewrite Zplus_mod_idemp_l. f_equal. ring.
Qed.

Lemma u64_range z : in_u64 (u64 z).
Proof.
  unfold in_u64, UINT64_MAX, u64.
  pose proof (Z.mod_pos_bound z (2 ^ 64)). lia.
Qed.

(** ** The state monad of the store's critical sections *)

Definition State (S A : Type) : Type := S → S * A.

#[global] Instance state_ret {S} : MRet (State S) := λ A a s, (s, a).
#[global] Instance state_bind {S} : MBind (State S) :=
  λ A B k m s, let '(s', a) := m s in k a s'.

Definition modify {S} (f : S → S) : State S unit := λ s, (f s, tt).
Definition gets {S A} (f : S → A) : State S A := λ s, (s, f s).

(** [for x in l do m x]: a C++ range-for whose body only has effects. *)
Fixpoint for_each {S A} (l : list A) (m : A → State S unit) : State S unit :=
  match l with
  | [] => mret tt
  | x :: l => m x ;; for_each l m
  end.

Lemma ret_run {S A} (a : A) (s : S) : (mret a : State S A) s = (s, a).
Proof. done. Qed.
Lemma bind_run {S A B} (m : State S A) (k : A → State S B) (s : S) :
  (m ≫= k) s = k (m s).2 (m s).1.
Proof. unfold mbind, state_bind. by destruct (m s). Qed.
Lemma modify_run {S} (f : S → S) (s : S) : modify f s = (f s, tt).
Proof. done. Qed.
Lemma gets_run {S A} (f : S → A) (s : S) : gets f s = (s, f s).
Proof. done. Qed.

Create HintDb kv.
Create Rewrite HintDb run.
#[export] Hint Rewrite @ret_run @bind_run : run.

(** ** Results

    A C++ method returns a value and writes [out] parameters and the optional
    [*err] message.  [res_out] holds the out parameters ([None] where the method
    leaves them unwritten), [res_err] the message when one is stored. *)

Record Res (R O : Type) : Type := mkRes { res_ret : R; res_out : O; res_err : option string }.
Arguments mkRes {R O} _ _ _.
Arguments res_ret {R O} _.
Arguments res_out {R O} _.
Arguments res_err {R O} _.

Definition ok {R O} (r : R) (o : O) : Res R O := mkRes r o None.
Definition fail {R O} (r : R) (o : O) (msg : string) : Res R O := mkRes r o (Some msg).

(** ** Lists *)

Lemma filter_fmap {A B} (f : A → B) (P : B → Prop) `{∀ x, Decision (P x)} (l : list A) :
  filter P (f <$> l) = f <$> filter (λ x, P (f x)) l.
Proof.
  induction l as [|x l IH]; [done|]. rewrite fmap_cons, !filter_cons, IH.
  by case_decide.
Qed.

Lemma filter_all {A} (P : A → Prop) `{∀ x, Decision (P x)} (l : list A) :
  (∀ x, x ∈ l → P x) → filter P l = l.
Proof.
  induction l as [|x l IH]; intros Hl; [done|]. rewrite filter_cons, decide_True.
  - f_equal. apply IH. intros y Hy. apply Hl. by right.
  - apply Hl. by left.
Qed.

Lemma filter_none {A} (P : A → Prop) `{∀ x, Decision (P x)} (l : list A) :
  (∀ x, x ∈ l → ¬ P x) → filter P l = [].
Proof.
  induction l as [|x l IH]; intros Hl; [done|]. rewrite filter_cons, decide_False.
  - apply IH. intros y Hy. apply Hl. by right.
  - apply Hl. by left.
Qed.

Lemma length_filter_map {A} (P : string * A → Prop) `{∀ x, Decision (P x)} (m : gmap string A) l :
  l ≡ₚ map_to_list m → length (filter P l) = size (filter P m).
Proof.
  intros Hl. rewrite Hl, <-length_map_to_list. apply Permutation_length.
  apply NoDup_Permutation; [apply NoDup_filter, NoDup_map_to_list|apply NoDup_map_to_list|].
  intros [k x]. rewrite list_elem_of_filter, !elem_of_map_to_list, map_lookup_filter_Some.
  naive_solver.
Qed.

(** ** Finite sets of strings *)

Lemma size_new_elem (X D : gset string) f :
  f ∉ X → f ∉ D → size ((X ∪ {[f]}) ∖ D) = S (size (X ∖ D)).
Proof.
  intros. replace ((X ∪ {[f]}) ∖ D) with ({[f]} ∪ (X ∖ D)) by set_solver.
  rewrite size_union, size_singleton by set_solver. done.
Qed.

Lemma size_inter_elem (X D : gset string) f :
  f ∉ D → f ∈ X → size (X ∩ (D ∪ {[f]})) = S (size (X ∩ D)).
Proof.
  intros. replace (X ∩ (D ∪ {[f]})) with ({[f]} ∪ (X ∩ D)) by set_solver.
  rewrite size_union, size_singleton by set_solver. done.
Qed.

(** ** Updating a map with a list of pairs *)

(** [for(p : kvs) { if(m.find(p.first) == m.end()) ++added; m[p.first] = p.second; }] *)
Definition insert_loop {A} (m : gmap string A) (kvs : list (string * A)) : gmap string A * Z :=
  foldl (λ '(m, added) p,
    (<[p.1 := p.2]> m, if bool_decide (m !! p.1 = None) then added + 1 else added)) (m, 0) kvs.

(** The number of distinct keys of the list that are not in [m]. *)
Definition new_keys {A} (m : gmap string A) (kvs : list (string * A)) : Z :=
  Z.of_nat (size (list_to_set (kvs.*1) ∖ dom m : gset string)).

(** Later pairs win. *)
Lemma insert_loop_spec {A} (m : gmap string A) (kvs : list (string * A)) :
  insert_loop m kvs = (list_to_map (reverse kvs) ∪ m, new_keys m kvs).
Proof.
  induction kvs as [|[k v] kvs IH] using rev_ind.
  { unfold insert_loop, new_keys; simpl. rewrite (left_id_L ∅ (∪)).
    by replace (∅ ∖ dom m) with (∅ : gset string) by set_solver. }
  unfold insert_loop in *. rewrite foldl_app, IH; simpl.
  rewrite reverse_app; simpl. rewrite insert_union_l. f_equal.
  unfold new_keys. rewrite fmap_app, list_to_set_app_L; simpl. rewrite (right_id_L ∅ (∪)).
  assert (((list_to_map (reverse kvs) : gmap string A) ∪ m) !! k = None ↔
          k ∉ list_to_set kvs.*1 ∪ dom m) as Hin.
  { rewrite <-not_elem_of_dom, dom_union_L, dom_list_to_map_L, fmap_reverse. set_solver. }
  revert Hin. generalize (list_to_set kvs.*1 : gset string). intros X Hin.
  case_bool_decide as Hnew; rewrite Hin in Hnew.
  - apply not_elem_of_union in Hnew as [??]. rewrite size_new_elem by done. lia.
  - replace ((X ∪ {[k]}) ∖ dom m) with (X ∖ dom m); [done|].
    apply dec_stable in Hnew. apply set_eq. intros x. destruct (decide (x = k)); set_solver.
Qed.

Lemma map_update_non_empty {A} (kvs : list (string * A)) (m : gmap string A) :
  kvs ≠ [] → (list_to_map (reverse kvs) : gmap string A) ∪ m ≠ ∅.
Proof.
  intros Hne E. apply Hne. apply (f_equal dom) in E.
  rewrite dom_union_L, dom_list_to_map_L, fmap_reverse, dom_empty_L in E.
  destruct kvs as [|[k v] kvs]; [done|]. exfalso.
  rewrite fmap_cons, reverse_cons in E. set_solver.
Qed.

Lemma filter_empty_set (P : string → Prop) `{∀ x, Decision (P x)} :
  filter P (∅ : gset string) = ∅.
Proof. apply set_eq. intros x. rewrite elem_of_filter. set_solver. Qed.

(** A map rebuilt from its pairs, in any order. *)
Lemma foldl_insert {K A} `{Countable K} (l : list (K * A)) (m : gmap K A) :
  NoDup l.*1 → foldl (λ m p, <[p.1 := p.2]> m) m l = list_to_map l ∪ m.
Proof.
  revert m. induction l as [|[k a] l IH]; intros m; [simpl; by rewrite (left_id_L ∅ (∪))|].
  intros [Hk Hl]%NoDup_cons. cbn [foldl]. rewrite IH by done. simpl.
  rewrite <-insert_union_l, <-insert_union_r; [done|]. by apply not_elem_of_list_to_map_1.
Qed.

Lemma foldl_insert_perm {K A} `{Countable K} (l : list (K * A)) m :
  l ≡ₚ map_to_list m → foldl (λ m p, <[p.1 := p.2]> m) ∅ l = m.
Proof.
  intros Hl. assert (NoDup l.*1) as Hd by (rewrite Hl; apply NoDup_fst_map_to_list).
  rewrite foldl_insert, (right_id_L ∅ (∪)) by done.
  rewrite <-(list_to_map_to_list m). by apply list_to_map_proper.
Qed.

Lemma fmap_bind {A B C} (f : A → list B) (g : B → C) l : g <$> (l ≫= f) = l ≫= λ a, g <$> f a.
Proof. induction l as [|a l IH]; [done|]. cbn. by rewrite fmap_app, IH. Qed.
