(* ===== verification/CStd.v ===== *)
(** * The C++ standard library, as far as the store uses it

    Byte strings ([std::string] is Rocq's [string], one [ascii] per [char]),
    [strtoll]/[strtoull] on a [c_str()], [std::to_string], [std::sort], and the
    interface [StdImpl] to what the standard leaves to the implementation: the hash
    function and the iteration order of the unordered containers. *)

From stdpp Require Import options.
From Stdlib Require Import Ascii.
From S2P Require Import Prelude.

(** ** Characters and strings *)

Definition is_space (c : ascii) : bool :=
  match c with
  | "009" | "010" | "011" | "012" | "013" | " " => true
  | _ => false
  end%char.

Definition digit_val (c : ascii) : option Z :=
  let n := Z.of_N (N_of_ascii c) in
  if (48 <=? n) && (n <=? 57) then Some (n - 48) else None.

(** The bytes of a string. *)
Abbreviation chars := String.list_ascii_of_string.
Abbreviation text := String.string_of_list_ascii.

(** [(unsigned char)c] *)
Definition byte_of (c : ascii) : Z := Z.of_N (N_of_ascii c).

(** [s.size()] as the [int64_t] the code casts it to. *)
Definition str_size (s : string) : Z := Z.of_nat (String.length s).

(** [operator<] on [std::string]: unsigned lexicographic. *)
Definition str_lt (a b : string) : bool :=
  match String.compare a b with Lt => true | _ => false end.

(** ** [strtoll], [strtoull]

    Both return the value and the number of characters consumed ([end - nptr]);
    consuming nothing means no conversion.  A NUL byte stops the scan like any other
    non-digit.  Out-of-range values saturate ([errno] is never read by the code). *)

Fixpoint skip_spaces (s : string) : string :=
  match s with
  | String c s' => if is_space c then skip_spaces s' else s
  | EmptyString => EmptyString
  end.

Definition scan_sign (s : string) : bool * string :=
  match s with
  | String "-" s' => (true, s')
  | String "+" s' => (false, s')
  | _ => (false, s)
  end.

Fixpoint scan_digits (acc : Z) (s : string) : Z * string :=
  match s with
  | String c s' =>
      match digit_val c with
      | Some d => scan_digits (10 * acc + d) s'
      | None => (acc, s)
      end
  | EmptyString => (acc, EmptyString)
  end.

(** Sign, magnitude and the unread rest; [None] when there is no digit. *)
Definition scan_int (s : string) : option (bool * Z * string) :=
  let '(neg, s1) := scan_sign (skip_spaces s) in
  match s1 with
  | String c _ =>
      match digit_val c with
      | Some _ => let '(m, rest) := scan_digits 0 s1 in Some (neg, m, rest)
      | None => None
      end
  | EmptyString => None
  end.

Definition strtoll (s : string) : Z * nat :=
  match scan_int s with
  | Some (neg, m, rest) =>
      let v := if neg : bool then - m else m in
      (Z.max INT64_MIN (Z.min INT64_MAX v),
       (String.length s - String.length rest)%nat)
  | None => (0, 0%nat)
  end.

Definition strtoull (s : string) : Z * nat :=
  match scan_int s with
  | Some (neg, m, rest) =>
      (if m <=? UINT64_MAX then u64 (if neg : bool then - m else m) else UINT64_MAX,
       (String.length s - String.length rest)%nat)
  | None => (0, 0%nat)
  end.

(** [std::stoi]; [None] is an exception. *)
Definition stoi (s : string) : option Z :=
  match scan_int s with
  | Some _ => let v := (strtoll s).1 in if (- 2 ^ 31 <=? v) && (v <? 2 ^ 31) then Some v else None
  | None => None
  end.

(** [s.find(c)], what is left behind the first [n] characters, [s.find(c, from)]. *)
Fixpoint find_char (c : ascii) (s : string) : option nat :=
  match s with
  | EmptyString => None
  | String c' s => if Ascii.eqb c' c then Some 0%nat else S <$> find_char c s
  end.
Fixpoint str_drop (n : nat) (s : string) : string :=
  match n, s with
  | S n, String _ s => str_drop n s
  | _, _ => s
  end.
Definition find_char_from (c : ascii) (from : nat) (s : string) : option nat :=
  Nat.add from <$> find_char c (str_drop from s).

(** [std::to_string] of an integer. *)
Definition to_string (z : Z) : string := pretty z.

(** ** [std::sort]

    The element order among equivalent elements is unspecified; the model is stable.
    Every comparator the store sorts with, except the two eviction policies', is a
    total order on the values that reach it, where the result is unique
    ([std_sort_unique]). *)

Fixpoint sort_insert {A} (lt : A → A → bool) (x : A) (l : list A) : list A :=
  match l with
  | [] => [x]
  | y :: l' => if lt y x then y :: sort_insert lt x l' else x :: y :: l'
  end.

Definition std_sort {A} (lt : A → A → bool) (l : list A) : list A :=
  foldr (sort_insert lt) [] l.

(** A strict weak order on the values satisfying [P] (a NaN score breaks it). *)
Record StrictOrder {A} (P : A → Prop) (lt : A → A → bool) : Prop := {
  so_asym a b : P a → P b → lt a b = true → lt b a = false;
  so_cotrans a b c : P a → P b → P c → lt b a = false → lt c b = false → lt c a = false
}.

Definition not_above {A} (lt : A → A → bool) (a b : A) : Prop := lt b a = false.

Lemma sort_insert_perm {A} (lt : A → A → bool) x l : sort_insert lt x l ≡ₚ x :: l.
Proof.
  induction l as [|y l IH]; simpl; [done|]. destruct (lt y x); [|done].
  by rewrite IH, Permutation_swap.
Qed.

Lemma std_sort_perm {A} (lt : A → A → bool) l : std_sort lt l ≡ₚ l.
Proof. induction l as [|x l IH]; simpl; [done|]. by rewrite sort_insert_perm, IH. Qed.

Lemma std_sort_elem {A} (lt : A → A → bool) l x : x ∈ std_sort lt l ↔ x ∈ l.
Proof. by rewrite std_sort_perm. Qed.

Lemma std_sort_length {A} (lt : A → A → bool) l : length (std_sort lt l) = length l.
Proof. by rewrite std_sort_perm. Qed.

Lemma sort_insert_sorted {A} (P : A → Prop) (lt : A → A → bool) x l :
  StrictOrder P lt → P x → Forall P l →
  StronglySorted (not_above lt) l → StronglySorted (not_above lt) (sort_insert lt x l).
Proof.
  intros [Hasym Hcot] Hx Hl Hs.
  induction Hs as [|y l Hs IH Hy]; simpl; [by repeat constructor|].
  apply Forall_cons in Hl as [HPy Hl].
  destruct (lt y x) eqn:E; constructor; auto; [|by constructor|].
  - rewrite sort_insert_perm. constructor; [|done]. unfold not_above. auto.
  - constructor; [done|]. rewrite Forall_forall in *. intros z Hz.
    unfold not_above in *. eapply (Hcot x y z); eauto.
Qed.

Lemma std_sort_sorted {A} (P : A → Prop) (lt : A → A → bool) l :
  StrictOrder P lt → Forall P l → StronglySorted (not_above lt) (std_sort lt l).
Proof.
  intros HO Hl. induction Hl as [|x l Hx Hl IH]; simpl; [constructor|].
  eapply sort_insert_sorted; eauto. by rewrite std_sort_perm.
Qed.

(** A sorted permutation is unique when the order separates its elements. *)
Lemma std_sort_unique {A} (P : A → Prop) (lt : A → A → bool) l1 l2 :
  StrictOrder P lt → Forall P l1 →
  (∀ a b, a ∈ l1 → b ∈ l1 → lt a b = false → lt b a = false → a = b) →
  l1 ≡ₚ l2 → std_sort lt l1 = std_sort lt l2.
Proof.
  intros HO Hl Hsep Hp.
  assert (Forall P l2) as Hl2 by (by rewrite <-Hp).
  apply (StronglySorted_unique_strong (not_above lt));
    [|by eapply std_sort_sorted..|by rewrite !std_sort_perm].
  intros a b Ha Hb H1 H2. rewrite !std_sort_elem in Ha, Hb.
  rewrite <-Hp in Hb. by apply Hsep.
Qed.

(** *** The order on strings *)

Lemma str_lt_false a b : str_lt b a = false ↔ (a ≤ b)%string.
Proof.
  unfold str_lt, String.le, String.leb. rewrite (String.compare_antisym b a).
  destruct (a ?= b)%string; simpl; split; intros H; try done; by destruct H.
Qed.

Lemma str_lt_true a b : str_lt a b = true ↔ (a ≤ b)%string ∧ a ≠ b.
Proof.
  split.
  - intros Hlt. split.
    + unfold str_lt, String.le, String.leb in *. by destruct (a ?= b)%string.
    + intros ->. pose proof (proj2 (str_lt_false b b)) as H.
      by rewrite H in Hlt by done.
  - intros [Hle Hne]. destruct (str_lt a b) eqn:E; [done|].
    apply str_lt_false in E. by destruct Hne; apply (anti_symm String.le).
Qed.

Lemma str_lt_irrefl a : str_lt a a = false.
Proof. by apply str_lt_false. Qed.

Lemma str_lt_order P : StrictOrder P str_lt.
Proof.
  split.
  - intros a b _ _ [Hle Hne]%str_lt_true. by apply str_lt_false.
  - intros a b c _ _ _ H1%str_lt_false H2%str_lt_false. apply str_lt_false. by etrans.
Qed.

Lemma str_lt_sep a b : str_lt a b = false → str_lt b a = false → a = b.
Proof. intros H1%str_lt_false H2%str_lt_false. by apply (anti_symm String.le). Qed.

(** [std::sort] on strings yields the one ascending arrangement. *)
Definition sort_strings (l : list string) : list string := std_sort str_lt l.

Lemma sort_strings_perm l : sort_strings l ≡ₚ l.
Proof. apply std_sort_perm. Qed.
Lemma sort_strings_elem l x : x ∈ sort_strings l ↔ x ∈ l.
Proof. apply std_sort_elem. Qed.
Lemma sort_strings_sorted l : StronglySorted String.le (sort_strings l).
Proof.
  assert (Forall (λ _, True) l) as Hl by (by apply Forall_true).
  pose proof (std_sort_sorted _ str_lt l (str_lt_order _) Hl) as H. unfold sort_strings.
  induction H as [|x l' _ IH Hx]; constructor; [done|].
  eapply Forall_impl; [exact Hx|]. intros y. apply str_lt_false.
Qed.
Lemma sort_strings_proper l1 l2 : l1 ≡ₚ l2 → sort_strings l1 = sort_strings l2.
Proof.
  apply (std_sort_unique (λ _, True)); [apply str_lt_order|by apply Forall_true|].
  intros; by apply str_lt_sep.
Qed.
#[export] Instance sort_strings_Proper : Proper ((≡ₚ) ==> (=)) sort_strings.
Proof. intros l1 l2. apply sort_strings_proper. Qed.

Lemma sort_strings_unique l1 l2 :
  StronglySorted String.le l2 → l1 ≡ₚ l2 → sort_strings l1 = l2.
Proof.
  intros Hs Hp. apply (StronglySorted_unique String.le); [apply sort_strings_sorted|done|].
  by rewrite sort_strings_perm.
Qed.

Lemma StronglySorted_filter {A} (R : relation A) (P : A → Prop) `{∀ x, Decision (P x)} l :
  StronglySorted R l → StronglySorted R (filter P l).
Proof.
  induction 1 as [|x l _ IH Hx]; [constructor|].
  rewrite filter_cons. destruct (decide (P x)); [|done]. constructor; [done|].
  rewrite Forall_forall in *. intros y [_ Hy]%list_elem_of_filter. by apply Hx.
Qed.

Lemma StronglySorted_fmap {A B} (R : relation A) (S : relation B) (f : A → B) l :
  (∀ x y, R x y → S (f x) (f y)) → StronglySorted R l → StronglySorted S (f <$> l).
Proof.
  intros HRS. induction 1 as [|x l _ IH Hx]; simpl; constructor; [done|].
  apply Forall_fmap. eapply Forall_impl; [exact Hx|]. intros y. apply HRS.
Qed.

(** ** Strings as lists of characters *)

Lemma chars_app a b : chars (a +:+ b) = chars a ++ chars b.
Proof. induction a as [|c a IH]; [done|]. simpl. by rewrite IH. Qed.

Lemma chars_length s : length (chars s) = String.length s.
Proof. induction s as [|c s IH]; simpl; [done|]. by rewrite IH. Qed.

Lemma app_length_s a b : String.length (a +:+ b) = (String.length a + String.length b)%nat.
Proof. by rewrite <-!chars_length, chars_app, length_app. Qed.

Lemma app_assoc_s (a b c : string) : (a +:+ b) +:+ c = a +:+ b +:+ c.
Proof. induction a as [|x a IH]; [done|]. exact (f_equal (String x) IH). Qed.

Lemma text_chars s : text (chars s) = s.
Proof. apply String.string_of_list_ascii_of_string. Qed.

Lemma chars_text l : chars (text l) = l.
Proof. apply String.list_ascii_of_string_of_list_ascii. Qed.

Lemma str_size_pos s : 0 ≤ str_size s.
Proof. unfold str_size. lia. Qed.

(** ** What the standard leaves to the implementation

    An operation of the store is run under some [StdImpl]; every theorem quantifies
    over it, so it holds for any hash function, any bucket order and any random
    draws. *)

Class StdImpl := {
  std_hash : string → N;
  hash_iter : ∀ {K A} `{Countable K}, gmap K A → list (K * A);
  hash_iter_perm : ∀ {K A} `{Countable K} (m : gmap K A), hash_iter m ≡ₚ map_to_list m;
  (* the [k]-th draw of [uniform_int_distribution(0, n - 1)] on a random seed *)
  std_dist : nat → nat → nat;
  std_dist_range : ∀ k n, (0 < n)%nat → (std_dist k n < n)%nat
}.

(** Range-for over an [unordered_set]. *)
Definition hash_iter_set `{impl : !StdImpl} (X : gset string) : list string :=
  (hash_iter (gset_to_gmap () X)).*1.

(** Range-for over a [std::map<std::string, A>]: by ascending key. *)
Definition map_iter {A} (m : gmap string A) : list (string * A) :=
  std_sort (λ a b, str_lt a.1 b.1) (map_to_list m).

Section iter.
Context `{impl : !StdImpl}.

Lemma hash_iter_elem {K A} `{Countable K} (m : gmap K A) k a :
  (k, a) ∈ hash_iter m ↔ m !! k = Some a.
Proof. by rewrite hash_iter_perm, elem_of_map_to_list. Qed.

Lemma hash_iter_set_perm X : hash_iter_set X ≡ₚ elements X.
Proof.
  unfold hash_iter_set. rewrite hash_iter_perm.
  apply NoDup_Permutation; [apply NoDup_fst_map_to_list|apply NoDup_elements|].
  intros x. rewrite elem_of_elements, list_elem_of_fmap. split.
  - intros ([k []] & -> & Hk). apply elem_of_map_to_list in Hk.
    by apply lookup_gset_to_gmap_Some in Hk as [? _].
  - intros Hx. exists (x, ()). split; [done|].
    apply elem_of_map_to_list. by apply lookup_gset_to_gmap_Some.
Qed.

Lemma hash_iter_set_elem X x : x ∈ hash_iter_set X ↔ x ∈ X.
Proof. by rewrite hash_iter_set_perm, elem_of_elements. Qed.
End iter.

Lemma map_iter_perm {A} (m : gmap string A) : map_iter m ≡ₚ map_to_list m.
Proof. apply std_sort_perm. Qed.

Lemma map_iter_elem {A} (m : gmap string A) k a : (k, a) ∈ map_iter m ↔ m !! k = Some a.
Proof. by rewrite map_iter_perm, elem_of_map_to_list. Qed.

Lemma map_iter_fst {A} (m : gmap string A) l :
  l ≡ₚ map_to_list m → (map_iter m).*1 = sort_strings l.*1.
Proof.
  intros Hp. symmetry. apply sort_strings_unique; [|by rewrite Hp, map_iter_perm].
  eapply (StronglySorted_fmap (not_above (λ a b : string * A, str_lt a.1 b.1))).
  { intros x y. apply str_lt_false. }
  destruct (str_lt_order (λ _, True)) as [Ha Hc].
  eapply (std_sort_sorted (λ _, True)); [|by apply Forall_true].
  split; [intros a b _ _; by apply Ha|intros a b c _ _ _; by apply Hc].
Qed.

(** A concrete implementation, for evaluating operations on examples: a small
    multiplicative hash and the order of the trie. *)
Fixpoint poly_hash (acc : N) (s : string) : N :=
  match s with
  | EmptyString => acc
  | String c s' => poly_hash (acc * 31 + N_of_ascii c)%N s'
  end.

Lemma mod_range (k n : nat) : (0 < n)%nat → (k mod n < n)%nat.
Proof. intros. apply Nat.mod_upper_bound. lia. Qed.

Definition plain_impl : StdImpl := {|
  std_hash := poly_hash 7;
  hash_iter := λ _ _ _ _ m, map_to_list m;
  hash_iter_perm := λ _ _ _ _ m, reflexivity _;
  std_dist := Nat.modulo;
  std_dist_range := mod_range
|}.

(** ** [std::to_string] and the parsers *)

Lemma digit_val_pretty_N_char n :
  (n < 10)%N → digit_val (pretty_N_char n) = Some (Z.of_N n).
Proof.
  intros Hn.
  assert (n = 0 ∨ n = 1 ∨ n = 2 ∨ n = 3 ∨ n = 4 ∨ n = 5 ∨ n = 6 ∨ n = 7 ∨ n = 8 ∨ n = 9)%N
    as H by lia.
  by destruct_or! H; subst.
Qed.

Lemma pretty_N_go_app x s t : pretty_N_go x s +:+ t = pretty_N_go x (s +:+ t).
Proof.
  revert s. induction (N.lt_wf_0 x) as [x _ IH]; intros s.
  destruct (decide (x = 0)%N) as [->|Hx]; [by rewrite !pretty_N_go_0|].
  rewrite (pretty_N_go_step x s), (pretty_N_go_step x (s +:+ t)) by lia.
  rewrite IH; [done|]. apply N.div_lt; lia.
Qed.

(** Scanning the digits of [x] and then [s] continues from [x]. *)
Lemma scan_pretty_N_go x s :
  ∃ k, ∀ acc, scan_digits acc (pretty_N_go x s) = scan_digits (acc * k + Z.of_N x) s.
Proof.
  revert s. induction (N.lt_wf_0 x) as [x _ IH]; intros s.
  destruct (decide (x = 0)%N) as [->|Hx].
  { exists 1. intros acc. rewrite pretty_N_go_0. f_equal. lia. }
  rewrite pretty_N_go_step by lia.
  destruct (IH (x `div` 10)%N) with (s := String (pretty_N_char (x `mod` 10)) s) as [k Hk];
    [apply N.div_lt; lia|].
  exists (10 * k). intros acc. rewrite Hk. cbn [scan_digits].
  rewrite digit_val_pretty_N_char by (apply N.mod_lt; lia).
  f_equal. rewrite N2Z.inj_div, N2Z.inj_mod. change (Z.of_N 10) with 10.
  pose proof (Z.div_mod (Z.of_N x) 10). lia.
Qed.

(** No further digit follows. *)
Definition stops (s : string) : Prop :=
  match s with EmptyString => True | String c _ => digit_val c = None end.

Lemma scan_digits_stop acc s : stops s → scan_digits acc s = (acc, s).
Proof. destruct s; simpl; [done|]. by intros ->. Qed.

Lemma to_string_nonneg z : 0 ≤ z → to_string z = pretty (Z.to_N z).
Proof. unfold to_string. by destruct z. Qed.

Lemma scan_to_string z s :
  0 ≤ z → stops s → scan_digits 0 (to_string z +:+ s) = (z, s).
Proof.
  intros Hz Hs. rewrite to_string_nonneg by done.
  unfold pretty, pretty_N. case_decide as H0.
  - assert (z = 0) as -> by lia. simpl. by apply scan_digits_stop.
  - rewrite pretty_N_go_app. destruct (scan_pretty_N_go (Z.to_N z) s) as [k Hk].
    simpl. rewrite Hk, scan_digits_stop by done. f_equal. lia.
Qed.

Lemma pretty_N_go_starts x s :
  (0 < x)%N → ∃ c s' d, pretty_N_go x s = String c s' ∧ digit_val c = Some d.
Proof.
  revert s. induction (N.lt_wf_0 x) as [x _ IH]; intros s Hx.
  rewrite pretty_N_go_step by lia.
  destruct (decide (x `div` 10 = 0)%N) as [->|Hd].
  - rewrite pretty_N_go_0. do 3 eexists. split; [done|].
    apply digit_val_pretty_N_char, N.mod_lt. lia.
  - apply IH; [apply N.div_lt; lia|by apply N.neq_0_lt_0].
Qed.

Lemma to_string_starts z :
  0 ≤ z → ∃ c s d, to_string z = String c s ∧ digit_val c = Some d.
Proof.
  intros Hz. rewrite to_string_nonneg by done. unfold pretty, pretty_N.
  case_decide; [by exists "0"%char, "", 0|]. apply pretty_N_go_starts. lia.
Qed.

Lemma to_string_neg z : z < 0 → to_string z = String "-" (to_string (- z)).
Proof. destruct z as [|p|p]; try lia. done. Qed.

Lemma digit_not_space c d : digit_val c = Some d → is_space c = false.
Proof. destruct c as [[] [] [] [] [] [] [] []]; try done. Qed.

Lemma digit_not_sign c s d :
  digit_val c = Some d → scan_sign (skip_spaces (String c s)) = (false, String c s).
Proof.
  intros Hd. simpl. rewrite (digit_not_space c d Hd).
  destruct c as [[] [] [] [] [] [] [] []]; done.
Qed.

Lemma app_empty_r (s : string) : s +:+ "" = s.
Proof. induction s as [|c s IH]; [done|]. change (String c (s +:+ "") = String c s). by rewrite IH. Qed.

(** [strtoll] reads back what [to_string] wrote, to the last character. *)
Lemma strtoll_to_string z :
  in_i64 z → strtoll (to_string z) = (z, String.length (to_string z)).
Proof.
  intros Hz. unfold strtoll, scan_int.
  assert (∀ n, 0 ≤ n → scan_digits 0 (to_string n) = (n, "")) as Hscan.
  { intros n Hn. rewrite <-(scan_to_string n "" Hn I). f_equal. symmetry. apply app_empty_r. }
  destruct (decide (0 ≤ z)) as [Hp|Hn].
  - destruct (to_string_starts z Hp) as (c & s & d & E & Hd).
    rewrite E. rewrite (digit_not_sign c s d Hd), Hd, <-E, Hscan by done. simpl.
    f_equal; [unfold in_i64 in Hz; lia|lia].
  - rewrite to_string_neg by lia. cbn [skip_spaces scan_sign is_space].
    destruct (to_string_starts (- z)) as (c & s & d & E & Hd); [lia|].
    rewrite E. rewrite Hd, <-E, Hscan by lia. simpl.
    unfold in_i64 in Hz. f_equal. lia.
Qed.

Lemma find_char_cons c c' s :
  find_char c (String c' s) = if Ascii.eqb c' c then Some 0%nat else S <$> find_char c s.
Proof. done. Qed.

Lemma find_char_app c pre s :
  find_char c pre = None → find_char c (pre +:+ String c s) = Some (String.length pre).
Proof.
  induction pre as [|c' pre IH].
  - intros _. change ("" +:+ String c s) with (String c s).
    by rewrite find_char_cons, Ascii.eqb_refl.
  - change (String c' pre +:+ String c s) with (String c' (pre +:+ String c s)).
    rewrite !find_char_cons. destruct (Ascii.eqb c' c); [done|].
    intros H. destruct (find_char c pre); [done|]. by rewrite IH.
Qed.

Lemma str_drop_app pre s : str_drop (String.length pre) (pre +:+ s) = s.
Proof. by induction pre. Qed.

Lemma substring_app pre s t :
  String.substring (String.length pre) (String.length s) (pre +:+ s +:+ t) = s.
Proof.
  induction pre as [|c pre IH]; [|exact IH]. induction s as [|c s IH]; [by destruct t|].
  change (String.substring (String.length "") (String.length (String c s)) ("" +:+ String c s +:+ t))
    with (String c (String.substring 0 (String.length s) (s +:+ t))).
  f_equal. exact IH.
Qed.
