(* ===== verification/Glob.v ===== *)
(** * Glob patterns: [KvStore::matchGlob]

    The store matches keys, fields and members against [*]/[?] patterns with the
    usual two-index loop that remembers the last star and backtracks to it.  The
    loop is modelled with its indices; [GlobMatch] is the declarative meaning of a
    pattern; the main lemma relates them for texts free of the star character. *)

From stdpp Require Import options.
From Stdlib Require Import Ascii.
From S2P Require Import Prelude.
From S2P Require Import CStd.

(** ** The loop *)

(** [pi], [ti] and the last star: [None] is [star_pi == npos], otherwise
    [(star_pi, star_ti)]. *)
Record GlobState : Type := mkGlob { g_pi : nat; g_ti : nat; g_star : option (nat * nat) }.

Definition is_star (c : ascii) : bool := Ascii.eqb c "*".
Definition is_qmark (c : ascii) : bool := Ascii.eqb c "?".

(** [while(pi < pattern.size() && pattern[pi] == '*') ++pi; return pi == size] *)
Definition only_stars (p : list ascii) : bool := forallb is_star p.

(** One iteration, or the function's result. *)
Definition glob_step (p t : list ascii) (st : GlobState) : GlobState + bool :=
  match t !! g_ti st with
  | None => inr (only_stars (drop (g_pi st) p))
  | Some c =>
      let backtrack :=
        match g_star st with
        | Some (sp, sti) => inl (mkGlob sp (S sti) (Some (sp, S sti)))
        | None => inr false
        end in
      match p !! g_pi st with
      | None => backtrack
      | Some q =>
          if is_qmark q || Ascii.eqb q c then
            inl (mkGlob (S (g_pi st)) (S (g_ti st)) (g_star st))
          else if is_star q then
            inl (mkGlob (S (g_pi st)) (g_ti st) (Some (S (g_pi st), g_ti st)))
          else backtrack
      end
  end.

Fixpoint glob_loop (fuel : nat) (p t : list ascii) (st : GlobState) : option bool :=
  match fuel with
  | O => None
  | S fuel =>
      match glob_step p t st with
      | inl st' => glob_loop fuel p t st'
      | inr b => Some b
      end
  end.

(** Enough iterations for any run, see [glob_loop_total]. *)
Definition glob_fuel (p t : list ascii) : nat :=
  S ((length t + 2) * S (length p) + length p).

(** The whole loop; [None] would mean that [glob_fuel] was too little. *)
Definition matchGlob_run (pattern text : string) : option bool :=
  glob_loop (glob_fuel (chars pattern) (chars text)) (chars pattern) (chars text)
    (mkGlob 0 0 None).

Definition matchGlob (pattern text : string) : bool :=
  default false (matchGlob_run pattern text).

(** ** The meaning of a pattern *)

Inductive GlobMatch : list ascii → list ascii → Prop :=
  | gm_nil : GlobMatch [] []
  | gm_star_empty p t : GlobMatch p t → GlobMatch ("*"%char :: p) t
  | gm_star_more p c t : GlobMatch ("*"%char :: p) t → GlobMatch ("*"%char :: p) (c :: t)
  | gm_any p c t : GlobMatch p t → GlobMatch ("?"%char :: p) (c :: t)
  | gm_lit p c t : c ≠ "*"%char → c ≠ "?"%char → GlobMatch p t → GlobMatch (c :: p) (c :: t).

#[export] Hint Constructors GlobMatch : kv.

(** ** Termination *)

Definition glob_measure (p t : list ascii) (st : GlobState) : nat :=
  match g_star st with
  | None => (length t + 2) * S (length p)
  | Some (_, sti) => (length t + 1 - sti) * S (length p)
  end + (length p - g_pi st).

(** The text index never runs behind the star's, and stays in range. *)
Definition glob_ok (t : list ascii) (st : GlobState) : Prop :=
  (g_ti st ≤ length t)%nat ∧
  match g_star st with None => True | Some (_, sti) => (sti ≤ g_ti st)%nat end.

Lemma is_star_true c : is_star c = true ↔ c = "*"%char.
Proof. apply Ascii.eqb_eq. Qed.

Lemma glob_step_ok p t st st' :
  glob_ok t st → glob_step p t st = inl st' →
  glob_ok t st' ∧ (glob_measure p t st' < glob_measure p t st)%nat.
Proof.
  destruct st as [pi ti star]; unfold glob_ok, glob_step, glob_measure; simpl.
  intros [Hti Hstar] Hstep.
  destruct (t !! ti) as [c|] eqn:Ht; [|done].
  apply lookup_lt_Some in Ht.
  destruct (p !! pi) as [q|] eqn:Hp; [apply lookup_lt_Some in Hp|];
    repeat case_match; simplify_eq/=; (split; [split; [lia|try done; lia]|nia]).
Qed.

Lemma glob_loop_total p t fuel st :
  glob_ok t st → (glob_measure p t st < fuel)%nat → is_Some (glob_loop fuel p t st).
Proof.
  revert st. induction fuel as [|fuel IH]; intros st Hok Hm; [lia|]. simpl.
  destruct (glob_step p t st) as [st'|b] eqn:Hs; [|by eexists].
  destruct (glob_step_ok _ _ _ _ Hok Hs). apply IH; [done|lia].
Qed.

(** ** Lemmas on the meaning of patterns *)

Lemma gm_only_stars p : only_stars p = true ↔ GlobMatch p [].
Proof.
  induction p as [|q p IH]; simpl; [by split; auto using gm_nil|].
  rewrite andb_true_iff, is_star_true, IH. split.
  - intros [-> ?]. by constructor.
  - by inv 1.
Qed.

Lemma gm_nil_inv t : GlobMatch [] t → t = [].
Proof. by inv 1. Qed.

Lemma gm_star_inv p t :
  GlobMatch ("*"%char :: p) t ↔ ∃ k, (k ≤ length t)%nat ∧ GlobMatch p (drop k t).
Proof.
  split.
  - remember ("*"%char :: p) as p' eqn:E. intros H; revert p E.
    induction H as [|p' t H IH|p' c t H IH|p' c t H IH|p' c t Hn ? H IH];
      intros p0 E; simplify_eq.
    + exists 0%nat. split; [lia|done].
    + destruct (IH p0 eq_refl) as (k & ? & ?). exists (S k). split; [simpl; lia|done].
  - intros (k & Hk & H). revert t Hk H.
    induction k as [|k IH]; intros t Hk H; [by constructor|].
    destruct t as [|c t]; simpl in *; [lia|]. apply gm_star_more, IH; [lia|done].
Qed.

Lemma gm_head_match q p c t :
  (is_qmark q || Ascii.eqb q c) = true → c ≠ "*"%char →
  GlobMatch (q :: p) (c :: t) ↔ GlobMatch p t.
Proof.
  intros Hq Hc. apply orb_true_iff in Hq. split.
  - inv 1; try done; [|].
    all: destruct Hq as [Hq|Hq]; [done|apply Ascii.eqb_eq in Hq]; by simplify_eq.
  - intros H. destruct Hq as [->%Ascii.eqb_eq| ->%Ascii.eqb_eq]; [by constructor|].
    destruct (decide (c = "?"%char)) as [->|]; by constructor.
Qed.

Lemma gm_head_mismatch q p c t :
  (is_qmark q || Ascii.eqb q c) = false → is_star q = false → ¬ GlobMatch (q :: p) (c :: t).
Proof.
  intros [Hq Hc]%orb_false_iff Hs. unfold is_qmark, is_star in *. inv 1; simpl in *; try done.
  by rewrite Ascii.eqb_refl in Hc.
Qed.

(** A segment without stars consumes exactly its length. *)
Lemma gm_segment s p t :
  Forall (λ q, is_star q = false) s → GlobMatch (s ++ p) t →
  (length s ≤ length t)%nat ∧ GlobMatch p (drop (length s) t).
Proof.
  intros Hs. revert t. induction Hs as [|q s Hq Hs IH]; intros t Hm; simpl in *.
  { split; [lia|done]. }
  inv Hm; simpl in *; try done; destruct (IH _ ltac:(eassumption)); (split; [lia|done]).
Qed.

(** ** The loop invariant *)

(** What the current state can still accept: the rest from the two indices, or, by
    backtracking, the pattern after the last star from a later text position. *)
Definition glob_accepts (p t : list ascii) (st : GlobState) : Prop :=
  GlobMatch (drop (g_pi st) p) (drop (g_ti st) t) ∨
  match g_star st with
  | None => False
  | Some (sp, sti) => ∃ k, (sti < k ≤ length t)%nat ∧ GlobMatch (drop sp p) (drop k t)
  end.

(** Since the last star the two indices advanced together over a star-free segment. *)
Definition glob_inv (p t : list ascii) (st : GlobState) : Prop :=
  glob_ok t st ∧ (g_pi st ≤ length p)%nat ∧
  match g_star st with
  | None => True
  | Some (sp, sti) =>
      ∃ s, Forall (λ q, is_star q = false) s ∧ drop sp p = s ++ drop (g_pi st) p ∧
           (g_ti st = sti + length s)%nat ∧ (sp ≤ length p)%nat
  end.

(** Backtracking moves the star's text position one to the right: the alternatives
    with a later position stay, the failed one had nothing to offer. *)
Lemma glob_backtrack p t pi ti sp sti :
  (sti ≤ ti < length t)%nat → glob_inv p t (mkGlob pi ti (Some (sp, sti))) →
  ¬ GlobMatch (drop pi p) (drop ti t) →
  let st' := mkGlob sp (S sti) (Some (sp, S sti)) in
  glob_inv p t st' ∧
  (glob_accepts p t st' ↔ glob_accepts p t (mkGlob pi ti (Some (sp, sti)))).
Proof.
  unfold glob_inv, glob_accepts, glob_ok; simpl. intros Ht (_ & Hpi & s & ? & Heq & ? & ?) Hno.
  split.
  - split_and!; [lia..|]. exists []. simpl. split_and!; [constructor|done|lia..].
  - split.
    + intros [?|(k & ? & ?)]; right; [exists (S sti)|exists k]; (split; [lia|done]).
    + intros [?|(k & ? & ?)]; [done|].
      destruct (decide (k = S sti)) as [->|]; [by left|]. right; exists k. split; [lia|done].
Qed.

(** A new star subsumes every alternative of the previous one. *)
Lemma glob_star_subsumes p t pi ti star :
  p !! pi = Some "*"%char → glob_inv p t (mkGlob pi ti star) →
  glob_accepts p t (mkGlob pi ti star) →
  GlobMatch (drop pi p) (drop ti t).
Proof.
  unfold glob_inv, glob_accepts; simpl. intros Hp (_ & _ & Hseg) [H|H]; [done|].
  destruct star as [[sp sti]|]; [|done].
  destruct Hseg as (s & Hs & Heq & Hti & _), H as (k & ? & H).
  rewrite Heq, (drop_S _ _ _ Hp) in H. apply gm_segment in H as [Hl H]; [|done].
  rewrite length_drop in Hl. rewrite drop_drop in H.
  apply gm_star_inv in H as (j & Hj & H). rewrite (drop_S _ _ _ Hp). apply gm_star_inv.
  rewrite length_drop in Hj. rewrite drop_drop in H.
  exists (k + length s + j - ti)%nat. rewrite length_drop, drop_drop.
  replace (ti + (k + length s + j - ti))%nat with (k + length s + j)%nat by lia.
  split; [lia|done].
Qed.

Lemma glob_new_star p t pi ti star :
  (ti ≤ length t)%nat → p !! pi = Some "*"%char → glob_inv p t (mkGlob pi ti star) →
  let st' := mkGlob (S pi) ti (Some (S pi, ti)) in
  glob_inv p t st' ∧ (glob_accepts p t st' ↔ glob_accepts p t (mkGlob pi ti star)).
Proof.
  intros Ht Hp Hinv. pose proof (lookup_lt_Some _ _ _ Hp) as Hlp. split.
  { unfold glob_inv, glob_ok; simpl. split_and!; [lia..|].
    exists []. simpl. split_and!; [constructor|done|lia..]. }
  split.
  - unfold glob_accepts; simpl. intros Hor. left. rewrite (drop_S _ _ _ Hp). apply gm_star_inv.
    destruct Hor as [H|(k & ? & H)].
    + exists 0%nat. split; [lia|done].
    + exists (k - ti)%nat. rewrite length_drop, drop_drop.
      replace (ti + (k - ti))%nat with k by lia. split; [lia|done].
  - intros Hm%glob_star_subsumes; [|done..]. rewrite (drop_S _ _ _ Hp) in Hm.
    apply gm_star_inv in Hm as (k & Hk & Hm). rewrite length_drop in Hk.
    rewrite drop_drop in Hm. unfold glob_accepts; simpl.
    destruct k as [|k]; [left; by rewrite Nat.add_0_r in Hm|].
    right. exists (ti + S k)%nat. split; [lia|done].
Qed.

Lemma glob_advance p t pi ti star q c :
  p !! pi = Some q → t !! ti = Some c → c ≠ "*"%char →
  (is_qmark q || Ascii.eqb q c) = true → glob_inv p t (mkGlob pi ti star) →
  let st' := mkGlob (S pi) (S ti) star in
  glob_inv p t st' ∧ (glob_accepts p t st' ↔ glob_accepts p t (mkGlob pi ti star)).
Proof.
  intros Hp Ht Hc Hq (Hok & Hpi & Hseg). unfold glob_inv, glob_accepts, glob_ok in *; simpl in *.
  pose proof (lookup_lt_Some _ _ _ Ht). pose proof (lookup_lt_Some _ _ _ Hp).
  rewrite (drop_S _ _ _ Ht), (drop_S _ _ _ Hp), gm_head_match by done. split; [|done].
  split_and!; [lia|destruct star as [[]|]; [lia|done]|lia|].
  destruct star as [[sp sti]|]; [|done]. destruct Hseg as (s & ? & Heq & ? & ?).
  exists (s ++ [q]). rewrite length_app. simpl.
  split_and!; [|by rewrite Heq, (drop_S _ _ _ Hp), <-(assoc_L (++))|lia|done].
  apply Forall_app; split; [done|]. constructor; [|done].
  apply not_true_iff_false. intros ->%is_star_true. apply orb_true_iff in Hq as [?|Hq]; [done|].
  apply Ascii.eqb_eq in Hq. congruence.
Qed.

#[local] Set Default Proof Using "Type*".

Section loop.
Context (p t : list ascii) (Hnt : Forall (λ c, c ≠ "*"%char) t).

Lemma glob_step_inv st st' :
  glob_inv p t st → glob_step p t st = inl st' →
  glob_inv p t st' ∧ (glob_accepts p t st' ↔ glob_accepts p t st).
Proof.
  intros Hinv Hstep. destruct st as [pi ti star]; unfold glob_step in *; simpl in *.
  destruct (t !! ti) as [c|] eqn:Ht; [|done].
  pose proof (Forall_lookup_1 _ _ _ _ Hnt Ht) as Hc; simpl in Hc.
  pose proof (lookup_lt_Some _ _ _ Ht) as Hlt.
  assert (∀ sp sti, star = Some (sp, sti) → (sti ≤ ti)%nat) as Hle.
  { intros sp sti ->. by destruct Hinv as [[_ ?] _]. }
  destruct (p !! pi) as [q|] eqn:Hp.
  - destruct (is_qmark q || Ascii.eqb q c) eqn:Hq; simplify_eq/=; [by eapply glob_advance|].
    destruct (is_star q) eqn:Hs; simplify_eq/=.
    + apply is_star_true in Hs as ->. apply glob_new_star; [lia|done..].
    + destruct star as [[sp sti]|]; simplify_eq/=.
      apply glob_backtrack; [naive_solver|done|].
      rewrite (drop_S _ _ _ Hp), (drop_S _ _ _ Ht). by apply gm_head_mismatch.
  - destruct star as [[sp sti]|]; simplify_eq/=. apply lookup_ge_None in Hp.
    apply glob_backtrack; [naive_solver|done|].
    rewrite (drop_ge p), (drop_S _ _ _ Ht) by done. by intros ?%gm_nil_inv.
Qed.

Lemma glob_step_result st b :
  glob_inv p t st → glob_step p t st = inr b → b = true ↔ glob_accepts p t st.
Proof.
  intros (Hok & Hpi & Hseg) Hstep.
  destruct st as [pi ti star]; unfold glob_step, glob_accepts, glob_ok in *; simpl in *.
  destruct (t !! ti) as [c|] eqn:Ht.
  - rewrite (drop_S _ _ _ Ht). destruct (p !! pi) as [q|] eqn:Hp.
    + rewrite (drop_S _ _ _ Hp). repeat case_match; simplify_eq/=.
      split; [done|]. intros [Hm|[]]. by destruct (gm_head_mismatch _ _ _ _ ltac:(eassumption) ltac:(eassumption) Hm).
    + apply lookup_ge_None in Hp. rewrite drop_ge by done.
      repeat case_match; simplify_eq/=. split; [done|]. by intros [?%gm_nil_inv|[]].
  - simplify_eq/=. apply lookup_ge_None in Ht. rewrite (drop_ge t) by done.
    rewrite gm_only_stars. split; [by left|]. intros [?|H]; [done|].
    destruct star as [[sp sti]|]; [|done]. destruct H as (k & ? & Hm).
    destruct Hseg as (s & Hs & Heq & ? & ?). rewrite Heq in Hm.
    apply gm_segment in Hm as [Hl _]; [|done]. rewrite length_drop in Hl. lia.
Qed.

Lemma glob_loop_correct fuel st b :
  glob_inv p t st → glob_loop fuel p t st = Some b → b = true ↔ glob_accepts p t st.
Proof.
  revert st. induction fuel as [|fuel IH]; intros st Hinv Hl; simpl in *; [done|].
  destruct (glob_step p t st) as [st'|b'] eqn:Hs; simplify_eq/=.
  - destruct (glob_step_inv _ _ Hinv Hs) as [? <-]. by apply IH.
  - by apply glob_step_result.
Qed.
End loop.

(** The loop always ends within [glob_fuel] iterations. *)
Lemma glob_terminates p t : is_Some (glob_loop (glob_fuel p t) p t (mkGlob 0 0 None)).
Proof.
  apply glob_loop_total; [split; [simpl; lia|done]|].
  unfold glob_measure, glob_fuel; simpl. lia.
Qed.

Lemma glob_init_inv p t : glob_inv p t (mkGlob 0 0 None).
Proof. split_and!; [split; [simpl; lia|done]|simpl; lia|done]. Qed.

(** ** Properties *)

(** C23: for every pattern and every text without the star character, the matching
    loop terminates and answers exactly whether the text is in the language of the
    pattern ([*] any sequence, [?] any one character, other characters themselves). *)
Theorem matchGlob_correct pattern text :
  Forall (λ c, c ≠ "*"%char) (chars text) →
  matchGlob_run pattern text = Some (matchGlob pattern text) ∧
  (matchGlob pattern text = true ↔ GlobMatch (chars pattern) (chars text)).
Proof.
  intros Hnt. unfold matchGlob, matchGlob_run.
  destruct (glob_terminates (chars pattern) (chars text)) as [b Hb].
  rewrite Hb; simpl. split; [done|].
  rewrite (glob_loop_correct _ _ Hnt _ _ _ (glob_init_inv _ _) Hb).
  unfold glob_accepts; simpl. rewrite !drop_0. naive_solver.
Qed.

Lemma matchGlob_correct_witness :
  Forall (λ c, c ≠ "*"%char) (chars "user:42") ∧
  matchGlob_run "us*:?2" "user:42" = Some (matchGlob "us*:?2" "user:42") ∧
  (matchGlob "us*:?2" "user:42" = true ↔ GlobMatch (chars "us*:?2") (chars "user:42")).
Proof.
  assert (Forall (λ c, c ≠ "*"%char) (chars "user:42")) as H by (by repeat constructor).
  exact (conj H (matchGlob_correct "us*:?2" "user:42" H)).
Defined.

(** A star in the text is compared with the pattern's star as a literal before
    it is tried as a wildcard, so the pattern [*] rejects texts it must match. *)
Lemma matchGlob_star_literal :
  matchGlob "*" "*a" = false ∧ GlobMatch (chars "*") (chars "*a").
Proof. split; [by vm_compute|]. simpl. auto with kv. Qed.
