(* ===== verification/Double.v ===== *)
(** * IEEE-754 binary64: the store's [double] scores

    A [double] is the standard library's [spec_float] at precision 53 and maximal
    exponent 1024, so comparison, addition and decimal conversion are computed
    exactly as IEEE-754 prescribes (round to nearest, ties to even).  [strtod] and
    the two [printf] conversions the store uses ([%.17g] and [%f]) are written out on
    exact integers. *)

From Stdlib Require Import Ascii.
From Stdlib.Floats Require Import SpecFloat.
From stdpp Require Import options.
From S2P Require Import Prelude.
From S2P Require Import CStd.

Definition double : Type := spec_float.

Definition prec : Z := 53.
Definition emax : Z := 1024.

#[global] Instance double_eq_dec : EqDecision double.
Proof. solve_decision. Defined.

Definition d_zero : double := S754_zero false.
Definition d_add (a b : double) : double := SFadd prec emax a b.
Definition d_sub (a b : double) : double := SFsub prec emax a b.
Definition d_mul (a b : double) : double := SFmul prec emax a b.
Definition d_div (a b : double) : double := SFdiv prec emax a b.
Definition d_eqb (a b : double) : bool := SFeqb a b.
Definition d_ltb (a b : double) : bool := SFltb a b.
Definition d_leb (a b : double) : bool := SFleb a b.
Definition d_is_nan (a : double) : bool := match a with S754_nan => true | _ => false end.

(** [m * 10^e], correctly rounded, with the sign [neg]. *)
Definition d_round_dec (neg : bool) (m e : Z) : double :=
  match m with
  | Zpos p =>
      (* digits of [m]: at most [log2 m + 1]; far outside the range, saturate *)
      if 400 <? e then S754_infinity neg
      else if e <? - (Z.log2 m + 800) then S754_zero neg
      else if 0 <=? e then
        binary_round prec emax neg (Z.to_pos (m * 10 ^ e)) 0
      else
        let '(mz, ez, l) := SFdiv_core_binary prec emax m 0 (10 ^ (- e)) 0 in
        binary_round_aux prec emax neg mz ez l
  | _ => S754_zero neg
  end.

(** [m * 2^e], correctly rounded (hexadecimal literals). *)
Definition d_round_bin (neg : bool) (m e : Z) : double :=
  match m with
  | Zpos p => binary_round prec emax neg p e
  | _ => S754_zero neg
  end.

Definition of_Z (z : Z) : double := d_round_dec (z <? 0) (Z.abs z) 0.

(** ** [strtod] *)

Definition to_lower (c : ascii) : ascii :=
  let n := N_of_ascii c in
  if (65 <=? n)%N && (n <=? 90)%N then ascii_of_N (n + 32) else c.

(** The rest of [s] after the word [w], compared without case. *)
Fixpoint strip_word (w s : string) : option string :=
  match w, s with
  | EmptyString, _ => Some s
  | String a w', String c s' => if Ascii.eqb a (to_lower c) then strip_word w' s' else None
  | String _ _, EmptyString => None
  end.

Definition hex_val (c : ascii) : option Z :=
  match digit_val c with
  | Some d => Some d
  | None =>
      let n := Z.of_N (N_of_ascii (to_lower c)) in
      if (97 <=? n) && (n <=? 102) then Some (n - 87) else None
  end.

(** A run of digits: value, how many, rest. *)
Fixpoint scan_run (base : Z) (val : ascii → option Z) (acc : Z) (n : nat) (s : string)
  : Z * nat * string :=
  match s with
  | String c s' =>
      match val c with
      | Some d => scan_run base val (base * acc + d) (S n) s'
      | None => (acc, n, s)
      end
  | EmptyString => (acc, n, EmptyString)
  end.

(** [digits[.digits]]: mantissa, number of fraction digits, rest; at least one digit. *)
Definition scan_mantissa (base : Z) (val : ascii → option Z) (s : string)
  : option (Z * nat * string) :=
  let '(m, n, s1) := scan_run base val 0 0 s in
  match s1 with
  | String "." s2 =>
      let '(m', n', s3) := scan_run base val m 0 s2 in
      if (n + n' =? 0)%nat then None else Some (m', n', s3)
  | _ => if (n =? 0)%nat then None else Some (m, 0%nat, s1)
  end.

(** An exponent part introduced by [mark]; absent or malformed, it reads as 0 and
    consumes nothing. *)
Definition scan_exponent (mark : ascii) (s : string) : Z * string :=
  match s with
  | String c s1 =>
      if Ascii.eqb (to_lower c) mark then
        let '(neg, s2) := scan_sign s1 in
        let '(e, n, s3) := scan_run 10 digit_val 0 0 s2 in
        if (n =? 0)%nat then (0, s) else ((if neg : bool then - e else e), s3)
      else (0, s)
  | EmptyString => (0, s)
  end.

Definition scan_decimal (neg : bool) (s : string) : option (double * string) :=
  match scan_mantissa 10 digit_val s with
  | Some (m, nf, s1) =>
      let '(e, s2) := scan_exponent "e" s1 in
      Some (d_round_dec neg m (e - Z.of_nat nf), s2)
  | None => None
  end.

Definition scan_hex (neg : bool) (s : string) : option (double * string) :=
  match strip_word "0x" s with
  | Some s1 =>
      match scan_mantissa 16 hex_val s1 with
      | Some (m, nf, s2) =>
          let '(e, s3) := scan_exponent "p" s2 in
          Some (d_round_bin neg m (e - 4 * Z.of_nat nf), s3)
      | None => None
      end
  | None => None
  end.

(** The optional [(...)] of a NaN. *)
Fixpoint scan_paren (s : string) : option string :=
  match s with
  | String ")" s' => Some s'
  | String c s' =>
      let n := N_of_ascii (to_lower c) in
      if bool_decide (is_Some (digit_val c)) || ((97 <=? n) && (n <=? 122))%N || Ascii.eqb c "_"
      then scan_paren s' else None
  | EmptyString => None
  end.

Definition scan_double (neg : bool) (s : string) : option (double * string) :=
  match strip_word "infinity" s with
  | Some s' => Some (S754_infinity neg, s')
  | None =>
  match strip_word "inf" s with
  | Some s' => Some (S754_infinity neg, s')
  | None =>
  match strip_word "nan" s with
  | Some s' =>
      Some (S754_nan, match s' with
                      | String "(" s1 => default s' (scan_paren s1)
                      | _ => s'
                      end)
  | None =>
  match scan_hex neg s with
  | Some r => Some r
  | None => scan_decimal neg s
  end end end end.

(** Value and number of characters consumed. *)
Definition strtod (s : string) : double * nat :=
  let '(neg, s1) := scan_sign (skip_spaces s) in
  match scan_double neg s1 with
  | Some (d, rest) => (d, (String.length s - String.length rest)%nat)
  | None => (d_zero, 0%nat)
  end.

(** ** [printf] conversions *)

(** [num / den], rounded to the nearest integer, ties to even. *)
Definition div_half_even (num den : Z) : Z :=
  let q := num / den in
  let r := num mod den in
  if (2 * r <? den) then q
  else if (den <? 2 * r) then q + 1
  else if Z.even q then q else q + 1.

Fixpoint zeros (n : nat) : string :=
  match n with O => EmptyString | S n => String "0" (zeros n) end.

(** Decimal digits padded on the left to [n] characters. *)
Definition pad_digits (n : nat) (z : Z) : string :=
  let s := pretty z in zeros (n - String.length s) +:+ s.

Definition sign_str (neg : bool) (s : string) : string := if neg then String "-" s else s.

(** [m * 2^e] as a fraction. *)
Definition as_fraction (m : positive) (e : Z) : Z * Z :=
  if 0 <=? e then (Zpos m * 2 ^ e, 1) else (Zpos m, 2 ^ (- e)).

(** [v * 10^k] rounded to an integer. *)
Definition scaled (num den k : Z) : Z :=
  if 0 <=? k then div_half_even (num * 10 ^ k) den else div_half_even num (den * 10 ^ (- k)).

(** The decimal exponent of [num/den], from an estimate by its binary one. *)
Fixpoint adjust_exp (fuel : nat) (num den x : Z) : Z :=
  match fuel with
  | O => x
  | S fuel =>
      let ge := if 0 <=? x + 1 then (den * 10 ^ (x + 1) <=? num)
                else (den <=? num * 10 ^ (- (x + 1))) in
      if ge then adjust_exp fuel num den (x + 1) else x
  end.

Definition dec_exponent (num den : Z) : Z :=
  adjust_exp 4 num den ((Z.log2 num - Z.log2 den - 1) * 30103 / 100000 - 1).

Fixpoint strip_zeros_rev (s : list ascii) : list ascii :=
  match s with
  | "0"%char :: s' => strip_zeros_rev s'
  | "."%char :: s' => s'
  | _ => s
  end.

(** Trailing zeros of a fraction, and a then trailing point. *)
Definition strip_fraction (s : string) : string :=
  String.string_of_list_ascii (rev (strip_zeros_rev (rev (String.list_ascii_of_string s)))).

Definition insert_point (k : nat) (digits : string) : string :=
  String.substring 0 k digits +:+ "." +:+
  String.substring k (String.length digits - k) digits.

Definition exp_str (x : Z) : string :=
  "e" +:+ (if x <? 0 then "-" else "+") +:+ pad_digits 2 (Z.abs x).

(** ["%.Ng"], for [prec] digits. *)
Definition printf_g (prec : Z) (d : double) : string :=
  match d with
  | S754_zero neg => sign_str neg "0"
  | S754_infinity neg => sign_str neg "inf"
  | S754_nan => "nan"
  | S754_finite neg m e =>
      let '(num, den) := as_fraction m e in
      let x0 := dec_exponent num den in
      let n0 := scaled num den (prec - 1 - x0) in
      let '(n, x) := if n0 =? 10 ^ prec then (10 ^ (prec - 1), x0 + 1) else (n0, x0) in
      sign_str neg
        (if (-4 <=? x) && (x <? 0) then
           strip_fraction ("0." +:+ zeros (Z.to_nat (- x - 1)) +:+ pretty n)
         else if (0 <=? x) && (x <? prec) then
           strip_fraction (insert_point (Z.to_nat (x + 1)) (pretty n))
         else strip_fraction (insert_point 1 (pretty n)) +:+ exp_str x)
  end.

(** ["%.17g"]. *)
Definition printf_g17 : double → string := printf_g 17.

(** [std::ostringstream ss; ss << d;]: the default of six digits. *)
Definition stream_double : double → string := printf_g 6.

(** ["%f"], which is [std::to_string(double)]. *)
Definition to_string_double (d : double) : string :=
  match d with
  | S754_zero neg => sign_str neg "0.000000"
  | S754_infinity neg => sign_str neg "inf"
  | S754_nan => "nan"
  | S754_finite neg m e =>
      let '(num, den) := as_fraction m e in
      let n := scaled num den 6 in
      sign_str neg (pretty (n / 10 ^ 6) +:+ "." +:+ pad_digits 6 (n mod 10 ^ 6))
  end.

(** [s.find(c) != npos] *)
Definition str_has (c : ascii) (s : string) : bool :=
  existsb (Ascii.eqb c) (String.list_ascii_of_string s).

Definition d_is_inf (d : double) : bool :=
  match d with S754_infinity _ => true | _ => false end.

(** The trailing [while(!s.empty() && s.back() == '0') s.pop_back()], on the reversed
    characters. *)
Fixpoint pop_zeros (s : list ascii) : list ascii :=
  match s with
  | "0"%char :: s' => pop_zeros s'
  | _ => s
  end.

Definition formatDouble (v : double) : string :=
  if d_is_inf v || d_is_nan v then to_string_double v
  else
    let s := printf_g17 v in
    if str_has "." s && negb (str_has "e" s) && negb (str_has "E" s) then
      let r := pop_zeros (rev (String.list_ascii_of_string s)) in
      let r := match r with "."%char :: r' => r' | _ => r end in
      String.string_of_list_ascii (rev r)
    else s.

(** ** The order of the comparison operators

    Away from NaN the comparisons are those of a lexicographic key. *)

Definition d_key (d : double) : Z * Z * Z :=
  match d with
  | S754_infinity s => (if s then -2 else 2, 0, 0)
  | S754_finite true m e => (-1, - e, Z.neg m)
  | S754_finite false m e => (1, e, Z.pos m)
  | S754_zero _ | S754_nan => (0, 0, 0)
  end.

Definition key_compare (a b : Z * Z * Z) : comparison :=
  match a.1.1 ?= b.1.1 with
  | Eq => match a.1.2 ?= b.1.2 with Eq => a.2 ?= b.2 | c => c end
  | c => c
  end.

Definition key_lt (a b : Z * Z * Z) : Prop :=
  a.1.1 < b.1.1 ∨ a.1.1 = b.1.1 ∧ (a.1.2 < b.1.2 ∨ a.1.2 = b.1.2 ∧ a.2 < b.2).

Lemma SFcompare_key a b :
  d_is_nan a = false → d_is_nan b = false →
  SFcompare a b = Some (key_compare (d_key a) (d_key b)).
Proof.
  destruct a as [|sa| |sa ma ea], b as [|sb| |sb mb eb]; try done; intros _ _;
    try destruct sa; try destruct sb; try done; unfold SFcompare, key_compare; simpl.
  - rewrite Z.compare_opp. destruct (Z.compare_spec ea eb) as [->|?|?].
    + by rewrite Z.compare_refl.
    + by rewrite (proj2 (Z.compare_gt_iff eb ea)).
    + by rewrite (proj2 (Z.compare_lt_iff eb ea)).
Qed.

Lemma key_compare_spec a b :
  CompareSpec (a = b) (key_lt a b) (key_lt b a) (key_compare a b).
Proof.
  destruct a as [[a1 a2] a3], b as [[b1 b2] b3]. unfold key_compare, key_lt; simpl.
  destruct (Z.compare_spec a1 b1); [|constructor; lia..].
  destruct (Z.compare_spec a2 b2); [|constructor; lia..].
  destruct (Z.compare_spec a3 b3); constructor; [congruence|lia..].
Qed.

Lemma d_ltb_key a b :
  d_is_nan a = false → d_is_nan b = false → (d_ltb a b = true ↔ key_lt (d_key a) (d_key b)).
Proof.
  intros Ha Hb. unfold d_ltb, SFltb. rewrite SFcompare_key by done.
  destruct (key_compare_spec (d_key a) (d_key b)) as [->|?|?]; unfold key_lt in *;
    split; done || lia.
Qed.

Lemma d_eqb_key a b :
  d_is_nan a = false → d_is_nan b = false → (d_eqb a b = true ↔ d_key a = d_key b).
Proof.
  intros Ha Hb. unfold d_eqb, SFeqb. rewrite SFcompare_key by done.
  destruct (key_compare_spec (d_key a) (d_key b)) as [->|Hlt|Hlt]; unfold key_lt in *;
    split; try done; intros E; rewrite E in Hlt; lia.
Qed.

Lemma d_leb_ltb a b :
  d_is_nan a = false → d_is_nan b = false → d_leb a b = negb (d_ltb b a).
Proof.
  intros Ha Hb. unfold d_leb, d_ltb, SFleb, SFltb. rewrite !SFcompare_key by done.
  unfold key_compare. rewrite (Z.compare_antisym (d_key a).1.1), (Z.compare_antisym (d_key a).1.2),
    (Z.compare_antisym (d_key a).2).
  by do 3 destruct (_ ?= _).
Qed.
