(* ===== verification/Binary64.v ===== *)
(** * The bytes of a [double]

    [double_bits] is the object representation of a [double] as a 64-bit number (sign,
    exponent and mantissa fields of the IEEE-754 binary64 interchange format), which
    [memcpy] and [append(&v, 8)] see; [bits_double] reads it back.  A NaN is written as
    the quiet NaN. *)

From Stdlib.Floats Require Import SpecFloat.
From stdpp Require Import options.
From S2P Require Import Prelude.
From S2P Require Import CStd.
From S2P Require Import Double.

Definition sign_bit (s : bool) : Z := if s then 2 ^ 63 else 0.

Definition double_bits (d : double) : Z :=
  match d with
  | S754_zero s => sign_bit s
  | S754_infinity s => sign_bit s + 0x7ff * 2 ^ 52
  | S754_nan => 0x7ff * 2 ^ 52 + 2 ^ 51
  | S754_finite s m e =>
      if Z.pos m <? 2 ^ 52 then sign_bit s + Z.pos m
      else sign_bit s + (e + 1075) * 2 ^ 52 + (Z.pos m - 2 ^ 52)
  end.

Definition bits_double (b : Z) : double :=
  let s := 2 ^ 63 <=? b in
  let ex := (b / 2 ^ 52) `mod` 2 ^ 11 in
  let m := b `mod` 2 ^ 52 in
  if ex =? 0 then match m with Zpos p => S754_finite s p (-1074) | _ => S754_zero s end
  else if ex =? 0x7ff then if m =? 0 then S754_infinity s else S754_nan
  else match m + 2 ^ 52 with Zpos p => S754_finite s p (ex - 1075) | _ => S754_zero s end.

(** ** The round trip *)

Lemma digits2_pos_range p : 2 ^ (Z.pos (digits2_pos p) - 1) ≤ Z.pos p < 2 ^ Z.pos (digits2_pos p).
Proof.
  induction p as [p IH|p IH|]; cbn [digits2_pos]; [..|by vm_compute];
    rewrite Pos2Z.inj_succ, Z.sub_succ_l, !Z.pow_succ_r by lia; lia.
Qed.

(** A finite [double] is subnormal, with the least exponent, or has 53 bits. *)
Lemma bounded_cases m e :
  bounded prec emax m e = true →
  (Z.pos m < 2 ^ 52 ∧ e = -1074) ∨ (2 ^ 52 ≤ Z.pos m < 2 ^ 53 ∧ -1074 ≤ e ≤ 971).
Proof.
  unfold bounded, canonical_mantissa, fexp, emin, prec, emax.
  intros [Hc%Z.eqb_eq He%Z.leb_le]%andb_prop. pose proof (digits2_pos_range m) as [H1 H2].
  set (d := Z.pos (digits2_pos m)) in *. assert (0 < d) by lia.
  destruct (Z.le_gt_cases d 52).
  - left. split; [|lia]. eapply Z.lt_le_trans; [exact H2|]. by apply Z.pow_le_mono_r.
  - assert (d = 53) as Hd by lia. rewrite Hd in *. right. lia.
Qed.

Lemma double_bits_range d : valid_binary prec emax d = true → 0 ≤ double_bits d < 2 ^ 64.
Proof.
  intros Hv. destruct d as [[]|[]| |s m e]; unfold double_bits, sign_bit; [lia..|].
  apply bounded_cases in Hv.
  destruct (Z.ltb_spec (Z.pos m) (2 ^ 52)), s; lia.
Qed.

Lemma bits_double_bits d : valid_binary prec emax d = true → bits_double (double_bits d) = d.
Proof.
  intros Hv. destruct d as [[]|[]| |s m e]; [by vm_compute..|].
  apply bounded_cases in Hv. unfold bits_double. set (b := double_bits _).
  assert ((2 ^ 63 <=? b) = s ∧ (b `mod` 2 ^ 52 = if Z.pos m <? 2 ^ 52 then Z.pos m else Z.pos m - 2 ^ 52) ∧
          (b / 2 ^ 52) `mod` 2 ^ 11 = if Z.pos m <? 2 ^ 52 then 0 else e + 1075) as (-> & -> & ->).
  { unfold b, double_bits, sign_bit. clear b.
    destruct (Z.ltb_spec (Z.pos m) (2 ^ 52)), s; split_and!;
      first [apply Z.leb_le; lia|apply Z.leb_gt; lia|idtac]. 
    all: try (Z.to_euclidean_division_equations; lia). }
  destruct (Z.ltb_spec (Z.pos m) (2 ^ 52)); [destruct Hv as [[_ ->]|]; [done|lia]|].
  destruct Hv as [|[Hm He]]; [lia|].
  rewrite (proj2 (Z.eqb_neq _ 0)), (proj2 (Z.eqb_neq _ 0x7ff)) by lia.
  replace (Z.pos m - 2 ^ 52 + 2 ^ 52) with (Z.pos m) by lia. f_equal. lia.
Qed.
