(* ===== verification/Bytes.v ===== *)
(** * Bytes

    A block of memory is a list of characters, an unsigned integer in it the host's bytes,
    little-endian ([endian.h], the byte appenders of [rdb.cc]). *)

From Stdlib Require Import Ascii.
From stdpp Require Import options.
From S2P Require Import Prelude.
From S2P Require Import CStd.

#[local] Set Default Proof Using "Type*".

Abbreviation Bytes := (list ascii).

Definition byte (z : Z) : ascii := ascii_of_N (Z.to_N (z `mod` 256)).

(** The [n] low bytes of [v]. *)
Fixpoint le_bytes (n : nat) (v : Z) : Bytes :=
  match n with
  | O => []
  | S n => byte v :: le_bytes n (v / 256)
  end.

Fixpoint le_value (l : Bytes) : Z :=
  match l with [] => 0 | c :: l => byte_of c + 256 * le_value l end.

(** [bswap_16], [bswap_32], [bswap_64] for [n] bytes. *)
Definition byteswap (n : nat) (v : Z) : Z := le_value (rev (le_bytes n v)).

Lemma byte_range c : 0 ≤ byte_of c < 256.
Proof. unfold byte_of. pose proof (N_ascii_bounded c). lia. Qed.

Lemma byte_of_mod v : byte_of (byte v) = v `mod` 256.
Proof.
  unfold byte_of, byte. pose proof (Z.mod_pos_bound v 256). rewrite N_ascii_embedding; lia.
Qed.

Lemma byte_of_byte z : 0 ≤ z < 256 → byte_of (byte z) = z.
Proof. intros. rewrite byte_of_mod. by apply Z.mod_small. Qed.

Lemma byte_byte_of c : byte (byte_of c) = c.
Proof.
  unfold byte. rewrite Z.mod_small by apply byte_range. unfold byte_of.
  by rewrite N2Z.id, ascii_N_embedding.
Qed.

Lemma le_bytes_length n v : length (le_bytes n v) = n.
Proof. revert v. induction n as [|n IH]; intros v; [done|]. simpl. by rewrite IH. Qed.

Lemma le_value_bytes n v : le_value (le_bytes n v) = v `mod` 2 ^ (8 * Z.of_nat n).
Proof.
  revert v. induction n as [|n IH]; intros v; [by rewrite Z.mod_1_r|].
  cbn [le_bytes le_value]. rewrite byte_of_mod, IH, Nat2Z.inj_succ.
  replace (8 * Z.succ (Z.of_nat n)) with (8 + 8 * Z.of_nat n) by lia.
  rewrite Z.pow_add_r by lia. change (2 ^ 8) with 256.
  rewrite Z.rem_mul_r by lia. done.
Qed.

Lemma le_value_range l : 0 ≤ le_value l < 2 ^ (8 * Z.of_nat (length l)).
Proof.
  induction l as [|c l IH]; [done|]. cbn [le_value length]. rewrite Nat2Z.inj_succ.
  replace (8 * Z.succ (Z.of_nat (length l))) with (8 + 8 * Z.of_nat (length l)) by lia.
  rewrite Z.pow_add_r by lia. change (2 ^ 8) with 256. pose proof (byte_range c). lia.
Qed.

Lemma le_bytes_value l : le_bytes (length l) (le_value l) = l.
Proof.
  induction l as [|c l IH]; [done|]. cbn [le_value length le_bytes]. pose proof (byte_range c).
  rewrite (Z.mul_comm 256), Z.div_add, (Z.div_small (byte_of c)), Z.add_0_l, IH by lia.
  f_equal. rewrite <-(byte_byte_of c) at 2. unfold byte.
  by rewrite Z.mod_add, !Z.mod_small by lia.
Qed.

Lemma byteswap_range n v : 0 ≤ byteswap n v < 2 ^ (8 * Z.of_nat n).
Proof.
  unfold byteswap. pose proof (le_value_range (rev (le_bytes n v))) as H.
  by rewrite length_rev, le_bytes_length in H.
Qed.

(** Swapping twice gives the value back. *)
Lemma byteswap_twice n v : 0 ≤ v < 2 ^ (8 * Z.of_nat n) → byteswap n (byteswap n v) = v.
Proof.
  intros Hv. unfold byteswap at 1. unfold byteswap.
  replace (le_bytes n (le_value (rev (le_bytes n v)))) with (rev (le_bytes n v)).
  - rewrite rev_involutive, le_value_bytes. by apply Z.mod_small.
  - pose proof (le_bytes_value (rev (le_bytes n v))) as H.
    by rewrite length_rev, le_bytes_length in H.
Qed.

Lemma i64_mod v : i64 (v `mod` 2 ^ 64) = i64 v.
Proof. unfold i64. by rewrite Zplus_mod_idemp_l. Qed.

(** Bytes put together with shifts. *)
Lemma lor_shiftl_add a b k : 0 ≤ k → 0 ≤ b < 2 ^ k → Z.lor (Z.shiftl a k) b = a * 2 ^ k + b.
Proof.
  intros Hk Hb. rewrite <-Z.shiftl_mul_pow2 by done. pose proof (Z.add_lor_land (Z.shiftl a k) b) as H.
  assert (Z.land (Z.shiftl a k) b = 0) as H0; [|lia].
  apply Z.bits_inj'. intros i Hi. rewrite Z.land_spec, Z.bits_0. destruct (decide (i < k)).
  - by rewrite Z.shiftl_spec_low.
  - rewrite <-(Z.mod_small b (2 ^ k)) by done. rewrite Z.mod_pow2_bits_high by lia. by rewrite andb_false_r.
Qed.

Lemma be32_value b0 b1 b2 b3 : 0 ≤ b1 < 2 ^ 8 → 0 ≤ b2 < 2 ^ 8 → 0 ≤ b3 < 2 ^ 8 →
  Z.lor (Z.lor (Z.lor (Z.shiftl b0 24) (Z.shiftl b1 16)) (Z.shiftl b2 8)) b3 =
  b0 * 2 ^ 24 + b1 * 2 ^ 16 + b2 * 2 ^ 8 + b3.
Proof.
  intros H1 H2 H3. replace (Z.shiftl b0 24) with (Z.shiftl (Z.shiftl b0 8) 16) by (by rewrite Z.shiftl_shiftl).
  rewrite <-Z.shiftl_lor, (lor_shiftl_add b0 b1 8) by lia. set (h := b0 * 2 ^ 8 + b1).
  replace (Z.shiftl h 16) with (Z.shiftl (Z.shiftl h 8) 8) by (by rewrite Z.shiftl_shiftl).
  rewrite <-Z.shiftl_lor, (lor_shiftl_add h b2 8) by lia. rewrite lor_shiftl_add by lia. unfold h. lia.
Qed.
