(* ===== verification/Scan.v ===== *)
(** * Cursor scans

    [scanFlatItems] pages through a list by position; [SCAN], [HSCAN], [SSCAN] and
    [ZSCAN] all answer with one such page.  The properties are about a client that
    follows the cursors. *)

From stdpp Require Import options.
From S2P Require Import Prelude.
From S2P Require Import CStd.

Record CollectionScanResult : Type := mkScan { scan_cursor : Z; scan_items : list string }.

Definition empty_scan : CollectionScanResult := mkScan 0 [].

(** [cursor] is a [uint64_t], [count] an [int] (10 when not positive). *)
Definition scanFlatItems (all : list string) (cursor count : Z) : CollectionScanResult :=
  let count := if count <=? 0 then 10 else count in
  if Z.of_nat (length all) <=? cursor then empty_scan
  else
    let start := Z.to_nat cursor in
    let end_ := Nat.min (start + Z.to_nat count) (length all) in
    mkScan (if (length all <=? end_)%nat then 0 else Z.of_nat end_)
           (take (end_ - start) (drop start all)).

(** A client that repeats the scan with the cursor returned until it is 0. *)
Fixpoint scan_all (fuel : nat) (all : list string) (cursor count : Z) : option (list string) :=
  match fuel with
  | O => None
  | S fuel =>
      let r := scanFlatItems all cursor count in
      if scan_cursor r =? 0 then Some (scan_items r)
      else rest ← scan_all fuel all (scan_cursor r) count; Some (scan_items r ++ rest)
  end.

Lemma scan_nil cursor count : 0 ≤ cursor → scanFlatItems [] cursor count = empty_scan.
Proof.
  intros Hc. unfold scanFlatItems. change (Z.of_nat (length (@nil string))) with 0.
  by rewrite (proj2 (Z.leb_le 0 cursor)).
Qed.

Lemma scan_page all cursor count :
  0 ≤ cursor < Z.of_nat (length all) → 0 < count →
  let r := scanFlatItems all cursor count in
  drop (Z.to_nat cursor) all = scan_items r ++
    (if scan_cursor r =? 0 then [] else drop (Z.to_nat (scan_cursor r)) all) ∧
  (scan_cursor r = 0 ∨
   cursor < scan_cursor r < Z.of_nat (length all) ∧ scan_cursor r = cursor + count) ∧
  Z.of_nat (length (scan_items r)) = Z.min count (Z.of_nat (length all) - cursor).
Proof.
  intros Hc Hn. unfold scanFlatItems.
  destruct (Z.leb_spec count 0); [lia|]. destruct (Z.leb_spec (Z.of_nat (length all)) cursor); [lia|].
  set (en := Nat.min _ _). simpl.
  destruct (Nat.leb_spec (length all) en) as [He|He]; simpl.
  - split_and!; [|by left|rewrite length_take, length_drop; lia].
    rewrite app_nil_r, take_ge; [done|]. rewrite length_drop. lia.
  - destruct (Z.eqb_spec (Z.of_nat en) 0); [lia|]. split_and!.
    + rewrite Nat2Z.id. rewrite <-(take_drop (en - Z.to_nat cursor) (drop (Z.to_nat cursor) all)) at 1.
      f_equal. rewrite drop_drop. f_equal. lia.
    + right. lia.
    + rewrite length_take, length_drop. lia.
Qed.

Lemma scan_all_from all count cursor fuel :
  0 < count → 0 ≤ cursor < Z.of_nat (length all) →
  (length all - Z.to_nat cursor < fuel)%nat →
  scan_all fuel all cursor count = Some (drop (Z.to_nat cursor) all).
Proof.
  intros Hn. revert cursor. induction fuel as [|fuel IH]; intros cursor Hc Hf; [lia|].
  destruct (scan_page all cursor count Hc Hn) as (Hd & Hnext & _). simpl.
  destruct (Z.eqb_spec (scan_cursor (scanFlatItems all cursor count)) 0) as [Hz|Hz].
  - by rewrite Hd, app_nil_r.
  - destruct Hnext as [|[? ?]]; [done|]. rewrite IH by lia. simpl. by rewrite <-Hd.
Qed.

(** A full scan returns every item exactly once, in order. *)
Lemma scan_all_complete all count :
  0 < count → scan_all (S (length all)) all 0 count = Some all.
Proof.
  intros Hn. destruct all as [|x all].
  - simpl. unfold scanFlatItems. by destruct (Z.leb_spec count 0).
  - by rewrite scan_all_from by (simpl length; lia).
Qed.
