(* ===== verification/Store.v ===== *)
(** * The store's data model and its shard primitives

    [Entry], [Shard] and [KvStore] follow [kv_store.h] field by field.  A critical
    section of one key runs in the state monad over that key's shard ([SM]); an
    operation of the store runs in the state monad over the store ([KM]).  The
    second half of the file is the abstraction the refinement theorems use: [raw]
    (what the shards hold), [live] (what has not expired) and [view] (the typed
    value a client can observe). *)

From stdpp Require Import options.
From stdpp Require Import vector finite.
From S2P Require Import Prelude.
From S2P Require Import CStd.
From S2P Require Import Double.

(** ** Entries *)

Inductive ObjType : Type :=
  ObjString | ObjHash | ObjList | ObjSet | ObjZSet | ObjStream.

#[global] Instance ObjType_eq_dec : EqDecision ObjType.
Proof. solve_decision. Defined.

Record StreamEntry : Type := mkStreamEntry {
  se_id : string;
  se_fields : gmap string string
}.

Record StreamPendingMeta : Type := mkMeta { delivery_ms : Z; delivery_count : Z }.

Record StreamConsumerState : Type := mkConsumer {
  cs_last_id : string;
  cs_pending : list string;
  cs_pending_meta : gmap string StreamPendingMeta
}.

Record StreamGroupState : Type := mkGroup {
  gs_last_id : string;
  gs_consumers : gmap string StreamConsumerState
}.

Record Entry : Type := mkEntry {
  e_type : ObjType;
  e_value : string;
  e_hash : gmap string string;
  e_list : list string;
  e_set : gset string;
  e_zset : gmap string double;
  e_stream : list StreamEntry;
  e_stream_last_ms : Z;
  e_stream_last_seq : Z;
  e_stream_groups : gmap string StreamGroupState;
  e_lru_ms : Z;
  e_expire_at_ms : Z
}.

(** A default-initialised entry: what [dbmap[key]] creates. *)
Definition Entry0 : Entry :=
  mkEntry ObjString "" ∅ [] ∅ ∅ [] 0 0 ∅ 0 0.

(** Member assignments [e.f = v]. *)
Definition set_type (v : ObjType) (e : Entry) : Entry :=
  let '(mkEntry _ a b c d f g h i j k l) := e in mkEntry v a b c d f g h i j k l.
Definition set_value (v : string) (e : Entry) : Entry :=
  let '(mkEntry t _ b c d f g h i j k l) := e in mkEntry t v b c d f g h i j k l.
Definition set_hash (v : gmap string string) (e : Entry) : Entry :=
  let '(mkEntry t a _ c d f g h i j k l) := e in mkEntry t a v c d f g h i j k l.
Definition set_list (v : list string) (e : Entry) : Entry :=
  let '(mkEntry t a b _ d f g h i j k l) := e in mkEntry t a b v d f g h i j k l.
Definition set_set (v : gset string) (e : Entry) : Entry :=
  let '(mkEntry t a b c _ f g h i j k l) := e in mkEntry t a b c v f g h i j k l.
Definition set_zset (v : gmap string double) (e : Entry) : Entry :=
  let '(mkEntry t a b c d _ g h i j k l) := e in mkEntry t a b c d v g h i j k l.
Definition set_stream (v : list StreamEntry) (e : Entry) : Entry :=
  let '(mkEntry t a b c d f _ h i j k l) := e in mkEntry t a b c d f v h i j k l.
Definition set_stream_last (ms seq : Z) (e : Entry) : Entry :=
  let '(mkEntry t a b c d f g _ _ j k l) := e in mkEntry t a b c d f g ms seq j k l.
Definition set_stream_groups (v : gmap string StreamGroupState) (e : Entry) : Entry :=
  let '(mkEntry t a b c d f g h i _ k l) := e in mkEntry t a b c d f g h i v k l.
Definition set_lru (v : Z) (e : Entry) : Entry :=
  let '(mkEntry t a b c d f g h i j _ l) := e in mkEntry t a b c d f g h i j v l.
Definition set_expire (v : Z) (e : Entry) : Entry :=
  let '(mkEntry t a b c d f g h i j k _) := e in mkEntry t a b c d f g h i j k v.

(** [e |> f |> g]: successive assignments to the same entry. *)
Definition then_ (e : Entry) (f : Entry → Entry) : Entry := f e.
Infix "|>" := then_ (at level 45, left associativity) : kv_scope.
Open Scope kv_scope.

Definition ObjType_eqb (a b : ObjType) : bool :=
  match a, b with
  | ObjString, ObjString | ObjHash, ObjHash | ObjList, ObjList
  | ObjSet, ObjSet | ObjZSet, ObjZSet | ObjStream, ObjStream => true
  | _, _ => false
  end.

Definition is_type (t : ObjType) (e : Entry) : bool := ObjType_eqb (e_type e) t.

(** [KvStore::kWrongType] *)
Definition kWrongType : string :=
  "WRONGTYPE Operation against a key holding the wrong kind of value".

(** [KvStore::touchEntry] *)
Definition touchEntry (now : Z) (e : Entry) : Entry := set_lru now e.

(** [KvStore::isExpired] *)
Definition isExpired (e : Entry) (now : Z) : bool :=
  (0 <? e_expire_at_ms e) && (e_expire_at_ms e <=? now).

(** ** Shards *)

Definition kShardCount : nat := 16.
Definition kMaxDb : nat := 16.

Abbreviation DbMap := (gmap string Entry).

(** [m_watch_versions] is an array of [kMaxDb] maps; the commands only reach it with
    a database number below [kMaxDb], other numbers would be out of bounds. *)
Record Shard : Type := mkShard {
  m_dbs : gmap Z DbMap;
  m_watch_versions : gmap Z (gmap string Z);
  m_db_watch_epoch : gmap Z Z;
  m_hasWatches : bool
}.

Definition Shard0 : Shard := mkShard ∅ ∅ ∅ false.

Record KvStore : Type := mkStore {
  m_shards : vec Shard kShardCount;
  m_rdbPath : string;
  m_lastSaveSec : Z;
  m_maxmemory : Z;
  m_maxmemory_policy : string
}.

Definition KvStore0 : KvStore :=
  mkStore (vreplicate kShardCount Shard0) "./dump.rdb" 0 0 "allkeys-lru".

Definition set_shards (v : vec Shard kShardCount) (s : KvStore) : KvStore :=
  mkStore v (m_rdbPath s) (m_lastSaveSec s) (m_maxmemory s) (m_maxmemory_policy s).

Abbreviation SM := (State Shard).
Abbreviation KM := (State KvStore).

(** [m_dbs[db]]: the database's map, created when absent. *)
Definition db_map (sh : Shard) (db : Z) : DbMap := default ∅ (m_dbs sh !! db).

Definition set_dbs (m : gmap Z DbMap) (sh : Shard) : Shard :=
  mkShard m (m_watch_versions sh) (m_db_watch_epoch sh) (m_hasWatches sh).
Definition set_db (db : Z) (m : DbMap) (sh : Shard) : Shard :=
  set_dbs (<[db := m]> (m_dbs sh)) sh.

(** [Shard::bumpWatchKey]: a no-op until some client watched a key of the shard. *)
Definition bump_watch (db : Z) (key : string) (sh : Shard) : Shard :=
  if m_hasWatches sh then
    let vs := default ∅ (m_watch_versions sh !! db) in
    mkShard (m_dbs sh)
      (<[db := <[key := u64 (default 0 (vs !! key) + 1)]> vs]> (m_watch_versions sh))
      (m_db_watch_epoch sh) (m_hasWatches sh)
  else sh.
Definition bumpWatchKey (db : Z) (key : string) : SM unit := modify (bump_watch db key).

(** [Shard::bumpWatchDb] *)
Definition bump_watch_db (db : Z) (sh : Shard) : Shard :=
  mkShard (m_dbs sh) (m_watch_versions sh)
    (<[db := u64 (default 0 (m_db_watch_epoch sh !! db) + 1)]> (m_db_watch_epoch sh))
    (m_hasWatches sh).

(** [Shard::watchToken]: [(epoch << 32) ^ ver]. *)
Definition shard_watchToken (db : Z) (key : string) (sh : Shard) : Z :=
  let epoch := default 0 (m_db_watch_epoch sh !! db) in
  let ver := default 0 (default ∅ (m_watch_versions sh !! db) !! key) in
  Z.lxor (u64 (Z.shiftl epoch 32)) ver.

(** [KvStore::findEntry] on a database's map: an expired entry is erased and reported
    absent. *)
Definition find_in (m : DbMap) (key : string) (now : Z) : DbMap * option Entry :=
  match m !! key with
  | None => (m, None)
  | Some e => if isExpired e now then (delete key m, None) else (m, Some e)
  end.

(** [DbMap& dbmap = shard.m_dbs[db]; Entry* e = findEntry(dbmap, key, now);] *)
Definition findEntry (db : Z) (key : string) (now : Z) : SM (option Entry) := λ sh,
  let '(m, e) := find_in (db_map sh db) key now in (set_db db m sh, e).

(** The variant that looks the database up with [m_dbs.find(db)] first. *)
Definition findEntryDb (db : Z) (key : string) (now : Z) : SM (option Entry) := λ sh,
  match m_dbs sh !! db with
  | None => (sh, None)
  | Some m => let '(m', e) := find_in m key now in (set_db db m' sh, e)
  end.

(** Assignment through the entry pointer, or [dbmap[key] = e] for a new entry. *)
Definition putEntry (db : Z) (key : string) (e : Entry) : SM unit :=
  modify (λ sh, set_db db (<[key := e]> (db_map sh db)) sh).

(** [dbmap.erase(key)] *)
Definition eraseEntry (db : Z) (key : string) : SM unit :=
  modify (λ sh, set_db db (delete key (db_map sh db)) sh).

(** [KvStore::purgeExpiredDb] *)
Definition purgeExpiredDb (now : Z) (m : DbMap) : DbMap :=
  filter (λ p, isExpired p.2 now = false) m.

(** ** The shards of the store *)

Section shards.
Context `{impl : !StdImpl}.

Lemma hash_bound key : (N.to_nat (std_hash key mod 16) < kShardCount)%nat.
Proof. pose proof (N.mod_lt (std_hash key) 16). unfold kShardCount. lia. Qed.

(** [KvStore::shardIdx] *)
Definition shardIdx (key : string) : fin kShardCount := nat_to_fin (hash_bound key).

Definition getShard (s : KvStore) (key : string) : Shard := m_shards s !!! shardIdx key.

Definition set_shard (i : fin kShardCount) (sh : Shard) (s : KvStore) : KvStore :=
  set_shards (vinsert i sh (m_shards s)) s.

(** The critical section of one key: [m] under the lock of the key's shard. *)
Definition on_shard {A} (key : string) (m : SM A) : KM A := λ s,
  let '(sh, a) := m (getShard s key) in (set_shard (shardIdx key) sh s, a).

(** The same effect on every shard, under [ScopedAllShardsLock]. *)
Definition on_all_shards (f : Shard → Shard) : KM unit :=
  modify (λ s, set_shards (vmap f (m_shards s)) s).

(** [KvStore::watchToken]: also arms the shard's version counters. *)
Definition watchToken (db : Z) (key : string) : KM Z :=
  on_shard key (λ sh,
    let sh' := mkShard (m_dbs sh) (m_watch_versions sh) (m_db_watch_epoch sh) true in
    (sh', shard_watchToken db key sh')).
End shards.

(** ** Equivalence of stores

    Whether an empty database's map exists is unobservable, and commands differ in
    whether they create it ([m_dbs[db]] against [m_dbs.find(db)]); stores are
    compared up to that. *)

#[global] Instance shard_equiv : Equiv Shard := λ a b,
  (∀ db, db_map a db = db_map b db) ∧ m_watch_versions a = m_watch_versions b ∧
  m_db_watch_epoch a = m_db_watch_epoch b ∧ m_hasWatches a = m_hasWatches b.

#[global] Instance store_equiv : Equiv KvStore := λ s t,
  (∀ i, m_shards s !!! i ≡ m_shards t !!! i) ∧ m_rdbPath s = m_rdbPath t ∧
  m_lastSaveSec s = m_lastSaveSec t ∧ m_maxmemory s = m_maxmemory t ∧
  m_maxmemory_policy s = m_maxmemory_policy t.

#[global] Instance shard_equivalence : Equivalence (≡@{Shard}).
Proof.
  split.
  - intros a. by split_and!.
  - intros a b (?&?&?&?). by split_and!.
  - intros a b c (Hab&?&?&?) (Hbc&?&?&?). split_and!; congruence.
Qed.

#[global] Instance store_equivalence : Equivalence (≡@{KvStore}).
Proof.
  split.
  - intros a. by split_and!.
  - intros a b (Hab&?&?&?&?). by split_and!.
  - intros a b c (Hab&?&?&?&?) (Hbc&?&?&?&?). split_and!; try congruence.
    intros i. by rewrite Hab, Hbc.
Qed.

(** ** What a store holds *)

(** The typed value of an entry: the container its type selects. *)
Inductive Value : Type :=
  | VString (v : string)
  | VHash (h : gmap string string)
  | VList (l : list string)
  | VSet (X : gset string)
  | VZSet (z : gmap string double)
  | VStream (st : list StreamEntry) (last_ms last_seq : Z)
            (groups : gmap string StreamGroupState).

(** A value with its expiry time in milliseconds ([0]: none). *)
Record AVal : Type := mkAVal { av_value : Value; av_expire : Z }.

Definition entry_value (e : Entry) : Value :=
  match e_type e with
  | ObjString => VString (e_value e)
  | ObjHash => VHash (e_hash e)
  | ObjList => VList (e_list e)
  | ObjSet => VSet (e_set e)
  | ObjZSet => VZSet (e_zset e)
  | ObjStream => VStream (e_stream e) (e_stream_last_ms e) (e_stream_last_seq e)
                   (e_stream_groups e)
  end.

Definition abs_entry (e : Entry) : AVal := mkAVal (entry_value e) (e_expire_at_ms e).

(** The entry unless it has expired. *)
Definition live_of (o : option Entry) (now : Z) : option Entry :=
  match o with
  | Some e => if isExpired e now then None else Some e
  | None => None
  end.

Section holds.
Context `{impl : !StdImpl}.

Definition raw (s : KvStore) (db : Z) (key : string) : option Entry :=
  db_map (getShard s key) db !! key.
Definition live (s : KvStore) (now db : Z) (key : string) : option Entry :=
  live_of (raw s db key) now.
Definition view (s : KvStore) (now db : Z) (key : string) : option AVal :=
  abs_entry <$> live s now db key.

(** The watch version a client of [key] compares, without arming the shard. *)
Definition watch_version (s : KvStore) (db : Z) (key : string) : Z :=
  default 0 (default ∅ (m_watch_versions (getShard s key) !! db) !! key).
End holds.

(** ** Writing one key *)

(** The shard with [key] of [db] holding exactly [o], its watch version bumped [n]
    times. *)
Definition write_slot (db : Z) (key : string) (o : option Entry) (n : nat) (sh : Shard)
  : Shard :=
  Nat.iter n (bump_watch db key)
    (set_db db (partial_alter (λ _, o) key (db_map sh db)) sh).

Definition slot (db : Z) (key : string) (now : Z) (sh : Shard) : option Entry :=
  live_of (db_map sh db !! key) now.
Arguments write_slot : simpl never.
Arguments findEntry : simpl never.
Arguments findEntryDb : simpl never.
Arguments putEntry : simpl never.
Arguments eraseEntry : simpl never.
Arguments bumpWatchKey : simpl never.
