(* ===== verification/Evict.v ===== *)
(** * Memory accounting and eviction

    [estimateEntryBytes], [usedMemoryApprox] and the eviction loop
    [evictIfNeededLocked], which the growing commands run before they lock their
    own shard. *)

From stdpp Require Import options.
From stdpp Require Import vector finite.
From S2P Require Import Prelude.
From S2P Require Import CStd.
From S2P Require Import Double.
From S2P Require Import Store.

Definition sumZ (l : list Z) : Z := foldr Z.add 0 l.

(** [KvStore::estimateEntryBytes] *)
Definition estimateEntryBytes (key : string) (e : Entry) : Z :=
  let pair_bytes (m : gmap string string) :=
    sumZ ((λ f, str_size f.1 + str_size f.2 + 16) <$> map_to_list m) in
  str_size key + 64 +
  match e_type e with
  | ObjHash => pair_bytes (e_hash e)
  | ObjList => sumZ ((λ v, str_size v + 8) <$> e_list e)
  | ObjSet => sumZ ((λ m, str_size m + 8) <$> elements (e_set e))
  | ObjZSet => sumZ ((λ z, str_size z.1 + 16) <$> map_to_list (e_zset e))
  | ObjStream => sumZ ((λ x, str_size (se_id x) + 16 + pair_bytes (se_fields x)) <$> e_stream e)
  | ObjString => str_size (e_value e)
  end.

Record Candidate : Type := mkCandidate {
  c_db : Z;
  c_shard : fin kShardCount;
  c_key : string;
  c_lru : Z;
  c_ttl_left : Z
}.

Section evict.
Context `{impl : !StdImpl}.

(** Every entry of a shard, in the order of the nested range-for loops. *)
Definition shard_entries (sh : Shard) : list (Z * string * Entry) :=
  '(db, m) ← hash_iter (m_dbs sh); '(key, e) ← hash_iter (m : DbMap); [(db, key, e)].

Definition live_entries (now : Z) (s : KvStore) : list (fin kShardCount * Z * string * Entry) :=
  i ← enum (fin kShardCount);
  '(db, key, e) ← shard_entries (m_shards s !!! i);
  if isExpired e now then [] else [(i, db, key, e)].

(** [KvStore::usedMemoryApprox] *)
Definition usedMemoryApprox (now : Z) (s : KvStore) : Z :=
  sumZ ((λ '(_, _, key, e), estimateEntryBytes key e) <$> live_entries now s).

Definition volatile_only (policy : string) : bool :=
  bool_decide (policy = "volatile-lru") || bool_decide (policy = "volatile-random")
  || bool_decide (policy = "volatile-ttl").
Definition use_random (policy : string) : bool :=
  bool_decide (policy = "allkeys-random") || bool_decide (policy = "volatile-random").
Definition use_ttl (policy : string) : bool := bool_decide (policy = "volatile-ttl").
Definition use_lru (policy : string) : bool :=
  bool_decide (policy = "allkeys-lru") || bool_decide (policy = "volatile-lru").

(** Every entry the policy may evict. *)
Definition candidates (now : Z) (s : KvStore) : list Candidate :=
  '(i, db, key, e) ← live_entries now s;
  if volatile_only (m_maxmemory_policy s) && (e_expire_at_ms e <=? 0) then []
  else [mkCandidate db i key (e_lru_ms e)
          (if 0 <? e_expire_at_ms e then e_expire_at_ms e - now else INT64_MAX)].

(** The victim among at most 16 sampled candidates; [k] counts the random draws. *)
Definition choose_victim (policy : string) (k : nat) (sample : list Candidate)
  : option Candidate :=
  if use_random policy then sample !! std_dist k (length sample)
  else if use_ttl policy then head (std_sort (λ a b, c_ttl_left a <? c_ttl_left b) sample)
  else if use_lru policy then head (std_sort (λ a b, c_lru a <? c_lru b) sample)
  else head sample.

Definition evict_victim (v : Candidate) (s : KvStore) : KvStore :=
  let sh := m_shards s !!! c_shard v in
  set_shard (c_shard v)
    (bump_watch (c_db v) (c_key v)
       (set_db (c_db v) (delete (c_key v) (db_map sh (c_db v))) sh)) s.

(** One iteration of the [while(true)]; [None] is [break]. *)
Definition evict_step (now : Z) (k : nat) (s : KvStore) : option KvStore :=
  if usedMemoryApprox now s <=? m_maxmemory s then None
  else
    v ← choose_victim (m_maxmemory_policy s) k (take 16 (candidates now s));
    match m_dbs (m_shards s !!! c_shard v) !! c_db v with
    | None => None
    | Some _ => Some (evict_victim v s)
    end.

Fixpoint evict_loop (fuel : nat) (now : Z) (k : nat) (s : KvStore) : option KvStore :=
  match fuel with
  | O => None
  | S fuel =>
      match evict_step now k s with
      | None => Some s
      | Some s' => evict_loop fuel now (S k) s'
      end
  end.

(** Eviction switched off by configuration. *)
Definition evict_off (s : KvStore) : bool :=
  (m_maxmemory s <=? 0) || bool_decide (m_maxmemory_policy s = "noeviction").

(** [KvStore::evictIfNeededLocked]; every iteration removes an entry, so one more
    than their number is enough fuel ([evict_terminates]). *)
Definition evictIfNeededLocked (now : Z) : KM unit := λ s,
  if evict_off s then (s, tt)
  else (default s (evict_loop (S (length (live_entries now s))) now 0 s), tt).

(** [KvStore::setMaxMemory], [setMaxMemoryPolicy] and their readers. *)
Definition setMaxMemory (bytes : Z) : KM unit := modify (λ s,
  mkStore (m_shards s) (m_rdbPath s) (m_lastSaveSec s)
    (if 0 <? bytes then bytes else 0) (m_maxmemory_policy s)).
Definition maxMemory : KM Z := gets m_maxmemory.
Definition setMaxMemoryPolicy (policy : string) : KM unit := modify (λ s,
  mkStore (m_shards s) (m_rdbPath s) (m_lastSaveSec s) (m_maxmemory s)
    (if bool_decide (policy = "") then "noeviction" else policy)).
Definition maxMemoryPolicy : KM string := gets m_maxmemory_policy.
End evict.
