(* ===== verification/StoreFacts.v ===== *)
(** * Reasoning about one-key commands

    Every command on one key is shown to act as [write_key]: look the live entry up,
    write one entry back (or erase it) and bump the watch version some number of
    times.  [key_ok] packages this with the command's abstract specification on typed
    values, the entry invariant [coherent] and the watch discipline; the lemmas lift
    it to statements about the whole store.  The tactic [key_solve] executes a
    command symbolically. *)

From stdpp Require Import options.
From stdpp Require Import vector finite.
From S2P Require Import Prelude.
From S2P Require Import CStd.
From S2P Require Import Double.
From S2P Require Import Store.
From S2P Require Import Evict.

#[local] Set Default Proof Using "Type*".

(** ** The entry invariant *)

(** The fields outside the entry's type are empty, and the containers of the types
    that vanish when emptied are not. *)
Definition coherent (e : Entry) : Prop :=
  (e_type e ≠ ObjString → e_value e = "") ∧
  (if is_type ObjHash e then e_hash e ≠ ∅ else e_hash e = ∅) ∧
  (if is_type ObjList e then e_list e ≠ [] else e_list e = []) ∧
  (if is_type ObjSet e then e_set e ≠ ∅ else e_set e = ∅) ∧
  (if is_type ObjZSet e then e_zset e ≠ ∅ else e_zset e = ∅) ∧
  (if is_type ObjStream e then True else e_stream e = []).

Definition coherent_opt (o : option Entry) : Prop :=
  match o with Some e => coherent e | None => True end.

(** ** Specifications of the container commands

    To a client a missing key and an empty container are the same thing: a command on
    a container reads a missing key as the empty one, and a key whose container
    becomes empty disappears. *)

Class Container (C : Type) := {
  c_value : C → Value;
  c_of_value : Value → option C;
  c_empty : C;
  c_is_empty : C → bool
}.

#[global] Instance hash_container : Container (gmap string string) := {|
  c_value := VHash;
  c_of_value v := match v with VHash h => Some h | _ => None end;
  c_empty := ∅;
  c_is_empty h := bool_decide (h = ∅)
|}.
#[global] Instance list_container : Container (list string) := {|
  c_value := VList;
  c_of_value v := match v with VList l => Some l | _ => None end;
  c_empty := [];
  c_is_empty l := bool_decide (l = [])
|}.
#[global] Instance set_container : Container (gset string) := {|
  c_value := VSet;
  c_of_value v := match v with VSet X => Some X | _ => None end;
  c_empty := ∅;
  c_is_empty X := bool_decide (X = ∅)
|}.
#[global] Instance zset_container : Container (gmap string double) := {|
  c_value := VZSet;
  c_of_value v := match v with VZSet z => Some z | _ => None end;
  c_empty := ∅;
  c_is_empty z := bool_decide (z = ∅)
|}.

(** The command [f] on the container of type [C] at a key; [wrong] answers a key of
    another type, which stays as it is. *)
Definition spec_on {C} `{!Container C} {R} (wrong : R) (f : C → C * R) (o : option AVal)
  : option AVal * R :=
  match (match o with None => Some c_empty | Some a => c_of_value (av_value a) end) with
  | None => (o, wrong)
  | Some c =>
      let '(c', r) := f c in
      (if c_is_empty c' then None
       else Some (mkAVal (c_value c') (match o with Some a => av_expire a | None => 0 end)), r)
  end.

(** The read-only commands. *)
Definition spec_read {C} `{!Container C} {R} (wrong : R) (f : C → R)
  : option AVal → option AVal * R := spec_on wrong (λ c : C, (c, f c)).

(** ** Slots *)

Lemma bump_set_db d key db m sh :
  bump_watch d key (set_db db m sh) = set_db db m (bump_watch d key sh).
Proof. unfold bump_watch, set_db, set_dbs. destruct sh as [? ? ? []]; done. Qed.

Lemma db_map_bump d key sh db : db_map (bump_watch d key sh) db = db_map sh db.
Proof. unfold bump_watch, db_map. destruct sh as [? ? ? []]; done. Qed.

Lemma db_map_set_db db m sh : db_map (set_db db m sh) db = m.
Proof. unfold db_map, set_db, set_dbs; simpl. by rewrite lookup_insert_eq. Qed.

Lemma db_map_set_db_ne db db' m sh : db ≠ db' → db_map (set_db db m sh) db' = db_map sh db'.
Proof. intros. unfold db_map, set_db, set_dbs; simpl. by rewrite lookup_insert_ne. Qed.

Lemma set_db_set_db db m m' sh : set_db db m (set_db db m' sh) = set_db db m sh.
Proof. unfold set_db, set_dbs; simpl. by rewrite insert_insert_eq. Qed.

Lemma bump_db_map db key o n sh db' :
  db_map (write_slot db key o n sh) db' =
  db_map (set_db db (partial_alter (λ _, o) key (db_map sh db)) sh) db'.
Proof.
  unfold write_slot. induction n as [|n IH]; simpl; [done|]. by rewrite db_map_bump.
Qed.

Lemma set_db_write_slot db key o n sh m :
  set_db db m (write_slot db key o n sh) = Nat.iter n (bump_watch db key) (set_db db m sh).
Proof.
  unfold write_slot. induction n as [|n IH]; simpl; [by rewrite set_db_set_db|].
  by rewrite <-IH, bump_set_db.
Qed.

Lemma db_map_write_slot db key o n sh :
  db_map (write_slot db key o n sh) db = partial_alter (λ _, o) key (db_map sh db).
Proof. by rewrite bump_db_map, db_map_set_db. Qed.

(** Symbolic execution of the primitives. *)
Lemma findEntry_run db key now sh :
  findEntry db key now sh = (write_slot db key (slot db key now sh) 0 sh, slot db key now sh).
Proof.
  unfold findEntry, find_in, slot, live_of, write_slot; simpl.
  destruct (db_map sh db !! key) as [e|] eqn:E.
  - destruct (isExpired e now); simpl; [done|]. by rewrite <-E, partial_alter_self.
  - by rewrite <-E, partial_alter_self.
Qed.

Lemma putEntry_write db key e o n sh :
  putEntry db key e (write_slot db key o n sh) = (write_slot db key (Some e) n sh, tt).
Proof.
  unfold putEntry, modify. rewrite set_db_write_slot, db_map_write_slot.
  unfold insert, map_insert, write_slot. by rewrite partial_alter_partial_alter_eq.
Qed.

Lemma eraseEntry_write db key o n sh :
  eraseEntry db key (write_slot db key o n sh) = (write_slot db key None n sh, tt).
Proof.
  unfold eraseEntry, modify. rewrite set_db_write_slot, db_map_write_slot.
  unfold delete, map_delete, write_slot. by rewrite partial_alter_partial_alter_eq.
Qed.

Lemma bumpWatchKey_write db key o n sh :
  bumpWatchKey db key (write_slot db key o n sh) = (write_slot db key o (S n) sh, tt).
Proof. done. Qed.

#[export] Hint Rewrite findEntry_run putEntry_write eraseEntry_write bumpWatchKey_write : run.

Lemma write_slot_self db key now sh :
  slot db key now sh = db_map sh db !! key →
  write_slot db key (slot db key now sh) 0 sh ≡ sh.
Proof.
  intros Hs. unfold write_slot; simpl. rewrite Hs, partial_alter_self.
  split_and!; [|done..]. intros db'.
  destruct (decide (db = db')) as [->|]; [by rewrite db_map_set_db|by rewrite db_map_set_db_ne].
Qed.

Lemma findEntryDb_run db key now sh :
  (findEntryDb db key now sh).1 ≡ write_slot db key (slot db key now sh) 0 sh ∧
  (findEntryDb db key now sh).2 = slot db key now sh.
Proof.
  unfold findEntryDb. destruct (m_dbs sh !! db) as [m|] eqn:E.
  - pose proof (findEntry_run db key now sh) as H. unfold findEntry, db_map in H.
    rewrite E in H; simpl in H. destruct (find_in m key now) as [m' o].
    by rewrite H.
  - assert (db_map sh db = ∅) as H by (unfold db_map; by rewrite E).
    assert (slot db key now sh = None) as Hs by (unfold slot; by rewrite H, lookup_empty).
    simpl. split; [|by rewrite Hs].
    symmetry. apply write_slot_self. by rewrite Hs, H, lookup_empty.
Qed.

#[export] Instance eraseEntry_proper db key :
  Proper ((≡) ==> (≡)) (λ sh, (eraseEntry db key sh).1).
Proof.
  intros a b (Hm & ? & ? & ?). unfold eraseEntry, modify; simpl. split_and!; [|done..].
  intros db'. destruct (decide (db = db')) as [->|].
  - by rewrite !db_map_set_db, Hm.
  - by rewrite !db_map_set_db_ne.
Qed.

(** ** Reading a written shard *)

Lemma slot_write_slot_raw db key o n sh : db_map (write_slot db key o n sh) db !! key = o.
Proof. by rewrite db_map_write_slot, lookup_partial_alter_eq. Qed.

Lemma raw_write_slot_ne db key o n sh db' key' :
  (db', key') ≠ (db, key) →
  db_map (write_slot db key o n sh) db' !! key' = db_map sh db' !! key'.
Proof.
  intros Hne. rewrite bump_db_map. destruct (decide (db = db')) as [->|].
  - rewrite db_map_set_db, lookup_partial_alter_ne by congruence. done.
  - by rewrite db_map_set_db_ne.
Qed.

Definition shard_version (db : Z) (key : string) (sh : Shard) : Z :=
  default 0 (default ∅ (m_watch_versions sh !! db) !! key).

Lemma hasWatches_write_slot db key o n sh :
  m_hasWatches (write_slot db key o n sh) = m_hasWatches sh.
Proof.
  unfold write_slot. induction n as [|n IH]; simpl; [done|]. rewrite <-IH.
  by destruct (Nat.iter n _ _) as [? ? ? []].
Qed.

Lemma epoch_write_slot db key o n sh :
  m_db_watch_epoch (write_slot db key o n sh) = m_db_watch_epoch sh.
Proof.
  unfold write_slot. induction n as [|n IH]; simpl; [done|]. rewrite <-IH.
  by destruct (Nat.iter n _ _) as [? ? ? []].
Qed.

Lemma shard_version_bump db key sh :
  m_hasWatches sh = true →
  shard_version db key (bump_watch db key sh) = u64 (shard_version db key sh + 1).
Proof.
  intros Hw. unfold shard_version, bump_watch. rewrite Hw; simpl.
  rewrite lookup_insert_eq; simpl. by rewrite lookup_insert_eq.
Qed.

Lemma u64_succ a n : u64 (u64 (a + n) + 1) = u64 (a + (n + 1)).
Proof. unfold u64. rewrite Zplus_mod_idemp_l. f_equal. lia. Qed.

Lemma shard_version_write_slot db key o n sh :
  m_hasWatches sh = true → in_u64 (shard_version db key sh) →
  shard_version db key (write_slot db key o n sh) = u64 (shard_version db key sh + Z.of_nat n).
Proof.
  intros Hw Hr. induction n as [|n IH].
  - simpl. rewrite Z.add_0_r, u64_id by done. done.
  - change (write_slot db key o (S n) sh) with (bump_watch db key (write_slot db key o n sh)).
    rewrite shard_version_bump by by rewrite hasWatches_write_slot.
    rewrite IH, u64_succ. f_equal. lia.
Qed.

(** ** The store *)

Section store.
Context `{impl : !StdImpl}.

Definition write_key (db : Z) (key : string) (o : option Entry) (n : nat) (s : KvStore)
  : KvStore :=
  set_shard (shardIdx key) (write_slot db key o n (getShard s key)) s.

Lemma getShard_set_shard key sh s : getShard (set_shard (shardIdx key) sh s) key = sh.
Proof. unfold getShard, set_shard; simpl. by rewrite vlookup_insert. Qed.

Lemma getShard_set_shard_ne i key sh s :
  i ≠ shardIdx key → getShard (set_shard i sh s) key = getShard s key.
Proof. intros. unfold getShard, set_shard; simpl. by rewrite vlookup_insert_ne. Qed.

Lemma set_shard_set_shard i a b s : set_shard i a (set_shard i b s) = set_shard i a s.
Proof.
  unfold set_shard, set_shards; simpl. f_equal. apply vec_eq. intros j.
  destruct (decide (i = j)) as [->|]; [by rewrite !vlookup_insert|].
  by rewrite !vlookup_insert_ne.
Qed.

Lemma raw_write_key db key o n s : raw (write_key db key o n s) db key = o.
Proof. unfold raw, write_key. by rewrite getShard_set_shard, slot_write_slot_raw. Qed.

Lemma raw_write_key_ne db key o n s db' key' :
  (db', key') ≠ (db, key) → raw (write_key db key o n s) db' key' = raw s db' key'.
Proof.
  intros Hne. unfold raw, write_key.
  destruct (decide (shardIdx key = shardIdx key')) as [Heq|].
  - unfold getShard. rewrite <-!Heq. unfold set_shard; simpl. rewrite vlookup_insert.
    by apply raw_write_slot_ne.
  - by rewrite getShard_set_shard_ne.
Qed.

Lemma write_key_config db key o n s :
  m_maxmemory (write_key db key o n s) = m_maxmemory s ∧
  m_maxmemory_policy (write_key db key o n s) = m_maxmemory_policy s.
Proof. done. Qed.

Lemma raw_equiv s t db key : s ≡ t → raw s db key = raw t db key.
Proof. intros [Hs _]. destruct (Hs (shardIdx key)) as [Hm _]. unfold raw, getShard. by rewrite Hm. Qed.

#[export] Instance raw_proper : Proper ((≡) ==> (=) ==> (=) ==> (=)) raw.
Proof. intros s t Hst ? db -> ? key ->. by apply raw_equiv. Qed.
#[export] Instance live_proper : Proper ((≡) ==> (=) ==> (=) ==> (=) ==> (=)) live.
Proof. intros s t Hst ? now -> ? db -> ? key ->. unfold live. by rewrite Hst. Qed.
#[export] Instance view_proper : Proper ((≡) ==> (=) ==> (=) ==> (=) ==> (=)) view.
Proof. intros s t Hst ? now -> ? db -> ? key ->. unfold view. by rewrite Hst. Qed.

Lemma shard_equiv_insert i sh1 sh2 s : sh1 ≡ sh2 → set_shard i sh1 s ≡ set_shard i sh2 s.
Proof.
  intros Hsh. split_and!; [|done..]. intros j. unfold set_shard; simpl.
  destruct (decide (i = j)) as [->|]; [by rewrite !vlookup_insert|by rewrite !vlookup_insert_ne].
Qed.

(** The live entry of a key is what its critical section looks up. *)
Lemma slot_live s now db key : slot db key now (getShard s key) = live s now db key.
Proof. done. Qed.

Lemma on_shard_run {A} key (m : SM A) s :
  on_shard key m s = (set_shard (shardIdx key) (m (getShard s key)).1 s,
                      (m (getShard s key)).2).
Proof. unfold on_shard. by destruct (m (getShard s key)). Qed.

(** *** One-key commands *)

(** What a command does at its key, given the live entry [o] it found, if coherent:
    the new entry and the reply are those of the specification on typed values, the
    entry invariant holds again and, when [w] is set, a change of the value comes
    with a bump of the watch version ([n] counts the bumps, at most one). *)
Definition post {R} (w : bool) (spec : option AVal → option AVal * R)
    (o o' : option Entry) (n : nat) (r : R) : Prop :=
  coherent_opt o →
  (abs_entry <$> o', r) = spec (abs_entry <$> o) ∧
  coherent_opt o' ∧
  (w = true → n = 0%nat → entry_value <$> o' = entry_value <$> o) ∧
  (n ≤ 1)%nat.

Definition key_ok {R} (pre : KvStore → KvStore) (w : bool) (now db : Z) (key : string)
    (op : KM R) (spec : option AVal → option AVal * R) : Prop :=
  ∀ s, ∃ o' n, (op s).1 ≡ write_key db key o' n (pre s) ∧
    post w spec (live (pre s) now db key) o' n (op s).2.

(** A command under the lock of its shard satisfies [key_ok] when its body does. *)
Lemma key_ok_shard {R} w now db key (m : SM R) spec :
  (∀ sh, ∃ o' n, (m sh).1 ≡ write_slot db key o' n sh ∧ post w spec (slot db key now sh) o' n (m sh).2) →
  key_ok id w now db key (on_shard key m) spec.
Proof.
  intros Hm s. destruct (Hm (getShard s key)) as (o' & n & Heq & Hpost).
  exists o', n. rewrite on_shard_run; simpl. split; [|done].
  by apply shard_equiv_insert.
Qed.

Lemma key_ok_evict {R} w now db key (m : KM R) spec :
  key_ok id w now db key m spec →
  key_ok (λ s, (evictIfNeededLocked now s).1) w now db key
    (evictIfNeededLocked now ;; m) spec.
Proof.
  intros Hm s. destruct (Hm (evictIfNeededLocked now s).1) as (o' & n & Heq & Hpost).
  exists o', n. by rewrite bind_run.
Qed.

Lemma evict_off_id now s : evict_off s = true → (evictIfNeededLocked now s).1 = s.
Proof. intros H. unfold evictIfNeededLocked. by rewrite H. Qed.
End store.

(** Reduce the control flow of a command, leaving the store primitives folded. *)
Ltac run_simpl :=
  cbn [fst snd negb andb orb is_type e_type e_value e_hash e_list e_set e_zset e_stream
       e_stream_last_ms e_stream_last_seq e_stream_groups e_lru_ms e_expire_at_ms
       ObjType_eqb].

(** Execute the body of a one-key command and split on the entry found. *)
Ltac key_start :=
  intros; apply key_ok_shard; intros sh; autorewrite with run; run_simpl;
  match goal with |- context [slot ?db ?key ?now sh] =>
    generalize (slot db key now sh); intros [e|] end.

(** Run to the end of every path, splitting on the conditions met. *)
Ltac key_run :=
  repeat (run_simpl; first
    [ progress (autorewrite with run)
    | match goal with
      | |- context [(if ?b then _ else _) (write_slot _ _ _ _ _)] => destruct b eqn:?
      | |- context [(match ?x with _ => _ end) (write_slot _ _ _ _ _)] => destruct x eqn:?
      end ]).

(** Finish one path: the written entry and the bumps are read off the state. *)
Ltac key_done := run_simpl; do 2 eexists; split; [reflexivity|]; simpl.

Create HintDb spec.
#[export] Hint Unfold spec_on spec_read : spec.

(** Side conditions: a container is not empty. *)
Create HintDb nonempty.
#[export] Hint Extern 1 (_ ≠ ∅) => apply insert_non_empty : nonempty.
#[export] Hint Extern 1 (_ ≠ ∅) => apply map_non_empty_singleton : nonempty.

Ltac nonempty := first [assumption | congruence | solve [auto with nonempty] | set_solver].

(** Decide the emptiness tests that the path or the invariant settles. *)
Ltac decide_empty P d :=
  first [ rewrite (@bool_decide_eq_false_2 P d) by nonempty
        | rewrite (@bool_decide_eq_true_2 P d) by (first [assumption | reflexivity]) ].
Ltac empty_simpl :=
  repeat match goal with
  | |- context [@bool_decide ?P ?d] =>
      match P with
      | _ = ∅ => decide_empty P d
      | _ = [] => decide_empty P d
      | _ => first [ rewrite (@bool_decide_eq_false_2 P d) by assumption
                   | rewrite (@bool_decide_eq_true_2 P d) by assumption ]
      end
  end.

Ltac coherent_solve :=
  unfold coherent_opt, coherent, is_type in *; simpl in *; try done;
  split_and?; try done; try nonempty; naive_solver.

(** Use what the path has established about its conditions. *)
Ltac use_conditions :=
  repeat match goal with
  | H : ?b = true |- context [?b] => rewrite H
  | H : ?b = false |- context [?b] => rewrite H
  | H : ?x = Some _ |- context [?x] => rewrite H
  | H : ?x = None |- context [?x] => rewrite H
  | H : ?x = (_, _) |- context [?x] => rewrite H
  | H : ?x = inl _ |- context [?x] => rewrite H
  | H : ?x = inr _ |- context [?x] => rewrite H
  | H : ?x = [] |- context [?x] => rewrite H
  | H : ?x = _ :: _ |- context [?x] => rewrite H
  end.

Ltac open_coherent H :=
  unfold coherent_opt, coherent, is_type in H; simpl in H; destruct_and? H.

(** What the loops of the commands compute, as rewrite rules. *)
Create Rewrite HintDb loops.

Ltac loops :=
  autorewrite with loops;
  repeat match goal with
  | H : _ |- _ => progress (autorewrite with loops in H)
  end.

Ltac post_solve :=
  loops; simplify_eq/=;
  repeat match goal with
  | b : bool |- _ => destruct b
  | H : bool_decide _ = true |- _ => apply bool_decide_eq_true_1 in H
  | H : bool_decide _ = false |- _ => apply bool_decide_eq_false_1 in H
  end;
  let Hcoh := fresh "Hcoh" in
  intros Hcoh; open_coherent Hcoh;
  (split_and!;
    [autounfold with spec; simpl; use_conditions; simpl; loops; empty_simpl; simpl;
     repeat (case_match; simplify_eq/=); empty_simpl; try done; by f_equal/=
    |coherent_solve
    |try done; intros; simplify_eq/=; done
    |lia]).

(** A command whose paths all close by computation. *)
Ltac key_solve :=
  key_start; [match goal with e : Entry |- _ => destruct e as [[]] end|];
  key_run; key_done; try post_solve.
