(* ===== verification/StrOps.v ===== *)
(** * String and expiry commands of the store

    Section [ops] translates the methods of [kv_store.cc] and [kv_store_extras.cc];
    the [spec_] functions are their meaning on the typed value at the key, and the
    [_ok] lemmas prove each method against its specification ([key_ok]). *)

From stdpp Require Import options.
From S2P Require Import Prelude.
From S2P Require Import CStd.
From S2P Require Import Double.
From S2P Require Import Store.
From S2P Require Import Evict.
From S2P Require Import StoreFacts.

#[local] Set Default Proof Using "Type*".

(** [KvStore::parseIntegerValue]; saturated values are accepted, as [strtoll]'s
    [ERANGE] is not looked at. *)
Definition parseIntegerValue (s : string) : option Z :=
  if bool_decide (s = "") then None
  else
    let '(n, consumed) := strtoll s in
    if (consumed =? String.length s)%nat then Some n else None.

(** The expiry time of [SET]'s options: [now + ex * 1000], [now + px], or none. *)
Definition set_deadline (now ex_seconds px_milliseconds : Z) : Z :=
  if 0 <=? ex_seconds then i64 (now + i64 (ex_seconds * 1000))
  else if 0 <=? px_milliseconds then i64 (now + px_milliseconds)
  else 0.

Definition err_not_integer : string := "ERR value is not an integer or out of range".
Definition err_not_float : string := "ERR value is not a valid float".

Section ops.
Context `{impl : !StdImpl}.

Definition get (db : Z) (key : string) (now : Z) : KM (Res bool (option string)) :=
  on_shard key (
    e ← findEntry db key now;
    match e with
    | None => mret (ok true None)
    | Some e =>
        if negb (is_type ObjString e) then mret (fail false None kWrongType)
        else mret (ok true (Some (e_value e)))
    end).

Definition exists_ (db : Z) (key : string) (now : Z) : KM bool :=
  on_shard key (
    e ← findEntry db key now;
    mret (match e with Some _ => true | None => false end)).

Definition type (db : Z) (key : string) (now : Z) : KM string :=
  on_shard key (
    e ← findEntry db key now;
    match e with
    | None => mret "none"
    | Some e =>
        mret match e_type e with
             | ObjHash => "hash"
             | ObjList => "list"
             | ObjSet => "set"
             | ObjZSet => "zset"
             | ObjStream => "stream"
             | ObjString => "string"
             end
    end).

(** The write of [setOpt] over an existing entry: the collection fields are cleared
    on a type change only; [stream_groups] and [lru_ms] stay. *)
Definition overwrite_string (value : string) (now ex px : Z) (e : Entry) : Entry :=
  let e := set_value value e in
  let e := if is_type ObjString e then e
           else e |> set_hash ∅ |> set_list [] |> set_set ∅ |> set_zset ∅
                  |> set_stream [] |> set_stream_last 0 0 |> set_type ObjString in
  set_expire (set_deadline now ex px) e.

Definition setOpt (db : Z) (key value : string) (nx xx : bool)
    (ex_seconds px_milliseconds now : Z) : KM Z :=
  evictIfNeededLocked now ;;
  on_shard key (
    existing ← findEntry db key now;
    match existing with
    | Some e =>
        if nx then mret 0
        else
          putEntry db key (overwrite_string value now ex_seconds px_milliseconds e) ;;
          bumpWatchKey db key ;;
          mret 1
    | None =>
        if xx then mret 0
        else
          putEntry db key
            (Entry0 |> set_value value
                    |> set_expire (set_deadline now ex_seconds px_milliseconds)) ;;
          bumpWatchKey db key ;;
          mret 1
    end).

Definition set (db : Z) (key value : string) (now : Z) : KM unit :=
  setOpt db key value false false (-1) (-1) now ;; mret tt.

Definition setex (db : Z) (key value : string) (ttl_seconds now : Z) : KM unit :=
  setOpt db key value false false ttl_seconds (-1) now ;; mret tt.

Definition persist (db : Z) (key : string) (now : Z) : KM Z :=
  on_shard key (
    e ← findEntry db key now;
    match e with
    | None => mret 0
    | Some e => putEntry db key (set_expire 0 e) ;; mret 1
    end).

(** Two critical sections, each reading the clock. *)
Definition getset (db : Z) (key value : string) (now1 now2 : Z)
  : KM (Res bool (option string)) :=
  r ← get db key now1;
  if (res_ret r : bool) then set db key value now2 ;; mret r else mret r.

Definition expire (db : Z) (key : string) (seconds now : Z) : KM Z :=
  on_shard key (
    e ← findEntry db key now;
    match e with
    | None => mret 0
    | Some e =>
        if seconds <=? 0 then eraseEntry db key ;; mret 1
        else putEntry db key (set_expire (i64 (now + i64 (seconds * 1000))) e) ;; mret 1
    end).

Definition pexpire (db : Z) (key : string) (milliseconds now : Z) : KM Z :=
  on_shard key (
    e ← findEntry db key now;
    match e with
    | None => mret 0
    | Some e =>
        if milliseconds <=? 0 then eraseEntry db key ;; mret 1
        else putEntry db key (set_expire (i64 (now + milliseconds)) e) ;; mret 1
    end).

Definition expireAt (db : Z) (key : string) (unix_sec now : Z) : KM Z :=
  on_shard key (
    e ← findEntry db key now;
    match e with
    | None => mret 0
    | Some e =>
        if unix_sec <=? 0 then eraseEntry db key ;; mret 1
        else
          let at_ms := i64 (unix_sec * 1000) in
          putEntry db key (set_expire at_ms e) ;;
          mret (if now <? at_ms then 1 else 0)
    end).

Definition pexpireAt (db : Z) (key : string) (unix_ms now : Z) : KM Z :=
  on_shard key (
    e ← findEntry db key now;
    match e with
    | None => mret 0
    | Some e =>
        if unix_ms <=? 0 then eraseEntry db key ;; mret 1
        else putEntry db key (set_expire unix_ms e) ;; mret (if now <? unix_ms then 1 else 0)
    end).

(** The common body of [ttl] and [pttl]; [unit] turns the remaining milliseconds
    into the answer. *)
Definition ttl_body (unit : Z → Z) (db : Z) (key : string) (now : Z) : KM Z :=
  on_shard key (
    e ← findEntryDb db key now;
    match e with
    | None => mret (-2)
    | Some e =>
        if e_expire_at_ms e =? 0 then mret (-1)
        else
          let remain_ms := i64 (e_expire_at_ms e - now) in
          if remain_ms <=? 0 then eraseEntry db key ;; mret (-2)
          else mret (unit remain_ms)
    end).

Definition ttl : Z → string → Z → KM Z :=
  ttl_body (λ remain_ms, Z.quot (i64 (remain_ms + 999)) 1000).
Definition pttl : Z → string → Z → KM Z := ttl_body id.

Definition incrBy (db : Z) (key : string) (delta now : Z) : KM (Res bool (option Z)) :=
  on_shard key (
    e ← findEntry db key now;
    match e with
    | None =>
        putEntry db key
          (Entry0 |> set_type ObjString |> set_hash ∅ |> set_list [] |> set_set ∅
                  |> set_zset ∅ |> set_value (to_string delta) |> set_expire 0) ;;
        bumpWatchKey db key ;;
        mret (ok true (Some delta))
    | Some e =>
        if negb (is_type ObjString e) then mret (fail false None kWrongType)
        else
          match parseIntegerValue (e_value e) with
          | None => mret (fail false None err_not_integer)
          | Some cur =>
              let next := i64 (cur + delta) in
              putEntry db key (set_value (to_string next) e) ;;
              bumpWatchKey db key ;;
              mret (ok true (Some next))
          end
    end).

Definition append (db : Z) (key value : string) (now : Z) : KM (Res bool (option Z)) :=
  evictIfNeededLocked now ;;
  on_shard key (
    e ← findEntry db key now;
    match e with
    | None =>
        putEntry db key (Entry0 |> set_type ObjString |> set_value value |> touchEntry now) ;;
        bumpWatchKey db key ;;
        mret (ok true (Some (str_size value)))
    | Some e =>
        if negb (is_type ObjString e) then mret (fail false None kWrongType)
        else
          let value' := e_value e +:+ value in
          putEntry db key (e |> set_value value' |> touchEntry now) ;;
          bumpWatchKey db key ;;
          mret (ok true (Some (str_size value')))
    end).

(** [res_out]: [Some len] with [found], [None] without. *)
Definition strlen (db : Z) (key : string) (now : Z) : KM (Res bool (option Z)) :=
  on_shard key (
    e ← findEntry db key now;
    match e with
    | None => mret (ok true None)
    | Some e =>
        if negb (is_type ObjString e) then mret (fail false None kWrongType)
        else
          putEntry db key (touchEntry now e) ;;
          mret (ok true (Some (str_size (e_value e))))
    end).

Definition getex (db : Z) (key : string) (ex_seconds px_milliseconds : Z) (persist : bool)
    (now : Z) : KM (Res bool (option string)) :=
  evictIfNeededLocked now ;;
  on_shard key (
    e ← findEntry db key now;
    match e with
    | None => mret (ok true None)
    | Some e =>
        if negb (is_type ObjString e) then mret (fail false None kWrongType)
        else
          let e' :=
            if persist then set_expire 0 e
            else if 0 <=? ex_seconds then set_expire (i64 (now + i64 (ex_seconds * 1000))) e
            else if 0 <=? px_milliseconds then set_expire (i64 (now + px_milliseconds)) e
            else e in
          putEntry db key (touchEntry now e') ;;
          bumpWatchKey db key ;;
          mret (ok true (Some (e_value e)))
    end).

Definition incrByFloat (db : Z) (key : string) (delta : double) (now : Z)
  : KM (Res bool (option string)) :=
  on_shard key (
    e ← findEntry db key now;
    match e with
    | None =>
        putEntry db key
          (Entry0 |> set_type ObjString |> set_value (formatDouble delta) |> set_expire 0) ;;
        bumpWatchKey db key ;;
        mret (ok true (Some (formatDouble delta)))
    | Some e =>
        if negb (is_type ObjString e) then mret (fail false None kWrongType)
        else
          let '(cur, consumed) := strtod (e_value e) in
          if (consumed =? 0)%nat then mret (fail false None err_not_float)
          else
            let out := formatDouble (d_add cur delta) in
            putEntry db key (e |> set_value out |> touchEntry now) ;;
            bumpWatchKey db key ;;
            mret (ok true (Some out))
    end).
End ops.

(** ** Specifications

    On the typed value the client observes: [None] for an absent or expired key. *)

Definition spec_get (o : option AVal) : option AVal * Res bool (option string) :=
  (o, match o with
      | None => ok true None
      | Some (mkAVal (VString v) _) => ok true (Some v)
      | Some _ => fail false None kWrongType
      end).

Definition spec_exists (o : option AVal) : option AVal * bool := (o, bool_decide (is_Some o)).

Definition value_type (v : Value) : string :=
  match v with
  | VString _ => "string" | VHash _ => "hash" | VList _ => "list"
  | VSet _ => "set" | VZSet _ => "zset" | VStream _ _ _ _ => "stream"
  end.

Definition spec_type (o : option AVal) : option AVal * string :=
  (o, match o with None => "none" | Some a => value_type (av_value a) end).

(** [SET key value [NX|XX] [EX s|PX ms]]: whatever the old type, the key becomes the
    string with the given expiry, unless the existence condition fails. *)
Definition spec_set (value : string) (nx xx : bool) (deadline : Z) (o : option AVal)
  : option AVal * Z :=
  if (nx && bool_decide (is_Some o)) || (xx && negb (bool_decide (is_Some o))) then (o, 0)
  else (Some (mkAVal (VString value) deadline), 1).

(** Replace the expiry of an existing key. *)
Definition spec_persist (o : option AVal) : option AVal * Z :=
  match o with
  | None => (None, 0)
  | Some a => (Some (mkAVal (av_value a) 0), 1)
  end.

(** [EXPIRE] and its relatives: a non-positive argument deletes the key. *)
Definition spec_expire (arg deadline ret : Z) (o : option AVal) : option AVal * Z :=
  match o with
  | None => (None, 0)
  | Some a => if arg <=? 0 then (None, 1) else (Some (mkAVal (av_value a) deadline), ret)
  end.

(** -2 for an absent key, -1 without expiry, else the remaining time in [unit]. *)
Definition spec_ttl (unit : Z → Z) (now : Z) (o : option AVal) : option AVal * Z :=
  match o with
  | None => (None, -2)
  | Some a =>
      if av_expire a =? 0 then (o, -1)
      else
        let remain := i64 (av_expire a - now) in
        if remain <=? 0 then (None, -2) else (o, unit remain)
  end.

(** A command on a string value: [absent] for a missing key, [present] on the string;
    other types are refused without any effect. *)
Definition spec_string {R} (absent : option (string * Z) * Res bool (option R))
    (present : string → option (string * Z → string * Z) * Res bool (option R))
    (o : option AVal) : option AVal * Res bool (option R) :=
  match o with
  | None => ((λ p, mkAVal (VString p.1) p.2) <$> absent.1, absent.2)
  | Some (mkAVal (VString v) x) =>
      (Some match (present v).1 with
            | None => mkAVal (VString v) x
            | Some f => mkAVal (VString (f (v, x)).1) (f (v, x)).2
            end, (present v).2)
  | Some _ => (o, fail false None kWrongType)
  end.

(** [INCRBY]: the integer the string denotes, increased (as a 64-bit integer). *)
Definition spec_incrBy (delta : Z) : option AVal → option AVal * Res bool (option Z) :=
  spec_string (Some (to_string delta, 0), ok true (Some delta))
    (λ v, match parseIntegerValue v with
          | None => (None, fail false None err_not_integer)
          | Some n => (Some (λ p, (to_string (i64 (n + delta)), p.2)),
                       ok true (Some (i64 (n + delta))))
          end).

Definition spec_append (value : string) : option AVal → option AVal * Res bool (option Z) :=
  spec_string (Some (value, 0), ok true (Some (str_size value)))
    (λ v, (Some (λ p, (v +:+ value, p.2)), ok true (Some (str_size (v +:+ value))))).

Definition spec_strlen : option AVal → option AVal * Res bool (option Z) :=
  spec_string (None, ok true None) (λ v, (None, ok true (Some (str_size v)))).

(** [GETEX]: the value, with the expiry cleared, replaced or kept. *)
Definition spec_getex (now ex px : Z) (persist : bool)
  : option AVal → option AVal * Res bool (option string) :=
  spec_string (None, ok true None)
    (λ v, (Some (λ p, (v, if persist then 0
                          else if (0 <=? ex) || (0 <=? px) then set_deadline now ex px
                          else p.2)),
           ok true (Some v))).

Definition spec_incrByFloat (delta : double)
  : option AVal → option AVal * Res bool (option string) :=
  spec_string (Some (formatDouble delta, 0), ok true (Some (formatDouble delta)))
    (λ v, let '(cur, consumed) := strtod v in
          if (consumed =? 0)%nat then (None, fail false None err_not_float)
          else let out := formatDouble (d_add cur delta) in
               (Some (λ p, (out, p.2)), ok true (Some out))).

#[export] Hint Unfold spec_get spec_exists spec_type spec_set spec_persist spec_expire
  spec_ttl spec_string spec_incrBy spec_append spec_strlen spec_getex spec_incrByFloat
  overwrite_string : spec.

(** ** The methods meet their specifications *)

Section refinement.
Context `{impl : !StdImpl}.

Lemma get_ok db key now : key_ok id true now db key (get db key now) spec_get.
Proof. key_solve. Qed.

Lemma exists_ok db key now : key_ok id true now db key (exists_ db key now) spec_exists.
Proof. key_solve. Qed.

Lemma type_ok db key now : key_ok id true now db key (type db key now) spec_type.
Proof. key_solve. Qed.

Lemma setOpt_ok db key value nx xx ex px now :
  key_ok (λ s, (evictIfNeededLocked now s).1) true now db key
    (setOpt db key value nx xx ex px now) (spec_set value nx xx (set_deadline now ex px)).
Proof. apply key_ok_evict. key_solve. Qed.

Lemma persist_ok db key now : key_ok id true now db key (persist db key now) spec_persist.
Proof. key_solve. Qed.

Lemma expire_ok db key seconds now :
  key_ok id false now db key (expire db key seconds now)
    (spec_expire seconds (i64 (now + i64 (seconds * 1000))) 1).
Proof. key_solve. Qed.

Lemma pexpire_ok db key ms now :
  key_ok id false now db key (pexpire db key ms now) (spec_expire ms (i64 (now + ms)) 1).
Proof. key_solve. Qed.

Lemma expireAt_ok db key sec now :
  key_ok id false now db key (expireAt db key sec now)
    (spec_expire sec (i64 (sec * 1000)) (if now <? i64 (sec * 1000) then 1 else 0)).
Proof. key_solve. Qed.

Lemma pexpireAt_ok db key ms now :
  key_ok id false now db key (pexpireAt db key ms now)
    (spec_expire ms ms (if now <? ms then 1 else 0)).
Proof. key_solve. Qed.

Lemma incrBy_ok db key delta now :
  key_ok id true now db key (incrBy db key delta now) (spec_incrBy delta).
Proof. key_solve. Qed.

Lemma append_ok db key value now :
  key_ok (λ s, (evictIfNeededLocked now s).1) true now db key (append db key value now)
    (spec_append value).
Proof. apply key_ok_evict. key_solve. Qed.

Lemma strlen_ok db key now : key_ok id true now db key (strlen db key now) spec_strlen.
Proof. key_solve. Qed.

Lemma getex_ok db key ex px persist now :
  key_ok (λ s, (evictIfNeededLocked now s).1) true now db key
    (getex db key ex px persist now) (spec_getex now ex px persist).
Proof.
  apply key_ok_evict. unfold spec_getex, set_deadline. key_solve.
  all: destruct (0 <=? ex), (0 <=? px); post_solve.
Qed.

Lemma ttl_body_ok unit db key now :
  key_ok id false now db key (ttl_body unit db key now) (spec_ttl unit now).
Proof.
  apply key_ok_shard. intros sh. destruct (findEntryDb_run db key now sh) as [Heq Hr].
  rewrite !bind_run, Hr. destruct (slot db key now sh) as [e|].
  - destruct (e_expire_at_ms e =? 0) eqn:Hx.
    { exists (Some e), 0%nat. split; [done|]. intros ?. split_and!; [|done..|lia].
      unfold spec_ttl; simpl. by rewrite Hx. }
    run_simpl. destruct (i64 (e_expire_at_ms e - now) <=? 0) eqn:Hrem.
    + exists None, 0%nat. run_simpl. rewrite !bind_run; run_simpl. split; [|intros ?; split_and!; [|done..|lia]].
      * etrans; [apply (eraseEntry_proper db key), Heq|by rewrite eraseEntry_write].
      * unfold spec_ttl; simpl. by rewrite Hx, Hrem.
    + exists (Some e), 0%nat. split; [done|]. intros ?. split_and!; [|done..|lia].
      unfold spec_ttl; simpl. by rewrite Hx, Hrem.
  - exists None, 0%nat. split; [done|]. intros ?. split_and!; [done..|lia].
Qed.

Lemma ttl_ok db key now :
  key_ok id false now db key (ttl db key now)
    (spec_ttl (λ ms, Z.quot (i64 (ms + 999)) 1000) now).
Proof. apply ttl_body_ok. Qed.

Lemma pttl_ok db key now : key_ok id false now db key (pttl db key now) (spec_ttl id now).
Proof. apply ttl_body_ok. Qed.

Lemma incrByFloat_ok db key delta now :
  key_ok id true now db key (incrByFloat db key delta now) (spec_incrByFloat delta).
Proof. key_solve. Qed.
End refinement.
