(* ===== verification/HashOps.v ===== *)
(** * Hash commands of the store *)

From stdpp Require Import options.
From S2P Require Import Prelude.
From S2P Require Import CStd.
From S2P Require Import Double.
From S2P Require Import Glob.
From S2P Require Import Scan.
From S2P Require Import Store.
From S2P Require Import Evict.
From S2P Require Import StoreFacts.
From S2P Require Import StrOps.

#[local] Set Default Proof Using "Type*".

Definition err_hash_not_integer : string := "ERR hash value is not an integer".

(** A fresh entry of a type, as the writers initialise it ([type = t], the other
    containers cleared, no expiry). *)
Definition new_hash (h : gmap string string) : Entry :=
  Entry0 |> set_type ObjHash |> set_value "" |> set_list [] |> set_set ∅ |> set_zset ∅
         |> set_expire 0 |> set_hash h.

(** Sort of the pairs by field, in [hgetall]. *)
Definition pair_lt (a b : string * string) : bool := str_lt a.1 b.1.

Section ops.
Context `{impl : !StdImpl}.

Definition hset (db : Z) (key field value : string) (now : Z) : KM (Res Z unit) :=
  on_shard key (
    existing ← findEntry db key now;
    match existing with
    | Some e =>
        if negb (is_type ObjHash e) then mret (fail (-1) tt kWrongType)
        else
          let is_new := bool_decide (e_hash e !! field = None) in
          putEntry db key (set_hash (<[field := value]> (e_hash e)) e) ;;
          bumpWatchKey db key ;;
          mret (ok (if is_new then 1 else 0) tt)
    | None =>
        putEntry db key (new_hash {[field := value]}) ;;
        bumpWatchKey db key ;;
        mret (ok 1 tt)
    end).

Definition hget (db : Z) (key field : string) (now : Z) : KM (Res bool (option string)) :=
  on_shard key (
    e ← findEntry db key now;
    match e with
    | None => mret (ok true None)
    | Some e =>
        if negb (is_type ObjHash e) then mret (fail false None kWrongType)
        else mret (ok true (e_hash e !! field))
    end).

(** [res_out]: the number of fields removed. *)
Definition hdel (db : Z) (key field : string) (now : Z) : KM (Res bool Z) :=
  on_shard key (
    e ← findEntry db key now;
    match e with
    | None => mret (ok true 0)
    | Some e =>
        if negb (is_type ObjHash e) then mret (fail false 0 kWrongType)
        else
          let removed := if bool_decide (e_hash e !! field = None) then 0 else 1 in
          let h := delete field (e_hash e) in
          (if bool_decide (h = ∅) then eraseEntry db key
           else putEntry db key (set_hash h e)) ;;
          bumpWatchKey db key ;;
          mret (ok true removed)
    end).

Definition hexists (db : Z) (key field : string) (now : Z) : KM (Res bool bool) :=
  on_shard key (
    e ← findEntry db key now;
    match e with
    | None => mret (ok true false)
    | Some e =>
        if negb (is_type ObjHash e) then mret (fail false false kWrongType)
        else mret (ok true (bool_decide (e_hash e !! field ≠ None)))
    end).

(** [res_out]: the [found] flag. *)
Definition hlen (db : Z) (key : string) (now : Z) : KM (Res Z bool) :=
  on_shard key (
    e ← findEntry db key now;
    match e with
    | None => mret (ok 0 false)
    | Some e =>
        if negb (is_type ObjHash e) then mret (fail 0 false kWrongType)
        else mret (ok (Z.of_nat (size (e_hash e))) true)
    end).

(** [res_out]: the pairs, with the [found] flag. *)
Definition hgetall (db : Z) (key : string) (now : Z)
  : KM (Res bool (bool * list (string * string))) :=
  on_shard key (
    e ← findEntry db key now;
    match e with
    | None => mret (ok true (false, []))
    | Some e =>
        if negb (is_type ObjHash e) then mret (fail false (false, []) kWrongType)
        else mret (ok true (true, std_sort pair_lt (hash_iter (e_hash e))))
    end).

(** One [hset] per field, stopping at the first failure; [clock i] is the [i]-th
    reading of the clock. *)
Fixpoint hmset (db : Z) (key : string) (fields : list (string * string)) (clock : nat → Z)
  : KM (Res bool unit) :=
  match fields with
  | [] => mret (ok true tt)
  | f :: fields =>
      r ← hset db key f.1 f.2 (clock 0%nat);
      if res_ret (r : Res Z unit) <? 0 then mret (mkRes false tt (res_err r))
      else hmset db key fields (λ i, clock (S i))
  end.

Fixpoint hmget_loop (db : Z) (key : string) (fields : list string) (clock : nat → Z)
    (acc : list (option string)) : KM (Res bool (list (option string))) :=
  match fields with
  | [] => mret (ok true acc)
  | f :: fields =>
      r ← hget db key f (clock 0%nat);
      if negb (res_ret (r : Res bool (option string))) then mret (mkRes false [] (res_err r))
      else hmget_loop db key fields (λ i, clock (S i)) (acc ++ [res_out r])
  end.

(** [values_out] as options: [(found, value)] is [Some value] when found. *)
Definition hmget (db : Z) (key : string) (fields : list string) (clock : nat → Z)
  : KM (Res bool (list (option string))) := hmget_loop db key fields clock [].

Definition hkeys (db : Z) (key : string) (now : Z) : KM (Res bool (bool * list string)) :=
  r ← hgetall db key now;
  mret (if res_ret (r : Res bool (bool * list (string * string)))
        then ok true ((res_out r).1, if (res_out r).1 then (res_out r).2.*1 else [])
        else mkRes false ((res_out r).1, []) (res_err r)).

Definition hvals (db : Z) (key : string) (now : Z) : KM (Res bool (bool * list string)) :=
  r ← hgetall db key now;
  mret (if res_ret (r : Res bool (bool * list (string * string)))
        then ok true ((res_out r).1, if (res_out r).1 then (res_out r).2.*2 else [])
        else mkRes false ((res_out r).1, []) (res_err r)).

Definition hincrby (db : Z) (key field : string) (delta now : Z) : KM (Res bool (option Z)) :=
  evictIfNeededLocked now ;;
  on_shard key (
    e ← findEntry db key now;
    match e with
    | None =>
        putEntry db key (Entry0 |> set_type ObjHash |> set_hash {[field := to_string delta]}
                                |> touchEntry now) ;;
        bumpWatchKey db key ;;
        mret (ok true (Some delta))
    | Some e =>
        if negb (is_type ObjHash e) then mret (fail false None kWrongType)
        else
          match (match e_hash e !! field with
                 | None => Some 0
                 | Some v => parseIntegerValue v
                 end) with
          | None => mret (fail false None err_hash_not_integer)
          | Some cur =>
              let next := i64 (cur + delta) in
              putEntry db key
                (e |> set_hash (<[field := to_string next]> (e_hash e)) |> touchEntry now) ;;
              bumpWatchKey db key ;;
              mret (ok true (Some next))
          end
    end).

(** The loop of [hsetFields]: the fields written and how many are new. *)
Definition hset_fields_loop (h : gmap string string) (fields : list (string * string))
  : gmap string string * Z :=
  foldl (λ '(h, added) f,
    (<[f.1 := f.2]> h, if bool_decide (h !! f.1 = None) then added + 1 else added))
    (h, 0) fields.

Definition hsetFields (db : Z) (key : string) (fields : list (string * string)) (now : Z)
  : KM (Res Z unit) :=
  if bool_decide (fields = []) then mret (ok 0 tt)
  else
    on_shard key (
      existing ← findEntry db key now;
      match existing with
      | Some e =>
          if negb (is_type ObjHash e) then mret (fail (-1) tt kWrongType)
          else
            let '(h, added) := hset_fields_loop (e_hash e) fields in
            putEntry db key (e |> set_hash h |> touchEntry now) ;;
            bumpWatchKey db key ;;
            mret (ok added tt)
      | None =>
          let '(h, added) := hset_fields_loop ∅ fields in
          putEntry db key (new_hash h |> set_stream [] |> set_stream_groups ∅
                                      |> touchEntry now) ;;
          bumpWatchKey db key ;;
          mret (ok added tt)
      end).

(** The first critical section of [hsetnx], which only reads. *)
Definition hsetnx_check (db : Z) (key field : string) (now : Z) : KM bool :=
  on_shard key (gets (λ sh,
    match db_map sh db !! key with
    | Some e =>
        negb (isExpired e now) && is_type ObjHash e &&
        bool_decide (e_hash e !! field ≠ None)
    | None => false
    end)).

(** The second section is a plain [hset]. *)
Definition hsetnx (db : Z) (key field value : string) (now1 now2 : Z) : KM (Res Z unit) :=
  exists_ ← hsetnx_check db key field now1;
  if exists_ : bool then mret (ok 0 tt)
  else
    r ← hset db key field value now2;
    mret (if res_ret (r : Res Z unit) <? 0 then mkRes (-1) tt (res_err r) else ok 1 tt).

Definition hscan (db : Z) (key : string) (cursor : Z) (pattern : string) (count now : Z)
  : KM (Res CollectionScanResult unit) :=
  on_shard key (
    e ← findEntry db key now;
    match e with
    | None => mret (ok empty_scan tt)
    | Some e =>
        if negb (is_type ObjHash e) then mret (fail empty_scan tt kWrongType)
        else
          let names := sort_strings
            (filter (λ f, matchGlob pattern f = true) (hash_iter (e_hash e)).*1) in
          let flat := mjoin ((λ f, [f; default "" (e_hash e !! f)]) <$> names) in
          mret (ok (scanFlatItems flat cursor count) tt)
    end).
End ops.

(** ** Specifications *)

Abbreviation hash := (gmap string string).

Definition spec_hset (field value : string) : option AVal → option AVal * Res Z unit :=
  spec_on (fail (-1) tt kWrongType) (λ h : hash,
    (<[field := value]> h, ok (if bool_decide (h !! field = None) then 1 else 0) tt)).

Definition spec_hget (field : string) : option AVal → option AVal * Res bool (option string) :=
  spec_read (fail false None kWrongType) (λ h : hash, ok true (h !! field)).

Definition spec_hdel (field : string) : option AVal → option AVal * Res bool Z :=
  spec_on (fail false 0 kWrongType) (λ h : hash,
    (delete field h, ok true (if bool_decide (h !! field = None) then 0 else 1))).

Definition spec_hexists (field : string) : option AVal → option AVal * Res bool bool :=
  spec_read (fail false false kWrongType) (λ h : hash, ok true (bool_decide (h !! field ≠ None))).

Definition spec_hlen : option AVal → option AVal * Res Z bool :=
  spec_read (fail 0 false kWrongType) (λ h : hash,
    ok (Z.of_nat (size h)) (negb (bool_decide (h = ∅)))).

(** All pairs, by ascending field. *)
Definition spec_hgetall : option AVal → option AVal * Res bool (bool * list (string * string)) :=
  spec_read (fail false (false, []) kWrongType) (λ h : hash,
    ok true (negb (bool_decide (h = ∅)), map_iter h)).

Definition spec_hincrby (field : string) (delta : Z)
  : option AVal → option AVal * Res bool (option Z) :=
  spec_on (fail false None kWrongType) (λ h : hash,
    match h !! field with
    | None => (<[field := to_string delta]> h, ok true (Some delta))
    | Some v =>
        match parseIntegerValue v with
        | None => (h, fail false None err_hash_not_integer)
        | Some n => (<[field := to_string (i64 (n + delta))]> h, ok true (Some (i64 (n + delta))))
        end
    end).

(** Later pairs win. *)
Definition spec_hsetFields (fields : list (string * string))
  : option AVal → option AVal * Res Z unit :=
  spec_on (fail (-1) tt kWrongType) (λ h : hash,
    (list_to_map (reverse fields) ∪ h, ok (new_keys h fields) tt)).

Definition spec_hscan (cursor : Z) (pattern : string) (count : Z)
  : option AVal → option AVal * Res CollectionScanResult unit :=
  spec_read (fail empty_scan tt kWrongType) (λ h : hash,
    ok (scanFlatItems
          (mjoin ((λ p, [p.1; p.2]) <$>
                  filter (λ p : string * string, matchGlob pattern p.1 = true) (map_iter h)))
          cursor count) tt).

#[export] Hint Unfold spec_hset spec_hget spec_hdel spec_hexists spec_hlen
  spec_hgetall spec_hincrby spec_hsetFields spec_hscan : spec.

(** ** Lemmas *)

Lemma pair_lt_order P : StrictOrder P pair_lt.
Proof.
  destruct (str_lt_order (λ _, True)) as [Ha Hc]. split.
  - intros a b _ _. by apply Ha.
  - intros a b c _ _ _. by apply Hc.
Qed.

Lemma map_iter_unique (m : hash) l : l ≡ₚ map_to_list m → std_sort pair_lt l = map_iter m.
Proof.
  intros Hp. apply (std_sort_unique (λ _, True)); [apply pair_lt_order|by apply Forall_true| |done].
  intros [k a] [k' b] Ha Hb H1 H2. rewrite Hp in Ha, Hb.
  apply elem_of_map_to_list in Ha, Hb.
  assert (k = k') as -> by (by apply str_lt_sep). congruence.
Qed.

Lemma hset_fields_loop_spec h fields :
  hset_fields_loop h fields = (list_to_map (reverse fields) ∪ h, new_keys h fields).
Proof. apply (insert_loop_spec h fields). Qed.

Lemma filter_fst_map_iter pattern (h : hash) l :
  l ≡ₚ map_to_list h →
  sort_strings (filter (λ f, matchGlob pattern f = true) l.*1) =
  (filter (λ p : string * string, matchGlob pattern p.1 = true) (map_iter h)).*1.
Proof.
  intros Hp.
  pose proof (filter_fmap (fst : string * string → string) (λ f, matchGlob pattern f = true)
    (map_iter h)) as E.
  etrans; [|exact E]. rewrite (map_iter_fst h l Hp). apply sort_strings_unique.
  - apply StronglySorted_filter, sort_strings_sorted.
  - by rewrite sort_strings_perm.
Qed.

Lemma scan_flat (h : hash) l :
  (∀ p, p ∈ l → h !! p.1 = Some p.2) →
  mjoin ((λ f, [f; default "" (h !! f)]) <$> l.*1) = mjoin ((λ p, [p.1; p.2]) <$> l).
Proof.
  induction l as [|[f v] l IH]; intros Hl; simpl; [done|].
  assert (h !! f = Some v) as -> by (apply (Hl (f, v)); left); simpl.
  do 2 f_equal. apply IH. intros p Hp. apply Hl. by right.
Qed.

Section refinement.
Context `{impl : !StdImpl}.

Lemma hset_ok db key field value now :
  key_ok id true now db key (hset db key field value now) (spec_hset field value).
Proof. key_solve. Qed.

Lemma hget_ok db key field now :
  key_ok id true now db key (hget db key field now) (spec_hget field).
Proof. key_solve. Qed.

Lemma hdel_ok db key field now :
  key_ok id true now db key (hdel db key field now) (spec_hdel field).
Proof. key_solve. Qed.

Lemma hexists_ok db key field now :
  key_ok id true now db key (hexists db key field now) (spec_hexists field).
Proof. key_solve. Qed.

Lemma hlen_ok db key now : key_ok id true now db key (hlen db key now) spec_hlen.
Proof. key_solve. Qed.

Lemma hgetall_ok db key now : key_ok id true now db key (hgetall db key now) spec_hgetall.
Proof. key_solve. rewrite (map_iter_unique e_hash) by apply hash_iter_perm. post_solve. Qed.

Lemma hincrby_ok db key field delta now :
  in_i64 delta →
  key_ok (λ s, (evictIfNeededLocked now s).1) true now db key (hincrby db key field delta now)
    (spec_hincrby field delta).
Proof.
  intros Hd. apply key_ok_evict. key_solve.
  all: repeat case_match; simplify_eq/=;
    rewrite ?Z.add_0_l, ?(i64_id delta) in * by done; post_solve.
Qed.

#[local] Hint Extern 1 (list_to_map _ ∪ _ ≠ ∅) => apply map_update_non_empty : nonempty.

Lemma hsetFields_ok db key fields now :
  fields ≠ [] →
  key_ok id true now db key (hsetFields db key fields now) (spec_hsetFields fields).
Proof.
  intros Hne. unfold hsetFields. rewrite bool_decide_eq_false_2 by done. key_solve.
  all: rewrite hset_fields_loop_spec in *; simplify_eq/=; post_solve.
Qed.

Lemma hscan_ok db key cursor pattern count now :
  in_u64 cursor →
  key_ok id true now db key (hscan db key cursor pattern count now)
    (spec_hscan cursor pattern count).
Proof.
  intros [Hc _]. key_solve.
  - rewrite (filter_fst_map_iter pattern e_hash) by apply hash_iter_perm.
    rewrite scan_flat; [post_solve|].
    intros [f v] [_ Hf]%list_elem_of_filter. by apply map_iter_elem in Hf.
  - intros _. split_and!; [|done..|lia]. autounfold with spec; simpl.
    change (map_iter ∅) with (@nil (string * string)); simpl. by rewrite scan_nil.
Qed.
End refinement.
