(* ===== verification/ListOps.v ===== *)
(** * List commands of the store

    Ranges follow the source's loops over [int64_t] indices; the specifications
    are stated on lists with [take], [drop] and [remove_n]. *)

From stdpp Require Import options.
From S2P Require Import Prelude.
From S2P Require Import CStd.
From S2P Require Import Store.
From S2P Require Import Evict.
From S2P Require Import StoreFacts.

#[local] Set Default Proof Using "Type*".

(** [normalizeListRange]: the bounds it leaves in [start] and [stop]. *)
Definition normalizeListRange (len start stop : Z) : Z * Z :=
  if len <=? 0 then (0, -1)
  else
    let start := if start <? 0 then len + start else start in
    let stop := if stop <? 0 then len + stop else stop in
    let start := if start <? 0 then 0 else start in
    let stop := if len <=? stop then len - 1 else stop in
    (start, stop).

(** [for (i = start; i <= stop; ++i) out.push_back(l[i])], the bounds in range. *)
Definition copy_range {A} (l : list A) (start stop : Z) : list A :=
  omap (λ i, l !! Z.to_nat i) (seqZ start (stop - start + 1)).

(** The range both [listRange] and [listTrim] (and [zrange]) copy. *)
Definition range_copy {A} (l : list A) (start stop : Z) : list A :=
  let len := Z.of_nat (length l) in
  let '(s, t) := normalizeListRange len start stop in
  if (t <? s) || (len <=? 0) then [] else copy_range l s t.

(** [push_front] or [push_back] of the values, in order. *)
Definition push_all (left : bool) (l values : list string) : list string :=
  if left then foldl (λ l v, v :: l) l values else foldl (λ l v, l ++ [v]) l values.

Definition new_list (l : list string) : Entry :=
  Entry0 |> set_type ObjList |> set_value "" |> set_hash ∅ |> set_set ∅ |> set_zset ∅
         |> set_list l |> set_expire 0.

(** An index counted from the end when negative; [None] when out of range. *)
Definition list_index (l : list string) (index : Z) : option nat :=
  let len := Z.of_nat (length l) in
  let idx := if index <? 0 then len + index else index in
  if (idx <? 0) || (len <=? idx) then None else Some (Z.to_nat idx).

(** The forward loop of [listRem]: erases while fewer than [limit] are removed. *)
Fixpoint rem_forward (limit : option Z) (v : string) (l : list string) (removed : Z)
  : list string * Z :=
  match l with
  | [] => ([], removed)
  | x :: l' =>
      if match limit with Some n => n <=? removed | None => false end then (l, removed)
      else if bool_decide (x = v) then rem_forward limit v l' (removed + 1)
      else let '(l'', r) := rem_forward limit v l' removed in (x :: l'', r)
  end.

(** The backward loop over the indices [i - 1 … 0]. *)
Fixpoint rem_backward (i : nat) (need : Z) (v : string) (l : list string) (removed : Z)
  : list string * Z :=
  match i with
  | O => (l, removed)
  | S i =>
      if removed <? need then
        if bool_decide (l !! i = Some v) then rem_backward i need v (delete i l) (removed + 1)
        else rem_backward i need v l removed
      else (l, removed)
  end.

Definition rem_list (count : Z) (v : string) (l : list string) : list string * Z :=
  if count =? 0 then rem_forward None v l 0
  else if 0 <? count then rem_forward (Some count) v l 0
  else rem_backward (length l) (i64 (- count)) v l 0.

(** Insert next to the first occurrence of the pivot. *)
Fixpoint insert_at (before : bool) (pivot v : string) (l : list string) : option (list string) :=
  match l with
  | [] => None
  | x :: l =>
      if bool_decide (x = pivot) then Some (if before then v :: x :: l else x :: v :: l)
      else cons x <$> insert_at before pivot v l
  end.

Definition err_no_such_key : string := "ERR no such key".
Definition err_index : string := "ERR index out of range".

Section ops.
Context `{impl : !StdImpl}.

Definition listPush (db : Z) (key : string) (values : list string) (left : bool) (now : Z)
  : KM (Res Z unit) :=
  if bool_decide (values = []) then mret (ok 0 tt)
  else
    on_shard key (
      existing ← findEntry db key now;
      match existing with
      | Some e =>
          if negb (is_type ObjList e) then mret (fail (-1) tt kWrongType)
          else
            let l := push_all left (e_list e) values in
            putEntry db key (set_list l e) ;;
            bumpWatchKey db key ;;
            mret (ok (Z.of_nat (length l)) tt)
      | None =>
          let l := push_all left [] values in
          putEntry db key (new_list l) ;;
          bumpWatchKey db key ;;
          mret (ok (Z.of_nat (length l)) tt)
      end).

(** [front()] and [pop_front()], or [back()] and [pop_back()]. *)
Definition pop_side (left : bool) (l : list string) : option (string * list string) :=
  if left then match l with x :: l => Some (x, l) | [] => None end
  else match reverse l with x :: l => Some (x, reverse l) | [] => None end.

Definition listPop (db : Z) (key : string) (left : bool) (now : Z)
  : KM (Res bool (option string)) :=
  on_shard key (
    e ← findEntry db key now;
    match e with
    | None => mret (ok true None)
    | Some e =>
        if negb (is_type ObjList e) then mret (fail false None kWrongType)
        else
          match pop_side left (e_list e) with
          | None => mret (ok true None)
          | Some (v, l) =>
              (if bool_decide (l = []) then eraseEntry db key
               else putEntry db key (set_list l e)) ;;
              bumpWatchKey db key ;;
              mret (ok true (Some v))
          end
    end).

Definition listLen (db : Z) (key : string) (now : Z) : KM (Res Z bool) :=
  on_shard key (
    e ← findEntry db key now;
    match e with
    | None => mret (ok 0 false)
    | Some e =>
        if negb (is_type ObjList e) then mret (fail 0 false kWrongType)
        else mret (ok (Z.of_nat (length (e_list e))) true)
    end).

Definition listRange (db : Z) (key : string) (start stop now : Z)
  : KM (Res bool (bool * list string)) :=
  on_shard key (
    e ← findEntry db key now;
    match e with
    | None => mret (ok true (false, []))
    | Some e =>
        if negb (is_type ObjList e) then mret (fail false (false, []) kWrongType)
        else mret (ok true (true, range_copy (e_list e) start stop))
    end).

Definition listIndex (db : Z) (key : string) (index now : Z)
  : KM (Res bool (option string)) :=
  on_shard key (
    e ← findEntry db key now;
    match e with
    | None => mret (ok true None)
    | Some e =>
        if negb (is_type ObjList e) then mret (fail false None kWrongType)
        else
          putEntry db key (touchEntry now e) ;;
          mret (ok true (i ← list_index (e_list e) index; e_list e !! i))
    end).

Definition listTrim (db : Z) (key : string) (start stop now : Z) : KM (Res Z unit) :=
  on_shard key (
    e ← findEntry db key now;
    match e with
    | None => mret (ok 0 tt)
    | Some e =>
        if negb (is_type ObjList e) then mret (fail (-1) tt kWrongType)
        else
          let kept := range_copy (e_list e) start stop in
          (if bool_decide (kept = []) then eraseEntry db key
           else putEntry db key (e |> set_list kept |> touchEntry now)) ;;
          bumpWatchKey db key ;;
          mret (ok 1 tt)
    end).

Definition listSet (db : Z) (key : string) (index : Z) (value : string) (now : Z)
  : KM (Res bool unit) :=
  on_shard key (
    e ← findEntry db key now;
    match e with
    | None => mret (fail false tt err_no_such_key)
    | Some e =>
        if negb (is_type ObjList e) then mret (fail false tt kWrongType)
        else
          match list_index (e_list e) index with
          | None => mret (fail false tt err_index)
          | Some i =>
              putEntry db key (e |> set_list (<[i := value]> (e_list e)) |> touchEntry now) ;;
              bumpWatchKey db key ;;
              mret (ok true tt)
          end
    end).

Definition listRem (db : Z) (key : string) (count : Z) (value : string) (now : Z)
  : KM (Res Z unit) :=
  on_shard key (
    e ← findEntry db key now;
    match e with
    | None => mret (ok 0 tt)
    | Some e =>
        if negb (is_type ObjList e) then mret (fail (-1) tt kWrongType)
        else
          let '(l, removed) := rem_list count value (e_list e) in
          (if bool_decide (l = []) then eraseEntry db key
           else putEntry db key (e |> set_list l |> touchEntry now)) ;;
          bumpWatchKey db key ;;
          mret (ok removed tt)
    end).

Definition listInsert (db : Z) (key : string) (before : bool) (pivot value : string) (now : Z)
  : KM (Res Z unit) :=
  on_shard key (
    e ← findEntry db key now;
    match e with
    | None => mret (ok (-2) tt)
    | Some e =>
        if negb (is_type ObjList e) then mret (fail (-1) tt kWrongType)
        else
          match insert_at before pivot value (e_list e) with
          | None => mret (ok (-2) tt)
          | Some l =>
              putEntry db key (e |> set_list l |> touchEntry now) ;;
              bumpWatchKey db key ;;
              mret (ok (Z.of_nat (length l)) tt)
          end
    end).

(** Pop and push are two critical sections.  [res_out]: the value popped, with
    [found]; [*err] keeps the message of whichever part failed. *)
Definition listRPopLPush (db : Z) (src dst : string) (now1 now2 : Z)
  : KM (Res bool (option string)) :=
  p ← listPop db src false now1;
  match res_out (p : Res bool (option string)) with
  | None => mret (mkRes true None (res_err p))
  | Some v =>
      n ← listPush db dst [v] true now2;
      mret (mkRes (negb (res_ret (n : Res Z unit) <? 0)) (Some v) (res_err n))
  end.
End ops.

(** ** Specifications *)

(** The elements at positions [start … stop], negative positions from the end. *)
Definition list_range {A} (l : list A) (start stop : Z) : list A :=
  let len := Z.of_nat (length l) in
  let from_end i := if i <? 0 then len + i else i in
  let s := Z.max 0 (from_end start) in
  let t := Z.min (len - 1) (from_end stop) in
  take (Z.to_nat (t - s + 1)) (drop (Z.to_nat s) l).

(** The list without its first [n] occurrences of [v]. *)
Fixpoint remove_n (n : nat) (v : string) (l : list string) : list string :=
  match n, l with
  | O, _ => l
  | _, [] => []
  | S n', x :: l' => if bool_decide (x = v) then remove_n n' v l' else x :: remove_n n v l'
  end.

(** [LREM]: from the head, from the tail (negative), or all of them (0). *)
Definition remove_count (count : Z) (v : string) (l : list string) : list string :=
  if count =? 0 then filter (λ x, x ≠ v) l
  else if 0 <? count then remove_n (Z.to_nat count) v l
  else reverse (remove_n (Z.to_nat (- count)) v (reverse l)).

Definition spec_listPush (values : list string) (left : bool)
  : option AVal → option AVal * Res Z unit :=
  spec_on (fail (-1) tt kWrongType) (λ l : list string,
    let l' := if left then reverse values ++ l else l ++ values in
    (l', ok (Z.of_nat (length l + length values)) tt)).

Definition spec_listPop (left : bool) : option AVal → option AVal * Res bool (option string) :=
  spec_on (fail false None kWrongType) (λ l : list string,
    ((if left then drop 1 l else take (length l - 1) l),
     ok true (if left then head l else last l))).

Definition spec_listLen : option AVal → option AVal * Res Z bool :=
  spec_read (fail 0 false kWrongType) (λ l : list string,
    ok (Z.of_nat (length l)) (negb (bool_decide (l = [])))).

Definition spec_listRange (start stop : Z)
  : option AVal → option AVal * Res bool (bool * list string) :=
  spec_read (fail false (false, []) kWrongType) (λ l : list string,
    ok true (negb (bool_decide (l = [])), list_range l start stop)).

Definition spec_listIndex (index : Z) : option AVal → option AVal * Res bool (option string) :=
  spec_read (fail false None kWrongType) (λ l : list string,
    ok true (i ← list_index l index; l !! i)).

Definition spec_listTrim (start stop : Z) : option AVal → option AVal * Res Z unit :=
  spec_on (fail (-1) tt kWrongType) (λ l : list string,
    (list_range l start stop, ok (if bool_decide (l = []) then 0 else 1) tt)).

Definition spec_listSet (index : Z) (value : string) : option AVal → option AVal * Res bool unit :=
  spec_on (fail false tt kWrongType) (λ l : list string,
    match list_index l index with
    | Some i => (<[i := value]> l, ok true tt)
    | None => (l, fail false tt (if bool_decide (l = []) then err_no_such_key else err_index))
    end).

Definition spec_listRem (count : Z) (value : string) : option AVal → option AVal * Res Z unit :=
  spec_on (fail (-1) tt kWrongType) (λ l : list string,
    let l' := remove_count count value l in
    (l', ok (Z.of_nat (length l - length l')) tt)).

(** The occurrence the value is put next to is the first one. *)
Definition spec_listInsert (before : bool) (pivot value : string)
  : option AVal → option AVal * Res Z unit :=
  spec_on (fail (-1) tt kWrongType) (λ l : list string,
    match list_find (eq pivot) l with
    | None => (l, ok (-2) tt)
    | Some (i, _) =>
        let i := if before then i else S i in
        (take i l ++ value :: drop i l, ok (Z.of_nat (S (length l))) tt)
    end).

#[export] Hint Unfold spec_listPush spec_listPop spec_listLen spec_listRange spec_listIndex
  spec_listTrim spec_listSet spec_listRem spec_listInsert : spec.

(** ** The loops compute the list operations *)

Lemma omap_seqZ_take_drop {A} (l : list A) (n s : nat) :
  (s + n ≤ length l)%nat →
  omap (λ i, l !! Z.to_nat i) (seqZ (Z.of_nat s) (Z.of_nat n)) = take n (drop s l).
Proof.
  revert s. induction n as [|n IH]; intros s Hs; [done|].
  rewrite seqZ_cons by lia. destruct (lookup_lt_is_Some_2 l s) as [x Hx]; [lia|].
  rewrite (drop_S l x s Hx). simpl. rewrite Nat2Z.id, Hx. f_equal.
  replace (Z.succ (Z.of_nat s)) with (Z.of_nat (S s)) by lia.
  replace (Z.pred (Z.of_nat (S n))) with (Z.of_nat n) by lia. apply IH. lia.
Qed.

Lemma copy_range_spec {A} (l : list A) s t :
  0 ≤ s → t < Z.of_nat (length l) → s ≤ t →
  copy_range l s t = take (Z.to_nat (t - s + 1)) (drop (Z.to_nat s) l).
Proof.
  intros. unfold copy_range. rewrite <-omap_seqZ_take_drop by lia.
  by rewrite !Z2Nat.id by lia.
Qed.

Lemma range_copy_spec {A} (l : list A) start stop :
  range_copy l start stop = list_range l start stop.
Proof.
  unfold range_copy, list_range, normalizeListRange.
  destruct (Z.leb_spec (Z.of_nat (length l)) 0) as [Hl|Hl].
  { destruct l; [|simpl in Hl; lia]. simpl. by rewrite drop_nil, take_nil. }
  set (len := Z.of_nat (length l)) in *.
  set (s := if start <? 0 then _ else _). set (t := if stop <? 0 then _ else _).
  replace (if s <? 0 then 0 else s) with (Z.max 0 s) by (destruct (Z.ltb_spec s 0); lia).
  replace (if len <=? t then len - 1 else t) with (Z.min (len - 1) t)
    by (destruct (Z.leb_spec len t); lia).
  rewrite orb_false_r. destruct (Z.ltb_spec (Z.min (len - 1) t) (Z.max 0 s)).
  - by replace (Z.to_nat _) with 0%nat by lia.
  - apply copy_range_spec; lia.
Qed.

Lemma push_all_spec left l values :
  push_all left l values = if left then reverse values ++ l else l ++ values.
Proof.
  destruct left; simpl; revert l; induction values as [|v values IH]; intros l; simpl.
  - done.
  - by rewrite IH, reverse_cons, <-(assoc_L (++)).
  - by rewrite app_nil_r.
  - by rewrite IH, <-(assoc_L (++)).
Qed.

Lemma push_all_length left l values :
  length (push_all left l values) = (length l + length values)%nat.
Proof. rewrite push_all_spec. destruct left; rewrite length_app, ?length_reverse; lia. Qed.

Lemma pop_side_spec left l :
  pop_side left l =
  x ← (if left then head l else last l); Some (x, if left then drop 1 l else take (length l - 1) l).
Proof.
  destruct left; simpl; [by destruct l|].
  destruct l as [|x l _] using rev_ind; [done|].
  rewrite reverse_snoc, last_snoc; simpl. rewrite reverse_involutive, length_app; simpl.
  do 2 f_equal. replace (length l + 1 - 1)%nat with (length l) by lia. by rewrite take_app_length.
Qed.

Lemma remove_n_length n v l : (length (remove_n n v l) ≤ length l)%nat.
Proof.
  revert n. induction l as [|x l IH]; intros [|n]; simpl; try lia.
  case_bool_decide; simpl; [pose proof (IH n)|pose proof (IH (S n))]; lia.
Qed.

Lemma rem_forward_all v l removed :
  rem_forward None v l removed =
  (filter (λ x, x ≠ v) l,
   removed + Z.of_nat (length l - length (filter (λ x, x ≠ v) l))).
Proof.
  revert removed. induction l as [|x l IH]; intros removed; simpl; [f_equal; lia|].
  pose proof (length_filter (λ x, x ≠ v) l) as Hlen. rewrite filter_cons.
  case_bool_decide; rewrite IH; case_decide; try done; simpl; f_equal; lia.
Qed.

Lemma rem_forward_limit n v l removed :
  rem_forward (Some n) v l removed =
  (remove_n (Z.to_nat (n - removed)) v l,
   removed + Z.of_nat (length l - length (remove_n (Z.to_nat (n - removed)) v l))).
Proof.
  revert removed. induction l as [|x l IH]; intros removed; simpl.
  { destruct (Z.to_nat _); simpl; f_equal; lia. }
  destruct (Z.leb_spec n removed) as [Hn|Hn].
  { replace (Z.to_nat (n - removed)) with 0%nat by lia. simpl. f_equal; lia. }
  destruct (Z.to_nat (n - removed)) as [|k] eqn:Hk; [lia|]. simpl.
  case_bool_decide; rewrite IH.
  - replace (Z.to_nat (n - (removed + 1))) with k by lia.
    pose proof (remove_n_length k v l). f_equal; lia.
  - rewrite Hk. done.
Qed.

Lemma rem_backward_spec need v i l removed :
  (i ≤ length l)%nat →
  let kept := reverse (remove_n (Z.to_nat (need - removed)) v (reverse (take i l))) in
  rem_backward i need v l removed =
  (kept ++ drop i l, removed + Z.of_nat (i - length kept)).
Proof.
  revert l removed. induction i as [|i IH]; intros l removed Hi; simpl.
  { destruct (Z.to_nat _); simpl; f_equal; lia. }
  destruct (lookup_lt_is_Some_2 l i) as [x Hx]; [lia|].
  rewrite (take_S_r l i x Hx), reverse_snoc, Hx.
  destruct (Z.ltb_spec removed need) as [Hn|Hn].
  - destruct (Z.to_nat (need - removed)) as [|k] eqn:Hk; [lia|]. simpl.
    destruct (decide (x = v)) as [->|Hxv].
    + rewrite !bool_decide_eq_true_2 by done.
      assert (take i (delete i l) = take i l) as Ht.
      { rewrite delete_take_drop, take_app_le, take_take; [f_equal; lia|rewrite length_take; lia]. }
      assert (drop i (delete i l) = drop (S i) l) as Hd.
      { rewrite delete_take_drop. rewrite drop_app_ge; rewrite length_take; [|lia].
        replace (i - i `min` length l)%nat with 0%nat by lia. done. }
      rewrite IH by (rewrite length_delete; [lia|done]). rewrite Ht, Hd.
      replace (Z.to_nat (need - (removed + 1))) with k by lia.
      pose proof (remove_n_length k v (reverse (take i l))) as Hlen.
      rewrite !length_reverse in *. rewrite length_take in Hlen. f_equal. lia.
    + rewrite !bool_decide_eq_false_2 by congruence.
      rewrite IH by lia. rewrite Hk, reverse_cons, <-(assoc_L (++)); simpl.
      rewrite <-(drop_S l x i Hx), length_app, length_reverse. simpl. f_equal. lia.
  - replace (Z.to_nat (need - removed)) with 0%nat by lia. simpl.
    rewrite reverse_cons, reverse_involutive, <-(take_S_r l i x Hx), take_drop.
    rewrite length_take. f_equal. lia.
Qed.

Lemma rem_list_spec count v l :
  - INT64_MAX ≤ count ≤ INT64_MAX →
  rem_list count v l = (remove_count count v l,
                        Z.of_nat (length l - length (remove_count count v l))).
Proof.
  intros Hc. unfold rem_list, remove_count. destruct (count =? 0).
  { rewrite rem_forward_all. f_equal. }
  destruct (Z.ltb_spec 0 count).
  { by rewrite rem_forward_limit, Z.sub_0_r. }
  rewrite i64_id by (unfold in_i64, INT64_MAX, INT64_MIN in *; lia).
  rewrite rem_backward_spec by done. rewrite Z.sub_0_r, firstn_all, drop_all, app_nil_r.
  done.
Qed.

Lemma insert_at_spec before pivot v l :
  insert_at before pivot v l =
  p ← list_find (eq pivot) l;
  let i := if before then p.1 else S p.1 in Some (take i l ++ v :: drop i l).
Proof.
  induction l as [|x l IH]; simpl; [done|].
  destruct (decide (pivot = x)) as [->|Hne].
  - rewrite bool_decide_eq_true_2 by done. simpl. by destruct before.
  - rewrite bool_decide_eq_false_2 by congruence. rewrite IH.
    destruct (list_find (eq pivot) l) as [[i y]|]; simpl; [|done]. by destruct before.
Qed.

Lemma insert_at_length before pivot v l l' :
  insert_at before pivot v l = Some l' → length l' = S (length l).
Proof.
  revert l'. induction l as [|x l IH]; intros l'; simpl; [done|].
  case_bool_decide; [destruct before; by intros [= <-]|].
  destruct (insert_at before pivot v l); simpl; [|done].
  intros [= <-]. simpl. by rewrite IH.
Qed.

Lemma list_range_nil {A} start stop : list_range (@nil A) start stop = [].
Proof. unfold list_range. by rewrite drop_nil, take_nil. Qed.

Lemma remove_count_nil count v : remove_count count v [] = [].
Proof. unfold remove_count. destruct (count =? 0), (0 <? count); try done; by destruct (Z.to_nat _). Qed.

Lemma list_index_nil index : list_index [] index = None.
Proof.
  unfold list_index. change (Z.of_nat (length (@nil string))) with 0.
  destruct (Z.ltb_spec index 0); [by rewrite (proj2 (Z.ltb_lt (0 + index) 0)) by lia|].
  by rewrite (proj2 (Z.leb_le 0 index)), orb_true_r by lia.
Qed.

Lemma pop_side_Some left l x l' :
  pop_side left l = Some (x, l') →
  (if left then head l else last l) = Some x ∧
  l' = (if left then drop 1 l else take (length l - 1) l).
Proof.
  rewrite pop_side_spec. destruct left; [destruct (head l)|destruct (last l)]; naive_solver.
Qed.

Lemma pop_side_None left l : pop_side left l = None → l = [].
Proof.
  destruct left; simpl; [by destruct l|]. destruct l as [|x l _] using rev_ind; [done|].
  by rewrite reverse_snoc.
Qed.

Lemma insert_at_Some before pivot v l l' :
  insert_at before pivot v l = Some l' →
  ∃ i x, list_find (eq pivot) l = Some (i, x) ∧ length l' = S (length l) ∧
    l' = take (if before then i else S i) l ++ v :: drop (if before then i else S i) l.
Proof.
  intros Hl. pose proof (insert_at_length _ _ _ _ _ Hl) as Hlen. rewrite insert_at_spec in Hl.
  destruct (list_find (eq pivot) l) as [[i x]|]; simpl in Hl; [|done].
  exists i, x. by simplify_eq.
Qed.

Lemma insert_at_None before pivot v l :
  insert_at before pivot v l = None → list_find (eq pivot) l = None.
Proof. rewrite insert_at_spec. by destruct (list_find (eq pivot) l). Qed.

Lemma list_insert_non_nil {A} (l : list A) i x : l ≠ [] → <[i := x]> l ≠ [].
Proof. destruct l, i; simpl; by intros. Qed.

Lemma app_r_non_nil (l values : list string) : values ≠ [] → l ++ values ≠ [].
Proof. by intros Hv [_ ?]%app_nil. Qed.

Lemma reverse_app_non_nil (l values : list string) : values ≠ [] → reverse values ++ l ≠ [].
Proof.
  intros Hv [H _]%app_nil. apply (f_equal reverse) in H. by rewrite reverse_involutive in H.
Qed.

#[export] Hint Rewrite @range_copy_spec @list_range_nil remove_count_nil list_index_nil : loops.
#[export] Hint Resolve list_insert_non_nil app_r_non_nil reverse_app_non_nil : nonempty.
#[export] Hint Extern 2 (_ ++ _ :: _ ≠ []) => (intros [_ ?]%app_nil; done) : nonempty.

Section refinement.
Context `{impl : !StdImpl}.

Lemma listPush_ok db key values left now :
  values ≠ [] →
  key_ok id true now db key (listPush db key values left now) (spec_listPush values left).
Proof.
  intros Hv. unfold listPush. rewrite bool_decide_eq_false_2 by done. key_solve.
  all: rewrite push_all_length, push_all_spec; post_solve.
Qed.

Lemma listPop_ok db key left now :
  key_ok id true now db key (listPop db key left now) (spec_listPop left).
Proof.
  key_solve.
  3: erewrite (pop_side_None left e_list) by done; post_solve.
  all: match goal with H : pop_side _ _ = _ |- _ => apply pop_side_Some in H as [? ->] end; destruct left;
    post_solve.
Qed.

Lemma listLen_ok db key now : key_ok id true now db key (listLen db key now) spec_listLen.
Proof. key_solve. Qed.

Lemma listRange_ok db key start stop now :
  key_ok id true now db key (listRange db key start stop now) (spec_listRange start stop).
Proof. key_solve. Qed.

Lemma listIndex_ok db key index now :
  key_ok id true now db key (listIndex db key index now) (spec_listIndex index).
Proof. key_solve. Qed.

Lemma listTrim_ok db key start stop now :
  key_ok id true now db key (listTrim db key start stop now) (spec_listTrim start stop).
Proof. key_solve. Qed.

Lemma listSet_ok db key index value now :
  key_ok id true now db key (listSet db key index value now) (spec_listSet index value).
Proof. key_solve. Qed.

Lemma listRem_ok db key count value now :
  - INT64_MAX ≤ count ≤ INT64_MAX →
  key_ok id true now db key (listRem db key count value now) (spec_listRem count value).
Proof. intros Hc. key_solve. all: rewrite rem_list_spec in * by done; post_solve. Qed.

Lemma listInsert_ok db key before pivot value now :
  key_ok id true now db key (listInsert db key before pivot value now)
    (spec_listInsert before pivot value).
Proof.
  key_solve.
  - destruct (insert_at_Some before pivot value e_list l) as (i & x & ? & -> & ->); [done|].
    post_solve.
  - assert (list_find (eq pivot) e_list = None) by (by eapply insert_at_None). post_solve.
Qed.
End refinement.
