(* ===== verification/SetOps.v ===== *)
(** * Set commands of the store

    The one-key commands, and the algebra ([SINTER], [SUNION], [SDIFF] and their
    [STORE] forms), which runs under the lock of every shard and folds over the keys. *)

From stdpp Require Import options.
From S2P Require Import Prelude.
From S2P Require Import CStd.
From S2P Require Import Glob.
From S2P Require Import Scan.
From S2P Require Import Store.
From S2P Require Import Evict.
From S2P Require Import StoreFacts.

#[local] Set Default Proof Using "Type*".

Definition new_set (X : gset string) : Entry :=
  Entry0 |> set_type ObjSet |> set_value "" |> set_hash ∅ |> set_list [] |> set_zset ∅
         |> set_set X |> set_expire 0.

(** [for(m : members) if(set.insert(m).second) ++added;] *)
Definition sadd_loop (X : gset string) (members : list string) : gset string * Z :=
  foldl (λ '(X, added) m, ({[m]} ∪ X, if bool_decide (m ∈ X) then added else added + 1))
    (X, 0) members.

(** [for(m : members) if(set.erase(m)) ++removed;] *)
Definition srem_loop (X : gset string) (members : list string) : gset string * Z :=
  foldl (λ '(X, removed) m, (X ∖ {[m]}, if bool_decide (m ∈ X) then removed + 1 else removed))
    (X, 0) members.

(** What a fold over the keys of a set operation ends with: the set, a missing key
    ([SINTER] stops there), or a key of another type. *)
Inductive SetFold : Type :=
  | FoldSet (X : gset string)
  | FoldMissing
  | FoldWrong.

Section ops.
Context `{impl : !StdImpl}.

Definition setAdd (db : Z) (key : string) (members : list string) (now : Z) : KM (Res Z unit) :=
  if bool_decide (members = []) then mret (ok 0 tt)
  else
    on_shard key (
      existing ← findEntry db key now;
      match existing with
      | Some e =>
          if negb (is_type ObjSet e) then mret (fail (-1) tt kWrongType)
          else
            let '(X, added) := sadd_loop (e_set e) members in
            putEntry db key (set_set X e) ;;
            bumpWatchKey db key ;;
            mret (ok added tt)
      | None =>
          let '(X, added) := sadd_loop ∅ members in
          putEntry db key (new_set X) ;;
          bumpWatchKey db key ;;
          mret (ok added tt)
      end).

Definition setRem (db : Z) (key : string) (members : list string) (now : Z) : KM (Res Z unit) :=
  if bool_decide (members = []) then mret (ok 0 tt)
  else
    on_shard key (
      e ← findEntry db key now;
      match e with
      | None => mret (ok 0 tt)
      | Some e =>
          if negb (is_type ObjSet e) then mret (fail (-1) tt kWrongType)
          else
            let '(X, removed) := srem_loop (e_set e) members in
            (if bool_decide (X = ∅) then eraseEntry db key
             else putEntry db key (set_set X e)) ;;
            bumpWatchKey db key ;;
            mret (ok removed tt)
      end).

(** In the order of the unordered set. *)
Definition setMembers (db : Z) (key : string) (now : Z) : KM (Res bool (bool * list string)) :=
  on_shard key (
    e ← findEntry db key now;
    match e with
    | None => mret (ok true (false, []))
    | Some e =>
        if negb (is_type ObjSet e) then mret (fail false (false, []) kWrongType)
        else mret (ok true (true, hash_iter_set (e_set e)))
    end).

Definition setCard (db : Z) (key : string) (now : Z) : KM (Res Z bool) :=
  on_shard key (
    e ← findEntry db key now;
    match e with
    | None => mret (ok 0 false)
    | Some e =>
        if negb (is_type ObjSet e) then mret (fail (-1) false kWrongType)
        else mret (ok (Z.of_nat (size (e_set e))) true)
    end).

(** [res_out]: [(is_member, found)]. *)
Definition setIsMember (db : Z) (key member : string) (now : Z) : KM (Res bool (bool * bool)) :=
  on_shard key (
    e ← findEntry db key now;
    match e with
    | None => mret (ok true (false, false))
    | Some e =>
        if negb (is_type ObjSet e) then mret (fail false (false, false) kWrongType)
        else mret (ok true (bool_decide (member ∈ e_set e), true))
    end).

(** Removes [*set.begin()]. *)
Definition spop (db : Z) (key : string) (now : Z) : KM (Res bool (option string)) :=
  evictIfNeededLocked now ;;
  on_shard key (
    e ← findEntry db key now;
    match e with
    | None => mret (ok true None)
    | Some e =>
        if negb (is_type ObjSet e) then mret (fail false None kWrongType)
        else
          match hash_iter_set (e_set e) with
          | [] => mret (ok true None)
          | m :: _ =>
              let X := e_set e ∖ {[m]} in
              (if bool_decide (X = ∅) then eraseEntry db key
               else putEntry db key (e |> set_set X |> touchEntry now)) ;;
              bumpWatchKey db key ;;
              mret (ok true (Some m))
          end
    end).

Definition sscan (db : Z) (key : string) (cursor : Z) (pattern : string) (count now : Z)
  : KM (Res CollectionScanResult unit) :=
  on_shard key (
    e ← findEntry db key now;
    match e with
    | None => mret (ok empty_scan tt)
    | Some e =>
        if negb (is_type ObjSet e) then mret (fail empty_scan tt kWrongType)
        else
          let members :=
            filter (λ m, matchGlob pattern m = true) (hash_iter_set (e_set e)) in
          mret (ok (scanFlatItems (sort_strings members) cursor count) tt)
    end).

(** ** The set algebra *)

(** [dit = shard.m_dbs.find(db); e = dit == end ? null : findEntry(dit->second, key, now)] *)
Definition lookup_key (db : Z) (key : string) (now : Z) : KM (option Entry) :=
  on_shard key (findEntryDb db key now).

(** [touchEntry(e, now)], for the forms that do it. *)
Definition touch_key (touch : bool) (db : Z) (key : string) (now : Z) (e : Entry) : KM unit :=
  if touch then on_shard key (putEntry db key (touchEntry now e)) else mret tt.

(** [acc] is [None] until the first key. *)
Fixpoint inter_loop (touch : bool) (db : Z) (keys : list string) (now : Z)
    (acc : option (gset string)) : KM SetFold :=
  match keys with
  | [] => mret (FoldSet (default ∅ acc))
  | key :: keys =>
      e ← lookup_key db key now;
      match e with
      | None => mret FoldMissing
      | Some e =>
          if negb (is_type ObjSet e) then mret FoldWrong
          else
            touch_key touch db key now e ;;
            inter_loop touch db keys now
              (Some match acc with
                    | None => e_set e
                    | Some acc => filter (λ m, m ∈ e_set e) acc
                    end)
      end
  end.

Fixpoint union_loop (touch : bool) (db : Z) (keys : list string) (now : Z)
    (acc : gset string) : KM SetFold :=
  match keys with
  | [] => mret (FoldSet acc)
  | key :: keys =>
      e ← lookup_key db key now;
      match e with
      | None => union_loop touch db keys now acc
      | Some e =>
          if negb (is_type ObjSet e) then mret FoldWrong
          else
            touch_key touch db key now e ;;
            union_loop touch db keys now (acc ∪ e_set e)
      end
  end.

(** The keys after the first. *)
Fixpoint diff_loop (db : Z) (keys : list string) (now : Z) (acc : gset string)
  : KM SetFold :=
  match keys with
  | [] => mret (FoldSet acc)
  | key :: keys =>
      e ← lookup_key db key now;
      match e with
      | None => diff_loop db keys now acc
      | Some e =>
          if negb (is_type ObjSet e) then mret FoldWrong
          else diff_loop db keys now (acc ∖ e_set e)
      end
  end.

Definition diff_fold (db : Z) (keys : list string) (now : Z) : KM SetFold :=
  match keys with
  | [] => mret FoldMissing
  | key :: keys =>
      first ← lookup_key db key now;
      match first with
      | None => mret FoldMissing
      | Some e =>
          if negb (is_type ObjSet e) then mret FoldWrong
          else diff_loop db keys now (e_set e)
      end
  end.

(** The [out] vector: sorted, empty when a key was missing or of another type. *)
Definition fold_reply (r : SetFold) : Res bool (list string) :=
  match r with
  | FoldSet X => ok true (sort_strings (hash_iter_set X))
  | FoldMissing => ok true []
  | FoldWrong => fail false [] kWrongType
  end.

Definition setInter (db : Z) (keys : list string) (now : Z) : KM (Res bool (list string)) :=
  if bool_decide (keys = []) then mret (ok true [])
  else r ← inter_loop true db keys now None; mret (fold_reply r).

Definition setUnion (db : Z) (keys : list string) (now : Z) : KM (Res bool (list string)) :=
  if bool_decide (keys = []) then mret (ok true [])
  else r ← union_loop true db keys now ∅; mret (fold_reply r).

Definition setDiff (db : Z) (keys : list string) (now : Z) : KM (Res bool (list string)) :=
  if bool_decide (keys = []) then mret (ok true [])
  else r ← diff_fold db keys now; mret (fold_reply r).

(** [m_dbs[db][dest]] overwritten with the set [acc], or erased when it is empty.
    The reference reaches whatever entry is there, expired ones included. *)
Definition store_set (db : Z) (dest : string) (acc : gset string) (now : Z) : KM (Res Z unit) :=
  on_shard dest (
    e ← gets (λ sh, default Entry0 (db_map sh db !! dest));
    (if bool_decide (acc = ∅) then eraseEntry db dest
     else putEntry db dest
            (e |> set_type ObjSet |> set_value "" |> set_hash ∅ |> set_list [] |> set_zset ∅
               |> set_stream [] |> set_stream_groups ∅ |> set_set acc |> set_expire 0
               |> touchEntry now)) ;;
    bumpWatchKey db dest ;;
    mret (ok (Z.of_nat (size acc)) tt)).

Definition store_fold (db : Z) (dest : string) (now : Z) (r : SetFold) : KM (Res Z unit) :=
  match r with
  | FoldSet X => store_set db dest X now
  | FoldMissing => store_set db dest ∅ now
  | FoldWrong => mret (fail (-1) tt kWrongType)
  end.

Definition setInterStore (db : Z) (dest : string) (keys : list string) (now : Z)
  : KM (Res Z unit) :=
  if bool_decide (keys = []) then store_set db dest ∅ now
  else r ← inter_loop false db keys now None; store_fold db dest now r.

Definition setUnionStore (db : Z) (dest : string) (keys : list string) (now : Z)
  : KM (Res Z unit) :=
  r ← union_loop false db keys now ∅; store_fold db dest now r.

Definition setDiffStore (db : Z) (dest : string) (keys : list string) (now : Z)
  : KM (Res Z unit) :=
  if bool_decide (keys = []) then mret (ok 0 tt)
  else r ← diff_fold db keys now; store_fold db dest now r.
End ops.

(** ** Specifications of the one-key commands *)

Section specs.
Context `{impl : !StdImpl}.

Definition spec_setAdd (members : list string) : option AVal → option AVal * Res Z unit :=
  spec_on (fail (-1) tt kWrongType) (λ X : gset string,
    (list_to_set members ∪ X, ok (Z.of_nat (size (list_to_set members ∖ X))) tt)).

Definition spec_setRem (members : list string) : option AVal → option AVal * Res Z unit :=
  spec_on (fail (-1) tt kWrongType) (λ X : gset string,
    (X ∖ list_to_set members, ok (Z.of_nat (size (X ∩ list_to_set members))) tt)).

Definition spec_setMembers : option AVal → option AVal * Res bool (bool * list string) :=
  spec_read (fail false (false, []) kWrongType) (λ X : gset string,
    ok true (negb (bool_decide (X = ∅)), hash_iter_set X)).

Definition spec_setCard : option AVal → option AVal * Res Z bool :=
  spec_read (fail (-1) false kWrongType) (λ X : gset string,
    ok (Z.of_nat (size X)) (negb (bool_decide (X = ∅)))).

Definition spec_setIsMember (member : string)
  : option AVal → option AVal * Res bool (bool * bool) :=
  spec_read (fail false (false, false) kWrongType) (λ X : gset string,
    ok true (bool_decide (member ∈ X), negb (bool_decide (X = ∅)))).

(** Some element, which one is up to the unordered set. *)
Definition spec_spop : option AVal → option AVal * Res bool (option string) :=
  spec_on (fail false None kWrongType) (λ X : gset string,
    match head (hash_iter_set X) with
    | Some m => (X ∖ {[m]}, ok true (Some m))
    | None => (X, ok true None)
    end).

Definition spec_sscan (cursor : Z) (pattern : string) (count : Z)
  : option AVal → option AVal * Res CollectionScanResult unit :=
  spec_read (fail empty_scan tt kWrongType) (λ X : gset string,
    ok (scanFlatItems
          (sort_strings (elements (filter (λ m, matchGlob pattern m = true) X)))
          cursor count) tt).
End specs.

#[export] Hint Unfold spec_setAdd spec_setRem spec_setMembers spec_setCard spec_setIsMember
  spec_spop spec_sscan : spec.

Lemma sadd_loop_spec X members :
  sadd_loop X members =
  (list_to_set members ∪ X, Z.of_nat (size (list_to_set members ∖ X : gset string))).
Proof.
  induction members as [|m members IH] using rev_ind.
  { simpl. unfold sadd_loop; simpl. rewrite (left_id_L ∅ (∪)).
    by replace (∅ ∖ X) with (∅ : gset string) by set_solver. }
  unfold sadd_loop in *. rewrite foldl_app, IH; simpl.
  rewrite list_to_set_app_L; simpl. rewrite (right_id_L ∅ (∪)).
  generalize (list_to_set members : gset string); intros M. f_equal; [set_solver|].
  case_bool_decide as Hm.
  - replace ((M ∪ {[m]}) ∖ X) with (M ∖ X); [done|].
    apply set_eq. intros x. rewrite elem_of_union in Hm.
    rewrite ?elem_of_difference, ?elem_of_intersection, elem_of_union, elem_of_singleton.
    destruct (decide (x = m)) as [->|]; tauto.
  - rewrite size_new_elem by set_solver. lia.
Qed.

Lemma srem_loop_spec X members :
  srem_loop X members =
  (X ∖ list_to_set members, Z.of_nat (size (X ∩ list_to_set members : gset string))).
Proof.
  induction members as [|m members IH] using rev_ind.
  { simpl. unfold srem_loop; simpl. rewrite difference_empty_L.
    by replace (X ∩ ∅) with (∅ : gset string) by set_solver. }
  unfold srem_loop in *. rewrite foldl_app, IH; simpl.
  rewrite list_to_set_app_L; simpl. rewrite (right_id_L ∅ (∪)).
  generalize (list_to_set members : gset string); intros M. f_equal; [set_solver|].
  case_bool_decide as Hm.
  - rewrite size_inter_elem by set_solver. lia.
  - replace (X ∩ (M ∪ {[m]})) with (X ∩ M); [done|].
    apply set_eq. intros x. rewrite elem_of_difference in Hm.
    destruct (decide (m ∈ M)), (decide (x = m)) as [->|];
      rewrite ?elem_of_difference, ?elem_of_intersection, elem_of_union, elem_of_singleton; tauto.
Qed.

Lemma sadd_non_empty (members : list string) (X : gset string) :
  members ≠ [] → list_to_set members ∪ X ≠ ∅.
Proof. destruct members; [done|]. set_solver. Qed.

#[export] Hint Rewrite sadd_loop_spec srem_loop_spec : loops.
#[export] Hint Resolve sadd_non_empty : nonempty.

Lemma diff_empty_l (X : gset string) : ∅ ∖ X = ∅.
Proof. set_solver. Qed.
Lemma inter_empty_l (X : gset string) : ∅ ∩ X = ∅.
Proof. set_solver. Qed.

#[export] Hint Rewrite diff_empty_l inter_empty_l @size_empty : loops.

Lemma sort_filter_elements (X : gset string) l pattern :
  l ≡ₚ elements X →
  sort_strings (filter (λ m, matchGlob pattern m = true) l) =
  sort_strings (elements (filter (λ m, matchGlob pattern m = true) X)).
Proof.
  intros Hl. apply sort_strings_proper. rewrite Hl. apply NoDup_Permutation.
  - apply NoDup_filter, NoDup_elements.
  - apply NoDup_elements.
  - intros x. rewrite list_elem_of_filter, !elem_of_elements. set_solver.
Qed.

Section refinement.
Context `{impl : !StdImpl}.

Lemma hash_iter_set_empty : hash_iter_set ∅ = [].
Proof. apply Permutation_nil_r. by rewrite hash_iter_set_perm, elements_empty. Qed.

Lemma hash_iter_set_non_empty X : X ≠ ∅ → hash_iter_set X ≠ [].
Proof.
  intros HX Hnil. apply HX, set_eq. intros x.
  rewrite <-hash_iter_set_elem, Hnil, elem_of_nil. set_solver.
Qed.

#[local] Hint Rewrite hash_iter_set_empty @filter_empty_L @elements_empty : loops.

Lemma setAdd_ok db key members now :
  members ≠ [] →
  key_ok id true now db key (setAdd db key members now) (spec_setAdd members).
Proof. intros Hm. unfold setAdd. rewrite bool_decide_eq_false_2 by done. key_solve. Qed.

Lemma setRem_ok db key members now :
  members ≠ [] →
  key_ok id true now db key (setRem db key members now) (spec_setRem members).
Proof. intros Hm. unfold setRem. rewrite bool_decide_eq_false_2 by done. key_solve. Qed.

Lemma setMembers_ok db key now :
  key_ok id true now db key (setMembers db key now) spec_setMembers.
Proof. key_solve. Qed.

Lemma setCard_ok db key now : key_ok id true now db key (setCard db key now) spec_setCard.
Proof. key_solve. Qed.

Lemma setIsMember_ok db key member now :
  key_ok id true now db key (setIsMember db key member now) (spec_setIsMember member).
Proof. key_solve. Qed.

Lemma spop_ok db key now :
  key_ok (λ s, (evictIfNeededLocked now s).1) true now db key (spop db key now) spec_spop.
Proof. apply key_ok_evict. key_solve. Qed.

Lemma sscan_ok db key cursor pattern count now :
  in_u64 cursor →
  key_ok id true now db key (sscan db key cursor pattern count now)
    (spec_sscan cursor pattern count).
Proof.
  intros [Hc _]. key_solve.
  - rewrite (sort_filter_elements e_set) by apply hash_iter_set_perm. post_solve.
  - intros _. split_and!; [|done..|lia]. autounfold with spec; simpl. loops.
    change (sort_strings []) with (@nil string). by rewrite scan_nil.
Qed.
End refinement.
