(* ===== verification/ZSetOps.v ===== *)
(** * Sorted-set commands of the store

    A sorted set is a [std::map] from member to score; every ranked answer sorts it
    anew.  Scores are IEEE doubles, and the order facts hold away from NaN. *)

From Stdlib Require Import Ascii.
From stdpp Require Import options.
From S2P Require Import Prelude.
From S2P Require Import CStd.
From S2P Require Import Double.
From S2P Require Import Glob.
From S2P Require Import Scan.
From S2P Require Import Store.
From S2P Require Import Evict.
From S2P Require Import StoreFacts.
From S2P Require Import ListOps.

#[local] Set Default Proof Using "Type*".

Definition new_zset (z : gmap string double) : Entry :=
  Entry0 |> set_type ObjZSet |> set_value "" |> set_hash ∅ |> set_list [] |> set_set ∅
         |> set_zset z |> set_expire 0.

(** The comparators of [rankedZset]. *)
Definition rank_lt (reverse : bool) (a b : double * string) : bool :=
  if negb (d_eqb a.1 b.1) then if reverse then d_ltb b.1 a.1 else d_ltb a.1 b.1
  else if reverse then str_lt b.2 a.2 else str_lt a.2 b.2.

Definition score_pairs (z : gmap string double) : list (double * string) :=
  (λ kv, (kv.2, kv.1)) <$> map_iter z.

(** [rankedZset], which [zrange] and [zrank] repeat in place. *)
Definition rankedZset (z : gmap string double) (reverse : bool) : list (double * string) :=
  std_sort (rank_lt reverse) (score_pairs z).

(** The loop of [zadd]. *)
Definition zadd_loop (z : gmap string double) (members : list (double * string))
  : gmap string double * Z :=
  foldl (λ '(z, added) p,
    (<[p.2 := p.1]> z, if bool_decide (z !! p.2 = None) then added + 1 else added))
    (z, 0) members.

Record ZaddOptions : Type := mkZadd { nx : bool; xx : bool; gt : bool; lt : bool; ch : bool }.

(** One member of [zaddOpt]: the set with the counts of added and updated. *)
Definition zadd_member (opt : ZaddOptions) (st : gmap string double * Z * Z)
    (p : double * string) : gmap string double * Z * Z :=
  let '(z, added, updated) := st in
  match z !! p.2 with
  | Some old =>
      if nx opt then st
      else if gt opt && d_leb p.1 old then st
      else if lt opt && d_leb old p.1 then st
      else if negb (d_eqb old p.1) then (<[p.2 := p.1]> z, added, updated + 1)
      else st
  | None => if xx opt then st else (<[p.2 := p.1]> z, added + 1, updated)
  end.

Definition zadd_opt_loop (opt : ZaddOptions) (z : gmap string double)
    (members : list (double * string)) : gmap string double * Z * Z :=
  foldl (zadd_member opt) (z, 0, 0) members.

(** [for(m : members) if(zset.erase(m)) ++removed;] *)
Definition zrem_loop (z : gmap string double) (members : list string)
  : gmap string double * Z :=
  foldl (λ '(z, removed) m,
    (delete m z, if bool_decide (z !! m = None) then removed else removed + 1)) (z, 0) members.

(** The scan for the best entry of [zpopmin] ([max] is false) and [zpopmax]. *)
Definition pop_better (max : bool) (a best : string * double) : bool :=
  if max then d_ltb best.2 a.2 || d_eqb a.2 best.2 && str_lt best.1 a.1
  else d_ltb a.2 best.2 || d_eqb a.2 best.2 && str_lt a.1 best.1.

Definition zpop_best (max : bool) (z : gmap string double) : option (string * double) :=
  match map_iter z with
  | [] => None
  | first :: _ =>
      Some (foldl (λ best a, if pop_better max a best then a else best) first (map_iter z))
  end.

(** ** Score bounds *)

Record ScoreBound : Type := mkBound {
  val : double; exclusive : bool; neg_inf : bool; pos_inf : bool
}.

Definition parseScoreBound (raw : string) : option ScoreBound :=
  if bool_decide (raw = "") then None
  else if bool_decide (raw = "-inf") || bool_decide (raw = "-INF")
  then Some (mkBound d_zero false true false)
  else if bool_decide (raw = "+inf") || bool_decide (raw = "inf")
          || bool_decide (raw = "+INF") || bool_decide (raw = "INF")
  then Some (mkBound d_zero false false true)
  else
    let '(excl, s) := match raw with
                      | String "("%char s => (true, s)
                      | _ => (false, raw)
                      end in
    let '(v, consumed) := strtod s in
    if negb (consumed =? 0)%nat && negb (d_is_nan v)
    then Some (mkBound v excl false false) else None.

Definition scoreGeMin (score : double) (min : ScoreBound) : bool :=
  if neg_inf min then true
  else if exclusive min then d_ltb (val min) score else d_leb (val min) score.

Definition scoreLeMax (score : double) (max : ScoreBound) : bool :=
  if pos_inf max then true
  else if exclusive max then d_ltb score (val max) else d_leb score (val max).

Definition scoreInRange (score : double) (min max : ScoreBound) : bool :=
  scoreGeMin score min && scoreLeMax score max.

(** The loop of [zrangeByScore]; the length is tested after the push. *)
Fixpoint byscore_loop (min max : ScoreBound) (offset count : Z)
    (ranked : list (double * string)) (skipped : Z) (out : list (string * double))
  : list (string * double) :=
  match ranked with
  | [] => out
  | item :: ranked =>
      if negb (scoreInRange item.1 min max) then byscore_loop min max offset count ranked skipped out
      else if skipped <? offset then byscore_loop min max offset count ranked (skipped + 1) out
      else
        let out := out ++ [(item.2, item.1)] in
        if (0 <=? count) && (count <=? Z.of_nat (length out)) then out
        else byscore_loop min max offset count ranked skipped out
  end.

Definition err_min_max : string := "ERR min or max is not a float".
Definition err_nx_xx : string := "ERR NX and XX options at the same time are not compatible".
Definition err_gt_lt : string := "ERR GT and LT options at the same time are not compatible".

Section ops.
Context `{impl : !StdImpl}.

Definition zadd (db : Z) (key : string) (members : list (double * string)) (now : Z)
  : KM (Res Z unit) :=
  if bool_decide (members = []) then mret (ok 0 tt)
  else
    on_shard key (
      existing ← findEntry db key now;
      match existing with
      | Some e =>
          if negb (is_type ObjZSet e) then mret (fail (-1) tt kWrongType)
          else
            let '(z, added) := zadd_loop (e_zset e) members in
            putEntry db key (set_zset z e) ;;
            bumpWatchKey db key ;;
            mret (ok added tt)
      | None =>
          let '(z, added) := zadd_loop ∅ members in
          putEntry db key (new_zset z) ;;
          bumpWatchKey db key ;;
          mret (ok added tt)
      end).

Definition zaddOpt (db : Z) (key : string) (opt : ZaddOptions)
    (members : list (double * string)) (now : Z) : KM (Res Z unit) :=
  if bool_decide (members = []) then mret (ok 0 tt)
  else if nx opt && xx opt then mret (fail (-1) tt err_nx_xx)
  else if gt opt && lt opt then mret (fail (-1) tt err_gt_lt)
  else
    on_shard key (
      existing ← findEntry db key now;
      if match existing with Some e => negb (is_type ObjZSet e) | None => false end
      then mret (fail (-1) tt kWrongType)
      else if xx opt && match existing with Some _ => false | None => true end
      then mret (ok 0 tt)
      else
        let e := match existing with Some e => e | None => new_zset ∅ end in
        let '(z, added, updated) := zadd_opt_loop opt (e_zset e) members in
        (if bool_decide (z = ∅) then eraseEntry db key
         else putEntry db key (e |> set_zset z |> touchEntry now)) ;;
        bumpWatchKey db key ;;
        mret (ok (if ch opt then added + updated else added) tt)).

Definition zrem (db : Z) (key : string) (members : list string) (now : Z) : KM (Res Z unit) :=
  if bool_decide (members = []) then mret (ok 0 tt)
  else
    on_shard key (
      e ← findEntry db key now;
      match e with
      | None => mret (ok 0 tt)
      | Some e =>
          if negb (is_type ObjZSet e) then mret (fail (-1) tt kWrongType)
          else
            let '(z, removed) := zrem_loop (e_zset e) members in
            (if bool_decide (z = ∅) then eraseEntry db key
             else putEntry db key (set_zset z e)) ;;
            bumpWatchKey db key ;;
            mret (ok removed tt)
      end).

Definition zscore (db : Z) (key member : string) (now : Z) : KM (Res bool (option double)) :=
  on_shard key (
    e ← findEntry db key now;
    match e with
    | None => mret (ok true None)
    | Some e =>
        if negb (is_type ObjZSet e) then mret (fail false None kWrongType)
        else mret (ok true (e_zset e !! member))
    end).

Definition zcard (db : Z) (key : string) (now : Z) : KM (Res Z bool) :=
  on_shard key (
    e ← findEntry db key now;
    match e with
    | None => mret (ok 0 false)
    | Some e =>
        if negb (is_type ObjZSet e) then mret (fail (-1) false kWrongType)
        else mret (ok (Z.of_nat (size (e_zset e))) true)
    end).

Definition zrange (db : Z) (key : string) (start stop : Z) (reverse : bool) (now : Z)
  : KM (Res bool (bool * list (string * double))) :=
  on_shard key (
    e ← findEntry db key now;
    match e with
    | None => mret (ok true (false, []))
    | Some e =>
        if negb (is_type ObjZSet e) then mret (fail false (false, []) kWrongType)
        else
          let ranked := rankedZset (e_zset e) reverse in
          mret (ok true (true, (λ p, (p.2, p.1)) <$> range_copy ranked start stop))
    end).

(** [res_out]: [(score, member_existed)]. *)
Definition zincrby (db : Z) (key member : string) (increment : double) (now : Z)
  : KM (Res bool (option (double * bool))) :=
  on_shard key (
    existing ← findEntry db key now;
    match existing with
    | Some e =>
        if negb (is_type ObjZSet e) then mret (fail false None kWrongType)
        else
          let existed := bool_decide (e_zset e !! member ≠ None) in
          let next := d_add (default d_zero (e_zset e !! member)) increment in
          putEntry db key (set_zset (<[member := next]> (e_zset e)) e) ;;
          bumpWatchKey db key ;;
          mret (ok true (Some (next, existed)))
    | None =>
        putEntry db key (new_zset {[member := increment]}) ;;
        bumpWatchKey db key ;;
        mret (ok true (Some (increment, false)))
    end).

(** [res_out]: [(rank, key_found)], the rank -1 when there is none. *)
Definition zrank (db : Z) (key member : string) (reverse : bool) (now : Z)
  : KM (Res bool (Z * bool)) :=
  on_shard key (
    e ← findEntry db key now;
    match e with
    | None => mret (ok true (-1, false))
    | Some e =>
        if negb (is_type ObjZSet e) then mret (fail false (-1, false) kWrongType)
        else if bool_decide (e_zset e !! member = None) then mret (ok true (-1, true))
        else
          mret (ok true
            (match list_find (λ p, p.2 = member) (rankedZset (e_zset e) reverse) with
             | Some (i, _) => Z.of_nat i
             | None => -1
             end, true))
    end).

Definition zrangeByScore (db : Z) (key min max : string) (reverse : bool)
    (offset count : Z) (now : Z) : KM (Res bool (bool * list (string * double))) :=
  match parseScoreBound min, parseScoreBound max with
  | Some bmin, Some bmax =>
      on_shard key (
        e ← findEntry db key now;
        match e with
        | None => mret (ok true (false, []))
        | Some e =>
            if negb (is_type ObjZSet e) then mret (fail false (false, []) kWrongType)
            else
              mret (ok true
                (true, byscore_loop bmin bmax offset count (rankedZset (e_zset e) reverse) 0 []))
        end)
  | _, _ => mret (fail false (false, []) err_min_max)
  end.

Definition zcount (db : Z) (key min max : string) (now : Z) : KM (Res Z bool) :=
  match parseScoreBound min, parseScoreBound max with
  | Some bmin, Some bmax =>
      on_shard key (
        e ← findEntry db key now;
        match e with
        | None => mret (ok 0 false)
        | Some e =>
            if negb (is_type ObjZSet e) then mret (fail (-1) false kWrongType)
            else
              mret (ok (foldl (λ n kv, if scoreInRange kv.2 bmin bmax then n + 1 else n) 0
                          (map_iter (e_zset e))) true)
        end)
  | _, _ => mret (fail (-1) false err_min_max)
  end.

(** [zpopmin] and [zpopmax], which differ in the comparison of the scan. *)
Definition zpop (max : bool) (db : Z) (key : string) (now : Z)
  : KM (Res bool (option (string * double))) :=
  evictIfNeededLocked now ;;
  on_shard key (
    e ← findEntry db key now;
    match e with
    | None => mret (ok true None)
    | Some e =>
        if negb (is_type ObjZSet e) then mret (fail false None kWrongType)
        else
          match zpop_best max (e_zset e) with
          | None => mret (ok true None)
          | Some best =>
              let z := delete best.1 (e_zset e) in
              (if bool_decide (z = ∅) then eraseEntry db key
               else putEntry db key (e |> set_zset z |> touchEntry now)) ;;
              bumpWatchKey db key ;;
              mret (ok true (Some best))
          end
    end).

Definition zpopmin := zpop false.
Definition zpopmax := zpop true.

(** The flat list holds the scores and the members, and is sorted as a whole. *)
Definition zscan (db : Z) (key : string) (cursor : Z) (pattern : string) (count now : Z)
  : KM (Res CollectionScanResult unit) :=
  on_shard key (
    e ← findEntry db key now;
    match e with
    | None => mret (ok empty_scan tt)
    | Some e =>
        if negb (is_type ObjZSet e) then mret (fail empty_scan tt kWrongType)
        else
          let flat := mjoin ((λ kv, [to_string_double kv.2; kv.1]) <$>
            filter (λ kv : string * double, matchGlob pattern kv.1 = true)
              (map_iter (e_zset e))) in
          mret (ok (scanFlatItems (sort_strings flat) cursor count) tt)
    end).
End ops.

(** ** Specifications *)

Abbreviation zset := (gmap string double).

Definition swap_pairs (members : list (double * string)) : list (string * double) :=
  (λ p, (p.2, p.1)) <$> members.

Definition spec_zadd (members : list (double * string)) : option AVal → option AVal * Res Z unit :=
  spec_on (fail (-1) tt kWrongType) (λ z : zset,
    (list_to_map (reverse (swap_pairs members)) ∪ z, ok (new_keys z (swap_pairs members)) tt)).

(** [XX] on a missing key answers 0 without looking at the members; the members of a
    new key all count as added. *)
Definition spec_zaddOpt (opt : ZaddOptions) (members : list (double * string))
  : option AVal → option AVal * Res Z unit :=
  spec_on (fail (-1) tt kWrongType) (λ z : zset,
    let '(z', added, updated) := zadd_opt_loop opt z members in
    (z', ok (if ch opt then added + updated else added) tt)).

Definition spec_zrem (members : list string) : option AVal → option AVal * Res Z unit :=
  spec_on (fail (-1) tt kWrongType) (λ z : zset,
    (filter (λ kv, kv.1 ∉ members) z,
     ok (Z.of_nat (size z - size (filter (λ kv, kv.1 ∉ members) z))) tt)).

Definition spec_zscore (member : string) : option AVal → option AVal * Res bool (option double) :=
  spec_read (fail false None kWrongType) (λ z : zset, ok true (z !! member)).

Definition spec_zcard : option AVal → option AVal * Res Z bool :=
  spec_read (fail (-1) false kWrongType) (λ z : zset,
    ok (Z.of_nat (size z)) (negb (bool_decide (z = ∅)))).

Definition spec_zrange (start stop : Z) (reverse : bool)
  : option AVal → option AVal * Res bool (bool * list (string * double)) :=
  spec_read (fail false (false, []) kWrongType) (λ z : zset,
    ok true (negb (bool_decide (z = ∅)),
             (λ p, (p.2, p.1)) <$> list_range (rankedZset z reverse) start stop)).

Definition spec_zincrby (member : string) (increment : double)
  : option AVal → option AVal * Res bool (option (double * bool)) :=
  spec_on (fail false None kWrongType) (λ z : zset,
    let next := if bool_decide (z = ∅) then increment
                else d_add (default d_zero (z !! member)) increment in
    (<[member := next]> z, ok true (Some (next, bool_decide (z !! member ≠ None))))).

Definition spec_zrank (member : string) (reverse : bool)
  : option AVal → option AVal * Res bool (Z * bool) :=
  spec_read (fail false (-1, false) kWrongType) (λ z : zset,
    ok true (if bool_decide (z !! member = None) then -1
             else match list_find (λ p, p.2 = member) (rankedZset z reverse) with
                  | Some (i, _) => Z.of_nat i
                  | None => -1
                  end, negb (bool_decide (z = ∅)))).

(** [LIMIT]: a count below one that is not negative still lets one item through. *)
Definition limit_items {A} (offset count : Z) (l : list A) : list A :=
  let l := drop (Z.to_nat offset) l in
  if count <? 0 then l else take (Z.to_nat (Z.max 1 count)) l.

Definition spec_zrangeByScore (min max : string) (reverse : bool) (offset count : Z)
  : option AVal → option AVal * Res bool (bool * list (string * double)) :=
  match parseScoreBound min, parseScoreBound max with
  | Some bmin, Some bmax =>
      spec_read (fail false (false, []) kWrongType) (λ z : zset,
        ok true (negb (bool_decide (z = ∅)),
          (λ p, (p.2, p.1)) <$>
            limit_items offset count
              (filter (λ p, scoreInRange p.1 bmin bmax = true) (rankedZset z reverse))))
  | _, _ => λ o, (o, fail false (false, []) err_min_max)
  end.

Definition spec_zcount (min max : string) : option AVal → option AVal * Res Z bool :=
  match parseScoreBound min, parseScoreBound max with
  | Some bmin, Some bmax =>
      spec_read (fail (-1) false kWrongType) (λ z : zset,
        ok (Z.of_nat (size (filter (λ kv, scoreInRange kv.2 bmin bmax = true) z)))
           (negb (bool_decide (z = ∅))))
  | _, _ => λ o, (o, fail (-1) false err_min_max)
  end.

Definition spec_zpop (max : bool)
  : option AVal → option AVal * Res bool (option (string * double)) :=
  spec_on (fail false None kWrongType) (λ z : zset,
    match zpop_best max z with
    | Some best => (delete best.1 z, ok true (Some best))
    | None => (z, ok true None)
    end).

(** One page of the flat list, sorted as the code sorts it: by string, so that scores
    and members do not stay side by side. *)
Definition spec_zscan (cursor : Z) (pattern : string) (count : Z)
  : option AVal → option AVal * Res CollectionScanResult unit :=
  spec_read (fail empty_scan tt kWrongType) (λ z : zset,
    ok (scanFlatItems
          (sort_strings (mjoin ((λ kv, [to_string_double kv.2; kv.1]) <$>
             filter (λ kv : string * double, matchGlob pattern kv.1 = true) (map_iter z))))
          cursor count) tt).

#[export] Hint Unfold spec_zscan spec_zadd spec_zaddOpt spec_zrem spec_zscore spec_zcard spec_zrange
  spec_zincrby spec_zrank spec_zrangeByScore spec_zcount spec_zpop : spec.

(** ** The loops *)

Lemma zadd_loop_spec z members :
  zadd_loop z members =
  (list_to_map (reverse (swap_pairs members)) ∪ z, new_keys z (swap_pairs members)).
Proof.
  rewrite <-insert_loop_spec. unfold insert_loop, zadd_loop, swap_pairs.
  rewrite foldl_fmap. generalize (z, 0).
  induction members as [|p members IH]; intros [z' n]; simpl; [done|apply IH].
Qed.

Lemma zrem_loop_spec z members :
  zrem_loop z members =
  (filter (λ kv, kv.1 ∉ members) z,
   Z.of_nat (size z - size (filter (λ kv, kv.1 ∉ members) z))).
Proof.
  induction members as [|m members IH] using rev_ind.
  { unfold zrem_loop; simpl. rewrite map_filter_id by set_solver. f_equal. lia. }
  unfold zrem_loop in *. rewrite foldl_app, IH; simpl.
  set (f := filter (λ kv, kv.1 ∉ members) z).
  assert (filter (λ kv, kv.1 ∉ members ++ [m]) z = delete m f) as ->.
  { apply map_eq. intros k. apply option_eq. intros x.
    rewrite lookup_delete_Some. subst f. rewrite !map_lookup_filter_Some. simpl.
    rewrite not_elem_of_app, list_elem_of_singleton. naive_solver. }
  f_equal. assert (size f ≤ size z)%nat as Hle.
  { apply map_subseteq_size, map_filter_subseteq. }
  case_bool_decide as Hm.
  - by rewrite delete_id.
  - destruct (f !! m) as [x|] eqn:E; [|done]. rewrite map_size_delete, E.
    assert (size f ≠ 0)%nat by (intros Hz%map_size_empty_inv; by rewrite Hz in E). lia.
Qed.

Lemma byscore_loop_spec min max offset count ranked skipped out :
  0 ≤ skipped → (0 ≤ count → Z.of_nat (length out) < Z.max 1 count) →
  byscore_loop min max offset count ranked skipped out =
  out ++ ((λ p, (p.2, p.1)) <$>
    (let l := drop (Z.to_nat (offset - skipped))
                (filter (λ p, scoreInRange p.1 min max = true) ranked) in
     if count <? 0 then l else take (Z.to_nat (Z.max 1 count - Z.of_nat (length out))) l)).
Proof.
  revert skipped out. induction ranked as [|[d m] ranked IH]; intros skipped out Hs Ho; cbn [byscore_loop].
  { cbv zeta. rewrite filter_nil, drop_nil, take_nil.
    destruct (count <? 0); by rewrite app_nil_r. }
  rewrite filter_cons; cbn [fst snd]. destruct (scoreInRange d min max); simpl; [|by apply IH].
  destruct (Z.ltb_spec skipped offset) as [Hsk|Hsk].
  - rewrite IH by lia.
    by replace (Z.to_nat (offset - skipped)) with (S (Z.to_nat (offset - (skipped + 1)))) by lia.
  - replace (Z.to_nat (offset - skipped)) with 0%nat in * by lia. rewrite drop_0.
    destruct (Z.ltb_spec count 0) as [Hc|Hc].
    { rewrite (proj2 (Z.leb_gt 0 count)) by lia; cbn [andb].
      rewrite IH by lia. replace (Z.to_nat (offset - skipped)) with 0%nat by lia.
      rewrite drop_0. by rewrite <-(assoc_L (++)). }
    rewrite (proj2 (Z.leb_le 0 count)) by lia. simpl. rewrite length_app; simpl.
    specialize (Ho Hc).
    destruct (Z.to_nat (Z.max 1 count - Z.of_nat (length out))) as [|n] eqn:Hn; [lia|]. simpl.
    destruct (Z.leb_spec count (Z.of_nat (length out + 1))) as [Hl|Hl].
    + replace n with 0%nat by lia. by rewrite take_0.
    + rewrite IH by (rewrite ?length_app; simpl; lia).
      replace (Z.to_nat (offset - skipped)) with 0%nat by lia.
      rewrite drop_0.
      rewrite <-(assoc_L (++)), length_app; simpl.
      do 3 f_equal. f_equal. lia.
Qed.

Lemma byscore_spec min max offset count ranked :
  byscore_loop min max offset count ranked 0 [] =
  (λ p, (p.2, p.1)) <$>
    limit_items offset count (filter (λ p, scoreInRange p.1 min max = true) ranked).
Proof.
  rewrite byscore_loop_spec by (simpl; lia). unfold limit_items; simpl.
  by rewrite !Z.sub_0_r.
Qed.

Lemma count_loop_spec (P : string * double → bool) l n :
  foldl (λ n kv, if P kv then n + 1 else n) n l =
  n + Z.of_nat (length (filter (λ kv, P kv = true) l)).
Proof.
  revert n. induction l as [|kv l IH]; intros n; simpl; [lia|].
  rewrite filter_cons, IH. destruct (P kv); simpl; lia.
Qed.

Lemma zcount_loop_spec bmin bmax z :
  foldl (λ n kv, if scoreInRange kv.2 bmin bmax then n + 1 else n) 0 (map_iter z) =
  Z.of_nat (size (filter (λ kv, scoreInRange kv.2 bmin bmax = true) z)).
Proof.
  rewrite (count_loop_spec (λ kv, scoreInRange kv.2 bmin bmax)), Z.add_0_l.
  f_equal. apply length_filter_map, map_iter_perm.
Qed.

(** ** Ranking *)

Definition no_nan (z : zset) : Prop := map_Forall (λ _ d, d_is_nan d = false) z.
Definition pair_ok (p : double * string) : Prop := d_is_nan p.1 = false.

Lemma d_eqb_sym a b : d_eqb a b = d_eqb b a.
Proof.
  destruct (d_is_nan a) eqn:Ha; [by destruct a, b|].
  destruct (d_is_nan b) eqn:Hb; [by destruct a, b|].
  apply eq_bool_prop_intro. rewrite !Is_true_true, !d_eqb_key by done. naive_solver.
Qed.

Lemma rank_lt_reverse a b : rank_lt true a b = rank_lt false b a.
Proof. unfold rank_lt. by rewrite (d_eqb_sym a.1 b.1). Qed.

Lemma rank_lt_spec a b :
  pair_ok a → pair_ok b →
  (rank_lt false a b = true ↔
   key_lt (d_key a.1) (d_key b.1) ∨ d_key a.1 = d_key b.1 ∧ str_lt a.2 b.2 = true).
Proof.
  intros Ha Hb. unfold rank_lt. pose proof (d_ltb_key a.1 b.1 Ha Hb) as Hlt.
  pose proof (d_eqb_key a.1 b.1 Ha Hb) as Heq.
  destruct (d_eqb a.1 b.1) eqn:E; simpl.
  - assert (d_key a.1 = d_key b.1) as Hk by (by apply Heq). rewrite Hk.
    unfold key_lt. split; [auto|]. intros [?|[_ ?]]; [lia|done].
  - rewrite Hlt. split; [auto|]. intros [?|[Hk _]]; [done|].
    apply Heq in Hk. congruence.
Qed.

Lemma rank_lt_order reverse : StrictOrder pair_ok (rank_lt reverse).
Proof.
  assert (StrictOrder pair_ok (rank_lt false)) as [Hasym Hcot].
  { destruct (str_lt_order (λ _, True)) as [Hsa Hsc]. split.
    - intros a b Ha Hb. rewrite <-not_true_iff_false, !rank_lt_spec by done.
      unfold key_lt. intros [?|[Hk ?]] [?|[Hk' ?]]; try lia; try (rewrite Hk in *; lia).
      + rewrite Hk' in *. lia.
      + by rewrite (Hsa a.2 b.2) in *.
    - intros a b c Ha Hb Hc. rewrite <-!not_true_iff_false, !rank_lt_spec by done.
      destruct (d_key a.1) as [[a1 a2] a3], (d_key b.1) as [[b1 b2] b3],
        (d_key c.1) as [[c1 c2] c3]. unfold key_lt; simpl. rewrite !pair_equal_spec.
      specialize (Hsc a.2 b.2 c.2 I I I). intros H1 H2 H3.
      destruct (str_lt b.2 a.2), (str_lt c.2 b.2), (str_lt c.2 a.2); try lia.
      all: assert (false = true) by (apply Hsc; done); try lia; try done. }
  destruct reverse; [|by split]. split.
  - intros a b Ha Hb. rewrite !rank_lt_reverse. auto.
  - intros a b c Ha Hb Hc. rewrite !rank_lt_reverse. eauto.
Qed.

Lemma rank_lt_sep reverse a b :
  pair_ok a → pair_ok b →
  rank_lt reverse a b = false → rank_lt reverse b a = false → a.2 = b.2.
Proof.
  assert (∀ a b, pair_ok a → pair_ok b → rank_lt false a b = false →
            rank_lt false b a = false → a.2 = b.2) as Hsep.
  { clear. intros a b Ha Hb. rewrite <-!not_true_iff_false, !rank_lt_spec by done.
    destruct (d_key a.1) as [[a1 a2] a3], (d_key b.1) as [[b1 b2] b3].
    unfold key_lt; simpl. rewrite !pair_equal_spec. intros H1 H2. apply str_lt_sep.
    - destruct (str_lt a.2 b.2); [lia|done].
    - destruct (str_lt b.2 a.2); [lia|done]. }
  destruct reverse; [rewrite !rank_lt_reverse|]; eauto.
Qed.

Lemma rankedZset_elem z reverse d m : (d, m) ∈ rankedZset z reverse ↔ z !! m = Some d.
Proof.
  unfold rankedZset, score_pairs. rewrite std_sort_elem, list_elem_of_fmap. split.
  - intros ([k x] & [= -> ->] & Hk). by apply map_iter_elem in Hk.
  - intros Hm. exists (m, d). split; [done|]. by apply map_iter_elem.
Qed.

Lemma rankedZset_ok z reverse : no_nan z → Forall pair_ok (rankedZset z reverse).
Proof.
  intros Hz. apply Forall_forall. intros [d m] Hp%rankedZset_elem. by apply (Hz m).
Qed.

Lemma score_pairs_ok z : no_nan z → Forall pair_ok (score_pairs z).
Proof.
  intros Hz. eapply Permutation_Forall; [|by apply (rankedZset_ok z false)].
  apply std_sort_perm.
Qed.

Lemma rankedZset_sorted z reverse :
  no_nan z → StronglySorted (not_above (rank_lt reverse)) (rankedZset z reverse).
Proof.
  intros Hz. eapply std_sort_sorted; [apply rank_lt_order|by apply score_pairs_ok].
Qed.

Lemma rankedZset_members_nodup z reverse : NoDup (rankedZset z reverse).*2.
Proof.
  unfold rankedZset. rewrite std_sort_perm. unfold score_pairs.
  rewrite <-list_fmap_compose. change (NoDup ((fst : string * double → string) <$> map_iter z)).
  rewrite map_iter_perm. apply NoDup_fst_map_to_list.
Qed.

Lemma ranked_same_member z reverse p q :
  p ∈ rankedZset z reverse → q ∈ rankedZset z reverse → p.2 = q.2 → p = q.
Proof.
  destruct p as [d m], q as [d' m']; simpl. rewrite !rankedZset_elem. intros ? ? ->. congruence.
Qed.

Lemma StronglySorted_reverse {A} (R S : relation A) l :
  (∀ x y, R x y → S y x) → StronglySorted R l → StronglySorted S (reverse l).
Proof.
  intros HRS. induction 1 as [|x l _ IH Hx]; [constructor|]. rewrite reverse_cons.
  apply StronglySorted_app_2; [|done|by repeat constructor].
  intros y z Hy%elem_of_reverse ->%list_elem_of_singleton.
  rewrite reverse_involutive in Hy. rewrite Forall_forall in Hx. by apply HRS, Hx.
Qed.

(** The reversed ranking is the ranking read from its end. *)
Lemma rankedZset_reverse z : no_nan z → rankedZset z true = reverse (rankedZset z false).
Proof.
  intros Hz. apply (StronglySorted_unique_strong (not_above (rank_lt true))).
  - intros p q Hp Hq H1 H2. rewrite elem_of_reverse in Hq. 
    apply (ranked_same_member z true); [done| |].
    + destruct q. rewrite rankedZset_elem in *. done.
    + apply (rank_lt_sep true); [| |done..].
      * by eapply Forall_forall; [by apply (rankedZset_ok z true)|].
      * by eapply Forall_forall; [by apply (rankedZset_ok z false)|].
  - by apply rankedZset_sorted.
  - eapply StronglySorted_reverse; [|by apply rankedZset_sorted].
    intros a b. unfold not_above. by rewrite rank_lt_reverse.
  - rewrite reverse_Permutation. unfold rankedZset. by rewrite !std_sort_perm.
Qed.

(** The 0-based rank of a member counts the entries ranking before it. *)
Lemma rank_counts z reverse m d :
  no_nan z → z !! m = Some d →
  ∃ i, list_find (λ p, p.2 = m) (rankedZset z reverse) = Some (i, (d, m)) ∧
       i = size (filter (λ kv, rank_lt reverse (kv.2, kv.1) (d, m) = true) z).
Proof.
  intros Hz Hm. apply (rankedZset_elem z reverse) in Hm as Hin.
  apply list_elem_of_split in Hin as (l1 & l2 & Hl). exists (length l1).
  pose proof (rankedZset_members_nodup z reverse) as Hnd.
  pose proof (rankedZset_sorted z reverse Hz) as Hs.
  pose proof (rankedZset_ok z reverse Hz) as Hok.
  rewrite Hl in Hnd, Hs, Hok. rewrite fmap_app in Hnd. simpl in Hnd.
  apply NoDup_app in Hnd as (Hnd1 & Hnd & Hnd2). apply NoDup_cons in Hnd2 as [Hn2 _].
  apply Forall_app in Hok as [Hok1 Hok]. apply Forall_cons in Hok as [Hokm Hok2].
  split.
  { apply list_find_Some. rewrite Hl, lookup_app_r, Nat.sub_diag by done. split_and!; [done..|].
    intros j y Hj Hlt Hy. rewrite lookup_app_l in Hj by done.
    apply (Hnd y.2); [|rewrite Hy; by left]. by eapply list_elem_of_fmap_2, list_elem_of_lookup_2. }
  transitivity (length (filter (λ p, rank_lt reverse p (d, m) = true) (rankedZset z reverse))).
  - apply StronglySorted_app in Hs as (Hbefore & _ & Hs2).
    apply StronglySorted_inv in Hs2 as [_ Hafter]. rewrite Forall_forall in Hafter, Hok1.
    rewrite Hl, filter_app, filter_cons, (filter_all _ l1), decide_False, (filter_none _ l2).
    + by rewrite app_nil_r.
    + intros p Hp. rewrite not_true_iff_false. by apply Hafter.
    + destruct (rank_lt_order reverse) as [Hasym _]. intros Hlt.
      pose proof (Hasym _ _ Hokm Hokm Hlt). congruence.
    + intros p Hp. apply not_false_iff_true. intros Hlt.
      apply (Hnd p.2); [by apply list_elem_of_fmap_2|]. apply elem_of_cons; left.
      apply (rank_lt_sep reverse p (d, m)); [by apply Hok1|done|done|].
      apply (Hbefore p (d, m)); [done|by left].
  - unfold rankedZset, score_pairs. rewrite std_sort_perm, filter_fmap, length_fmap.
    apply length_filter_map, map_iter_perm.
Qed.

(** ** Popping *)

Definition swap_pair (kv : string * double) : double * string := (kv.2, kv.1).

Lemma pop_better_rank max a b :
  pair_ok (swap_pair a) → pair_ok (swap_pair b) →
  pop_better max a b = rank_lt max (swap_pair a) (swap_pair b).
Proof.
  assert (∀ a b, pair_ok (swap_pair a) → pair_ok (swap_pair b) →
    pop_better false a b = rank_lt false (swap_pair a) (swap_pair b)) as Hmin.
  { clear. intros [m x] [n y]; unfold pair_ok, swap_pair, pop_better, rank_lt; simpl.
    intros Hx Hy. destruct (d_eqb x y) eqn:E; simpl; [|by rewrite orb_false_r].
    apply d_eqb_key in E; [|done..].
    destruct (d_ltb x y) eqn:El; [|done]. apply d_ltb_key in El; [|done..].
    rewrite E in El. unfold key_lt in El. lia. }
  intros Ha Hb. destruct max; [|by apply Hmin].
  rewrite rank_lt_reverse, <-Hmin by done. unfold pop_better.
  by rewrite (d_eqb_sym a.2 b.2).
Qed.

(** The scan keeps a least element of what it has seen. *)
Lemma scan_best {A} (P : A → Prop) (lt : A → A → bool) first l :
  StrictOrder P lt → P first → Forall P l →
  let best := foldl (λ best a, if lt a best then a else best) first l in
  best ∈ first :: l ∧ ∀ a, a ∈ first :: l → lt a best = false.
Proof.
  intros [Hasym Hcot] Hf Hl. revert first Hf. 
  assert (∀ x, P x → lt x x = false) as Hirr.
  { intros x Hx. destruct (lt x x) eqn:E; [|done]. by rewrite (Hasym x x) in E. }
  induction Hl as [|x l Hx Hl IH]; intros first Hf; simpl.
  - split; [by left|]. intros a ->%list_elem_of_singleton. auto.
  - set (b := if lt x first then x else first).
    assert (P b) as Hb by (subst b; by destruct (lt x first)).
    destruct (IH b Hb) as [Hin Hmin]. split.
    + apply elem_of_cons in Hin as [->|Hin]; [|by do 2 right].
      subst b. destruct (lt x first); [right; left|left].
    + assert (P (foldl (λ best a, if lt a best then a else best) b l)) as Hbest.
      { apply elem_of_cons in Hin as [->|Hin]; [done|]. rewrite Forall_forall in Hl. auto. }
      assert (lt b (foldl (λ best a, if lt a best then a else best) b l) = false) as Hbm
        by (apply Hmin; left).
      intros a Ha. rewrite !elem_of_cons in Ha.
      destruct Ha as [->|[->|Ha]]; [| |by apply Hmin; right].
      * apply (Hcot _ b first); [done..|]. subst b. destruct (lt x first) eqn:E; auto.
      * apply (Hcot _ b x); [done..|]. subst b. destruct (lt x first) eqn:E; auto.
Qed.

(** [zpopmin] removes the first entry of the ranking, [zpopmax] of the reversed one. *)
Lemma zpop_best_ranked max z :
  no_nan z → zpop_best max z = (λ p, (p.2, p.1)) <$> head (rankedZset z max).
Proof.
  intros Hz. unfold zpop_best.
  assert (∀ kv, kv ∈ map_iter z → pair_ok (swap_pair kv)) as Hok.
  { intros [k x] Hk%map_iter_elem. by apply (Hz k). }
  destruct (map_iter z) as [|kv l] eqn:Ez.
  { assert (rankedZset z max = []) as ->; [|done].
    unfold rankedZset, score_pairs. by rewrite Ez. }
  destruct (scan_best (λ kv, pair_ok (swap_pair kv)) (pop_better max) kv (kv :: l))
    as [Hin Hmin].
  - destruct (rank_lt_order max) as [Hasym Hcot]. split.
    + intros a b ??. rewrite !pop_better_rank by done. auto.
    + intros a b c ???. rewrite !pop_better_rank by done. eauto.
  - apply Hok. by left.
  - by apply Forall_forall.
  - set (best := foldl _ _ _) in *. clearbody best.
    assert (best ∈ kv :: l) as Hbest by (apply elem_of_cons in Hin as [->|?]; [by left|done]).
    pose proof (rankedZset_sorted z max Hz) as Hs.
    assert (swap_pair best ∈ rankedZset z max) as Hr.
    { destruct best. apply rankedZset_elem, map_iter_elem. by rewrite Ez. }
    destruct (rankedZset z max) as [|h r] eqn:Er; [by apply elem_of_nil in Hr|]. simpl. f_equal.
    assert (h ∈ rankedZset z max) as Hh by (rewrite Er; by left).
    assert ((h.2, h.1) ∈ kv :: l) as Hhm.
    { destruct h. rewrite <-Ez. apply map_iter_elem. by apply rankedZset_elem in Hh. }
    assert (rank_lt max h (swap_pair best) = false) as H1.
    { specialize (Hmin (h.2, h.1)). rewrite pop_better_rank in Hmin by auto.
      destruct h. apply Hmin. by right. }
    assert (rank_lt max (swap_pair best) h = false) as H2.
    { apply StronglySorted_inv in Hs as [_ Hs]. rewrite Forall_forall in Hs.
      apply elem_of_cons in Hr as [Hr|Hr]; [by rewrite Hr in H1 |- *|by apply Hs]. }
    rewrite <-Er in Hr. assert (h = swap_pair best) as ->; [|by destruct best].
    apply (ranked_same_member z max); [done..|].
    apply (rank_lt_sep max); [|by apply Hok|done..].
    apply Hok in Hhm. by destruct h.
Qed.

(** ** [ZADD] with options *)

(** What the options allow for one member. *)
Definition zadd_allows (opt : ZaddOptions) (old : option double) (new : double) : bool :=
  match old with
  | None => negb (xx opt)
  | Some old =>
      negb (nx opt) && negb (gt opt && d_leb new old) && negb (lt opt && d_leb old new)
  end.

Lemma zadd_member_spec opt z added updated p :
  zadd_member opt (z, added, updated) p =
  if zadd_allows opt (z !! p.2) p.1 then
    match z !! p.2 with
    | None => (<[p.2 := p.1]> z, added + 1, updated)
    | Some old =>
        if d_eqb old p.1 then (z, added, updated) else (<[p.2 := p.1]> z, added, updated + 1)
    end
  else (z, added, updated).
Proof.
  unfold zadd_member, zadd_allows. destruct (z !! p.2) as [old|].
  - by destruct (nx opt), (gt opt && _), (lt opt && _), (d_eqb old p.1).
  - by destruct (xx opt).
Qed.

Lemma zadd_opt_snoc opt z members p :
  zadd_opt_loop opt z (members ++ [p]) = zadd_member opt (zadd_opt_loop opt z members) p.
Proof. unfold zadd_opt_loop. by rewrite foldl_app. Qed.

(** The first count is the number of new members; no member is ever lost. *)
Lemma zadd_opt_count opt z members z' added updated :
  zadd_opt_loop opt z members = (z', added, updated) →
  dom z ⊆ dom z' ∧ added = Z.of_nat (size z') - Z.of_nat (size z).
Proof.
  revert z' added updated. induction members as [|p members IH] using rev_ind; intros z' a u.
  { intros [= <- <- <-]. split; [done|lia]. }
  rewrite zadd_opt_snoc. destruct (zadd_opt_loop opt z members) as [[y b] v].
  destruct (IH y b v eq_refl) as [Hdom ->]. rewrite zadd_member_spec.
  destruct (zadd_allows _ _ _); [|by intros [= <- <- <-]].
  destruct (y !! p.2) as [old|] eqn:E.
  - destruct (d_eqb old p.1); intros [= <- <- <-]; [done|].
    rewrite dom_insert_L, map_size_insert, E. split; [set_solver|done].
  - intros [= <- <- <-]. rewrite dom_insert_L, map_size_insert, E. split; [set_solver|lia].
Qed.

(** [NX] never changes a score, [XX] never adds a member. *)
Lemma zadd_opt_nx opt z members :
  nx opt = true → z ⊆ (zadd_opt_loop opt z members).1.1.
Proof.
  intros Hnx. induction members as [|p members IH] using rev_ind; [done|].
  rewrite zadd_opt_snoc. destruct (zadd_opt_loop opt z members) as [[y b] v]; simpl in IH.
  rewrite zadd_member_spec. unfold zadd_allows. rewrite Hnx.
  destruct (y !! p.2) eqn:E; simpl; [done|]. destruct (xx opt); simpl; [done|].
  etrans; [exact IH|]. by apply insert_subseteq.
Qed.

Lemma zadd_opt_xx opt z members :
  xx opt = true → dom (zadd_opt_loop opt z members).1.1 = dom z.
Proof.
  intros Hxx. induction members as [|p members IH] using rev_ind; [done|].
  rewrite zadd_opt_snoc. destruct (zadd_opt_loop opt z members) as [[y b] v]; simpl in IH.
  rewrite zadd_member_spec. unfold zadd_allows. rewrite Hxx.
  destruct (y !! p.2) eqn:E; simpl; [|done]. repeat case_match; simpl; try done.
  rewrite dom_insert_lookup_L; [done|]. by rewrite E.
Qed.

(** [GT] never lowers a score: a replaced score is below its replacement. *)
Lemma zadd_opt_gt opt z members m old new :
  gt opt = true → z !! m = Some old →
  (zadd_opt_loop opt z members).1.1 !! m = Some new → d_is_nan old = false →
  Forall (λ p, d_is_nan p.1 = false) members → new = old ∨ d_ltb old new = true.
Proof.
  intros Hgt Hold Hnew Hnan Hmem. 
  assert (d_is_nan new = false ∧ (new = old ∨ d_ltb old new = true)) as [_ H]; [|done].
  revert new Hnew. induction members as [|p members IH] using rev_ind.
  { intros new. unfold zadd_opt_loop; simpl. rewrite Hold. intros [= <-]. auto. }
  apply Forall_app in Hmem as [Hmem Hp]. apply Forall_cons in Hp as [Hp _].
  specialize (IH Hmem). intros new. rewrite zadd_opt_snoc.
  destruct (zadd_opt_loop opt z members) as [[y b] v] eqn:Ey; simpl in IH.
  rewrite zadd_member_spec. destruct (zadd_allows opt (y !! p.2) p.1) eqn:Ha; [|apply IH].
  destruct (decide (p.2 = m)) as [Hpm|Hpm].
  - rewrite Hpm in *. destruct (y !! m) as [cur|] eqn:E.
    + destruct (IH cur eq_refl) as [Hc Hcur]. destruct (d_eqb cur p.1) eqn:Eq; simpl.
      { rewrite E. intros [= <-]. auto. }
      rewrite lookup_insert_eq. intros [= <-]. split; [done|right].
      unfold zadd_allows in Ha. rewrite Hgt in Ha. rewrite !andb_true_iff, !negb_true_iff in Ha.
      destruct Ha as [[_ Hle] _]. simpl in Hle.
      rewrite d_leb_ltb in Hle by done. apply negb_false_iff in Hle as Hlt.
      destruct Hcur as [->|Hcur]; [done|].
      apply d_ltb_key in Hcur, Hlt; [|done..]. apply d_ltb_key; [done..|].
      unfold key_lt in *. lia.
    + destruct (zadd_opt_count _ _ _ _ _ _ Ey) as [Hdom _].
      apply not_elem_of_dom in E. destruct E. apply Hdom, elem_of_dom. by rewrite Hold.
  - intros Hn. apply IH. revert Hn.
    destruct (y !! p.2) as [cur|]; [destruct (d_eqb cur p.1)|]; simpl; try done;
      by rewrite lookup_insert_ne.
Qed.

(** ** The methods meet their specifications *)

Lemma zadd_opt_non_empty opt z members z' added updated :
  zadd_opt_loop opt z members = (z', added, updated) → z ≠ ∅ → z' ≠ ∅.
Proof.
  intros [Hdom _]%zadd_opt_count Hz ->. apply Hz, dom_empty_inv_L.
  rewrite dom_empty_L in Hdom. set_solver.
Qed.

Lemma zadd_opt_adds opt z members p :
  xx opt = false → p ∈ members → p.2 ∈ dom (zadd_opt_loop opt z members).1.1.
Proof.
  intros Hxx. induction members as [|q members IH] using rev_ind; [by intros ?%elem_of_nil|].
  rewrite elem_of_app, list_elem_of_singleton, zadd_opt_snoc.
  destruct (zadd_opt_loop opt z members) as [[y b] v]; simpl in IH.
  rewrite zadd_member_spec. unfold zadd_allows. rewrite Hxx.
  destruct (y !! q.2) as [old|] eqn:E; simpl.
  - apply elem_of_dom_2 in E. repeat case_match; simpl; intros [?| ->]; set_solver.
  - set_solver.
Qed.

(** A new key starts from the empty set: every member is added, unless [XX]. *)
Lemma zadd_opt_fresh opt members z' added updated :
  zadd_opt_loop opt ∅ members = (z', added, updated) → members ≠ [] →
  if xx opt then z' = ∅ ∧ added = 0 ∧ updated = 0 else z' ≠ ∅.
Proof.
  intros Hl Hm. destruct (xx opt) eqn:Hxx.
  - revert z' added updated Hl. clear Hm.
    induction members as [|p members IH] using rev_ind; intros z' a u; [by intros [= <- <- <-]|].
    rewrite zadd_opt_snoc. destruct (zadd_opt_loop opt ∅ members) as [[y b] v].
    destruct (IH y b v eq_refl) as (-> & -> & ->). rewrite zadd_member_spec.
    unfold zadd_allows. rewrite lookup_empty, Hxx. by intros [= <- <- <-].
  - destruct members as [|p members]; [done|]. intros ->.
    assert (p.2 ∈ dom (zadd_opt_loop opt ∅ (p :: members)).1.1) as Hp
      by (apply zadd_opt_adds; [done|left]).
    rewrite Hl in Hp. simpl in Hp. set_solver.
Qed.

Lemma swap_pairs_non_nil members : members ≠ [] → swap_pairs members ≠ [].
Proof. by destruct members. Qed.

Lemma zpop_best_None max z : zpop_best max z = None → z = ∅.
Proof.
  unfold zpop_best. destruct (map_iter z) eqn:E; [|done]. intros _.
  apply map_to_list_empty_iff, Permutation_nil_r. by rewrite <-E, map_iter_perm.
Qed.

Lemma rankedZset_empty reverse : rankedZset ∅ reverse = [].
Proof. done. Qed.

Lemma limit_items_nil {A} offset count : limit_items offset count (@nil A) = [].
Proof. unfold limit_items. rewrite drop_nil, take_nil. by destruct (count <? 0). Qed.

#[export] Hint Rewrite rankedZset_empty @limit_items_nil : loops.
#[export] Hint Rewrite zadd_loop_spec zrem_loop_spec byscore_spec zcount_loop_spec
  @range_copy_spec @map_filter_empty @map_size_empty : loops.
#[export] Hint Extern 1 (list_to_map _ ∪ _ ≠ ∅) =>
  (apply map_update_non_empty, swap_pairs_non_nil; assumption) : nonempty.

Section refinement.
Context `{impl : !StdImpl}.

Lemma zadd_ok db key members now :
  members ≠ [] →
  key_ok id true now db key (zadd db key members now) (spec_zadd members).
Proof. intros Hm. unfold zadd. rewrite bool_decide_eq_false_2 by done. key_solve. Qed.

Lemma zrem_ok db key members now :
  members ≠ [] →
  key_ok id true now db key (zrem db key members now) (spec_zrem members).
Proof. intros Hm. unfold zrem. rewrite bool_decide_eq_false_2 by done. key_solve. Qed.

Lemma zscore_ok db key member now :
  key_ok id true now db key (zscore db key member now) (spec_zscore member).
Proof. key_solve. Qed.

Lemma zcard_ok db key now : key_ok id true now db key (zcard db key now) spec_zcard.
Proof. key_solve. Qed.

Lemma zrange_ok db key start stop reverse now :
  key_ok id true now db key (zrange db key start stop reverse now)
    (spec_zrange start stop reverse).
Proof. key_solve. Qed.

Lemma zincrby_ok db key member increment now :
  key_ok id true now db key (zincrby db key member increment now)
    (spec_zincrby member increment).
Proof. key_solve. Qed.

Lemma zrank_ok db key member reverse now :
  key_ok id true now db key (zrank db key member reverse now) (spec_zrank member reverse).
Proof. key_solve. Qed.

Lemma zaddOpt_ok db key opt members now :
  members ≠ [] → nx opt && xx opt = false → gt opt && lt opt = false →
  key_ok id true now db key (zaddOpt db key opt members now) (spec_zaddOpt opt members).
Proof.
  intros Hm Hnx Hgt. unfold zaddOpt. rewrite bool_decide_eq_false_2, Hnx, Hgt by done.
  key_solve; [by rewrite andb_false_r in *|].
  rewrite andb_true_r in *. destruct (zadd_opt_loop opt ∅ members) as [[z' added] updated] eqn:E.
  pose proof (zadd_opt_fresh opt members z' added updated E Hm) as Hf.
  intros _. split_and!; [|done..|lia]. autounfold with spec; simpl. rewrite E.
  destruct (xx opt); [|done]. destruct Hf as (-> & -> & ->). loops. by destruct (ch opt).
Qed.

Lemma zrangeByScore_ok db key min max reverse offset count now bmin bmax :
  parseScoreBound min = Some bmin → parseScoreBound max = Some bmax →
  key_ok id true now db key (zrangeByScore db key min max reverse offset count now)
    (spec_zrangeByScore min max reverse offset count).
Proof. intros Hmin Hmax. unfold zrangeByScore. rewrite Hmin, Hmax. key_solve. Qed.

Lemma zcount_ok db key min max now bmin bmax :
  parseScoreBound min = Some bmin → parseScoreBound max = Some bmax →
  key_ok id true now db key (zcount db key min max now) (spec_zcount min max).
Proof. intros Hmin Hmax. unfold zcount. rewrite Hmin, Hmax. key_solve. Qed.

(** A bound that does not parse is refused before the store is looked at. *)
Lemma score_bound_error db key min max reverse offset count now s :
  parseScoreBound min = None ∨ parseScoreBound max = None →
  zrangeByScore db key min max reverse offset count now s =
    (s, fail false (false, []) err_min_max) ∧
  zcount db key min max now s = (s, fail (-1) false err_min_max).
Proof.
  unfold zrangeByScore, zcount. intros [-> | ->]; [done|].
  by destruct (parseScoreBound min).
Qed.

Lemma zscan_ok db key cursor pattern count now :
  in_u64 cursor →
  key_ok id true now db key (zscan db key cursor pattern count now)
    (spec_zscan cursor pattern count).
Proof.
  intros [Hc _]. key_solve. intros _. split_and!; [|done..|lia].
  autounfold with spec; simpl. change (map_iter ∅) with (@nil (string * double)); simpl.
  change (sort_strings []) with (@nil string). by rewrite scan_nil.
Qed.

Lemma zpop_ok max db key now :
  key_ok (λ s, (evictIfNeededLocked now s).1) true now db key (zpop max db key now)
    (spec_zpop max).
Proof. apply key_ok_evict. key_solve. Qed.
End refinement.
