(* ===== verification/StreamOps.v ===== *)
(** * Stream commands of the store

    Each command is a pure step on the stream's state ([StreamVal]) and the store
    plumbing around it.  Stream identifiers are compared three ways in the code: by
    number ([compareStreamId]), as strings ([XREAD], [XREADGROUP]) and for equality
    ([XDEL], [XACK], [XCLAIM]). *)

From Stdlib Require Import Ascii.
From stdpp Require Import options.
From S2P Require Import Prelude.
From S2P Require Import CStd.
From S2P Require Import Store.
From S2P Require Import Evict.
From S2P Require Import StoreFacts.
From S2P Require Import SetOps.

#[local] Set Default Proof Using "Type*".

(** ** Identifiers *)

Record StreamIdParts : Type := mkId { id_ms : Z; id_seq : Z; auto_id : bool }.

Definition no_id : StreamIdParts := mkId 0 0 false.

(** A [char*]: the buffer it points into and the offset.  [substr] makes a temporary
    of its own; pointers into different buffers never compare equal. *)
Inductive buffer : Type := BufArg | BufTemp.
Definition ptr : Type := buffer * nat.
Definition ptr_eqb (a b : ptr) : bool :=
  match a.1, b.1 with
  | BufArg, BufArg | BufTemp, BufTemp => (a.2 =? b.2)%nat
  | _, _ => false
  end.

(** [strtoull(s.substr(from, len).c_str(), &end, 10)]: the value and [end]. *)
Definition strtoull_sub (s : string) (from len : nat) : Z * ptr :=
  let '(v, consumed) := strtoull (String.substring from len s) in (v, (BufTemp, consumed)).

Fixpoint find_dash (s : string) : option nat :=
  match s with
  | EmptyString => None
  | String c s => if bool_decide (c = "-"%char) then Some 0%nat else S <$> find_dash s
  end.

Definition parseStreamIdToken (s : string) : option StreamIdParts :=
  if bool_decide (s = "*") then Some (mkId 0 0 true)
  else
    match find_dash s with
    | None => None
    | Some dash =>
        let '(ms, end_) := strtoull_sub s 0 dash in
        if negb (ptr_eqb end_ (BufArg, dash)) then None
        else
          let rest := (String.length s - S dash)%nat in
          let '(seq, end_) := strtoull_sub s (S dash) rest in
          if negb (end_.2 =? rest)%nat then None else Some (mkId ms seq false)
    end.

Definition compareStreamId (a b : StreamIdParts) : Z :=
  if negb (id_ms a =? id_ms b) then if id_ms a <? id_ms b then -1 else 1
  else if negb (id_seq a =? id_seq b) then if id_seq a <? id_seq b then -1 else 1
  else 0.

Definition formatStreamId (ms seq : Z) : string := to_string ms +:+ "-" +:+ to_string seq.

(** ** Steps on a stream *)

Record StreamVal : Type := mkStream {
  sv_entries : list StreamEntry;
  sv_last_ms : Z;
  sv_last_seq : Z;
  sv_groups : gmap string StreamGroupState
}.

Definition empty_stream : StreamVal := mkStream [] 0 0 ∅.
Definition stream_of (e : Entry) : StreamVal :=
  mkStream (e_stream e) (e_stream_last_ms e) (e_stream_last_seq e) (e_stream_groups e).
Definition set_stream_val (v : StreamVal) (e : Entry) : Entry :=
  e |> set_stream (sv_entries v) |> set_stream_last (sv_last_ms v) (sv_last_seq v)
    |> set_stream_groups (sv_groups v).
Definition with_groups (v : StreamVal) (gs : gmap string StreamGroupState) : StreamVal :=
  mkStream (sv_entries v) (sv_last_ms v) (sv_last_seq v) gs.

Definition err_bad_id : string := "ERR invalid stream ID".
Definition err_small_id : string :=
  "ERR The ID specified in XADD is equal or smaller than the target stream top item".
Definition err_xadd_args : string := "ERR wrong number of arguments for XADD".
Definition err_syntax : string := "ERR syntax error".
Definition err_no_key : string := "ERR no such key".
Definition err_nogroup : string := "NOGROUP No such consumer group".
Definition err_no_such_group : string := "ERR no such group".
Definition err_busygroup : string := "BUSYGROUP Consumer Group name already exists".

(** The identifier [XADD] gives the entry and the stream's new last identifier, or
    the error. *)
Definition xadd_id (now : Z) (v : StreamVal) (id_in : string) : string + Z * Z :=
  match parseStreamIdToken id_in with
  | None => inl err_bad_id
  | Some req =>
      if auto_id req then
        let ms := u64 now in
        inr (if sv_last_ms v <? ms then (ms, 0) else (sv_last_ms v, u64 (sv_last_seq v + 1)))
      else
        match last (sv_entries v) with
        | Some tail =>
            if compareStreamId req (default no_id (parseStreamIdToken (se_id tail))) <=? 0
            then inl err_small_id else inr (id_ms req, id_seq req)
        | None => inr (id_ms req, id_seq req)
        end
  end.

Definition xadd_step (now : Z) (id_in : string) (fields : list (string * string))
    (v : StreamVal) : string + StreamVal * string :=
  match xadd_id now v id_in with
  | inl err => inl err
  | inr (ms, seq) =>
      let id := formatStreamId ms seq in
      inr (mkStream (sv_entries v ++ [mkStreamEntry id (insert_loop ∅ fields).1]) ms seq
             (sv_groups v), id)
  end.

(** The range loops: [continue] on the items skipped, [break] when [count] are out. *)
Fixpoint pick_loop (skip : StreamEntry → bool) (count : Z) (items out : list StreamEntry)
  : list StreamEntry :=
  match items with
  | [] => out
  | item :: items =>
      if skip item then pick_loop skip count items out
      else
        let out := out ++ [item] in
        if (0 <? count) && (count <=? Z.of_nat (length out)) then out
        else pick_loop skip count items out
  end.

Definition entry_id (item : StreamEntry) : StreamIdParts :=
  default no_id (parseStreamIdToken (se_id item)).

Definition xrange_step (start end_ : string) (count : Z) (rev : bool)
    (entries : list StreamEntry) : list StreamEntry :=
  match parseStreamIdToken (if bool_decide (start = "-") then "0-0" else start) with
  | None => []
  | Some start_id =>
      match parseStreamIdToken
              (if bool_decide (end_ = "+") then "18446744073709551615-18446744073709551615"
               else end_) with
      | None => []
      | Some end_id =>
          if rev then
            pick_loop (λ item, (0 <? compareStreamId (entry_id item) start_id)
                               || (compareStreamId (entry_id item) end_id <? 0))
              count (reverse entries) []
          else
            pick_loop (λ item, (compareStreamId (entry_id item) start_id <? 0)
                               || (0 <? compareStreamId (entry_id item) end_id))
              count entries []
      end
  end.

(** Erase the first entry with an identifier; [true] when there was one. *)
Fixpoint erase_entry (id : string) (entries : list StreamEntry) : list StreamEntry * bool :=
  match entries with
  | [] => ([], false)
  | item :: entries =>
      if bool_decide (se_id item = id) then (entries, true)
      else let '(entries, found) := erase_entry id entries in (item :: entries, found)
  end.

Definition xdel_step (ids : list string) (entries : list StreamEntry)
  : list StreamEntry * Z :=
  foldl (λ '(entries, removed) id,
    let '(entries, found) := erase_entry id entries in
    (entries, if found : bool then removed + 1 else removed)) (entries, 0) ids.

Definition xtrim_step (maxlen : Z) (entries : list StreamEntry) : list StreamEntry * Z :=
  let before := Z.of_nat (length entries) in
  if before <=? maxlen then (entries, 0)
  else let remove := before - maxlen in (drop (Z.to_nat remove) entries, remove).

(** ** Consumer groups *)

Definition no_consumer : StreamConsumerState := mkConsumer "" [] ∅.

Definition xgroup_create_step (group id : string) (v : StreamVal) : string + StreamVal :=
  if bool_decide (sv_groups v !! group ≠ None) then inl err_busygroup
  else
    let last_id :=
      if bool_decide (id = "$") then
        match last (sv_entries v) with None => "0-0" | Some e => se_id e end
      else id in
    inr (with_groups v (<[group := mkGroup last_id ∅]> (sv_groups v))).

Definition xgroup_destroy_step (group : string) (v : StreamVal) : string + StreamVal :=
  if bool_decide (sv_groups v !! group = None) then inl err_no_such_group
  else inr (with_groups v (delete group (sv_groups v))).

(** One delivery to a consumer. *)
Definition deliver (now : Z) (id : string) (cs : StreamConsumerState) : StreamConsumerState :=
  mkConsumer id (cs_pending cs ++ [id]) (<[id := mkMeta now 1]> (cs_pending_meta cs)).

(** The loop over the entries in [xreadGroup]. *)
Fixpoint read_group_loop (now : Z) (start_id : string) (count : Z) (items : list StreamEntry)
    (cs : StreamConsumerState) (picked : list StreamEntry)
  : StreamConsumerState * list StreamEntry :=
  match items with
  | [] => (cs, picked)
  | item :: items =>
      if negb (str_lt start_id (se_id item)) then
        read_group_loop now start_id count items cs picked
      else
        let picked := picked ++ [item] in
        let cs := deliver now (se_id item) cs in
        if (0 <? count) && (count <=? Z.of_nat (length picked)) then (cs, picked)
        else read_group_loop now start_id count items cs picked
  end.

(** What [xreadGroup] does for one key; [None] when the group is missing. *)
Definition read_group_step (now : Z) (group consumer id : string) (count : Z) (v : StreamVal)
  : option (StreamVal * list StreamEntry) :=
  gs ← sv_groups v !! group;
  let cs := default no_consumer (gs_consumers gs !! consumer) in
  let start_id := if bool_decide (cs_last_id cs = "") then gs_last_id gs else cs_last_id cs in
  let start_id := if bool_decide (id = ">") then start_id
                  else if bool_decide (id = "") then start_id else id in
  let '(cs, picked) := read_group_loop now start_id count (sv_entries v) cs [] in
  Some (with_groups v (<[group := mkGroup (gs_last_id gs) (<[consumer := cs]> (gs_consumers gs))]>
                         (sv_groups v)), picked).

(** Erase the first occurrence in a deque; [None] when there is none. *)
Fixpoint erase_pending (id : string) (pending : list string) : option (list string) :=
  match pending with
  | [] => None
  | p :: pending =>
      if bool_decide (p = id) then Some pending else cons p <$> erase_pending id pending
  end.

Definition ack_one (id : string) (cs : StreamConsumerState) : option StreamConsumerState :=
  pending ← erase_pending id (cs_pending cs);
  Some (mkConsumer (cs_last_id cs) pending (delete id (cs_pending_meta cs))).

(** All the identifiers, on one consumer: its state and the number acknowledged. *)
Definition ack_consumer (ids : list string) (cs : StreamConsumerState)
  : StreamConsumerState * Z :=
  foldl (λ '(cs, acked) id,
    match ack_one id cs with
    | Some cs => (cs, acked + 1)
    | None => (cs, acked)
    end) (cs, 0) ids.

Section unordered.
Context `{impl : !StdImpl}.

Definition xack_step (group : string) (ids : list string) (v : StreamVal)
  : option (StreamVal * Z) :=
  gs ← sv_groups v !! group;
  let '(cs, acked) :=
    foldl (λ '(m, acked) '(name, c),
      let '(c, n) := ack_consumer ids c in (<[name := c]> m, acked + n))
      (gs_consumers gs, 0) (hash_iter (gs_consumers gs)) in
  Some (with_groups v (<[group := mkGroup (gs_last_id gs) cs]> (sv_groups v)), acked).

(** The delivery a consumer holds for [id]: [(prev_count, idle)], zero without meta. *)
Definition held (now : Z) (id : string) (c : StreamConsumerState) : Z * Z :=
  match cs_pending_meta c !! id with
  | Some m => (delivery_count m, i64 (now - delivery_ms m))
  | None => (0, 0)
  end.

(** May [id] be taken from this consumer? *)
Definition claimable (now min_idle_ms : Z) (force : bool) (id : string)
    (c : StreamConsumerState) : bool :=
  bool_decide (id ∈ cs_pending c) && negb (negb force && ((held now id c).2 <? min_idle_ms)).

(** One identifier of [xclaim]: the first consumer of the unordered map that holds it
    and may give it up loses it to the target. *)
Definition claim_one (now : Z) (consumer : string) (min_idle_ms : Z) (force : bool) (id : string)
    (cs : gmap string StreamConsumerState) : option (gmap string StreamConsumerState) :=
  '(_, (name, c)) ← list_find (λ p, claimable now min_idle_ms force id p.2 = true) (hash_iter cs);
  let pending := default (cs_pending c) (erase_pending id (cs_pending c)) in
  let cs := <[name := mkConsumer (cs_last_id c) pending (delete id (cs_pending_meta c))]> cs in
  let target := default no_consumer (cs !! consumer) in
  Some (<[consumer := mkConsumer (cs_last_id target) (cs_pending target ++ [id])
           (<[id := mkMeta now (i64 ((held now id c).1 + 1))]> (cs_pending_meta target))]> cs).

Definition findStreamEntry (stream : list StreamEntry) (id : string) : option StreamEntry :=
  snd <$> list_find (λ item, se_id item = id) stream.

Definition claim_loop (now : Z) (consumer : string) (min_idle_ms : Z) (force : bool)
    (stream : list StreamEntry) (ids : list string) (cs : gmap string StreamConsumerState)
  : gmap string StreamConsumerState * list StreamEntry :=
  foldl (λ '(cs, out) id,
    match claim_one now consumer min_idle_ms force id cs with
    | None => (cs, out)
    | Some cs => (cs, out ++ option_list (findStreamEntry stream id))
    end) (cs, []) ids.

Definition xclaim_step (now : Z) (group consumer : string) (min_idle_ms : Z)
    (ids : list string) (force : bool) (v : StreamVal)
  : option (StreamVal * list StreamEntry) :=
  gs ← sv_groups v !! group;
  let cs := <[consumer := default no_consumer (gs_consumers gs !! consumer)]>
              (gs_consumers gs) in
  let '(cs, out) := claim_loop now consumer min_idle_ms force (sv_entries v) ids cs in
  Some (with_groups v (<[group := mkGroup (gs_last_id gs) cs]> (sv_groups v)), out).

(** ** Pending summaries *)

Record XPendingSummary : Type := mkSummary {
  xp_count : Z; xp_min_id : string; xp_max_id : string; xp_consumers : list (string * Z)
}.

Definition summary_add (s : XPendingSummary) (pid : string) : XPendingSummary :=
  mkSummary (xp_count s + 1)
    (if bool_decide (xp_min_id s = "") || str_lt pid (xp_min_id s) then pid else xp_min_id s)
    (if bool_decide (xp_max_id s = "") || str_lt (xp_max_id s) pid then pid else xp_max_id s)
    (xp_consumers s).

Definition xpending_summary_step (gs : StreamGroupState) : XPendingSummary :=
  let s := foldl summary_add (mkSummary 0 "" "" [])
             (mjoin ((λ cp, cs_pending cp.2) <$> hash_iter (gs_consumers gs))) in
  let counts := filter (λ p, p.2 ≠ 0)
    ((λ cp, (cp.1, Z.of_nat (length (cs_pending cp.2)))) <$> hash_iter (gs_consumers gs)) in
  mkSummary (xp_count s) (xp_min_id s) (xp_max_id s)
    (std_sort (λ a b, str_lt a.1 b.1 || bool_decide (a.1 = b.1) && (a.2 <? b.2)) counts).

Record XPendingDetail : Type := mkDetail {
  xd_id : string; xd_consumer : string; xd_idle_ms : Z; xd_delivery_count : Z
}.

Definition xpending_range_step (now : Z) (start end_ : string) (count : Z)
    (consumer_filter : string) (gs : StreamGroupState) : list XPendingDetail :=
  let details :=
    '(name, c) ← hash_iter (gs_consumers gs);
    if bool_decide (consumer_filter ≠ "" ∧ name ≠ consumer_filter) then []
    else
      pid ← cs_pending c;
      if bool_decide (start ≠ "") && str_lt pid start then []
      else if bool_decide (end_ ≠ "" ∧ end_ ≠ "+") && str_lt end_ pid then []
      else [mkDetail pid name (held now pid c).2 (held now pid c).1] in
  let sorted := std_sort (λ a b, str_lt (xd_id a) (xd_id b)) details in
  if (0 <=? count) && (count <? Z.of_nat (length sorted)) then take (Z.to_nat count) sorted
  else sorted.
End unordered.

(** ** The methods *)

Section ops.
Context `{impl : !StdImpl}.

(** The writing half of [xadd], on the entry found or just created. *)
Definition xadd_body (db : Z) (key id_in : string) (fields : list (string * string))
    (now : Z) (e : Entry) : SM (Res bool string) :=
  match xadd_step now id_in fields (stream_of e) with
  | inl err => mret (fail false "" err)
  | inr (v, id_out) =>
      putEntry db key (e |> set_stream_val v |> touchEntry now) ;;
      bumpWatchKey db key ;;
      mret (ok true id_out)
  end.

(** The new key is created before the identifier is parsed. *)
Definition xadd (db : Z) (key id_in : string) (fields : list (string * string)) (now : Z)
  : KM (Res bool string) :=
  if bool_decide (fields = []) then mret (fail false "" err_xadd_args)
  else
    evictIfNeededLocked now ;;
    on_shard key (
      e ← findEntry db key now;
      match e with
      | None =>
          let ne := Entry0 |> set_type ObjStream in
          putEntry db key ne ;;
          xadd_body db key id_in fields now ne
      | Some e =>
          if negb (is_type ObjStream e) then mret (fail false "" kWrongType)
          else xadd_body db key id_in fields now e
      end).

Definition xlen (db : Z) (key : string) (now : Z) : KM (Res Z bool) :=
  on_shard key (
    e ← findEntry db key now;
    match e with
    | None => mret (ok 0 false)
    | Some e =>
        if negb (is_type ObjStream e) then mret (fail (-1) false kWrongType)
        else
          putEntry db key (touchEntry now e) ;;
          mret (ok (Z.of_nat (length (e_stream e))) true)
    end).

Definition xrange (db : Z) (key start end_ : string) (count : Z) (rev : bool) (now : Z)
  : KM (Res bool (bool * list StreamEntry)) :=
  on_shard key (
    e ← findEntry db key now;
    match e with
    | None => mret (ok true (false, []))
    | Some e =>
        if negb (is_type ObjStream e) then mret (fail false (false, []) kWrongType)
        else
          putEntry db key (touchEntry now e) ;;
          mret (ok true (true, xrange_step start end_ count rev (e_stream e)))
    end).

Definition xdel (db : Z) (key : string) (ids : list string) (now : Z) : KM (Res Z unit) :=
  on_shard key (
    e ← findEntry db key now;
    match e with
    | None => mret (ok 0 tt)
    | Some e =>
        if negb (is_type ObjStream e) then mret (fail (-1) tt kWrongType)
        else
          let '(entries, removed) := xdel_step ids (e_stream e) in
          (if bool_decide (length entries = 0%nat) then eraseEntry db key
           else putEntry db key (e |> set_stream entries |> touchEntry now)) ;;
          bumpWatchKey db key ;;
          mret (ok removed tt)
    end).

Definition xtrim (db : Z) (key : string) (maxlen : Z) (now : Z) : KM (Res Z unit) :=
  if maxlen <? 0 then mret (fail (-1) tt err_syntax)
  else
    on_shard key (
      e ← findEntry db key now;
      match e with
      | None => mret (ok 0 tt)
      | Some e =>
          if negb (is_type ObjStream e) then mret (fail (-1) tt kWrongType)
          else
            let '(entries, removed) := xtrim_step maxlen (e_stream e) in
            if removed =? 0 then mret (ok 0 tt)
            else
              putEntry db key (e |> set_stream entries |> touchEntry now) ;;
              bumpWatchKey db key ;;
              mret (ok removed tt)
      end).

(** A successful change of the stream's state: written, touched and announced. *)
Definition put_stream (db : Z) (key : string) (v : StreamVal) (now : Z) (e : Entry) : SM unit :=
  putEntry db key (e |> set_stream_val v |> touchEntry now) ;; bumpWatchKey db key.

Definition xgroup_create_body (db : Z) (key group id : string) (now : Z) (e : Entry)
  : SM (Res bool unit) :=
  match xgroup_create_step group id (stream_of e) with
  | inl err => mret (fail false tt err)
  | inr v => put_stream db key v now e ;; mret (ok true tt)
  end.

Definition xgroupCreate (db : Z) (key group id : string) (mkstream : bool) (now : Z)
  : KM (Res bool unit) :=
  on_shard key (
    e ← findEntry db key now;
    match e with
    | None =>
        if negb mkstream then mret (fail false tt err_no_key)
        else
          let ne := Entry0 |> set_type ObjStream in
          putEntry db key ne ;;
          xgroup_create_body db key group id now ne
    | Some e =>
        if negb (is_type ObjStream e) then mret (fail false tt kWrongType)
        else xgroup_create_body db key group id now e
    end).

(** [if(!e || e->type != ObjType::Stream)] *)
Definition as_stream (o : option Entry) : option Entry :=
  match o with
  | Some e => if is_type ObjStream e then Some e else None
  | None => None
  end.

Definition xgroupDestroy (db : Z) (key group : string) (now : Z) : KM (Res bool unit) :=
  on_shard key (
    e ← findEntry db key now;
    match as_stream e with
    | None => mret (fail false tt err_no_key)
    | Some e =>
        match xgroup_destroy_step group (stream_of e) with
        | inl err => mret (fail false tt err)
        | inr v => put_stream db key v now e ;; mret (ok true tt)
        end
    end).

Definition xack (db : Z) (key group : string) (ids : list string) (now : Z)
  : KM (Res Z unit) :=
  on_shard key (
    e ← findEntry db key now;
    match as_stream e with
    | None => mret (fail (-1) tt err_no_key)
    | Some e =>
        match xack_step group ids (stream_of e) with
        | None => mret (fail (-1) tt err_nogroup)
        | Some (v, acked) => put_stream db key v now e ;; mret (ok acked tt)
        end
    end).

Definition xpendingSummary (db : Z) (key group : string) (now : Z)
  : KM (Res bool XPendingSummary) :=
  on_shard key (
    e ← findEntry db key now;
    mret match as_stream e with
    | None => fail false (mkSummary 0 "" "" []) err_no_key
    | Some e =>
        match e_stream_groups e !! group with
        | None => fail false (mkSummary 0 "" "" []) err_nogroup
        | Some gs => ok true (xpending_summary_step gs)
        end
    end).

Definition xpendingRange (db : Z) (key group start end_ : string) (count : Z)
    (consumer_filter : string) (now : Z) : KM (Res bool (list XPendingDetail)) :=
  on_shard key (
    e ← findEntry db key now;
    mret match as_stream e with
    | None => fail false [] err_no_key
    | Some e =>
        match e_stream_groups e !! group with
        | None => fail false [] err_nogroup
        | Some gs => ok true (xpending_range_step now start end_ count consumer_filter gs)
        end
    end).

Definition xclaim (db : Z) (key group consumer : string) (min_idle_ms : Z)
    (ids : list string) (force : bool) (now : Z) : KM (Res bool (list StreamEntry)) :=
  on_shard key (
    e ← findEntry db key now;
    match as_stream e with
    | None => mret (fail false [] err_no_key)
    | Some e =>
        match xclaim_step now group consumer min_idle_ms ids force (stream_of e) with
        | None => mret (fail false [] err_nogroup)
        | Some (v, out) => put_stream db key v now e ;; mret (ok true out)
        end
    end).

(** The entries one key contributes to [xread]; ["0"] reads from the start. *)
Definition xread_pick (id : string) (count : Z) (entries : list StreamEntry)
  : list StreamEntry :=
  pick_loop (λ item, bool_decide (id ≠ "0") && negb (str_lt id (se_id item))) count entries [].

Fixpoint xread_loop (db : Z) (reqs : list (string * string)) (count now : Z)
    (out : list (string * list StreamEntry)) : KM (list (string * list StreamEntry)) :=
  match reqs with
  | [] => mret out
  | (key, id) :: reqs =>
      e ← lookup_key db key now;
      match as_stream e with
      | None => xread_loop db reqs count now out
      | Some e =>
          touch_key true db key now e ;;
          let picked := xread_pick id count (e_stream e) in
          xread_loop db reqs count now
            (if bool_decide (length picked = 0%nat) then out else out ++ [(key, picked)])
      end
  end.

Definition xread (db : Z) (keys ids : list string) (count now : Z)
  : KM (Res bool (list (string * list StreamEntry))) :=
  if bool_decide (length keys ≠ length ids ∨ keys = []) then mret (fail false [] err_syntax)
  else out ← xread_loop db (zip keys ids) count now []; mret (ok true out).

(** Deliveries made before a missing group is met are kept.  No watch is bumped. *)
Fixpoint xreadGroup_loop (db : Z) (group consumer : string) (reqs : list (string * string))
    (count now : Z) (out : list (string * list StreamEntry))
  : KM (Res bool (list (string * list StreamEntry))) :=
  match reqs with
  | [] => mret (ok true out)
  | (key, id) :: reqs =>
      e ← lookup_key db key now;
      match as_stream e with
      | None => xreadGroup_loop db group consumer reqs count now out
      | Some e =>
          match read_group_step now group consumer id count (stream_of e) with
          | None => mret (fail false out err_nogroup)
          | Some (v, picked) =>
              on_shard key (putEntry db key (e |> set_stream_val v |> touchEntry now)) ;;
              xreadGroup_loop db group consumer reqs count now
                (if bool_decide (length picked = 0%nat) then out else out ++ [(key, picked)])
          end
      end
  end.

Definition xreadGroup (db : Z) (group consumer : string) (keys ids : list string)
    (count now : Z) : KM (Res bool (list (string * list StreamEntry))) :=
  if bool_decide (length keys ≠ length ids ∨ keys = []) then mret (fail false [] err_syntax)
  else xreadGroup_loop db group consumer (zip keys ids) count now [].
End ops.

(** ** Specifications *)

Definition sv_value (v : StreamVal) : Value :=
  VStream (sv_entries v) (sv_last_ms v) (sv_last_seq v) (sv_groups v).

(** A command on a stream: [missing] answers an absent key (and may create it), [wrong]
    another type, [f] acts on the state ([None]: unchanged). *)
Definition spec_stream {R} (missing : option StreamVal * R) (wrong : R)
    (f : StreamVal → option StreamVal * R) (o : option AVal) : option AVal * R :=
  match o with
  | None => ((λ v, mkAVal (sv_value v) 0) <$> missing.1, missing.2)
  | Some (mkAVal (VStream st ms seq gs) x) =>
      let '(v', r) := f (mkStream st ms seq gs) in
      (Some (mkAVal (sv_value (default (mkStream st ms seq gs) v')) x), r)
  | Some _ => (o, wrong)
  end.

Definition xadd_reply (now : Z) (id_in : string) (fields : list (string * string))
    (v : StreamVal) : option StreamVal * Res bool string :=
  match xadd_step now id_in fields v with
  | inl err => (None, fail false "" err)
  | inr (v', id) => (Some v', ok true id)
  end.

Definition spec_xadd (now : Z) (id_in : string) (fields : list (string * string))
  : option AVal → option AVal * Res bool string :=
  spec_stream (xadd_reply now id_in fields empty_stream) (fail false "" kWrongType)
    (xadd_reply now id_in fields).

Definition spec_xlen : option AVal → option AVal * Res Z bool :=
  spec_stream (None, ok 0 false) (fail (-1) false kWrongType)
    (λ v, (None, ok (Z.of_nat (length (sv_entries v))) true)).

Definition spec_xrange (start end_ : string) (count : Z) (rev : bool)
  : option AVal → option AVal * Res bool (bool * list StreamEntry) :=
  spec_stream (None, ok true (false, [])) (fail false (false, []) kWrongType)
    (λ v, (None, ok true (true, xrange_step start end_ count rev (sv_entries v)))).

Definition with_entries (v : StreamVal) (st : list StreamEntry) : StreamVal :=
  mkStream st (sv_last_ms v) (sv_last_seq v) (sv_groups v).

(** The oldest entries go. *)
Definition spec_xtrim (maxlen : Z) : option AVal → option AVal * Res Z unit :=
  spec_stream (None, ok 0 tt) (fail (-1) tt kWrongType)
    (λ v, let extra := (length (sv_entries v) - Z.to_nat maxlen)%nat in
          (Some (with_entries v (drop extra (sv_entries v))), ok (Z.of_nat extra) tt)).

Definition spec_xgroupDestroy (group : string) : option AVal → option AVal * Res bool unit :=
  spec_stream (None, fail false tt err_no_key) (fail false tt err_no_key)
    (λ v, match sv_groups v !! group with
          | None => (None, fail false tt err_no_such_group)
          | Some _ => (Some (with_groups v (delete group (sv_groups v))), ok true tt)
          end).

Section specs.
Context `{impl : !StdImpl}.

Definition spec_xack (group : string) (ids : list string)
  : option AVal → option AVal * Res Z unit :=
  spec_stream (None, fail (-1) tt err_no_key) (fail (-1) tt err_no_key)
    (λ v, match xack_step group ids v with
          | None => (None, fail (-1) tt err_nogroup)
          | Some (v', acked) => (Some v', ok acked tt)
          end).

Definition spec_xclaim (now : Z) (group consumer : string) (min_idle_ms : Z)
    (ids : list string) (force : bool)
  : option AVal → option AVal * Res bool (list StreamEntry) :=
  spec_stream (None, fail false [] err_no_key) (fail false [] err_no_key)
    (λ v, match xclaim_step now group consumer min_idle_ms ids force v with
          | None => (None, fail false [] err_nogroup)
          | Some (v', out) => (Some v', ok true out)
          end).
End specs.

(** A stream whose last entry goes is removed like an emptied container. *)
Definition spec_xdel (ids : list string) (o : option AVal) : option AVal * Res Z unit :=
  match o with
  | None => (None, ok 0 tt)
  | Some (mkAVal (VStream st ms seq gs) x) =>
      let '(st', removed) := xdel_step ids st in
      (if bool_decide (length st' = 0%nat) then None
       else Some (mkAVal (VStream st' ms seq gs) x), ok removed tt)
  | Some _ => (o, fail (-1) tt kWrongType)
  end.

#[export] Hint Unfold spec_stream spec_xadd xadd_reply spec_xlen spec_xrange spec_xtrim
  spec_xgroupDestroy spec_xack spec_xclaim spec_xdel stream_of sv_value : spec.

(** ** What the steps compute *)

(** The first [strtoull] always leaves its end pointer in the temporary, so that only
    ["*"] is ever accepted. *)
Lemma parseStreamIdToken_star s :
  parseStreamIdToken s = if bool_decide (s = "*") then Some (mkId 0 0 true) else None.
Proof.
  unfold parseStreamIdToken, strtoull_sub. case_bool_decide; [done|].
  destruct (find_dash s); [|done]. by destruct (strtoull _).
Qed.

(** The identifier generated for ["*"]: the clock, or the last one with the next
    sequence number when the clock has not moved past it. *)
Definition next_auto (now : Z) (v : StreamVal) : Z * Z :=
  if sv_last_ms v <? u64 now then (u64 now, 0) else (sv_last_ms v, u64 (sv_last_seq v + 1)).

Lemma xadd_step_auto now fields v :
  let '(ms, seq) := next_auto now v in
  xadd_step now "*" fields v =
  inr (mkStream (sv_entries v ++
                 [mkStreamEntry (formatStreamId ms seq) (list_to_map (reverse fields))])
         ms seq (sv_groups v), formatStreamId ms seq).
Proof.
  unfold next_auto, xadd_step, xadd_id. rewrite parseStreamIdToken_star.
  rewrite bool_decide_eq_true_2 by done. cbn [auto_id].
  rewrite insert_loop_spec, (right_id_L ∅ (∪)). by destruct (sv_last_ms v <? u64 now).
Qed.

Lemma pick_loop_spec skip count items out :
  (0 < count → Z.of_nat (length out) < count) →
  pick_loop skip count items out =
  out ++ (let l := filter (λ item, skip item = false) items in
          if 0 <? count then take (Z.to_nat (count - Z.of_nat (length out))) l else l).
Proof.
  revert out. induction items as [|x items IH]; intros out Ho; cbn [pick_loop]; cbv zeta.
  { rewrite filter_nil, take_nil. destruct (0 <? count); by rewrite app_nil_r. }
  rewrite filter_cons. destruct (skip x); cbn; [by apply IH|].
  destruct (Z.ltb_spec 0 count) as [Hc|Hc]; cbn [andb].
  - rewrite length_app; cbn [length].
    destruct (Z.to_nat (count - Z.of_nat (length out))) as [|n] eqn:Hn; [lia|]. cbn [take].
    destruct (Z.leb_spec count (Z.of_nat (length out + 1))) as [Hl|Hl].
    + replace n with 0%nat by lia. done.
    + rewrite IH by (rewrite ?length_app; simpl; lia). rewrite <-(assoc_L (++)), length_app.
      cbn. replace (count - Z.of_nat (length out + 1)) with (count - Z.of_nat (length out) - 1) by lia.
      by replace (Z.to_nat (count - Z.of_nat (length out) - 1)) with n by lia.
  - rewrite IH by lia. by rewrite <-(assoc_L (++)).
Qed.

Lemma xread_pick_spec id count entries :
  xread_pick id count entries =
  let l := filter (λ item, id = "0" ∨ str_lt id (se_id item) = true) entries in
  if 0 <? count then take (Z.to_nat count) l else l.
Proof.
  unfold xread_pick. rewrite pick_loop_spec by (simpl; lia). cbn [app length]. rewrite Z.sub_0_r.
  assert (filter (λ item, bool_decide (id ≠ "0") && negb (str_lt id (se_id item)) = false) entries
        = filter (λ item, id = "0" ∨ str_lt id (se_id item) = true) entries) as ->; [|done].
  apply list_filter_iff. intros item. case_bool_decide; destruct (str_lt id (se_id item));
    simpl; naive_solver.
Qed.

Lemma xtrim_step_spec maxlen entries :
  0 ≤ maxlen →
  let extra := (length entries - Z.to_nat maxlen)%nat in
  xtrim_step maxlen entries = (drop extra entries, Z.of_nat extra).
Proof.
  intros Hm. unfold xtrim_step. cbv zeta.
  destruct (Z.leb_spec (Z.of_nat (length entries)) maxlen).
  - by replace (length entries - Z.to_nat maxlen)%nat with 0%nat by lia.
  - f_equal; [f_equal|]; lia.
Qed.

Ltac stream_simpl :=
  unfold stream_of in *;
  cbn [e_stream e_stream_last_ms e_stream_last_seq e_stream_groups] in *.

Section refinement.
Context `{impl : !StdImpl}.

Lemma xlen_ok db key now : key_ok id true now db key (xlen db key now) spec_xlen.
Proof. key_solve. Qed.

Lemma xrange_ok db key start end_ count rev now :
  key_ok id true now db key (xrange db key start end_ count rev now)
    (spec_xrange start end_ count rev).
Proof. key_solve. Qed.

Lemma xdel_ok db key ids now :
  key_ok id true now db key (xdel db key ids now) (spec_xdel ids).
Proof. key_solve. Qed.

Lemma xtrim_ok db key maxlen now :
  0 ≤ maxlen →
  key_ok id true now db key (xtrim db key maxlen now) (spec_xtrim maxlen).
Proof.
  intros Hm. unfold xtrim. rewrite (proj2 (Z.ltb_ge maxlen 0)) by done. key_solve.
  all: rewrite xtrim_step_spec in * by done; simplify_eq.
  all: match goal with H : (?z =? 0) = _ |- _ => destruct (Z.eqb_spec z 0) as [E|E]; try done end.
  - assert (length e_stream - Z.to_nat maxlen = 0)%nat as Hz by lia.
    intros Hcoh; open_coherent Hcoh; split_and!; [|coherent_solve|done|lia].
    autounfold with spec; simpl. by rewrite Hz.
Qed.

Lemma xgroupDestroy_ok db key group now :
  key_ok id true now db key (xgroupDestroy db key group now) (spec_xgroupDestroy group).
Proof. unfold xgroupDestroy, put_stream, as_stream, xgroup_destroy_step. key_solve. Qed.

Lemma xack_ok db key group ids now :
  key_ok id true now db key (xack db key group ids now) (spec_xack group ids).
Proof. unfold xack, put_stream, as_stream. key_solve. all: stream_simpl; post_solve. Qed.

Lemma xclaim_ok db key group consumer min_idle_ms ids force now :
  key_ok id true now db key (xclaim db key group consumer min_idle_ms ids force now)
    (spec_xclaim now group consumer min_idle_ms ids force).
Proof. unfold xclaim, put_stream, as_stream. key_solve. all: stream_simpl; post_solve. Qed.

Lemma xadd_ok db key fields now :
  fields ≠ [] →
  key_ok (λ s, (evictIfNeededLocked now s).1) true now db key (xadd db key "*" fields now)
    (spec_xadd now "*" fields).
Proof.
  intros Hf. unfold xadd. rewrite bool_decide_eq_false_2 by done. apply key_ok_evict.
  unfold xadd_body. key_solve.
  all: change (stream_of (Entry0 |> set_type ObjStream)) with empty_stream in *.
  1,3: match goal with H : xadd_step _ _ _ ?v = inl _ |- _ =>
         pose proof (xadd_step_auto now fields v); destruct (next_auto now v); congruence end.
  all: stream_simpl; post_solve.
Qed.
End refinement.
