(* ===== verification/StreamFacts.v ===== *)
(** * Streams: identifiers, deliveries and acknowledgements

    Invariants of the stream's state under the steps of [StreamOps]: identifiers grow,
    the pending lists of a group are conserved by [XCLAIM] and shrink by exactly what
    [XACK] reports, and delivery records only exist for pending identifiers. *)

From stdpp Require Import options.
From S2P Require Import Prelude.
From S2P Require Import CStd.
From S2P Require Import Store.
From S2P Require Import Evict.
From S2P Require Import StoreFacts.
From S2P Require Import SetOps.
From S2P Require Import StreamOps.

#[local] Set Default Proof Using "Type*".

(** ** Identifiers *)

Lemma formatStreamId_inj a b c d :
  0 ≤ a → 0 ≤ b → 0 ≤ c → 0 ≤ d → formatStreamId a b = formatStreamId c d → a = c ∧ b = d.
Proof.
  intros Ha Hb Hc Hd. unfold formatStreamId. intros E.
  pose proof (scan_to_string a ("-" +:+ to_string b) Ha eq_refl) as H1.
  rewrite E, (scan_to_string c ("-" +:+ to_string d) Hc eq_refl) in H1.
  injection H1 as -> E'. split; [done|].
  pose proof (scan_to_string b "" Hb I) as H2.
  pose proof (scan_to_string d "" Hd I) as H3.
  assert (to_string b = to_string d) as E2 by (symmetry; exact E').
  rewrite E2, H3 in H2. by injection H2.
Qed.

Definition id_lt (a b : Z * Z) : Prop := a.1 < b.1 ∨ a.1 = b.1 ∧ a.2 < b.2.

(** The entries carry strictly increasing identifiers, the last of which is not above
    the stream's last identifier. *)
Definition ids_ok (v : StreamVal) (ids : list (Z * Z)) : Prop :=
  se_id <$> sv_entries v = (λ p, formatStreamId p.1 p.2) <$> ids ∧
  StronglySorted id_lt ids ∧
  Forall (λ p, 0 ≤ p.1 ∧ 0 ≤ p.2 ∧ (id_lt p (sv_last_ms v, sv_last_seq v) ∨
                                    p = (sv_last_ms v, sv_last_seq v))) ids.

Definition stream_ids_ok (v : StreamVal) : Prop := ∃ ids, ids_ok v ids.

(** [XADD *] keeps the order and answers an identifier above all others, as long as
    the sequence number does not wrap around. *)
Lemma xadd_ids now fields v ids :
  ids_ok v ids → 0 ≤ sv_last_ms v → 0 ≤ sv_last_seq v < UINT64_MAX →
  let '(ms, seq) := next_auto now v in
  id_lt (sv_last_ms v, sv_last_seq v) (ms, seq) ∧
  ∃ v', xadd_step now "*" fields v = inr (v', formatStreamId ms seq) ∧
        ids_ok v' (ids ++ [(ms, seq)]).
Proof.
  intros (Hids & Hs & Hb) Hms Hseq. pose proof (xadd_step_auto now fields v) as Hx.
  assert (id_lt (sv_last_ms v, sv_last_seq v) (next_auto now v) ∧
          0 ≤ (next_auto now v).1 ∧ 0 ≤ (next_auto now v).2) as Hlt.
  { unfold next_auto, id_lt. pose proof (u64_range now) as Hu. unfold in_u64 in Hu.
    destruct (Z.ltb_spec (sv_last_ms v) (u64 now)); simpl; [lia|].
    rewrite u64_id by (unfold in_u64; lia). lia. }
  destruct (next_auto now v) as [ms seq]. destruct Hlt as (Hlt & Hms' & Hseq').
  split; [done|]. eexists. split; [exact Hx|]. unfold ids_ok; simpl. split_and!.
  - by rewrite !fmap_app, Hids.
  - apply StronglySorted_app_2; [|done|by repeat constructor].
    intros p q Hp ->%list_elem_of_singleton. rewrite Forall_forall in Hb.
    destruct (Hb p Hp) as (_ & _ & [?| ->]); [|done]. unfold id_lt in *. simpl in *. lia.
  - apply Forall_app. split; [|apply Forall_cons; split; [simpl; auto|constructor]].
    eapply Forall_impl; [exact Hb|]. intros p (? & ? & [?| ->]); simpl.
    + split_and!; [done..|]. left. unfold id_lt in *. simpl in *. lia.
    + split_and!; [done..|]. by left.
Qed.

(** Identifiers of a stream never repeat. *)
Lemma stream_ids_distinct v : stream_ids_ok v → NoDup (se_id <$> sv_entries v).
Proof.
  intros (ids & -> & Hs & Hb). induction Hs as [|p ids Hs IH Hp]; [constructor|].
  apply Forall_cons in Hb as [(Hp1 & Hp2 & _) Hb]. rewrite fmap_cons. constructor; [|by apply IH].
  intros (q & Hq & Hin)%list_elem_of_fmap. rewrite Forall_forall in Hp, Hb.
  destruct (Hb q Hin) as (Hq1 & Hq2 & _). specialize (Hp q Hin).
  apply formatStreamId_inj in Hq as [??]; [|done..]. unfold id_lt in Hp. lia.
Qed.

(** ** Deleting and trimming *)

Lemma erase_entry_spec id entries :
  NoDup (se_id <$> entries) →
  erase_entry id entries = (filter (λ item, se_id item ≠ id) entries,
                            bool_decide (id ∈ se_id <$> entries)).
Proof.
  induction entries as [|x entries IH]; [done|]. rewrite fmap_cons.
  intros [Hx Hnd]%NoDup_cons. cbn [erase_entry]. rewrite filter_cons.
  destruct (decide (se_id x = id)) as [<-|Hne].
  - rewrite bool_decide_eq_true_2, decide_False by tauto. rewrite filter_all.
    + by rewrite bool_decide_eq_true_2 by left.
    + intros y Hy Heq. apply Hx. rewrite <-Heq. by apply list_elem_of_fmap_2.
  - rewrite bool_decide_eq_false_2, decide_True, IH by done. f_equal.
    apply bool_decide_ext. rewrite elem_of_cons. naive_solver.
Qed.

Lemma NoDup_fmap_filter {A B} (f : A → B) (P : A → Prop) `{∀ x, Decision (P x)} l :
  NoDup (f <$> l) → NoDup (f <$> filter P l).
Proof.
  induction l as [|x l IH]; [done|]. rewrite fmap_cons. intros [Hx Hl]%NoDup_cons.
  rewrite filter_cons. case_decide; [|auto]. rewrite fmap_cons. constructor; [|auto].
  intros (y & E & [_ Hy]%list_elem_of_filter)%list_elem_of_fmap. apply Hx. rewrite E.
  by apply list_elem_of_fmap_2.
Qed.

(** [XDEL] removes the entries named, and counts those that were there. *)
Lemma xdel_step_spec ids entries :
  NoDup (se_id <$> entries) →
  let kept := filter (λ item, se_id item ∉ ids) entries in
  xdel_step ids entries = (kept, Z.of_nat (length entries - length kept)).
Proof.
  intros Hnd. simpl. induction ids as [|id ids IH] using rev_ind.
  { unfold xdel_step; simpl. rewrite filter_all by set_solver. f_equal. lia. }
  unfold xdel_step in *. rewrite foldl_app, IH. cbn [foldl].
  set (kept := filter (λ item, se_id item ∉ ids) entries).
  assert (NoDup (se_id <$> kept)) as Hk
    by (by apply NoDup_fmap_filter).
  rewrite erase_entry_spec by done.
  assert (filter (λ item, se_id item ∉ ids ++ [id]) entries =
          filter (λ item, se_id item ≠ id) kept) as ->.
  { subst kept. rewrite list_filter_filter. apply list_filter_iff. intros x.
    rewrite not_elem_of_app, list_elem_of_singleton. naive_solver. }
  f_equal.
  pose proof (length_filter (λ item, se_id item ∉ ids) entries) as Hle. fold kept in Hle.
  case_bool_decide as Hin.
  - assert (length (filter (λ item, se_id item ≠ id) kept) + 1 = length kept)%nat as Hlen; [|lia].
    clear -Hk Hin. revert Hk Hin. generalize kept. intros l.
    induction l as [|x l IH]; [set_solver|]. rewrite fmap_cons.
    intros [Hx Hnd]%NoDup_cons Hin. rewrite filter_cons.
    destruct (decide (se_id x = id)) as [<-|Hne].
    + rewrite decide_False by tauto. rewrite filter_all; [simpl; lia|].
      intros y Hy Heq. apply Hx. rewrite <-Heq. by apply list_elem_of_fmap_2.
    + rewrite decide_True by done. simpl. rewrite <-IH; [lia|done|].
      apply elem_of_cons in Hin as [->|?]; [done|done].
  - rewrite filter_all; [done|]. intros x Hx Heq. apply Hin. rewrite <-Heq. by apply list_elem_of_fmap_2.
Qed.

(** ** Pending lists *)

(** All the identifiers pending in a group, over its consumers. *)
Definition pending_ids (cs : gmap string StreamConsumerState) : list string :=
  mjoin ((λ p, cs_pending p.2) <$> map_to_list cs).

Lemma pending_perm l1 l2 :
  l1 ≡ₚ l2 →
  mjoin ((λ p : string * StreamConsumerState, cs_pending p.2) <$> l1) ≡ₚ
  mjoin ((λ p, cs_pending p.2) <$> l2).
Proof. intros ->. done. Qed.

Lemma pending_insert cs k c :
  pending_ids (<[k := c]> cs) ≡ₚ cs_pending c ++ pending_ids (delete k cs).
Proof.
  unfold pending_ids. rewrite <-insert_delete_eq.
  rewrite (pending_perm _ _ (map_to_list_insert _ _ _ (lookup_delete_eq cs k))). done.
Qed.

Lemma pending_lookup cs k c :
  cs !! k = Some c → pending_ids cs ≡ₚ cs_pending c ++ pending_ids (delete k cs).
Proof. intros Hk. by rewrite <-pending_insert, insert_id. Qed.

Lemma pending_target cs k id c' :
  cs_pending c' = cs_pending (default no_consumer (cs !! k)) ++ id →
  pending_ids (<[k := c']> cs) ≡ₚ id ++ pending_ids cs.
Proof.
  intros Hc. rewrite pending_insert, Hc. destruct (cs !! k) as [c|] eqn:E; simpl.
  - rewrite (pending_lookup cs k c E). by rewrite (comm (++) (cs_pending c) id), <-(assoc (++)).
  - by rewrite delete_id.
Qed.

Lemma erase_pending_Some id l l' : erase_pending id l = Some l' → l ≡ₚ id :: l'.
Proof.
  revert l'. induction l as [|x l IH]; intros l'; simpl; [done|].
  case_bool_decide as Hx; [intros [= <-]; by rewrite Hx|].
  destruct (erase_pending id l) as [r|]; simpl; [|done]. intros [= <-].
  rewrite (IH r eq_refl). apply Permutation_swap.
Qed.

Lemma erase_pending_None id l : erase_pending id l = None → id ∉ l.
Proof.
  induction l as [|x l IH]; simpl; [by intros _ ?%elem_of_nil|].
  case_bool_decide; [done|]. destruct (erase_pending id l); simpl; [done|].
  intros _. rewrite not_elem_of_cons. auto.
Qed.

(** Delivery records exist only for pending identifiers. *)
Definition consumer_ok (c : StreamConsumerState) : Prop :=
  dom (cs_pending_meta c) ⊆ (list_to_set (cs_pending c) : gset string).
Definition group_ok (gs : StreamGroupState) : Prop := map_Forall (λ _, consumer_ok) (gs_consumers gs).
Definition groups_ok (v : StreamVal) : Prop := map_Forall (λ _, group_ok) (sv_groups v).

Lemma no_consumer_ok : consumer_ok no_consumer.
Proof. unfold consumer_ok; simpl. set_solver. Qed.

Lemma deliver_ok now id c : consumer_ok c → consumer_ok (deliver now id c).
Proof.
  unfold consumer_ok; simpl. rewrite dom_insert_L, list_to_set_app_L. simpl. set_solver.
Qed.

Lemma erase_ok id c pending :
  consumer_ok c → erase_pending id (cs_pending c) = Some pending →
  consumer_ok (mkConsumer (cs_last_id c) pending (delete id (cs_pending_meta c))).
Proof.
  unfold consumer_ok; simpl. intros Hc Hp%erase_pending_Some.
  rewrite (list_to_set_perm_L _ _ Hp) in Hc. rewrite dom_delete_L. simpl in Hc. set_solver.
Qed.

(** *** Acknowledgement *)

Lemma ack_consumer_spec ids c :
  ∃ removed, cs_pending c ≡ₚ removed ++ cs_pending (ack_consumer ids c).1 ∧
    (ack_consumer ids c).2 = Z.of_nat (length removed) ∧ Forall (.∈ ids) removed ∧
    (consumer_ok c → consumer_ok (ack_consumer ids c).1).
Proof.
  induction ids as [|id ids IH] using rev_ind.
  { exists []. unfold ack_consumer; simpl. done. }
  destruct IH as (removed & Hp & Hn & Hin & Hok). unfold ack_consumer in *.
  rewrite foldl_app. destruct (foldl _ (c, 0) ids) as [c' n]. simpl in *.
  assert (Forall (.∈ ids ++ [id]) removed) as Hin'.
  { eapply Forall_impl; [exact Hin|]. intros x Hx. apply elem_of_app. by left. }
  unfold ack_one. destruct (erase_pending id (cs_pending c')) as [pending|] eqn:E; simpl.
  - exists (removed ++ [id]). rewrite Hp, (erase_pending_Some _ _ _ E), length_app. simpl.
    split_and!; [by rewrite <-(assoc_L (++))|lia| |].
    + apply Forall_app. split; [done|]. apply Forall_singleton, elem_of_app. right. by left.
    + intros. by apply erase_ok; [auto|].
  - by exists removed.
Qed.

Section unordered.
Context `{impl : !StdImpl}.

Lemma ack_fold ids l m acked :
  NoDup l.*1 → (∀ k c, (k, c) ∈ l → m !! k = Some c) →
  let r := foldl (λ '(m, acked) '(name, c),
             let '(c, n) := ack_consumer ids c in (<[name := c]> m, acked + n))
             (m : gmap string StreamConsumerState, acked) l in
  ∃ removed, pending_ids m ≡ₚ removed ++ pending_ids r.1 ∧
    r.2 = acked + Z.of_nat (length removed) ∧ Forall (.∈ ids) removed ∧
    (map_Forall (λ _, consumer_ok) m → map_Forall (λ _, consumer_ok) r.1).
Proof.
  revert m acked. induction l as [|[k c] l IH]; intros m acked Hnd Hl; simpl.
  { exists []. simpl. split_and!; [done|lia|constructor|done]. }
  destruct (ack_consumer_spec ids c) as (r1 & Hp & Hn & Hin & Hok).
  destruct (ack_consumer ids c) as [c' n]. simpl in *. subst n.
  apply NoDup_cons in Hnd as [Hk Hnd].
  assert (m !! k = Some c) as Hmk by (apply Hl; left).
  destruct (IH (<[k := c']> m) (acked + Z.of_nat (length r1)) Hnd) as (r2 & Hp2 & Hn2 & Hin2 & Hok2).
  { intros k' d Hd. rewrite lookup_insert_ne; [apply Hl; by right|].
    intros ->. apply Hk. by apply (list_elem_of_fmap_2 fst _ (k', d)). }
  exists (r1 ++ r2). split_and!.
  - rewrite (pending_lookup m k c Hmk), Hp, <-!(assoc_L (++)). apply Permutation_app_head.
    rewrite <-Hp2. symmetry. apply pending_insert.
  - rewrite Hn2, length_app. lia.
  - by apply Forall_app.
  - intros Hm. apply Hok2. apply map_Forall_insert_2; [|done]. apply Hok. by apply (Hm k).
Qed.

(** [XACK] takes as many deliveries out of the group as it reports, all of them named. *)
Lemma xack_step_spec group ids v v' acked :
  xack_step group ids v = Some (v', acked) →
  ∃ gs gs' removed,
    sv_groups v !! group = Some gs ∧ v' = with_groups v (<[group := gs']> (sv_groups v)) ∧
    gs_last_id gs' = gs_last_id gs ∧
    pending_ids (gs_consumers gs) ≡ₚ removed ++ pending_ids (gs_consumers gs') ∧
    acked = Z.of_nat (length removed) ∧ Forall (.∈ ids) removed ∧
    (group_ok gs → group_ok gs').
Proof.
  unfold xack_step. destruct (sv_groups v !! group) as [gs|]; simpl; [|done].
  destruct (ack_fold ids (hash_iter (gs_consumers gs)) (gs_consumers gs) 0)
    as (removed & Hp & Hn & Hin & Hok).
  { rewrite hash_iter_perm. apply NoDup_fst_map_to_list. }
  { intros k c. by rewrite hash_iter_elem. }
  destruct (foldl _ _ _) as [cs n]. simpl in *. intros [= <- <-].
  exists gs, (mkGroup (gs_last_id gs) cs), removed. by split_and!.
Qed.

(** *** Claims *)

Lemma claim_one_spec now consumer min_idle_ms force id cs cs' :
  claim_one now consumer min_idle_ms force id cs = Some cs' →
  pending_ids cs' ≡ₚ pending_ids cs ∧ is_Some (cs' !! consumer) ∧
  (∃ c, cs' !! consumer = Some c ∧ id ∈ cs_pending c) ∧
  (map_Forall (λ _, consumer_ok) cs → map_Forall (λ _, consumer_ok) cs').
Proof.
  unfold claim_one. destruct (list_find _ _) as [[i [name c]]|] eqn:E; simpl; [|done].
  apply list_find_Some in E as (Hi & Hcl & _). simpl in Hcl.
  apply list_elem_of_lookup_2, hash_iter_elem in Hi.
  unfold claimable in Hcl. apply andb_true_iff in Hcl as [Hin%bool_decide_eq_true_1 _].
  destruct (erase_pending id (cs_pending c)) as [pending|] eqn:Ep; simpl;
    [|by apply erase_pending_None in Ep].
  set (c1 := mkConsumer (cs_last_id c) pending (delete id (cs_pending_meta c))).
  set (cs1 := <[name := c1]> cs). intros [= <-]. split_and!.
  - rewrite (pending_target cs1 consumer [id]) by done. subst cs1.
    rewrite pending_insert, (pending_lookup cs name c Hi), (erase_pending_Some _ _ _ Ep). done.
  - rewrite lookup_insert_eq. eauto.
  - eexists. rewrite lookup_insert_eq. split; [done|]. simpl. apply elem_of_app. right. by left.
  - intros Hm. assert (map_Forall (λ _, consumer_ok) cs1) as Hm1.
    { apply map_Forall_insert_2; [|done]. apply erase_ok; [by apply (Hm name)|done]. }
    apply map_Forall_insert_2; [|done]. unfold consumer_ok; simpl.
    rewrite dom_insert_L, list_to_set_app_L.
    assert (consumer_ok (default no_consumer (cs1 !! consumer))) as Ht.
    { destruct (cs1 !! consumer) as [t|] eqn:Et; simpl; [by apply (Hm1 consumer)|].
      apply no_consumer_ok. }
    unfold consumer_ok in Ht. simpl. set_solver.
Qed.

Lemma claim_loop_spec now consumer min_idle_ms force stream ids cs :
  let r := claim_loop now consumer min_idle_ms force stream ids cs in
  pending_ids r.1 ≡ₚ pending_ids cs ∧ (∀ item, item ∈ r.2 → item ∈ stream ∧ se_id item ∈ ids) ∧
  (map_Forall (λ _, consumer_ok) cs → map_Forall (λ _, consumer_ok) r.1).
Proof.
  induction ids as [|id ids IH] using rev_ind.
  { unfold claim_loop; simpl. split_and!; [done|by intros ? ?%elem_of_nil|done]. }
  unfold claim_loop in *. rewrite foldl_app. destruct (foldl _ (cs, []) ids) as [cs1 out].
  simpl in *. destruct IH as (Hp & Hout & Hok).
  assert (∀ item, item ∈ out → item ∈ stream ∧ se_id item ∈ ids ++ [id]) as Hout'.
  { intros item [??]%Hout. split; [done|]. apply elem_of_app. by left. }
  destruct (claim_one now consumer min_idle_ms force id cs1) as [cs2|] eqn:E; simpl; [|done].
  apply claim_one_spec in E as (Hp2 & _ & _ & Hok2). split_and!.
  - by rewrite Hp2.
  - intros item [?|Hi]%elem_of_app; [by apply Hout'|].
    unfold findStreamEntry in Hi. destruct (list_find _ stream) as [[i x]|] eqn:Ef; [|by apply elem_of_nil in Hi].
    simpl in Hi. apply list_elem_of_singleton in Hi as ->.
    apply list_find_Some in Ef as (Hx & <- & _). split; [by eapply list_elem_of_lookup_2|].
    apply elem_of_app. right. by left.
  - auto.
Qed.

(** [XCLAIM] moves deliveries between consumers: none is lost or duplicated. *)
Lemma xclaim_step_spec now group consumer min_idle_ms ids force v v' out :
  xclaim_step now group consumer min_idle_ms ids force v = Some (v', out) →
  ∃ gs gs',
    sv_groups v !! group = Some gs ∧ v' = with_groups v (<[group := gs']> (sv_groups v)) ∧
    pending_ids (gs_consumers gs') ≡ₚ pending_ids (gs_consumers gs) ∧
    (∀ item, item ∈ out → item ∈ sv_entries v ∧ se_id item ∈ ids) ∧
    (group_ok gs → group_ok gs').
Proof.
  unfold xclaim_step. destruct (sv_groups v !! group) as [gs|]; simpl; [|done].
  set (cs0 := <[consumer := _]> (gs_consumers gs)).
  destruct (claim_loop_spec now consumer min_idle_ms force (sv_entries v) ids cs0)
    as (Hp & Hout & Hok).
  destruct (claim_loop _ _ _ _ _ _ cs0) as [cs1 o]. simpl in *. intros [= <- <-].
  exists gs, (mkGroup (gs_last_id gs) cs1). split_and!; try done.
  - simpl. rewrite Hp. apply (pending_target _ consumer []). by rewrite app_nil_r.
  - intros Hg. apply Hok. apply map_Forall_insert_2; [|done].
    destruct (gs_consumers gs !! consumer) as [c|] eqn:E; simpl; [by apply (Hg consumer)|].
    apply no_consumer_ok.
Qed.
End unordered.

(** *** Group reads *)

Lemma read_group_loop_spec now start_id count items cs picked :
  (0 < count → Z.of_nat (length picked) < count) →
  let fresh := filter (λ item, str_lt start_id (se_id item) = true) items in
  let taken := if 0 <? count then take (Z.to_nat (count - Z.of_nat (length picked))) fresh
               else fresh in
  read_group_loop now start_id count items cs picked =
  (foldl (λ cs item, deliver now (se_id item) cs) cs taken, picked ++ taken).
Proof.
  revert cs picked. induction items as [|x items IH]; intros cs picked Hc; cbn [read_group_loop]; cbv zeta.
  { rewrite filter_nil, take_nil. destruct (0 <? count); by rewrite app_nil_r. }
  rewrite filter_cons. destruct (str_lt start_id (se_id x)) eqn:E; cbn [negb];
    [|by rewrite decide_False by done; apply IH].
  rewrite decide_True by done. rewrite length_app; cbn [length].
  destruct (Z.ltb_spec 0 count) as [Hp|Hp]; cbn [andb].
  - destruct (Z.to_nat (count - Z.of_nat (length picked))) as [|n] eqn:Hn; [lia|]. cbn [take].
    destruct (Z.leb_spec count (Z.of_nat (length picked + 1))) as [Hl|Hl].
    + by replace n with 0%nat by lia.
    + rewrite IH by (rewrite length_app; simpl; lia). rewrite length_app. cbn.
      replace (Z.to_nat (count - Z.of_nat (length picked + 1))) with n by lia.
      by rewrite <-(assoc_L (++)).
  - rewrite IH by lia. by rewrite <-(assoc_L (++)).
Qed.

Lemma deliver_all_pending now items cs :
  cs_pending (foldl (λ cs item, deliver now (se_id item) cs) cs items) =
  cs_pending cs ++ (se_id <$> items).
Proof.
  revert cs. induction items as [|x items IH]; intros cs; simpl; [by rewrite app_nil_r|].
  rewrite IH. simpl. by rewrite <-(assoc_L (++)).
Qed.

Lemma deliver_all_ok now items cs :
  consumer_ok cs → consumer_ok (foldl (λ cs item, deliver now (se_id item) cs) cs items).
Proof.
  revert cs. induction items as [|x items IH]; intros cs Hc; simpl; [done|].
  by apply IH, deliver_ok.
Qed.

(** [XREADGROUP] adds to the reader's pending list exactly the entries it returns. *)
Lemma read_group_step_spec now group consumer id count v v' picked :
  read_group_step now group consumer id count v = Some (v', picked) →
  ∃ gs gs',
    sv_groups v !! group = Some gs ∧ v' = with_groups v (<[group := gs']> (sv_groups v)) ∧
    pending_ids (gs_consumers gs') ≡ₚ (se_id <$> picked) ++ pending_ids (gs_consumers gs) ∧
    (∀ item, item ∈ picked → item ∈ sv_entries v) ∧
    (0 < count → Z.of_nat (length picked) ≤ count) ∧ (group_ok gs → group_ok gs').
Proof.
  unfold read_group_step. destruct (sv_groups v !! group) as [gs|]; simpl; [|done].
  set (start_id := if bool_decide (id = ">") then _ else _).
  rewrite read_group_loop_spec by (simpl; lia). cbn [length app]. rewrite Z.sub_0_r.
  set (taken := if 0 <? count then _ else _). intros [= <- <-].
  exists gs. eexists. split; [done|]. split; [done|]. simpl. split_and!.
  - apply pending_target. by rewrite deliver_all_pending.
  - intros item Hi.
    assert (item ∈ filter (λ item, str_lt start_id (se_id item) = true) (sv_entries v)) as Hf.
    { subst taken. destruct (0 <? count); [|done].
      apply elem_of_take in Hi as (i & Hi & _). by eapply list_elem_of_lookup_2. }
    by apply list_elem_of_filter in Hf as [_ ?].
  - intros Hc. subst taken. rewrite (proj2 (Z.ltb_lt 0 count)) by done.
    rewrite length_take. lia.
  - intros Hg. apply map_Forall_insert_2; [|done]. apply deliver_all_ok.
    destruct (gs_consumers gs !! consumer) as [c|] eqn:E; simpl; [by apply (Hg consumer)|].
    apply no_consumer_ok.
Qed.
