(* ===== verification/KeySpace.v ===== *)
(** * The keyspace a client observes

    What the one-key commands do to the whole store: the well-formedness invariant
    ([wf]), the abstract keyspace ([view]), the frame, and what a WATCHing client is
    told.  [key_refines] and [key_watch] turn a [key_ok] lemma into these. *)

From stdpp Require Import options.
From stdpp Require Import vector finite.
From S2P Require Import Prelude.
From S2P Require Import CStd.
From S2P Require Import Store.
From S2P Require Import Evict.
From S2P Require Import StoreFacts.

#[local] Set Default Proof Using "Type*".

(** A value at time [t]: gone once its expiry time is reached. *)
Definition av_live (t : Z) (o : option AVal) : option AVal :=
  match o with
  | Some a => if (0 <? av_expire a) && (av_expire a <=? t) then None else o
  | None => None
  end.

Lemma abs_live_of o t : abs_entry <$> live_of o t = av_live t (abs_entry <$> o).
Proof. destruct o as [e|]; simpl; [|done]. unfold isExpired. by destruct (_ && _). Qed.

Lemma av_live_later now t o : now ≤ t → av_live t (av_live now o) = av_live t o.
Proof.
  intros Ht. destruct o as [a|]; simpl; [|done].
  destruct (Z.ltb_spec 0 (av_expire a)), (Z.leb_spec (av_expire a) now); simpl; try done;
    destruct (Z.ltb_spec 0 (av_expire a)), (Z.leb_spec (av_expire a) t); simpl; done || lia.
Qed.

Section keyspace.
Context `{impl : !StdImpl}.

(** Every entry is in the shard its key hashes to and is coherent. *)
Definition wf (s : KvStore) : Prop :=
  ∀ i db key e, db_map (m_shards s !!! i) db !! key = Some e → shardIdx key = i ∧ coherent e.

Lemma wf_coherent s db key : wf s → coherent_opt (raw s db key).
Proof.
  intros Hs. unfold raw. destruct (db_map _ db !! key) as [e|] eqn:E; simpl; [|done].
  by eapply Hs in E as [_ ?].
Qed.

Lemma coherent_live o t : coherent_opt o → coherent_opt (live_of o t).
Proof. destruct o as [e|]; simpl; [|done]. by destruct (isExpired e t). Qed.

#[export] Instance wf_proper : Proper ((≡) ==> iff) wf.
Proof.
  assert (∀ s t, s ≡ t → wf s → wf t) as H.
  { intros s t [Hst _] Hs i db key e. destruct (Hst i) as [Hm _]. rewrite <-Hm. apply Hs. }
  intros s t Hst. split; apply H; [done|by symmetry].
Qed.

Lemma wf_write_key db key o n s : wf s → coherent_opt o → wf (write_key db key o n s).
Proof.
  intros Hs Ho i db' key' e. unfold write_key, set_shard; simpl.
  destruct (decide (shardIdx key = i)) as [<-|]; [|rewrite vlookup_insert_ne by done; apply Hs].
  rewrite vlookup_insert. destruct (decide ((db', key') = (db, key))) as [[= -> ->]|Hne].
  - rewrite slot_write_slot_raw. intros ->. by split.
  - rewrite raw_write_slot_ne by done. apply Hs.
Qed.

Lemma wf_init : wf KvStore0.
Proof.
  intros i db key e.
  assert (m_shards KvStore0 !!! i = Shard0) as -> by apply (vlookup_replicate kShardCount Shard0 i).
  unfold db_map, Shard0. simpl. rewrite lookup_empty. simpl. by rewrite lookup_empty.
Qed.

(** *** Views *)

Lemma view_raw s t db key : view s t db key = av_live t (abs_entry <$> raw s db key).
Proof. apply abs_live_of. Qed.

(** Expired values only disappear: the view at a later time is read off the current one. *)
Lemma view_later s now t db key :
  now ≤ t → view s t db key = av_live t (view s now db key).
Proof. intros. by rewrite !view_raw, av_live_later. Qed.

Lemma view_write_key db key o n s t :
  view (write_key db key o n s) t db key = av_live t (abs_entry <$> o).
Proof. by rewrite view_raw, raw_write_key. Qed.

Lemma view_write_key_ne db key o n s t db' key' :
  (db', key') ≠ (db, key) → view (write_key db key o n s) t db' key' = view s t db' key'.
Proof. intros. by rewrite !view_raw, raw_write_key_ne. Qed.

(** A command proved with [key_ok]: the store stays well-formed, the reply and the
    key's new value are those of the specification applied to the value the client
    saw, and no other key changes. *)
Lemma key_refines {R} pre w now db key (op : KM R) spec s :
  key_ok pre w now db key op spec → wf (pre s) →
  let s' := (op s).1 in
  let r := spec (view (pre s) now db key) in
  wf s' ∧ (op s).2 = r.2 ∧
  (∀ t, view s' t db key = av_live t r.1) ∧
  (∀ t db' key', (db', key') ≠ (db, key) → view s' t db' key' = view (pre s) t db' key').
Proof.
  intros Hop Hs. destruct (Hop s) as (o' & n & Heq & Hpost). cbv zeta.
  destruct Hpost as (Hspec & Hco & _ & _); [by apply coherent_live, wf_coherent|].
  unfold view at 1 3. rewrite <-Hspec. simpl. split_and!.
  - rewrite Heq. by apply wf_write_key.
  - done.
  - intros t. rewrite Heq. apply view_write_key.
  - intros t db' key' Hne. rewrite Heq. by apply view_write_key_ne.
Qed.

(** *** Watching *)

Lemma shard_version_ne db key o n sh db' key' :
  (db', key') ≠ (db, key) →
  shard_version db' key' (write_slot db key o n sh) = shard_version db' key' sh.
Proof.
  intros Hne. unfold write_slot. induction n as [|n IH]; [done|]. simpl. rewrite <-IH.
  set (sh' := Nat.iter n _ _). unfold shard_version, bump_watch.
  destruct (m_hasWatches sh'); [|done]. simpl.
  destruct (decide (db = db')) as [->|]; [|by rewrite lookup_insert_ne].
  rewrite lookup_insert_eq. simpl. by rewrite lookup_insert_ne by congruence.
Qed.

Lemma watch_version_shard s db key : watch_version s db key = shard_version db key (getShard s key).
Proof. done. Qed.

Lemma token_differs db key sh sh' :
  default 0 (m_db_watch_epoch sh !! db) = default 0 (m_db_watch_epoch sh' !! db) →
  shard_version db key sh ≠ shard_version db key sh' →
  shard_watchToken db key sh ≠ shard_watchToken db key sh'.
Proof.
  intros He Hv Ht. apply Hv. unfold shard_watchToken in Ht. rewrite He in Ht.
  fold (shard_version db key sh) (shard_version db key sh') in Ht.
  apply (f_equal (Z.lxor (u64 (Z.shiftl (default 0 (m_db_watch_epoch sh' !! db)) 32)))) in Ht.
  by rewrite <-!Z.lxor_assoc, !Z.lxor_nilpotent, !Z.lxor_0_l in Ht.
Qed.

Lemma bump_changes v : in_u64 v → u64 (v + 1) ≠ v.
Proof.
  intros Hv. unfold in_u64, UINT64_MAX, u64 in *.
  destruct (decide (v = 2 ^ 64 - 1)) as [->|]; [done|]. rewrite Z.mod_small; lia.
Qed.

(** Once a client watches a key, every change of its value by a command of the
    watching kind ([key_ok] with [true]) changes the token the client compares. *)
Lemma key_watch {R} pre now db key (op : KM R) spec s :
  key_ok pre true now db key op spec → wf (pre s) →
  m_hasWatches (getShard (pre s) key) = true → in_u64 (watch_version (pre s) db key) →
  let o := view (pre s) now db key in
  av_value <$> (spec o).1 ≠ av_value <$> o →
  shard_watchToken db key (getShard (op s).1 key) ≠
  shard_watchToken db key (getShard (pre s) key).
Proof.
  intros Hop Hs Hw Hv o Hchange. destruct (Hop s) as (o' & n & [Heq _] & Hpost).
  destruct Hpost as (Hspec & _ & Hbump & Hn); [by apply coherent_live, wf_coherent|].
  assert (n = 1%nat) as ->.
  { destruct n as [|[|n]]; [|done|lia]. destruct Hchange.
    subst o. unfold view. rewrite <-Hspec. simpl. rewrite <-!option_fmap_compose.
    change (av_value ∘ abs_entry) with entry_value. by apply Hbump. }
  specialize (Heq (shardIdx key)). fold (getShard (op s).1 key) in Heq.
  unfold write_key, set_shard in Heq. simpl in Heq. rewrite vlookup_insert in Heq.
  destruct Heq as (_ & Hver & Hep & _). apply token_differs.
  - by rewrite Hep, epoch_write_slot.
  - unfold shard_version at 1. rewrite Hver. fold (shard_version db key (write_slot db key o' 1 (getShard (pre s) key))).
    rewrite shard_version_write_slot by done. by apply bump_changes.
Qed.

(** No command announces a change of a key it does not touch. *)
Lemma key_watch_frame {R} pre w now db key (op : KM R) spec s db' key' :
  key_ok pre w now db key op spec → (db', key') ≠ (db, key) → wf (pre s) →
  watch_version (op s).1 db' key' = watch_version (pre s) db' key'.
Proof.
  intros Hop Hne Hs. destruct (Hop s) as (o' & n & [Heq _] & _).
  specialize (Heq (shardIdx key')). unfold watch_version.
  fold (getShard (op s).1 key') in Heq. destruct Heq as (_ & Hver & _). rewrite Hver.
  unfold write_key, set_shard. simpl.
  destruct (decide (shardIdx key = shardIdx key')) as [E|E].
  - rewrite E, vlookup_insert. unfold getShard. rewrite E.
    by apply (shard_version_ne db key o' n _ db' key').
  - by rewrite vlookup_insert_ne.
Qed.
End keyspace.
