(* ===== verification/EvictFacts.v ===== *)
(** * Eviction: it terminates, removes only what it may, and reaches its goal

    [evict_loop_runs] shows that one iteration more than there are live entries is
    enough fuel; [evict_result] what holds when the loop stops. *)

From stdpp Require Import options.
From stdpp Require Import vector finite.
From S2P Require Import Prelude.
From S2P Require Import CStd.
From S2P Require Import Store.
From S2P Require Import Evict.
From S2P Require Import StoreFacts.
From S2P Require Import KeySpace.

#[local] Set Default Proof Using "Type*".

Section evict.
Context `{impl : !StdImpl}.

(** ** What the nested loops visit *)

Lemma shard_entries_elem sh db key e :
  (db, key, e) ∈ shard_entries sh ↔ ∃ m, m_dbs sh !! db = Some m ∧ m !! key = Some e.
Proof.
  unfold shard_entries. rewrite list_elem_of_bind. split.
  - intros ([db' m] & Hin & Hdb%hash_iter_elem).
    apply list_elem_of_bind in Hin as ([key' e'] & Hin & Hk%hash_iter_elem).
    apply list_elem_of_singleton in Hin as [= -> -> ->]. eauto.
  - intros (m & Hdb & Hk). exists (db, m). split; [|by apply hash_iter_elem].
    apply list_elem_of_bind. exists (key, e). split; [by left|by apply hash_iter_elem].
Qed.

Lemma live_entries_elem now s i db key e :
  (i, db, key, e) ∈ live_entries now s ↔
  (∃ m, m_dbs (m_shards s !!! i) !! db = Some m ∧ m !! key = Some e) ∧ isExpired e now = false.
Proof.
  unfold live_entries. rewrite list_elem_of_bind. split.
  - intros (j & Hin & _). apply list_elem_of_bind in Hin as ([[db' key'] e'] & Hin & He).
    destruct (isExpired e' now) eqn:Ex; [by apply elem_of_nil in Hin|].
    apply list_elem_of_singleton in Hin as [= -> -> -> ->]. by apply shard_entries_elem in He.
  - intros [Hm Hx]. exists i. split; [|apply elem_of_enum].
    apply list_elem_of_bind. exists (db, key, e). rewrite Hx. split; [by left|].
    by apply shard_entries_elem.
Qed.

Lemma candidates_elem now s c :
  c ∈ candidates now s →
  ∃ m e, m_dbs (m_shards s !!! c_shard c) !! c_db c = Some m ∧ m !! c_key c = Some e ∧
    isExpired e now = false ∧ c_lru c = e_lru_ms e ∧
    (volatile_only (m_maxmemory_policy s) = true → 0 < e_expire_at_ms e).
Proof.
  unfold candidates. intros ([[[i db] key] e] & Hin & He)%list_elem_of_bind.
  apply live_entries_elem in He as [(m & Hm & Hk) Hx].
  destruct (volatile_only _ && (e_expire_at_ms e <=? 0)) eqn:E; [by apply elem_of_nil in Hin|].
  apply list_elem_of_singleton in Hin as ->. exists m, e. simpl. split_and!; try done.
  intros Hv. rewrite Hv in E. simpl in E. lia.
Qed.

(** ** The victim *)

Lemma choose_victim_elem policy k sample v :
  choose_victim policy k sample = Some v → v ∈ sample.
Proof.
  unfold choose_victim. repeat case_match; intros Hv.
  - by eapply list_elem_of_lookup_2.
  - apply head_Some_elem_of in Hv. by rewrite std_sort_elem in Hv.
  - apply head_Some_elem_of in Hv. by rewrite std_sort_elem in Hv.
  - by apply head_Some_elem_of.
Qed.

Lemma choose_victim_some policy k sample :
  sample ≠ [] → is_Some (choose_victim policy k sample).
Proof.
  intros Hne. unfold choose_victim.
  assert (∀ lt, is_Some (head (std_sort lt sample))) as Hsort.
  { intros lt. pose proof (std_sort_length lt sample) as Hl.
    destruct (std_sort lt sample) eqn:E; [|eauto]. by destruct sample. }
  repeat case_match; [|apply Hsort..|destruct sample; [done|eauto]].
  apply lookup_lt_is_Some, std_dist_range. destruct sample; [done|simpl; lia].
Qed.

(** Least recently used, or nearest to its expiry, among the (at most 16) sampled. *)
Lemma choose_victim_least policy k sample v :
  use_random policy = false → choose_victim policy k sample = Some v →
  ∀ c, c ∈ sample →
    (use_ttl policy = true → c_ttl_left v ≤ c_ttl_left c) ∧
    (use_ttl policy = false → use_lru policy = true → c_lru v ≤ c_lru c).
Proof.
  intros Hr. unfold choose_victim. rewrite Hr.
  assert (∀ f : Candidate → Z, head (std_sort (λ a b, f a <? f b) sample) = Some v →
            ∀ c, c ∈ sample → f v ≤ f c) as Hsort.
  { intros f Hv c Hc. assert (StrictOrder (λ _, True) (λ a b, f a <? f b)) as HO.
    { split; intros; lia. }
    pose proof (std_sort_sorted _ _ sample HO) as Hs.
    destruct (std_sort _ sample) as [|x l] eqn:E; [done|]. injection Hv as ->.
    assert (c ∈ v :: l) as Hc' by (by rewrite <-E, std_sort_elem).
    apply StronglySorted_inv in Hs as [_ Hs]; [|by apply Forall_true].
    apply elem_of_cons in Hc' as [->|Hc']; [lia|]. rewrite Forall_forall in Hs.
    apply Hs in Hc'. unfold not_above in Hc'. lia. }
  repeat case_match; intros Hv c Hc; split; intros; try done; by eapply Hsort.
Qed.

(** ** One iteration *)

Lemma evict_step_Some now k s s' :
  evict_step now k s = Some s' →
  ∃ v, v ∈ candidates now s ∧ s' = evict_victim v s ∧
    m_maxmemory s < usedMemoryApprox now s ∧
    choose_victim (m_maxmemory_policy s) k (take 16 (candidates now s)) = Some v.
Proof.
  unfold evict_step. destruct (Z.leb_spec (usedMemoryApprox now s) (m_maxmemory s)); [done|].
  destruct (choose_victim _ _ _) as [v|] eqn:E; simpl; [|done].
  destruct (m_dbs _ !! _); [|done]. intros [= <-]. exists v. split_and!; try done.
  apply choose_victim_elem, elem_of_take in E as (i & Hi & _). by eapply list_elem_of_lookup_2.
Qed.

Lemma evict_step_None now k s :
  evict_step now k s = None → usedMemoryApprox now s ≤ m_maxmemory s ∨ candidates now s = [].
Proof.
  unfold evict_step. destruct (Z.leb_spec (usedMemoryApprox now s) (m_maxmemory s)); [by left|].
  destruct (decide (take 16 (candidates now s) = [])) as [Hn|Hn].
  { intros _. right. by destruct (candidates now s). }
  destruct (choose_victim_some (m_maxmemory_policy s) k _ Hn) as [v Hv]. rewrite Hv. simpl.
  apply choose_victim_elem, elem_of_take in Hv as (i & Hi & _).
  apply list_elem_of_lookup_2, candidates_elem in Hi as (m & e & -> & _). done.
Qed.

(** Evicting removes the victim's entry and nothing else. *)
Lemma evict_victim_map v s i db key :
  db_map (m_shards (evict_victim v s) !!! i) db !! key =
  if decide (i = c_shard v ∧ db = c_db v ∧ key = c_key v) then None
  else db_map (m_shards s !!! i) db !! key.
Proof.
  unfold evict_victim, set_shard. simpl. destruct (decide (i = c_shard v)) as [->|Hi].
  - rewrite vlookup_insert, db_map_bump.
    destruct (decide (db = c_db v)) as [->|Hd].
    + rewrite db_map_set_db. destruct (decide (key = c_key v)) as [->|Hk].
      * rewrite decide_True by done. by rewrite lookup_delete_eq.
      * rewrite decide_False by tauto. by rewrite lookup_delete_ne.
    + rewrite decide_False by tauto. by rewrite db_map_set_db_ne.
  - rewrite decide_False by tauto. by rewrite vlookup_insert_ne.
Qed.

Lemma evict_victim_config v s :
  m_maxmemory (evict_victim v s) = m_maxmemory s ∧
  m_maxmemory_policy (evict_victim v s) = m_maxmemory_policy s.
Proof. done. Qed.

(** ** Termination *)

Lemma NoDup_hash_iter {K A} `{Countable K} (m : gmap K A) : NoDup (hash_iter m).
Proof. rewrite hash_iter_perm. apply NoDup_map_to_list. Qed.

Lemma shard_entries_NoDup sh : NoDup (shard_entries sh).
Proof.
  unfold shard_entries. apply NoDup_bind; [| |apply NoDup_hash_iter].
  - intros [db m] [db' m'] [[d k] e] H1 H2 Hin1 Hin2.
    apply list_elem_of_bind in Hin1 as ([k1 e1] & Hin1 & _).
    apply list_elem_of_bind in Hin2 as ([k2 e2] & Hin2 & _).
    apply list_elem_of_singleton in Hin1 as [= -> -> ->], Hin2 as [= -> -> ->].
    apply hash_iter_elem in H1, H2. congruence.
  - intros [db m] _. apply NoDup_bind; [| |apply NoDup_hash_iter].
    + intros [k1 e1] [k2 e2] y _ _ H1 H2. apply list_elem_of_singleton in H1, H2. congruence.
    + intros [k e] _. apply NoDup_singleton.
Qed.

Lemma live_entries_NoDup now s : NoDup (live_entries now s).
Proof.
  unfold live_entries. apply NoDup_bind; [| |apply NoDup_enum].
  - intros i j x _ _ H1 H2.
    apply list_elem_of_bind in H1 as ([[d k] e] & H1 & _).
    apply list_elem_of_bind in H2 as ([[d' k'] e'] & H2 & _).
    destruct (isExpired e now); [by apply elem_of_nil in H1|].
    destruct (isExpired e' now); [by apply elem_of_nil in H2|].
    apply list_elem_of_singleton in H1, H2. congruence.
  - intros i _. apply NoDup_bind; [| |apply shard_entries_NoDup].
    + intros [[d k] e] [[d' k'] e'] x _ _ H1 H2.
      destruct (isExpired e now); [by apply elem_of_nil in H1|].
      destruct (isExpired e' now); [by apply elem_of_nil in H2|].
      apply list_elem_of_singleton in H1, H2. congruence.
    + intros [[d k] e] _. destruct (isExpired e now); [constructor|apply NoDup_singleton].
Qed.

Lemma live_entries_db_map now s i db key e :
  (i, db, key, e) ∈ live_entries now s ↔
  db_map (m_shards s !!! i) db !! key = Some e ∧ isExpired e now = false.
Proof.
  rewrite live_entries_elem. unfold db_map.
  destruct (m_dbs (m_shards s !!! i) !! db) as [m|]; simpl.
  - split; [intros [(m' & [= <-] & ?) ?]; done|intros [? ?]; eauto].
  - rewrite lookup_empty. split; [intros [(? & ? & _) _]; done|by intros []].
Qed.

Lemma evict_step_shrinks now k s s' :
  evict_step now k s = Some s' →
  (length (live_entries now s') < length (live_entries now s))%nat.
Proof.
  intros (v & Hv & -> & _ & _)%evict_step_Some.
  apply candidates_elem in Hv as (m & e & Hm & Hk & Hx & _).
  set (x := (c_shard v, c_db v, c_key v, e)).
  assert (x ∈ live_entries now s) as Hin by (apply live_entries_elem; eauto).
  change (length (x :: live_entries now (evict_victim v s)) ≤ length (live_entries now s))%nat.
  apply submseteq_length, NoDup_submseteq.
  - constructor; [|apply live_entries_NoDup]. subst x.
    rewrite live_entries_db_map, evict_victim_map, decide_True by done. by intros [].
  - intros [[[i db] key] e'] [->|Hi]%elem_of_cons; [done|].
    apply live_entries_db_map. apply live_entries_db_map in Hi as [Hi ?].
    rewrite evict_victim_map in Hi. by case_decide.
Qed.

(** With one more unit of fuel than live entries, the loop ends by itself: within
    the limit, or with nothing left that the policy may evict. *)
Lemma evict_loop_runs fuel now k s :
  (length (live_entries now s) < fuel)%nat →
  ∃ s', evict_loop fuel now k s = Some s' ∧
    (usedMemoryApprox now s' ≤ m_maxmemory s ∨ candidates now s' = []).
Proof.
  revert k s. induction fuel as [|fuel IH]; intros k s Hf; [lia|]. simpl.
  destruct (evict_step now k s) as [s1|] eqn:E.
  - pose proof (evict_step_shrinks now k s s1 E). destruct (IH (S k) s1) as (s' & -> & Hs'); [lia|].
    apply evict_step_Some in E as (v & _ & -> & _). by exists s'.
  - exists s. split; [done|]. by apply evict_step_None in E.
Qed.

(** ** What eviction may change *)

Lemma evict_loop_keeps (P : KvStore → Prop) fuel now k s s' :
  (∀ v s, P s → v ∈ candidates now s → P (evict_victim v s)) →
  P s → evict_loop fuel now k s = Some s' → P s'.
Proof.
  intros HP. revert k s. induction fuel as [|fuel IH]; intros k s Hs; simpl; [done|].
  destruct (evict_step now k s) as [s1|] eqn:E; [|by intros [= <-]].
  apply IH. apply evict_step_Some in E as (v & Hv & -> & _). by apply HP.
Qed.

Lemma evict_keeps (P : KvStore → Prop) now s :
  (∀ v s, P s → v ∈ candidates now s → P (evict_victim v s)) →
  P s → P (evictIfNeededLocked now s).1.
Proof.
  intros HP Hs. unfold evictIfNeededLocked. destruct (evict_off s); [done|]. cbn [fst].
  destruct (evict_loop _ now 0 s) as [s'|] eqn:E; [|done]. by eapply evict_loop_keeps.
Qed.

Lemma evict_wf now s : wf s → wf (evictIfNeededLocked now s).1.
Proof.
  apply evict_keeps. intros v s1 Hs _ i db key e. rewrite evict_victim_map.
  case_decide; [done|]. apply Hs.
Qed.

Lemma raw_evict_victim v s db key :
  raw (evict_victim v s) db key =
  if decide (shardIdx key = c_shard v ∧ db = c_db v ∧ key = c_key v) then None
  else raw s db key.
Proof. apply evict_victim_map. Qed.

(** Eviction only removes: a key is as it was, or gone. *)
Lemma evict_removes now s db key :
  raw (evictIfNeededLocked now s).1 db key = raw s db key ∨
  raw (evictIfNeededLocked now s).1 db key = None.
Proof.
  apply (evict_keeps (λ s', raw s' db key = raw s db key ∨ raw s' db key = None)); [|by left].
  intros v s' H _. rewrite raw_evict_victim. case_decide; [by right|done].
Qed.

(** A [volatile-] policy never evicts a key without an expiry time. *)
Lemma evict_volatile now s db key e :
  wf s → volatile_only (m_maxmemory_policy s) = true →
  raw s db key = Some e → e_expire_at_ms e ≤ 0 →
  raw (evictIfNeededLocked now s).1 db key = Some e.
Proof.
  intros Hs Hv Hr He.
  assert (wf (evictIfNeededLocked now s).1 ∧
    m_maxmemory_policy (evictIfNeededLocked now s).1 = m_maxmemory_policy s ∧
    raw (evictIfNeededLocked now s).1 db key = Some e) as (_ & _ & H); [|done].
  apply (evict_keeps (λ s', wf s' ∧ m_maxmemory_policy s' = m_maxmemory_policy s ∧
                            raw s' db key = Some e)); [|done].
  intros v s' (Hs' & Hp & Hr') Hc. split_and!; [|done|].
  - intros i d k x. rewrite evict_victim_map. case_decide; [done|]. apply Hs'.
  - rewrite raw_evict_victim, decide_False; [done|]. intros (Hi & -> & ->).
    apply candidates_elem in Hc as (m & e' & Hm & Hk & _ & _ & Hvol).
    unfold raw, getShard, db_map in Hr'. rewrite Hi, Hm in Hr'. simpl in Hr'.
    rewrite Hp in Hvol. specialize (Hvol Hv). assert (e = e') as -> by congruence. lia.
Qed.

(** The outcome, with the fuel [evictIfNeededLocked] gives itself. *)
Lemma evict_result now s :
  evict_off s = false →
  let s' := (evictIfNeededLocked now s).1 in
  usedMemoryApprox now s' ≤ m_maxmemory s ∨ candidates now s' = [].
Proof.
  intros Hoff. unfold evictIfNeededLocked. rewrite Hoff. cbv zeta. cbn [fst].
  destruct (evict_loop_runs (S (length (live_entries now s))) now 0 s) as (s' & Hl & Hs'); [lia|].
  by rewrite Hl.
Qed.
End evict.
