(* ===== verification/KeyOps.v ===== *)
(** * Keyspace commands of the store

    The commands over several keys or a whole database; they hold the lock of every
    shard ([ScopedAllShardsLock]) and read the clock once. *)

From stdpp Require Import options.
From stdpp Require Import vector finite.
From S2P Require Import Prelude.
From S2P Require Import CStd.
From S2P Require Import Glob.
From S2P Require Import Scan.
From S2P Require Import Store.
From S2P Require Import Evict.
From S2P Require Import StoreFacts.
From S2P Require Import StrOps.
From S2P Require Import SetOps.
From S2P Require Import StreamOps.

#[local] Set Default Proof Using "Type*".

Section ops.
Context `{impl : !StdImpl}.

Fixpoint del_loop (db : Z) (keys : list string) (now : Z) (removed : Z) : KM Z :=
  match keys with
  | [] => mret removed
  | key :: keys =>
      e ← lookup_key db key now;
      match e with
      | None => del_loop db keys now removed
      | Some _ =>
          on_shard key (eraseEntry db key ;; bumpWatchKey db key) ;;
          del_loop db keys now (removed + 1)
      end
  end.

Definition delMany (db : Z) (keys : list string) (now : Z) : KM Z :=
  if bool_decide (keys = []) then mret 0 else del_loop db keys now 0.

Definition del (db : Z) (key : string) (now : Z) : KM bool :=
  n ← delMany db [key] now; mret (0 <? n).

Fixpoint exists_loop (db : Z) (keys : list string) (now : Z) (n : Z) : KM Z :=
  match keys with
  | [] => mret n
  | key :: keys =>
      e ← lookup_key db key now;
      exists_loop db keys now (match e with Some _ => n + 1 | None => n end)
  end.

Definition existsMany (db : Z) (keys : list string) (now : Z) : KM Z :=
  if bool_decide (keys = []) then mret 0 else exists_loop db keys now 0.

(** [get], then [del] in a second critical section. *)
Definition getdel (db : Z) (key : string) (now1 now2 : Z) : KM (Res bool (option string)) :=
  r ← get db key now1;
  if negb (res_ret (r : Res bool (option string))) then mret r
  else
    match res_out r with
    | Some _ => del db key now2 ;; mret r
    | None => mret r
    end.

Fixpoint msetnx_check (db : Z) (pairs : list (string * string)) (now : Z) : KM bool :=
  match pairs with
  | [] => mret true
  | p :: pairs =>
      e ← lookup_key db p.1 now;
      match e with
      | Some _ => mret false
      | None => msetnx_check db pairs now
      end
  end.

(** [dbmap[key]] overwritten as a string; [hash], [list] … are cleared. *)
Definition msetnx_entry (value : string) (now : Z) (e : Entry) : Entry :=
  e |> set_type ObjString |> set_value value |> set_hash ∅ |> set_list [] |> set_set ∅
    |> set_zset ∅ |> set_stream [] |> set_stream_groups ∅ |> set_expire 0 |> touchEntry now.

Fixpoint msetnx_write (db : Z) (pairs : list (string * string)) (now : Z) : KM unit :=
  match pairs with
  | [] => mret tt
  | p :: pairs =>
      on_shard p.1 (
        e ← gets (λ sh, default Entry0 (db_map sh db !! p.1));
        putEntry db p.1 (msetnx_entry p.2 now e) ;;
        bumpWatchKey db p.1) ;;
      msetnx_write db pairs now
  end.

Definition msetnx (db : Z) (pairs : list (string * string)) (now : Z) : KM Z :=
  if bool_decide (pairs = []) then mret 1
  else
    free ← msetnx_check db pairs now;
    if free : bool then msetnx_write db pairs now ;; mret 1 else mret 0.

(** [dst] is announced to its watchers only when it was replaced or lives in another
    shard than [src]. *)
Definition renameKey (db : Z) (src dst : string) (nx : bool) (now : Z) : KM (Res Z unit) :=
  if bool_decide (src = dst) then mret (ok 1 tt)
  else
    se ← lookup_key db src now;
    match se with
    | None => mret (fail (-2) tt err_no_key)
    | Some moved =>
        de ← lookup_key db dst now;
        if nx && match de with Some _ => true | None => false end then mret (ok 0 tt)
        else
          match de with
          | Some _ => on_shard dst (eraseEntry db dst ;; bumpWatchKey db dst)
          | None => mret tt
          end ;;
          on_shard src (eraseEntry db src) ;;
          on_shard dst (putEntry db dst (touchEntry now moved)) ;;
          on_shard src (bumpWatchKey db src) ;;
          (if bool_decide (shardIdx src = shardIdx dst) then mret tt
           else on_shard dst (bumpWatchKey db dst)) ;;
          mret (ok 1 tt)
    end.

(** ** Whole databases *)

(** [dit = m_dbs.find(db); if(dit != end) purgeExpiredDb(dit->second, now);] *)
Definition purge_shard (db now : Z) (sh : Shard) : Shard :=
  match m_dbs sh !! db with
  | Some m => set_db db (purgeExpiredDb now m) sh
  | None => sh
  end.

Definition dbsize (db now : Z) : KM Z :=
  on_all_shards (purge_shard db now) ;;
  gets (λ s, sumZ ((λ sh, Z.of_nat (size (db_map sh db))) <$> vec_to_list (m_shards s))).

(** The loop erases the expired entries as it counts. *)
Definition expireCount (db now : Z) : KM Z :=
  on_all_shards (purge_shard db now) ;;
  gets (λ s, sumZ ((λ sh, Z.of_nat (size (filter (λ p, 0 < e_expire_at_ms p.2) (db_map sh db))))
                   <$> vec_to_list (m_shards s))).

Definition flush_shard (db : Z) (sh : Shard) : Shard := bump_watch_db db (set_db db ∅ sh).

Definition flushdb (db : Z) : KM unit := on_all_shards (flush_shard db).

Definition flushall : KM unit :=
  on_all_shards (set_dbs ∅) ;;
  for_each (seqZ 0 (Z.of_nat kMaxDb)) (λ db, on_all_shards (bump_watch_db db)).

(** [KvStore::collectKeys], which appends to [out] and sorts it. *)
Definition collectKeys (m : DbMap) (now : Z) (pattern : string) (out : list string)
  : list string :=
  sort_strings (out ++ (filter (λ p : string * Entry, isExpired p.2 now = false ∧
                                     matchGlob pattern p.1 = true) (hash_iter m)).*1).

Definition all_keys (db now : Z) (pattern : string) (s : KvStore) : list string :=
  sort_strings
    (foldl (λ out sh, match m_dbs sh !! db with
                      | Some m => collectKeys m now pattern out
                      | None => out
                      end) [] (vec_to_list (m_shards s))).

Definition keys (db : Z) (pattern : string) (now : Z) : KM (list string) :=
  on_all_shards (purge_shard db now) ;; gets (all_keys db now pattern).

Definition scan (db cursor : Z) (pattern : string) (count now : Z) : KM CollectionScanResult :=
  on_all_shards (purge_shard db now) ;;
  gets (λ s, scanFlatItems (all_keys db now pattern s) cursor count).

(** At most [max_scan] entries of each database are looked at, in iteration order. *)
Definition purge_active_db (max_scan now : Z) (m : DbMap) : DbMap * Z :=
  let victims := filter (λ p : string * Entry, isExpired p.2 now = true)
                   (take (Z.to_nat max_scan) (hash_iter m)) in
  (foldr (λ p m, delete p.1 m) m victims, Z.of_nat (length victims)).

Definition purge_active_shard (max_scan now : Z) (sh : Shard) : Shard * Z :=
  (set_dbs (fst ∘ purge_active_db max_scan now <$> m_dbs sh) sh,
   sumZ ((λ p, (purge_active_db max_scan now p.2).2) <$> hash_iter (m_dbs sh))).

Definition purgeExpiredActive (max_scan_per_db now : Z) : KM Z :=
  if max_scan_per_db <=? 0 then mret 0
  else λ s,
    (set_shards (vmap (fst ∘ purge_active_shard max_scan_per_db now) (m_shards s)) s,
     sumZ ((snd ∘ purge_active_shard max_scan_per_db now) <$> vec_to_list (m_shards s))).

(** ** Configuration *)

Definition setRdbPath (path : string) : KM unit := modify (λ s,
  mkStore (m_shards s) path (m_lastSaveSec s) (m_maxmemory s) (m_maxmemory_policy s)).
Definition getRdbPath : KM string := gets m_rdbPath.
Definition lastSaveUnixSec : KM Z := gets m_lastSaveSec.
Definition bumpWatchDb (db : Z) : KM unit := on_all_shards (bump_watch_db db).
End ops.
