(* ===== verification/Rdb.v ===== *)
(** * The RDB snapshot and the DUMP format

    [Rdb] ([persistence/rdb.cc]): what [dump] writes and [loadFromString] reads, and the
    payloads of [DUMP] and [RESTORE].  A buffer is a list of characters; a writer gives
    what it appends, a reader takes what is left and answers what is left after it.
    Integers are the host's bytes, little-endian.  The JSON format of version 1 goes
    through jsoncpp and is not modelled, nor are the files. *)

From Stdlib Require Import Ascii.
From stdpp Require Import options.
From stdpp Require Import vector.
From S2P Require Import Prelude.
From S2P Require Import CStd.
From S2P Require Import Double.
From S2P Require Import Binary64.
From S2P Require Import Bytes.
From S2P Require Import Store.

#[local] Set Default Proof Using "Type*".

(** ** Writing *)

Definition appendU8 (v : Z) : Bytes := le_bytes 1 v.
Definition appendU32 (v : Z) : Bytes := le_bytes 4 v.
Definition appendU64 (v : Z) : Bytes := le_bytes 8 v.
Definition appendI64 (v : Z) : Bytes := le_bytes 8 v.
Definition appendDouble (d : double) : Bytes := le_bytes 8 (double_bits d).
Definition appendStr (s : string) : Bytes := appendU32 (str_size s) ++ chars s.

(** [(uint8_t)e.type] *)
Definition type_byte (t : ObjType) : Z :=
  match t with
  | ObjString => 0 | ObjHash => 1 | ObjList => 2 | ObjSet => 3 | ObjZSet => 4 | ObjStream => 5
  end.

(** A count and that many items. *)
Definition append_all {A} (put : A → Bytes) (l : list A) : Bytes :=
  appendU32 (Z.of_nat (length l)) ++ (l ≫= put).

Definition append_field (f : string * string) : Bytes := appendStr f.1 ++ appendStr f.2.

(** ** Reading *)

(** [return false], with the message where one is set, or the exception of a [reserve]. *)
Inductive Failure : Type := Malformed (err : option string) | OutOfMemory.

Definition Rd (A : Type) : Type := Bytes → Failure + (Bytes * A).

#[global] Instance Rd_ret : MRet Rd := λ A a p, inr (p, a).
#[global] Instance Rd_bind : MBind Rd := λ A B k m p,
  match m p with inr (p, a) => k a p | inl f => inl f end.

Definition fails {A} (f : Failure) : Rd A := λ _, inl f.

(** [if(!read) { *err = msg; return false; }] *)
Definition or_err {A} (msg : string) (m : Rd A) : Rd A := λ p,
  match m p with inl (Malformed _) => inl (Malformed (Some msg)) | r => r end.

(** [readPod] of an unsigned type of [n] bytes. *)
Definition readPod (n : nat) : Rd Z := λ p,
  if (length p <? n)%nat then inl (Malformed None) else inr (drop n p, le_value (take n p)).
Definition readI64 : Rd Z := v ← readPod 8; mret (i64 v).
Definition readDouble : Rd double := v ← readPod 8; mret (bits_double v).

Definition readStr : Rd string :=
  len ← readPod 4;
  ((λ p, if Z.of_nat (length p) <? len then inl (Malformed None)
         else inr (drop (Z.to_nat len) p, text (take (Z.to_nat len) p))) : Rd string).

(** [for(i = 0; i < n; ++i) step] *)
Fixpoint read_n {A} (n : nat) (step : A → Rd A) (a : A) : Rd A :=
  match n with O => mret a | S n => a ← step a; read_n n step a end.
Definition read_all {A} (step : A → Rd A) (a : A) : Rd A :=
  n ← readPod 4; read_n (Z.to_nat n) step a.

Definition read_field (m : gmap string string) : Rd (gmap string string) :=
  k ← readStr; v ← readStr; mret (<[k := v]> m).

Section rdb.
Context `{impl : !StdImpl} (reserves : Z → bool).

(** ** The payload of an entry *)

Definition append_pending (c : StreamConsumerState) (pid : string) : Bytes :=
  let meta := cs_pending_meta c !! pid in
  appendStr pid ++ appendI64 (default 0 (delivery_ms <$> meta)) ++
  appendI64 (default 1 (delivery_count <$> meta)).
Definition append_consumer (cp : string * StreamConsumerState) : Bytes :=
  appendStr cp.1 ++ appendStr (cs_last_id cp.2) ++
  append_all (append_pending cp.2) (cs_pending cp.2).
Definition append_group (gp : string * StreamGroupState) : Bytes :=
  appendStr gp.1 ++ appendStr (gs_last_id gp.2) ++
  append_all append_consumer (hash_iter (gs_consumers gp.2)).
Definition append_item (se : StreamEntry) : Bytes :=
  appendStr (se_id se) ++ append_all append_field (hash_iter (se_fields se)).

Definition writeStreamEntry (e : Entry) : Bytes :=
  appendU64 (e_stream_last_ms e) ++ appendU64 (e_stream_last_seq e) ++
  append_all append_item (e_stream e) ++ append_all append_group (hash_iter (e_stream_groups e)).

Definition writeEntryPayload (e : Entry) : Bytes :=
  match e_type e with
  | ObjHash => append_all append_field (hash_iter (e_hash e))
  | ObjList => append_all appendStr (e_list e)
  | ObjSet => append_all appendStr (hash_iter_set (e_set e))
  | ObjZSet => append_all (λ z, appendStr z.1 ++ appendDouble z.2) (map_iter (e_zset e))
  | ObjStream => writeStreamEntry e
  | ObjString => appendStr (e_value e)
  end.

Definition read_pending (c : StreamConsumerState) : Rd StreamConsumerState :=
  pid ← readStr; ms ← readI64; count ← readI64;
  mret (mkConsumer (cs_last_id c) (cs_pending c ++ [pid])
          (<[pid := mkMeta ms count]> (cs_pending_meta c))).
Definition read_consumer (m : gmap string StreamConsumerState) : Rd (gmap string StreamConsumerState) :=
  name ← readStr; last ← readStr; c ← read_all read_pending (mkConsumer last [] ∅);
  mret (<[name := c]> m).
Definition read_group (m : gmap string StreamGroupState) : Rd (gmap string StreamGroupState) :=
  name ← readStr; last ← readStr; cs ← read_all read_consumer ∅;
  mret (<[name := mkGroup last cs]> m).
Definition read_item (l : list StreamEntry) : Rd (list StreamEntry) :=
  id ← readStr; fields ← read_all read_field ∅; mret (l ++ [mkStreamEntry id fields]).

Definition readStreamEntry (e : Entry) : Rd Entry :=
  ms ← readPod 8; seq ← readPod 8;
  n ← readPod 4;
  if reserves n then
    items ← read_n (Z.to_nat n) read_item [];
    groups ← read_all read_group (e_stream_groups e);
    mret (e |> set_stream_last ms seq |> set_stream items |> set_stream_groups groups)
  else fails OutOfMemory.

(** The payload of the type; any other byte reads a string, as [default] does. *)
Definition read_payload (type : Z) (e : Entry) : Rd Entry :=
  if type =? 1 then h ← read_all read_field (e_hash e); mret (set_hash h e)
  else if type =? 2 then l ← read_all (λ l, v ← readStr; mret (l ++ [v])) (e_list e); mret (set_list l e)
  else if type =? 3 then X ← read_all (λ X, m ← readStr; mret ({[m]} ∪ X)) (e_set e); mret (set_set X e)
  else if type =? 4 then
    z ← read_all (λ z, m ← readStr; score ← readDouble; mret (<[m := score]> z)) (e_zset e);
    mret (set_zset z e)
  else if type =? 5 then readStreamEntry e
  else v ← readStr; mret (set_value v e).

(** The enumerator of a type byte; a byte above 5 is none. *)
Definition obj_type (type : Z) : option ObjType :=
  if type =? 0 then Some ObjString else if type =? 1 then Some ObjHash
  else if type =? 2 then Some ObjList else if type =? 3 then Some ObjSet
  else if type =? 4 then Some ObjZSet else if type =? 5 then Some ObjStream else None.

Definition skipEntryPayload (type : Z) : Rd unit := _ ← read_payload type Entry0; mret tt.

(** ** The snapshot *)

Definition magic : Bytes := chars "SYRDB2" ++ ["000"%char; "000"%char].
Definition kBinaryVersion : Z := 2.

(** The entries of one map that have not expired. *)
Definition snap_entries (now : Z) (m : DbMap) : list (string * Entry) :=
  filter (λ kv, isExpired kv.2 now = false) (hash_iter m).

(** Added to the slot of their database, or to a new one unless there are none. *)
Fixpoint snap_add (db : Z) (es : list (string * Entry)) (snap : list (Z * list (string * Entry)))
  : list (Z * list (string * Entry)) :=
  match snap with
  | [] => match es with [] => [] | _ => [(db, es)] end
  | (d, l) :: snap => if d =? db then (d, l ++ es) :: snap else (d, l) :: snap_add db es snap
  end.

Definition snapshot (now : Z) (s : KvStore) : list (Z * list (string * Entry)) :=
  foldl (λ snap p, snap_add p.1 (snap_entries now p.2) snap) []
    (vec_to_list (m_shards s) ≫= λ sh, hash_iter (m_dbs sh)).

Definition append_entry (kv : string * Entry) : Bytes :=
  appendStr kv.1 ++ appendI64 (e_expire_at_ms kv.2) ++ appendU8 (type_byte (e_type kv.2)) ++
  writeEntryPayload kv.2.
Definition append_db (p : Z * list (string * Entry)) : Bytes :=
  appendI64 p.1 ++ append_all append_entry p.2.

(** [dumpBinaryV2]: [saved_at] and [now] are its two readings of the clock. *)
Definition dumpBinaryV2 (saved_at now : Z) (s : KvStore) : Bytes :=
  magic ++ appendU32 kBinaryVersion ++ appendU64 saved_at ++
  append_all append_db (snapshot now s) ++ appendU8 0xFF.

Definition dump : Z → Z → KvStore → Bytes := dumpBinaryV2.

(** ** Loading it *)

Definition read_entry (now : Z) (m : DbMap) : Rd DbMap :=
  key ← or_err "ERR malformed RDB entry" readStr;
  expire ← or_err "ERR malformed RDB entry" readI64;
  let e := set_expire expire Entry0 in
  if isExpired e now then
    type ← readPod 1;
    or_err "ERR malformed RDB entry payload" (skipEntryPayload type) ;;
    mret m
  else
    type ← or_err "ERR malformed RDB type" (readPod 1);
    let e := set_type (default ObjString (obj_type type)) e in
    e ← (if type =? 5 then or_err "ERR malformed RDB stream" (read_payload type e)
         else read_payload type e);
    mret (if isExpired e now then m else <[key := e]> m).

(** [rebuilt[db_id]] is keyed by [int]. *)
Definition read_db (now : Z) (rebuilt : gmap Z DbMap) : Rd (gmap Z DbMap) :=
  db_id ← or_err "ERR malformed RDB db id" readI64;
  key_count ← or_err "ERR malformed RDB key count" (readPod 4);
  let db := i32 db_id in
  m ← read_n (Z.to_nat key_count) (read_entry now) (default ∅ (rebuilt !! db));
  mret (<[db := m]> rebuilt).

Definition read_snapshot (now : Z) : Rd (gmap Z DbMap) :=
  ((λ p, if (length p <? 8)%nat || negb (bool_decide (take 8 p = magic))
         then inl (Malformed (Some "ERR invalid RDB magic")) else inr (drop 8 p, tt)) : Rd unit) ;;
  version ← or_err "ERR unsupported RDB version" (readPod 4);
  if negb (version =? kBinaryVersion) then fails (Malformed (Some "ERR unsupported RDB version"))
  else
    _ ← or_err "ERR malformed RDB header" (readPod 8);
    db_count ← or_err "ERR malformed RDB databases" (readPod 4);
    rebuilt ← read_n (Z.to_nat db_count) (read_db now) ∅;
    footer ← or_err "ERR malformed RDB footer" (readPod 1);
    if negb (footer =? 0xFF) then fails (Malformed (Some "ERR malformed RDB footer"))
    else mret rebuilt.

(** The databases and the watch versions are cleared; the epochs and the flag stay. *)
Definition clear_shard (sh : Shard) : Shard :=
  mkShard ∅ (foldr (λ db m, <[Z.of_nat db := ∅]> m) (m_watch_versions sh) (seq 0 kMaxDb))
    (m_db_watch_epoch sh) (m_hasWatches sh).

Definition install (rebuilt : gmap Z DbMap) (s : KvStore) : KvStore :=
  foldl (λ s p,
    foldl (λ s kv, set_shard (shardIdx kv.1)
                     (set_db p.1 (<[kv.1 := kv.2]> (db_map (getShard s kv.1) p.1)) (getShard s kv.1)) s)
      s (hash_iter p.2))
    (set_shards (vmap clear_shard (m_shards s)) s) (hash_iter rebuilt).

(** How a load or a restore ends: [true] or [false] with [*err], an exception, or with an
    entry whose type is no enumerator, of which the model says no more. *)
Inductive Outcome : Type := Done (r : Res bool unit) | Threw | NoType.

Definition loadBinaryV2 (data : Bytes) (now : Z) : State KvStore Outcome := λ s,
  match read_snapshot now data with
  | inr (_, rebuilt) => (install rebuilt s, Done (ok true tt))
  | inl (Malformed err) => (s, Done (mkRes false tt err))
  | inl OutOfMemory => (s, Threw)
  end.

Definition isBinaryV2 (data : Bytes) : bool :=
  (7 <=? length data)%nat && bool_decide (take 6 data = chars "SYRDB2").

(** [json] stands for [loadFromJsonV1]. *)
Definition loadFromString (json : Bytes → Z → State KvStore Outcome) (data : Bytes) (now : Z)
  : State KvStore Outcome :=
  if bool_decide (data = []) then mret (Done (fail false tt "ERR empty RDB payload"))
  else if isBinaryV2 data then loadBinaryV2 data now else json data now.

(** ** One key *)

Definition dump_magic : Bytes := chars "SYRDMP" ++ ["000"%char; "000"%char].

(** [found], with [ttl_ms] and the payload. *)
Definition dumpKey (db : Z) (key : string) (now : Z) (s : KvStore) : option (Z * Bytes) :=
  e ← live s now db key;
  Some (if now <? e_expire_at_ms e then e_expire_at_ms e - now else 0,
        dump_magic ++ appendI64 (e_expire_at_ms e) ++ appendU8 (type_byte (e_type e)) ++
        writeEntryPayload e).

Definition err_payload : string := "ERR DUMP payload version or checksum are wrong".

(** The entry of a payload, with its type byte. *)
Definition read_dump : Rd (Z * Entry) :=
  expire ← readI64; type ← readPod 1;
  e ← read_payload type (set_expire expire Entry0);
  mret (type, e).

Definition restoreKey (db : Z) (key : string) (ttl_ms : Z) (payload : Bytes) (replace : bool) (now : Z)
  : State KvStore Outcome := λ s,
  if (length payload <? 8)%nat || negb (bool_decide (take 6 payload = chars "SYRDMP"))
  then (s, Done (fail false tt err_payload))
  else
    match read_dump (drop 8 payload) with
    | inl (Malformed _) => (s, Done (fail false tt err_payload))
    | inl OutOfMemory => (s, Threw)
    | inr (_, (type, e)) =>
        let e := set_expire (if ttl_ms =? 0 then 0 else i64 (now + ttl_ms)) e in
        let busy := match live s now db key with Some _ => negb replace | None => false end in
        if busy then
          ((on_shard key (modify (λ sh, set_db db (db_map sh db) sh)) s).1,
           Done (fail false tt "BUSYKEY Target key name already exists."))
        else
          match obj_type type with
          | None => (s, NoType)
          | Some t =>
              ((on_shard key (putEntry db key (e |> set_type t |> set_lru now) ;;
                              bumpWatchKey db key) s).1, Done (ok true tt))
          end
    end.
End rdb.
