(* ===== verification/Commands.v ===== *)
(** * The one-key commands, behind one interface

    [KeyCommands] is what a family of one-key commands promises to the rest of the
    development: every command refines its specification.  The instances discharge it
    for the string, hash, list, set, sorted-set and stream commands; the theorems about
    any family (refinement on whole stores, sequences of commands, watching) are
    proved once against the interface. *)

From stdpp Require Import options.
From stdpp Require Import vector finite.
From S2P Require Import Prelude.
From S2P Require Import CStd.
From S2P Require Import Double.
From S2P Require Import Glob.
From S2P Require Import Scan.
From S2P Require Import Store.
From S2P Require Import Evict.
From S2P Require Import StoreFacts.
From S2P Require Import StrOps.
From S2P Require Import HashOps.
From S2P Require Import ListOps.
From S2P Require Import SetOps.
From S2P Require Import ZSetOps.
From S2P Require Import StreamOps.
From S2P Require Import KeySpace.
From S2P Require Import EvictFacts.

#[local] Set Default Proof Using "Type*".

(** The store a command starts from: the growing commands evict first. *)
Definition before `{impl : !StdImpl} (evicts : bool) (now : Z) (s : KvStore) : KvStore :=
  if evicts then (evictIfNeededLocked now s).1 else s.

Class KeyCommands `{impl : !StdImpl} (C : Type) := {
  reply : C → Type;
  run : ∀ c : C, Z → string → Z → KM (reply c);
  spec : ∀ c : C, Z → option AVal → option AVal * reply c;
  (* argument checks made by the callers *)
  args_ok : C → Prop;
  (* does it call [evictIfNeededLocked] first? *)
  evicts : C → bool;
  (* does it announce every change of the value to the watchers? *)
  announces : C → bool;
  command_ok c db key now :
    args_ok c → key_ok (before (evicts c) now) (announces c) now db key (run c db key now) (spec c now)
}.

(** ** The families *)

Inductive StrCmd : Type :=
  | CGet | CExists | CType | CPersist | CTtl | CPttl | CStrlen
  | CSetOpt (value : string) (nx xx : bool) (ex px : Z)
  | CExpire (seconds : Z) | CPexpire (ms : Z) | CExpireAt (sec : Z) | CPexpireAt (ms : Z)
  | CIncrBy (delta : Z) | CIncrByFloat (delta : double) | CAppend (value : string)
  | CGetex (ex px : Z) (persist : bool).

Definition str_reply (c : StrCmd) : Type :=
  match c with
  | CGet | CGetex _ _ _ | CIncrByFloat _ => Res bool (option string)
  | CExists => bool
  | CType => string
  | CStrlen | CIncrBy _ | CAppend _ => Res bool (option Z)
  | _ => Z
  end.

Inductive HashCmd : Type :=
  | CHset (field value : string) | CHget (field : string) | CHdel (field : string)
  | CHexists (field : string) | CHlen | CHgetall | CHincrby (field : string) (delta : Z)
  | CHsetFields (fields : list (string * string)) | CHscan (cursor : Z) (pattern : string) (count : Z).

Definition hash_reply (c : HashCmd) : Type :=
  match c with
  | CHset _ _ | CHsetFields _ => Res Z unit
  | CHget _ => Res bool (option string)
  | CHdel _ => Res bool Z
  | CHexists _ => Res bool bool
  | CHlen => Res Z bool
  | CHgetall => Res bool (bool * list (string * string))
  | CHincrby _ _ => Res bool (option Z)
  | CHscan _ _ _ => Res CollectionScanResult unit
  end.

Inductive ListCmd : Type :=
  | CPush (values : list string) (left : bool) | CPop (left : bool) | CLlen
  | CLrange (start stop : Z) | CLindex (index : Z) | CLtrim (start stop : Z)
  | CLset (index : Z) (value : string) | CLrem (count : Z) (value : string)
  | CLinsert (before : bool) (pivot value : string).

Definition list_reply (c : ListCmd) : Type :=
  match c with
  | CPush _ _ | CLtrim _ _ | CLrem _ _ | CLinsert _ _ _ => Res Z unit
  | CPop _ | CLindex _ => Res bool (option string)
  | CLlen => Res Z bool
  | CLrange _ _ => Res bool (bool * list string)
  | CLset _ _ => Res bool unit
  end.

Inductive SetCmd : Type :=
  | CSadd (members : list string) | CSrem (members : list string) | CSmembers | CScard
  | CSismember (member : string) | CSpop | CSscan (cursor : Z) (pattern : string) (count : Z).

Definition set_reply (c : SetCmd) : Type :=
  match c with
  | CSadd _ | CSrem _ => Res Z unit
  | CSmembers => Res bool (bool * list string)
  | CScard => Res Z bool
  | CSismember _ => Res bool (bool * bool)
  | CSpop => Res bool (option string)
  | CSscan _ _ _ => Res CollectionScanResult unit
  end.

Inductive ZSetCmd : Type :=
  | CZadd (members : list (double * string))
  | CZaddOpt (opt : ZaddOptions) (members : list (double * string))
  | CZrem (members : list string) | CZscore (member : string) | CZcard
  | CZrange (start stop : Z) (reverse : bool) | CZincrby (member : string) (increment : double)
  | CZrank (member : string) (reverse : bool)
  | CZrangeByScore (min max : string) (reverse : bool) (offset count : Z)
  | CZcount (min max : string) | CZpop (max : bool)
  | CZscan (cursor : Z) (pattern : string) (count : Z).

Definition zset_reply (c : ZSetCmd) : Type :=
  match c with
  | CZadd _ | CZaddOpt _ _ | CZrem _ => Res Z unit
  | CZscore _ => Res bool (option double)
  | CZcard | CZcount _ _ => Res Z bool
  | CZrange _ _ _ | CZrangeByScore _ _ _ _ _ => Res bool (bool * list (string * double))
  | CZincrby _ _ => Res bool (option (double * bool))
  | CZrank _ _ => Res bool (Z * bool)
  | CZpop _ => Res bool (option (string * double))
  | CZscan _ _ _ => Res CollectionScanResult unit
  end.

Inductive StreamCmd : Type :=
  | CXadd (fields : list (string * string)) | CXlen
  | CXrange (start end_ : string) (count : Z) (rev : bool) | CXdel (ids : list string)
  | CXtrim (maxlen : Z) | CXgroupDestroy (group : string)
  | CXack (group : string) (ids : list string)
  | CXclaim (group consumer : string) (min_idle_ms : Z) (ids : list string) (force : bool).

Definition stream_reply (c : StreamCmd) : Type :=
  match c with
  | CXadd _ => Res bool string
  | CXlen => Res Z bool
  | CXrange _ _ _ _ => Res bool (bool * list StreamEntry)
  | CXdel _ | CXtrim _ | CXack _ _ => Res Z unit
  | CXgroupDestroy _ => Res bool unit
  | CXclaim _ _ _ _ _ => Res bool (list StreamEntry)
  end.

Section families.
Context `{impl : !StdImpl}.

Definition run_str (c : StrCmd) (db : Z) (key : string) (now : Z) : KM (str_reply c) :=
  match c with
  | CGet => get db key now
  | CExists => exists_ db key now
  | CType => type db key now
  | CPersist => persist db key now
  | CTtl => ttl db key now
  | CPttl => pttl db key now
  | CStrlen => strlen db key now
  | CSetOpt value nx xx ex px => setOpt db key value nx xx ex px now
  | CExpire seconds => expire db key seconds now
  | CPexpire ms => pexpire db key ms now
  | CExpireAt sec => expireAt db key sec now
  | CPexpireAt ms => pexpireAt db key ms now
  | CIncrBy delta => incrBy db key delta now
  | CIncrByFloat delta => incrByFloat db key delta now
  | CAppend value => append db key value now
  | CGetex ex px persist => getex db key ex px persist now
  end.

Definition spec_str (c : StrCmd) (now : Z) : option AVal → option AVal * str_reply c :=
  match c with
  | CGet => spec_get
  | CExists => spec_exists
  | CType => spec_type
  | CPersist => spec_persist
  | CTtl => spec_ttl (λ ms, Z.quot (i64 (ms + 999)) 1000) now
  | CPttl => spec_ttl id now
  | CStrlen => spec_strlen
  | CSetOpt value nx xx ex px => spec_set value nx xx (set_deadline now ex px)
  | CExpire seconds => spec_expire seconds (i64 (now + i64 (seconds * 1000))) 1
  | CPexpire ms => spec_expire ms (i64 (now + ms)) 1
  | CExpireAt sec =>
      spec_expire sec (i64 (sec * 1000)) (if now <? i64 (sec * 1000) then 1 else 0)
  | CPexpireAt ms => spec_expire ms ms (if now <? ms then 1 else 0)
  | CIncrBy delta => spec_incrBy delta
  | CIncrByFloat delta => spec_incrByFloat delta
  | CAppend value => spec_append value
  | CGetex ex px persist => spec_getex now ex px persist
  end.

Definition str_evicts (c : StrCmd) : bool :=
  match c with CSetOpt _ _ _ _ _ | CAppend _ | CGetex _ _ _ => true | _ => false end.
Definition str_announces (c : StrCmd) : bool :=
  match c with
  | CExpire _ | CPexpire _ | CExpireAt _ | CPexpireAt _ | CTtl | CPttl => false
  | _ => true
  end.

Lemma str_command_ok c db key now :
  True → key_ok (before (str_evicts c) now) (str_announces c) now db key
           (run_str c db key now) (spec_str c now).
Proof.
  intros _. destruct c;
    [apply get_ok|apply exists_ok|apply type_ok|apply persist_ok|apply ttl_ok|apply pttl_ok
    |apply strlen_ok|apply setOpt_ok|apply expire_ok|apply pexpire_ok|apply expireAt_ok
    |apply pexpireAt_ok|apply incrBy_ok|apply incrByFloat_ok|apply append_ok|apply getex_ok].
Qed.

#[export] Instance str_commands : KeyCommands StrCmd := {|
  reply := str_reply; run := run_str; spec := spec_str; args_ok _ := True;
  evicts := str_evicts; announces := str_announces; command_ok := str_command_ok
|}.

Definition run_hash (c : HashCmd) (db : Z) (key : string) (now : Z) : KM (hash_reply c) :=
  match c with
  | CHset field value => hset db key field value now
  | CHget field => hget db key field now
  | CHdel field => hdel db key field now
  | CHexists field => hexists db key field now
  | CHlen => hlen db key now
  | CHgetall => hgetall db key now
  | CHincrby field delta => hincrby db key field delta now
  | CHsetFields fields => hsetFields db key fields now
  | CHscan cursor pattern count => hscan db key cursor pattern count now
  end.

Definition spec_hash (c : HashCmd) (now : Z) : option AVal → option AVal * hash_reply c :=
  match c with
  | CHset field value => spec_hset field value
  | CHget field => spec_hget field
  | CHdel field => spec_hdel field
  | CHexists field => spec_hexists field
  | CHlen => spec_hlen
  | CHgetall => spec_hgetall
  | CHincrby field delta => spec_hincrby field delta
  | CHsetFields fields => spec_hsetFields fields
  | CHscan cursor pattern count => spec_hscan cursor pattern count
  end.

Definition hash_args (c : HashCmd) : Prop :=
  match c with
  | CHincrby _ delta => in_i64 delta
  | CHsetFields fields => fields ≠ []
  | CHscan cursor _ _ => in_u64 cursor
  | _ => True
  end.
Definition hash_evicts (c : HashCmd) : bool :=
  match c with CHincrby _ _ => true | _ => false end.

Lemma hash_command_ok c db key now :
  hash_args c → key_ok (before (hash_evicts c) now) true now db key
                  (run_hash c db key now) (spec_hash c now).
Proof.
  intros Ha. destruct c;
    [apply hset_ok|apply hget_ok|apply hdel_ok|apply hexists_ok|apply hlen_ok|apply hgetall_ok
    |apply hincrby_ok|apply hsetFields_ok|apply hscan_ok]; exact Ha.
Qed.

#[export] Instance hash_commands : KeyCommands HashCmd := {|
  reply := hash_reply; run := run_hash; spec := spec_hash; args_ok := hash_args;
  evicts := hash_evicts; announces _ := true; command_ok := hash_command_ok
|}.

Definition run_list (c : ListCmd) (db : Z) (key : string) (now : Z) : KM (list_reply c) :=
  match c with
  | CPush values side => listPush db key values side now
  | CPop side => listPop db key side now
  | CLlen => listLen db key now
  | CLrange start stop => listRange db key start stop now
  | CLindex index => listIndex db key index now
  | CLtrim start stop => listTrim db key start stop now
  | CLset index value => listSet db key index value now
  | CLrem count value => listRem db key count value now
  | CLinsert before pivot value => listInsert db key before pivot value now
  end.

Definition spec_list (c : ListCmd) (now : Z) : option AVal → option AVal * list_reply c :=
  match c with
  | CPush values side => spec_listPush values side
  | CPop side => spec_listPop side
  | CLlen => spec_listLen
  | CLrange start stop => spec_listRange start stop
  | CLindex index => spec_listIndex index
  | CLtrim start stop => spec_listTrim start stop
  | CLset index value => spec_listSet index value
  | CLrem count value => spec_listRem count value
  | CLinsert before pivot value => spec_listInsert before pivot value
  end.

Definition list_args (c : ListCmd) : Prop :=
  match c with
  | CPush values _ => values ≠ []
  | CLrem count _ => - INT64_MAX ≤ count ≤ INT64_MAX
  | _ => True
  end.

Lemma list_command_ok c db key now :
  list_args c → key_ok (before false now) true now db key (run_list c db key now) (spec_list c now).
Proof.
  intros Ha. destruct c;
    [apply listPush_ok|apply listPop_ok|apply listLen_ok|apply listRange_ok|apply listIndex_ok
    |apply listTrim_ok|apply listSet_ok|apply listRem_ok|apply listInsert_ok]; exact Ha.
Qed.

#[export] Instance list_commands : KeyCommands ListCmd := {|
  reply := list_reply; run := run_list; spec := spec_list; args_ok := list_args;
  evicts _ := false; announces _ := true; command_ok := list_command_ok
|}.

Definition run_set (c : SetCmd) (db : Z) (key : string) (now : Z) : KM (set_reply c) :=
  match c with
  | CSadd members => setAdd db key members now
  | CSrem members => setRem db key members now
  | CSmembers => setMembers db key now
  | CScard => setCard db key now
  | CSismember member => setIsMember db key member now
  | CSpop => spop db key now
  | CSscan cursor pattern count => sscan db key cursor pattern count now
  end.

Definition spec_sets (c : SetCmd) (now : Z) : option AVal → option AVal * set_reply c :=
  match c with
  | CSadd members => spec_setAdd members
  | CSrem members => spec_setRem members
  | CSmembers => spec_setMembers
  | CScard => spec_setCard
  | CSismember member => spec_setIsMember member
  | CSpop => spec_spop
  | CSscan cursor pattern count => spec_sscan cursor pattern count
  end.

Definition set_args (c : SetCmd) : Prop :=
  match c with
  | CSadd members | CSrem members => members ≠ []
  | CSscan cursor _ _ => in_u64 cursor
  | _ => True
  end.
Definition set_evicts (c : SetCmd) : bool := match c with CSpop => true | _ => false end.

Lemma set_command_ok c db key now :
  set_args c → key_ok (before (set_evicts c) now) true now db key
                 (run_set c db key now) (spec_sets c now).
Proof.
  intros Ha. destruct c;
    [apply setAdd_ok|apply setRem_ok|apply setMembers_ok|apply setCard_ok
    |apply setIsMember_ok|apply spop_ok|apply sscan_ok]; exact Ha.
Qed.

#[export] Instance set_commands : KeyCommands SetCmd := {|
  reply := set_reply; run := run_set; spec := spec_sets; args_ok := set_args;
  evicts := set_evicts; announces _ := true; command_ok := set_command_ok
|}.

Definition run_zset (c : ZSetCmd) (db : Z) (key : string) (now : Z) : KM (zset_reply c) :=
  match c with
  | CZadd members => zadd db key members now
  | CZaddOpt opt members => zaddOpt db key opt members now
  | CZrem members => zrem db key members now
  | CZscore member => zscore db key member now
  | CZcard => zcard db key now
  | CZrange start stop reverse => zrange db key start stop reverse now
  | CZincrby member increment => zincrby db key member increment now
  | CZrank member reverse => zrank db key member reverse now
  | CZrangeByScore min max reverse offset count =>
      zrangeByScore db key min max reverse offset count now
  | CZcount min max => zcount db key min max now
  | CZpop max => zpop max db key now
  | CZscan cursor pattern count => zscan db key cursor pattern count now
  end.

Definition spec_zsets (c : ZSetCmd) (now : Z) : option AVal → option AVal * zset_reply c :=
  match c with
  | CZadd members => spec_zadd members
  | CZaddOpt opt members => spec_zaddOpt opt members
  | CZrem members => spec_zrem members
  | CZscore member => spec_zscore member
  | CZcard => spec_zcard
  | CZrange start stop reverse => spec_zrange start stop reverse
  | CZincrby member increment => spec_zincrby member increment
  | CZrank member reverse => spec_zrank member reverse
  | CZrangeByScore min max reverse offset count =>
      spec_zrangeByScore min max reverse offset count
  | CZcount min max => spec_zcount min max
  | CZpop max => spec_zpop max
  | CZscan cursor pattern count => spec_zscan cursor pattern count
  end.

Definition zset_args (c : ZSetCmd) : Prop :=
  match c with
  | CZadd members => members ≠ []
  | CZaddOpt opt members => members ≠ [] ∧ nx opt && xx opt = false ∧ gt opt && lt opt = false
  | CZrem members => members ≠ []
  | CZrangeByScore min max _ _ _ | CZcount min max =>
      is_Some (parseScoreBound min) ∧ is_Some (parseScoreBound max)
  | CZscan cursor _ _ => in_u64 cursor
  | _ => True
  end.
Definition zset_evicts (c : ZSetCmd) : bool := match c with CZpop _ => true | _ => false end.

Lemma zset_command_ok c db key now :
  zset_args c → key_ok (before (zset_evicts c) now) true now db key
                  (run_zset c db key now) (spec_zsets c now).
Proof.
  intros Ha. destruct c; simpl in Ha.
  - by apply zadd_ok.
  - destruct Ha as (?&?&?). by apply zaddOpt_ok.
  - by apply zrem_ok.
  - apply zscore_ok.
  - apply zcard_ok.
  - apply zrange_ok.
  - apply zincrby_ok.
  - apply zrank_ok.
  - destruct Ha as [[bmin ?] [bmax ?]]. by eapply zrangeByScore_ok.
  - destruct Ha as [[bmin ?] [bmax ?]]. by eapply zcount_ok.
  - apply zpop_ok.
  - by apply zscan_ok.
Qed.

#[export] Instance zset_commands : KeyCommands ZSetCmd := {|
  reply := zset_reply; run := run_zset; spec := spec_zsets; args_ok := zset_args;
  evicts := zset_evicts; announces _ := true; command_ok := zset_command_ok
|}.

Definition run_stream (c : StreamCmd) (db : Z) (key : string) (now : Z) : KM (stream_reply c) :=
  match c with
  | CXadd fields => xadd db key "*" fields now
  | CXlen => xlen db key now
  | CXrange start end_ count rev => xrange db key start end_ count rev now
  | CXdel ids => xdel db key ids now
  | CXtrim maxlen => xtrim db key maxlen now
  | CXgroupDestroy group => xgroupDestroy db key group now
  | CXack group ids => xack db key group ids now
  | CXclaim group consumer min_idle_ms ids force =>
      xclaim db key group consumer min_idle_ms ids force now
  end.

Definition spec_streams (c : StreamCmd) (now : Z) : option AVal → option AVal * stream_reply c :=
  match c with
  | CXadd fields => spec_xadd now "*" fields
  | CXlen => spec_xlen
  | CXrange start end_ count rev => spec_xrange start end_ count rev
  | CXdel ids => spec_xdel ids
  | CXtrim maxlen => spec_xtrim maxlen
  | CXgroupDestroy group => spec_xgroupDestroy group
  | CXack group ids => spec_xack group ids
  | CXclaim group consumer min_idle_ms ids force =>
      spec_xclaim now group consumer min_idle_ms ids force
  end.

Definition stream_args (c : StreamCmd) : Prop :=
  match c with
  | CXadd fields => fields ≠ []
  | CXtrim maxlen => 0 ≤ maxlen
  | _ => True
  end.
Definition stream_evicts (c : StreamCmd) : bool := match c with CXadd _ => true | _ => false end.

Lemma stream_command_ok c db key now :
  stream_args c → key_ok (before (stream_evicts c) now) true now db key
                    (run_stream c db key now) (spec_streams c now).
Proof.
  intros Ha. destruct c;
    [apply xadd_ok|apply xlen_ok|apply xrange_ok|apply xdel_ok|apply xtrim_ok
    |apply xgroupDestroy_ok|apply xack_ok|apply xclaim_ok]; exact Ha.
Qed.

#[export] Instance stream_commands : KeyCommands StreamCmd := {|
  reply := stream_reply; run := run_stream; spec := spec_streams; args_ok := stream_args;
  evicts := stream_evicts; announces _ := true; command_ok := stream_command_ok
|}.

(** Two families side by side. *)
Section sum.
Context {A B : Type} `{FA : !KeyCommands A} `{FB : !KeyCommands B}.

Definition sum_reply (c : A + B) : Type :=
  match c with inl a => reply a | inr b => reply b end.
Definition sum_run (c : A + B) : Z → string → Z → KM (sum_reply c) :=
  match c with inl a => run a | inr b => run b end.
Definition sum_spec (c : A + B) : Z → option AVal → option AVal * sum_reply c :=
  match c with inl a => spec a | inr b => spec b end.
Definition sum_args (c : A + B) : Prop :=
  match c with inl a => args_ok a | inr b => args_ok b end.
Definition sum_evicts (c : A + B) : bool :=
  match c with inl a => evicts a | inr b => evicts b end.
Definition sum_announces (c : A + B) : bool :=
  match c with inl a => announces a | inr b => announces b end.

Lemma sum_command_ok c db key now :
  sum_args c → key_ok (before (sum_evicts c) now) (sum_announces c) now db key
                 (sum_run c db key now) (sum_spec c now).
Proof. destruct c; apply command_ok. Qed.

#[export] Instance sum_commands : KeyCommands (A + B) := {|
  reply := sum_reply; run := sum_run; spec := sum_spec; args_ok := sum_args;
  evicts := sum_evicts; announces := sum_announces; command_ok := sum_command_ok
|}.
End sum.
End families.

(** All the one-key commands. *)
Definition Command : Type := (StrCmd + HashCmd) + (ListCmd + SetCmd) + (ZSetCmd + StreamCmd).
