(* ===== verification/Refinement.v ===== *)
(** * Refinement of the abstract keyspace

    The abstract keyspace maps [(db, key)] to a typed value with its expiry time;
    nothing is ever removed from it because of time.  [commands_refine] is the
    refinement of one command of any family, [trace_refines] that of a sequence of
    commands whose clock does not run backwards, [commands_announce] what watchers are
    told.  The theorems for the families instantiate them. *)

From stdpp Require Import options.
From stdpp Require Import vector finite.
From S2P Require Import Prelude.
From S2P Require Import CStd.
From S2P Require Import Double.
From S2P Require Import Store.
From S2P Require Import Evict.
From S2P Require Import StoreFacts.
From S2P Require Import StrOps.
From S2P Require Import HashOps.
From S2P Require Import ListOps.
From S2P Require Import SetOps.
From S2P Require Import ZSetOps.
From S2P Require Import StreamOps.
From S2P Require Import KeySpace.
From S2P Require Import EvictFacts.
From S2P Require Import Commands.

#[local] Set Default Proof Using "Type*".

(** ** The abstract keyspace *)

Definition Keyspace : Type := Z → string → option AVal.
Definition empty_keyspace : Keyspace := λ _ _, None.

Record Request (C : Type) : Type := mkRequest {
  rq_cmd : C; rq_db : Z; rq_key : string; rq_now : Z
}.
Arguments mkRequest {C} _ _ _ _.
Arguments rq_cmd {C} _.
Arguments rq_db {C} _.
Arguments rq_key {C} _.
Arguments rq_now {C} _.

Section interface.
Context `{impl : !StdImpl} {C : Type} `{family : !KeyCommands C}.

Lemma before_wf b now s : wf s → wf (before b now s).
Proof. destruct b; [apply evict_wf|done]. Qed.

Lemma before_off b now s : evict_off s = true → before b now s = s.
Proof. intros. destruct b; [|done]. by apply evict_off_id. Qed.

(** What a command of any family does to a well-formed store. *)
Definition refines_spec (c : C) (db : Z) (key : string) (now : Z) (s : KvStore) : Prop :=
  let s0 := before (evicts c) now s in
  let s' := (run c db key now s).1 in
  let r := spec c now (view s0 now db key) in
  wf s' ∧ (run c db key now s).2 = r.2 ∧
  (∀ t, view s' t db key = av_live t r.1) ∧
  (∀ t db' key', (db', key') ≠ (db, key) → view s' t db' key' = view s0 t db' key').

Lemma commands_refine c db key now s :
  args_ok c → wf s → refines_spec c db key now s.
Proof.
  intros Ha Hs. eapply key_refines; [by apply command_ok|by apply before_wf].
Qed.

Lemma run_config c db key now s :
  args_ok c →
  m_maxmemory (run c db key now s).1 = m_maxmemory (before (evicts c) now s) ∧
  m_maxmemory_policy (run c db key now s).1 = m_maxmemory_policy (before (evicts c) now s).
Proof.
  intros Ha. destruct (command_ok c db key now Ha s) as (o' & n & (_ & _ & _ & H1 & H2) & _).
  by rewrite H1, H2.
Qed.

(** ** Sequences of commands *)

Fixpoint run_all (rqs : list (Request C)) (s : KvStore) : KvStore * list {c : C & reply c} :=
  match rqs with
  | [] => (s, [])
  | rq :: rqs =>
      let '(s1, r) := run (rq_cmd rq) (rq_db rq) (rq_key rq) (rq_now rq) s in
      let '(s2, rs) := run_all rqs s1 in (s2, existT (rq_cmd rq) r :: rs)
  end.

Fixpoint spec_all (rqs : list (Request C)) (K : Keyspace) : Keyspace * list {c : C & reply c} :=
  match rqs with
  | [] => (K, [])
  | rq :: rqs =>
      let '(o, r) := spec (rq_cmd rq) (rq_now rq)
                       (av_live (rq_now rq) (K (rq_db rq) (rq_key rq))) in
      let K1 : Keyspace := λ db key,
        if decide ((db, key) = (rq_db rq, rq_key rq)) then o else K db key in
      let '(K2, rs) := spec_all rqs K1 in (K2, existT (rq_cmd rq) r :: rs)
  end.

(** The store [s] holds the keyspace [K]: at any time it shows [K]'s unexpired values. *)
Definition holds_keyspace (s : KvStore) (from : Z) (K : Keyspace) : Prop :=
  ∀ t db key, from ≤ t → view s t db key = av_live t (K db key).

Fixpoint clock_from (t : Z) (rqs : list (Request C)) : Prop :=
  match rqs with
  | [] => True
  | rq :: rqs => t ≤ rq_now rq ∧ clock_from (rq_now rq) rqs
  end.

Definition last_clock (t : Z) (rqs : list (Request C)) : Z := foldl (λ _ rq, rq_now rq) t rqs.

Lemma run_all_refines rqs s t K :
  wf s → evict_off s = true → Forall (λ rq, args_ok (rq_cmd rq)) rqs →
  clock_from t rqs → holds_keyspace s t K →
  (run_all rqs s).2 = (spec_all rqs K).2 ∧
  wf (run_all rqs s).1 ∧
  holds_keyspace (run_all rqs s).1 (last_clock t rqs) (spec_all rqs K).1.
Proof.
  revert s t K. induction rqs as [|[c db key now] rqs IH]; intros s t K Hs Hoff Ha Hc HK; [done|].
  apply Forall_cons in Ha as [Ha Hargs]. destruct Hc as [Ht Hc]. simpl in *.
  pose proof (commands_refine c db key now s Ha Hs) as Href. unfold refines_spec in Href.
  pose proof (run_config c db key now s Ha) as Hconf.
  rewrite before_off in Href, Hconf by done. destruct Href as (Hwf & Hr & Hv & Hframe).
  rewrite (HK now db key) in Hr, Hv by done.
  destruct (run c db key now s) as [s1 r]. simpl in *.
  destruct (spec c now (av_live now (K db key))) as [o r']. simpl in *. subst r'.
  set (K1 := λ db' key', if decide ((db', key') = (db, key)) then o else K db' key').
  destruct (IH s1 now K1) as (Hrs & Hwf2 & HK2); [done| |done..| |].
  { unfold evict_off in *. by destruct Hconf as [-> ->]. }
  { intros t' db' key' Ht'. unfold K1. destruct (decide ((db', key') = (db, key))) as [[= -> ->]|Hne].
    - apply Hv.
    - rewrite (Hframe t' db' key' Hne). apply HK. lia. }
  unfold last_clock in *. simpl.
  destruct (run_all rqs s1) as [s2 rs]. destruct (spec_all rqs K1) as [K2 rs']. simpl in *.
  by rewrite Hrs.
Qed.

(** ** Watching *)

Lemma commands_announce c db key now s :
  args_ok c → announces c = true → wf s →
  let s0 := before (evicts c) now s in
  m_hasWatches (getShard s0 key) = true → in_u64 (watch_version s0 db key) →
  let o := view s0 now db key in
  av_value <$> (spec c now o).1 ≠ av_value <$> o →
  shard_watchToken db key (getShard (run c db key now s).1 key) ≠
  shard_watchToken db key (getShard s0 key).
Proof.
  intros Ha Hann Hs s0 Hw Hv o Hne. pose proof (command_ok c db key now Ha) as Hok.
  rewrite Hann in Hok. eapply key_watch; [exact Hok|by apply before_wf|done..].
Qed.

Lemma commands_quiet c db key now s db' key' :
  args_ok c → (db', key') ≠ (db, key) → wf s →
  watch_version (run c db key now s).1 db' key' =
  watch_version (before (evicts c) now s) db' key'.
Proof.
  intros Ha Hne Hs. eapply key_watch_frame; [by apply command_ok|done|by apply before_wf].
Qed.
End interface.
