(* ===== verification/MultiKey.v ===== *)
(** * Commands over several keys

    The commands that fold over keys or sweep a database, stated on the views of the
    store: [unchanged] is the relation between stores no client can tell apart from
    time [now] on. *)

From stdpp Require Import vector finite.
From stdpp Require Import options.
From S2P Require Import Prelude.
From S2P Require Import CStd.
From S2P Require Import Glob.
From S2P Require Import Scan.
From S2P Require Import Store.
From S2P Require Import Evict.
From S2P Require Import StoreFacts.
From S2P Require Import StrOps.
From S2P Require Import SetOps.
From S2P Require Import StreamOps.
From S2P Require Import KeySpace.
From S2P Require Import EvictFacts.
From S2P Require Import KeyOps.

#[local] Set Default Proof Using "Type*".

Section multi.
Context `{impl : !StdImpl}.

(** ** Stores a client cannot tell apart *)

Record unchanged (now : Z) (s s' : KvStore) : Prop := {
  un_view t db key : now ≤ t → view s' t db key = view s t db key;
  un_version db key : watch_version s' db key = watch_version s db key;
  un_wf : wf s → wf s'
}.

Lemma unchanged_refl now s : unchanged now s s.
Proof. by split. Qed.

Lemma unchanged_trans now s1 s2 s3 :
  unchanged now s1 s2 → unchanged now s2 s3 → unchanged now s1 s3.
Proof.
  intros [Hv1 He1 Hw1] [Hv2 He2 Hw2]. split; [|congruence|auto].
  intros t db key Ht. by rewrite Hv2, Hv1.
Qed.

Lemma view_live now s t db key :
  now ≤ t → av_live t (abs_entry <$> live s now db key) = view s t db key.
Proof. intros Ht. unfold live. by rewrite abs_live_of, view_raw, av_live_later. Qed.

Lemma watch_version_write_key db key o n s db' key' :
  (db', key') ≠ (db, key) ∨ n = 0%nat →
  watch_version (write_key db key o n s) db' key' = watch_version s db' key'.
Proof.
  intros Hne. rewrite !watch_version_shard. unfold write_key.
  destruct (decide (shardIdx key = shardIdx key')) as [E|E].
  - unfold getShard. rewrite <-E. unfold set_shard; simpl. rewrite vlookup_insert.
    destruct Hne as [Hne| ->].
    + by apply shard_version_ne.
    + unfold write_slot; simpl. unfold shard_version, set_db, set_dbs; simpl. done.
  - by rewrite getShard_set_shard_ne.
Qed.

(** Writing the live entry back, touched or not, is invisible. *)
Lemma unchanged_write_live now s db key o :
  abs_entry <$> o = abs_entry <$> live s now db key → (wf s → coherent_opt o) →
  unchanged now s (write_key db key o 0 s).
Proof.
  intros Ho Hco. split.
  - intros t db' key' Ht. destruct (decide ((db', key') = (db, key))) as [[= -> ->]|Hne].
    + rewrite view_write_key, Ho. by apply view_live.
    + by apply view_write_key_ne.
  - intros db' key'. apply watch_version_write_key. by right.
  - intros Hs. apply wf_write_key; auto.
Qed.

Lemma unchanged_equiv now s s1 s2 : s1 ≡ s2 → unchanged now s s1 → unchanged now s s2.
Proof.
  intros Heq [Hv He Hw]. split.
  - intros t db key Ht. by rewrite <-Heq, Hv.
  - intros db key. rewrite <-He. unfold watch_version.
    destruct Heq as [Heq _]. destruct (Heq (shardIdx key)) as (_ & Hver & _).
    unfold getShard. by rewrite Hver.
  - intros Hs. rewrite <-Heq. auto.
Qed.

Lemma live_unchanged now s s' db key :
  unchanged now s s' → abs_entry <$> live s' now db key = abs_entry <$> live s now db key.
Proof. intros [Hv _ _]. by apply Hv. Qed.

Lemma live_coherent now s db key : wf s → coherent_opt (live s now db key).
Proof. intros. by apply coherent_live, wf_coherent. Qed.

(** The lookup of one key finds its live entry and changes nothing. *)
Lemma lookup_key_spec db key now s :
  (lookup_key db key now s).2 = live s now db key ∧
  unchanged now s (lookup_key db key now s).1.
Proof.
  unfold lookup_key. rewrite on_shard_run; simpl.
  destruct (findEntryDb_run db key now (getShard s key)) as [Heq Hr].
  split; [by rewrite Hr|].
  eapply unchanged_equiv; [symmetry; by apply shard_equiv_insert|].
  change (unchanged now s (write_key db key (live s now db key) 0 s)).
  apply unchanged_write_live; [done|]. intros. by apply live_coherent.
Qed.

(** An assignment to an entry's fields outside its value: [touchEntry]. *)
Lemma put_live_spec db key now s e e' :
  live s now db key = Some e → abs_entry e' = abs_entry e → (coherent e → coherent e') →
  unchanged now s (on_shard key (putEntry db key e') s).1.
Proof.
  intros Hl Ha Hc. rewrite on_shard_run; simpl.
  change (unchanged now s (write_key db key (Some e') 0 s)).
  apply unchanged_write_live; [by rewrite Hl; simpl; rewrite Ha|].
  intros Hs. apply Hc. pose proof (live_coherent now s db key Hs) as H. by rewrite Hl in H.
Qed.

Lemma touch_key_spec touch db key now s e :
  live s now db key = Some e →
  unchanged now s (touch_key touch db key now e s).1.
Proof.
  intros Hl. unfold touch_key. destruct touch; [|apply unchanged_refl].
  apply (put_live_spec db key now s e); [done|by destruct e|by destruct e].
Qed.

(** ** Counting and deleting *)

Definition is_live (s : KvStore) (now db : Z) (key : string) : bool :=
  bool_decide (is_Some (view s now db key)).

Lemma is_live_entry s now db key :
  is_live s now db key = match live s now db key with Some _ => true | None => false end.
Proof.
  unfold is_live, view. by destruct (live s now db key).
Qed.

Lemma is_live_unchanged now s s' db key :
  unchanged now s s' → is_live s' now db key = is_live s now db key.
Proof. intros [Hv _ _]. unfold is_live. by rewrite Hv. Qed.

Lemma exists_loop_spec db keys now n s :
  (exists_loop db keys now n s).2 =
    n + Z.of_nat (length (filter (λ key, is_live s now db key = true) keys)) ∧
  unchanged now s (exists_loop db keys now n s).1.
Proof.
  revert n s. induction keys as [|key keys IH]; intros n s; cbn [exists_loop].
  { rewrite filter_nil. cbn. split; [lia|apply unchanged_refl]. }
  rewrite bind_run. destruct (lookup_key_spec db key now s) as [Hl Hu].
  rewrite Hl. destruct (IH (match live s now db key with Some _ => n + 1 | None => n end)
                          (lookup_key db key now s).1) as [Hr Hu2].
  split; [|by eapply unchanged_trans]. rewrite Hr, filter_cons, is_live_entry.
  assert (filter (λ key0, is_live (lookup_key db key now s).1 now db key0 = true) keys =
          filter (λ key0, is_live s now db key0 = true) keys) as ->.
  { apply list_filter_iff. intros k. by rewrite (is_live_unchanged _ _ _ _ _ Hu). }
  destruct (live s now db key); [rewrite decide_True by done; cbn [length]; lia|by rewrite decide_False by done].
Qed.

(** [EXISTS] counts the live keys, with multiplicity. *)
Lemma existsMany_spec db keys now s :
  (existsMany db keys now s).2 =
    Z.of_nat (length (filter (λ key, is_live s now db key = true) keys)) ∧
  unchanged now s (existsMany db keys now s).1.
Proof.
  unfold existsMany. case_bool_decide as Hk.
  - subst keys. split; [done|apply unchanged_refl].
  - apply (exists_loop_spec db keys now 0 s).
Qed.

Lemma erase_bump_write db key s :
  (on_shard key (eraseEntry db key ;; bumpWatchKey db key) s).1 = write_key db key None 1 s.
Proof.
  rewrite on_shard_run. cbn [fst]. by rewrite bind_run.
Qed.

Lemma view_erase db key s db' key' t :
  view (write_key db key None 1 s) t db' key' =
  if decide ((db', key') = (db, key)) then None else view s t db' key'.
Proof.
  destruct (decide ((db', key') = (db, key))) as [[= -> ->]|Hne].
  - by rewrite view_write_key.
  - by rewrite view_write_key_ne.
Qed.

(** [DEL] removes exactly the keys named, counts the live ones once each. *)
Lemma del_loop_spec db keys now n s :
  let s' := (del_loop db keys now n s).1 in
  (del_loop db keys now n s).2 =
    n + Z.of_nat (size (filter (λ key, is_live s now db key = true) (list_to_set keys : gset string))) ∧
  (wf s → wf s') ∧
  (∀ t db' key', now ≤ t → view s' t db' key' =
     if decide (db' = db ∧ key' ∈ keys) then None else view s t db' key').
Proof.
  revert n s. induction keys as [|key keys IH]; intros n s; cbn [del_loop]; cbv zeta.
  { simpl. rewrite filter_empty_set, size_empty. split_and!; [lia|done|].
    intros t db' key' _. case_decide as Hd; [|done]. by destruct Hd as [_ Hd%elem_of_nil]. }
  rewrite bind_run. destruct (lookup_key_spec db key now s) as [Hl Hu]. rewrite Hl.
  set (s1 := (lookup_key db key now s).1) in *.
  assert (∀ k, is_live s1 now db k = is_live s now db k) as Hlive
    by (intros; by apply is_live_unchanged).
  pose proof (is_live_entry s now db key) as Hkey.
  destruct (live s now db key) as [e|].
  - rewrite bind_run, erase_bump_write. set (s2 := write_key db key None 1 s1).
    destruct (IH (n + 1) s2) as (Hr & Hw & Hv). cbv zeta in Hr. rewrite Hr. split_and!.
    + replace (filter (λ k, is_live s now db k = true) (list_to_set (key :: keys) : gset string))
        with ({[key]} ∪ filter (λ k, is_live s2 now db k = true) (list_to_set keys : gset string)).
      2:{ apply set_eq. intros k. simpl. rewrite elem_of_union, !elem_of_filter, elem_of_union.
          rewrite elem_of_singleton. unfold is_live at 1. unfold s2.
          rewrite view_erase. destruct (decide ((db, k) = (db, key))) as [[= ->]|Hne].
          - rewrite bool_decide_eq_false_2 by (by intros [? ?]). naive_solver.
          - fold (is_live s1 now db k). rewrite Hlive. naive_solver. }
      rewrite size_union, size_singleton; [lia|].
      intros k ->%elem_of_singleton [Hk _]%elem_of_filter.
      unfold is_live, s2 in Hk. rewrite view_erase, decide_True in Hk by done. done.
    + intros Hs. apply Hw, wf_write_key; [by apply Hu|done].
    + intros t db' key' Ht. rewrite Hv by done. unfold s2. rewrite view_erase.
      rewrite (un_view now s s1 Hu) by done.
      destruct (decide (db' = db ∧ key' ∈ keys)) as [[-> Hin]|Hn].
      * rewrite decide_True; [done|]. split; [done|by right].
      * destruct (decide ((db', key') = (db, key))) as [[= -> ->]|Hne].
        -- rewrite decide_True; [done|]. split; [done|by left].
        -- rewrite decide_False; [done|]. rewrite elem_of_cons. intros [-> [->|?]]; naive_solver.
  - destruct (IH n s1) as (Hr & Hw & Hv). cbv zeta in Hr. rewrite Hr. split_and!.
    + do 2 f_equal. f_equal. apply set_eq. intros k. simpl.
      rewrite !elem_of_filter, elem_of_union, elem_of_singleton, Hlive. split; [intros [? ?]; auto|]. intros [? [->|?]]; [congruence|done].
    + intros Hs. by apply Hw, Hu.
    + intros t db' key' Ht. rewrite Hv by done. rewrite (un_view now s s1 Hu) by done.
      destruct (decide (db' = db ∧ key' ∈ keys)) as [[-> Hin]|Hn].
      * rewrite decide_True; [done|]. split; [done|by right].
      * destruct (decide (db' = db ∧ key' ∈ key :: keys)) as [[-> Hin]|]; [|done].
        apply elem_of_cons in Hin as [->|?]; [|by destruct Hn].
        unfold is_live in Hkey. apply bool_decide_eq_false_1 in Hkey.
        rewrite (view_later s now t) by done. destruct (view s now db key); [|done].
        destruct Hkey. eauto.
Qed.

Lemma delMany_spec db keys now s :
  let s' := (delMany db keys now s).1 in
  (delMany db keys now s).2 =
    Z.of_nat (size (filter (λ key, is_live s now db key = true) (list_to_set keys : gset string))) ∧
  (wf s → wf s') ∧
  (∀ t db' key', now ≤ t → view s' t db' key' =
     if decide (db' = db ∧ key' ∈ keys) then None else view s t db' key').
Proof.
  unfold delMany. case_bool_decide as Hk; [|apply (del_loop_spec db keys now 0 s)].
  subst keys. cbn. rewrite filter_empty_set, size_empty. split_and!; [done|done|].
  intros t db' key' _. case_decide as Hd; [|done]. by destruct Hd as [_ Hd%elem_of_nil].
Qed.
End multi.

(** ** MSETNX and RENAME

    The commands that write several keys under one lock: what they leave at every key,
    and whom they announce the change to. *)

Section moves.
Context `{impl : !StdImpl}.

(** ** MSETNX *)

Lemma msetnx_check_spec db pairs now s :
  (msetnx_check db pairs now s).2 = forallb (λ p, negb (is_live s now db p.1)) pairs ∧
  unchanged now s (msetnx_check db pairs now s).1.
Proof.
  revert s. induction pairs as [|p pairs IH]; intros s; cbn [msetnx_check forallb].
  { split; [done|apply unchanged_refl]. }
  rewrite bind_run. destruct (lookup_key_spec db p.1 now s) as [Hl Hu].
  rewrite Hl, is_live_entry. destruct (live s now db p.1) as [e|]; cbn [negb andb].
  - split; [done|exact Hu].
  - destruct (IH (lookup_key db p.1 now s).1) as [Hr Hu2].
    split; [|by eapply unchanged_trans]. rewrite Hr.
    clear -Hu. induction pairs as [|q pairs IH]; [done|]. cbn [forallb].
    by rewrite (is_live_unchanged _ _ _ _ _ Hu), IH.
Qed.

(** The value a string write without an expiry time leaves. *)
Definition plain_string (v : string) : AVal := mkAVal (VString v) 0.

Lemma msetnx_entry_abs v now e : abs_entry (msetnx_entry v now e) = plain_string v.
Proof. by destruct e. Qed.

Lemma msetnx_entry_coherent v now e : coherent (msetnx_entry v now e).
Proof. destruct e. split_and!; done. Qed.

(** The entry one assignment finds: expired or not, its fields are all overwritten. *)
Lemma msetnx_assign db key value now s :
  (on_shard key (
     e ← gets (λ sh, default Entry0 (db_map sh db !! key));
     putEntry db key (msetnx_entry value now e) ;;
     bumpWatchKey db key) s).1 =
  write_key db key (Some (msetnx_entry value now (default Entry0 (raw s db key)))) 1 s.
Proof. by rewrite on_shard_run. Qed.

Lemma msetnx_write_spec db pairs now s :
  let s' := (msetnx_write db pairs now s).1 in
  (wf s → wf s') ∧
  (∀ t db' key', view s' t db' key' =
     if decide (db' = db) then
       match (list_to_map (reverse pairs) : gmap string string) !! key' with
       | Some v => Some (plain_string v)
       | None => view s t db' key'
       end
     else view s t db' key').
Proof.
  revert s. induction pairs as [|[key v] pairs IH]; intros s; cbn [msetnx_write fst snd]; cbv zeta.
  { split; [done|]. intros t db' key'. by case_decide. }
  rewrite bind_run, msetnx_assign. set (e' := msetnx_entry _ _ _).
  destruct (IH (write_key db key (Some e') 1 s)) as [Hw Hv]. split.
  { intros Hs. apply Hw, wf_write_key; [done|]. apply msetnx_entry_coherent. }
  intros t db' key'. rewrite Hv. case_decide as Hdb; [subst db'|].
  - rewrite reverse_cons, list_to_map_app.
    destruct ((list_to_map (reverse pairs) : gmap string string) !! key') as [w|] eqn:E.
    + by rewrite (lookup_union_Some_l _ _ _ _ E).
    + rewrite lookup_union_r by done. simpl. destruct (decide (key' = key)) as [->|Hk].
      * rewrite lookup_insert_eq, view_write_key. unfold e'. simpl fmap.
        by rewrite msetnx_entry_abs.
      * rewrite lookup_insert_ne by done. rewrite lookup_empty. apply view_write_key_ne. congruence.
  - apply view_write_key_ne. congruence.
Qed.

(** All keys or none: the last pair of a key wins. *)
Lemma msetnx_spec db pairs now s :
  let s' := (msetnx db pairs now s).1 in
  let free := forallb (λ p, negb (is_live s now db p.1)) pairs in
  (msetnx db pairs now s).2 = (if free then 1 else 0) ∧
  (wf s → wf s') ∧
  (∀ t db' key', now ≤ t → view s' t db' key' =
     match (list_to_map (reverse pairs) : gmap string string) !! key' with
     | Some v => if free && bool_decide (db' = db) then Some (plain_string v)
                 else view s t db' key'
     | None => view s t db' key'
     end).
Proof.
  unfold msetnx. cbv zeta. case_bool_decide as Hp.
  { subst pairs. split_and!; [done..|]. intros t db' key' _. by rewrite reverse_nil. }
  rewrite !bind_run. destruct (msetnx_check_spec db pairs now s) as [Hr Hu]. rewrite Hr.
  destruct (forallb _ pairs).
  - rewrite !bind_run. cbn [snd fst andb].
    destruct (msetnx_write_spec db pairs now (msetnx_check db pairs now s).1) as [Hw Hv].
    split_and!; [done|intros Hs; by apply Hw, Hu|]. intros t db' key' Ht. cbn [mret state_ret].
    simpl. rewrite Hv. rewrite (un_view now s _ Hu) by done.
    case_bool_decide as Hd; [by rewrite decide_True|rewrite decide_False by done]. by destruct (_ !! key').
  - cbn [andb]. split_and!; [done|intros Hs; by apply Hu|]. intros t db' key' Ht. simpl.
    rewrite (un_view now s _ Hu) by done. by destruct (_ !! key').
Qed.

(** ** RENAME *)

(** [bumpWatchKey] alone. *)
Lemma bump_key_spec db key s :
  let s' := (on_shard key (bumpWatchKey db key) s).1 in
  (∀ t db' key', view s' t db' key' = view s t db' key') ∧ (wf s → wf s') ∧
  (∀ db' key', (db', key') ≠ (db, key) → watch_version s' db' key' = watch_version s db' key').
Proof.
  cbv zeta. rewrite on_shard_run. unfold bumpWatchKey, modify. cbn [fst].
  assert (∀ i db', db_map (m_shards (set_shard (shardIdx key)
            (bump_watch db key (getShard s key)) s) !!! i) db' =
          db_map (m_shards s !!! i) db') as Hmap.
  { intros i db'. unfold set_shard. simpl. destruct (decide (shardIdx key = i)) as [<-|].
    - by rewrite vlookup_insert, db_map_bump.
    - by rewrite vlookup_insert_ne. }
  split_and!.
  - intros t db' key'. unfold view, live, raw, getShard. by rewrite Hmap.
  - intros Hs i db' key' e. rewrite Hmap. apply Hs.
  - intros db' key' Hne. rewrite !watch_version_shard.
    destruct (decide (shardIdx key = shardIdx key')) as [E|E].
    + assert (getShard s key = getShard s key') as Hg by (unfold getShard; by rewrite E).
      unfold getShard at 1. rewrite <-E. unfold set_shard. simpl. rewrite vlookup_insert.
      rewrite <-Hg. set (sh := getShard s key). unfold shard_version, bump_watch.
      destruct (m_hasWatches sh); [|done]. simpl.
      destruct (decide (db = db')) as [->|]; [|by rewrite lookup_insert_ne].
      rewrite lookup_insert_eq. simpl. by rewrite lookup_insert_ne by congruence.
    + by rewrite getShard_set_shard_ne.
Qed.

Lemma erase_write db key s : (on_shard key (eraseEntry db key) s).1 = write_key db key None 0 s.
Proof. by rewrite on_shard_run. Qed.
Lemma put_write db key e s :
  (on_shard key (putEntry db key e) s).1 = write_key db key (Some e) 0 s.
Proof. by rewrite on_shard_run. Qed.

(** The store after a successful rename, before the announcements. *)
Definition renamed (db : Z) (src dst : string) (e : Entry) (s : KvStore) : KvStore :=
  write_key db dst (Some e) 0 (write_key db src None 0 s).

Lemma view_renamed db src dst e s t db' key' :
  src ≠ dst →
  view (renamed db src dst e s) t db' key' =
    if decide ((db', key') = (db, src)) then None
    else if decide ((db', key') = (db, dst)) then av_live t (Some (abs_entry e))
    else view s t db' key'.
Proof.
  intros Hne. unfold renamed. destruct (decide ((db', key') = (db, dst))) as [[= -> ->]|Hd].
  - rewrite view_write_key, decide_False by congruence. done.
  - rewrite view_write_key_ne by done.
    destruct (decide ((db', key') = (db, src))) as [[= -> ->]|Hs].
    + by rewrite view_write_key.
    + by apply view_write_key_ne.
Qed.

Lemma renameKey_run db src dst nx now s :
  src ≠ dst →
  ∃ s2, unchanged now s s2 ∧
  match live s now db src with
  | None => renameKey db src dst nx now s = (s2, fail (-2) tt err_no_key)
  | Some e =>
      if nx && is_live s now db dst then renameKey db src dst nx now s = (s2, ok 0 tt)
      else
        let s3 := if is_live s now db dst then write_key db dst None 1 s2 else s2 in
        let s4 := (on_shard src (bumpWatchKey db src)
                     (renamed db src dst (touchEntry now e) s3)).1 in
        renameKey db src dst nx now s =
          (if bool_decide (shardIdx src = shardIdx dst) then s4
           else (on_shard dst (bumpWatchKey db dst) s4).1, ok 1 tt)
  end.
Proof.
  intros Hne. unfold renameKey. rewrite bool_decide_eq_false_2 by done.
  rewrite bind_run. destruct (lookup_key_spec db src now s) as [Hl Hu]. rewrite Hl.
  destruct (live s now db src) as [e|]; [|eexists; split; [exact Hu|done]].
  rewrite bind_run. set (s1 := (lookup_key db src now s).1) in *.
  destruct (lookup_key_spec db dst now s1) as [Hl2 Hu2]. rewrite Hl2.
  assert (is_live s now db dst = match live s1 now db dst with Some _ => true | None => false end)
    as -> by (rewrite <-is_live_entry; symmetry; by apply is_live_unchanged).
  exists (lookup_key db dst now s1).1. split; [by eapply unchanged_trans|].
  set (s2 := (lookup_key db dst now s1).1). destruct (nx && _); [done|].
  rewrite bind_run.
  replace ((match live s1 now db dst with Some _ => on_shard dst (eraseEntry db dst ;; bumpWatchKey db dst)
           | None => mret () end) s2).1 with
    (if match live s1 now db dst with Some _ => true | None => false end
     then write_key db dst None 1 s2 else s2)
    by (destruct (live s1 now db dst); [by rewrite erase_bump_write|done]).
  set (s3 := if match live s1 now db dst with Some _ => true | None => false end
             then write_key db dst None 1 s2 else s2).
  rewrite bind_run, erase_write, bind_run, put_write, bind_run.
  fold (renamed db src dst (touchEntry now e) s3). cbv zeta.
  rewrite bind_run. by case_bool_decide.
Qed.

Lemma renameKey_spec db src dst nx now s :
  src ≠ dst →
  let s' := (renameKey db src dst nx now s).1 in
  let r := (renameKey db src dst nx now s).2 in
  match view s now db src with
  | None => r = fail (-2) tt err_no_key ∧ unchanged now s s'
  | Some a =>
      if nx && is_live s now db dst then r = ok 0 tt ∧ unchanged now s s'
      else r = ok 1 tt ∧ (wf s → wf s') ∧
        ∀ t db' key', now ≤ t → view s' t db' key' =
          if decide ((db', key') = (db, src)) then None
          else if decide ((db', key') = (db, dst)) then av_live t (Some a)
          else view s t db' key'
  end.
Proof.
  intros Hne. cbv zeta. destruct (renameKey_run db src dst nx now s Hne) as (s2 & Hu & Hrun).
  pose proof (live_coherent now s db src) as Hco. unfold view at 1.
  destruct (live s now db src) as [e|]; simpl fmap; [|by rewrite Hrun].
  destruct (nx && is_live s now db dst); [by rewrite Hrun|]. cbv zeta in Hrun.
  set (s3 := if is_live s now db dst then write_key db dst None 1 s2 else s2) in *.
  assert ((wf s → wf s3) ∧ ∀ t db' key', now ≤ t → (db', key') ≠ (db, dst) →
            view s3 t db' key' = view s t db' key') as [Hw3 Hv3].
  { unfold s3. destruct (is_live s now db dst).
    - split; [intros; apply wf_write_key; [by apply Hu|done]|].
      intros t db' key' Ht Hd. rewrite view_write_key_ne by done. by apply Hu.
    - split; [apply Hu|]. intros. by apply Hu. }
  set (s4 := renamed db src dst (touchEntry now e) s3) in *.
  assert (wf s → wf s4) as Hw4.
  { intros Hs. apply wf_write_key; [apply wf_write_key; [auto|done]|].
    specialize (Hco Hs). by destruct e. }
  pose proof (bump_key_spec db src s4) as (Hv5 & Hw5 & _). cbv zeta in Hv5, Hw5.
  set (s5 := (on_shard src (bumpWatchKey db src) s4).1) in *.
  pose proof (bump_key_spec db dst s5) as (Hv6 & Hw6 & _). cbv zeta in Hv6, Hw6.
  rewrite Hrun. cbn [fst snd]. split; [done|].
  assert (∀ t db' key', now ≤ t → view s5 t db' key' =
            if decide ((db', key') = (db, src)) then None
            else if decide ((db', key') = (db, dst)) then av_live t (Some (abs_entry e))
            else view s t db' key') as Hv.
  { intros t db' key' Ht. rewrite Hv5. unfold s4. rewrite view_renamed by done.
    destruct (decide ((db', key') = (db, src))); [done|].
    destruct (decide ((db', key') = (db, dst))); [by destruct e|]. by apply Hv3. }
  case_bool_decide; (split; [auto|]); intros t db' key' Ht; [|rewrite Hv6]; by apply Hv.
Qed.

(** The destination's watchers: no announcement when it did not exist and shares the
    source's shard; keys other than the two are never announced. *)
Lemma renameKey_watch db src dst nx now s db' key' :
  src ≠ dst →
  (db', key') ≠ (db, src) →
  (db', key') ≠ (db, dst) ∨ shardIdx src = shardIdx dst ∧ view s now db dst = None →
  watch_version (renameKey db src dst nx now s).1 db' key' = watch_version s db' key'.
Proof.
  intros Hne Hns Hd. destruct (renameKey_run db src dst nx now s Hne) as (s2 & Hu & Hrun).
  assert (watch_version s2 db' key' = watch_version s db' key') as Hv2 by apply Hu.
  destruct (live s now db src) as [e|]; [|by rewrite Hrun].
  destruct (nx && is_live s now db dst); [by rewrite Hrun|]. cbv zeta in Hrun.
  set (s3 := if is_live s now db dst then write_key db dst None 1 s2 else s2) in *.
  assert (watch_version s3 db' key' = watch_version s db' key') as Hv3.
  { unfold s3. destruct (is_live s now db dst) eqn:El; [|done].
    rewrite watch_version_write_key; [done|]. left. destruct Hd as [Hd|[_ Hd]]; [done|].
    unfold is_live in El. apply bool_decide_eq_true_1 in El. rewrite Hd in El. by destruct El. }
  set (s4 := renamed db src dst (touchEntry now e) s3) in *.
  assert (watch_version s4 db' key' = watch_version s db' key') as Hv4
    by (unfold s4, renamed; rewrite !watch_version_write_key by (by right); done).
  pose proof (bump_key_spec db src s4) as (_ & _ & Hb5). cbv zeta in Hb5.
  set (s5 := (on_shard src (bumpWatchKey db src) s4).1) in *.
  pose proof (bump_key_spec db dst s5) as (_ & _ & Hb6). cbv zeta in Hb6.
  rewrite Hrun. cbn [fst]. case_bool_decide as Hsh.
  - by rewrite Hb5.
  - destruct Hd as [Hd|[? _]]; [|done]. rewrite Hb6, Hb5; done.
Qed.
End moves.

(** ** Sweeps over a database

    The commands that visit every shard: counting, listing, scanning and flushing a
    database, and the purge of expired keys in the background.  Their results are
    stated on the live keys of the database. *)

(** ** Vectors of shards *)

Lemma vec_to_list_enum {A n} (v : vec A n) : vec_to_list v = (λ i, v !!! i) <$> enum (fin n).
Proof.
  induction v as [|x n v IH]; [done|]. simpl. f_equal. rewrite IH.
  change (fin_enum n) with (enum (fin n)). by rewrite <-list_fmap_compose.
Qed.

Lemma sumZ_app l k : sumZ (l ++ k) = sumZ l + sumZ k.
Proof. unfold sumZ. induction l as [|x l IH]; simpl; [done|]. rewrite IH. lia. Qed.

Lemma sumZ_perm l k : l ≡ₚ k → sumZ l = sumZ k.
Proof. unfold sumZ. induction 1; simpl; lia. Qed.

Lemma sumZ_fmap_ext {A} (f g : A → Z) l : (∀ x, x ∈ l → f x = g x) → sumZ (f <$> l) = sumZ (g <$> l).
Proof. intros H. f_equal. apply list_fmap_ext. intros i x Hx. apply H. by eapply list_elem_of_lookup_2. Qed.

Section sweeps.
Context `{impl : !StdImpl}.

(** Maps over the shards that agree with the hash are disjoint: their sizes add up to
    the number of keys. *)
Lemma count_shards (l : list (fin kShardCount)) (f : fin kShardCount → DbMap) :
  NoDup l → (∀ i k, is_Some (f i !! k) → shardIdx k = i) →
  ∃ X : gset string,
    (∀ k, k ∈ X ↔ shardIdx k ∈ l ∧ is_Some (f (shardIdx k) !! k)) ∧
    sumZ ((λ i, Z.of_nat (size (f i))) <$> l) = Z.of_nat (size X).
Proof.
  intros Hl Hf. induction Hl as [|i l Hi _ (X & HX & IH)].
  - exists ∅. split; [|by rewrite size_empty]. intros k. rewrite elem_of_nil. set_solver.
  - exists (dom (f i) ∪ X). split.
    + intros k. rewrite elem_of_union, elem_of_dom, HX, elem_of_cons. split.
      * intros [Hk|[? ?]]; [|by auto]. pose proof (Hf i k Hk) as <-. auto.
      * intros [[<-|?] ?]; auto.
    + rewrite size_union, size_dom; [rewrite fmap_cons; cbn [sumZ foldr]; unfold sumZ in *; cbn [foldr]; rewrite IH; lia|].
      intros k [? Hk]%elem_of_dom [Hin _]%HX. rewrite (Hf i k) in Hin; [done|by eauto].
Qed.

Lemma count_store (f : fin kShardCount → DbMap) :
  (∀ i k, is_Some (f i !! k) → shardIdx k = i) →
  ∃ X : gset string, (∀ k, k ∈ X ↔ is_Some (f (shardIdx k) !! k)) ∧
    sumZ ((λ i, Z.of_nat (size (f i))) <$> enum (fin kShardCount)) = Z.of_nat (size X).
Proof.
  intros Hf. destruct (count_shards (enum _) f (NoDup_enum _) Hf) as (X & HX & Hs).
  exists X. split; [|done]. intros k. rewrite HX. pose proof (elem_of_enum (shardIdx k)). tauto.
Qed.

(** ** The purge *)

Lemma db_map_purge db now sh db' :
  db_map (purge_shard db now sh) db' =
  if decide (db' = db) then purgeExpiredDb now (db_map sh db) else db_map sh db'.
Proof.
  unfold purge_shard. case_decide as Hd; [subst db'|].
  - destruct (m_dbs sh !! db) as [m|] eqn:E; [rewrite db_map_set_db|]; unfold db_map;
      rewrite E; simpl; [done|]. unfold purgeExpiredDb; by rewrite map_filter_empty.
  - destruct (m_dbs sh !! db); [by rewrite db_map_set_db_ne|done].
Qed.

Lemma purge_lookup now m k : purgeExpiredDb now m !! k = live_of (m !! k) now.
Proof.
  unfold purgeExpiredDb. rewrite map_lookup_filter. destruct (m !! k) as [e|]; [|done]. simpl.
  case_guard as Hg; simpl in *; [by rewrite Hg|]. by destruct (isExpired e now).
Qed.

(** A map over the shards that only drops expired entries is invisible. *)
Lemma unchanged_vmap now (f : Shard → Shard) s :
  (∀ sh db key, live_of (db_map (f sh) db !! key) now = live_of (db_map sh db !! key) now) →
  (∀ sh db key e, db_map (f sh) db !! key = Some e → db_map sh db !! key = Some e) →
  (∀ sh, m_watch_versions (f sh) = m_watch_versions sh) →
  unchanged now s (set_shards (vmap f (m_shards s)) s).
Proof.
  intros Hlive Hsub Hver.
  assert (∀ key, getShard (set_shards (vmap f (m_shards s)) s) key = f (getShard s key)) as Hg.
  { intros key. unfold getShard, set_shards. simpl. by rewrite vlookup_map. }
  split.
  - intros t db key Ht. rewrite !(view_later _ now t) by done. f_equal.
    unfold view, live, raw. by rewrite Hg, Hlive.
  - intros db key. unfold watch_version. by rewrite Hg, Hver.
  - intros Hs i db key e He. unfold set_shards in He. simpl in He. rewrite vlookup_map in He.
    by eapply Hs, Hsub.
Qed.

Lemma live_of_idem o now : live_of (live_of o now) now = live_of o now.
Proof. destruct o as [e|]; simpl; [|done]. destruct (isExpired e now) eqn:E; simpl; [done|by rewrite E]. Qed.

Lemma purge_all_unchanged db now s : unchanged now s (on_all_shards (purge_shard db now) s).1.
Proof.
  apply unchanged_vmap.
  - intros sh db' key. rewrite db_map_purge. case_decide; [subst db'|done].
    by rewrite purge_lookup, live_of_idem.
  - intros sh db' key e. rewrite db_map_purge. case_decide; [subst db'|done].
    rewrite purge_lookup. destruct (_ !! key) as [e'|]; simpl; [|done]. by destruct (isExpired e' now).
  - intros sh. unfold purge_shard. by destruct (m_dbs sh !! db).
Qed.

(** The purged maps, shard by shard. *)
Definition purged (db now : Z) (s : KvStore) (i : fin kShardCount) : DbMap :=
  purgeExpiredDb now (db_map (m_shards s !!! i) db).

Lemma purged_list {A} (g : DbMap → A) db now s :
  (λ sh, g (db_map sh db)) <$> vec_to_list (m_shards (on_all_shards (purge_shard db now) s).1) =
  (λ i, g (purged db now s i)) <$> enum (fin kShardCount).
Proof.
  rewrite vec_to_list_enum, <-list_fmap_compose. apply list_fmap_ext. intros _ i _.
  unfold on_all_shards, modify, set_shards, compose, purged. cbn [fst m_shards].
  rewrite vlookup_map, db_map_purge, decide_True by done. done.
Qed.

Lemma purged_shard db now s i k : wf s → is_Some (purged db now s i !! k) → shardIdx k = i.
Proof.
  intros Hs [e He]. unfold purged in He. rewrite purge_lookup in He.
  destruct (db_map _ db !! k) as [e'|] eqn:E; [|done]. by eapply Hs in E as [? _].
Qed.

Lemma purged_live db now s k : purged db now s (shardIdx k) !! k = live s now db k.
Proof. unfold purged. by rewrite purge_lookup. Qed.

(** ** Counting *)

(** [DBSIZE] counts the live keys. *)
Lemma dbsize_spec db now s :
  wf s →
  unchanged now s (dbsize db now s).1 ∧
  ∃ X : gset string, (∀ key, key ∈ X ↔ is_live s now db key = true) ∧
    (dbsize db now s).2 = Z.of_nat (size X).
Proof.
  intros Hs. unfold dbsize. rewrite bind_run. split; [apply purge_all_unchanged|].
  destruct (count_store (purged db now s)) as (X & HX & Hsum).
  { intros i k. by apply purged_shard. }
  exists X. split.
  - intros k. rewrite HX, purged_live, is_live_entry.
    destruct (live s now db k); split; try done.
  - rewrite gets_run. cbn [snd]. rewrite <-Hsum.
    by rewrite (purged_list (λ m, Z.of_nat (size m))).
Qed.

(** [expireCount] counts the live keys with an expiry time. *)
Lemma expireCount_spec db now s :
  wf s →
  unchanged now s (expireCount db now s).1 ∧
  ∃ X : gset string,
    (∀ key, key ∈ X ↔ ∃ a, view s now db key = Some a ∧ 0 < av_expire a) ∧
    (expireCount db now s).2 = Z.of_nat (size X).
Proof.
  intros Hs. unfold expireCount. rewrite bind_run. split; [apply purge_all_unchanged|].
  set (f i := filter (λ p : string * Entry, 0 < e_expire_at_ms p.2) (purged db now s i)).
  destruct (count_store f) as (X & HX & Hsum).
  { intros i k [e He]. apply map_lookup_filter_Some in He as [He _]. apply (purged_shard db now s); eauto. }
  exists X. split.
  - intros k. rewrite HX. unfold f, is_Some. setoid_rewrite map_lookup_filter_Some.
    rewrite purged_live. unfold view. destruct (live s now db k) as [e|]; simpl.
    + split; [intros (? & [= <-] & ?); eauto|intros (? & [= <-] & ?); eauto].
    + split; [intros (? & [=] & _)|intros (? & [=] & _)].
  - rewrite gets_run. cbn [snd]. rewrite <-Hsum.
    by rewrite (purged_list (λ m, Z.of_nat (size (filter (λ p : string * Entry, 0 < e_expire_at_ms p.2) m)))).
Qed.

(** ** Listing *)

(** What [collectKeys] finds in one map. *)
Definition matching (now : Z) (pattern : string) (m : DbMap) : list string :=
  (filter (λ p : string * Entry, isExpired p.2 now = false ∧ matchGlob pattern p.1 = true)
     (hash_iter m)).*1.

Lemma matching_elem now pattern m k :
  k ∈ matching now pattern m ↔ is_Some (live_of (m !! k) now) ∧ matchGlob pattern k = true.
Proof.
  unfold matching. rewrite list_elem_of_fmap. split.
  - intros ([k' e] & -> & [[Hx Hm] Hin%hash_iter_elem]%list_elem_of_filter). simpl in *.
    rewrite Hin. simpl. rewrite Hx. eauto.
  - intros [[e He] Hm]. destruct (m !! k) as [e'|] eqn:E; [|done]. simpl in He.
    destruct (isExpired e' now) eqn:Hx; [done|]. exists (k, e'). split; [done|].
    by apply list_elem_of_filter; split; [|apply hash_iter_elem].
Qed.

Lemma matching_NoDup now pattern m : NoDup (matching now pattern m).
Proof.
  unfold matching. rewrite hash_iter_perm.
  pose proof (NoDup_fst_map_to_list m) as Hnd. induction (map_to_list m) as [|p l IH]; [constructor|].
  apply NoDup_cons in Hnd as [Hp Hnd]. rewrite filter_cons. case_decide; [|by apply IH].
  simpl. constructor; [|by apply IH]. intros (q & Hq & [_ Hin]%list_elem_of_filter)%list_elem_of_fmap.
  apply Hp. rewrite Hq. by apply list_elem_of_fmap_2.
Qed.

Lemma matching_empty now pattern : matching now pattern ∅ = [].
Proof.
  apply elem_of_nil_inv. intros k [[e He] _]%matching_elem. by rewrite lookup_empty in He.
Qed.

(** The lists of the shards, one after the other; sorting hides the order. *)
Lemma all_keys_list db now pattern s :
  all_keys db now pattern s =
  sort_strings (enum (fin kShardCount) ≫= λ i, matching now pattern (db_map (m_shards s !!! i) db)).
Proof.
  unfold all_keys. apply sort_strings_proper. rewrite vec_to_list_enum.
  generalize (enum (fin kShardCount)). intros l.
  assert (∀ out, foldl (λ out sh, match m_dbs sh !! db with
                     | Some m => collectKeys m now pattern out
                     | None => out
                     end) out ((λ i, m_shards s !!! i) <$> l) ≡ₚ
          out ++ (l ≫= λ i, matching now pattern (db_map (m_shards s !!! i) db))) as H.
  { induction l as [|i l IH]; intros out; simpl; [by rewrite app_nil_r|]. rewrite IH.
    rewrite app_assoc. apply Permutation_app; [|done]. unfold db_map.
    destruct (m_dbs (m_shards s !!! i) !! db) as [m|]; simpl.
    - unfold collectKeys. by rewrite sort_strings_perm.
    - by rewrite matching_empty, app_nil_r. }
  apply (H []).
Qed.

Lemma all_keys_elem db now pattern s k :
  wf s →
  k ∈ all_keys db now pattern s ↔ is_live s now db k = true ∧ matchGlob pattern k = true.
Proof.
  intros Hs. rewrite all_keys_list, sort_strings_elem, list_elem_of_bind, is_live_entry.
  setoid_rewrite matching_elem. split.
  - intros (i & [Hl Hm] & _). split; [|done].
    assert (shardIdx k = i) as <-.
    { destruct (db_map (m_shards s !!! i) db !! k) as [e|] eqn:E; [by eapply Hs in E as []|].
      by destruct Hl. }
    change (is_Some (live s now db k)) in Hl. destruct Hl as [e ->]. done.
  - intros [Hl Hm]. exists (shardIdx k). split; [|apply elem_of_enum]. split; [|done].
    change (is_Some (live s now db k)). by destruct (live s now db k).
Qed.

Lemma all_keys_sorted db now pattern s : StronglySorted String.le (all_keys db now pattern s).
Proof. apply sort_strings_sorted. Qed.

Lemma all_keys_NoDup db now pattern s : wf s → NoDup (all_keys db now pattern s).
Proof.
  intros Hs. rewrite all_keys_list, sort_strings_perm. apply NoDup_bind; [| |apply NoDup_enum].
  - intros i j k _ _ [[e1 He1] _]%matching_elem [[e2 He2] _]%matching_elem.
    destruct (db_map (m_shards s !!! i) db !! k) as [e|] eqn:E1; [|done].
    destruct (db_map (m_shards s !!! j) db !! k) as [e'|] eqn:E2; [|done].
    by apply Hs in E1 as [<- _], E2 as [<- _].
  - intros i _. apply matching_NoDup.
Qed.

(** The listing only depends on what is live. *)
Lemma all_keys_unchanged db now pattern s s' :
  wf s → unchanged now s s' → all_keys db now pattern s' = all_keys db now pattern s.
Proof.
  intros Hs Hu. pose proof (un_wf _ _ _ Hu Hs) as Hs'.
  apply (StronglySorted_unique String.le); [apply all_keys_sorted..|].
  apply NoDup_Permutation; [by apply all_keys_NoDup..|]. intros k.
  rewrite !all_keys_elem by done. by rewrite (is_live_unchanged now s s').
Qed.

(** [KEYS]: the live keys that match, in order, each once. *)
Lemma keys_spec db pattern now s :
  wf s →
  unchanged now s (keys db pattern now s).1 ∧
  (keys db pattern now s).2 = all_keys db now pattern s.
Proof.
  intros Hs. unfold keys. rewrite bind_run. split; [apply purge_all_unchanged|].
  rewrite gets_run. cbn [snd]. apply all_keys_unchanged; [done|apply purge_all_unchanged].
Qed.

Lemma scan_spec db cursor pattern count now s :
  wf s →
  unchanged now s (scan db cursor pattern count now s).1 ∧
  (scan db cursor pattern count now s).2 = scanFlatItems (all_keys db now pattern s) cursor count.
Proof.
  intros Hs. unfold scan. rewrite bind_run. split; [apply purge_all_unchanged|].
  rewrite gets_run. cbn [snd]. f_equal.
  apply all_keys_unchanged; [done|apply purge_all_unchanged].
Qed.

(** A client that follows the cursors of [SCAN]; the store is only changed by its own
    calls. *)
Fixpoint scan_client (fuel : nat) (db cursor : Z) (pattern : string) (count now : Z)
  : KM (option (list string)) :=
  match fuel with
  | O => mret None
  | S fuel =>
      r ← scan db cursor pattern count now;
      if scan_cursor r =? 0 then mret (Some (scan_items r))
      else
        rest ← scan_client fuel db (scan_cursor r) pattern count now;
        mret (rest ← rest; Some (scan_items r ++ rest))
  end.

Lemma scan_client_spec fuel db cursor pattern count now s :
  wf s →
  (scan_client fuel db cursor pattern count now s).2 =
  scan_all fuel (all_keys db now pattern s) cursor count.
Proof.
  revert cursor s. induction fuel as [|fuel IH]; intros cursor s Hs; [done|].
  cbn [scan_client scan_all]. rewrite bind_run.
  destruct (scan_spec db cursor pattern count now s Hs) as [Hu Hr]. rewrite Hr.
  destruct (scan_cursor _ =? 0); [done|]. rewrite bind_run, ret_run. cbn [snd].
  rewrite IH by (by apply Hu). by rewrite (all_keys_unchanged db now pattern s _ Hs Hu).
Qed.

(** ** Flushing *)

Definition epoch (db : Z) (sh : Shard) : Z := default 0 (m_db_watch_epoch sh !! db).

(** A later epoch is another token, whatever the epoch wraps to. *)
Lemma token_epoch db key sh sh' :
  shard_version db key sh' = shard_version db key sh →
  epoch db sh' = u64 (epoch db sh + 1) →
  shard_watchToken db key sh' ≠ shard_watchToken db key sh.
Proof.
  intros Hv He Ht. unfold shard_watchToken in Ht.
  fold (epoch db sh) (epoch db sh') (shard_version db key sh) (shard_version db key sh') in Ht.
  rewrite Hv, He in Ht.
  apply (f_equal (λ z, Z.lxor z (shard_version db key sh))) in Ht.
  rewrite !Z.lxor_assoc, !Z.lxor_nilpotent, !Z.lxor_0_r in Ht.
  unfold u64 in Ht. rewrite !Z.shiftl_mul_pow2 in Ht by lia.
  rewrite Zmult_mod_idemp_l in Ht.
  assert (((epoch db sh + 1) * 2 ^ 32 - epoch db sh * 2 ^ 32) mod 2 ^ 64 = 0) as H
    by (rewrite Zminus_mod, Ht, Z.sub_diag; done).
  replace ((epoch db sh + 1) * 2 ^ 32 - epoch db sh * 2 ^ 32) with (2 ^ 32) in H by ring.
  done.
Qed.

Lemma getShard_vmap f s key :
  getShard (on_all_shards f s).1 key = f (getShard s key).
Proof. unfold getShard, on_all_shards, modify, set_shards. simpl. by rewrite vlookup_map. Qed.

Lemma epoch_bump_db db db' sh :
  epoch db' (bump_watch_db db sh) = if decide (db' = db) then u64 (epoch db sh + 1) else epoch db' sh.
Proof.
  unfold epoch, bump_watch_db. simpl. case_decide as Hd; [subst db'; by rewrite lookup_insert_eq|].
  by rewrite lookup_insert_ne.
Qed.

(** [FLUSHDB] empties the database, no other, and announces it to every watcher. *)
Lemma flushdb_spec db s :
  let s' := (flushdb db s).1 in
  (wf s → wf s') ∧
  (∀ t db' key, view s' t db' key = if decide (db' = db) then None else view s t db' key) ∧
  (∀ key, shard_watchToken db key (getShard s' key) ≠ shard_watchToken db key (getShard s key)).
Proof.
  cbv zeta. unfold flushdb.
  assert (∀ sh db', db_map (flush_shard db sh) db' = if decide (db' = db) then ∅ else db_map sh db')
    as Hm.
  { intros sh db'. unfold flush_shard. change (db_map (bump_watch_db db ?x) ?d) with (db_map x d).
    case_decide; [subst db'; apply db_map_set_db|by apply db_map_set_db_ne]. }
  split_and!.
  - intros Hs i db' key e. unfold on_all_shards, modify, set_shards. simpl.
    rewrite vlookup_map, Hm. case_decide; [by rewrite lookup_empty|apply Hs].
  - intros t db' key. unfold view, live, raw. rewrite getShard_vmap, Hm.
    case_decide; [by rewrite lookup_empty|done].
  - intros key. rewrite getShard_vmap. apply token_epoch; [done|].
    unfold flush_shard. by rewrite epoch_bump_db, decide_True.
Qed.

Lemma for_each_bump dbs s :
  NoDup dbs →
  let s' := (for_each dbs (λ db, on_all_shards (bump_watch_db db)) s).1 in
  (∀ i, m_dbs (m_shards s' !!! i) = m_dbs (m_shards s !!! i)) ∧
  (∀ db key, shard_version db key (getShard s' key) = shard_version db key (getShard s key)) ∧
  (∀ db key, epoch db (getShard s' key) =
     if decide (db ∈ dbs) then u64 (epoch db (getShard s key) + 1) else epoch db (getShard s key)).
Proof.
  intros Hnd. revert s. induction Hnd as [|d dbs Hd _ IH]; intros s; cbn [for_each]; cbv zeta.
  { split_and!; [done..|]. intros. by rewrite decide_False by apply not_elem_of_nil. }
  rewrite bind_run. destruct (IH (on_all_shards (bump_watch_db d) s).1) as (H1 & H2 & H3).
  split_and!.
  - intros i. rewrite H1. unfold on_all_shards, modify, set_shards. simpl. by rewrite vlookup_map.
  - intros db key. by rewrite H2, getShard_vmap.
  - intros db key. rewrite H3, getShard_vmap, !epoch_bump_db.
    destruct (decide (db = d)) as [->|Hne].
    + rewrite decide_False, decide_True by (done || by left). done.
    + destruct (decide (db ∈ dbs)); [rewrite decide_True by (by right)|rewrite decide_False by (by rewrite elem_of_cons; intros [?|?])]; done.
Qed.

(** [FLUSHALL] empties every database and announces it in each of the 16. *)
Lemma flushall_spec s :
  let s' := (flushall s).1 in
  wf s' ∧
  (∀ t db key, view s' t db key = None) ∧
  (∀ db key, 0 ≤ db < Z.of_nat kMaxDb →
     shard_watchToken db key (getShard s' key) ≠ shard_watchToken db key (getShard s key)).
Proof.
  cbv zeta. unfold flushall. rewrite bind_run.
  set (s1 := (on_all_shards (set_dbs ∅) s).1).
  destruct (for_each_bump (seqZ 0 (Z.of_nat kMaxDb)) s1) as (Hm & Hv & He); [apply NoDup_seqZ|].
  set (s2 := (for_each _ _ s1).1) in *.
  assert (∀ i db, db_map (m_shards s2 !!! i) db = ∅) as Hnone.
  { intros i db. unfold db_map. rewrite Hm. unfold s1, on_all_shards, modify, set_shards. simpl.
    rewrite vlookup_map. simpl. by rewrite lookup_empty. }
  split_and!.
  - intros i db key e. by rewrite Hnone, lookup_empty.
  - intros t db key. unfold view, live, raw, getShard. by rewrite Hnone, lookup_empty.
  - intros db key Hdb. apply token_epoch.
    + rewrite Hv. unfold s1. by rewrite getShard_vmap.
    + rewrite He, decide_True by (apply elem_of_seqZ; lia).
      unfold s1. by rewrite getShard_vmap.
Qed.

(** ** The background purge *)

Lemma delete_all_lookup (l : list (string * Entry)) (m : DbMap) k :
  foldr (λ p m, delete p.1 m) m l !! k = if decide (k ∈ l.*1) then None else m !! k.
Proof.
  induction l as [|[k' e] l IH]; cbn [foldr]; [by rewrite decide_False by apply not_elem_of_nil|].
  rewrite fmap_cons. cbn [fst].
  destruct (decide (k' = k)) as [->|Hne].
  - rewrite lookup_delete_eq, decide_True; [done|by left].
  - rewrite lookup_delete_ne, IH by done.
    destruct (decide (k ∈ l.*1)); [rewrite decide_True; [done|by right]|].
    rewrite decide_False; [done|]. by intros [?|?]%elem_of_cons.
Qed.

Lemma delete_all_size (l : list (string * Entry)) (m : DbMap) :
  NoDup l.*1 → (∀ p, p ∈ l → m !! p.1 = Some p.2) →
  (size (foldr (λ p m, delete p.1 m) m l) + length l = size m)%nat.
Proof.
  intros Hnd Hin. induction l as [|[k e] l IH]; simpl; [lia|].
  apply NoDup_cons in Hnd as [Hk Hnd].
  assert (size (foldr (λ p m, delete p.1 m) m l) + length l = size m)%nat as IH'.
  { apply IH; [done|]. intros p Hp. apply Hin. by right. }
  assert (foldr (λ p m, delete p.1 m) m l !! k = Some e) as Hl.
  { rewrite delete_all_lookup, decide_False by done. apply (Hin (k, e)). by left. }
  rewrite map_size_delete_Some by eauto.
  assert (size (foldr (λ p m, delete p.1 m) m l) ≠ 0%nat).
  { intros H0%map_size_empty_inv. rewrite H0 in Hl. by rewrite lookup_empty in Hl. }
  lia.
Qed.

(** The entries of one map the purge erases. *)
Definition victims (max_scan now : Z) (m : DbMap) : list (string * Entry) :=
  filter (λ p : string * Entry, isExpired p.2 now = true) (take (Z.to_nat max_scan) (hash_iter m)).

Lemma victims_elem max_scan now m p :
  p ∈ victims max_scan now m → m !! p.1 = Some p.2 ∧ isExpired p.2 now = true.
Proof.
  intros [Hx (i & Hi & _)%elem_of_take]%list_elem_of_filter. split; [|done].
  destruct p as [k e]. eapply hash_iter_elem, list_elem_of_lookup_2, Hi.
Qed.

Lemma victims_all max_scan now m p :
  Z.of_nat (size m) ≤ max_scan → m !! p.1 = Some p.2 → isExpired p.2 now = true →
  p ∈ victims max_scan now m.
Proof.
  intros Hn Hp Hx. apply list_elem_of_filter. split; [done|]. rewrite take_ge.
  - destruct p. by apply hash_iter_elem.
  - rewrite hash_iter_perm, length_map_to_list. lia.
Qed.

Lemma purge_active_lookup max_scan now m k :
  (purge_active_db max_scan now m).1 !! k = m !! k ∨
  (purge_active_db max_scan now m).1 !! k = None ∧ ∃ e, m !! k = Some e ∧ isExpired e now = true.
Proof.
  unfold purge_active_db. fold (victims max_scan now m). cbn [fst].
  rewrite delete_all_lookup. case_decide as Hk; [|by left]. right. split; [done|].
  apply list_elem_of_fmap in Hk as (p & -> & [? ?]%victims_elem). eauto.
Qed.

Lemma purge_active_size max_scan now m :
  Z.of_nat (size (purge_active_db max_scan now m).1) =
  Z.of_nat (size m) - (purge_active_db max_scan now m).2.
Proof.
  unfold purge_active_db. fold (victims max_scan now m). cbn [fst snd].
  pose proof (delete_all_size (victims max_scan now m) m) as H.
  assert (NoDup (victims max_scan now m).*1) as Hnd.
  { unfold victims. eapply NoDup_fmap_2_strong; [|apply NoDup_filter].
    - intros [k1 e1] [k2 e2] H1%victims_elem H2%victims_elem. simpl in *.
      intros ->. destruct H1 as [E1 _], H2 as [E2 _]. congruence.
    - eapply sublist_NoDup; [apply NoDup_hash_iter|apply sublist_take]. }
  specialize (H Hnd (λ p Hp, proj1 (victims_elem _ _ _ _ Hp))). lia.
Qed.

Lemma purge_active_all max_scan now m k e :
  Z.of_nat (size m) ≤ max_scan → (purge_active_db max_scan now m).1 !! k = Some e →
  isExpired e now = false.
Proof.
  intros Hn. unfold purge_active_db. fold (victims max_scan now m). cbn [fst].
  rewrite delete_all_lookup. case_decide as Hk; [done|]. intros He.
  destruct (isExpired e now) eqn:Hx; [|done]. destruct Hk.
  apply list_elem_of_fmap. exists (k, e). split; [done|]. by apply victims_all.
Qed.

(** How many entries the store's maps hold, expired or not. *)
Definition stored_shard (sh : Shard) : Z :=
  sumZ ((λ p, Z.of_nat (size p.2)) <$> hash_iter (m_dbs sh)).
Definition stored (s : KvStore) : Z := sumZ (stored_shard <$> vec_to_list (m_shards s)).

Lemma sumZ_sub {A} (f g : A → Z) l : sumZ ((λ x, f x - g x) <$> l) = sumZ (f <$> l) - sumZ (g <$> l).
Proof. induction l as [|x l IH]; [done|]. rewrite !fmap_cons. unfold sumZ in *. cbn [foldr]. rewrite IH. lia. Qed.

Lemma purge_active_shard_stored max_scan now sh :
  stored_shard (purge_active_shard max_scan now sh).1 =
  stored_shard sh - (purge_active_shard max_scan now sh).2.
Proof.
  unfold stored_shard, purge_active_shard. cbn [fst snd]. unfold set_dbs. cbn [m_dbs].
  rewrite (sumZ_perm _ _ (fmap_Permutation _ _ _ (hash_iter_perm _))), map_to_list_fmap.
  rewrite (sumZ_perm ((λ p, Z.of_nat (size p.2)) <$> hash_iter (m_dbs sh)) _
             (fmap_Permutation _ _ _ (hash_iter_perm _))).
  rewrite (sumZ_perm ((λ p, (purge_active_db max_scan now p.2).2) <$> hash_iter (m_dbs sh)) _
             (fmap_Permutation _ _ _ (hash_iter_perm _))).
  rewrite <-sumZ_sub, <-list_fmap_compose. apply sumZ_fmap_ext. intros [d m] _. simpl.
  apply purge_active_size.
Qed.

Lemma db_map_purge_active max_scan now sh db :
  db_map (purge_active_shard max_scan now sh).1 db =
  (purge_active_db max_scan now (db_map sh db)).1.
Proof.
  unfold purge_active_shard, db_map, set_dbs. cbn [fst m_dbs]. rewrite lookup_fmap.
  destruct (m_dbs sh !! db) as [m|]; [done|]. change (∅ = (purge_active_db max_scan now ∅).1). symmetry. apply map_eq. intros k.
  destruct (purge_active_lookup max_scan now ∅ k) as [->|[-> _]]; by rewrite lookup_empty.
Qed.

Lemma purgeExpiredActive_spec max_scan now s :
  let s' := (purgeExpiredActive max_scan now s).1 in
  unchanged now s s' ∧
  (purgeExpiredActive max_scan now s).2 = stored s - stored s' ∧
  (∀ db key e, Z.of_nat (size (db_map (getShard s key) db)) ≤ max_scan → 0 < max_scan →
     raw s' db key = Some e → isExpired e now = false).
Proof.
  cbv zeta. unfold purgeExpiredActive. destruct (Z.leb_spec max_scan 0).
  { rewrite ret_run. split_and!; [apply unchanged_refl|cbn [fst snd]; lia|lia]. }
  cbn [fst snd]. split_and!.
  - apply unchanged_vmap; cbn [compose].
    + intros sh db key. unfold compose. rewrite db_map_purge_active.
      destruct (purge_active_lookup max_scan now (db_map sh db) key) as [->|(-> & e & -> & Hx)]; [done|].
      simpl. by rewrite Hx.
    + intros sh db key e. unfold compose. rewrite db_map_purge_active.
      by destruct (purge_active_lookup max_scan now (db_map sh db) key) as [->|[-> _]].
    + done.
  - unfold stored, set_shards. cbn [m_shards]. rewrite !vec_to_list_enum, <-!list_fmap_compose.
    rewrite <-sumZ_sub. apply sumZ_fmap_ext. intros i _. unfold compose. rewrite vlookup_map.
    pose proof (purge_active_shard_stored max_scan now (m_shards s !!! i)). lia.
  - intros db key e Hn _. unfold raw, getShard, set_shards. cbn [m_shards].
    rewrite vlookup_map. unfold compose. rewrite db_map_purge_active. by apply purge_active_all.
Qed.
End sweeps.
