(* ===== verification/RdbFacts.v ===== *)
(** * What the snapshot restores

    [reads m bs a]: the reader [m] consumes exactly the bytes [bs] and answers [a],
    whatever follows them; the lemmas compose it over the format, and [keeps_prefix]
    says that a reader's answer does not depend on what follows.  The round trips of
    [dump]/[loadFromString] and [DUMP]/[RESTORE], and what becomes of truncated files,
    follow. *)

From Stdlib Require Import Ascii.
From Stdlib.Floats Require Import SpecFloat.
From stdpp Require Import options.
From stdpp Require Import vector finite.
From S2P Require Import Prelude.
From S2P Require Import CStd.
From S2P Require Import Double.
From S2P Require Import Binary64.
From S2P Require Import Store.
From S2P Require Import Evict.
From S2P Require Import StoreFacts.
From S2P Require Import StreamOps.
From S2P Require Import StreamFacts.
From S2P Require Import KeySpace.
From S2P Require Import EvictFacts.
From S2P Require Import KeyOps.
From S2P Require Import MultiKey.
From S2P Require Import Bytes.
From S2P Require Import Rdb.

#[local] Set Default Proof Using "Type*".

(** ** Readers *)

Definition reads {A} (m : Rd A) (bs : Bytes) (a : A) : Prop := ∀ rest, m (bs ++ rest) = inr (rest, a).

Lemma reads_ret {A} (a : A) : reads (mret a) [] a.
Proof. done. Qed.

Lemma reads_bind {A B} (m : Rd A) (k : A → Rd B) bs1 bs2 a b :
  reads m bs1 a → reads (k a) bs2 b → reads (m ≫= k) (bs1 ++ bs2) b.
Proof. intros Hm Hk rest. unfold mbind, Rd_bind. rewrite <-(assoc_L (++)), Hm. apply Hk. Qed.

Lemma reads_last {A B} (m : Rd A) (f : A → B) bs a b :
  reads m bs a → f a = b → reads (x ← m; mret (f x)) bs b.
Proof. intros H <-. rewrite <-(right_id_L [] (++) bs). by eapply reads_bind. Qed.

Lemma reads_or_err {A} msg (m : Rd A) bs a : reads m bs a → reads (or_err msg m) bs a.
Proof. intros H rest. unfold or_err. by rewrite H. Qed.

Lemma reads_eq {A} (m : Rd A) bs bs' a a' : reads m bs a → bs = bs' → a = a' → reads m bs' a'.
Proof. by intros ? -> ->. Qed.

(** ** Numbers and strings *)

Lemma reads_pod_mod n v : reads (readPod n) (le_bytes n v) (v `mod` 2 ^ (8 * Z.of_nat n)).
Proof.
  intros rest. unfold readPod. rewrite length_app, le_bytes_length.
  destruct (Nat.ltb_spec (n + length rest) n); [lia|].
  by rewrite take_app_length', drop_app_length', le_value_bytes by (by rewrite le_bytes_length).
Qed.

Lemma reads_pod n v : 0 ≤ v < 2 ^ (8 * Z.of_nat n) → reads (readPod n) (le_bytes n v) v.
Proof. intros Hv. rewrite <-(Z.mod_small v (2 ^ (8 * Z.of_nat n))) at 2 by done. apply reads_pod_mod. Qed.

Lemma reads_i64 v : in_i64 v → reads readI64 (appendI64 v) v.
Proof.
  intros Hv. eapply reads_last; [apply (reads_pod_mod 8)|].
  change (8 * Z.of_nat 8) with 64. by rewrite i64_mod, i64_id.
Qed.

Lemma reads_double d : valid_binary prec emax d = true → reads readDouble (appendDouble d) d.
Proof.
  intros Hd. eapply reads_last; [apply (reads_pod 8), double_bits_range, Hd|].
  by apply bits_double_bits.
Qed.

(** What a 32-bit length can say. *)
Definition small (n : Z) : Prop := 0 ≤ n < 2 ^ 32.
Definition short (s : string) : Prop := small (str_size s).

Lemma length_chars s : length (chars s) = String.length s.
Proof. induction s as [|c s IH]; simpl; [done|]. by rewrite IH. Qed.

Lemma reads_str s : short s → reads readStr (appendStr s) s.
Proof.
  intros Hs. eapply reads_bind; [by apply reads_pod|]. intros rest.
  unfold str_size. rewrite length_app, length_chars.
  destruct (Z.ltb_spec (Z.of_nat (String.length s + length rest)) (Z.of_nat (String.length s))); [lia|].
  rewrite Nat2Z.id, drop_app_length', take_app_length' by (by rewrite length_chars).
  by rewrite String.string_of_list_ascii_of_string.
Qed.

(** ** Loops *)

Lemma reads_n {A X} (step : A → Rd A) (put : X → Bytes) (f : A → X → A) l a :
  (∀ a x, x ∈ l → reads (step a) (put x) (f a x)) →
  reads (read_n (length l) step a) (l ≫= put) (foldl f a l).
Proof.
  revert a. induction l as [|x l IH]; intros a H; [done|].
  eapply reads_bind; [apply H; by left|]. apply IH. intros a' y Hy. apply H. by right.
Qed.

Lemma reads_all {A X} (step : A → Rd A) (put : X → Bytes) (f : A → X → A) l a :
  small (Z.of_nat (length l)) → (∀ a x, x ∈ l → reads (step a) (put x) (f a x)) →
  reads (read_all step a) (append_all put l) (foldl f a l).
Proof.
  intros Hn H. eapply reads_bind; [by apply reads_pod|]. rewrite Nat2Z.id. by apply reads_n.
Qed.

Lemma foldl_union_set l (X : gset string) : foldl (λ X m, {[m]} ∪ X) X l = list_to_set l ∪ X.
Proof.
  revert X. induction l as [|x l IH]; intros X; simpl; [by rewrite (left_id_L ∅ (∪))|].
  rewrite IH. set_solver.
Qed.

Lemma foldl_snoc {A B} (f : A → B) (l : list A) k : foldl (λ l x, l ++ [f x]) k l = k ++ (f <$> l).
Proof.
  revert k. induction l as [|x l IH]; intros k; simpl; [by rewrite (right_id_L [] (++))|].
  by rewrite IH, <-(assoc_L (++)).
Qed.

(** ** The payload of an entry *)

Section payload.
Context `{impl : !StdImpl} (reserves : Z → bool).

Lemma reads_map {A} (step : gmap string A → Rd (gmap string A)) put (l : list (string * A)) m :
  l ≡ₚ map_to_list m → small (Z.of_nat (size m)) →
  (∀ acc k a, m !! k = Some a → reads (step acc) (put (k, a)) (<[k := a]> acc)) →
  reads (read_all step ∅) (append_all put l) m.
Proof.
  intros Hl Hn H. eapply reads_eq; [|done|by apply foldl_insert_perm].
  apply (reads_all _ _ (λ m p, <[p.1 := p.2]> m)).
  - by rewrite Hl, length_map_to_list.
  - intros acc [k a] Hin. apply H. by rewrite Hl, elem_of_map_to_list in Hin.
Qed.

(** What the format can hold: lengths and counts of 32 bits, and a delivery record for
    each pending identifier, since one is written for each. *)
Definition storable_fields (m : gmap string string) : Prop :=
  small (Z.of_nat (size m)) ∧ map_Forall (λ k v, short k ∧ short v) m.
Definition storable_item (se : StreamEntry) : Prop := short (se_id se) ∧ storable_fields (se_fields se).
Definition storable_consumer (c : StreamConsumerState) : Prop :=
  short (cs_last_id c) ∧ small (Z.of_nat (length (cs_pending c))) ∧ Forall short (cs_pending c) ∧
  dom (cs_pending_meta c) = (list_to_set (cs_pending c) : gset string) ∧
  map_Forall (λ _ d, in_i64 (delivery_ms d) ∧ in_i64 (delivery_count d)) (cs_pending_meta c).
Definition storable_group (gs : StreamGroupState) : Prop :=
  short (gs_last_id gs) ∧ small (Z.of_nat (size (gs_consumers gs))) ∧
  map_Forall (λ name c, short name ∧ storable_consumer c) (gs_consumers gs).

Definition storable_value (v : Value) : Prop :=
  match v with
  | VString s => short s
  | VHash h => storable_fields h
  | VList l => small (Z.of_nat (length l)) ∧ Forall short l
  | VSet X => small (Z.of_nat (size X)) ∧ set_Forall short X
  | VZSet z => small (Z.of_nat (size z)) ∧ map_Forall (λ m d, short m ∧ valid_binary prec emax d = true) z
  | VStream items ms seq groups =>
      in_u64 ms ∧ in_u64 seq ∧ small (Z.of_nat (length items)) ∧
      reserves (Z.of_nat (length items)) = true ∧ Forall storable_item items ∧
      small (Z.of_nat (size groups)) ∧ map_Forall (λ name gs, short name ∧ storable_group gs) groups
  end.

#[export] Instance storable_fields_dec m : Decision (storable_fields m).
Proof. unfold storable_fields, small, short. apply _. Defined.
#[export] Instance storable_item_dec se : Decision (storable_item se).
Proof. unfold storable_item, short. apply _. Defined.
#[export] Instance storable_consumer_dec c : Decision (storable_consumer c).
Proof. unfold storable_consumer, small, short. apply _. Defined.
#[export] Instance storable_group_dec gs : Decision (storable_group gs).
Proof. unfold storable_group, small, short. apply _. Defined.
#[export] Instance storable_value_dec v : Decision (storable_value v).
Proof. destruct v; unfold storable_value, small, short; apply _. Defined.

Lemma reads_fields m : storable_fields m →
  reads (read_all read_field ∅) (append_all append_field (hash_iter m)) m.
Proof.
  intros [Hn Hm]. apply reads_map; [apply hash_iter_perm|done|].
  intros acc k v [Hk Hv]%Hm. eapply reads_bind; [by apply reads_str|]. by eapply reads_last; [apply reads_str|].
Qed.

Lemma reads_item acc se : storable_item se → reads (read_item acc) (append_item se) (acc ++ [se]).
Proof.
  intros [Hid Hf]. eapply reads_bind; [by apply reads_str|].
  eapply reads_last; [by apply reads_fields|]. by destruct se.
Qed.

(** The delivery records of the pending identifiers, read one by one. *)
Lemma foldl_pending c pending :
  (∀ pid, pid ∈ pending → is_Some (cs_pending_meta c !! pid)) →
  foldl (λ a pid,
      let meta := cs_pending_meta c !! pid in
      mkConsumer (cs_last_id a) (cs_pending a ++ [pid])
        (<[pid := mkMeta (default 0 (delivery_ms <$> meta)) (default 1 (delivery_count <$> meta))]>
           (cs_pending_meta a)))
    (mkConsumer (cs_last_id c) [] ∅) pending =
  mkConsumer (cs_last_id c) pending
    (filter (λ p, p.1 ∈ pending) (cs_pending_meta c)).
Proof.
  induction pending as [|pid pending IH] using rev_ind; intros Hm.
  { simpl. f_equal. symmetry. apply map_empty. intros k. apply map_lookup_filter_None.
    right. intros d _ Hk. by apply elem_of_nil in Hk. }
  rewrite foldl_app, IH by (intros; apply Hm, elem_of_app; by left). cbn [foldl cs_last_id cs_pending cs_pending_meta].
  destruct (Hm pid) as [d Hd]; [apply elem_of_app; right; by left|]. rewrite Hd. simpl. f_equal.
  apply map_eq. intros k. destruct (decide (k = pid)) as [->|Hne].
  - rewrite lookup_insert_eq. symmetry. apply map_lookup_filter_Some.
    split; [by destruct d|]. apply elem_of_app; right; by left.
  - rewrite lookup_insert_ne by done. apply option_eq. intros x. rewrite !map_lookup_filter_Some. simpl.
    rewrite elem_of_app, list_elem_of_singleton. naive_solver.
Qed.

Lemma reads_consumer acc name c : short name → storable_consumer c →
  reads (read_consumer acc) (append_consumer (name, c)) (<[name := c]> acc).
Proof.
  intros Hname (Hlast & Hn & Hp & Hdom & Hm). eapply reads_bind; [by apply reads_str|].
  eapply reads_bind; [by apply reads_str|]. cbn [fst snd].
  eapply reads_last; [eapply reads_all|f_equal].
  - done.
  - intros a pid Hin. rewrite Forall_forall in Hp. eapply reads_bind; [by apply reads_str, Hp|].
    assert (is_Some (cs_pending_meta c !! pid)) as [d Hd]
      by (apply elem_of_dom; rewrite Hdom; by apply elem_of_list_to_set).
    destruct (Hm pid d Hd). rewrite Hd. eapply reads_bind; [by apply reads_i64|].
    eapply reads_last; [by apply reads_i64|].
    instantiate (1 := λ a pid, let meta := cs_pending_meta c !! pid in
      mkConsumer (cs_last_id a) (cs_pending a ++ [pid])
        (<[pid := mkMeta (default 0 (delivery_ms <$> meta)) (default 1 (delivery_count <$> meta))]>
           (cs_pending_meta a))). cbn beta zeta. by rewrite Hd.
  - rewrite foldl_pending; [|intros pid Hin; apply elem_of_dom; rewrite Hdom; by apply elem_of_list_to_set].
    rewrite map_filter_id; [by destruct c|]. intros k d Hk%elem_of_dom_2. rewrite Hdom in Hk. simpl.
    by apply elem_of_list_to_set in Hk.
Qed.

Lemma reads_group acc name gs : short name → storable_group gs →
  reads (read_group acc) (append_group (name, gs)) (<[name := gs]> acc).
Proof.
  intros Hname (Hlast & Hn & Hm). eapply reads_bind; [by apply reads_str|].
  eapply reads_bind; [by apply reads_str|]. cbn [fst snd].
  eapply reads_last; [apply (reads_map _ _ _ (gs_consumers gs))|by destruct gs].
  - apply hash_iter_perm.
  - done.
  - intros a k c [Hk Hc]%Hm. by apply reads_consumer.
Qed.

(** The entry [e0] with the value of [e]. *)
Definition with_value (e e0 : Entry) : Entry :=
  match e_type e with
  | ObjString => set_value (e_value e) e0
  | ObjHash => set_hash (e_hash e) e0
  | ObjList => set_list (e_list e) e0
  | ObjSet => set_set (e_set e) e0
  | ObjZSet => set_zset (e_zset e) e0
  | ObjStream => e0 |> set_stream_last (e_stream_last_ms e) (e_stream_last_seq e)
                    |> set_stream (e_stream e) |> set_stream_groups (e_stream_groups e)
  end.

Lemma reads_stream_payload e e0 :
  e_type e = ObjStream → storable_value (entry_value e) → e_stream_groups e0 = ∅ →
  reads (readStreamEntry reserves e0) (writeStreamEntry e) (with_value e e0).
Proof.
  unfold entry_value, with_value. intros -> (Hms & Hseq & Hn & Hr & Hi & Hg & Hgs) He0.
  eapply reads_bind; [by apply (reads_pod 8); unfold in_u64, UINT64_MAX in Hms; lia|].
  eapply reads_bind; [by apply (reads_pod 8); unfold in_u64, UINT64_MAX in Hseq; lia|].
  unfold append_all at 1. rewrite <-(assoc_L (++)).
  eapply reads_bind; [by apply reads_pod|]. rewrite Hr, Nat2Z.id.
  eapply reads_bind; [apply (reads_n _ _ (λ l se, l ++ [se]))|].
  { intros a se Hin. apply reads_item. by eapply Forall_forall in Hi. }
  eapply reads_last; [rewrite He0; apply (reads_map _ _ _ (e_stream_groups e))|].
  - apply hash_iter_perm.
  - done.
  - intros acc k gs [??]%Hgs. by apply reads_group.
  - by rewrite (foldl_snoc id), list_fmap_id.
Qed.

Lemma reads_payload e e0 :
  storable_value (entry_value e) →
  e_hash e0 = ∅ → e_list e0 = [] → e_set e0 = ∅ → e_zset e0 = ∅ → e_stream_groups e0 = ∅ →
  reads (read_payload reserves (type_byte (e_type e)) e0) (writeEntryPayload e) (with_value e e0).
Proof.
  intros Hv H1 H2 H3 H4 H5. destruct (e_type e) eqn:Ht;
    unfold read_payload, writeEntryPayload, with_value; rewrite Ht; cbn [type_byte Z.eqb Pos.eqb];
    unfold entry_value in Hv; rewrite Ht in Hv.
  - eapply reads_last; [by apply reads_str|done].
  - rewrite H1. eapply reads_last; [by apply reads_fields|done].
  - destruct Hv as [Hn Hl]. eapply reads_last; [apply (reads_all _ _ (λ l v, l ++ [v])); [done|]|].
    + intros a v Hin. eapply reads_last; [apply reads_str|done]. by eapply Forall_forall in Hl.
    + by rewrite H2, (foldl_snoc id), list_fmap_id.
  - destruct Hv as [Hn HX]. eapply reads_last; [apply (reads_all _ _ (λ X m, {[m]} ∪ X))|].
    + by rewrite hash_iter_set_perm.
    + intros a m Hin%hash_iter_set_elem. eapply reads_last; [by apply reads_str, HX|done].
    + rewrite H3, foldl_union_set, (right_id_L ∅ (∪)). f_equal. apply set_eq. intros x.
      by rewrite elem_of_list_to_set, hash_iter_set_elem.
  - destruct Hv as [Hn Hz]. rewrite H4.
    eapply reads_last; [apply (reads_map _ _ _ (e_zset e))|done]; [apply map_iter_perm|done|].
    intros acc k d [Hk Hd]%Hz. eapply reads_bind; [by apply reads_str|].
    by eapply reads_last; [apply reads_double|].
  - assert (with_value e e0 = e0 |> set_stream_last (e_stream_last_ms e) (e_stream_last_seq e)
      |> set_stream (e_stream e) |> set_stream_groups (e_stream_groups e)) as <-
      by (unfold with_value; by rewrite Ht).
    apply reads_stream_payload; [done| |done]. unfold entry_value. by rewrite Ht.
Qed.

End payload.

(** The entry read back, with its type and expiry. *)
Definition reread (ty : ObjType) (ex : Z) (e : Entry) : Entry :=
  with_value e (set_type ty (set_expire ex Entry0)).

Lemma reread_abs e ex : abs_entry (reread (e_type e) ex e) = mkAVal (entry_value e) ex.
Proof. unfold reread, with_value, abs_entry, entry_value. by destruct (e_type e). Qed.

Lemma reread_expire ty ex e : e_expire_at_ms (reread ty ex e) = ex.
Proof. unfold reread, with_value. by destruct (e_type e). Qed.

Lemma reread_coherent e ex : coherent e → coherent (reread (e_type e) ex e).
Proof.
  unfold reread, with_value, coherent, is_type. destruct (e_type e); simpl; tauto.
Qed.

(** ** Writing keys one after the other *)

(** Steps that each write at most their own key, the keys being distinct. *)
Lemma foldl_writes {S X K V} `{EqDecision K} (get : S → K → option V) (step : S → X → S)
    (key : X → K) (val : X → option V) l s k :
  (∀ s x k, get (step s x) k =
     if decide (key x = k) then match val x with Some v => Some v | None => get s k end else get s k) →
  NoDup (key <$> l) →
  (∀ x, x ∈ l → key x = k → val x ≠ None → get (foldl step s l) k = val x) ∧
  ((∀ x, x ∈ l → key x = k → val x = None) → get (foldl step s l) k = get s k).
Proof.
  intros Hstep. revert s. induction l as [|x l IH]; intros s Hl.
  { split; [|done]. by intros x ?%elem_of_nil. }
  rewrite fmap_cons in Hl. apply NoDup_cons in Hl as [Hx Hl]. destruct (IH (step s x) Hl) as [IH1 IH2].
  split; cbn [foldl].
  - intros y [->|Hy]%elem_of_cons Hk Hv; [|by apply IH1].
    rewrite IH2; [rewrite Hstep, decide_True by done; by destruct (val _)|].
    intros y' Hy Hky. destruct Hx. rewrite Hk, <-Hky. by apply list_elem_of_fmap_2.
  - intros H. rewrite IH2 by (intros y Hy; apply H; by right). rewrite Hstep.
    case_decide as Hk; [|done]. by rewrite (H x) by (done || by left).
Qed.

Lemma NoDup_fst_unique {A} (l : list (string * A)) k a b :
  NoDup l.*1 → (k, a) ∈ l → (k, b) ∈ l → a = b.
Proof.
  intros Hl Ha%(elem_of_list_to_map_1 (M := gmap string)) Hb%(elem_of_list_to_map_1 (M := gmap string)); [congruence|done..].
Qed.

Lemma foldl_bind {A B S} (f : A → list B) (step : S → B → S) l s :
  foldl step s (l ≫= f) = foldl (λ s a, foldl step s (f a)) s l.
Proof. revert s. induction l as [|a l IH]; intros s; [done|]. cbn. by rewrite foldl_app, IH. Qed.

Lemma bind_bind {A B C} (f : A → list B) (g : B → list C) l :
  (l ≫= f) ≫= g = l ≫= λ a, f a ≫= g.
Proof. induction l as [|a l IH]; [done|]. cbn. by rewrite bind_app, IH. Qed.

(** ** The snapshot *)

Section snapshot.
Context `{impl : !StdImpl}.

Abbreviation Snap := (list (Z * list (string * Entry))).

Fixpoint snap_get (db : Z) (snap : Snap) : list (string * Entry) :=
  match snap with [] => [] | (d, l) :: snap => if d =? db then l else snap_get db snap end.

Lemma snap_get_add db db' es snap :
  snap_get db' (snap_add db es snap) = snap_get db' snap ++ (if db =? db' then es else []).
Proof.
  induction snap as [|[d l] snap IH]; simpl.
  - destruct es as [|p es]; simpl; by destruct (db =? db').
  - destruct (Z.eqb_spec d db) as [->|Hd]; simpl.
    + destruct (db =? db'); [done|by rewrite (right_id_L [] (++))].
    + destruct (Z.eqb_spec d db') as [->|]; [|done].
      destruct (Z.eqb_spec db db'); [by subst|by rewrite (right_id_L [] (++))].
Qed.

Lemma snap_add_fst db es (snap : Snap) d : d ∈ (snap_add db es snap).*1 → d = db ∨ d ∈ snap.*1.
Proof.
  induction snap as [|[d' l] snap IH]; simpl.
  - destruct es; simpl; [by intros ?%elem_of_nil|intros ->%list_elem_of_singleton; by left].
  - destruct (d' =? db); simpl; rewrite !elem_of_cons; naive_solver.
Qed.

Lemma snap_add_NoDup db es (snap : Snap) : NoDup snap.*1 → NoDup (snap_add db es snap).*1.
Proof.
  induction snap as [|[d l] snap IH]; intros Hl; simpl.
  - destruct es; simpl; [constructor|apply NoDup_singleton].
  - rewrite fmap_cons in Hl. apply NoDup_cons in Hl as [Hd Hl].
    destruct (Z.eqb_spec d db) as [->|Hne]; simpl; apply NoDup_cons; [done|].
    split; [|by apply IH]. by intros [->|?]%snap_add_fst.
Qed.

Lemma snapshot_NoDup now s : NoDup (snapshot now s).*1.
Proof.
  unfold snapshot. generalize (vec_to_list (m_shards s) ≫= λ sh, hash_iter (m_dbs sh)).
  intros l. assert (NoDup ([] : Snap).*1) as H by constructor. revert H. generalize ([] : Snap).
  induction l as [|p l IH]; intros snap H; [done|]. by apply IH, snap_add_NoDup.
Qed.

Lemma snap_get_elem db l (snap : Snap) : NoDup snap.*1 → (db, l) ∈ snap → snap_get db snap = l.
Proof.
  induction snap as [|[d l'] snap IH]; [by intros _ ?%elem_of_nil|].
  rewrite fmap_cons. intros [Hd Hl]%NoDup_cons [[= -> ->]|Hin]%elem_of_cons; simpl; [by rewrite Z.eqb_refl|].
  destruct (Z.eqb_spec d db) as [->|]; [|by apply IH].
  destruct Hd. by apply (list_elem_of_fmap_2' fst _ (db, l)).
Qed.

Lemma snap_get_None db (snap : Snap) : db ∉ snap.*1 → snap_get db snap = [].
Proof.
  induction snap as [|[d l] snap IH]; [done|]. rewrite fmap_cons, not_elem_of_cons. intros [Hd Hn].
  simpl. rewrite (proj2 (Z.eqb_neq d db)) by done. by apply IH.
Qed.

(** The entries of a database, shard by shard. *)
Lemma snapshot_get db now s :
  snap_get db (snapshot now s) =
    enum (fin kShardCount) ≫= λ i, hash_iter (m_dbs (m_shards s !!! i)) ≫= λ p,
      if p.1 =? db then snap_entries now p.2 else [].
Proof.
  unfold snapshot.
  assert (∀ l (snap : Snap), snap_get db (foldl (λ snap p, snap_add p.1 (snap_entries now p.2) snap) snap l) =
    snap_get db snap ++ (l ≫= λ p, if p.1 =? db then snap_entries now p.2 else [])) as H.
  { induction l as [|p l IH]; intros snap; simpl; [by rewrite (right_id_L [] (++))|].
    by rewrite IH, snap_get_add, <-(assoc_L (++)). }
  rewrite H, vec_to_list_enum, list_fmap_bind, bind_bind. done.
Qed.

Lemma snap_entries_elem now m key e :
  (key, e) ∈ snap_entries now m ↔ m !! key = Some e ∧ isExpired e now = false.
Proof. unfold snap_entries. rewrite list_elem_of_filter, hash_iter_elem. tauto. Qed.

Lemma snapshot_elem db now s key e :
  wf s → (key, e) ∈ snap_get db (snapshot now s) ↔ live s now db key = Some e.
Proof.
  intros Hs. rewrite snapshot_get. unfold live, raw, db_map. split.
  - intros (i & Hin & _)%list_elem_of_bind. apply list_elem_of_bind in Hin as ([d m] & Hin & Hm%hash_iter_elem).
    simpl in Hin. destruct (Z.eqb_spec d db) as [->|]; [|by apply elem_of_nil in Hin].
    apply snap_entries_elem in Hin as [Hk He].
    assert (shardIdx key = i) as <- by (eapply (Hs i db); unfold db_map; by rewrite Hm).
    unfold getShard. rewrite Hm. simpl. rewrite Hk. simpl. by rewrite He.
  - unfold live_of. destruct (m_dbs (getShard s key) !! db) as [m|] eqn:Hm; cbn [default from_option id];
      [|by rewrite lookup_empty].
    destruct (m !! key) as [e'|] eqn:Hk; [|done]. destruct (isExpired e' now) eqn:He; [done|].
    intros [= ->]. apply list_elem_of_bind. exists (shardIdx key). split; [|apply elem_of_enum].
    apply list_elem_of_bind. exists (db, m). split; [|by apply hash_iter_elem].
    simpl. rewrite Z.eqb_refl. by apply snap_entries_elem.
Qed.

Lemma snapshot_keys_NoDup db now s : wf s → NoDup (snap_get db (snapshot now s)).*1.
Proof.
  intros Hs. rewrite snapshot_get, fmap_bind. apply NoDup_bind; [| |apply NoDup_enum].
  - assert (∀ i key, key ∈ (hash_iter (m_dbs (m_shards s !!! i)) ≫= λ p,
      if p.1 =? db then snap_entries now p.2 else []).*1 → shardIdx key = i) as H; [|intros i j key _ _ ?%H ?%H; congruence].
    intros i key ([? e] & -> & Hin)%list_elem_of_fmap.
    apply list_elem_of_bind in Hin as ([d m] & Hin & Hm%hash_iter_elem). simpl in Hin.
    destruct (Z.eqb_spec d db) as [->|]; [|by apply elem_of_nil in Hin].
    apply snap_entries_elem in Hin as [Hk He]. eapply (Hs i db). unfold db_map. by rewrite Hm.
  - intros i _. rewrite fmap_bind. apply NoDup_bind; [| |apply NoDup_hash_iter].
    + intros [d m] [d' m'] key Hm%hash_iter_elem Hm'%hash_iter_elem. simpl.
      destruct (Z.eqb_spec d db) as [->|]; [|by intros ?%elem_of_nil].
      destruct (Z.eqb_spec d' db) as [->|]; [|by intros _ ?%elem_of_nil]. congruence.
    + intros [d m] _. simpl. destruct (d =? db); [|constructor].
      apply NoDup_fmap_filter. rewrite hash_iter_perm. apply NoDup_fst_map_to_list.
Qed.
End snapshot.

(** ** Loading *)

Section load.
Context `{impl : !StdImpl} (reserves : Z → bool).

(** What one entry of the file adds to its map. *)
Definition load_entry (now : Z) (m : DbMap) (kv : string * Entry) : DbMap :=
  if isExpired kv.2 now then m
  else <[kv.1 := reread (e_type kv.2) (e_expire_at_ms kv.2) kv.2]> m.
Definition load_db (now : Z) (r : gmap Z DbMap) (p : Z * list (string * Entry)) : gmap Z DbMap :=
  <[p.1 := foldl (load_entry now) (default ∅ (r !! p.1)) p.2]> r.

Definition storable_entry (kv : string * Entry) : Prop :=
  short kv.1 ∧ in_i64 (e_expire_at_ms kv.2) ∧ storable_value reserves (entry_value kv.2).

Lemma obj_type_byte t : obj_type (type_byte t) = Some t.
Proof. by destruct t. Qed.

Lemma reads_type t : reads (readPod 1) (appendU8 (type_byte t)) (type_byte t).
Proof. apply reads_pod. by destruct t. Qed.

Lemma reads_entry now m kv : storable_entry kv →
  reads (read_entry reserves now m) (append_entry kv) (load_entry now m kv).
Proof.
  intros (Hk & Hx & Hv). unfold read_entry, append_entry, load_entry.
  eapply reads_bind; [by apply reads_or_err, reads_str|].
  eapply reads_bind; [by apply reads_or_err, reads_i64|]. cbv zeta.
  change (isExpired (set_expire (e_expire_at_ms kv.2) Entry0) now) with (isExpired kv.2 now).
  destruct (isExpired kv.2 now) eqn:He.
  - eapply reads_bind; [apply reads_type|]. eapply reads_last; [|done].
    apply reads_or_err. by eapply reads_last; [apply reads_payload|].
  - eapply reads_bind; [apply reads_or_err, reads_type|]. rewrite obj_type_byte. cbn [default from_option id].
    eapply reads_last.
    + instantiate (1 := reread (e_type kv.2) (e_expire_at_ms kv.2) kv.2).
      destruct (type_byte (e_type kv.2) =? 5); [apply reads_or_err|]; by apply reads_payload.
    + unfold isExpired. rewrite reread_expire. unfold isExpired in He. by rewrite He.
Qed.

Lemma i32_id z : - 2 ^ 31 ≤ z < 2 ^ 31 → i32 z = z.
Proof. intros Hz. unfold i32. rewrite Z.mod_small; lia. Qed.

Definition storable_db (p : Z * list (string * Entry)) : Prop :=
  - 2 ^ 31 ≤ p.1 < 2 ^ 31 ∧ small (Z.of_nat (length p.2)) ∧ Forall storable_entry p.2.

Lemma reads_db now r p : storable_db p → reads (read_db reserves now r) (append_db p) (load_db now r p).
Proof.
  intros (Hd & Hn & Hl). unfold read_db, append_db.
  eapply reads_bind; [apply reads_or_err, reads_i64; unfold in_i64, INT64_MIN, INT64_MAX; lia|].
  unfold append_all. eapply reads_bind; [by apply reads_or_err, reads_pod|]. rewrite Nat2Z.id, i32_id by done.
  eapply reads_last; [apply (reads_n _ _ (load_entry now))|done].
  intros a kv Hin. apply reads_entry. by eapply Forall_forall in Hl.
Qed.

(** The snapshot fits the format. *)
Definition storable (now : Z) (s : KvStore) : Prop :=
  small (Z.of_nat (length (snapshot now s))) ∧ Forall storable_db (snapshot now s).

#[export] Instance storable_entry_dec kv : Decision (storable_entry kv).
Proof. unfold storable_entry, short. apply _. Defined.
#[export] Instance storable_db_dec p : Decision (storable_db p).
Proof. unfold storable_db, small. apply _. Defined.
#[export] Instance storable_dec now s : Decision (storable now s).
Proof. unfold storable, small. apply _. Defined.

Lemma reads_snapshot saved_at now now' s : storable now s →
  reads (read_snapshot reserves now') (dump saved_at now s) (foldl (load_db now') ∅ (snapshot now s)).
Proof.
  intros [Hn Hl]. unfold read_snapshot, dump, dumpBinaryV2.
  eapply reads_bind.
  { intros rest. rewrite take_app_length', drop_app_length' by done.
    rewrite bool_decide_eq_true_2, length_app by done. done. }
  eapply reads_bind; [apply reads_or_err, reads_pod; by vm_compute|].
  rewrite Z.eqb_refl. cbn [negb].
  eapply reads_bind; [apply reads_or_err, (reads_pod_mod 8)|].
  unfold append_all. rewrite <-(assoc_L (++)).
  eapply reads_bind; [by apply reads_or_err, reads_pod|]. rewrite Nat2Z.id.
  eapply reads_bind; [apply (reads_n _ _ (load_db now'))|].
  { intros a p Hin. apply reads_db. by eapply Forall_forall in Hl. }
  rewrite <-(right_id_L [] (++) (appendU8 0xFF)).
  eapply reads_bind; [apply reads_or_err, reads_pod; by vm_compute|]. apply reads_ret.
Qed.

(** A loaded database, entry by entry. *)
Lemma load_dbs_get now r (snap : list (Z * list (string * Entry))) db : NoDup snap.*1 →
  default ∅ (foldl (load_db now) r snap !! db) =
  foldl (load_entry now) (default ∅ (r !! db)) (snap_get db snap).
Proof.
  revert r. induction snap as [|[d l] snap IH]; intros r; [done|]. rewrite fmap_cons.
  intros [Hd Hl]%NoDup_cons. cbn [foldl snap_get]. rewrite IH by done. unfold load_db. cbn [fst snd].
  destruct (Z.eqb_spec d db) as [->|Hne].
  - rewrite lookup_insert_eq. cbn [default from_option id]. by rewrite (snap_get_None db snap).
  - by rewrite lookup_insert_ne.
Qed.

Lemma load_entries_get now l key :
  NoDup l.*1 →
  (∀ e, (key, e) ∈ l → foldl (load_entry now) ∅ l !! key =
     if isExpired e now then None else Some (reread (e_type e) (e_expire_at_ms e) e)) ∧
  ((∀ e, (key, e) ∉ l) → foldl (load_entry now) ∅ l !! key = None).
Proof.
  intros Hl.
  destruct (foldl_writes (λ m key, m !! key) (load_entry now) fst
    (λ kv, if isExpired kv.2 now then None else Some (reread (e_type kv.2) (e_expire_at_ms kv.2) kv.2))
    l (∅ : DbMap) key) as [H1 H2]; [|done|].
  { intros m [k e] k'. unfold load_entry. simpl. destruct (isExpired e now); [by case_decide|].
    case_decide as Hk; [subst; by rewrite lookup_insert_eq|by rewrite lookup_insert_ne]. }
  split.
  - intros e Hin. destruct (isExpired e now) eqn:He.
    + rewrite H2; [by rewrite lookup_empty|]. intros [k e'] Hin' Hk. simpl in Hk. subst k.
      assert (e' = e) as -> by (by eapply NoDup_fst_unique). simpl. by rewrite He.
    + rewrite (H1 (key, e)); simpl; by rewrite ?He.
  - intros Hn. rewrite H2; [by rewrite lookup_empty|]. intros [k e] Hin Hk. simpl in Hk. subst k. by destruct (Hn e).
Qed.

(** The databases put in place of a store's. *)
Definition flat (r : gmap Z DbMap) : list (Z * string * Entry) :=
  hash_iter r ≫= λ p, (λ kv, (p.1, kv.1, kv.2)) <$> hash_iter p.2.

Definition put_key (s : KvStore) (x : Z * string * Entry) : KvStore :=
  write_key x.1.1 x.1.2 (Some x.2) 0 s.

Lemma install_flat r s :
  install r s = foldl put_key (set_shards (vmap clear_shard (m_shards s)) s) (flat r).
Proof.
  unfold install, flat. rewrite foldl_bind. generalize (set_shards (vmap clear_shard (m_shards s)) s).
  induction (hash_iter r) as [|[db m] l IH]; intros t; [done|]. cbn [foldl fst snd]. rewrite IH. f_equal.
  clear IH. revert t. induction (hash_iter m) as [|kv l' IH]; intros t; [done|]. apply IH.
Qed.

Lemma flat_elem r db key e : (db, key, e) ∈ flat r ↔ default ∅ (r !! db) !! key = Some e.
Proof.
  unfold flat. rewrite list_elem_of_bind. split.
  - intros ([d m] & ([k e'] & [= -> -> ->] & He%hash_iter_elem)%list_elem_of_fmap & Hm%hash_iter_elem).
    by rewrite Hm.
  - destruct (r !! db) as [m|] eqn:Hm; cbn [default from_option id]; [|by rewrite lookup_empty].
    intros He. exists (db, m). split; [|by apply hash_iter_elem].
    apply list_elem_of_fmap. exists (key, e). split; [done|by apply hash_iter_elem].
Qed.

Lemma flat_NoDup r : NoDup (flat r).*1.
Proof.
  unfold flat. rewrite fmap_bind. apply NoDup_bind; [| |apply NoDup_hash_iter].
  - intros [d m] [d' m'] [db key] Hm%hash_iter_elem Hm'%hash_iter_elem. simpl.
    rewrite <-!list_fmap_compose. intros (? & [= -> ->] & _)%list_elem_of_fmap (? & [= <- _] & _)%list_elem_of_fmap.
    congruence.
  - intros [d m] _. simpl. rewrite <-list_fmap_compose.
    change (NoDup (pair d ∘ fst <$> hash_iter m)). rewrite list_fmap_compose.
    apply NoDup_fmap_2; [apply _|]. rewrite hash_iter_perm. apply NoDup_fst_map_to_list.
Qed.

Lemma install_raw r s db key : raw (install r s) db key = default ∅ (r !! db) !! key.
Proof.
  rewrite install_flat.
  destruct (foldl_writes (λ s (k : Z * string), raw s k.1 k.2) put_key fst (λ x, Some x.2) (flat r)
    (set_shards (vmap clear_shard (m_shards s)) s) (db, key)) as [H1 H2]; [|apply flat_NoDup|].
  { intros t [[d k] e] [d' k']. unfold put_key. cbn [fst snd]. case_decide as Hk.
    - injection Hk as -> ->. apply raw_write_key.
    - by apply raw_write_key_ne. }
  cbn [fst snd] in *. destruct (default ∅ (r !! db) !! key) as [e|] eqn:He.
  - apply flat_elem in He. by rewrite (H1 _ He).
  - rewrite H2.
    + unfold raw, getShard, set_shards. simpl. rewrite vlookup_map. unfold db_map, clear_shard. simpl.
      by rewrite lookup_empty.
    + intros [k e] Hin Hk. simpl in Hk. subst k. apply flat_elem in Hin. congruence.
Qed.

Lemma install_wf r s :
  (∀ db key e, default ∅ (r !! db) !! key = Some e → coherent e) → wf (install r s).
Proof.
  intros Hr. rewrite install_flat.
  assert (∀ x, x ∈ flat r → coherent x.2) as Hf by (intros [[d k] e] H%flat_elem; by eapply Hr).
  revert Hf. generalize (flat r). intros l Hl.
  assert (wf (set_shards (vmap clear_shard (m_shards s)) s)) as H0.
  { intros i db key e. unfold set_shards. simpl. rewrite vlookup_map. unfold db_map, clear_shard. simpl.
    by rewrite lookup_empty. }
  revert H0. generalize (set_shards (vmap clear_shard (m_shards s)) s).
  induction l as [|x l IH]; intros t Ht; [done|]. apply IH; [intros y Hy; apply Hl; by right|].
  apply wf_write_key; [done|]. apply Hl. by left.
Qed.

Lemma live_later s now t db key : now ≤ t → live s t db key = live_of (live s now db key) t.
Proof.
  intros Ht. unfold live. destruct (raw s db key) as [e|]; [|done]. cbn [live_of].
  destruct (isExpired e now) eqn:He; [|done]. unfold isExpired in *.
  apply andb_prop in He as [H0 H1%Z.leb_le]. rewrite H0. cbn [andb].
  by rewrite (proj2 (Z.leb_le _ _)) by lia.
Qed.

(** A snapshot read back, at the time of reading or later, shows what the store showed. *)
Lemma load_dump json saved_at now now' s s0 :
  wf s → storable now s → now ≤ now' →
  ∃ s', loadFromString reserves json (dump saved_at now s) now' s0 = (s', Done (ok true tt)) ∧ wf s' ∧
    ∀ t db key, now' ≤ t → view s' t db key = view s t db key.
Proof.
  intros Hs Hst Hnow. set (r := foldl (load_db now') ∅ (snapshot now s)).
  exists (install r s0).
  assert (∀ db key, default ∅ (r !! db) !! key =
    match live s now' db key with
    | Some e => Some (reread (e_type e) (e_expire_at_ms e) e) | None => None end) as Hr.
  { intros db key. unfold r. rewrite load_dbs_get by apply snapshot_NoDup.
    rewrite lookup_empty. cbn [default from_option id].
    destruct (load_entries_get now' (snap_get db (snapshot now s)) key) as [H1 H2];
      [by apply snapshot_keys_NoDup|].
    rewrite (live_later s now now') by done.
    destruct (live s now db key) as [e|] eqn:He.
    - rewrite (H1 e) by (by apply snapshot_elem). simpl. by destruct (isExpired e now').
    - rewrite H2; [done|]. intros e Hin. apply snapshot_elem in Hin; [congruence|done]. }
  split_and!.
  - pose proof (reads_snapshot saved_at now now' s Hst []) as Hd. rewrite (right_id_L [] (++)) in Hd.
    unfold loadFromString. rewrite bool_decide_eq_false_2 by done.
    assert (isBinaryV2 (dump saved_at now s) = true) as -> by done.
    unfold loadBinaryV2. by rewrite Hd.
  - apply install_wf. intros db key e. rewrite Hr. destruct (live s now' db key) as [e'|] eqn:He; [|done].
    intros [= <-]. apply reread_coherent. pose proof (coherent_live (raw s db key) now') as H.
    unfold live in He. rewrite He in H. apply H. by apply wf_coherent.
  - intros t db key Ht. rewrite view_raw, install_raw, Hr, (view_later s now' t) by done.
    unfold view. destruct (live s now' db key) as [e|]; [|done]. cbn [fmap option_fmap option_map]. by rewrite reread_abs.
Qed.
End load.

(** ** Readers take a prefix *)

(** What a reader accepts it takes from the front, whatever follows. *)
Definition takes_prefix {A} (m : Rd A) : Prop := ∀ p q a,
  m p = inr (q, a) → ∃ pre, p = pre ++ q ∧ ∀ x, m (p ++ x) = inr (q ++ x, a).

Create HintDb reader.

Lemma takes_ret {A} (a : A) : takes_prefix (mret a).
Proof. intros p q a' [= -> ->]. by exists []. Qed.

Lemma takes_fails {A} f : takes_prefix (fails f : Rd A).
Proof. intros p q a [=]. Qed.

Lemma takes_bind {A B} (m : Rd A) (k : A → Rd B) :
  takes_prefix m → (∀ a, takes_prefix (k a)) → takes_prefix (m ≫= k).
Proof.
  intros Hm Hk p q b. unfold mbind, Rd_bind. destruct (m p) as [f|[p1 a]] eqn:E; [done|].
  intros (pre & -> & Hx)%Hk. apply Hm in E as (pre1 & -> & Hy).
  exists (pre1 ++ pre). split; [by rewrite (assoc_L (++))|]. intros x. by rewrite Hy.
Qed.

Lemma takes_or_err {A} msg (m : Rd A) : takes_prefix m → takes_prefix (or_err msg m).
Proof.
  intros Hm p q a. unfold or_err. destruct (m p) as [[]|[q' a']] eqn:E; [done..|].
  intros [= -> ->]. apply Hm in E as (pre & -> & Hx). exists pre. split; [done|]. intros x. by rewrite Hx.
Qed.

Lemma takes_cut {A} n (f : Bytes → A) :
  takes_prefix (λ p, if (length p <? n)%nat then inl (Malformed None) else inr (drop n p, f (take n p))).
Proof.
  intros p q a. destruct (Nat.ltb_spec (length p) n); [done|]. intros [= <- <-].
  exists (take n p). split; [by rewrite take_drop|]. intros x. rewrite length_app.
  destruct (Nat.ltb_spec (length p + length x) n); [lia|].
  by rewrite drop_app_le, take_app_le by lia.
Qed.

Lemma takes_pod n : takes_prefix (readPod n).
Proof. apply (takes_cut n le_value). Qed.

Lemma takes_str : takes_prefix readStr.
Proof.
  apply takes_bind; [apply takes_pod|]. intros len p q a.
  intros Hp. destruct (takes_cut (Z.to_nat len) text p q a) as (pre & -> & Hx).
  - revert Hp. destruct (Z.ltb_spec (Z.of_nat (length p)) len), (Nat.ltb_spec (length p) (Z.to_nat len)); (done || lia).
  - exists pre. split; [done|]. intros x. rewrite <-(Hx x). revert Hp. rewrite !length_app.
    destruct (Z.ltb_spec (Z.of_nat (length pre + length q)) len); [done|].
    destruct (Z.ltb_spec (Z.of_nat (length pre + length q + length x)) len),
      (Nat.ltb_spec (length pre + length q + length x) (Z.to_nat len)); (done || lia).
Qed.

Lemma takes_n {A} n (step : A → Rd A) a : (∀ a, takes_prefix (step a)) → takes_prefix (read_n n step a).
Proof.
  intros H. revert a. induction n as [|n IH]; intros a; [apply takes_ret|].
  apply takes_bind; [apply H|done].
Qed.

#[local] Hint Resolve takes_ret takes_fails takes_or_err takes_pod takes_str takes_n : reader.

Ltac reader := repeat first
  [ progress intros
  | solve [auto with reader]
  | lazymatch goal with
    | |- takes_prefix (or_err _ _) => apply takes_or_err
    | |- takes_prefix (_ ≫= _) => apply takes_bind
    | |- takes_prefix (read_n _ _ _) => apply takes_n
    | |- takes_prefix (read_all _ _) => unfold read_all
    end
  | case_match ].

Lemma takes_all {A} (step : A → Rd A) a : (∀ a, takes_prefix (step a)) → takes_prefix (read_all step a).
Proof. intros. unfold read_all. reader. Qed.

Lemma takes_field m : takes_prefix (read_field m).
Proof. unfold read_field. reader. Qed.
#[local] Hint Resolve takes_all takes_field : reader.

Section prefix.
Context (reserves : Z → bool).

Lemma takes_pending c : takes_prefix (read_pending c).
Proof. unfold read_pending, readI64. reader. Qed.
#[local] Hint Resolve takes_pending : reader.

Lemma takes_consumer m : takes_prefix (read_consumer m).
Proof. unfold read_consumer. reader. Qed.
#[local] Hint Resolve takes_consumer : reader.

Lemma takes_group m : takes_prefix (read_group m).
Proof. unfold read_group. reader. Qed.
Lemma takes_item l : takes_prefix (read_item l).
Proof. unfold read_item. reader. Qed.
#[local] Hint Resolve takes_group takes_item : reader.

Lemma takes_payload type e : takes_prefix (read_payload reserves type e).
Proof. unfold read_payload, readStreamEntry, readDouble. reader. Qed.
#[local] Hint Resolve takes_payload : reader.

Lemma takes_entry now m : takes_prefix (read_entry reserves now m).
Proof. unfold read_entry, readI64, skipEntryPayload. reader. Qed.
#[local] Hint Resolve takes_entry : reader.

Lemma takes_db now r : takes_prefix (read_db reserves now r).
Proof. unfold read_db, readI64. reader. Qed.
#[local] Hint Resolve takes_db : reader.

Lemma takes_snapshot now : takes_prefix (read_snapshot reserves now).
Proof.
  unfold read_snapshot. apply takes_bind; [|reader].
  intros p q a. destruct (Nat.ltb_spec (length p) 8); [done|]. cbn [orb].
  case_bool_decide as Hm; [|done]. intros [= <- <-]. exists (take 8 p). split; [by rewrite take_drop|].
  intros x. rewrite length_app. destruct (Nat.ltb_spec (length p + length x) 8); [lia|].
  rewrite take_app_le, drop_app_le by lia. by rewrite bool_decide_eq_true_2.
Qed.
End prefix.

(** ** Truncated files, DUMP and RESTORE *)

Section restore.
Context `{impl : !StdImpl} (reserves : Z → bool).

(** A file cut anywhere behind its magic is refused, and the store stays as it is. *)
Lemma load_truncated json saved_at now now' s s0 k :
  storable reserves now s → (7 ≤ k < length (dump saved_at now s))%nat →
  ∃ o, loadFromString reserves json (take k (dump saved_at now s)) now' s0 = (s0, o) ∧ o ≠ Done (ok true tt).
Proof.
  intros Hst Hk. set (d := dump saved_at now s) in *.
  assert (take k d ≠ []) as Hne by (intros E%(f_equal length); rewrite length_take in E; simpl in E; lia).
  assert (isBinaryV2 (take k d) = true) as Hb.
  { unfold isBinaryV2. rewrite length_take, take_take, (Nat.min_l 6), (Nat.min_l k) by lia.
    rewrite (proj2 (Nat.leb_le _ _)) by lia. by apply bool_decide_eq_true_2. }
  unfold loadFromString. rewrite bool_decide_eq_false_2, Hb by done. unfold loadBinaryV2.
  destruct (read_snapshot reserves now' (take k d)) as [[err|]|[q r]] eqn:E; [by eexists..|].
  exfalso. apply takes_snapshot in E as (pre & _ & Hx). specialize (Hx (drop k d)). rewrite take_drop in Hx.
  pose proof (reads_snapshot reserves saved_at now now' s Hst []) as Hd. rewrite (right_id_L [] (++)) in Hd.
  fold d in Hd. rewrite Hd in Hx. injection Hx as Hq _. symmetry in Hq.
  apply app_eq_nil in Hq as [_ Hq]. assert (length (drop k d) = 0%nat) as Hz by (by rewrite Hq).
  rewrite length_drop in Hz. lia.
Qed.

Lemma reads_dump e : in_i64 (e_expire_at_ms e) → storable_value reserves (entry_value e) →
  reads (read_dump reserves)
    (appendI64 (e_expire_at_ms e) ++ appendU8 (type_byte (e_type e)) ++ writeEntryPayload e)
    (type_byte (e_type e), with_value e (set_expire (e_expire_at_ms e) Entry0)).
Proof.
  intros Hx Hv. eapply reads_bind; [by apply reads_i64|]. eapply reads_bind; [apply reads_type|].
  eapply reads_last; [by apply reads_payload|done].
Qed.

Lemma raw_set_db_same db key s db' key' :
  raw (set_shard (shardIdx key) (set_db db (db_map (getShard s key) db) (getShard s key)) s) db' key' =
  raw s db' key'.
Proof.
  unfold raw. destruct (decide (shardIdx key' = shardIdx key)) as [Hk|Hk].
  - unfold getShard at 1. rewrite Hk. fold (getShard (set_shard (shardIdx key)
      (set_db db (db_map (getShard s key) db) (getShard s key)) s) key).
    rewrite getShard_set_shard. unfold getShard at 1 2. rewrite <-Hk. fold (getShard s key').
    destruct (decide (db = db')) as [->|]; [by rewrite db_map_set_db|by rewrite db_map_set_db_ne].
  - by rewrite getShard_set_shard_ne.
Qed.

(** What [RESTORE] makes of a payload: [v] is the value it was written from. *)
Definition restored (db : Z) (key : string) (ttl now : Z) (replace : bool) (v : Value) (s : KvStore)
    (r : KvStore * Outcome) : Prop :=
  if match view s now db key with Some _ => negb replace | None => false end
  then r.2 = Done (fail false tt "BUSYKEY Target key name already exists.") ∧
       ∀ t db' key', view r.1 t db' key' = view s t db' key'
  else r.2 = Done (ok true tt) ∧ wf r.1 ∧
       ∀ t db' key', view r.1 t db' key' =
         if decide ((db', key') = (db, key))
         then av_live t (Some (mkAVal v (if ttl =? 0 then 0 else i64 (now + ttl))))
         else view s t db' key'.

Lemma restoreKey_run db key ttl payload replace now s ty t e :
  read_dump reserves payload = inr ([], (ty, e)) → obj_type ty = Some t →
  restoreKey reserves db key ttl (dump_magic ++ payload) replace now s =
    let e := set_expire (if ttl =? 0 then 0 else i64 (now + ttl)) e in
    if match live s now db key with Some _ => negb replace | None => false end
    then (set_shard (shardIdx key) (set_db db (db_map (getShard s key) db) (getShard s key)) s,
          Done (fail false tt "BUSYKEY Target key name already exists."))
    else (write_key db key (Some (e |> set_type t |> set_lru now)) 1 s, Done (ok true tt)).
Proof.
  intros Hp Ht. unfold restoreKey.
  destruct (Nat.ltb_spec (length (dump_magic ++ payload)) 8) as [H|_]; [rewrite length_app in H; simpl in H; lia|].
  rewrite bool_decide_eq_true_2 by done. cbn [orb negb].
  change (drop 8 (dump_magic ++ payload)) with payload. rewrite Hp, Ht. cbv zeta. by case_match.
Qed.

Lemma dump_restore db key now s e db2 key2 ttl replace now2 s2 :
  live s now db key = Some e → wf s → wf s2 →
  in_i64 (e_expire_at_ms e) → storable_value reserves (entry_value e) →
  ∃ ttl0 payload, dumpKey db key now s = Some (ttl0, payload) ∧
    restored db2 key2 ttl now2 replace (entry_value e) s2
      (restoreKey reserves db2 key2 ttl payload replace now2 s2).
Proof.
  intros He Hs Hs2 Hx Hv. unfold dumpKey. rewrite He. eexists _, _. split; [done|].
  pose proof (reads_dump e Hx Hv []) as Hd. rewrite (right_id_L [] (++)) in Hd.
  erewrite restoreKey_run by (done || by rewrite obj_type_byte). unfold restored, view at 1. cbv zeta.
  set (e' := _ |> set_lru now2).
  assert (coherent e' ∧ abs_entry e' = mkAVal (entry_value e) (if ttl =? 0 then 0 else i64 (now2 + ttl))) as [Hco Habs].
  { assert (coherent e) as He'.
    { pose proof (coherent_live (raw s db key) now (wf_coherent s db key Hs)) as H. unfold live in He. by rewrite He in H. }
    revert He'. unfold e', with_value, coherent, is_type, abs_entry, entry_value. destruct (e_type e); simpl; tauto. }
  destruct (live s2 now2 db2 key2) as [e2|]; [destruct replace|]; cbn [fmap option_fmap option_map negb fst snd];
    cycle 1.
  { split; [done|]. intros t db' key'. rewrite !view_raw, raw_set_db_same. done. }
  all: split; [done|split; [by apply wf_write_key|]]; intros t db' key'; case_decide as Hk;
    [injection Hk as -> ->; by rewrite view_write_key, <-Habs|by apply view_write_key_ne].
Qed.

(** [RESTORE] checks nothing behind the magic: a hand-made payload makes an empty list,
    which no other command leaves behind, or an entry whose type is no enumerator. *)
Definition forged (ty : Z) : Bytes := dump_magic ++ appendI64 0 ++ appendU8 ty ++ appendU32 0.

Lemma restore_forged db key now s :
  view s now db key = None →
  (let r := restoreKey reserves db key 0 (forged 2) false now s in
   r.2 = Done (ok true tt) ∧ (∀ t, view r.1 t db key = Some (mkAVal (VList []) 0)) ∧ ¬ wf r.1) ∧
  (restoreKey reserves db key 0 (forged 9) false now s).2 = NoType.
Proof.
  intros Hv. assert (live s now db key = None) as Hl.
  { unfold view in Hv. by destruct (live s now db key). }
  split; [|unfold restoreKey; cbn; by rewrite Hl].
  unfold forged. erewrite restoreKey_run by done. rewrite Hl. cbv zeta. split_and!.
  - done.
  - intros t. cbn [fst]. by rewrite view_write_key.
  - intros Hw. pose proof (wf_coherent _ db key Hw) as H. cbn [fst] in H. rewrite raw_write_key in H.
    destruct H as (_ & _ & H & _). by apply H.
Qed.
End restore.
