(* ===== verification/SetAlgebra.v ===== *)
(** * The set algebra over several keys

    [SINTER], [SUNION], [SDIFF] and their [STORE] forms against folds over the values
    the client sees at the keys. *)

From stdpp Require Import vector finite.
From stdpp Require Import options.
From S2P Require Import Prelude.
From S2P Require Import CStd.
From S2P Require Import Store.
From S2P Require Import Evict.
From S2P Require Import StoreFacts.
From S2P Require Import StrOps.
From S2P Require Import ListOps.
From S2P Require Import SetOps.
From S2P Require Import StreamOps.
From S2P Require Import KeySpace.
From S2P Require Import EvictFacts.
From S2P Require Import KeyOps.
From S2P Require Import Commands.
From S2P Require Import Refinement.
From S2P Require Import MultiKey.

#[local] Set Default Proof Using "Type*".

(** ** Specifications *)

Definition val_set (o : option AVal) : option (option (gset string)) :=
  match o with
  | None => Some None
  | Some (mkAVal (VSet X) _) => Some (Some X)
  | Some _ => None
  end.

(** A missing key stops the intersection, another type fails it, whichever comes
    first. *)
Fixpoint spec_inter (acc : option (gset string)) (vals : list (option AVal)) : SetFold :=
  match vals with
  | [] => FoldSet (default ∅ acc)
  | v :: vals =>
      match val_set v with
      | Some None => FoldMissing
      | None => FoldWrong
      | Some (Some X) => spec_inter (Some match acc with None => X | Some Y => Y ∩ X end) vals
      end
  end.

(** Missing keys are empty. *)
Fixpoint spec_union (acc : gset string) (vals : list (option AVal)) : SetFold :=
  match vals with
  | [] => FoldSet acc
  | v :: vals =>
      match val_set v with
      | None => FoldWrong
      | Some X => spec_union (acc ∪ default ∅ X) vals
      end
  end.

Fixpoint spec_diff_rest (acc : gset string) (vals : list (option AVal)) : SetFold :=
  match vals with
  | [] => FoldSet acc
  | v :: vals =>
      match val_set v with
      | None => FoldWrong
      | Some X => spec_diff_rest (acc ∖ default ∅ X) vals
      end
  end.

Definition spec_diff (vals : list (option AVal)) : SetFold :=
  match vals with
  | [] => FoldMissing
  | v :: vals =>
      match val_set v with
      | Some None => FoldMissing
      | None => FoldWrong
      | Some (Some X) => spec_diff_rest X vals
      end
  end.

(** On keys that all hold sets the folds are the operations on sets. *)
Lemma spec_inter_sets vals Xs acc :
  Forall2 (λ v X, val_set v = Some (Some X)) vals Xs →
  ∃ Y, spec_inter (Some acc) vals = FoldSet Y ∧ ∀ m, m ∈ Y ↔ m ∈ acc ∧ Forall (m ∈.) Xs.
Proof.
  intros H. revert acc. induction H as [|v X vals Xs Hv H IH]; intros acc.
  { exists acc. split; [done|]. intros m. split; [by split|by intros []]. }
  cbn [spec_inter]. rewrite Hv. destruct (IH (acc ∩ X)) as (Y & -> & HY).
  exists Y. split; [done|]. intros m. rewrite HY, elem_of_intersection, Forall_cons. tauto.
Qed.

Lemma spec_union_sets vals Xs acc :
  Forall2 (λ v X, val_set v = Some X) vals Xs →
  ∃ Y, spec_union acc vals = FoldSet Y ∧ ∀ m, m ∈ Y ↔ m ∈ acc ∨ Exists (λ X, m ∈ default ∅ X) Xs.
Proof.
  intros H. revert acc. induction H as [|v X vals Xs Hv H IH]; intros acc.
  { exists acc. split; [done|]. intros m. rewrite Exists_nil. tauto. }
  cbn [spec_union]. rewrite Hv. destruct (IH (acc ∪ default ∅ X)) as (Y & -> & HY).
  exists Y. split; [done|]. intros m. rewrite HY, elem_of_union, Exists_cons. tauto.
Qed.

Lemma spec_diff_sets vals Xs acc :
  Forall2 (λ v X, val_set v = Some X) vals Xs →
  ∃ Y, spec_diff_rest acc vals = FoldSet Y ∧
       ∀ m, m ∈ Y ↔ m ∈ acc ∧ Forall (λ X, m ∉ default ∅ X) Xs.
Proof.
  intros H. revert acc. induction H as [|v X vals Xs Hv H IH]; intros acc.
  { exists acc. split; [done|]. intros m. split; [by split|by intros []]. }
  cbn [spec_diff_rest]. rewrite Hv. destruct (IH (acc ∖ default ∅ X)) as (Y & -> & HY).
  exists Y. split; [done|]. intros m. rewrite HY, elem_of_difference, Forall_cons. tauto.
Qed.

Section algebra.
Context `{impl : !StdImpl}.

Definition views (s : KvStore) (now db : Z) (keys : list string) : list (option AVal) :=
  (λ key, view s now db key) <$> keys.

Lemma views_unchanged now s s' db keys :
  unchanged now s s' → views s' now db keys = views s now db keys.
Proof. intros Hu. apply list_fmap_ext. intros _ key _. by apply (un_view now s s' Hu). Qed.

Lemma view_val_set s now db key :
  val_set (view s now db key) =
  match live s now db key with
  | None => Some None
  | Some e => if is_type ObjSet e then Some (Some (e_set e)) else None
  end.
Proof. unfold view. destruct (live s now db key) as [[[]]|]; done. Qed.

(** One step of a fold: look the key up and, for a set, perhaps touch it. *)
Lemma fold_step db key now s :
  (lookup_key db key now s).2 = live s now db key ∧
  unchanged now s (lookup_key db key now s).1 ∧
  ∀ touch e, live s now db key = Some e →
    unchanged now s (touch_key touch db key now e (lookup_key db key now s).1).1.
Proof.
  destruct (lookup_key_spec db key now s) as [Hl Hu]. split_and!; [done..|].
  intros touch e He. destruct touch; [|done]. eapply unchanged_trans; [exact Hu|].
  assert (abs_entry <$> live (lookup_key db key now s).1 now db key = abs_entry <$> Some e) as Ha
    by (by rewrite (live_unchanged now s), He).
  assert (live (lookup_key db key now s).1 now db key = Some e) as He'.
  { unfold lookup_key in *. rewrite on_shard_run in *. simpl in *.
    destruct (findEntryDb_run db key now (getShard s key)) as [[Hm _] _].
    unfold live, raw. rewrite getShard_set_shard, Hm, slot_write_slot_raw.
    rewrite slot_live, He. simpl. unfold live in He. destruct (raw s db key) as [x|]; [|done].
    simpl in He. destruct (isExpired x now) eqn:Ex; [done|]. injection He as ->. by rewrite Ex. }
  by apply touch_key_spec.
Qed.

Lemma inter_loop_spec touch db keys now acc s :
  let r := inter_loop touch db keys now acc s in
  r.2 = spec_inter acc (views s now db keys) ∧ unchanged now s r.1.
Proof.
  revert acc s. induction keys as [|key keys IH]; intros acc s; cbv zeta.
  { split; [done|apply unchanged_refl]. }
  cbn [inter_loop views fmap list_fmap spec_inter]. rewrite view_val_set, bind_run.
  destruct (fold_step db key now s) as (Hl & Hu & Ht). rewrite Hl.
  destruct (live s now db key) as [e|] eqn:E; [|done].
  destruct (is_type ObjSet e); cbn [negb]; [|done]. rewrite bind_run.
  specialize (Ht touch e eq_refl). destruct (IH (Some match acc with
      | None => e_set e | Some acc => filter (λ m, m ∈ e_set e) acc end)
    (touch_key touch db key now e (lookup_key db key now s).1).1) as [Hr Hu2].
  rewrite Hr, (views_unchanged _ _ _ _ _ Ht). split; [|by eapply unchanged_trans].
  do 2 f_equal. destruct acc as [acc|]; [|done]. apply set_eq. intros m.
  rewrite elem_of_filter, elem_of_intersection. tauto.
Qed.

Lemma union_loop_spec touch db keys now acc s :
  let r := union_loop touch db keys now acc s in
  r.2 = spec_union acc (views s now db keys) ∧ unchanged now s r.1.
Proof.
  revert acc s. induction keys as [|key keys IH]; intros acc s; cbv zeta.
  { split; [done|apply unchanged_refl]. }
  cbn [union_loop views fmap list_fmap spec_union]. rewrite view_val_set, bind_run.
  destruct (fold_step db key now s) as (Hl & Hu & Ht). rewrite Hl.
  destruct (live s now db key) as [e|] eqn:E; simpl.
  - destruct (is_type ObjSet e); cbn [negb]; [|done]. rewrite bind_run.
    specialize (Ht touch e eq_refl).
    destruct (IH (acc ∪ e_set e) (touch_key touch db key now e (lookup_key db key now s).1).1)
      as [Hr Hu2].
    rewrite Hr, (views_unchanged _ _ _ _ _ Ht). split; [done|by eapply unchanged_trans].
  - destruct (IH acc (lookup_key db key now s).1) as [Hr Hu2].
    rewrite Hr, (views_unchanged _ _ _ _ _ Hu), (right_id_L ∅ (∪)).
    split; [done|by eapply unchanged_trans].
Qed.

Lemma diff_loop_spec db keys now acc s :
  let r := diff_loop db keys now acc s in
  r.2 = spec_diff_rest acc (views s now db keys) ∧ unchanged now s r.1.
Proof.
  revert acc s. induction keys as [|key keys IH]; intros acc s; cbv zeta.
  { split; [done|apply unchanged_refl]. }
  cbn [diff_loop views fmap list_fmap spec_diff_rest]. rewrite view_val_set, bind_run.
  destruct (fold_step db key now s) as (Hl & Hu & _). rewrite Hl.
  destruct (live s now db key) as [e|] eqn:E; simpl.
  - destruct (is_type ObjSet e); cbn [negb]; [|done].
    destruct (IH (acc ∖ e_set e) (lookup_key db key now s).1) as [Hr Hu2].
    rewrite Hr, (views_unchanged _ _ _ _ _ Hu). split; [done|by eapply unchanged_trans].
  - destruct (IH acc (lookup_key db key now s).1) as [Hr Hu2].
    rewrite Hr, (views_unchanged _ _ _ _ _ Hu), difference_empty_L.
    split; [done|by eapply unchanged_trans].
Qed.

Lemma diff_fold_spec db keys now s :
  let r := diff_fold db keys now s in
  r.2 = spec_diff (views s now db keys) ∧ unchanged now s r.1.
Proof.
  cbv zeta. destruct keys as [|key keys]; [split; [done|apply unchanged_refl]|].
  cbn [diff_fold views fmap list_fmap spec_diff]. rewrite view_val_set, bind_run.
  destruct (fold_step db key now s) as (Hl & Hu & _). rewrite Hl.
  destruct (live s now db key) as [e|] eqn:E; simpl; [|done].
  destruct (is_type ObjSet e); cbn [negb]; [|done].
  destruct (diff_loop_spec db keys now (e_set e) (lookup_key db key now s).1) as [Hr Hu2].
  rewrite Hr, (views_unchanged _ _ _ _ _ Hu). split; [done|by eapply unchanged_trans].
Qed.

(** The replies are the sorted elements of the fold, and nothing changes. *)
Lemma set_algebra_reads db keys now s :
  keys ≠ [] →
  let vals := views s now db keys in
  ((setInter db keys now s).2 = fold_reply (spec_inter None vals) ∧
   unchanged now s (setInter db keys now s).1) ∧
  ((setUnion db keys now s).2 = fold_reply (spec_union ∅ vals) ∧
   unchanged now s (setUnion db keys now s).1) ∧
  ((setDiff db keys now s).2 = fold_reply (spec_diff vals) ∧
   unchanged now s (setDiff db keys now s).1).
Proof.
  intros Hk. unfold setInter, setUnion, setDiff. rewrite !bool_decide_eq_false_2 by done.
  rewrite !bind_run. unfold mret, state_ret. cbn [fst snd].
  destruct (inter_loop_spec true db keys now None s) as [-> ?].
  destruct (union_loop_spec true db keys now ∅ s) as [-> ?].
  destruct (diff_fold_spec db keys now s) as [-> ?]. done.
Qed.

(** ** Storing the result *)

Lemma store_set_spec db dest X now s :
  let s' := (store_set db dest X now s).1 in
  (store_set db dest X now s).2 = ok (Z.of_nat (size X)) tt ∧
  (wf s → wf s') ∧
  (∀ t, view s' t db dest = if decide (X = ∅) then None else Some (mkAVal (VSet X) 0)) ∧
  (∀ t db' key', (db', key') ≠ (db, dest) → view s' t db' key' = view s t db' key') ∧
  (∀ db' key', (db', key') ≠ (db, dest) → watch_version s' db' key' = watch_version s db' key').
Proof.
  cbv zeta. unfold store_set. rewrite on_shard_run, bind_run, gets_run. cbn [fst snd].
  set (e := default Entry0 _).
  set (e' := e |> set_type ObjSet |> set_value "" |> set_hash ∅ |> set_list [] |> set_zset ∅
               |> set_stream [] |> set_stream_groups ∅ |> set_set X |> set_expire 0
               |> touchEntry now).
  set (o := if decide (X = ∅) then None else Some e').
  assert (((if bool_decide (X = ∅) then eraseEntry db dest else putEntry db dest e') ;;
           bumpWatchKey db dest ;; mret (ok (Z.of_nat (size X)) tt)) (getShard s dest) =
          (write_slot db dest o 1 (getShard s dest), ok (Z.of_nat (size X)) tt)) as ->.
  { rewrite !bind_run. subst o. by destruct (decide (X = ∅)) as [->|];
      [rewrite bool_decide_eq_true_2 by done|rewrite bool_decide_eq_false_2 by done]. }
  cbn [fst snd]. fold (write_key db dest o 1 s).
  assert (abs_entry <$> o = if decide (X = ∅) then None else Some (mkAVal (VSet X) 0)) as Ho.
  { subst o e'. destruct (decide (X = ∅)); [done|]. by destruct e. }
  split_and!; [done| | | |].
  - intros Hs. apply wf_write_key; [done|]. subst o e'.
    destruct (decide (X = ∅)); [done|]. destruct e. unfold coherent_opt, coherent, is_type. simpl.
    by split_and!.
  - intros t. rewrite view_write_key, Ho. by destruct (decide (X = ∅)).
  - intros t db' key' Hne. by apply view_write_key_ne.
  - intros db' key' Hne. apply watch_version_write_key. by left.
Qed.

Definition fold_set (r : SetFold) : option (gset string) :=
  match r with FoldSet X => Some X | FoldMissing => Some ∅ | FoldWrong => None end.

(** The [STORE] forms: the destination becomes exactly the result, whatever it was
    before, without an expiry; a key of another type among the sources changes
    nothing. *)
Definition stores_fold (db : Z) (dest : string) (now : Z) (s : KvStore) (r : SetFold)
    (op : KM (Res Z unit)) : Prop :=
  match fold_set r with
  | None => (op s).2 = fail (-1) tt kWrongType ∧ unchanged now s (op s).1
  | Some X =>
      (op s).2 = ok (Z.of_nat (size X)) tt ∧ (wf s → wf (op s).1) ∧
      (∀ t, view (op s).1 t db dest = if decide (X = ∅) then None else Some (mkAVal (VSet X) 0)) ∧
      (∀ t db' key', now ≤ t → (db', key') ≠ (db, dest) →
         view (op s).1 t db' key' = view s t db' key')
  end.

Lemma store_fold_spec db dest now s r (loop : KM SetFold) :
  (loop s).2 = r → unchanged now s (loop s).1 →
  stores_fold db dest now s r (r ← loop; store_fold db dest now r).
Proof.
  intros Hr Hu. unfold stores_fold. rewrite bind_run, Hr.
  assert (∀ X, fold_set r = Some X →
    store_fold db dest now r (loop s).1 = store_set db dest X now (loop s).1) as Hst.
  { intros X. by destruct r; intros [= <-]. }
  destruct (fold_set r) as [X|] eqn:E; [|by destruct r].
  rewrite (Hst X eq_refl).
  destruct (store_set_spec db dest X now (loop s).1) as (H1 & H2 & H3 & H4 & _).
  split_and!; [done| |done|].
  - intros Hs. by apply H2, Hu.
  - intros t db' key' Ht Hne. rewrite H4 by done. by apply (un_view now s).
Qed.

Lemma set_algebra_stores db dest keys now s :
  keys ≠ [] →
  let vals := views s now db keys in
  stores_fold db dest now s (spec_inter None vals) (setInterStore db dest keys now) ∧
  stores_fold db dest now s (spec_union ∅ vals) (setUnionStore db dest keys now) ∧
  stores_fold db dest now s (spec_diff vals) (setDiffStore db dest keys now).
Proof.
  intros Hk. unfold setInterStore, setUnionStore, setDiffStore.
  rewrite !bool_decide_eq_false_2 by done. cbv zeta. split_and!; apply store_fold_spec.
  - apply inter_loop_spec.
  - apply inter_loop_spec.
  - apply union_loop_spec.
  - apply union_loop_spec.
  - apply diff_fold_spec.
  - apply diff_fold_spec.
Qed.
End algebra.

(** ** Consequences for clients

    What follows from the refinement of single commands: counters, moves between lists,
    deletions by [EXPIRE] that no watcher is told, and the set algebra on keys that
    hold sets. *)

(** [parseIntegerValue] reads back every number [INCRBY] can have stored. *)
Lemma parseIntegerValue_to_string z : in_i64 z → parseIntegerValue (to_string z) = Some z.
Proof.
  intros Hz. unfold parseIntegerValue. rewrite strtoll_to_string, Nat.eqb_refl by done.
  rewrite bool_decide_eq_false_2; [done|]. intros He.
  destruct (decide (0 ≤ z)) as [Hp|Hn].
  - destruct (to_string_starts z Hp) as (c & s & d & E & _). congruence.
  - rewrite to_string_neg in He by lia. done.
Qed.

Section composite.
Context `{impl : !StdImpl}.

(** ** Counters *)

Definition counter_value (n ex : Z) : option AVal := Some (mkAVal (VString (to_string n)) ex).

Lemma incrBy_counter db key delta now s n ex :
  wf s → in_i64 n → view s now db key = counter_value n ex →
  let s' := (incrBy db key delta now s).1 in
  wf s' ∧ (incrBy db key delta now s).2 = ok true (Some (i64 (n + delta))) ∧
  (∀ t, view s' t db key = av_live t (counter_value (i64 (n + delta)) ex)).
Proof.
  intros Hs Hn Hv. destruct (commands_refine (family := str_commands) (CIncrBy delta) db key now s I Hs) as (Hw & Hr & Hk & _).
  cbn [before evicts str_commands str_evicts] in Hr, Hk. rewrite Hv in Hr, Hk.
  cbn [spec str_commands spec_str] in Hr, Hk. unfold spec_incrBy, spec_string, counter_value in Hr, Hk.
  cbn [av_value av_expire] in Hr, Hk. rewrite parseIntegerValue_to_string in Hr, Hk by done.
  split_and!; done.
Qed.

(** A sequence of [INCRBY]s, each with its time. *)
Fixpoint incr_all (db : Z) (key : string) (ds : list (Z * Z)) : KM unit :=
  match ds with
  | [] => mret tt
  | (delta, now) :: ds => incrBy db key delta now ;; incr_all db key ds
  end.

Lemma incr_all_counter db key ds s n :
  wf s → in_i64 n → (∀ t, view s t db key = counter_value n 0) →
  ∀ t, view (incr_all db key ds s).1 t db key = counter_value (i64 (n + sumZ ds.*1)) 0.
Proof.
  revert s n. induction ds as [|[delta now] ds IH]; intros s n Hs Hn Hv t.
  - cbn [incr_all fmap list_fmap]. unfold mret, state_ret. cbn [fst].
    rewrite Hv. unfold sumZ. cbn [foldr]. by rewrite Z.add_0_r, i64_id.
  - cbn [incr_all]. rewrite bind_run.
    destruct (incrBy_counter db key delta now s n 0 Hs Hn (Hv now)) as (Hw & _ & Hv').
    rewrite (IH _ (i64 (n + delta)) Hw); [|apply i64_range|exact Hv'].
    rewrite fmap_cons. unfold sumZ. cbn [foldr fst]. rewrite Z.add_assoc. by rewrite i64_add_l.
Qed.

(** ** RPOPLPUSH *)

Definition list_value (l : list string) (ex : Z) : option AVal :=
  if bool_decide (l = []) then None else Some (mkAVal (VList l) ex).

(** The pop takes the last element out before anything is known of the destination. *)
Lemma rpop_last db src now s l x ex :
  wf s → view s now db src = Some (mkAVal (VList (l ++ [x])) ex) →
  let s' := (listPop db src false now s).1 in
  wf s' ∧ (listPop db src false now s).2 = ok true (Some x) ∧
  (∀ t, view s' t db src = av_live t (list_value l ex)) ∧
  (∀ t db' key', (db', key') ≠ (db, src) → view s' t db' key' = view s t db' key').
Proof.
  intros Hs Hv.
  destruct (commands_refine (family := list_commands) (CPop false) db src now s I Hs)
    as (Hw & Hr & Hk & Hf).
  cbn [before evicts list_commands] in Hr, Hk, Hf. rewrite Hv in Hr, Hk.
  cbn [spec list_commands spec_list] in Hr, Hk.
  unfold spec_listPop, spec_on in Hr, Hk. cbn in Hr, Hk.
  rewrite last_snoc in Hr. rewrite length_app, Nat.add_sub, take_app_length in Hk.
  split_and!; [done|exact Hr| |exact Hf]. intros t. rewrite Hk. unfold list_value.
  by destruct (bool_decide (l = [])).
Qed.

Lemma lpush_one db dst x now s od :
  wf s → view s now db dst = od →
  let s' := (listPush db dst [x] true now s).1 in
  let r := (listPush db dst [x] true now s).2 in
  wf s' ∧
  (match match od with None => Some ([], 0) | Some (mkAVal (VList m) ex) => Some (m, ex)
                     | Some _ => None end with
   | Some (m, ex) => r = ok (Z.of_nat (length m + 1)) tt ∧
       ∀ t, view s' t db dst = av_live t (Some (mkAVal (VList (x :: m)) ex))
   | None => r = fail (-1) tt kWrongType ∧ ∀ t, now ≤ t → view s' t db dst = av_live t od
   end) ∧
  (∀ t db' key', (db', key') ≠ (db, dst) → view s' t db' key' = view s t db' key').
Proof.
  intros Hs Hv.
  destruct (commands_refine (family := list_commands) (CPush [x] true) db dst now s)
    as (Hw & Hr & Hk & Hf); [done|done|].
  cbn [before evicts list_commands] in Hr, Hk, Hf. rewrite Hv in Hr, Hk.
  cbn [spec list_commands spec_list] in Hr, Hk.
  split_and!; [done| |exact Hf].
  destruct od as [[[]]|]; cbn in Hr, Hk; split; (exact Hr || (intros; apply Hk)).
Qed.

(** What a list push finds at the destination; [None] for another type. *)
Definition list_at (od : option AVal) : option (list string * Z) :=
  match od with
  | None => Some ([], 0)
  | Some (mkAVal (VList m) ex) => Some (m, ex)
  | Some _ => None
  end.

Lemma rpoplpush_spec db src dst now1 now2 s l x ex :
  wf s → src ≠ dst → now1 ≤ now2 →
  view s now1 db src = Some (mkAVal (VList (l ++ [x])) ex) →
  let s' := (listRPopLPush db src dst now1 now2 s).1 in
  let r := (listRPopLPush db src dst now1 now2 s).2 in
  wf s' ∧
  (∀ t, view s' t db src = av_live t (list_value l ex)) ∧
  match list_at (view s now2 db dst) with
  | Some (m, ex') => r = mkRes true (Some x) None ∧
      ∀ t, view s' t db dst = av_live t (Some (mkAVal (VList (x :: m)) ex'))
  | None => r = mkRes false (Some x) (Some kWrongType) ∧
      ∀ t, now2 ≤ t → view s' t db dst = view s t db dst
  end.
Proof.
  intros Hs Hne Ht Hv. unfold listRPopLPush. cbv zeta. rewrite bind_run.
  destruct (rpop_last db src now1 s l x ex Hs Hv) as (Hw1 & Hr1 & Hk1 & Hf1). rewrite Hr1.
  cbn [res_out ok]. rewrite bind_run.
  set (s1 := (listPop db src false now1 s).1) in *.
  assert (view s1 now2 db dst = view s now2 db dst) as Hd by (apply Hf1; congruence).
  destruct (lpush_one db dst x now2 s1 (view s now2 db dst) Hw1 Hd) as (Hw2 & Hr2 & Hf2).
  fold (list_at (view s now2 db dst)) in Hr2. unfold mret, state_ret. cbn [fst snd].
  split_and!; [done|intros t; rewrite Hf2 by congruence; apply Hk1|].
  destruct (list_at (view s now2 db dst)) as [[m ex']|]; destruct Hr2 as [-> Hk2];
    (split; [|intros t]).
  - cbn. destruct (Z.ltb_spec (Z.of_nat (length m + 1)) 0); [lia|done].
  - apply Hk2.
  - done.
  - intros Hle. rewrite Hk2 by done. symmetry. by apply view_later.
Qed.

(** ** Expiry *)

Lemma findEntry_versions db key now sh :
  m_watch_versions (findEntry db key now sh).1 = m_watch_versions sh ∧
  m_db_watch_epoch (findEntry db key now sh).1 = m_db_watch_epoch sh.
Proof. unfold findEntry. by destruct (find_in _ _ _). Qed.

(** None of the [EXPIRE] forms moves a token, even when it deletes the key. *)
Lemma on_shard_quiet {A} (m : SM A) key s :
  (∀ sh, m_watch_versions (m sh).1 = m_watch_versions sh ∧
         m_db_watch_epoch (m sh).1 = m_db_watch_epoch sh) →
  ∀ db' key', shard_watchToken db' key' (getShard (on_shard key m s).1 key') =
              shard_watchToken db' key' (getShard s key').
Proof.
  intros Hm db' key'. rewrite on_shard_run. cbn [fst].
  destruct (decide (shardIdx key = shardIdx key')) as [E|E].
  - assert (getShard s key = getShard s key') as Hg by (unfold getShard; by rewrite E).
    unfold getShard at 1, set_shard, set_shards. cbn [m_shards]. rewrite E, vlookup_insert, Hg.
    destruct (Hm (getShard s key')) as [Hv He]. unfold shard_watchToken. by rewrite Hv, He.
  - by rewrite getShard_set_shard_ne.
Qed.

Lemma expire_quiet c db key now s :
  match c with CExpire _ | CPexpire _ | CExpireAt _ | CPexpireAt _ => True | _ => False end →
  ∀ db' key', shard_watchToken db' key' (getShard (run_str c db key now s).1 key') =
              shard_watchToken db' key' (getShard s key').
Proof.
  intros Hc. destruct c; try done; cbn [run_str]; apply on_shard_quiet; intros sh;
    rewrite bind_run; destruct (findEntry_versions db key now sh) as [H1 H2];
    destruct (findEntry db key now sh).2; [|done| |done| |done| |done];
    case_match; by rewrite bind_run.
Qed.

Lemma expire_deletes db key seconds now s a :
  wf s → view s now db key = Some a → seconds ≤ 0 →
  (expire db key seconds now s).2 = 1 ∧
  ∀ t, view (expire db key seconds now s).1 t db key = None.
Proof.
  intros Hs Hv Hn.
  destruct (commands_refine (family := str_commands) (CExpire seconds) db key now s I Hs)
    as (_ & Hr & Hk & _).
  cbn [before evicts str_commands str_evicts] in Hr, Hk. rewrite Hv in Hr, Hk.
  cbn [spec str_commands spec_str] in Hr, Hk. unfold spec_expire in Hr, Hk.
  destruct (Z.leb_spec seconds 0); [|lia]. split; [exact Hr|exact Hk].
Qed.

(** ** Set algebra *)

(** The reply lists a set: each member once, in order. *)
Definition lists_set (r : Res bool (list string)) (P : string → Prop) : Prop :=
  ∃ l, r = ok true l ∧ StronglySorted String.le l ∧ NoDup l ∧ ∀ m, m ∈ l ↔ P m.

Lemma fold_reply_lists Y P : (∀ m, m ∈ Y ↔ P m) → lists_set (fold_reply (FoldSet Y)) P.
Proof.
  intros HP. eexists. split; [done|]. split_and!.
  - apply sort_strings_sorted.
  - rewrite sort_strings_perm, hash_iter_set_perm. apply NoDup_elements.
  - intros m. by rewrite sort_strings_elem, hash_iter_set_elem.
Qed.

Lemma set_algebra_members db keys now s X Xs :
  Forall2 (λ v X, val_set v = Some (Some X)) (views s now db keys) (X :: Xs) →
  lists_set (setInter db keys now s).2 (λ m, m ∈ X ∧ Forall (m ∈.) Xs) ∧
  lists_set (setUnion db keys now s).2 (λ m, m ∈ X ∨ Exists (m ∈.) Xs) ∧
  lists_set (setDiff db keys now s).2 (λ m, m ∈ X ∧ Forall (m ∉.) Xs).
Proof.
  intros HX. assert (keys ≠ []) as Hk by (intros ->; by inversion HX).
  destruct (set_algebra_reads db keys now s Hk) as ((-> & _) & (-> & _) & (-> & _)).
  destruct (views s now db keys) as [|v vals]; inversion HX as [|? ? ? ? Hv HXs]; subst.
  assert (Forall2 (λ v X, val_set v = Some X) vals (Some <$> Xs)) as HXs'.
  { clear -HXs. induction HXs; constructor; auto. }
  split_and!.
  - cbn [spec_inter]. rewrite Hv.
    destruct (spec_inter_sets vals Xs X HXs) as (Y & -> & HY). by apply fold_reply_lists.
  - cbn [spec_union]. rewrite Hv. change (default ∅ (Some X)) with X. rewrite (left_id_L ∅ (∪)).
    destruct (spec_union_sets vals (Some <$> Xs) X HXs') as (Y & -> & HY).
    apply fold_reply_lists. intros m. by rewrite HY, Exists_fmap.
  - cbn [spec_diff]. rewrite Hv.
    destruct (spec_diff_sets vals (Some <$> Xs) X HXs') as (Y & -> & HY).
    apply fold_reply_lists. intros m. by rewrite HY, Forall_fmap.
Qed.
End composite.
