(* ===== verification/Resp.v ===== *)
(** * RESP values and their encoding

    [resp.h], [resp.cc] and the fast paths of [KvSession::appendResponse]: the values of
    the wire protocol and the bytes they are written as.  [reply_of] is what a value
    means to the receiver, whatever its unused fields hold. *)

From Stdlib Require Import Ascii.
From stdpp Require Import options.
From S2P Require Import Prelude.
From S2P Require Import CStd.

#[local] Set Default Proof Using "Type*".
#[local] Set Warnings "-register-all".

Inductive RespType : Type :=
  | RSimpleString | RError | RInteger | RBulkString | RArray | RNull.

#[global] Instance RespType_eq_dec : EqDecision RespType.
Proof. solve_decision. Defined.

(** Every field is there for every type, as in the [struct]. *)
Inductive RespValue : Type := mkResp {
  r_type : RespType;
  r_str : string;
  r_integer : Z;
  r_array : list RespValue;
  r_is_null : bool
}.

Definition RespValue0 : RespValue := mkResp RNull "" 0 [] false.

(** Assignment to the fields, through an [out] reference. *)
Definition set_r_type (t : RespType) (v : RespValue) : RespValue :=
  mkResp t (r_str v) (r_integer v) (r_array v) (r_is_null v).
Definition set_r_str (s : string) (v : RespValue) : RespValue :=
  mkResp (r_type v) s (r_integer v) (r_array v) (r_is_null v).
Definition set_r_integer (n : Z) (v : RespValue) : RespValue :=
  mkResp (r_type v) (r_str v) n (r_array v) (r_is_null v).
Definition set_r_array (l : list RespValue) (v : RespValue) : RespValue :=
  mkResp (r_type v) (r_str v) (r_integer v) l (r_is_null v).
Definition set_r_is_null (b : bool) (v : RespValue) : RespValue :=
  mkResp (r_type v) (r_str v) (r_integer v) (r_array v) b.

(** ** The constructors of replies *)

Definition resp_simple (s : string) : RespValue := mkResp RSimpleString s 0 [] false.
Definition resp_ok : RespValue := resp_simple "OK".
Definition resp_err (msg : string) : RespValue := mkResp RError msg 0 [] false.
Definition resp_bulk (s : string) : RespValue := mkResp RBulkString s 0 [] false.
Definition resp_integer (n : Z) : RespValue := mkResp RInteger "" n [] false.
Definition resp_pong : RespValue := resp_simple "PONG".
Definition resp_emptyArray : RespValue := mkResp RArray "" 0 [] false.
Definition resp_nullBulk : RespValue := mkResp RBulkString "" 0 [] true.
Definition resp_queued : RespValue := resp_simple "QUEUED".
Definition resp_none : RespValue := RespValue0.
(** [arr.type = RespType::Array;] with items pushed. *)
Definition resp_array (l : list RespValue) : RespValue := mkResp RArray "" 0 l false.

(** ** Encoding *)

Definition CR : ascii := "013"%char.
Definition LF : ascii := "010"%char.
Definition crlf : string := String CR (String LF "").

Definition kRespOk : string := "+OK" +:+ crlf.
Definition kRespOne : string := ":1" +:+ crlf.
Definition kRespZero : string := ":0" +:+ crlf.
Definition kRespNullBulk : string := "$-1" +:+ crlf.
Definition kRespEmptyArray : string := "*0" +:+ crlf.
Definition kRespPong : string := "+PONG" +:+ crlf.
Definition kRespQueued : string := "+QUEUED" +:+ crlf.

(** The headers of bulk strings of up to 16 bytes. *)
Definition kRespBulkHdr : list string :=
  (λ s, s +:+ crlf) <$>
    ["$0"; "$1"; "$2"; "$3"; "$4"; "$5"; "$6"; "$7"; "$8"; "$9"; "$10"; "$11"; "$12"; "$13";
     "$14"; "$15"; "$16"].

(** ['0' + (char)d] *)
Definition digit_char (d : Z) : ascii := ascii_of_N (Z.to_N (48 + d)).

(** [do { buf[pos--] = '0' + n % 10; n /= 10; } while(n > 0);] in front of what the
    buffer already holds.  The fuel is the number of digits left in the buffer. *)
Fixpoint push_digits (fuel : nat) (n : Z) (buf : string) : string :=
  match fuel with
  | O => buf
  | S fuel =>
      let buf := String (digit_char (Z.rem n 10)) buf in
      let n := Z.quot n 10 in
      if 0 <? n then push_digits fuel n buf else buf
  end.

(** [appendInt64]: what is appended.  The last digit of a negative number is split off
    first; [q++] then moves the quotient one up. *)
Definition appendInt64 (n : Z) : string :=
  if n =? 0 then "0"
  else if n =? 1 then "1"
  else if (0 <? n) && (n <? 10) then String (digit_char n) ""
  else if n <? 0 then
    let q := Z.quot n 10 in
    let r := Z.rem n 10 in
    let '(r, q) := if r <? 0 then (- r, q + 1) else (r, q) in
    String "-" (push_digits 20 (- q) (String (digit_char r) ""))
  else push_digits 20 n "".

(** [RespEncoder::encodeInto]: what is appended to [out]. *)
Fixpoint encode (v : RespValue) : string :=
  match r_type v with
  | RSimpleString => "+" +:+ r_str v +:+ crlf
  | RError => "-" +:+ r_str v +:+ crlf
  | RInteger => ":" +:+ appendInt64 (r_integer v) +:+ crlf
  | RBulkString =>
      if r_is_null v then kRespNullBulk
      else
        let len := String.length (r_str v) in
        (if (len <=? 16)%nat then default "" (kRespBulkHdr !! len)
         else "$" +:+ appendInt64 (Z.of_nat len) +:+ crlf) +:+ r_str v +:+ crlf
  | RArray =>
      "*" +:+ appendInt64 (Z.of_nat (length (r_array v))) +:+ crlf +:+
      (fix items (l : list RespValue) : string :=
         match l with [] => "" | x :: l => encode x +:+ items l end) (r_array v)
  | RNull => kRespNullBulk
  end.

Definition encodeInto (v : RespValue) (out : string) : string := out +:+ encode v.

Fixpoint encode_all (l : list RespValue) : string :=
  match l with [] => "" | x :: l => encode x +:+ encode_all l end.

(** [KvSession::appendResponse] on the write buffer, with its shortcuts. *)
Definition appendResponse (rsp : RespValue) (m_writeBuf : string) : string :=
  match r_type rsp with
  | RSimpleString =>
      if bool_decide (r_str rsp = "OK") then m_writeBuf +:+ kRespOk
      else if bool_decide (r_str rsp = "PONG") then m_writeBuf +:+ kRespPong
      else if bool_decide (r_str rsp = "QUEUED") then m_writeBuf +:+ kRespQueued
      else encodeInto rsp m_writeBuf
  | RInteger =>
      if r_integer rsp =? 1 then m_writeBuf +:+ kRespOne
      else if r_integer rsp =? 0 then m_writeBuf +:+ kRespZero
      else encodeInto rsp m_writeBuf
  | RNull => m_writeBuf +:+ kRespNullBulk
  | RBulkString => if r_is_null rsp then m_writeBuf +:+ kRespNullBulk else encodeInto rsp m_writeBuf
  | RArray =>
      if bool_decide (length (r_array rsp) = 0%nat) then m_writeBuf +:+ kRespEmptyArray
      else encodeInto rsp m_writeBuf
  | RError => encodeInto rsp m_writeBuf
  end.

(** ** What a value means *)

Inductive Reply : Type :=
  | PSimple (s : string) | PError (s : string) | PInt (n : Z) | PBulk (s : string) | PNil
  | PArray (l : list Reply).

Fixpoint reply_of (v : RespValue) : Reply :=
  match r_type v with
  | RSimpleString => PSimple (r_str v)
  | RError => PError (r_str v)
  | RInteger => PInt (r_integer v)
  | RBulkString => if r_is_null v then PNil else PBulk (r_str v)
  | RArray => PArray (reply_of <$> r_array v)
  | RNull => PNil
  end.

(** Induction over the items of arrays. *)
Lemma RespValue_nested_ind (P : RespValue → Prop) :
  (∀ t s n l b, Forall P l → P (mkResp t s n l b)) → ∀ v, P v.
Proof.
  intros H. fix IH 1. intros [t s n l b]. apply H. induction l; constructor; auto.
Qed.

Lemma encode_array v :
  r_type v = RArray →
  encode v = "*" +:+ appendInt64 (Z.of_nat (length (r_array v))) +:+ crlf +:+ encode_all (r_array v).
Proof.
  destruct v as [t s n l b]. simpl. by intros ->.
Qed.
