(* ===== verification/RespReader.v ===== *)
(** * The RESP reader

    [RespReader] ([resp_reader.h], [resp_reader.cc]): the incremental parser the server
    runs on what it has received so far.  A position in the buffer is the list of the
    characters from there on, and a function answers how many of them it read; the
    count can exceed what is there ([parse_bulk]), as in the code. *)

From Stdlib Require Import Ascii.
From stdpp Require Import options.
From S2P Require Import Prelude.
From S2P Require Import CStd.
From S2P Require Import Resp.

#[local] Set Default Proof Using "Type*".

(** [Thrown]: [reserve] did not get the memory and the exception leaves the parser. *)
Inductive ParseStatus : Type := NeedMore | POk | PError_ | Thrown.

#[global] Instance ParseStatus_eq_dec : EqDecision ParseStatus.
Proof. solve_decision. Defined.

(** [find_crlf]: the offset of the first carriage return followed by a line feed. *)
Fixpoint find_crlf (p : list ascii) : option nat :=
  match p with
  | c :: ((c' :: _) as p') =>
      if bool_decide (c = CR) && bool_decide (c' = LF) then Some 0%nat else S <$> find_crlf p'
  | _ => None
  end.

(** The digits of [readInt64], with the overflow test before each step. *)
Fixpoint read_digits (p : list ascii) (val : Z) (n : nat) : option (Z * nat) :=
  match p with
  | c :: p' =>
      match digit_val c with
      | Some digit =>
          if Z.quot (INT64_MAX - digit) 10 <? val then None
          else read_digits p' (val * 10 + digit) (S n)
      | None => Some (val, n)
      end
  | [] => Some (val, n)
  end.

Definition starts_digit (p : list ascii) : bool :=
  match p with c :: _ => bool_decide (is_Some (digit_val c)) | [] => false end.

(** [readInt64]: the value and the number of characters it took. *)
Definition readInt64 (p : list ascii) : option (Z * nat) :=
  match p with
  | [] => None
  | c :: p' =>
      let '(neg, p1, n) :=
        if bool_decide (c = "-"%char) then (true, p', 1%nat)
        else if bool_decide (c = "+"%char) then (false, p', 1%nat) else (false, p, 0%nat) in
      if starts_digit p1 then
        '(val, n) ← read_digits p1 0 n; Some (if neg : bool then - val else val, n)
      else None
  end.

(** The characters at [p] are CR LF ([num_end + 1 >= end] fails the test). *)
Definition at_crlf (p : list ascii) : bool :=
  match p with c :: c' :: _ => bool_decide (c = CR) && bool_decide (c' = LF) | _ => false end.

(** [readLine]: the line and the characters read with its CR LF. *)
Definition readLine (p : list ascii) : option (string * nat) :=
  i ← find_crlf p; Some (text (take i p), (i + 2)%nat).

Definition isRespPrefix (c : ascii) : bool :=
  match c with "*" | "$" | "+" | "-" | ":" => true | _ => false end%char.

(** The words of an inline command, as bulk strings. *)
Fixpoint split_words (line : list ascii) (word : list ascii) : list RespValue :=
  let flush := match word with [] => [] | _ => [resp_bulk (text (reverse word))] end in
  match line with
  | [] => flush
  | c :: line => if is_space c then flush ++ split_words line [] else split_words line (c :: word)
  end.

(** [parseInline] *)
Definition parseInline (p : list ascii) (out : RespValue) : ParseStatus * RespValue * nat :=
  match readLine p with
  | None => (NeedMore, out, 0%nat)
  | Some (line, n) =>
      if bool_decide (line = "") then (PError_, out, n)
      else
        let words := split_words (chars line) [] in
        let out := set_r_array words (set_r_type RArray out) in
        (if bool_decide (words = []) then PError_ else POk, out, n)
  end.

(** The cases of [parseValue], on what follows the type byte. *)
Definition parse_line (t : RespType) (p : list ascii) (out : RespValue)
  : ParseStatus * RespValue * nat :=
  match readLine p with
  | None => (NeedMore, out, 0%nat)
  | Some (line, n) => (POk, set_r_str line (set_r_type t out), n)
  end.

Definition parse_integer (p : list ascii) (out : RespValue) : ParseStatus * RespValue * nat :=
  match readInt64 p with
  | None => (PError_, out, 0%nat)
  | Some (val, n) =>
      if at_crlf (drop n p) then (POk, set_r_integer val (set_r_type RInteger out), (n + 2)%nat)
      else (NeedMore, out, 0%nat)
  end.

(** After the length anything that is not at the end of the buffer is skipped like a
    CR LF, two characters of it, present or not. *)
Definition parse_bulk (p : list ascii) (out : RespValue) : ParseStatus * RespValue * nat :=
  match readInt64 p with
  | None => (PError_, out, 0%nat)
  | Some (len, n) =>
      if negb (at_crlf (drop n p)) && bool_decide (length p ≤ n)%nat then (NeedMore, out, 0%nat)
      else
        let pos := (n + 2)%nat in
        if len <? 0 then (POk, set_r_is_null true (set_r_type RBulkString out), pos)
        else if Z.of_nat (length p) <? Z.of_nat pos + len + 2 then (NeedMore, out, 0%nat)
        else
          let body := drop pos p in
          let out := set_r_str (text (take (Z.to_nat len) body))
                       (set_r_is_null false (set_r_type RBulkString out)) in
          if at_crlf (drop (Z.to_nat len) body) then (POk, out, (pos + Z.to_nat len + 2)%nat)
          else (PError_, out, 0%nat)
  end.

Section reader.
(** Whether [reserve] of so many values succeeds. *)
Context (reserves : Z → bool).

(** The items of an array, [parse] reading one of them.  Each item takes at least one
    character, so the characters bound the iterations. *)
Fixpoint parse_items (parse : list ascii → RespValue → option (ParseStatus * RespValue * nat))
    (fuel : nat) (count : Z) (p : list ascii) (items : list RespValue) (read : nat)
  : option (ParseStatus * list RespValue * nat) :=
  if count <=? 0 then Some (POk, items, read)
  else
    match fuel with
    | O => None
    | S fuel =>
        '(st, item, n) ← parse p RespValue0;
        if bool_decide (st = POk)
        then parse_items parse fuel (count - 1) (drop n p) (items ++ [item]) (read + n)
        else Some (st, [], 0%nat)
    end.

(** [parseValue]; [None] when the fuel runs out. *)
Fixpoint parseValue (fuel : nat) (p : list ascii) (out : RespValue)
  : option (ParseStatus * RespValue * nat) :=
  match fuel with
  | O => None
  | S fuel =>
      match p with
      | [] => Some (NeedMore, out, 0%nat)
      | prefix :: p =>
          let step (r : ParseStatus * RespValue * nat) := Some (r.1.1, r.1.2, S r.2) in
          match prefix with
          | "+"%char => step (parse_line RSimpleString p out)
          | "-"%char => step (parse_line RError p out)
          | ":"%char => step (parse_integer p out)
          | "$"%char => step (parse_bulk p out)
          | "*"%char =>
              match readInt64 p with
              | None => Some (PError_, out, 0%nat)
              | Some (count, n) =>
                  if negb (at_crlf (drop n p)) then Some (NeedMore, out, 0%nat)
                  else if count <? 0 then Some (PError_, out, 0%nat)
                  else
                    let out := set_r_array [] (set_r_type RArray out) in
                    if negb (reserves count) then Some (Thrown, out, 0%nat)
                    else
                      let p := drop (n + 2) p in
                      '(st, items, read) ← parse_items (parseValue fuel) (S (length p)) count p [] 0%nat;
                      Some (st, set_r_array items out, (1 + (n + 2) + read)%nat)
              end
          | _ => Some (PError_, out, 0%nat)
          end
      end
  end.

(** [tryParse], with fuel for as deep a nesting as the data can hold. *)
Definition tryParse (data : list ascii) (out : RespValue) : option (ParseStatus * RespValue * nat) :=
  match data with
  | c :: _ => if isRespPrefix c then parseValue (S (length data)) data out
              else Some (parseInline data out)
  | [] => parseValue 1 data out
  end.
End reader.

(** ** Examples *)

Definition cmd_get : RespValue := resp_array [resp_bulk "GET"; resp_bulk "k"].

Example tryParse_get :
  tryParse (λ _, true) (chars (encode cmd_get +:+ "rest")) RespValue0 =
  Some (POk, cmd_get, 20%nat).
Proof. by vm_compute. Qed.

Example tryParse_inline :
  tryParse (λ _, true) (chars ("GET  k" +:+ crlf)) RespValue0 = Some (POk, cmd_get, 8%nat).
Proof. by vm_compute. Qed.
