(* ===== verification/RespFacts.v ===== *)
(** * Facts about RESP

    What [appendInt64] writes, what the reader makes of what the encoder wrote, and how
    the reader behaves on incomplete input. *)

From Stdlib Require Import Ascii.
From stdpp Require Import options.
From S2P Require Import Prelude.
From S2P Require Import CStd.
From S2P Require Import Resp.
From S2P Require Import RespReader.

#[local] Set Default Proof Using "Type*".

(** ** Characters *)

Lemma chars_crlf : chars crlf = [CR; LF].
Proof. done. Qed.

(** ** [appendInt64] *)

Lemma digit_char_pretty x : (x < 10)%N → digit_char (Z.of_N x) = pretty_N_char x.
Proof.
  intros Hx.
  assert (x = 0 ∨ x = 1 ∨ x = 2 ∨ x = 3 ∨ x = 4 ∨ x = 5 ∨ x = 6 ∨ x = 7 ∨ x = 8 ∨ x = 9)%N as H by lia.
  by destruct_or! H; subst.
Qed.

Lemma push_digits_pretty fuel n buf :
  0 < n < 10 ^ Z.of_nat fuel → push_digits fuel n buf = pretty_N_go (Z.to_N n) buf.
Proof.
  revert n buf. induction fuel as [|fuel IH]; intros n buf Hn; [simpl in Hn; lia|].
  rewrite Nat2Z.inj_succ, Z.pow_succ_r in Hn by lia. cbn [push_digits]. cbv zeta.
  rewrite Z.rem_mod_nonneg, Z.quot_div_nonneg by lia.
  rewrite pretty_N_go_step by lia.
  replace (n `mod` 10) with (Z.of_N (Z.to_N n mod 10)) by (rewrite N2Z.inj_mod, Z2N.id; lia).
  rewrite digit_char_pretty by (apply N.mod_lt; lia).
  assert (Z.to_N (n `div` 10) = (Z.to_N n `div` 10)%N) as Hd
    by (rewrite Z2N.inj_div by lia; done).
  destruct (Z.ltb_spec 0 (n `div` 10)) as [Hp|Hp].
  - rewrite IH, Hd; [done|]. split; [lia|]. apply Z.div_lt_upper_bound; lia.
  - rewrite <-Hd. replace (n `div` 10) with 0; [done|]. pose proof (Z.div_pos n 10). lia.
Qed.

Lemma to_string_pos n : 0 < n → to_string n = pretty_N_go (Z.to_N n) "".
Proof.
  intros Hn. rewrite to_string_nonneg by lia. unfold pretty, pretty_N.
  by rewrite decide_False by lia.
Qed.

Definition int_ok (n : Z) : Prop := - INT64_MAX ≤ n ≤ INT64_MAX ∧ (0 ≤ n ∨ Z.rem n 10 = 0).

Lemma int_fuel n : 0 < n ≤ INT64_MAX → 0 < n < 10 ^ Z.of_nat 20.
Proof. unfold INT64_MAX. change (10 ^ Z.of_nat 20) with 100000000000000000000. lia. Qed.

Lemma appendInt64_pos n : 0 ≤ n ≤ INT64_MAX → appendInt64 n = to_string n.
Proof.
  intros Hn. unfold appendInt64.
  destruct (Z.eqb_spec n 0) as [->|H0]; [done|]. destruct (Z.eqb_spec n 1) as [->|H1]; [done|].
  destruct (Z.ltb_spec 0 n); [|lia]. destruct (Z.ltb_spec n 10) as [Hs|Hs]; cbn [andb].
  - assert (n = 2 ∨ n = 3 ∨ n = 4 ∨ n = 5 ∨ n = 6 ∨ n = 7 ∨ n = 8 ∨ n = 9) as Hc by lia.
    by destruct_or! Hc; subst.
  - destruct (Z.ltb_spec n 0); [lia|].
    rewrite push_digits_pretty, to_string_pos by (try apply int_fuel; lia). done.
Qed.

(** A negative number and the buffer its last digit is put in. *)
Lemma appendInt64_neg n q r :
  n < 0 → q = Z.quot n 10 → r = Z.rem n 10 →
  appendInt64 n = String "-" (push_digits 20 (- (if r <? 0 then q + 1 else q))
                                (String (digit_char (- r)) "")).
Proof.
  intros Hn -> ->. unfold appendInt64.
  destruct (Z.eqb_spec n 0); [lia|]. destruct (Z.eqb_spec n 1); [lia|].
  destruct (Z.ltb_spec 0 n); [lia|]. destruct (Z.ltb_spec n 0); [|lia]. cbn [andb].
  destruct (Z.ltb_spec (Z.rem n 10) 0); [done|].
  pose proof (Z.rem_nonpos n 10). replace (Z.rem n 10) with 0 by lia. done.
Qed.

Lemma neg_split n : n < 0 → Z.quot n 10 = - (- n / 10) ∧ Z.rem n 10 = - (- n mod 10).
Proof.
  intros Hn. assert (10 ≠ 0) as H10 by done.
  pose proof (Z.quot_opp_l (- n) 10 H10) as Hq. pose proof (Z.rem_opp_l (- n) 10 H10) as Hr.
  rewrite Z.opp_involutive in Hq, Hr. rewrite Hq, Hr.
  rewrite Z.quot_div_nonneg, Z.rem_mod_nonneg by lia. done.
Qed.

Lemma go_digit m : 10 ≤ m →
  pretty_N_go (Z.to_N m) "" =
  pretty_N_go (Z.to_N (m / 10)) (String (digit_char (m mod 10)) "").
Proof.
  intros Hm. rewrite pretty_N_go_step by lia.
  replace (m mod 10) with (Z.of_N (Z.to_N m mod 10)) by (rewrite N2Z.inj_mod, Z2N.id; lia).
  rewrite digit_char_pretty by (apply N.mod_lt; lia). f_equal.
  by rewrite Z2N.inj_div by lia.
Qed.

(** Right when the number ends in 0. *)
Lemma appendInt64_neg_ok n :
  - INT64_MAX ≤ n < 0 → Z.rem n 10 = 0 → appendInt64 n = to_string n.
Proof.
  intros Hn Hr. rewrite (appendInt64_neg n _ _ (proj2 Hn) eq_refl eq_refl).
  destruct (neg_split n (proj2 Hn)) as [Hq Hr']. rewrite Hr in *. cbn [Z.ltb Z.compare].
  rewrite Hq, Z.opp_involutive.
  assert (10 ≤ - n) by (pose proof (Z.div_mod (- n) 10); lia).
  rewrite push_digits_pretty.
  - rewrite to_string_neg, to_string_pos by lia. f_equal. rewrite (go_digit (- n)) by done.
    replace (- n mod 10) with 0 by lia. done.
  - apply int_fuel. split; [apply Z.div_str_pos; lia|].
    etrans; [apply Z.div_le_upper_bound with (q := INT64_MAX); unfold INT64_MAX in *; lia|done].
Qed.

Lemma appendInt64_ok n : int_ok n → appendInt64 n = to_string n.
Proof.
  intros [Hn H]. destruct (decide (0 ≤ n)); [apply appendInt64_pos; lia|].
  apply appendInt64_neg_ok; lia.
Qed.

(** Any other number below -20 is written as the one ten above it. *)
Lemma appendInt64_off n :
  - INT64_MAX ≤ n < -20 → Z.rem n 10 ≠ 0 → appendInt64 n = to_string (n + 10).
Proof.
  intros Hn Hr. rewrite (appendInt64_neg n _ _ ltac:(lia) eq_refl eq_refl).
  destruct (neg_split n) as [Hq Hr']; [lia|].
  destruct (Z.ltb_spec (Z.rem n 10) 0); [|pose proof (Z.rem_nonpos n 10); lia].
  rewrite Hq, Hr', Z.opp_involutive.
  assert (- (- (- n / 10) + 1) = (- (n + 10)) / 10) as ->.
  { replace (- (n + 10)) with (- n + (-1) * 10) by ring. rewrite Z.div_add by lia. lia. }
  assert (- n mod 10 = (- (n + 10)) mod 10) as ->.
  { replace (- (n + 10)) with (- n + (-1) * 10) by ring. by rewrite Z.mod_add by lia. }
  rewrite push_digits_pretty.
  - rewrite to_string_neg, to_string_pos by lia. f_equal. symmetry. apply go_digit. lia.
  - apply int_fuel. split; [apply Z.div_str_pos; lia|].
    etrans; [apply Z.div_le_upper_bound with (q := INT64_MAX); unfold INT64_MAX in *; lia|done].
Qed.

(** ** Reading lines and numbers *)

Lemma find_crlf_here rest : find_crlf (CR :: LF :: rest) = Some 0%nat.
Proof. done. Qed.

Lemma find_crlf_cons2 c c' p :
  find_crlf (c :: c' :: p) =
  if bool_decide (c = CR) && bool_decide (c' = LF) then Some 0%nat else S <$> find_crlf (c' :: p).
Proof. done. Qed.

Lemma find_crlf_cons c p :
  find_crlf (c :: CR :: p) = S <$> find_crlf (CR :: p).
Proof.
  rewrite find_crlf_cons2, (bool_decide_eq_false_2 (CR = LF)) by done. by rewrite andb_false_r.
Qed.

Lemma find_crlf_app l rest : find_crlf l = None → find_crlf (l ++ CR :: LF :: rest) = Some (length l).
Proof.
  induction l as [|c l IH]; [done|].
  intros Hl. destruct l as [|c' l].
  - cbn [app length]. by rewrite find_crlf_cons, find_crlf_here.
  - rewrite find_crlf_cons2 in Hl. cbn [app length] in *. rewrite find_crlf_cons2.
    destruct (_ && _); [done|]. destruct (find_crlf (c' :: l)); [done|]. by rewrite IH.
Qed.

Lemma find_crlf_lt l i : find_crlf l = Some i → (i + 2 ≤ length l)%nat.
Proof.
  revert i. induction l as [|c [|c' l] IH]; intros i; [done..|]. rewrite find_crlf_cons2.
  destruct (_ && _); [intros [= <-]; simpl; lia|].
  destruct (find_crlf (c' :: l)) as [j|] eqn:E; [|done]. intros [= <-].
  specialize (IH j eq_refl). simpl in *. lia.
Qed.

Lemma readLine_app s rest :
  find_crlf (chars s) = None →
  readLine (chars s ++ CR :: LF :: rest) = Some (s, (String.length s + 2)%nat).
Proof.
  intros Hs. unfold readLine. rewrite find_crlf_app by done. simpl.
  by rewrite take_app_length, text_chars, chars_length.
Qed.

Lemma at_crlf_app rest : at_crlf (CR :: LF :: rest) = true.
Proof. done. Qed.

(** No digit follows. *)
Definition no_digit (p : list ascii) : Prop := starts_digit p = false.

Lemma scan_digits_ge s val v rest : 0 ≤ val → scan_digits val s = (v, rest) → val ≤ v.
Proof.
  revert val. induction s as [|c s IH]; intros val Hv; simpl; [intros [= <- <-]; lia|].
  destruct (digit_val c) as [d|] eqn:E; [|intros [= <- <-]; lia].
  assert (0 ≤ d) by (unfold digit_val in E; case_match eqn:E'; simplify_eq;
                     apply andb_true_iff in E'; lia).
  intros Hs. apply IH in Hs; lia.
Qed.

(** [read_digits] reads what [scan_digits] does when the number fits. *)
Lemma read_digits_scan s rest val v n :
  0 ≤ val → scan_digits val s = (v, "") → v ≤ INT64_MAX → no_digit rest →
  read_digits (chars s ++ rest) val n = Some (v, (n + String.length s)%nat).
Proof.
  revert val n. induction s as [|c s IH]; intros val n Hval Hs Hv Hrest.
  - simpl in Hs. injection Hs as <-. simpl. rewrite Nat.add_0_r.
    destruct rest as [|c rest]; [done|]. unfold no_digit, starts_digit in Hrest. simpl.
    apply bool_decide_eq_false_1 in Hrest. destruct (digit_val c); [|done]. destruct Hrest. eauto.
  - simpl in *. destruct (digit_val c) as [d|] eqn:E; [|done].
    assert (0 ≤ d) by (unfold digit_val in E; case_match eqn:E'; simplify_eq;
                       apply andb_true_iff in E'; lia).
    pose proof (scan_digits_ge s (10 * val + d) v "" ltac:(lia) Hs) as Hge.
    destruct (Z.ltb_spec (Z.quot (INT64_MAX - d) 10) val) as [Hlt|_].
    { rewrite Z.quot_div_nonneg in Hlt by lia.
      pose proof (Z.div_le_lower_bound (INT64_MAX - d) 10 val). lia. }
    replace (val * 10 + d) with (10 * val + d) by ring. rewrite (IH _ (S n)); [|lia|done..].
    f_equal. f_equal. lia.
Qed.

Lemma scan_to_string_all z : 0 ≤ z → scan_digits 0 (to_string z) = (z, "").
Proof.
  intros Hz. pose proof (scan_to_string z "" Hz I) as H. by rewrite app_empty_r in H.
Qed.

Lemma starts_digit_to_string z rest : 0 ≤ z → starts_digit (chars (to_string z) ++ rest) = true.
Proof.
  intros Hz. destruct (to_string_starts z Hz) as (c & s & d & -> & Hd). simpl.
  rewrite Hd. by apply bool_decide_eq_true_2.
Qed.

Lemma readInt64_to_string z rest :
  - INT64_MAX ≤ z ≤ INT64_MAX → no_digit rest →
  readInt64 (chars (to_string z) ++ rest) = Some (z, String.length (to_string z)).
Proof.
  intros Hz Hrest. destruct (decide (0 ≤ z)) as [Hp|Hn].
  - pose proof (starts_digit_to_string z rest Hp) as Hd.
    pose proof (read_digits_scan (to_string z) rest 0 z 0 ltac:(lia) (scan_to_string_all z Hp)
                  ltac:(lia) Hrest) as Hr.
    destruct (to_string_starts z Hp) as (c & s & d & E & Hc). rewrite E in *. cbn [chars app] in *.
    unfold readInt64. rewrite !bool_decide_eq_false_2 by (by intros ->).
    rewrite Hd, Hr. done.
  - rewrite to_string_neg by lia. cbn [chars app]. unfold readInt64.
    rewrite bool_decide_eq_true_2 by done.
    rewrite starts_digit_to_string by lia.
    rewrite (read_digits_scan _ rest 0 (- z)); [|lia|apply scan_to_string_all; lia|lia|done].
    simpl. f_equal. f_equal; lia.
Qed.

(** ** The round trip *)

Section roundtrip.
Context (reserves : Z → bool).

(** What the encoder writes faithfully and the reader has room for: lines without a CR LF,
    numbers [appendInt64] writes right, lengths that fit. *)
Fixpoint resp_wf (v : RespValue) : Prop :=
  match r_type v with
  | RSimpleString | RError => find_crlf (chars (r_str v)) = None
  | RInteger => int_ok (r_integer v)
  | RBulkString => r_is_null v = true ∨ str_size (r_str v) ≤ INT64_MAX
  | RArray =>
      Z.of_nat (length (r_array v)) ≤ INT64_MAX ∧
      reserves (Z.of_nat (length (r_array v))) = true ∧
      (fix all (l : list RespValue) : Prop :=
         match l with [] => True | x :: l => resp_wf x ∧ all l end) (r_array v)
  | RNull => True
  end.

Lemma resp_wf_array v :
  r_type v = RArray →
  resp_wf v ↔ Z.of_nat (length (r_array v)) ≤ INT64_MAX ∧
    reserves (Z.of_nat (length (r_array v))) = true ∧ Forall resp_wf (r_array v).
Proof.
  destruct v as [t s n l b]. simpl. intros ->.
  assert ((fix all (l : list RespValue) : Prop :=
             match l with [] => True | x :: l => resp_wf x ∧ all l end) l ↔ Forall resp_wf l) as H.
  { induction l as [|x l IH]; [by split|]. rewrite Forall_cons. by rewrite IH. }
  by rewrite H.
Qed.

Lemma reply_of_array v : r_type v = RArray → reply_of v = PArray (reply_of <$> r_array v).
Proof. by destruct v as [[] s n l b]. Qed.

(** The header of a bulk string, whichever way it is written. *)
Lemma bulk_header len :
  Z.of_nat len ≤ INT64_MAX →
  (if (len <=? 16)%nat then default "" (kRespBulkHdr !! len)
   else "$" +:+ appendInt64 (Z.of_nat len) +:+ crlf) = "$" +:+ to_string (Z.of_nat len) +:+ crlf.
Proof.
  intros Hl. destruct (Nat.leb_spec len 16).
  - do 17 (destruct len as [|len]; [done|]). lia.
  - by rewrite appendInt64_pos by lia.
Qed.

Lemma encode_starts v : ∃ c s, encode v = String c s ∧ isRespPrefix c = true.
Proof.
  destruct v as [[] s n l []]; cbn [encode r_type r_str r_integer r_array r_is_null];
    try by eexists _, _.
  destruct (Nat.leb_spec (String.length s) 16) as [Hle|Hle]; [|by eexists _, _].
  do 17 (destruct s as [|? s]; [by eexists _, _|]). simpl in Hle. lia.
Qed.

Lemma encode_pos v : (1 ≤ String.length (encode v))%nat.
Proof. destruct (encode_starts v) as (c & s & -> & _). simpl. lia. Qed.

(** What reading [v] back means: its characters are taken, and the value says the same. *)
Definition reads_back (v : RespValue) (rest : list ascii)
    (r : option (ParseStatus * RespValue * nat)) : Prop :=
  ∃ v', r = Some (POk, v', String.length (encode v)) ∧ reply_of v' = reply_of v.

Lemma no_digit_crlf rest : no_digit (CR :: LF :: rest).
Proof. done. Qed.

Lemma drop_chars s rest : drop (String.length s) (chars s ++ rest) = rest.
Proof. rewrite <-chars_length. apply drop_app_length. Qed.

Lemma take_chars s rest : text (take (String.length s) (chars s ++ rest)) = s.
Proof. rewrite <-chars_length, take_app_length. apply text_chars. Qed.

Lemma parse_integer_back z rest out :
  - INT64_MAX ≤ z ≤ INT64_MAX →
  parse_integer (chars (to_string z) ++ CR :: LF :: rest) out =
  (POk, set_r_integer z (set_r_type RInteger out), (String.length (to_string z) + 2)%nat).
Proof.
  intros Hz. unfold parse_integer. rewrite readInt64_to_string by done.
  by rewrite drop_chars, at_crlf_app.
Qed.

Lemma parse_bulk_back s rest out :
  let len := Z.of_nat (String.length s) in
  len ≤ INT64_MAX →
  parse_bulk (chars (to_string len) ++ CR :: LF :: chars s ++ CR :: LF :: rest) out =
  (POk, set_r_str s (set_r_is_null false (set_r_type RBulkString out)),
   (String.length (to_string len) + 2 + String.length s + 2)%nat).
Proof.
  intros len Hs. unfold len in *. clear len. unfold parse_bulk.
  rewrite readInt64_to_string; [|unfold INT64_MAX in *; lia|done].
  rewrite drop_chars, at_crlf_app. cbn [negb andb].
  destruct (Z.ltb_spec (Z.of_nat (String.length s)) 0); [lia|].
  rewrite <-drop_drop, drop_chars. cbn [drop]. rewrite drop_0, Nat2Z.id, drop_chars, take_chars, at_crlf_app.
  rewrite length_app, chars_length. cbn [length]. rewrite length_app, chars_length. cbn [length].
  destruct (Z.ltb_spec (Z.of_nat (String.length (to_string (Z.of_nat (String.length s))) +
      S (S (String.length s + S (S (length rest))))))
    (Z.of_nat (String.length (to_string (Z.of_nat (String.length s))) + 2) +
     Z.of_nat (String.length s) + 2)); [lia|done].
Qed.

(** The items of an array, each read back. *)
Lemma items_back parse l :
  (∀ x rest, x ∈ l → reads_back x rest (parse (chars (encode x) ++ rest) RespValue0)) →
  ∀ fuel rest items read, (length l < fuel)%nat →
  ∃ l', parse_items parse fuel (Z.of_nat (length l)) (chars (encode_all l) ++ rest) items read =
        Some (POk, items ++ l', (read + String.length (encode_all l))%nat) ∧
        reply_of <$> l' = reply_of <$> l.
Proof.
  induction l as [|x l IH]; intros Hl fuel rest items read Hf.
  - exists []. destruct fuel; simpl; by rewrite app_nil_r, Nat.add_0_r.
  - destruct fuel as [|fuel]; [simpl in Hf; lia|]. cbn [parse_items length encode_all].
    destruct (Z.leb_spec (Z.of_nat (S (length l))) 0); [lia|].
    rewrite chars_app, <-app_assoc.
    destruct (Hl x (chars (encode_all l) ++ rest)) as (x' & -> & Hx'); [set_solver|]. simpl.
    replace (Z.of_nat (S (length l)) - 1) with (Z.of_nat (length l)) by lia.
    rewrite drop_chars.
    destruct (IH ltac:(set_solver) fuel rest (items ++ [x']) (read + String.length (encode x))%nat
                ltac:(simpl in Hf; lia)) as (l' & -> & Hl').
    exists (x' :: l'). rewrite <-app_assoc, app_length_s. split; [do 2 f_equal; lia|].
    by rewrite !fmap_cons, Hx', Hl'.
Qed.

Lemma encode_all_elem x l : x ∈ l → (String.length (encode x) ≤ String.length (encode_all l))%nat.
Proof.
  induction l as [|y l IH]; [set_solver|]. intros [->|H]%elem_of_cons; simpl;
    rewrite app_length_s; [|specialize (IH H)]; lia.
Qed.

Lemma encode_all_length l : (length l ≤ String.length (encode_all l))%nat.
Proof.
  induction l as [|x l IH]; simpl; [lia|]. rewrite app_length_s. pose proof (encode_pos x). lia.
Qed.

(** An array, when its items are read back with the fuel that is left. *)
Lemma parse_array_back v fuel rest out :
  r_type v = RArray → resp_wf v →
  (∀ x rest, x ∈ r_array v →
     reads_back x rest (parseValue reserves fuel (chars (encode x) ++ rest) RespValue0)) →
  reads_back v rest (parseValue reserves (S fuel) (chars (encode v) ++ rest) out).
Proof.
  intros Ht Hwf Hitems. destruct (proj1 (resp_wf_array v Ht) Hwf) as (Hn & Hres & _).
  pose proof (encode_all_length (r_array v)) as Hlen.
  unfold reads_back. rewrite (encode_array v Ht), (reply_of_array v Ht).
  rewrite appendInt64_pos by lia. set (z := Z.of_nat (length (r_array v))) in *.
  rewrite !chars_app, chars_crlf, <-!app_assoc. cbn [chars app parseValue].
  rewrite readInt64_to_string; [|lia|done]. rewrite drop_chars, at_crlf_app. cbn [negb].
  destruct (Z.ltb_spec z 0); [lia|]. rewrite Hres. cbn [negb].
  rewrite <-drop_drop, drop_chars. cbn [drop]. rewrite drop_0.
  destruct (items_back (parseValue reserves fuel) (r_array v) Hitems
    (S (length (chars (encode_all (r_array v)) ++ rest))) rest [] 0) as (l' & Hl' & Hr).
  { rewrite length_app, chars_length. lia. }
  fold z in Hl'. rewrite Hl'. cbn [mbind option_bind app].
  exists (set_r_array l' (set_r_array [] (set_r_type RArray out))).
  split; [|by rewrite <-Hr].
  do 2 f_equal. simpl. rewrite !app_length_s. simpl. lia.
Qed.

(** The round trip: whatever follows in the buffer and whatever [out] held. *)
Lemma parse_encode v fuel rest out :
  resp_wf v → (String.length (encode v) < fuel)%nat →
  reads_back v rest (parseValue reserves fuel (chars (encode v) ++ rest) out).
Proof.
  revert fuel rest out. induction v as [t s n l b IH] using RespValue_nested_ind.
  intros fuel rest out Hwf Hf. destruct fuel as [|fuel]; [lia|].
  destruct (decide (t = RArray)) as [->|Hta].
  { apply parse_array_back; [done..|]. simpl. intros x rest' Hx.
    rewrite Forall_forall in IH. apply IH; [done| |].
    - pose proof (proj1 (resp_wf_array (mkResp RArray s n l b) eq_refl) Hwf) as (_ & _ & Hall).
      by apply (proj1 (Forall_forall _ _) Hall).
    - rewrite encode_array in Hf by done. cbn [r_array] in Hf. rewrite !app_length_s in Hf.
      pose proof (encode_all_elem x l Hx). simpl in Hf. lia. }
  unfold reads_back. destruct t; [| | | |congruence|]; cbn [encode r_type r_str r_integer r_is_null reply_of];
    cbn [resp_wf r_type r_str r_integer r_is_null] in Hwf.
  - rewrite !chars_app, chars_crlf, <-!app_assoc. cbn [chars app parseValue].
    unfold parse_line. rewrite readLine_app by done.
    eexists. split; [by rewrite !app_length_s|done].
  - rewrite !chars_app, chars_crlf, <-!app_assoc. cbn [chars app parseValue].
    unfold parse_line. rewrite readLine_app by done.
    eexists. split; [by rewrite !app_length_s|done].
  - rewrite appendInt64_ok, !chars_app, chars_crlf, <-!app_assoc by done. cbn [chars app parseValue].
    rewrite parse_integer_back by apply Hwf.
    eexists. split; [by rewrite !app_length_s|done].
  - destruct b; [by eexists|].
    destruct Hwf as [|Hwf]; [done|]. unfold str_size in *.
    rewrite bulk_header by done. rewrite !chars_app. cbn [chars app parseValue].
    rewrite !chars_crlf, <-!app_assoc. cbn [app].
    rewrite parse_bulk_back by done.
    eexists. split; [rewrite !app_length_s; simpl; do 2 f_equal; lia|done].
  - by eexists.
Qed.

(** The same for the entry point. *)
Lemma tryParse_encode v rest out :
  resp_wf v → reads_back v rest (tryParse reserves (chars (encode v) ++ rest) out).
Proof.
  intros Hwf. destruct (encode_starts v) as (c & s & E & Hc).
  pose proof (parse_encode v (S (length (chars (encode v) ++ rest))) rest out Hwf) as H.
  unfold tryParse. rewrite E in *. cbn [chars app] in *. rewrite Hc. apply H.
  simpl. rewrite length_app, chars_length. lia.
Qed.
End roundtrip.

(** ** Progress

    A value is read in a bounded number of steps, takes at least one character, and at
    most one more than there are. *)

Lemma read_digits_len p val n v m :
  read_digits p val n = Some (v, m) → (n ≤ m ≤ n + length p)%nat.
Proof.
  revert val n. induction p as [|c p IH]; intros val n; simpl; [intros [= <- <-]; lia|].
  destruct (digit_val c); [|intros [= <- <-]; lia].
  destruct (_ <? _); [done|]. intros H%IH. lia.
Qed.

Lemma readInt64_len p v n : readInt64 p = Some (v, n) → (n ≤ length p)%nat.
Proof.
  unfold readInt64. destruct p as [|c p]; [done|].
  destruct (bool_decide (c = "-"%char)); [|destruct (bool_decide (c = "+"%char))];
    (destruct (starts_digit _); [|done]);
    intros ([v' n'] & H%read_digits_len & [= <- <-])%bind_Some; simpl in *; lia.
Qed.

Lemma at_crlf_len p : at_crlf p = true → (2 ≤ length p)%nat.
Proof. destruct p as [|c [|c' p]]; simpl; [done..|lia]. Qed.

(** Enough fuel, and what it reads when it succeeds. *)
Definition reads_within (p : list ascii) (r : option (ParseStatus * RespValue * nat)) : Prop :=
  ∃ st v n, r = Some (st, v, n) ∧ (st = POk → 1 ≤ n ≤ length p + 1)%nat.

Lemma parse_line_within t p out :
  (parse_line t p out).1.1 = POk → (S (parse_line t p out).2 ≤ S (length p))%nat.
Proof.
  unfold parse_line, readLine. destruct (find_crlf p) as [i|] eqn:E; [|done].
  apply find_crlf_lt in E. simpl. lia.
Qed.

Lemma parse_integer_within p out :
  (parse_integer p out).1.1 = POk → (S (parse_integer p out).2 ≤ S (length p))%nat.
Proof.
  unfold parse_integer. destruct (readInt64 p) as [[v n]|] eqn:E; [|done].
  destruct (at_crlf _) eqn:Hc; [|done]. apply at_crlf_len in Hc. rewrite length_drop in Hc.
  simpl. lia.
Qed.

Lemma parse_bulk_within p out :
  (parse_bulk p out).1.1 = POk → (S (parse_bulk p out).2 ≤ length p + 2)%nat.
Proof.
  unfold parse_bulk. destruct (readInt64 p) as [[v n]|] eqn:E; [|done].
  assert (negb (at_crlf (drop n p)) && bool_decide (length p ≤ n)%nat = false → n + 1 ≤ length p)%nat as Hn.
  { destruct (at_crlf (drop n p)) eqn:Hc; cbn [negb andb].
    - apply at_crlf_len in Hc. rewrite length_drop in Hc. lia.
    - intros H%bool_decide_eq_false_1. lia. }
  destruct (_ && _); [done|]. specialize (Hn eq_refl).
  destruct (Z.ltb_spec v 0); [simpl; lia|].
  destruct (Z.ltb_spec (Z.of_nat (length p)) (Z.of_nat (n + 2) + v + 2)); [done|].
  destruct (at_crlf _); [|done]. simpl. lia.
Qed.

Section progress.
Context (reserves : Z → bool).

(** The items of an array, when each of them is read within what is left. *)
Lemma parse_items_within parse m :
  (∀ p, (length p ≤ m)%nat → reads_within p (parse p RespValue0)) →
  (∀ v n, parse [] RespValue0 ≠ Some (POk, v, n)) →
  ∀ fuel count p items read, (length p < fuel)%nat → (length p ≤ m)%nat →
  ∃ st l n, parse_items parse fuel count p items read = Some (st, l, n) ∧
    (st = POk → n ≤ read + length p + 1 ∧ (p = [] → n = read))%nat.
Proof.
  intros Hp Hnil. induction fuel as [|fuel IH]; intros count p items read Hf Hm; [lia|].
  cbn [parse_items]. destruct (count <=? 0); [eexists _, _, _; split; [done|lia]|].
  destruct (Hp p Hm) as (st & v & n & Hr & Hn). rewrite Hr. simpl.
  destruct (bool_decide_reflect (st = POk)) as [->|Hst]; [|by eexists _, _, _].
  specialize (Hn eq_refl). assert (p ≠ []) as Hne by (intros ->; by apply (Hnil v n)).
  destruct p as [|c p]; [done|].
  destruct (IH (count - 1) (drop n (c :: p)) (items ++ [v]) (read + n)%nat)
    as (st & l & k & -> & Hk); [rewrite length_drop; simpl in *; lia..|].
  eexists _, _, _. split; [done|]. intros ->. destruct (Hk eq_refl) as [Hle Hnil'].
  split; [|done]. rewrite length_drop in Hle. destruct (decide (n = S (length (c :: p)))) as [->|].
  - rewrite Hnil' by (apply drop_ge; lia). simpl. lia.
  - simpl in *. lia.
Qed.

Lemma parseValue_within fuel p out :
  (length p < fuel)%nat → reads_within p (parseValue reserves fuel p out).
Proof.
  revert p out. induction fuel as [|fuel IH]; intros p out Hf; [lia|].
  destruct p as [|c p]; [by eexists _, _, _|]. unfold reads_within.
  assert (∀ r : ParseStatus * RespValue * nat, (r.1.1 = POk → (S r.2 ≤ length p + 2)%nat) →
    ∃ st v n, Some (r.1.1, r.1.2, S r.2) = Some (st, v, n) ∧
              (st = POk → 1 ≤ n ≤ length (c :: p) + 1)%nat) as Hstep.
  { intros r Hr. eexists _, _, _. split; [done|]. intros H%Hr. simpl. lia. }
  assert (∀ st (v : RespValue) (n : nat), st ≠ POk → ∃ st' v' n', Some (st, v, n) = Some (st', v', n') ∧
     (st' = POk → 1 ≤ n' ≤ length (c :: p) + 1)%nat) as Hno by (intros; by eexists _, _, _).
  cbn [parseValue]. destruct c as [[] [] [] [] [] [] [] []]; try (by apply Hno).
  all: try (apply Hstep; intros H; apply parse_line_within in H; lia).
  all: try (apply Hstep; intros H; apply parse_integer_within in H; lia).
  all: try (apply Hstep; apply parse_bulk_within).
  destruct (readInt64 p) as [[count n]|] eqn:E; [|by apply Hno].
  destruct (at_crlf (drop n p)) eqn:Hc; [|by apply Hno]. cbn [negb].
  apply at_crlf_len in Hc. rewrite length_drop in Hc.
  destruct (count <? 0); [by apply Hno|]. destruct (reserves count); [|by apply Hno]. cbn [negb].
  set (q := drop (n + 2) p). assert (length q + n + 2 = length p)%nat as Hq.
  { unfold q. rewrite length_drop. lia. }
  simpl in Hf. edestruct (parse_items_within (parseValue reserves fuel) (length q)) with
    (fuel := S (length q)) (p := q) (count := count) (items := @nil RespValue) (read := 0%nat)
    as (st & l & m & -> & Hm); [intros; apply IH; lia|by destruct fuel|lia|lia|].
  eexists _, _, _. split; [done|]. intros H%Hm. simpl. lia.
Qed.

(** The entry point: it always answers, and consumes something when it succeeds. *)
Lemma tryParse_within data out : reads_within data (tryParse reserves data out).
Proof.
  unfold tryParse. destruct data as [|c p]; [apply parseValue_within; simpl; lia|].
  destruct (isRespPrefix c); [apply parseValue_within; simpl; lia|].
  unfold reads_within, parseInline, readLine.
  destruct (find_crlf (c :: p)) as [i|] eqn:E; simpl mbind; cbv beta iota; [|by eexists _, _, _].
  destruct (bool_decide (_ = "")); [by eexists _, _, _|].
  eexists _, _, _. split; [done|]. apply find_crlf_lt in E. simpl in *. lia.
Qed.
End progress.

(** ** Incomplete commands

    A client sends arrays of bulk strings.  On a part of one the reader asks for more,
    or gives up when the part ends right after a "*" or a "$". *)

Lemma read_digits_cut s val v n k :
  0 ≤ val → scan_digits val s = (v, "") → v ≤ INT64_MAX → (k ≤ String.length s)%nat →
  ∃ w, read_digits (take k (chars s)) val n = Some (w, (n + k)%nat).
Proof.
  revert val n k. induction s as [|c s IH]; intros val n k Hval Hs Hv Hk.
  - destruct k; [|simpl in Hk; lia]. exists val. simpl. by rewrite Nat.add_0_r.
  - destruct k as [|k]; [exists val; simpl; by rewrite Nat.add_0_r|]. simpl in *.
    destruct (digit_val c) as [d|] eqn:E; [|done].
    assert (0 ≤ d) by (unfold digit_val in E; case_match eqn:E'; simplify_eq;
                       apply andb_true_iff in E'; lia).
    pose proof (scan_digits_ge s (10 * val + d) v "" ltac:(lia) Hs) as Hge.
    destruct (Z.ltb_spec (Z.quot (INT64_MAX - d) 10) val) as [Hlt|_].
    { rewrite Z.quot_div_nonneg in Hlt by lia.
      pose proof (Z.div_le_lower_bound (INT64_MAX - d) 10 val). lia. }
    replace (val * 10 + d) with (10 * val + d) by ring.
    destruct (IH (10 * val + d) (S n) k) as (w & ->); [lia|done|done|lia|].
    exists w. do 2 f_equal. lia.
Qed.

(** A length and what follows, cut before the end of its CR LF. *)
Lemma header_cut z k rest :
  0 ≤ z ≤ INT64_MAX →
  let D := String.length (to_string z) in
  let q := take k (chars (to_string z) ++ CR :: LF :: rest) in
  (1 ≤ k < D + 2)%nat →
  ∃ w, readInt64 q = Some (w, Nat.min k D) ∧ at_crlf (drop (Nat.min k D) q) = false ∧
       length q = k ∧ ((D < k)%nat → w = z).
Proof.
  intros Hz D q Hk.
  assert (length q = k) as Hq.
  { unfold q. rewrite length_take, length_app, chars_length. fold D. simpl. lia. }
  destruct (Nat.le_gt_cases k D) as [Hle|Hgt].
  - destruct (read_digits_cut (to_string z) 0 z 0 k ltac:(lia) (scan_to_string_all z ltac:(lia))
      ltac:(lia) Hle) as (w & Hw).
    exists w. rewrite Nat.min_l by done.
    assert (q = take k (chars (to_string z))) as Eq.
    { unfold q. rewrite take_app_le; [done|]. by rewrite chars_length. }
    split_and!; [|rewrite drop_ge by lia; done|done|lia]. rewrite Eq.
    destruct (to_string_starts z ltac:(lia)) as (c & s & d & E & Hc). rewrite E in *.
    destruct k as [|k]; [lia|]. cbn [chars take] in *. unfold readInt64.
    rewrite !bool_decide_eq_false_2 by (by intros ->).
    cbn [starts_digit]. rewrite Hc, bool_decide_eq_true_2 by done. by rewrite Hw.
  - exists z. assert (k = S D) as -> by lia. rewrite Nat.min_r by lia.
    assert (q = chars (to_string z) ++ [CR]) as Eq.
    { unfold q. rewrite take_app_ge by (rewrite chars_length; fold D; lia).
      rewrite chars_length. fold D. by replace (S D - D)%nat with 1%nat by lia. }
    split_and!; [|by rewrite Eq; unfold D; rewrite drop_chars|done|done]. rewrite Eq.
    apply readInt64_to_string; [lia|done].
Qed.

(** The status after only part of the input. *)
Definition incomplete (p : list ascii) (r : option (ParseStatus * RespValue * nat)) : Prop :=
  ∃ v n, r = Some (NeedMore, v, n) ∨
         r = Some (PError_, v, n) ∧ (last p = Some "*"%char ∨ last p = Some "$"%char).

Definition is_arg (v : RespValue) : Prop :=
  r_type v = RBulkString ∧ r_is_null v = false ∧ Z.of_nat (String.length (r_str v)) ≤ INT64_MAX.

Lemma encode_arg v : is_arg v →
  encode v = "$" +:+ to_string (Z.of_nat (String.length (r_str v))) +:+ crlf +:+ r_str v +:+ crlf.
Proof.
  destruct v as [t s n l b]. intros (Ht & Hb & Hs). cbn [r_type r_is_null r_str] in *. subst.
  cbn [encode r_type r_is_null r_str]. by rewrite bulk_header, !app_assoc_s by done.
Qed.

(** Part of an argument, after its type byte. *)
Lemma parse_bulk_cut s k out :
  let len := Z.of_nat (String.length s) in
  len ≤ INT64_MAX → (1 ≤ k < String.length (to_string len) + 2 + String.length s + 2)%nat →
  parse_bulk (take k (chars (to_string len) ++ CR :: LF :: chars s ++ [CR; LF])) out =
  (NeedMore, out, 0%nat).
Proof.
  intros len Hs Hk. set (D := String.length (to_string len)) in *. unfold parse_bulk.
  destruct (decide (k < D + 2)%nat) as [Hlt|Hge].
  - destruct (header_cut len k (chars s ++ [CR; LF])) as (w & Hw & Hc & Hl & Hz);
      [unfold INT64_MAX in *; lia|fold D; lia|].
    fold D in Hw, Hc, Hz. rewrite Hw, Hc, Hl. cbn [negb andb].
    destruct (bool_decide_reflect (k ≤ Nat.min k D)%nat); [done|].
    rewrite Hz by lia. destruct (Z.ltb_spec len 0); [lia|].
    destruct (Z.ltb_spec (Z.of_nat k) (Z.of_nat (Nat.min k D + 2) + len + 2)); [done|lia].
  - replace (take k _) with (chars (to_string len) ++ CR :: LF :: take (k - D - 2) (chars s ++ [CR; LF])).
    2: { rewrite (take_app_ge (chars (to_string len))) by (rewrite chars_length; fold D; lia).
         rewrite chars_length. fold D.
         destruct (k - D)%nat as [|[|j]] eqn:E; [lia..|]. simpl. by rewrite Nat.sub_0_r. }
    rewrite readInt64_to_string; [|unfold INT64_MAX in *; lia|done]. fold D.
    unfold D at 1. rewrite drop_chars, at_crlf_app. cbn [negb andb].
    destruct (Z.ltb_spec len 0); [lia|].
    rewrite length_app, chars_length. fold D. cbn [length].
    rewrite length_take, length_app, chars_length. cbn [length].
    match goal with |- context [?a <? ?b] => destruct (Z.ltb_spec a b) end; [done|lia].
Qed.

Section cut.
Context (reserves : Z → bool).

Lemma arg_cut v k fuel out :
  is_arg v → (k < String.length (encode v))%nat →
  let p := take k (chars (encode v)) in
  incomplete p (parseValue reserves (S fuel) p out).
Proof.
  intros Hv Hk p. unfold p. clear p. rewrite (encode_arg v Hv) in *.
  destruct Hv as (_ & _ & Hs). rewrite !app_length_s in Hk. rewrite !chars_app, chars_crlf.
  destruct k as [|[|k]]; [by eexists _, _; left| |].
  - eexists _, _. right. split; [done|by right].
  - eexists _, _. left. cbn [parseValue chars app take]. rewrite parse_bulk_cut; [done|done|].
    simpl in Hk. lia.
Qed.

(** Part of several items: the reader stops at the first one that is not whole. *)
Lemma items_cut parse room l :
  (∀ x rest, x ∈ l → (String.length (encode x) ≤ room)%nat →
     reads_back x rest (parse (chars (encode x) ++ rest) RespValue0)) →
  (∀ x k, x ∈ l → (k < String.length (encode x))%nat →
     incomplete (take k (chars (encode x))) (parse (take k (chars (encode x))) RespValue0)) →
  ∀ fuel k items read, (k < fuel)%nat → (k ≤ room)%nat →
  (k < String.length (encode_all l))%nat →
  ∃ m, let p := take k (chars (encode_all l)) in
    let r := parse_items parse fuel (Z.of_nat (length l)) p items read in
    r = Some (NeedMore, [], m) ∨
    r = Some (PError_, [], m) ∧ (last p = Some "*"%char ∨ last p = Some "$"%char).
Proof.
  induction l as [|x l IH]; intros Hback Hcut fuel k items read Hf Hroom Hk; [simpl in Hk; lia|].
  destruct fuel as [|fuel]; [lia|]. cbv zeta. cbn [parse_items length encode_all] in *.
  rewrite app_length_s in Hk. rewrite chars_app.
  destruct (Z.leb_spec (Z.of_nat (S (length l))) 0); [lia|].
  destruct (Nat.lt_ge_cases k (String.length (encode x))) as [Hlt|Hge].
  - rewrite take_app_le by (rewrite chars_length; lia).
    destruct (Hcut x k ltac:(set_solver) Hlt) as (v & n & [-> | [-> Hlast]]); eexists; simpl;
      [by left|by right].
  - rewrite take_app_ge, chars_length by (rewrite chars_length; lia).
    destruct (Hback x (take (k - String.length (encode x)) (chars (encode_all l))) ltac:(set_solver)
                ltac:(lia)) as (x' & -> & _). simpl. rewrite drop_chars.
    replace (Z.of_nat (S (length l)) - 1) with (Z.of_nat (length l)) by lia.
    destruct (IH ltac:(set_solver) ltac:(set_solver) fuel (k - String.length (encode x))%nat
      (items ++ [x']) (read + String.length (encode x))%nat) as (m & Hm);
      [pose proof (encode_pos x); lia|lia|lia|].
    exists m. destruct Hm as [Hm | [Hm Hlast]]; [by left|right]. split; [done|].
    rewrite last_app. destruct Hlast as [-> | ->]; auto.
Qed.

Definition is_command (v : RespValue) : Prop :=
  r_type v = RArray ∧ Z.of_nat (length (r_array v)) ≤ INT64_MAX ∧
  reserves (Z.of_nat (length (r_array v))) = true ∧ Forall is_arg (r_array v).

Lemma is_arg_wf v : is_arg v → resp_wf reserves v.
Proof. destruct v as [t s n l b]. intros (Ht & _ & Hs). simpl in *. subst. by right. Qed.

Lemma is_command_wf v : is_command v → resp_wf reserves v.
Proof.
  intros (Ht & Hn & Hr & Hall). apply resp_wf_array; [done|]. split_and!; [done..|].
  eapply Forall_impl; [done|]. apply is_arg_wf.
Qed.

Lemma command_cut v k fuel out :
  is_command v → (k < String.length (encode v))%nat → (k < fuel)%nat →
  let p := take k (chars (encode v)) in
  incomplete p (parseValue reserves fuel p out).
Proof.
  intros Hv Hk Hf. pose proof (is_command_wf v Hv) as Hwf.
  destruct Hv as (Ht & Hn & Hr & Hall). cbv zeta. rewrite (encode_array v Ht) in *.
  rewrite appendInt64_pos in * by lia. set (len := Z.of_nat (length (r_array v))) in *.
  rewrite !app_length_s in Hk. rewrite !chars_app, chars_crlf.
  destruct fuel as [|fuel]; [lia|]. destruct k as [|k]; [by eexists _, _; left|].
  cbn [chars app take]. set (D := String.length (to_string len)) in *.
  destruct (decide (k = 0%nat)) as [->|Hk0].
  { eexists _, _. right. split; [done|by left]. }
  cbn [parseValue].
  destruct (decide (k < D + 2)%nat) as [Hlt|Hge].
  - destruct (header_cut len k (chars (encode_all (r_array v)))) as (w & Hw & Hc & _ & _);
      [lia|fold D; lia|].
    fold D in Hw, Hc. rewrite Hw, Hc. cbn [negb]. by eexists _, _; left.
  - set (q := take (k - D - 2) (chars (encode_all (r_array v)))).
    replace (take k _) with (chars (to_string len) ++ CR :: LF :: q).
    2: { rewrite (take_app_ge (chars (to_string len))) by (rewrite chars_length; fold D; lia).
         rewrite chars_length. fold D. unfold q.
         destruct (k - D)%nat as [|[|j]] eqn:E; [lia..|]. simpl. by rewrite Nat.sub_0_r. }
    rewrite readInt64_to_string by done || (unfold INT64_MAX in *; lia).
    rewrite drop_chars, at_crlf_app. cbn [negb]. destruct (Z.ltb_spec len 0); [lia|].
    rewrite Hr. cbn [negb].
    rewrite <-drop_drop, drop_chars. cbn [drop]. rewrite drop_0.
    rewrite Forall_forall in Hall.
    assert (length q = (k - D - 2)%nat) as Hq.
    { unfold q. rewrite length_take, chars_length. simpl in Hk. lia. }
    destruct (items_cut (parseValue reserves fuel) (k - D - 2) (r_array v)) with
      (fuel := S (length q)) (k := (k - D - 2)%nat) (items := @nil RespValue) (read := 0%nat)
      as (m & Hm); [| |lia|lia|simpl in Hk; lia|].
    + intros x rest Hx Hroom. apply parse_encode; [by apply is_arg_wf, Hall|lia].
    + intros x j Hx Hj. destruct fuel as [|fuel]; [lia|]. by apply arg_cut; [apply Hall|].
    + cbv zeta in Hm. fold len q in Hm. destruct Hm as [Hm | [Hm Hl]]; rewrite Hm; simpl.
      * by eexists _, _; left.
      * eexists _, _. right. split; [done|].
        change (CR :: LF :: q) with ([CR; LF] ++ q). rewrite last_cons, !last_app.
        destruct Hl as [-> | ->]; auto.
Qed.

(** The same for the entry point. *)
Lemma tryParse_cut v k out :
  is_command v → (k < String.length (encode v))%nat →
  incomplete (take k (chars (encode v))) (tryParse reserves (take k (chars (encode v))) out).
Proof.
  intros Hv Hk.
  assert (length (take k (chars (encode v))) = k) as Hl by (rewrite length_take, chars_length; lia).
  pose proof (command_cut v k (S k) out Hv Hk ltac:(lia)) as H. cbv zeta in H.
  unfold tryParse. destruct (take k (chars (encode v))) as [|c p] eqn:E; [by eexists _, _; left|].
  destruct (encode_starts v) as (c' & s & Hs & Hc). rewrite Hs in E.
  destruct k as [|k]; [done|]. simpl in E. injection E as -> _. by rewrite Hc, Hl.
Qed.
End cut.

(** ** The session's shortcuts *)

Lemma appendResponse_encode rsp wb : appendResponse rsp wb = wb +:+ encode rsp.
Proof.
  destruct rsp as [[] s n l b]; unfold appendResponse, encodeInto; cbn [r_type r_str r_integer r_array r_is_null].
  - repeat case_bool_decide; subst; done.
  - done.
  - destruct (Z.eqb_spec n 1) as [->|]; [done|]. by destruct (Z.eqb_spec n 0) as [->|].
  - by destruct b.
  - case_bool_decide as H; [|done]. by apply nil_length_inv in H as ->.
  - done.
Qed.

(** ** Texts with a line break *)

Lemma find_crlf_prefix l i rest : find_crlf l = Some i → find_crlf (l ++ rest) = Some i.
Proof.
  revert i. induction l as [|c [|c' l] IH]; intros i; [done..|].
  cbn [app]. rewrite !find_crlf_cons2. destruct (_ && _); [done|].
  destruct (find_crlf (c' :: l)) as [j|] eqn:E; [|done]. intros [= <-]. cbn [app] in IH.
  by rewrite (IH j eq_refl).
Qed.

(** The client reads an error only up to the break; the rest is what it reads next. *)
Lemma error_splits reserves msg i rest out :
  find_crlf (chars msg) = Some i →
  (∃ v', tryParse reserves (chars (encode (resp_err msg)) ++ rest) out = Some (POk, v', (i + 3)%nat) ∧
         reply_of v' = PError (text (take i (chars msg)))) ∧
  (i + 3 < String.length (encode (resp_err msg)))%nat.
Proof.
  intros Hi. pose proof (find_crlf_lt _ _ Hi) as Hlt. rewrite chars_length in Hlt.
  assert (encode (resp_err msg) = String "-" (msg +:+ crlf)) as E by done. rewrite E. split.
  - unfold tryParse. cbn [chars app]. change (isRespPrefix "-"%char) with true. cbn [parseValue length].
    unfold parse_line, readLine. rewrite chars_app, <-app_assoc, (find_crlf_prefix _ _ _ Hi).
    cbn [mbind option_bind]. rewrite take_app_le by (rewrite chars_length; lia). cbn [fst snd].
    eexists. split; [by replace (S (i + 2)) with (i + 3)%nat by lia|]. by destruct out.
  - cbn [String.length]. rewrite app_length_s. simpl. lia.
Qed.
