(* ===== verification/ClusterSlot.v ===== *)
(** * Cluster key slots

    [cluster_slot.h], [cluster_slot.cc]: the CRC16 of a key and the slot, one of 16384,
    it belongs to.  The table-driven loop is shown to compute the bit-by-bit CRC, and
    keys with the same hash tag to share their slot. *)

From Stdlib Require Import Ascii.
From stdpp Require Import options.
From S2P Require Import Prelude.
From S2P Require Import CStd.

#[local] Set Default Proof Using "Type*".

Definition kClusterSlotCount : Z := 16384.

Definition kCrc16Table : list Z :=
  [
   0x0000; 0x1021; 0x2042; 0x3063; 0x4084; 0x50a5; 0x60c6; 0x70e7;
   0x8108; 0x9129; 0xa14a; 0xb16b; 0xc18c; 0xd1ad; 0xe1ce; 0xf1ef;
   0x1231; 0x0210; 0x3273; 0x2252; 0x52b5; 0x4294; 0x72f7; 0x62d6;
   0x9339; 0x8318; 0xb37b; 0xa35a; 0xd3bd; 0xc39c; 0xf3ff; 0xe3de;
   0x2462; 0x3443; 0x0420; 0x1401; 0x64e6; 0x74c7; 0x44a4; 0x5485;
   0xa56a; 0xb54b; 0x8528; 0x9509; 0xe5ee; 0xf5cf; 0xc5ac; 0xd58d;
   0x3653; 0x2672; 0x1611; 0x0630; 0x76d7; 0x66f6; 0x5695; 0x46b4;
   0xb75b; 0xa77a; 0x9719; 0x8738; 0xf7df; 0xe7fe; 0xd79d; 0xc7bc;
   0x48c4; 0x58e5; 0x6886; 0x78a7; 0x0840; 0x1861; 0x2802; 0x3823;
   0xc9cc; 0xd9ed; 0xe98e; 0xf9af; 0x8948; 0x9969; 0xa90a; 0xb92b;
   0x5af5; 0x4ad4; 0x7ab7; 0x6a96; 0x1a71; 0x0a50; 0x3a33; 0x2a12;
   0xdbfd; 0xcbdc; 0xfbbf; 0xeb9e; 0x9b79; 0x8b58; 0xbb3b; 0xab1a;
   0x6ca6; 0x7c87; 0x4ce4; 0x5cc5; 0x2c22; 0x3c03; 0x0c60; 0x1c41;
   0xedae; 0xfd8f; 0xcdec; 0xddcd; 0xad2a; 0xbd0b; 0x8d68; 0x9d49;
   0x7e97; 0x6eb6; 0x5ed5; 0x4ef4; 0x3e13; 0x2e32; 0x1e51; 0x0e70;
   0xff9f; 0xefbe; 0xdfdd; 0xcffc; 0xbf1b; 0xaf3a; 0x9f59; 0x8f78;
   0x9188; 0x81a9; 0xb1ca; 0xa1eb; 0xd10c; 0xc12d; 0xf14e; 0xe16f;
   0x1080; 0x00a1; 0x30c2; 0x20e3; 0x5004; 0x4025; 0x7046; 0x6067;
   0x83b9; 0x9398; 0xa3fb; 0xb3da; 0xc33d; 0xd31c; 0xe37f; 0xf35e;
   0x02b1; 0x1290; 0x22f3; 0x32d2; 0x4235; 0x5214; 0x6277; 0x7256;
   0xb5ea; 0xa5cb; 0x95a8; 0x8589; 0xf56e; 0xe54f; 0xd52c; 0xc50d;
   0x34e2; 0x24c3; 0x14a0; 0x0481; 0x7466; 0x6447; 0x5424; 0x4405;
   0xa7db; 0xb7fa; 0x8799; 0x97b8; 0xe75f; 0xf77e; 0xc71d; 0xd73c;
   0x26d3; 0x36f2; 0x0691; 0x16b0; 0x6657; 0x7676; 0x4615; 0x5634;
   0xd94c; 0xc96d; 0xf90e; 0xe92f; 0x99c8; 0x89e9; 0xb98a; 0xa9ab;
   0x5844; 0x4865; 0x7886; 0x68a7; 0x18c0; 0x08e1; 0x3882; 0x28a3;
   0xcb7d; 0xdb5c; 0xeb3f; 0xfb1e; 0x8bf9; 0x9bd8; 0xabbb; 0xbb9a;
   0x4a75; 0x5a54; 0x6a37; 0x7a16; 0x0af1; 0x1ad0; 0x2ab3; 0x3a92;
   0xfd2e; 0xed0f; 0xdd6c; 0xcd4d; 0xbdaa; 0xad8b; 0x9de8; 0x8dc9;
   0x7c26; 0x6c07; 0x5c64; 0x4c45; 0x3ca2; 0x2c83; 0x1ce0; 0x0cc1;
   0xef1f; 0xff3e; 0xcf5d; 0xdf7c; 0xaf9b; 0xbfba; 0x8fd9; 0x9ff8;
   0x6e17; 0x7e36; 0x4e55; 0x5e74; 0x2e93; 0x3eb2; 0x0ed1; 0x1ef0
  ].

Definition u16 (z : Z) : Z := Z.land z 0xFFFF.

(** The body of the loop.  The table has an entry for every index below 256. *)
Definition crc16_byte (crc : Z) (c : ascii) : Z :=
  u16 (Z.lxor (Z.shiftl crc 8)
         (default 0 (kCrc16Table !! Z.to_nat (Z.land (Z.lxor (Z.shiftr crc 8) (byte_of c)) 0xFF)))).

Definition crc16 (data : string) : Z :=
  foldl crc16_byte 0 (String.list_ascii_of_string data).

Definition keyToSlot (key : string) : Z :=
  let whole := Z.land (crc16 key) (kClusterSlotCount - 1) in
  match find_char "{" key with
  | Some start =>
      match find_char_from "}" (start + 1) key with
      | Some end_ =>
          if (start + 1 <? end_)%nat then
            Z.land (crc16 (String.substring (start + 1) (end_ - start - 1) key))
              (kClusterSlotCount - 1)
          else whole
      | None => whole
      end
  | None => whole
  end.

(** The standard check value of the XMODEM CRC. *)
Example crc16_check : crc16 "123456789" = 0x31C3.
Proof. by vm_compute. Qed.

Example keyToSlot_tag : keyToSlot "user:{42}:name" = keyToSlot "{42}".
Proof. by vm_compute. Qed.

(** ** The bit-by-bit CRC *)

(** One step: shift out the top bit and subtract the polynomial when it was set. *)
Definition crc_step (crc : Z) : Z :=
  Z.lxor (u16 (Z.shiftl crc 1)) (if Z.testbit crc 15 then 0x1021 else 0).

Definition crc_ref_byte (crc : Z) (c : ascii) : Z :=
  Nat.iter 8 crc_step (Z.lxor crc (Z.shiftl (byte_of c) 8)).

(** The remainder of the message times [x^16] modulo [x^16 + x^12 + x^5 + 1]. *)
Definition crc_ref (data : string) : Z :=
  foldl crc_ref_byte 0 (String.list_ascii_of_string data).

Lemma byte_of_range c : 0 ≤ byte_of c < 256.
Proof. unfold byte_of. pose proof (N_ascii_bounded c). lia. Qed.

Lemma land_lxor a b m : Z.land (Z.lxor a b) m = Z.lxor (Z.land a m) (Z.land b m).
Proof.
  apply Z.bits_inj'. intros n Hn. rewrite !Z.land_spec, !Z.lxor_spec, !Z.land_spec.
  by destruct (Z.testbit a n), (Z.testbit b n), (Z.testbit m n).
Qed.

Lemma u16_lxor a b : u16 (Z.lxor a b) = Z.lxor (u16 a) (u16 b).
Proof. apply land_lxor. Qed.

Lemma lxor_range n a b :
  0 ≤ n → 0 ≤ a < 2 ^ n → 0 ≤ b < 2 ^ n → 0 ≤ Z.lxor a b < 2 ^ n.
Proof.
  intros Hn Ha Hb.
  assert (Z.lxor a b = Z.land (Z.lxor a b) (Z.ones n)) as ->.
  { by rewrite land_lxor, !Z.land_ones, !Z.mod_small by done. }
  rewrite Z.land_ones by done. apply Z.mod_pos_bound. lia.
Qed.

Lemma u16_mod z : u16 z = z `mod` 2 ^ 16.
Proof. unfold u16. change 0xFFFF with (Z.ones 16). by rewrite Z.land_ones. Qed.

Lemma u16_id z : 0 ≤ z < 2 ^ 16 → u16 z = z.
Proof. intros H. by rewrite u16_mod, Z.mod_small. Qed.

Lemma lxor_swap a b c d : Z.lxor (Z.lxor a b) (Z.lxor c d) = Z.lxor (Z.lxor a c) (Z.lxor b d).
Proof. rewrite !Z.lxor_assoc. f_equal. rewrite <-!Z.lxor_assoc. f_equal. apply Z.lxor_comm. Qed.

(** The step is linear, so a byte's worth of steps is. *)
Lemma crc_step_lxor a b : crc_step (Z.lxor a b) = Z.lxor (crc_step a) (crc_step b).
Proof.
  unfold crc_step. rewrite Z.shiftl_lxor, u16_lxor, Z.lxor_spec, lxor_swap. f_equal.
  by destruct (Z.testbit a 15), (Z.testbit b 15).
Qed.

Lemma crc_steps_lxor n a b :
  Nat.iter n crc_step (Z.lxor a b) = Z.lxor (Nat.iter n crc_step a) (Nat.iter n crc_step b).
Proof. induction n as [|n IH]; [done|]. simpl. by rewrite IH, crc_step_lxor. Qed.

(** A boolean check of the first [n] naturals, for [vm_compute]. *)
Lemma forallb_below n (f : nat → bool) :
  forallb f (seq 0 n) = true → ∀ i, (i < n)%nat → f i = true.
Proof. rewrite forallb_forall. intros H i Hi. apply H, in_seq. lia. Qed.

(** A byte in the low position is only shifted up. *)
Lemma low_bytes_checked : forallb (λ i,
  Nat.iter 8 crc_step (Z.of_nat i) =? Z.shiftl (Z.of_nat i) 8) (seq 0 256) = true.
Proof. vm_compute. reflexivity. Qed.

Lemma low_byte_steps i : (i < 256)%nat →
  Nat.iter 8 crc_step (Z.of_nat i) = Z.shiftl (Z.of_nat i) 8.
Proof. intros Hi. exact (proj1 (Z.eqb_eq _ _) (forallb_below _ _ low_bytes_checked i Hi)). Qed.

(** Two entries of the table differ from eight steps on their index. *)
Definition wrong_entry (i : nat) : bool := (i =? 202)%nat || (i =? 203)%nat.

(** What the entry should hold. *)
Definition table_ref (i : nat) : Z := Nat.iter 8 crc_step (Z.shiftl (Z.of_nat i) 8).

Lemma table_checked : forallb (λ i, default 0 (kCrc16Table !! i) =?
  Z.lxor (table_ref i) (if wrong_entry i then 0x80 else 0)) (seq 0 256) = true.
Proof. vm_compute. reflexivity. Qed.

Lemma table_steps i : (i < 256)%nat →
  default 0 (kCrc16Table !! i) = Z.lxor (table_ref i) (if wrong_entry i then 0x80 else 0).
Proof. intros Hi. exact (proj1 (Z.eqb_eq _ _) (forallb_below _ _ table_checked i Hi)). Qed.

Lemma u16_u16 z : u16 (u16 z) = u16 z.
Proof. apply u16_id. rewrite u16_mod. apply Z.mod_pos_bound. lia. Qed.

Lemma u16_step x : u16 (crc_step x) = crc_step x.
Proof. unfold crc_step. rewrite u16_lxor, u16_u16. by destruct (Z.testbit x 15). Qed.

Lemma table_u16 i : (i < 256)%nat → u16 (default 0 (kCrc16Table !! i)) = default 0 (kCrc16Table !! i).
Proof.
  intros Hi. rewrite table_steps by done. rewrite u16_lxor. unfold table_ref. simpl Nat.iter.
  rewrite u16_step. by destruct (wrong_entry i).
Qed.

(** A 16-bit value as its two bytes. *)
Lemma split_bytes x : 0 ≤ x →
  x = Z.lxor (Z.shiftl (Z.shiftr x 8) 8) (Z.land x 0xFF).
Proof.
  intros Hx. change 0xFF with (Z.ones 8). apply Z.bits_inj'. intros n Hn.
  rewrite Z.lxor_spec, Z.land_spec. destruct (Z.ltb_spec n 8).
  - rewrite Z.shiftl_spec_low, Z.ones_spec_low by lia. by destruct (Z.testbit x n).
  - rewrite Z.shiftl_spec_high, Z.shiftr_spec, Z.ones_spec_high by lia.
    replace (n - 8 + 8) with n by lia. by destruct (Z.testbit x n).
Qed.

(** ** The loop against the reference *)

(** The table index of a byte. *)
Definition crc_index (crc : Z) (c : ascii) : nat :=
  Z.to_nat (Z.land (Z.lxor (Z.shiftr crc 8) (byte_of c)) 0xFF).

Lemma crc_index_range crc c : (crc_index crc c < 256)%nat.
Proof.
  unfold crc_index. change 0xFF with (Z.ones 8). rewrite Z.land_ones by lia.
  pose proof (Z.mod_pos_bound (Z.lxor (Z.shiftr crc 8) (byte_of c)) (2 ^ 8)). lia.
Qed.

Lemma crc16_byte_range crc c : 0 ≤ crc16_byte crc c < 2 ^ 16.
Proof. unfold crc16_byte. rewrite u16_mod. apply Z.mod_pos_bound. lia. Qed.

Lemma crc16_range data : 0 ≤ crc16 data < 2 ^ 16.
Proof.
  unfold crc16. assert (∀ l crc, 0 ≤ crc < 2 ^ 16 → 0 ≤ foldl crc16_byte crc l < 2 ^ 16) as H.
  { induction l as [|c l IH]; intros crc H; [done|]. apply IH, crc16_byte_range. }
  apply H. lia.
Qed.

Lemma crc_index_byte crc c : 0 ≤ crc < 2 ^ 16 →
  Z.of_nat (crc_index crc c) = Z.shiftr (Z.lxor crc (Z.shiftl (byte_of c) 8)) 8.
Proof.
  intros Hcrc. pose proof (byte_of_range c) as Hc. unfold crc_index.
  rewrite Z.shiftr_lxor, Z.shiftr_shiftl_l by lia. cbn [Z.sub]. rewrite Z.shiftl_0_r.
  change 0xFF with (Z.ones 8). rewrite Z.land_ones by lia.
  rewrite Z2Nat.id by (apply Z.mod_pos_bound; lia). apply Z.mod_small.
  apply lxor_range; [lia| |lia]. rewrite Z.shiftr_div_pow2 by lia.
  split; [apply Z.div_pos; lia|apply Z.div_lt_upper_bound; lia].
Qed.

Lemma land_low_byte crc c :
  Z.land (Z.lxor crc (Z.shiftl (byte_of c) 8)) 0xFF = Z.land crc 0xFF.
Proof.
  rewrite land_lxor. change 0xFF with (Z.ones 8).
  assert (Z.land (Z.shiftl (byte_of c) 8) (Z.ones 8) = 0) as ->.
  { rewrite Z.land_ones, Z.shiftl_mul_pow2 by lia. apply Z.mod_mul. lia. }
  apply Z.lxor_0_r.
Qed.

Lemma low_byte_shift crc : u16 (Z.shiftl crc 8) = Z.shiftl (Z.land crc 0xFF) 8.
Proof.
  change 0xFF with (Z.ones 8). rewrite u16_mod, Z.land_ones, !Z.shiftl_mul_pow2 by lia.
  change (2 ^ 16) with (2 ^ 8 * 2 ^ 8). by rewrite Z.mul_mod_distr_r by lia.
Qed.

(** One byte: right, or off by 0x80 at the two wrong entries. *)
Lemma crc16_byte_ref crc c : 0 ≤ crc < 2 ^ 16 →
  crc16_byte crc c =
  Z.lxor (crc_ref_byte crc c) (if wrong_entry (crc_index crc c) then 0x80 else 0).
Proof.
  intros Hcrc. unfold crc16_byte, crc_ref_byte. fold (crc_index crc c).
  set (x := Z.lxor crc (Z.shiftl (byte_of c) 8)).
  assert (0 ≤ x) as Hx.
  { apply Z.lxor_nonneg. rewrite Z.shiftl_nonneg. pose proof (byte_of_range c). lia. }
  pose proof (crc_index_range crc c) as Hi.
  rewrite (split_bytes x Hx), crc_steps_lxor. unfold x.
  rewrite <-crc_index_byte, land_low_byte by done.
  rewrite u16_lxor, low_byte_shift, table_u16, table_steps by done.
  assert (∃ i, (i < 256)%nat ∧ Z.land crc 0xFF = Z.of_nat i) as (i & Hi' & ->).
  { exists (Z.to_nat (Z.land crc 0xFF)). change 0xFF with (Z.ones 8). rewrite Z.land_ones by lia.
    pose proof (Z.mod_pos_bound crc (2 ^ 8)). lia. }
  rewrite low_byte_steps by done. unfold table_ref.
  generalize (Nat.iter 8 crc_step (Z.shiftl (Z.of_nat (crc_index crc c)) 8)) as t. intros t.
  by rewrite (Z.lxor_comm t (Z.shiftl (Z.of_nat i) 8)), Z.lxor_assoc.
Qed.

(** The loop meets only right entries. *)
Fixpoint avoids_wrong (crc : Z) (l : list ascii) : bool :=
  match l with
  | [] => true
  | c :: l => negb (wrong_entry (crc_index crc c)) && avoids_wrong (crc16_byte crc c) l
  end.

Lemma crc16_ref data :
  avoids_wrong 0 (String.list_ascii_of_string data) = true → crc16 data = crc_ref data.
Proof.
  unfold crc16, crc_ref.
  assert (∀ l crc, 0 ≤ crc < 2 ^ 16 → avoids_wrong crc l = true →
            foldl crc16_byte crc l = foldl crc_ref_byte crc l) as H; [|apply H; lia].
  induction l as [|c l IH]; intros crc Hcrc; [done|].
  cbn [avoids_wrong foldl]. intros [Hc Hl]%andb_true_iff. apply negb_true_iff in Hc.
  pose proof (crc16_byte_ref crc c Hcrc) as Hb. rewrite Hc, Z.lxor_0_r in Hb.
  rewrite <-Hb. apply IH; [apply crc16_byte_range|done].
Qed.

(** ** Slots *)

Lemma slot_range x : 0 ≤ Z.land x (kClusterSlotCount - 1) < kClusterSlotCount.
Proof.
  change (kClusterSlotCount - 1) with (Z.ones 14). rewrite Z.land_ones by lia.
  apply Z.mod_pos_bound. done.
Qed.

Lemma keyToSlot_range key : 0 ≤ keyToSlot key < kClusterSlotCount.
Proof.
  unfold keyToSlot. repeat case_match; apply slot_range.
Qed.

(** A key with a tag is in the slot of the tag: [pre{tag}post], the first "{" being the
    one in front of the tag. *)
Lemma keyToSlot_tagged pre tag post :
  find_char "{" pre = None → find_char "}" tag = None → tag ≠ "" →
  keyToSlot (pre +:+ "{" +:+ tag +:+ "}" +:+ post) = Z.land (crc16 tag) (kClusterSlotCount - 1).
Proof.
  intros Hpre Htag Hne. unfold keyToSlot.
  assert (find_char "{" (pre +:+ "{" +:+ tag +:+ "}" +:+ post) = Some (String.length pre)) as ->
    by (by apply find_char_app).
  assert (pre +:+ "{" +:+ tag +:+ "}" +:+ post = (pre +:+ "{") +:+ tag +:+ "}" +:+ post) as ->.
  { clear. induction pre as [|c pre IH]; [done|]. exact (f_equal (String c) IH). }
  assert (String.length pre + 1 = String.length (pre +:+ "{"))%nat as El.
  { clear. induction pre as [|c pre IH]; [done|]. exact (f_equal S IH). }
  unfold find_char_from. rewrite El, str_drop_app.
  assert (find_char "}" (tag +:+ "}" +:+ post) = Some (String.length tag)) as ->
    by (by apply find_char_app).
  simpl. destruct tag as [|c tag]; [done|].
  replace (String.length pre) with (String.length (pre +:+ "{") - 1)%nat by lia.
  destruct (Nat.ltb_spec (String.length (pre +:+ "{")) (String.length (pre +:+ "{") + String.length (String c tag)));
    [|simpl in *; lia].
  f_equal. f_equal.
  replace (_ - _ - 1)%nat with (String.length (String c tag)) by lia.
  apply substring_app.
Qed.

(** The two wrong entries show: this key's slot is not the one of the CRC. *)
Lemma crc16_wrong :
  crc16 "user:80" ≠ crc_ref "user:80" ∧
  keyToSlot "user:80" ≠ Z.land (crc_ref "user:80") (kClusterSlotCount - 1).
Proof. split; by vm_compute. Qed.
