(* ===== verification/Slowlog.v ===== *)
(** * The slow log

    [slowlog.h], [slowlog.cc]: the commands that took at least a given time, the newest
    at the end, as many as the configured maximum. *)

From stdpp Require Import options.
From S2P Require Import Prelude.
From S2P Require Import CStd.
From S2P Require Import Resp.

#[local] Set Default Proof Using "Type*".

Record SlowlogEntry : Type := mkSlow {
  sl_id : Z;
  sl_timestamp_ms : Z;
  sl_duration_us : Z;
  sl_args : list string;
  sl_client_id : Z;
  sl_client_addr : string
}.

Record Slowlog : Type := mkSlowlog {
  m_max_len : Z;
  m_slower_than_us : Z;
  m_next_id : Z;
  m_entries : list SlowlogEntry
}.

Definition Slowlog0 : Slowlog := mkSlowlog 128 10000 1 [].

(** [argsFromRequest] *)
Definition arg_text (item : RespValue) : string :=
  if r_is_null item then "(nil)"
  else match r_type item with
       | RBulkString => r_str item
       | RInteger => to_string (r_integer item)
       | _ => "?"
       end.
Definition argsFromRequest (request : RespValue) : list string :=
  match r_type request with RArray => arg_text <$> r_array request | _ => [] end.

Definition entries_len (s : Slowlog) : Z := Z.of_nat (length (m_entries s)).

Definition setMaxLen (n : Z) (s : Slowlog) : Slowlog :=
  let n := if n <? 0 then 0 else n in
  let es := m_entries s in
  mkSlowlog n (m_slower_than_us s) (m_next_id s)
    (if (0 <? n) && (n <? entries_len s) then drop (length es - Z.to_nat n) es else es).

Definition setSlowerThanUs (us : Z) (s : Slowlog) : Slowlog :=
  mkSlowlog (m_max_len s) (if us <? 0 then 0 else us) (m_next_id s) (m_entries s).

(** [now] is the reading of [KvStore::nowMs()]. *)
Definition record (client_id : Z) (client_addr : string) (request : RespValue)
    (duration_us now : Z) (s : Slowlog) : Slowlog :=
  if duration_us <? m_slower_than_us s then s
  else
    let entry := mkSlow (m_next_id s) now duration_us (argsFromRequest request) client_id
                   client_addr in
    let es := m_entries s ++ [entry] in
    mkSlowlog (m_max_len s) (m_slower_than_us s) (i64 (m_next_id s + 1))
      (if (0 <? m_max_len s) && (m_max_len s <? Z.of_nat (length es)) then drop 1 es else es).

Definition get (count : Z) (s : Slowlog) : list SlowlogEntry :=
  let count := if (count <=? 0) || (entries_len s <? count) then entries_len s else count in
  drop (length (m_entries s) - Z.to_nat count) (m_entries s).

Definition len (s : Slowlog) : Z := entries_len s.

Definition reset (s : Slowlog) : Slowlog :=
  mkSlowlog (m_max_len s) (m_slower_than_us s) (m_next_id s) [].

(** ** The invariant *)

(** No more entries than the maximum, unless that is 0; each entry slow enough when it
    was recorded is not kept, for the threshold may have changed since. *)
Definition slowlog_ok (s : Slowlog) : Prop :=
  0 ≤ m_max_len s ∧ (0 < m_max_len s → entries_len s ≤ m_max_len s).

Inductive SlowOp : Type :=
  | SlowSetMax (n : Z)
  | SlowSetSlower (us : Z)
  | SlowRecord (client_id : Z) (client_addr : string) (request : RespValue) (us now : Z)
  | SlowReset.

Definition slow_step (o : SlowOp) : Slowlog → Slowlog :=
  match o with
  | SlowSetMax n => setMaxLen n
  | SlowSetSlower us => setSlowerThanUs us
  | SlowRecord id addr req us now => record id addr req us now
  | SlowReset => reset
  end.

Lemma slow_step_ok o s : slowlog_ok s → slowlog_ok (slow_step o s).
Proof.
  intros [Hm Hl]. unfold slowlog_ok, entries_len in *. destruct o; simpl.
  - unfold setMaxLen, entries_len. cbn [m_max_len m_entries].
    destruct (Z.ltb_spec n 0); [split; [done|lia]|]. split; [done|]. intros Hn.
    destruct (Z.ltb_spec 0 n); [|lia]. cbn [andb].
    destruct (Z.ltb_spec n (Z.of_nat (length (m_entries s)))); [|lia].
    rewrite length_drop. lia.
  - done.
  - unfold record. destruct (us <? m_slower_than_us s); [done|]. cbn [m_max_len m_entries].
    split; [done|]. intros Hp. specialize (Hl Hp). rewrite length_app. simpl.
    destruct (Z.ltb_spec 0 (m_max_len s)); [|lia]. cbn [andb].
    destruct (Z.ltb_spec (m_max_len s) (Z.of_nat (length (m_entries s) + 1)));
      rewrite ?length_drop, length_app; simpl; lia.
  - split; [done|]. simpl. lia.
Qed.

(** Any sequence of operations on the initial log. *)
Lemma slow_steps_ok ops : slowlog_ok (foldl (λ s o, slow_step o s) Slowlog0 ops).
Proof.
  assert (∀ s, slowlog_ok s → slowlog_ok (foldl (λ s o, slow_step o s) s ops)) as H.
  { induction ops as [|o ops IH]; intros s Hs; [done|]. apply IH, slow_step_ok, Hs. }
  apply H. split; [done|]. simpl. done.
Qed.

(** [get] answers a suffix of the log. *)
Lemma get_suffix count s : get count s `suffix_of` m_entries s.
Proof.
  unfold get. eexists (take _ _). by rewrite take_drop.
Qed.
