(* ===== verification/PubSub.v ===== *)
(** * Publish/subscribe

    [PubSubHub] ([pubsub_hub.h], [pubsub_hub.cc]).  A session is named by the address the
    hub keys its maps with; [alive] says which weak pointers still lock.  The channel and
    the pattern halves of the hub are the same two maps, [SubIndex]. *)

From stdpp Require Import options.
From S2P Require Import Prelude.
From S2P Require Import CStd.
From S2P Require Import Glob.
From S2P Require Import Resp.

#[local] Set Default Proof Using "All".

Abbreviation Sess := nat.

(** [m_channels] and [m_sessionChannels], or [m_patterns] and [m_sessionPatterns]. *)
Record SubIndex : Type := mkIndex {
  si_subs : gmap string (list Sess);
  si_of : gmap Sess (gset string)
}.

Record PubSubHub : Type := mkHub { hub_channels : SubIndex; hub_patterns : SubIndex }.

Definition SubIndex0 : SubIndex := mkIndex ∅ ∅.
Definition PubSubHub0 : PubSubHub := mkHub SubIndex0 SubIndex0.

Section hub.
Context (alive : Sess → bool).

(** [removeFromChannelMap], [removeFromPatternMap]: dead sessions go too. *)
Definition removeFromMap (name : string) (session : Sess) (subs : gmap string (list Sess))
  : gmap string (list Sess) :=
  match subs !! name with
  | None => subs
  | Some l =>
      let l := filter (λ s, alive s = true ∧ s ≠ session) l in
      if bool_decide (l = []) then delete name subs else <[name := l]> subs
  end.

(** [m[name].push_back(session); m_session[session].insert(name)] *)
Definition add_sub (name : string) (session : Sess) (ix : SubIndex) : SubIndex :=
  mkIndex (<[name := default [] (si_subs ix !! name) ++ [session]]> (si_subs ix))
    (<[session := {[name]} ∪ default ∅ (si_of ix !! session)]> (si_of ix)).

Definition remove_sub (name : string) (session : Sess) (ix : SubIndex) : SubIndex :=
  match si_of ix !! session with
  | None => ix
  | Some names =>
      let names := names ∖ {[name]} in
      mkIndex (removeFromMap name session (si_subs ix))
        (if bool_decide (names = ∅) then delete session (si_of ix)
         else <[session := names]> (si_of ix))
  end.

Definition remove_all_subs `{impl : !StdImpl} (session : Sess) (ix : SubIndex) : SubIndex :=
  match si_of ix !! session with
  | None => ix
  | Some names =>
      mkIndex (foldl (λ subs name, removeFromMap name session subs) (si_subs ix)
                 (hash_iter_set names))
        (delete session (si_of ix))
  end.

Definition on_channels (f : SubIndex → SubIndex) (h : PubSubHub) : PubSubHub :=
  mkHub (f (hub_channels h)) (hub_patterns h).
Definition on_patterns (f : SubIndex → SubIndex) (h : PubSubHub) : PubSubHub :=
  mkHub (hub_channels h) (f (hub_patterns h)).

Definition subscribe (channel : string) (session : Sess) : PubSubHub → PubSubHub :=
  on_channels (add_sub channel session).
Definition psubscribe (pattern : string) (session : Sess) : PubSubHub → PubSubHub :=
  on_patterns (add_sub pattern session).
Definition unsubscribe (channel : string) (session : Sess) : PubSubHub → PubSubHub :=
  on_channels (remove_sub channel session).
Definition punsubscribe (pattern : string) (session : Sess) : PubSubHub → PubSubHub :=
  on_patterns (remove_sub pattern session).

(** [m_sessionX.find(session)] and the size of what it finds. *)
Definition sub_count (session : Sess) (ix : SubIndex) : Z :=
  match si_of ix !! session with Some names => Z.of_nat (size names) | None => 0 end.

Definition subscriptionCount (session : Sess) (h : PubSubHub) : Z :=
  sub_count session (hub_channels h) + sub_count session (hub_patterns h).

Section iterated.
Context `{impl : !StdImpl}.

Definition unsubscribeAll (session : Sess) : PubSubHub → PubSubHub :=
  on_channels (remove_all_subs session).
Definition punsubscribeAll (session : Sess) : PubSubHub → PubSubHub :=
  on_patterns (remove_all_subs session).
Definition removeSession (session : Sess) (h : PubSubHub) : PubSubHub :=
  punsubscribeAll session (unsubscribeAll session h).

(** What [publish] pushes, in order: the sessions of the channel, then those of each
    pattern that matches it. *)
Definition channel_targets (channel : string) (h : PubSubHub) : list Sess :=
  filter (λ s, alive s = true) (default [] (si_subs (hub_channels h) !! channel)).

Definition pattern_targets (channel : string) (h : PubSubHub) : list (string * Sess) :=
  '(pattern, l) ← hash_iter (si_subs (hub_patterns h));
  if matchGlob pattern channel
  then (λ s, (pattern, s)) <$> filter (λ s, alive s = true) l else [].

Definition message_payload (channel message : string) : RespValue :=
  resp_array [resp_bulk "message"; resp_bulk channel; resp_bulk message].
Definition pmessage_payload (pattern channel message : string) : RespValue :=
  resp_array [resp_bulk "pmessage"; resp_bulk pattern; resp_bulk channel; resp_bulk message].

Definition pushes (channel message : string) (h : PubSubHub) : list (Sess * RespValue) :=
  ((λ s, (s, message_payload channel message)) <$> channel_targets channel h) ++
  ((λ t, (t.2, pmessage_payload t.1 channel message)) <$> pattern_targets channel h).

(** [publish]: the pushes that wrote something are counted. *)
Definition publish (pushed : Sess → RespValue → bool) (channel message : string) (h : PubSubHub) : Z :=
  Z.of_nat (length (filter (λ p, pushed p.1 p.2 = true) (pushes channel message h))).
End iterated.

(** ** The invariant

    The two maps of an index agree: the lists hold every live session that has the name
    in its set, and only sessions that do; no list or set is empty. *)

(** The sessions listed under a name, the names of a session. *)
Definition listed (name : string) (subs : gmap string (list Sess)) : list Sess :=
  default [] (subs !! name).
Definition names_of (s : Sess) (m : gmap Sess (gset string)) : gset string :=
  default ∅ (m !! s).

Record index_ok (ix : SubIndex) : Prop := {
  io_listed name s : s ∈ listed name (si_subs ix) → name ∈ names_of s (si_of ix);
  io_complete name s : alive s = true → name ∈ names_of s (si_of ix) → s ∈ listed name (si_subs ix);
  io_lists name l : si_subs ix !! name = Some l → l ≠ [];
  io_sets s names : si_of ix !! s = Some names → names ≠ ∅
}.

Definition hub_ok (h : PubSubHub) : Prop := index_ok (hub_channels h) ∧ index_ok (hub_patterns h).

Lemma index_ok_0 : index_ok SubIndex0.
Proof.
  split; unfold listed, names_of; simpl.
  - intros name s. rewrite lookup_empty. set_solver.
  - intros name s. rewrite lookup_empty. set_solver.
  - intros name l. by rewrite lookup_empty.
  - intros s names. by rewrite lookup_empty.
Qed.

Lemma removeFromMap_listed name name' s s' subs :
  s' ∈ listed name' (removeFromMap name s subs) ↔
  s' ∈ listed name' subs ∧ (name' = name → alive s' = true ∧ s' ≠ s).
Proof.
  unfold removeFromMap, listed. destruct (subs !! name) as [l|] eqn:E.
  2: { split; [|naive_solver]. intros H. split; [done|]. intros ->. rewrite E in H. set_solver. }
  destruct (decide (name' = name)) as [->|Hne].
  - rewrite E. simpl. case_bool_decide as Hl.
    + rewrite lookup_delete_eq. simpl. split; [set_solver|]. intros [Hin H].
      assert (s' ∈ filter (λ s0, alive s0 = true ∧ s0 ≠ s) l) as Hf
        by (apply list_elem_of_filter; auto). rewrite Hl in Hf. set_solver.
    + rewrite lookup_insert_eq. simpl. rewrite list_elem_of_filter. naive_solver.
  - case_bool_decide; [rewrite lookup_delete_ne by done|rewrite lookup_insert_ne by done];
      naive_solver.
Qed.

Lemma removeFromMap_lists name s subs :
  (∀ n l, subs !! n = Some l → l ≠ []) →
  ∀ n l, removeFromMap name s subs !! n = Some l → l ≠ [].
Proof.
  intros H n l. unfold removeFromMap. destruct (subs !! name); [|apply H].
  case_bool_decide.
  - intros [_ Hl]%lookup_delete_Some. by eapply H.
  - intros [[_ <-]|[_ Hl]]%lookup_insert_Some; [done|by eapply H].
Qed.

Lemma add_sub_ok name s ix : index_ok ix → index_ok (add_sub name s ix).
Proof.
  intros [Hl Hc Hls Hss]. unfold add_sub. split; unfold listed, names_of in *; simpl.
  - intros n s'. specialize (Hl n s').
    destruct (decide (n = name)) as [->|Hn], (decide (s' = s)) as [->|Hs];
      rewrite ?lookup_insert_eq, ?lookup_insert_ne by done; simpl in *; set_solver.
  - intros n s' Ha. specialize (Hc n s' Ha).
    destruct (decide (n = name)) as [->|Hn], (decide (s' = s)) as [->|Hs];
      rewrite ?lookup_insert_eq, ?lookup_insert_ne by done; simpl in *; set_solver.
  - intros n l [[_ <-]|[_ ?]]%lookup_insert_Some; [|by eapply Hls].
    by destruct (default [] (si_subs ix !! name)).
  - intros s' names [[_ <-]|[_ ?]]%lookup_insert_Some; [|by eapply Hss]. set_solver.
Qed.

Lemma remove_sub_ok name s ix : index_ok ix → index_ok (remove_sub name s ix).
Proof.
  intros [Hl Hc Hls Hss]. unfold remove_sub.
  destruct (si_of ix !! s) as [names|] eqn:E; [|done].
  assert (∀ s', names_of s' (if bool_decide (names ∖ {[name]} = ∅) then delete s (si_of ix)
                             else <[s := names ∖ {[name]}]> (si_of ix)) =
            if decide (s' = s) then names ∖ {[name]} else names_of s' (si_of ix)) as Hof.
  { intros s'. unfold names_of. case_bool_decide as Hn; destruct (decide (s' = s)) as [->|];
      rewrite ?lookup_delete_eq, ?lookup_insert_eq, ?lookup_delete_ne, ?lookup_insert_ne by done;
      done. }
  assert (names_of s (si_of ix) = names) as Hs by (unfold names_of; by rewrite E).
  split; simpl.
  - intros n s'. rewrite removeFromMap_listed, Hof. intros [Hin Hne].
    apply Hl in Hin. destruct (decide (s' = s)) as [->|]; [|done]. rewrite Hs in Hin.
    apply elem_of_difference. split; [done|]. rewrite elem_of_singleton. naive_solver.
  - intros n s' Ha. rewrite removeFromMap_listed, Hof. intros Hin.
    destruct (decide (s' = s)) as [->|Hne]; [|split; [by apply Hc|auto]].
    apply elem_of_difference in Hin as [Hin Hn]. rewrite <-Hs in Hin.
    split; [by apply Hc|]. set_solver.
  - by apply removeFromMap_lists.
  - intros s' ns. case_bool_decide as Hn.
    + intros [_ ?]%lookup_delete_Some. by eapply Hss.
    + intros [[_ <-]|[_ ?]]%lookup_insert_Some; [done|by eapply Hss].
Qed.

Section all.
Context `{impl : !StdImpl}.

Lemma removeFromMap_all_listed s' n names s subs :
  s' ∈ listed n (foldl (λ subs name, removeFromMap name s subs) subs names) ↔
  s' ∈ listed n subs ∧ (n ∈ names → alive s' = true ∧ s' ≠ s).
Proof.
  revert subs. induction names as [|name names IH]; intros subs; simpl; [set_solver|].
  rewrite IH, removeFromMap_listed, elem_of_cons. naive_solver.
Qed.

Lemma removeFromMap_all_lists names s subs :
  (∀ n l, subs !! n = Some l → l ≠ []) →
  ∀ n l, foldl (λ subs name, removeFromMap name s subs) subs names !! n = Some l → l ≠ [].
Proof.
  revert subs. induction names as [|name names IH]; intros subs H; simpl; [done|].
  apply IH. by apply removeFromMap_lists.
Qed.

Lemma remove_all_subs_ok s ix : index_ok ix → index_ok (remove_all_subs s ix).
Proof.
  intros [Hl Hc Hls Hss]. unfold remove_all_subs.
  destruct (si_of ix !! s) as [names|] eqn:E; [|done].
  assert (names_of s (si_of ix) = names) as Hs by (unfold names_of; by rewrite E).
  assert (∀ s', names_of s' (delete s (si_of ix)) =
            if decide (s' = s) then ∅ else names_of s' (si_of ix)) as Hof.
  { intros s'. unfold names_of. destruct (decide (s' = s)) as [->|];
      by rewrite ?lookup_delete_eq, ?lookup_delete_ne. }
  split; simpl.
  - intros n s'. rewrite removeFromMap_all_listed, Hof, hash_iter_set_elem. intros [Hin Hne].
    apply Hl in Hin. destruct (decide (s' = s)) as [->|]; [|done]. rewrite Hs in Hin.
    by destruct (Hne Hin).
  - intros n s' Ha. rewrite removeFromMap_all_listed, Hof.
    destruct (decide (s' = s)); [set_solver|]. intros Hin. split; [by apply Hc|done].
  - by apply removeFromMap_all_lists.
  - intros s' ns [_ ?]%lookup_delete_Some. by eapply Hss.
Qed.

(** Nothing of the session is left. *)
Lemma remove_all_subs_gone s ix n :
  index_ok ix → (s ∉ listed n (si_subs (remove_all_subs s ix))) ∧
  si_of (remove_all_subs s ix) !! s = None.
Proof.
  intros Hok. split.
  - intros Hin. apply (io_listed _ (remove_all_subs_ok s ix Hok)) in Hin. revert Hin.
    unfold remove_all_subs, names_of. destruct (si_of ix !! s) eqn:E; simpl.
    + rewrite lookup_delete_eq. set_solver.
    + rewrite E. set_solver.
  - unfold remove_all_subs. destruct (si_of ix !! s) eqn:E; [|done]. apply lookup_delete_eq.
Qed.

Lemma removeSession_gone s h channel message p :
  hub_ok h → ((s, p) ∉ pushes channel message (removeSession s h)) ∧
             subscriptionCount s (removeSession s h) = 0.
Proof.
  intros [Hch Hpat]. unfold removeSession, subscriptionCount, sub_count, pushes. simpl. split.
  2: { rewrite (proj2 (remove_all_subs_gone s _ "" Hch)), (proj2 (remove_all_subs_gone s _ "" Hpat)).
       done. }
  rewrite elem_of_app. intros [H|H].
  - apply list_elem_of_fmap in H as (s' & [= <- ->] & H).
    unfold channel_targets in H. apply list_elem_of_filter in H as [_ H]. simpl in H.
    by apply (proj1 (remove_all_subs_gone s _ channel Hch)) in H.
  - apply list_elem_of_fmap in H as ([pat s'] & [= <- ->] & H).
    unfold pattern_targets in H. apply list_elem_of_bind in H as ([pat' l] & H & Hl).
    rewrite hash_iter_elem in Hl. simpl in Hl. destruct (matchGlob pat' channel); [|set_solver].
    apply list_elem_of_fmap in H as (s' & [= -> <-] & H). apply list_elem_of_filter in H as [_ H].
    apply (proj1 (remove_all_subs_gone s _ pat' Hpat)). unfold listed. by rewrite Hl.
Qed.

(** ** Who receives a message *)

Lemma channel_targets_spec channel s h : hub_ok h →
  s ∈ channel_targets channel h ↔
  alive s = true ∧ channel ∈ names_of s (si_of (hub_channels h)).
Proof.
  intros [Hch _]. unfold channel_targets. rewrite list_elem_of_filter.
  fold (listed channel (si_subs (hub_channels h))). split.
  - intros [Ha Hin]. split; [done|]. by apply (io_listed _ Hch).
  - intros [Ha Hin]. split; [done|]. by apply (io_complete _ Hch).
Qed.

Lemma pattern_targets_spec channel pattern s h : hub_ok h →
  (pattern, s) ∈ pattern_targets channel h ↔
  alive s = true ∧ matchGlob pattern channel = true ∧
  pattern ∈ names_of s (si_of (hub_patterns h)).
Proof.
  intros [_ Hpat]. unfold pattern_targets. rewrite list_elem_of_bind. split.
  - intros ([pat l] & Hin & Hl). rewrite hash_iter_elem in Hl.
    destruct (matchGlob pat channel) eqn:Hm; [|set_solver].
    apply list_elem_of_fmap in Hin as (s' & [= -> ->] & Hin).
    apply list_elem_of_filter in Hin as [Ha Hin]. split_and!; [done..|].
    apply (io_listed _ Hpat). unfold listed. by rewrite Hl.
  - intros (Ha & Hm & Hin). apply (io_complete _ Hpat) in Hin; [|done]. unfold listed in Hin.
    destruct (si_subs (hub_patterns h) !! pattern) as [l|] eqn:Hl; [|set_solver].
    exists (pattern, l). rewrite hash_iter_elem, Hm. split; [|done].
    apply list_elem_of_fmap. exists s. split; [done|]. by apply list_elem_of_filter.
Qed.
End all.
End hub.

(** ** Reachable hubs *)

Section reach.
Context `{impl : !StdImpl}.

Inductive HubOp : Type :=
  | OpSubscribe (channel : string) (s : Sess)
  | OpPsubscribe (pattern : string) (s : Sess)
  | OpUnsubscribe (channel : string) (s : Sess)
  | OpPunsubscribe (pattern : string) (s : Sess)
  | OpUnsubscribeAll (s : Sess)
  | OpPunsubscribeAll (s : Sess)
  | OpRemoveSession (s : Sess).

Definition hub_op (alive : Sess → bool) (o : HubOp) : PubSubHub → PubSubHub :=
  match o with
  | OpSubscribe channel s => subscribe channel s
  | OpPsubscribe pattern s => psubscribe pattern s
  | OpUnsubscribe channel s => unsubscribe alive channel s
  | OpPunsubscribe pattern s => punsubscribe alive pattern s
  | OpUnsubscribeAll s => unsubscribeAll alive s
  | OpPunsubscribeAll s => punsubscribeAll alive s
  | OpRemoveSession s => removeSession alive s
  end.

(** Sessions come and go between the operations.  A new session may get the address of
    an old one, once that one's [handleClient] has removed it from the hub. *)
Inductive hub_reach : (Sess → bool) → PubSubHub → Prop :=
  | reach_start alive : hub_reach alive PubSubHub0
  | reach_op alive h o : hub_reach alive h → hub_reach alive (hub_op alive o h)
  | reach_dies alive alive' h : hub_reach alive h →
      (∀ s, alive' s = true → alive s = true) → hub_reach alive' h
  | reach_born alive alive' h : hub_reach alive h →
      (∀ s, alive' s = true → alive s = true ∨
        si_of (hub_channels h) !! s = None ∧ si_of (hub_patterns h) !! s = None) →
      hub_reach alive' h.

Lemma index_ok_alive alive alive' ix :
  index_ok alive ix →
  (∀ s, alive' s = true → alive s = true ∨ si_of ix !! s = None) → index_ok alive' ix.
Proof.
  intros [Hl Hc Hls Hss] Ha. split; [done| |done..].
  intros name s [H|H]%Ha Hin; [by apply Hc|]. unfold names_of in Hin. rewrite H in Hin. set_solver.
Qed.

Lemma hub_op_ok alive o h : hub_ok alive h → hub_ok alive (hub_op alive o h).
Proof.
  intros [Hc Hp]. destruct o; split; simpl; try done;
    first [by apply add_sub_ok | by apply remove_sub_ok | by apply remove_all_subs_ok].
Qed.

Lemma hub_reach_ok alive h : hub_reach alive h → hub_ok alive h.
Proof.
  induction 1 as [alive|alive h o _ IH|alive alive' h _ [Hc Hp] Ha|alive alive' h _ [Hc Hp] Ha].
  - split; apply index_ok_0.
  - by apply hub_op_ok.
  - split; (eapply index_ok_alive; [done|]); auto.
  - split; (eapply index_ok_alive; [done|]); naive_solver.
Qed.

(** Subscribing twice to a channel is subscribing twice: two copies are pushed, and the
    count the client is told is one. *)
Lemma subscribe_twice alive channel s : alive s = true →
  let h := subscribe channel s (subscribe channel s PubSubHub0) in
  channel_targets alive channel h = [s; s] ∧ subscriptionCount s h = 1.
Proof.
  intros Ha h.
  assert (si_of (hub_channels h) !! s = Some {[channel]}) as Eof.
  { unfold h, subscribe, on_channels, add_sub. cbn [hub_channels si_of].
    rewrite !lookup_insert_eq. f_equal.
    change (default ∅ (si_of (hub_channels PubSubHub0) !! s)) with (∅ : gset string).
    apply set_eq. set_solver. }
  assert (si_subs (hub_channels h) !! channel = Some [s; s]) as Esub.
  { unfold h, subscribe, on_channels, add_sub. cbn [hub_channels si_subs].
    by rewrite !lookup_insert_eq. }
  unfold channel_targets, subscriptionCount, sub_count. rewrite Eof, Esub, size_singleton.
  split; [|done]. simpl. by rewrite !filter_cons, Ha.
Qed.
End reach.
