(* ===== verification/Session.v ===== *)
(** * Client sessions: the receive buffer

    [KvSession] ([kv_session.h], [kv_session.cc]): what is received into a growing buffer
    until a command is complete, and what is written back.  [m_data] holds the first
    [m_dataLen] characters of [m_buffer], whose capacity is [m_size]; the rest of the
    buffer is never read.  The socket is a parameter. *)

From Stdlib Require Import Ascii.
From stdpp Require Import options.
From S2P Require Import Prelude.
From S2P Require Import CStd.
From S2P Require Import Resp.
From S2P Require Import RespReader.
From S2P Require Import RespFacts.

#[local] Set Default Proof Using "Type*".

Definition kDefaultBufferSize : Z := 16 * 1024.
Definition kMaxBufferSize : Z := 16 * 1024 * 1024.

Record Session : Type := mkSession {
  m_size : Z;
  m_data : list ascii;
  m_readPos : nat;
  m_writeBuf : string;
  m_open : bool
}.

Definition Session0 : Session := mkSession kDefaultBufferSize [] 0 "" true.

Definition m_dataLen (s : Session) : Z := Z.of_nat (length (m_data s)).

(** What the parser is given. *)
Definition unread (s : Session) : list ascii := drop (m_readPos s) (m_data s).

Definition set_buffer (data : list ascii) (pos : nat) (s : Session) : Session :=
  mkSession (m_size s) data pos (m_writeBuf s) (m_open s).
Definition set_size (size : Z) (s : Session) : Session :=
  mkSession size (m_data s) (m_readPos s) (m_writeBuf s) (m_open s).
Definition set_write (buf : string) (s : Session) : Session :=
  mkSession (m_size s) (m_data s) (m_readPos s) buf (m_open s).
Definition close (s : Session) : Session :=
  mkSession (m_size s) (m_data s) (m_readPos s) (m_writeBuf s) false.

Definition compactIfNeeded (s : Session) : Session :=
  if bool_decide (m_readPos s = 0%nat) then s
  else if (Z.of_nat (m_readPos s) <? m_size s / 2) && (m_dataLen s <? m_size s) then s
  else set_buffer (if (m_readPos s <? length (m_data s))%nat then unread s else []) 0 s.

(** How a call ends: with a command, without one, or with the exception of a [reserve]. *)
Inductive Received : Type := RecvTrue | RecvFalse | RecvThrown.

#[global] Instance Received_eq_dec : EqDecision Received.
Proof. solve_decision. Defined.

Section session.
Context (reserves : Z → bool).

(** The parse at the head of [recvCommand]'s loop and in [tryRecvCommand]; [None] where
    more is needed. *)
Definition parse_buffered (s : Session) (out : RespValue)
  : option (option Received * Session * RespValue) :=
  if (length (m_data s) <=? m_readPos s)%nat then Some (None, s, out)
  else
    '(st, out, consumed) ← tryParse reserves (unread s) out;
    Some (match st with
          | POk => (Some RecvTrue, set_buffer (m_data s) (m_readPos s + consumed) s, out)
          | PError_ => (Some RecvFalse, close s, out)
          | Thrown => (Some RecvThrown, s, out)
          | NeedMore => (None, s, out)
          end).

Section net.
(** The socket: [read] takes at most so many characters, none at the end or on an error. *)
Context {net : Type} (read : net → Z → net * list ascii).

Fixpoint recvCommand (fuel : nat) (s : Session) (n : net) (out : RespValue)
  : option (Received * Session * net * RespValue) :=
  match fuel with
  | O => None
  | S fuel =>
      let s := compactIfNeeded s in
      '(r, s, out) ← parse_buffered s out;
      match r with
      | Some r => Some (r, s, n, out)
      | None =>
          if m_size s <=? m_dataLen s then
            if kMaxBufferSize <=? m_size s then Some (RecvFalse, close s, n, out)
            else recvCommand fuel (set_size (m_size s * 2) s) n out
          else
            let '(n, chunk) := read n (m_size s - m_dataLen s) in
            match chunk with
            | [] => Some (RecvFalse, close s, n, out)
            | _ => recvCommand fuel (set_buffer (m_data s ++ chunk) (m_readPos s) s) n out
            end
      end
  end.
End net.

Definition tryRecvCommand (s : Session) (out : RespValue) : option (Received * Session * RespValue) :=
  let s := compactIfNeeded s in
  '(r, s, out) ← parse_buffered s out;
  Some (default RecvFalse r, s, out).
End session.

(** ** The write buffer *)

Definition session_append (rsp : RespValue) (s : Session) : Session :=
  set_write (appendResponse rsp (m_writeBuf s)) s.

(** [flushResponses]: [written] is the result of [writeFixSize]; what it was given is
    dropped whether or not it was written. *)
Definition flushResponses (written : string → Z) (s : Session) : Session * Z :=
  if bool_decide (m_writeBuf s = "") then (s, 0) else (set_write "" s, written (m_writeBuf s)).

Definition sendResponse (written : string → Z) (rsp : RespValue) (s : Session) : Session * Z :=
  flushResponses written (session_append rsp s).

(** ** The invariant *)

Record session_ok (s : Session) : Prop := {
  so_size : ∃ i, 0 ≤ i ≤ 10 ∧ m_size s = 2 ^ (14 + i);
  so_data : m_dataLen s ≤ m_size s;
  so_pos : (m_readPos s ≤ length (m_data s) + 1)%nat
}.

Lemma session_ok_0 : session_ok Session0.
Proof. split; simpl; [by exists 0|done|lia]. Qed.

Lemma compact_ok s : session_ok s → session_ok (compactIfNeeded s).
Proof.
  intros Hs. unfold compactIfNeeded. case_bool_decide as H0; [done|].
  destruct (_ && _); [done|]. destruct Hs as [Hi Hd Hp]. split; simpl; [done| |lia].
  unfold m_dataLen, unread in *. simpl.
  destruct (Nat.ltb_spec (m_readPos s) (length (m_data s))); rewrite ?length_drop; simpl; lia.
Qed.

Lemma compact_unread s : unread (compactIfNeeded s) = unread s.
Proof.
  unfold compactIfNeeded. case_bool_decide; [done|]. destruct (_ && _); [done|].
  unfold unread at 1. simpl.
  destruct (Nat.ltb_spec (m_readPos s) (length (m_data s))); [done|].
  unfold unread. by rewrite (drop_ge (m_data s)).
Qed.

(** A full buffer holds nothing but unread characters. *)
Lemma compact_full s :
  m_size s ≤ m_dataLen (compactIfNeeded s) → m_readPos (compactIfNeeded s) = 0%nat.
Proof.
  unfold compactIfNeeded. case_bool_decide as H0; [done|].
  destruct (_ && _) eqn:E; [|done]. apply andb_true_iff in E as [_ E%Z.ltb_lt]. lia.
Qed.

Lemma parse_buffered_spec reserves s out :
  session_ok s →
  ∃ r s' out', parse_buffered reserves s out = Some (r, s', out') ∧ session_ok s' ∧
    m_size s' = m_size s ∧ m_data s' = m_data s ∧
    (r ≠ Some RecvTrue → m_readPos s' = m_readPos s) ∧
    (r = None → s' = s).
Proof.
  intros Hs. unfold parse_buffered. destruct (Nat.leb_spec (length (m_data s)) (m_readPos s)).
  { by eexists _, _, _. }
  destruct (tryParse_within reserves (unread s) out) as (st & v & n & -> & Hn). simpl.
  destruct Hs as [Hi Hd Hp].
  destruct st; eexists _, _, _; (split; [done|]); simpl; [by split_and!| | |by split_and!].
  - split_and!; [|naive_solver..]. split; simpl; [done..|]. specialize (Hn eq_refl).
    unfold unread in Hn. rewrite length_drop in Hn. lia.
  - split_and!; [by split|done..].
Qed.

Section recv.
Context (reserves : Z → bool) {net : Type} (read : net → Z → net * list ascii).

(** No more characters than asked for. *)
Hypothesis read_bound : ∀ n k, 0 < k → Z.of_nat (length (read n k).2) ≤ k.

(** What the loop has left to do: the growth of the buffer, the room in it, and the room
    a compaction would make. *)
Definition recv_steps (s : Session) : Z :=
  (kMaxBufferSize - m_size s) + (kMaxBufferSize - m_dataLen s) +
  (if bool_decide (m_readPos s = 0%nat) then 0 else kMaxBufferSize) + 1.

Lemma size_pow s : session_ok s → 2 ^ 14 ≤ m_size s ≤ kMaxBufferSize ∧
  (m_size s < kMaxBufferSize → ∃ i, 0 ≤ i ≤ 10 ∧ m_size s * 2 = 2 ^ (14 + i)).
Proof.
  intros [(i & Hi & ->) _ _]. split.
  - change kMaxBufferSize with (2 ^ 24). split; apply Z.pow_le_mono_r; lia.
  - change kMaxBufferSize with (2 ^ 24). intros Hlt. exists (i + 1).
    assert (i ≠ 10) by (intros ->; simpl in Hlt; lia). split; [lia|].
    replace (14 + (i + 1)) with (Z.succ (14 + i)) by lia. rewrite Z.pow_succ_r by lia. lia.
Qed.

Lemma compact_steps s : session_ok s → recv_steps (compactIfNeeded s) ≤ recv_steps s.
Proof.
  intros Hs. pose proof (size_pow s Hs) as [Hz _]. pose proof (so_data _ Hs) as Hd.
  unfold compactIfNeeded. case_bool_decide as H0; [lia|]. destruct (_ && _); [lia|].
  unfold recv_steps. simpl. rewrite bool_decide_eq_false_2 by done.
  unfold m_dataLen in *. lia.
Qed.

(** The buffer after the growth or the read of one iteration. *)
Lemma grow_ok s : session_ok s → m_size s < kMaxBufferSize →
  session_ok (set_size (m_size s * 2) s) ∧
  recv_steps (set_size (m_size s * 2) s) < recv_steps s.
Proof.
  intros Hs Hlt. destruct (size_pow s Hs) as [Hz Hi]. specialize (Hi Hlt).
  destruct Hs as [_ Hd Hp]. split; [split; simpl; [done|unfold m_dataLen in *; simpl; lia|done]|].
  unfold recv_steps, m_dataLen. simpl. lia.
Qed.

Lemma read_ok s chunk : session_ok s → Z.of_nat (length chunk) ≤ m_size s - m_dataLen s →
  chunk ≠ [] →
  session_ok (set_buffer (m_data s ++ chunk) (m_readPos s) s) ∧
  recv_steps (set_buffer (m_data s ++ chunk) (m_readPos s) s) < recv_steps s.
Proof.
  intros [Hi Hd Hp] Hl Hc. assert (0 < length chunk)%nat by (destruct chunk; [done|simpl; lia]).
  unfold recv_steps, m_dataLen in *. split.
  - split; unfold m_dataLen; simpl; [done|rewrite length_app; lia|rewrite length_app; lia].
  - simpl. rewrite length_app. lia.
Qed.

Lemma recv_steps_pos s : session_ok s → 0 < recv_steps s.
Proof.
  intros Hs. destruct (size_pow s Hs) as [Hz _]. pose proof (so_data _ Hs).
  unfold recv_steps. case_bool_decide; lia.
Qed.

(** [recvCommand] ends, and leaves a well-formed buffer. *)
Lemma recvCommand_total fuel s n out :
  session_ok s → recv_steps s ≤ Z.of_nat fuel →
  ∃ r s' n' out', recvCommand reserves read fuel s n out = Some (r, s', n', out') ∧ session_ok s'.
Proof.
  revert s n out. induction fuel as [|fuel IH]; intros s n out Hs Hf.
  { pose proof (recv_steps_pos s Hs). lia. }
  cbn [recvCommand]. pose proof (compact_ok s Hs) as Hc. pose proof (compact_steps s Hs) as Hst.
  set (c := compactIfNeeded s) in *.
  destruct (parse_buffered_spec reserves c out Hc) as (r & s' & out' & -> & Hs' & _ & _ & _ & Hn).
  simpl. destruct r as [r|]; [by eexists _, _, _, _|]. rewrite (Hn eq_refl). clear Hn Hs' s'.
  destruct (Z.leb_spec (m_size c) (m_dataLen c)).
  - destruct (Z.leb_spec kMaxBufferSize (m_size c)).
    + eexists _, _, _, _. split; [done|]. by destruct Hc; split.
    + destruct (grow_ok c Hc) as [Hg Hgs]; [done|]. apply IH; [done|lia].
  - destruct (read n (m_size c - m_dataLen c)) as [n' chunk] eqn:Er.
    pose proof (read_bound n (m_size c - m_dataLen c) ltac:(lia)) as Hb. rewrite Er in Hb. simpl in Hb.
    destruct chunk as [|ch chunk].
    + eexists _, _, _, _. split; [done|]. by destruct Hc; split.
    + destruct (read_ok c (ch :: chunk) Hc Hb) as [Hg Hgs]; [done|]. apply IH; [done|lia].
Qed.
End recv.

(** ** Commands arrive whole, however the bytes are cut *)

Lemma buffered_cases p q v rest :
  p ++ q = chars (encode v) ++ rest →
  ((length p < String.length (encode v))%nat ∧ p = take (length p) (chars (encode v))) ∨
  (∃ rest', p = chars (encode v) ++ rest' ∧ rest = rest' ++ q).
Proof.
  intros [(k & -> & ->)|(k & Hk & ->)]%app_eq_inv; [right; by exists k|].
  destruct k as [|c k].
  - right. exists []. rewrite app_nil_r in *. by rewrite Hk.
  - left. pose proof (f_equal length Hk) as Hl. rewrite chars_length, length_app in Hl.
    simpl in Hl. split; [lia|]. by rewrite Hk, take_app_length.
Qed.

Section deliver.
Context (reserves : Z → bool) {net : Type} (read : net → Z → net * list ascii).
(** The characters the peer has sent that were not read yet. *)
Context (stream : net → list ascii).

(** [read] hands out the stream in order, at most as much as asked for, and nothing only
    when there is nothing more to come. *)
Definition reads_stream : Prop := ∀ n k, 0 < k →
  stream n = (read n k).2 ++ stream (read n k).1 ∧ Z.of_nat (length (read n k).2) ≤ k ∧
  ((read n k).2 = [] → stream n = []).

(** The next command is received and exactly its bytes are taken; or the session was
    closed on a "*" or a "$" whose number had not arrived yet. *)
Definition delivered (v : RespValue) (rest : list ascii)
    (r : option (Received * Session * net * RespValue)) : Prop :=
  match r with
  | Some (RecvTrue, s, n, out) =>
      reply_of out = reply_of v ∧ unread s ++ stream n = rest ∧
      (m_readPos s ≤ length (m_data s))%nat ∧ session_ok s
  | Some (RecvFalse, s, _, _) =>
      m_open s = false ∧ (last (unread s) = Some "*"%char ∨ last (unread s) = Some "$"%char)
  | _ => False
  end.

(** The parse of the first command of the buffer. *)
Lemma parse_whole v s rest out :
  is_command reserves v → unread s = chars (encode v) ++ rest →
  (m_readPos s ≤ length (m_data s))%nat →
  ∃ s' out', parse_buffered reserves s out = Some (Some RecvTrue, s', out') ∧
    reply_of out' = reply_of v ∧ unread s' = rest ∧ (m_readPos s' ≤ length (m_data s'))%nat.
Proof.
  intros Hv Hu Hp. unfold parse_buffered.
  assert (length (m_data s) = m_readPos s + (String.length (encode v) + length rest))%nat as Hl.
  { pose proof (f_equal length Hu) as Hl. unfold unread in Hl.
    rewrite length_drop, length_app, chars_length in Hl. pose proof (encode_pos v). lia. }
  pose proof (encode_pos v). destruct (Nat.leb_spec (length (m_data s)) (m_readPos s)); [lia|].
  rewrite Hu.
  destruct (tryParse_encode reserves v rest out (is_command_wf reserves v Hv)) as (v' & -> & Hr).
  simpl. eexists _, _. split; [done|]. split_and!; [done| |simpl; lia].
  unfold unread. cbn [m_readPos m_data set_buffer]. rewrite <-drop_drop.
  unfold unread in Hu. rewrite Hu. apply drop_chars.
Qed.

(** The parse of a part of it. *)
Lemma parse_part v s out :
  is_command reserves v → (length (unread s) < String.length (encode v))%nat →
  unread s = take (length (unread s)) (chars (encode v)) →
  ∃ out', parse_buffered reserves s out = Some (None, s, out') ∨
    parse_buffered reserves s out = Some (Some RecvFalse, close s, out') ∧
    (last (unread s) = Some "*"%char ∨ last (unread s) = Some "$"%char).
Proof.
  intros Hv Hl Hu. unfold parse_buffered.
  destruct (Nat.leb_spec (length (m_data s)) (m_readPos s)); [exists out; by left|].
  pose proof (tryParse_cut reserves v (length (unread s)) out Hv Hl) as Hc. rewrite <-Hu in Hc.
  destruct Hc as (v' & n & [-> | [-> Hlast]]); exists v'; simpl; [by left|by right].
Qed.

Lemma compact_pos s : (m_readPos s ≤ length (m_data s))%nat →
  (m_readPos (compactIfNeeded s) ≤ length (m_data (compactIfNeeded s)))%nat.
Proof.
  intros Hp. unfold compactIfNeeded. case_bool_decide; [done|]. destruct (_ && _); [done|].
  simpl. lia.
Qed.

Lemma recvCommand_delivers fuel v s n rest out :
  reads_stream → session_ok s → (m_readPos s ≤ length (m_data s))%nat →
  is_command reserves v → Z.of_nat (String.length (encode v)) ≤ kMaxBufferSize →
  unread s ++ stream n = chars (encode v) ++ rest → recv_steps s ≤ Z.of_nat fuel →
  delivered v rest (recvCommand reserves read fuel s n out).
Proof.
  intros Hread Hs Hp Hv Hmax. revert s n out Hs Hp.
  induction fuel as [|fuel IH]; intros s n out Hs Hp Hu Hf.
  { pose proof (recv_steps_pos s Hs). lia. }
  cbn [recvCommand]. pose proof (compact_ok s Hs) as Hc. pose proof (compact_steps s Hs) as Hst.
  apply compact_pos in Hp. rewrite <-compact_unread in Hu.
  pose proof (compact_full s) as Hfull.
  assert (m_size (compactIfNeeded s) = m_size s) as Hsize.
  { unfold compactIfNeeded. case_bool_decide; [done|]. by destruct (_ && _). }
  set (c := compactIfNeeded s) in *.
  destruct (buffered_cases _ _ _ _ Hu) as [[Hl Hpart]|(rest' & Hwhole & ->)].
  2: { destruct (parse_whole v c rest' out Hv Hwhole Hp) as (s' & out' & E & Hr & Hrest & Hp').
       rewrite E. simpl. split_and!; [done|by rewrite Hrest|done|].
       destruct (parse_buffered_spec reserves c out Hc) as (r & s'' & o & E' & Hok & _).
       rewrite E in E'. by injection E' as <- <- <-. }
  destruct (parse_part v c out Hv Hl Hpart) as (out' & [-> | [-> Hlast]]); simpl; [|done].
  destruct (Z.leb_spec (m_size c) (m_dataLen c)) as [Hge|Hlt].
  - rewrite Hsize in Hge. specialize (Hfull Hge).
    assert (Z.of_nat (length (unread c)) = m_dataLen c) as Hlen.
    { unfold unread. by rewrite Hfull, drop_0. }
    destruct (Z.leb_spec kMaxBufferSize (m_size c)) as [Hbig|Hsmall]; [lia|].
    destruct (grow_ok c Hc) as [Hg Hgs]; [done|]. apply IH; [done|done|done|lia].
  - pose proof (Hread n (m_size c - m_dataLen c) ltac:(lia)) as (Hstream & Hb & Heof).
    destruct (read n (m_size c - m_dataLen c)) as [n' chunk]. simpl in *.
    destruct chunk as [|ch chunk].
    { rewrite Heof, app_nil_r in Hu by done. pose proof (f_equal length Hu) as Hll.
      rewrite length_app, chars_length in Hll. lia. }
    destruct (read_ok c (ch :: chunk) Hc Hb) as [Hg Hgs]; [done|].
    apply IH; [done|simpl; rewrite length_app; lia| |lia].
    rewrite Hstream in Hu. rewrite <-Hu. unfold unread. simpl.
    rewrite drop_app_le by done. by rewrite <-app_assoc.
Qed.
End deliver.
