(* ===== verification/Request.v ===== *)
(** * Requests and the command handlers' arguments

    A request is a RESP array; [argc], [arg], [anull] and [astr] are
    [req.array.size()], [req.array[i]] and its [is_null] and [str] (the handlers test the
    size before they index).  The argument parsers of [command_dispatch.cc] and their
    laxer namesakes of [commands_p0p1.cc] follow.  [DM] is what a handler of a data
    command runs in: the store and the readings of the clock still to come. *)

From Stdlib Require Import Ascii.
From stdpp Require Import options.
From S2P Require Import Prelude.
From S2P Require Import CStd.
From S2P Require Import Double.
From S2P Require Import Store.
From S2P Require Import Resp.

#[local] Set Default Proof Using "Type*".

(** ** Access *)

Definition argc (req : RespValue) : nat := length (r_array req).
Definition arg (req : RespValue) (i : nat) : RespValue := default RespValue0 (r_array req !! i).
Definition anull (req : RespValue) (i : nat) : bool := r_is_null (arg req i).
Definition astr (req : RespValue) (i : nat) : string := r_str (arg req i).

(** [for(i = from; i < size; ++i)] pushing the strings; [None] on a null. *)
Fixpoint strs (l : list RespValue) : option (list string) :=
  match l with
  | [] => Some []
  | v :: l => if r_is_null v then None else cons (r_str v) <$> strs l
  end.
Definition strs_from (from : nat) (req : RespValue) : option (list string) :=
  strs (drop from (r_array req)).

(** [for(i = from; i + 1 < size; i += 2)] pushing the pairs. *)
Fixpoint str_pairs (l : list RespValue) : option (list (string * string)) :=
  match l with
  | a :: b :: l =>
      if r_is_null a || r_is_null b then None else cons (r_str a, r_str b) <$> str_pairs l
  | _ => Some []
  end.
Definition pairs_from (from : nat) (req : RespValue) : option (list (string * string)) :=
  str_pairs (drop from (r_array req)).

(** ** Case *)

Definition to_upper (c : ascii) : ascii :=
  let n := N_of_ascii c in
  if (97 <=? n)%N && (n <=? 122)%N then ascii_of_N (n - 32) else c.

Fixpoint map_chars (f : ascii → ascii) (s : string) : string :=
  match s with
  | EmptyString => EmptyString
  | String c s => String (f c) (map_chars f s)
  end.

Definition upperArg : string → string := map_chars to_upper.
Definition lowerStr : string → string := map_chars to_lower.

(** ** Numbers *)

(** [*end == '\0'] for [end] at the [n]-th character. *)
Definition c_end (s : string) (n : nat) : bool :=
  match String.get n s with
  | None => true
  | Some c => bool_decide (c = "000"%char)
  end.

Definition is_bulk (v : RespValue) : bool := bool_decide (r_type v = RBulkString).

Definition parseDbIndex (v : RespValue) : option Z :=
  if r_is_null v || negb (is_bulk v) then None
  else if bool_decide (r_str v = "") then None
  else
    let '(n, end_) := strtoll (r_str v) in
    if (end_ =? 0)%nat || negb (c_end (r_str v) end_) || (n <? 0) || (15 <? n) then None
    else Some n.

Definition parseInt64Arg (v : RespValue) : option Z :=
  if r_is_null v || negb (is_bulk v) || bool_decide (r_str v = "") then None
  else
    let '(n, end_) := strtoll (r_str v) in
    if (end_ =? 0)%nat || negb (c_end (r_str v) end_) then None else Some n.

Definition parseDoubleArg (v : RespValue) : option double :=
  if r_is_null v || negb (is_bulk v) || bool_decide (r_str v = "") then None
  else
    let '(d, end_) := strtod (r_str v) in
    if (end_ =? 0)%nat || negb (c_end (r_str v) end_) then None else Some d.

(** The parsers of [commands_p0p1.cc] ignore what follows the number. *)
Definition parseInt64Arg' (v : RespValue) : option Z :=
  if negb (is_bulk v) || r_is_null v then None
  else let '(n, end_) := strtoll (r_str v) in if (end_ =? 0)%nat then None else Some n.

Definition parseDoubleArg' (v : RespValue) : option double :=
  if negb (is_bulk v) || r_is_null v then None
  else
    let '(d, end_) := strtod (r_str v) in
    if negb (end_ =? 0)%nat && negb (d_is_nan d) then Some d else None.

Definition formatScore : double → string := stream_double.

(** ** Replies *)

Definition wrong_args (cmd : string) : RespValue :=
  resp_err ("ERR wrong number of arguments for '" +:+ cmd +:+ "' command").
Definition syntax_error : RespValue := resp_err "ERR syntax error".
Definition err_integer : RespValue := resp_err "ERR value is not an integer or out of range".
Definition err_float : RespValue := resp_err "ERR value is not a valid float".
Definition err_cursor : RespValue := resp_err "ERR invalid cursor".

(** [RespEncoder::err(err)] for the message the operation left. *)
Definition err_reply {R O} (r : Res R O) : RespValue := resp_err (default "" (res_err r)).

Definition bulks (l : list string) : RespValue := resp_array (resp_bulk <$> l).

Definition opt_bulk (o : option string) : RespValue :=
  match o with Some v => resp_bulk v | None => resp_nullBulk end.

(** [if(!op(...)) return err; return found ? bulk(value) : nullBulk();] *)
Definition reply_bulk (r : Res bool (option string)) : RespValue :=
  if res_ret r then opt_bulk (res_out r) else err_reply r.

(** [if(n < 0) return err; return integer(n);] *)
Definition reply_count {O} (r : Res Z O) : RespValue :=
  if res_ret r <? 0 then err_reply r else resp_integer (res_ret r).

(** [if(!op(...)) return err; return integer(out);] *)
Definition reply_int (r : Res bool (option Z)) : RespValue :=
  if res_ret r then resp_integer (default 0 (res_out r)) else err_reply r.

Definition reply_ok {O} (r : Res bool O) : RespValue :=
  if res_ret r then resp_ok else err_reply r.

(** The members the operation answers, as an array. *)
Definition reply_bulks (r : Res bool (list string)) : RespValue :=
  if res_ret r then bulks (res_out r) else err_reply r.
Definition reply_found_bulks (r : Res bool (bool * list string)) : RespValue :=
  if res_ret r then bulks (res_out r).2 else err_reply r.

(** ** The data commands' monad *)

Definition Data : Type := KvStore * (nat → Z).
Abbreviation DM := (State Data).
(** A handler of a data command, given [ctx.db]. *)
Abbreviation DataHandler := (Z → RespValue → DM RespValue).

(** An operation that reads the clock once, twice, up to [n] times, or not at all. *)
Definition timed {A} (op : Z → KM A) : DM A := λ d,
  let '(s, a) := op (d.2 0%nat) d.1 in ((s, λ k, d.2 (S k)), a).
Definition timed2 {A} (op : Z → Z → KM A) : DM A := λ d,
  let '(s, a) := op (d.2 0%nat) (d.2 1%nat) d.1 in ((s, λ k, d.2 (S (S k))), a).
Definition timed_n {A} (n : nat) (op : (nat → Z) → KM A) : DM A := λ d,
  let '(s, a) := op d.2 d.1 in ((s, λ k, d.2 (n + k)%nat), a).
Definition untimed {A} (op : KM A) : DM A := λ d, let '(s, a) := op d.1 in ((s, d.2), a).
