(* ===== verification/CmdKeys.v ===== *)
(** * Command handlers: keys, strings and hashes

    The lambdas [registerBuiltinCommands] and [registerP0P1Commands] register for these
    commands, one definition each, as transformers of the store. *)

From stdpp Require Import options.
From S2P Require Import Prelude.
From S2P Require Import CStd.
From S2P Require Import Double.
From S2P Require Import Scan.
From S2P Require Import Store.
From S2P Require Import Evict.
From S2P Require Import StrOps.
From S2P Require Import HashOps.
From S2P Require Import SetOps.
From S2P Require Import ZSetOps.
From S2P Require Import KeyOps.
From S2P Require Import Resp.
From S2P Require Import Request.

#[local] Set Default Proof Using "Type*".

(** ** Options *)

Record SetOptions : Type := mkSetOpt { so_nx : bool; so_xx : bool; so_ex : Z; so_px : Z }.

Definition SetOptions0 : SetOptions := mkSetOpt false false (-1) (-1).

(** The loop of [parseSetOptions] on the arguments from the fourth on. *)
Fixpoint parse_set_opts (l : list RespValue) (opt : SetOptions) : string + SetOptions :=
  let syntax := inl "ERR syntax error" in
  match l with
  | [] => inr opt
  | v :: l =>
      if r_is_null v then syntax
      else
        let flag := upperArg (r_str v) in
        if bool_decide (flag = "NX") then
          if so_xx opt then syntax
          else parse_set_opts l (mkSetOpt true (so_xx opt) (so_ex opt) (so_px opt))
        else if bool_decide (flag = "XX") then
          if so_nx opt then syntax
          else parse_set_opts l (mkSetOpt (so_nx opt) true (so_ex opt) (so_px opt))
        else if bool_decide (flag = "EX") then
          if 0 <=? so_px opt then syntax
          else match l with
               | [] => syntax
               | a :: l =>
                   if r_is_null a then syntax
                   else match parseInt64Arg a with
                        | None => inl "ERR value is not an integer or out of range"
                        | Some n => parse_set_opts l (mkSetOpt (so_nx opt) (so_xx opt) n (so_px opt))
                        end
               end
        else if bool_decide (flag = "PX") then
          if 0 <=? so_ex opt then syntax
          else match l with
               | [] => syntax
               | a :: l =>
                   if r_is_null a then syntax
                   else match parseInt64Arg a with
                        | None => inl "ERR value is not an integer or out of range"
                        | Some n => parse_set_opts l (mkSetOpt (so_nx opt) (so_xx opt) (so_ex opt) n)
                        end
               end
        else syntax
  end.

Definition parseSetOptions (req : RespValue) : string + SetOptions :=
  parse_set_opts (drop 3 (r_array req)) SetOptions0.

(** [MATCH pattern] and [COUNT n], for [SCAN] and its relatives. *)
Fixpoint scan_opts (parse : RespValue → option Z) (l : list RespValue) (pattern : string) (count : Z)
  : option (string * Z) :=
  match l with
  | [] => Some (pattern, count)
  | v :: l =>
      if r_is_null v then None
      else
        let opt := upperArg (r_str v) in
        if bool_decide (opt = "MATCH") then
          match l with
          | [] => None
          | a :: l => if r_is_null a then None else scan_opts parse l (r_str a) count
          end
        else if bool_decide (opt = "COUNT") then
          match l with
          | [] => None
          | a :: l => match parse a with None => None | Some n => scan_opts parse l pattern n end
          end
        else None
  end.

(** The reply of a scan: the next cursor and the page. *)
Definition scan_reply (sr : CollectionScanResult) : RespValue :=
  resp_array [resp_bulk (to_string (scan_cursor sr)); bulks (scan_items sr)].

(** The loop of [GETEX]: [EX] and [PX] values and whether [PERSIST] was given. *)
Fixpoint getex_opts (l : list RespValue) (ex px : Z) (persist : bool) : RespValue + Z * Z * bool :=
  match l with
  | [] => inr (ex, px, persist)
  | v :: l =>
      if r_is_null v then inl syntax_error
      else
        let opt := upperArg (r_str v) in
        if bool_decide (opt = "PERSIST") then getex_opts l ex px true
        else if bool_decide (opt = "EX") || bool_decide (opt = "PX") then
          match l with
          | [] => inl syntax_error
          | a :: l =>
              match parseInt64Arg a with
              | None => inl err_integer
              | Some n =>
                  if bool_decide (opt = "EX") then getex_opts l n px persist
                  else getex_opts l ex n persist
              end
          end
        else inl syntax_error
  end.

Section handlers.
Context `{impl : !StdImpl}.

(** ** Whole databases and any key *)

Definition cmd_DBSIZE : DataHandler := λ db req,
  if negb (argc req =? 1)%nat then mret (wrong_args "dbsize")
  else n ← timed (dbsize db); mret (resp_integer n).

Definition cmd_FLUSHDB : DataHandler := λ db req,
  if negb (argc req =? 1)%nat then mret (wrong_args "flushdb")
  else untimed (flushdb db) ;; mret resp_ok.

Definition cmd_FLUSHALL : DataHandler := λ _ req,
  if negb (argc req =? 1)%nat then mret (wrong_args "flushall")
  else untimed flushall ;; mret resp_ok.

Definition cmd_TYPE : DataHandler := λ db req,
  if negb (argc req =? 2)%nat || anull req 1 then mret (wrong_args "type")
  else t ← timed (StrOps.type db (astr req 1)); mret (resp_bulk t).

Definition cmd_KEYS : DataHandler := λ db req,
  if negb (argc req =? 2)%nat || anull req 1 then mret (wrong_args "keys")
  else ks ← timed (keys db (astr req 1)); mret (bulks ks).

Definition cmd_SCAN : DataHandler := λ db req,
  if (argc req <? 2)%nat || anull req 1 then mret (wrong_args "scan")
  else
    match parseInt64Arg (arg req 1) with
    | None => mret err_cursor
    | Some cursor =>
        if cursor <? 0 then mret err_cursor
        else
          match scan_opts parseInt64Arg (drop 2 (r_array req)) "*" 10 with
          | None => mret syntax_error
          | Some (pattern, count) =>
              sr ← timed (scan db cursor pattern (i32 count)); mret (scan_reply sr)
          end
    end.

Definition cmd_EXISTS : DataHandler := λ db req,
  if (argc req <? 2)%nat then mret (wrong_args "exists")
  else
    match strs_from 1 req with
    | None => mret syntax_error
    | Some ks => n ← timed (existsMany db ks); mret (resp_integer n)
    end.

Definition cmd_DEL : DataHandler := λ db req,
  if (argc req <? 2)%nat then mret (wrong_args "del")
  else
    match strs_from 1 req with
    | None => mret syntax_error
    | Some ks => n ← timed (delMany db ks); mret (resp_integer n)
    end.

Definition rename_reply (r : Res Z unit) : RespValue :=
  resp_err (match res_err r with Some e => e | None => "ERR no such key" end).

Definition cmd_RENAME : DataHandler := λ db req,
  if negb (argc req =? 3)%nat || anull req 1 || anull req 2 then mret (wrong_args "rename")
  else
    r ← timed (renameKey db (astr req 1) (astr req 2) false);
    mret (if res_ret r =? -2 then rename_reply r else resp_ok).

Definition cmd_RENAMENX : DataHandler := λ db req,
  if negb (argc req =? 3)%nat || anull req 1 || anull req 2 then mret (wrong_args "renamenx")
  else
    r ← timed (renameKey db (astr req 1) (astr req 2) true);
    mret (if res_ret r =? 0 then resp_integer 0
          else if res_ret r =? -2 then rename_reply r else resp_integer 1).

(** ** Expiry *)

(** [EXPIRE], [PEXPIRE], [EXPIREAT], [PEXPIREAT] differ in the operation. *)
Definition expire_handler (name : string) (op : Z → string → Z → Z → KM Z) : DataHandler := λ db req,
  if negb (argc req =? 3)%nat || anull req 1 || anull req 2 then mret (wrong_args name)
  else
    match parseInt64Arg (arg req 2) with
    | None => mret err_integer
    | Some n => r ← timed (op db (astr req 1) n); mret (resp_integer r)
    end.

Definition cmd_EXPIRE : DataHandler := expire_handler "expire" expire.
Definition cmd_PEXPIRE : DataHandler := expire_handler "pexpire" pexpire.
Definition cmd_EXPIREAT : DataHandler := expire_handler "expireat" expireAt.
Definition cmd_PEXPIREAT : DataHandler := expire_handler "pexpireat" pexpireAt.

(** [TTL], [PTTL], [PERSIST]. *)
Definition key_int_handler (name : string) (op : Z → string → Z → KM Z) : DataHandler := λ db req,
  if negb (argc req =? 2)%nat || anull req 1 then mret (wrong_args name)
  else n ← timed (op db (astr req 1)); mret (resp_integer n).

Definition cmd_TTL : DataHandler := key_int_handler "ttl" ttl.
Definition cmd_PTTL : DataHandler := key_int_handler "pttl" pttl.
Definition cmd_PERSIST : DataHandler := key_int_handler "persist" persist.

(** ** Strings *)

Definition cmd_GET : DataHandler := λ db req,
  if negb (argc req =? 2)%nat || anull req 1 then mret (wrong_args "get")
  else r ← timed (StrOps.get db (astr req 1)); mret (reply_bulk r).

Definition cmd_GETSET : DataHandler := λ db req,
  if negb (argc req =? 3)%nat || anull req 1 || anull req 2 then mret (wrong_args "getset")
  else r ← timed2 (getset db (astr req 1) (astr req 2)); mret (reply_bulk r).

Definition cmd_GETDEL : DataHandler := λ db req,
  if negb (argc req =? 2)%nat || anull req 1 then mret (wrong_args "getdel")
  else r ← timed2 (getdel db (astr req 1)); mret (reply_bulk r).

Definition cmd_GETEX : DataHandler := λ db req,
  if (argc req <? 2)%nat || anull req 1 then mret (wrong_args "getex")
  else
    match getex_opts (drop 2 (r_array req)) 0 0 false with
    | inl e => mret e
    | inr (ex, px, persist) =>
        r ← timed (getex db (astr req 1) ex px persist); mret (reply_bulk r)
    end.

Definition cmd_SET : DataHandler := λ db req,
  if (argc req <? 3)%nat || anull req 1 || anull req 2 then mret (wrong_args "set")
  else
    match parseSetOptions req with
    | inl e => mret (resp_err e)
    | inr opt =>
        rc ← timed (setOpt db (astr req 1) (astr req 2) (so_nx opt) (so_xx opt) (so_ex opt) (so_px opt));
        mret (if rc =? 0 then resp_nullBulk else resp_ok)
    end.

Definition cmd_SETNX : DataHandler := λ db req,
  if negb (argc req =? 3)%nat || anull req 1 || anull req 2 then mret (wrong_args "setnx")
  else
    rc ← timed (setOpt db (astr req 1) (astr req 2) true false (-1) (-1));
    mret (resp_integer (if rc =? 0 then 0 else 1)).

Definition cmd_SETEX : DataHandler := λ db req,
  if negb (argc req =? 4)%nat || anull req 1 || anull req 2 || anull req 3
  then mret (wrong_args "setex")
  else
    match parseInt64Arg (arg req 2) with
    | None => mret err_integer
    | Some ttl => timed (setex db (astr req 1) (astr req 3) ttl) ;; mret resp_ok
    end.

Definition cmd_APPEND : DataHandler := λ db req,
  if negb (argc req =? 3)%nat || anull req 1 || anull req 2 then mret (wrong_args "append")
  else r ← timed (append db (astr req 1) (astr req 2)); mret (reply_int r).

Definition cmd_STRLEN : DataHandler := λ db req,
  if negb (argc req =? 2)%nat || anull req 1 then mret (wrong_args "strlen")
  else r ← timed (strlen db (astr req 1)); mret (reply_int r).

(** The loop of [MGET], which answers the first error instead of the values. *)
Fixpoint mget_loop (db : Z) (l : list RespValue) (out : list RespValue) : DM RespValue :=
  match l with
  | [] => mret (resp_array out)
  | v :: l =>
      if r_is_null v then mget_loop db l (out ++ [resp_nullBulk])
      else
        r ← timed (StrOps.get db (r_str v));
        if res_ret r : bool then mget_loop db l (out ++ [opt_bulk (res_out r)]) else mret (err_reply r)
  end.

Definition cmd_MGET : DataHandler := λ db req,
  if (argc req <? 2)%nat then mret (wrong_args "mget")
  else mget_loop db (drop 1 (r_array req)) [].

(** The loop of [MSET]: the pairs before a null are written. *)
Fixpoint mset_loop (db : Z) (l : list RespValue) : DM RespValue :=
  match l with
  | k :: v :: l =>
      if r_is_null k || r_is_null v then mret (resp_err "ERR syntax error in MSET")
      else timed (StrOps.set db (r_str k) (r_str v)) ;; mset_loop db l
  | _ => mret resp_ok
  end.

Definition cmd_MSET : DataHandler := λ db req,
  if (argc req <? 3)%nat || Nat.even (argc req) then mret (wrong_args "mset")
  else mset_loop db (drop 1 (r_array req)).

Definition cmd_MSETNX : DataHandler := λ db req,
  if (argc req <? 3)%nat || Nat.even (argc req) then mret (wrong_args "msetnx")
  else
    match pairs_from 1 req with
    | None => mret (resp_err "ERR syntax error in MSETNX")
    | Some pairs => n ← timed (msetnx db pairs); mret (resp_integer n)
    end.

(** ** Counters *)

Definition dispatchIncrBy (delta : Z) (cmd : string) (min_args : nat) : DataHandler := λ db req,
  if negb (argc req =? min_args)%nat || anull req 1 then mret (wrong_args cmd)
  else r ← timed (incrBy db (astr req 1) delta); mret (reply_int r).

Definition cmd_INCR : DataHandler := dispatchIncrBy 1 "incr" 2.
Definition cmd_DECR : DataHandler := dispatchIncrBy (-1) "decr" 2.

(** [INCRBY] and [DECRBY]; the negation of the least [int64_t] wraps around. *)
Definition incrby_handler (cmd : string) (sign : Z → Z) : DataHandler := λ db req,
  if negb (argc req =? 3)%nat || anull req 1 || anull req 2 then mret (wrong_args cmd)
  else
    match parseInt64Arg (arg req 2) with
    | None => mret err_integer
    | Some delta => r ← timed (incrBy db (astr req 1) (sign delta)); mret (reply_int r)
    end.

Definition cmd_INCRBY : DataHandler := incrby_handler "incrby" id.
Definition cmd_DECRBY : DataHandler := incrby_handler "decrby" (λ d, i64 (- d)).

Definition cmd_INCRBYFLOAT : DataHandler := λ db req,
  if negb (argc req =? 3)%nat || anull req 1 || anull req 2 then mret (wrong_args "incrbyfloat")
  else
    match parseDoubleArg' (arg req 2) with
    | None => mret err_float
    | Some delta =>
        r ← timed (incrByFloat db (astr req 1) delta);
        mret (if res_ret r : bool then resp_bulk (default "" (res_out r)) else err_reply r)
    end.

(** ** Hashes *)

Definition cmd_HSET : DataHandler := λ db req,
  if (argc req <? 4)%nat || negb (Nat.even (argc req)) || anull req 1 then mret (wrong_args "hset")
  else if (argc req =? 4)%nat then
    r ← timed (hset db (astr req 1) (astr req 2) (astr req 3)); mret (reply_count r)
  else
    match pairs_from 2 req with
    | None => mret syntax_error
    | Some fields => r ← timed (hsetFields db (astr req 1) fields); mret (reply_count r)
    end.

Definition cmd_HMSET : DataHandler := λ db req,
  if (argc req <? 4)%nat || negb (Nat.even (argc req)) || anull req 1 then mret (wrong_args "hmset")
  else
    match pairs_from 2 req with
    | None => mret syntax_error
    | Some fields =>
        r ← timed_n (length fields) (hmset db (astr req 1) fields); mret (reply_ok r)
    end.

Definition cmd_HSETNX : DataHandler := λ db req,
  if negb (argc req =? 4)%nat || anull req 1 || anull req 2 || anull req 3
  then mret (wrong_args "hsetnx")
  else r ← timed2 (hsetnx db (astr req 1) (astr req 2) (astr req 3)); mret (reply_count r).

Definition cmd_HGET : DataHandler := λ db req,
  if negb (argc req =? 3)%nat || anull req 1 || anull req 2 then mret (wrong_args "hget")
  else r ← timed (hget db (astr req 1) (astr req 2)); mret (reply_bulk r).

Definition cmd_HGETALL : DataHandler := λ db req,
  if negb (argc req =? 2)%nat || anull req 1 then mret (wrong_args "hgetall")
  else
    r ← timed (hgetall db (astr req 1));
    mret (if res_ret r : bool
          then if (res_out r).1 : bool
               then resp_array ((res_out r).2 ≫= λ p, [resp_bulk p.1; resp_bulk p.2])
               else resp_array []
          else err_reply r).

(** The loop of [HDEL]: an error keeps the deletions before it. *)
Fixpoint hdel_loop (db : Z) (key : string) (l : list RespValue) (removed : Z) : DM RespValue :=
  match l with
  | [] => mret (resp_integer removed)
  | v :: l =>
      if r_is_null v then mret syntax_error
      else
        r ← timed (hdel db key (r_str v));
        if res_ret r : bool then hdel_loop db key l (i64 (removed + res_out r))
        else mret (err_reply r)
  end.

Definition cmd_HDEL : DataHandler := λ db req,
  if (argc req <? 3)%nat || anull req 1 then mret (wrong_args "hdel")
  else hdel_loop db (astr req 1) (drop 2 (r_array req)) 0.

Definition cmd_HEXISTS : DataHandler := λ db req,
  if negb (argc req =? 3)%nat || anull req 1 || anull req 2 then mret (wrong_args "hexists")
  else
    r ← timed (hexists db (astr req 1) (astr req 2));
    mret (if res_ret r : bool then resp_integer (if res_out r : bool then 1 else 0) else err_reply r).

(** [if(!err.empty()) return err; return integer(found ? n : 0);] *)
Definition len_reply (r : Res Z bool) : RespValue :=
  match res_err r with
  | Some _ => err_reply r
  | None => resp_integer (if res_out r then res_ret r else 0)
  end.

Definition cmd_HLEN : DataHandler := λ db req,
  if negb (argc req =? 2)%nat || anull req 1 then mret (wrong_args "hlen")
  else r ← timed (hlen db (astr req 1)); mret (len_reply r).

Definition cmd_HMGET : DataHandler := λ db req,
  if (argc req <? 3)%nat || anull req 1 then mret (wrong_args "hmget")
  else
    match strs_from 2 req with
    | None => mret syntax_error
    | Some fields =>
        r ← timed_n (length fields) (hmget db (astr req 1) fields);
        mret (if res_ret r : bool then resp_array (opt_bulk <$> res_out r) else err_reply r)
    end.

Definition cmd_HKEYS : DataHandler := λ db req,
  if negb (argc req =? 2)%nat || anull req 1 then mret (wrong_args "hkeys")
  else r ← timed (hkeys db (astr req 1)); mret (reply_found_bulks r).

Definition cmd_HVALS : DataHandler := λ db req,
  if negb (argc req =? 2)%nat || anull req 1 then mret (wrong_args "hvals")
  else r ← timed (hvals db (astr req 1)); mret (reply_found_bulks r).

Definition cmd_HINCRBY : DataHandler := λ db req,
  if negb (argc req =? 4)%nat || anull req 1 || anull req 2 || anull req 3
  then mret (wrong_args "hincrby")
  else
    match parseInt64Arg (arg req 3) with
    | None => mret err_integer
    | Some delta => r ← timed (hincrby db (astr req 1) (astr req 2) delta); mret (reply_int r)
    end.

(** [dispatchCollectionScan], for [HSCAN], [SSCAN] and [ZSCAN]. *)
Definition dispatchCollectionScan (cmd : string)
    (fn : Z → string → Z → string → Z → Z → KM (Res CollectionScanResult unit)) : DataHandler := λ db req,
  if (argc req <? 3)%nat || anull req 1 || anull req 2 then mret (wrong_args cmd)
  else
    match parseInt64Arg' (arg req 2) with
    | None => mret err_cursor
    | Some cursor =>
        if cursor <? 0 then mret err_cursor
        else
          match scan_opts parseInt64Arg' (drop 3 (r_array req)) "*" 10 with
          | None => mret syntax_error
          | Some (pattern, count) =>
              r ← timed (fn db (astr req 1) cursor pattern (i32 count));
              mret (match res_err r with Some _ => err_reply r | None => scan_reply (res_ret r) end)
          end
    end.

Definition cmd_HSCAN : DataHandler := dispatchCollectionScan "hscan" hscan.
Definition cmd_SSCAN : DataHandler := dispatchCollectionScan "sscan" sscan.
Definition cmd_ZSCAN : DataHandler := dispatchCollectionScan "zscan" zscan.
End handlers.
