(* ===== verification/CmdColl.v ===== *)
(** * Command handlers: lists, sets, sorted sets and streams

    The lambdas registered for these commands.  The pushes and the blocking pops reach
    the blocking hub too and are in [Dispatch.v]. *)

From stdpp Require Import options.
From S2P Require Import Prelude.
From S2P Require Import CStd.
From S2P Require Import Double.
From S2P Require Import Store.
From S2P Require Import ListOps.
From S2P Require Import SetOps.
From S2P Require Import ZSetOps.
From S2P Require Import StreamOps.
From S2P Require Import Resp.
From S2P Require Import Request.
From S2P Require Import CmdKeys.

#[local] Set Default Proof Using "Type*".

Section handlers.
Context `{impl : !StdImpl}.

(** ** Lists *)

Definition pop_handler (cmd : string) (left : bool) : DataHandler := λ db req,
  if negb (argc req =? 2)%nat || anull req 1 then mret (wrong_args cmd)
  else r ← timed (listPop db (astr req 1) left); mret (reply_bulk r).

Definition cmd_LPOP : DataHandler := pop_handler "lpop" true.
Definition cmd_RPOP : DataHandler := pop_handler "rpop" false.

Definition cmd_LLEN : DataHandler := λ db req,
  if negb (argc req =? 2)%nat || anull req 1 then mret (wrong_args "llen")
  else r ← timed (listLen db (astr req 1)); mret (len_reply r).

Definition cmd_LRANGE : DataHandler := λ db req,
  if negb (argc req =? 4)%nat || anull req 1 || anull req 2 || anull req 3
  then mret (wrong_args "lrange")
  else
    match parseInt64Arg (arg req 2), parseInt64Arg (arg req 3) with
    | Some start, Some stop =>
        r ← timed (listRange db (astr req 1) start stop); mret (reply_found_bulks r)
    | _, _ => mret err_integer
    end.

Definition cmd_LINDEX : DataHandler := λ db req,
  if negb (argc req =? 3)%nat || anull req 1 || anull req 2 then mret (wrong_args "lindex")
  else
    match parseInt64Arg (arg req 2) with
    | None => mret err_integer
    | Some index => r ← timed (listIndex db (astr req 1) index); mret (reply_bulk r)
    end.

Definition cmd_LTRIM : DataHandler := λ db req,
  if negb (argc req =? 4)%nat || anull req 1 || anull req 2 || anull req 3
  then mret (wrong_args "ltrim")
  else
    match parseInt64Arg (arg req 2), parseInt64Arg (arg req 3) with
    | Some start, Some stop =>
        r ← timed (listTrim db (astr req 1) start stop);
        mret (if res_ret r <? 0 then err_reply r else resp_ok)
    | _, _ => mret err_integer
    end.

Definition cmd_LSET : DataHandler := λ db req,
  if negb (argc req =? 4)%nat || anull req 1 || anull req 2 || anull req 3
  then mret (wrong_args "lset")
  else
    match parseInt64Arg (arg req 2) with
    | None => mret err_integer
    | Some index => r ← timed (listSet db (astr req 1) index (astr req 3)); mret (reply_ok r)
    end.

Definition cmd_LREM : DataHandler := λ db req,
  if negb (argc req =? 4)%nat || anull req 1 || anull req 2 || anull req 3
  then mret (wrong_args "lrem")
  else
    match parseInt64Arg (arg req 2) with
    | None => mret err_integer
    | Some count => r ← timed (listRem db (astr req 1) count (astr req 3)); mret (reply_count r)
    end.

Definition cmd_RPOPLPUSH : DataHandler := λ db req,
  if negb (argc req =? 3)%nat || anull req 1 || anull req 2 then mret (wrong_args "rpoplpush")
  else r ← timed2 (listRPopLPush db (astr req 1) (astr req 2)); mret (reply_bulk r).

Definition cmd_LINSERT : DataHandler := λ db req,
  if negb (argc req =? 5)%nat || anull req 1 || anull req 2 || anull req 3 || anull req 4
  then mret (wrong_args "linsert")
  else
    let where_ := upperArg (astr req 2) in
    let before := bool_decide (where_ = "BEFORE") in
    if negb before && negb (bool_decide (where_ = "AFTER")) then mret syntax_error
    else
      r ← timed (listInsert db (astr req 1) before (astr req 3) (astr req 4));
      mret (if res_ret r =? -1 then err_reply r
            else if res_ret r =? -2 then resp_integer 0 else resp_integer (res_ret r)).

(** ** Sets *)

(** [SADD], [SREM], [ZREM]: the members from the third argument on. *)
Definition members_handler (cmd : string)
    (op : Z → string → list string → Z → KM (Res Z unit)) : DataHandler := λ db req,
  if (argc req <? 3)%nat || anull req 1 then mret (wrong_args cmd)
  else
    match strs_from 2 req with
    | None => mret syntax_error
    | Some members => r ← timed (op db (astr req 1) members); mret (reply_count r)
    end.

Definition cmd_SADD : DataHandler := members_handler "sadd" setAdd.
Definition cmd_SREM : DataHandler := members_handler "srem" setRem.

Definition cmd_SMEMBERS : DataHandler := λ db req,
  if negb (argc req =? 2)%nat || anull req 1 then mret (wrong_args "smembers")
  else r ← timed (setMembers db (astr req 1)); mret (reply_found_bulks r).

(** [if(n < 0) return err; return integer(found ? n : 0);] *)
Definition card_reply (r : Res Z bool) : RespValue :=
  if res_ret r <? 0 then err_reply r else resp_integer (if res_out r then res_ret r else 0).

Definition cmd_SCARD : DataHandler := λ db req,
  if negb (argc req =? 2)%nat || anull req 1 then mret (wrong_args "scard")
  else r ← timed (setCard db (astr req 1)); mret (card_reply r).

Definition cmd_SISMEMBER : DataHandler := λ db req,
  if negb (argc req =? 3)%nat || anull req 1 || anull req 2 then mret (wrong_args "sismember")
  else
    r ← timed (setIsMember db (astr req 1) (astr req 2));
    mret (if res_ret r : bool then resp_integer (if (res_out r).1 : bool then 1 else 0)
          else err_reply r).

Definition cmd_SPOP : DataHandler := λ db req,
  if negb (argc req =? 2)%nat || anull req 1 then mret (wrong_args "spop")
  else r ← timed (spop db (astr req 1)); mret (reply_bulk r).

(** [SINTER], [SUNION], [SDIFF]. *)
Definition algebra_handler (cmd : string)
    (op : Z → list string → Z → KM (Res bool (list string))) : DataHandler := λ db req,
  if (argc req <? 2)%nat then mret (wrong_args cmd)
  else
    match strs_from 1 req with
    | None => mret syntax_error
    | Some keys => r ← timed (op db keys); mret (reply_bulks r)
    end.

Definition cmd_SINTER : DataHandler := algebra_handler "sinter" setInter.
Definition cmd_SUNION : DataHandler := algebra_handler "sunion" setUnion.
Definition cmd_SDIFF : DataHandler := algebra_handler "sdiff" setDiff.

Definition cmd_SINTERSTORE : DataHandler := members_handler "sinterstore" setInterStore.
Definition cmd_SUNIONSTORE : DataHandler := members_handler "sunionstore" setUnionStore.
Definition cmd_SDIFFSTORE : DataHandler := members_handler "sdiffstore" setDiffStore.

(** ** Sorted sets *)

(** The flags of [ZADD]; the arguments from the first other one on. *)
Fixpoint zadd_flags (l : list RespValue) (opt : ZaddOptions) : option (ZaddOptions * list RespValue) :=
  match l with
  | [] => Some (opt, [])
  | v :: l' =>
      if r_is_null v then None
      else
        let flag := upperArg (r_str v) in
        let '(mkZadd n x g l_ c) := opt in
        if bool_decide (flag = "NX") then zadd_flags l' (mkZadd true x g l_ c)
        else if bool_decide (flag = "XX") then zadd_flags l' (mkZadd n true g l_ c)
        else if bool_decide (flag = "GT") then zadd_flags l' (mkZadd n x true l_ c)
        else if bool_decide (flag = "LT") then zadd_flags l' (mkZadd n x g true c)
        else if bool_decide (flag = "CH") then zadd_flags l' (mkZadd n x g l_ true)
        else Some (opt, l)
  end.

Fixpoint zadd_members (l : list RespValue) : RespValue + list (double * string) :=
  match l with
  | s :: m :: l =>
      if r_is_null s || r_is_null m then inl syntax_error
      else
        match parseDoubleArg s with
        | None => inl err_float
        | Some score =>
            match zadd_members l with
            | inl e => inl e
            | inr members => inr ((score, r_str m) :: members)
            end
        end
  | _ => inr []
  end.

Definition cmd_ZADD : DataHandler := λ db req,
  if (argc req <? 4)%nat || anull req 1 then mret (wrong_args "zadd")
  else
    match zadd_flags (drop 2 (r_array req)) (mkZadd false false false false false) with
    | None => mret syntax_error
    | Some (opt, rest) =>
        if Nat.odd (length rest) then mret syntax_error
        else
          match zadd_members rest with
          | inl e => mret e
          | inr members =>
              r ← timed (zaddOpt db (astr req 1) opt members); mret (reply_count r)
          end
    end.

Definition cmd_ZREM : DataHandler := members_handler "zrem" zrem.

Definition cmd_ZSCORE : DataHandler := λ db req,
  if negb (argc req =? 3)%nat || anull req 1 || anull req 2 then mret (wrong_args "zscore")
  else
    r ← timed (zscore db (astr req 1) (astr req 2));
    mret (if res_ret r : bool then opt_bulk (formatScore <$> res_out r) else err_reply r).

Definition cmd_ZCARD : DataHandler := λ db req,
  if negb (argc req =? 2)%nat || anull req 1 then mret (wrong_args "zcard")
  else r ← timed (zcard db (astr req 1)); mret (card_reply r).

(** Members, with their scores on request. *)
Definition scored_reply (with_scores : bool) (r : Res bool (bool * list (string * double)))
  : RespValue :=
  if res_ret r
  then resp_array ((res_out r).2 ≫= λ p,
         resp_bulk p.1 :: (if with_scores then [resp_bulk (formatScore p.2)] else []))
  else err_reply r.

Definition dispatchZrange (reverse : bool) (cmd : string) : DataHandler := λ db req,
  if (argc req <? 4)%nat || anull req 1 || anull req 2 || anull req 3 then mret (wrong_args cmd)
  else
    match parseInt64Arg (arg req 2), parseInt64Arg (arg req 3) with
    | Some start, Some stop =>
        let with_scores := (5 <=? argc req)%nat && negb (anull req 4) &&
                           bool_decide (upperArg (astr req 4) = "WITHSCORES") in
        r ← timed (zrange db (astr req 1) start stop reverse);
        mret (scored_reply with_scores r)
    | _, _ => mret err_integer
    end.

Definition cmd_ZRANGE : DataHandler := dispatchZrange false "zrange".
Definition cmd_ZREVRANGE : DataHandler := dispatchZrange true "zrevrange".

Definition cmd_ZINCRBY : DataHandler := λ db req,
  if negb (argc req =? 4)%nat || anull req 1 || anull req 2 || anull req 3
  then mret (wrong_args "zincrby")
  else
    match parseDoubleArg (arg req 2) with
    | None => mret err_float
    | Some increment =>
        r ← timed (zincrby db (astr req 1) (astr req 3) increment);
        mret (if res_ret r : bool
              then resp_bulk (formatScore (from_option fst d_zero (res_out r)))
              else err_reply r)
    end.

Definition rank_handler (reverse : bool) (cmd : string) : DataHandler := λ db req,
  if negb (argc req =? 3)%nat || anull req 1 || anull req 2 then mret (wrong_args cmd)
  else
    r ← timed (zrank db (astr req 1) (astr req 2) reverse);
    mret (if res_ret r : bool
          then if 0 <=? (res_out r).1 then resp_integer (res_out r).1 else resp_nullBulk
          else err_reply r).

Definition cmd_ZRANK : DataHandler := rank_handler false "zrank".
Definition cmd_ZREVRANK : DataHandler := rank_handler true "zrevrank".

(** The options of [dispatchZrangeByScore]: [WITHSCORES], [LIMIT offset count]. *)
Fixpoint byscore_opts (l : list RespValue) (withscores : bool) (offset count : Z)
  : option (bool * Z * Z) :=
  match l with
  | [] => Some (withscores, offset, count)
  | v :: l =>
      if r_is_null v then None
      else
        let opt := upperArg (r_str v) in
        if bool_decide (opt = "WITHSCORES") then byscore_opts l true offset count
        else if bool_decide (opt = "LIMIT") then
          match l with
          | a :: b :: l =>
              match parseInt64Arg' a, parseInt64Arg' b with
              | Some offset, Some count => byscore_opts l withscores offset count
              | _, _ => None
              end
          | _ => None
          end
        else None
  end.

Definition dispatchZrangeByScore (reverse : bool) (cmd : string) : DataHandler := λ db req,
  if (argc req <? 4)%nat || anull req 1 || anull req 2 || anull req 3 then mret (wrong_args cmd)
  else
    match byscore_opts (drop 4 (r_array req)) false 0 (-1) with
    | None => mret syntax_error
    | Some (withscores, offset, count) =>
        r ← timed (zrangeByScore db (astr req 1) (astr req 2) (astr req 3) reverse offset count);
        mret (scored_reply withscores r)
    end.

Definition cmd_ZRANGEBYSCORE : DataHandler := dispatchZrangeByScore false "zrangebyscore".
Definition cmd_ZREVRANGEBYSCORE : DataHandler := dispatchZrangeByScore true "zrevrangebyscore".

Definition cmd_ZCOUNT : DataHandler := λ db req,
  if negb (argc req =? 4)%nat || anull req 1 || anull req 2 || anull req 3
  then mret (wrong_args "zcount")
  else r ← timed (zcount db (astr req 1) (astr req 2) (astr req 3)); mret (reply_count r).

Definition zpop_handler (max : bool) (cmd : string) : DataHandler := λ db req,
  if negb (argc req =? 2)%nat || anull req 1 then mret (wrong_args cmd)
  else
    r ← timed (zpop max db (astr req 1));
    mret (if res_ret r : bool
          then match res_out r with
               | None => resp_array []
               | Some (member, score) =>
                   resp_array [resp_bulk member; resp_bulk (to_string_double score)]
               end
          else err_reply r).

Definition cmd_ZPOPMIN : DataHandler := zpop_handler false "zpopmin".
Definition cmd_ZPOPMAX : DataHandler := zpop_handler true "zpopmax".

(** ** Streams *)

Definition cmd_XADD : DataHandler := λ db req,
  if (argc req <? 4)%nat || anull req 1 || anull req 2 then mret (wrong_args "xadd")
  else if Nat.odd (argc req - 3) then mret syntax_error
  else
    match pairs_from 3 req with
    | None => mret syntax_error
    | Some fields =>
        r ← timed (xadd db (astr req 1) (astr req 2) fields);
        mret (if res_ret r : bool then resp_bulk (res_out r) else err_reply r)
    end.

Definition cmd_XLEN : DataHandler := λ db req,
  if negb (argc req =? 2)%nat || anull req 1 then mret (wrong_args "xlen")
  else r ← timed (xlen db (astr req 1)); mret (reply_count r).

(** [encodeStreamEntries]: the fields by ascending name, in the entry's own array. *)
Definition encodeStreamEntries (entries : list StreamEntry) : RespValue :=
  resp_array ((λ e, resp_array (resp_bulk (se_id e) ::
    (map_iter (se_fields e) ≫= λ p, [resp_bulk p.1; resp_bulk p.2]))) <$> entries).

Definition range_handler (rev : bool) (cmd : string) : DataHandler := λ db req,
  if (argc req <? 4)%nat || anull req 1 || anull req 2 || anull req 3 then mret (wrong_args cmd)
  else
    match (if (5 <=? argc req)%nat then parseInt64Arg (arg req 4) else Some (-1)) with
    | None => mret err_integer
    | Some count =>
        r ← timed (xrange db (astr req 1) (astr req 2) (astr req 3) count rev);
        mret (if res_ret r : bool then encodeStreamEntries (res_out r).2 else err_reply r)
    end.

Definition cmd_XRANGE : DataHandler := range_handler false "xrange".
Definition cmd_XREVRANGE : DataHandler := range_handler true "xrevrange".

(** The reply of [XREAD] and [XREADGROUP]: the entries of each stream. *)
Definition streams_reply (r : Res bool (list (string * list StreamEntry))) : RespValue :=
  if res_ret r
  then resp_array ((λ p, resp_array [resp_bulk p.1; encodeStreamEntries p.2]) <$> res_out r)
  else err_reply r.

(** [XREAD]: the keys start after [STREAMS], at [key_start + 1], and end before [mid]. *)
Definition cmd_XREAD : DataHandler := λ db req,
  if (argc req <? 4)%nat then mret (wrong_args "xread")
  else
    match (if is_bulk (arg req 1) && bool_decide (upperArg (astr req 1) = "COUNT")
           then if (argc req <? 5)%nat then None
                else (λ n, (n, 3%nat)) <$> parseInt64Arg (arg req 2)
           else Some (-1, 1%nat)) with
    | None => mret syntax_error
    | Some (count, key_start) =>
        if (argc req <? key_start + 2)%nat || anull req key_start ||
           negb (bool_decide (upperArg (astr req key_start) = "STREAMS")) then mret syntax_error
        else
          let mid := ((argc req - key_start - 1) / 2 + key_start)%nat in
          if (mid <=? key_start)%nat || (argc req <=? mid)%nat then mret syntax_error
          else
            match strs (take (mid - (key_start + 1)) (drop (key_start + 1) (r_array req))),
                  strs (drop mid (r_array req)) with
            | Some keys, Some ids =>
                r ← timed (xread db keys ids count); mret (streams_reply r)
            | _, _ => mret syntax_error
            end
    end.

Definition cmd_XDEL : DataHandler := members_handler "xdel" xdel.

Definition cmd_XGROUP : DataHandler := λ db req,
  if (argc req <? 4)%nat || anull req 1 || anull req 2 || anull req 3 then mret (wrong_args "xgroup")
  else
    let sub := upperArg (astr req 1) in
    if bool_decide (sub = "CREATE") then
      let mkstream := (5 <=? argc req)%nat && negb (anull req 4) &&
                      bool_decide (upperArg (astr req 4) = "MKSTREAM") in
      let id_idx := if mkstream then 5%nat else 4%nat in
      if (argc req <=? id_idx)%nat || anull req id_idx then mret syntax_error
      else
        r ← timed (xgroupCreate db (astr req 2) (astr req 3) (astr req id_idx) mkstream);
        mret (reply_ok r)
    else if bool_decide (sub = "DESTROY") then
      r ← timed (xgroupDestroy db (astr req 2) (astr req 3)); mret (reply_ok r)
    else mret (resp_err "ERR unknown XGROUP subcommand").

Definition cmd_XREADGROUP : DataHandler := λ db req,
  if (argc req <? 6)%nat then mret (wrong_args "xreadgroup")
  else if negb (bool_decide (upperArg (astr req 1) = "GROUP")) || anull req 2 || anull req 3
  then mret syntax_error
  else
    match (if bool_decide (upperArg (astr req 4) = "COUNT")
           then if (argc req <? 7)%nat then None
                else (λ n, (n, 6%nat)) <$> parseInt64Arg (arg req 5)
           else Some (-1, 4%nat)) with
    | None => mret syntax_error
    | Some (count, streams_idx) =>
        if (argc req <=? streams_idx)%nat ||
           negb (bool_decide (upperArg (astr req streams_idx) = "STREAMS")) then mret syntax_error
        else
          let n := ((argc req - streams_idx - 1) / 2)%nat in
          let rest := drop (streams_idx + 1) (r_array req) in
          r ← timed (xreadGroup db (astr req 2) (astr req 3) (r_str <$> take n rest)
                       (r_str <$> drop n rest) count);
          mret (streams_reply r)
    end.

Definition cmd_XACK : DataHandler := λ db req,
  if (argc req <? 4)%nat || anull req 1 || anull req 2 then mret (wrong_args "xack")
  else
    match strs_from 3 req with
    | None => mret syntax_error
    | Some ids => r ← timed (xack db (astr req 1) (astr req 2) ids); mret (reply_count r)
    end.

Definition cmd_XTRIM : DataHandler := λ db req,
  if (argc req <? 4)%nat || anull req 1 || anull req 2 || anull req 3 then mret (wrong_args "xtrim")
  else if negb (bool_decide (upperArg (astr req 2) = "MAXLEN")) then mret syntax_error
  else
    let count_idx := if bool_decide (upperArg (astr req 3) = "~") then 4%nat else 3%nat in
    match (if (argc req <=? count_idx)%nat then None else parseInt64Arg' (arg req count_idx)) with
    | None => mret syntax_error
    | Some maxlen => r ← timed (xtrim db (astr req 1) maxlen); mret (reply_count r)
    end.

Definition summary_reply (r : Res bool XPendingSummary) : RespValue :=
  if res_ret r
  then
    let s := res_out r in
    let bound id := resp_bulk (if bool_decide (id = "") then "0-0" else id) in
    resp_array [resp_integer (xp_count s); bound (xp_min_id s); bound (xp_max_id s);
                resp_array ((λ cp, resp_array [resp_bulk cp.1; resp_integer cp.2]) <$> xp_consumers s)]
  else err_reply r.

Definition detail_reply (r : Res bool (list XPendingDetail)) : RespValue :=
  if res_ret r
  then resp_array ((λ d, resp_array [resp_bulk (xd_id d); resp_bulk (xd_consumer d);
         resp_integer (xd_idle_ms d); resp_integer (xd_delivery_count d)]) <$> res_out r)
  else err_reply r.

(** The long form takes its count and consumer from the places that suit a start of
    ["-"]. *)
Definition cmd_XPENDING : DataHandler := λ db req,
  if (argc req <? 3)%nat || anull req 1 || anull req 2 then mret (wrong_args "xpending")
  else if (6 <=? argc req)%nat then
    let idx := if negb (anull req 3) && bool_decide (astr req 3 = "-") then 4%nat else 3%nat in
    let count := if (idx + 1 <? argc req)%nat then default 10 (parseInt64Arg' (arg req (idx + 1))) else 10 in
    let consumer := if (idx + 2 <? argc req)%nat && negb (anull req (idx + 2))
                    then astr req (idx + 2) else "" in
    let start := if anull req 3 then "-" else astr req 3 in
    let end_ := if anull req 4 then "+" else astr req 4 in
    r ← timed (xpendingRange db (astr req 1) (astr req 2) start end_ count consumer);
    mret (detail_reply r)
  else
    r ← timed (xpendingSummary db (astr req 1) (astr req 2)); mret (summary_reply r).

(** The identifiers of [XCLAIM] and whether [FORCE] is among them. *)
Fixpoint claim_args (l : list RespValue) : option (list string * bool) :=
  match l with
  | [] => Some ([], false)
  | v :: l =>
      if r_is_null v then None
      else
        '(ids, force) ← claim_args l;
        if bool_decide (upperArg (r_str v) = "FORCE") then Some (ids, true)
        else Some (r_str v :: ids, force : bool)
  end.

Definition claimed_reply (r : Res bool (list StreamEntry)) : RespValue :=
  if res_ret r
  then resp_array ((λ e, resp_array [resp_bulk (se_id e);
         resp_array (hash_iter (se_fields e) ≫= λ p, [resp_bulk p.1; resp_bulk p.2])]) <$> res_out r)
  else err_reply r.

Definition cmd_XCLAIM : DataHandler := λ db req,
  if (argc req <? 6)%nat || anull req 1 || anull req 2 || anull req 3 || anull req 4
  then mret (wrong_args "xclaim")
  else
    match parseInt64Arg' (arg req 4) with
    | None => mret err_integer
    | Some min_idle =>
        match claim_args (drop 5 (r_array req)) with
        | None => mret syntax_error
        | Some (ids, force) =>
            r ← timed (xclaim db (astr req 1) (astr req 2) (astr req 3) min_idle ids force);
            mret (claimed_reply r)
        end
    end.
End handlers.
