(* ===== verification/CmdRdb.v ===== *)
(** * DUMP and RESTORE

    The two handlers of [commands_p0p1.cc] over [Rdb.v].  [RESTORE] is not among
    the commands of [Dispatch.builtin]: what it takes from a client can break the
    invariant that every other command keeps ([restore_forged]). *)

From stdpp Require Import options.
From S2P Require Import Prelude.
From S2P Require Import CStd.
From S2P Require Import Store.
From S2P Require Import StoreFacts.
From S2P Require Import KeySpace.
From S2P Require Import Resp.
From S2P Require Import Request.
From S2P Require Import Rdb.
From S2P Require Import RdbFacts.

#[local] Set Default Proof Using "Type*".

Section handlers.
Context `{impl : !StdImpl} (reserves : Z → bool).

Definition cmd_DUMP : DataHandler := λ db req,
  if negb (argc req =? 2)%nat || anull req 1 then mret (wrong_args "dump")
  else
    r ← timed (λ now, gets (dumpKey db (astr req 1) now));
    mret (match r with Some (_, payload) => resp_bulk (text payload) | None => resp_nullBulk end).

(** [None]: an exception, or an entry outside the model. *)
Definition restore_reply (o : Outcome) : option RespValue :=
  match o with
  | Done r => Some (if res_ret r then resp_ok else err_reply r)
  | Threw | NoType => None
  end.

Definition cmd_RESTORE (db : Z) (req : RespValue) : DM (option RespValue) :=
  if (argc req <? 4)%nat || anull req 1 || anull req 2 || anull req 3 then mret (Some (wrong_args "restore"))
  else
    match parseInt64Arg' (arg req 2) with
    | None => mret (Some (resp_err "ERR invalid TTL value, must be an integer"))
    | Some ttl_ms =>
        let replace := existsb (λ v, negb (r_is_null v) && bool_decide (upperArg (r_str v) = "REPLACE"))
                         (drop 4 (r_array req)) in
        o ← timed (restoreKey reserves db (astr req 1) ttl_ms (chars (astr req 3)) replace);
        mret (restore_reply o)
    end.

(** What [DUMP] answers for a key, [RESTORE] takes under another. *)
Lemma dump_then_restore db key db2 key2 req req2 e ttl s clk s2 clk2 :
  argc req = 2%nat → anull req 1 = false → astr req 1 = key →
  live s (clk 0%nat) db key = Some e → wf s → wf s2 →
  in_i64 (e_expire_at_ms e) → storable_value reserves (entry_value e) →
  argc req2 = 4%nat → anull req2 1 = false → anull req2 2 = false → anull req2 3 = false →
  astr req2 1 = key2 → parseInt64Arg' (arg req2 2) = Some ttl →
  astr req2 3 = r_str (cmd_DUMP db req (s, clk)).2 →
  (cmd_DUMP db req (s, clk)).1.1 = s ∧
  ∃ s2' o, cmd_RESTORE db2 req2 (s2, clk2) = ((s2', λ k, clk2 (S k)), restore_reply o) ∧
    restored db2 key2 ttl (clk2 0%nat) false (entry_value e) s2 (s2', o).
Proof.
  intros Hn H1 Hkey He Hs Hs2 Hx Hv Hn2 G1 G2 G3 Hkey2 Httl Hpay.
  destruct (dump_restore reserves db key (clk 0%nat) s e db2 key2 ttl false (clk2 0%nat) s2)
    as (ttl0 & payload & Hd & Hr); [done..|].
  assert (cmd_DUMP db req (s, clk) = ((s, λ k, clk (S k)), resp_bulk (text payload))) as Hdump.
  { unfold cmd_DUMP. rewrite Hn, H1, Hkey. cbn [Nat.eqb negb orb]. rewrite bind_run. unfold timed, gets. cbn [fst snd]. by rewrite Hd. }
  rewrite Hdump in Hpay |- *. split; [done|]. simpl in Hpay.
  exists (restoreKey reserves db2 key2 ttl payload false (clk2 0%nat) s2).1,
         (restoreKey reserves db2 key2 ttl payload false (clk2 0%nat) s2).2.
  split; [|by destruct (restoreKey _ _ _ _ _ _ _ _)].
  unfold cmd_RESTORE. rewrite Hn2, G1, G2, G3, Httl, Hkey2, Hpay. cbn [Nat.ltb Nat.leb orb].
  rewrite String.list_ascii_of_string_of_list_ascii.
  assert (drop 4 (r_array req2) = []) as -> by (apply drop_ge; unfold argc in Hn2; lia).
  cbn [existsb]. rewrite bind_run. unfold timed. cbn [fst snd].
  by destruct (restoreKey _ _ _ _ _ _ _ _).
Qed.

(** A payload nobody dumped, for a key that is not there. *)
Lemma restore_breaks db key s clk : view s (clk 0%nat) db key = None →
  ¬ wf (cmd_RESTORE db (bulks ["RESTORE"; key; "0"; text (forged 2)]) (s, clk)).1.1.
Proof.
  intros Hv. destruct (restore_forged reserves db key (clk 0%nat) s Hv) as [(_ & _ & Hw) _].
  assert (parseInt64Arg' (resp_bulk "0") = Some 0) as Hp by by vm_compute.
  unfold cmd_RESTORE. set (req := bulks _).
  change (arg req 2) with (resp_bulk "0"). change (astr req 1) with key. change (astr req 3) with (text (forged 2)).
  change ((argc req <? 4)%nat || anull req 1 || anull req 2 || anull req 3) with false. rewrite Hp.
  change (drop 4 (r_array req)) with (@nil RespValue). cbn [existsb]. rewrite bind_run. unfold timed. cbn [fst snd].
  rewrite String.list_ascii_of_string_of_list_ascii. by destruct (restoreKey _ _ _ _ _ _ _ _).
Qed.
End handlers.
