(* ===== verification/Server.v ===== *)
(** * The state commands act on

    [Env] is what a handler can reach: its connection's [KvContext] ([kv_context.h]) and
    the server's shared objects.  A handler runs in [M], a state monad over [Env] whose
    [None] is fuel running out in a loop that waits for other connections. *)

From Stdlib Require Import Ascii.
From stdpp Require Import options.
From S2P Require Import Prelude.
From S2P Require Import CStd.
From S2P Require Import Store.
From S2P Require Import Resp.
From S2P Require Import Slowlog.
From S2P Require Import PubSub.
From S2P Require Import Request.

#[local] Set Default Proof Using "Type*".
#[local] Set Warnings "-register-all".

(** ** One connection *)

Record WatchEntry : Type := mkWatch { we_db : Z; we_key : string; we_token : Z }.

(** [ctx.pubsub] and [ctx.replication] are null or point to the server's; [c_session] is
    what [ctx.session.lock()] gives. *)
Record KvContext : Type := mkCtx {
  c_db : Z;
  c_quit : bool;
  c_authenticated : bool;
  c_pubsub_mode : bool;
  c_multi_mode : bool;
  c_repl_apply : bool;
  c_replica_connection : bool;
  c_client_id : Z;
  c_client_name : string;
  c_client_addr : string;
  c_multi_queue : list RespValue;
  c_watched : list WatchEntry;
  c_pubsub : bool;
  c_session : option Sess
}.

Definition KvContext0 : KvContext :=
  mkCtx 0 false false false false false false 0 "" "" [] [] false None.

Definition set_c_db (v : Z) (c : KvContext) : KvContext :=
  let '(mkCtx _ b d e f g h i j k l m n o) := c in mkCtx v b d e f g h i j k l m n o.
Definition set_c_quit (v : bool) (c : KvContext) : KvContext :=
  let '(mkCtx a _ d e f g h i j k l m n o) := c in mkCtx a v d e f g h i j k l m n o.
Definition set_c_authenticated (v : bool) (c : KvContext) : KvContext :=
  let '(mkCtx a b _ e f g h i j k l m n o) := c in mkCtx a b v e f g h i j k l m n o.
Definition set_c_pubsub_mode (v : bool) (c : KvContext) : KvContext :=
  let '(mkCtx a b d _ f g h i j k l m n o) := c in mkCtx a b d v f g h i j k l m n o.
Definition set_c_multi (mode : bool) (queue : list RespValue) (c : KvContext) : KvContext :=
  let '(mkCtx a b d e _ g h i j k _ m n o) := c in mkCtx a b d e mode g h i j k queue m n o.
Definition set_c_replica_connection (v : bool) (c : KvContext) : KvContext :=
  let '(mkCtx a b d e f g _ h i j k l m n) := c in mkCtx a b d e f g v h i j k l m n.
Definition set_c_client_name (v : string) (c : KvContext) : KvContext :=
  let '(mkCtx a b d e f g h i _ k l m n o) := c in mkCtx a b d e f g h i v k l m n o.
Definition set_c_watched (v : list WatchEntry) (c : KvContext) : KvContext :=
  let '(mkCtx a b d e f g h i j k l _ n o) := c in mkCtx a b d e f g h i j k l v n o.

(** ** The shared objects *)

(** A blocked client ([ListWaiter]).  The record lives on the blocked fiber's stack; the
    hub holds its address, which is the number it has in [w_waiter]. *)
Record ListWaiter : Type := mkWaiter {
  lw_session : option Sess;
  lw_db : Z;
  lw_keys : list string;
  lw_pop_right : bool;
  lw_deadline_ms : Z;
  lw_done : bool;
  lw_result_key : string;
  lw_result_value : string
}.

Inductive Role : Type := Master | Slave.

#[export] Instance Role_eq_dec : EqDecision Role.
Proof. solve_decision. Defined.

(** What other objects are told, in order: a command appended to the append-only file, a
    command propagated to the replicas, bytes pushed to a subscriber. *)
Inductive Event : Type :=
  | EvAof (cmd : RespValue)
  | EvPropagate (cmd : RespValue)
  | EvPush (s : Sess) (msg : RespValue).

Record World : Type := mkWorld {
  w_store : KvStore;
  w_clock : nat → Z;
  w_pubsub : PubSubHub;
  w_alive : Sess → bool;
  w_waiters : list nat;
  w_waiter : gmap nat ListWaiter;
  w_slowlog : Slowlog;
  w_pass : string;
  w_aof_enabled : option bool;
  w_role : option Role;
  w_events : list Event
}.

(** [w_aof_enabled] is [None] without an AOF object, [w_role] without a replication
    manager; [w_pass] is [g_require_pass]. *)
Definition set_w_data (s : KvStore) (clk : nat → Z) (w : World) : World :=
  let '(mkWorld _ _ c d e f g h i j k) := w in mkWorld s clk c d e f g h i j k.
Definition set_w_pubsub (v : PubSubHub) (w : World) : World :=
  let '(mkWorld a b _ d e f g h i j k) := w in mkWorld a b v d e f g h i j k.
Definition set_w_alive (v : Sess → bool) (w : World) : World :=
  let '(mkWorld a b c _ e f g h i j k) := w in mkWorld a b c v e f g h i j k.
Definition set_w_waiters (l : list nat) (m : gmap nat ListWaiter) (w : World) : World :=
  let '(mkWorld a b c d _ _ g h i j k) := w in mkWorld a b c d l m g h i j k.
Definition set_w_slowlog (v : Slowlog) (w : World) : World :=
  let '(mkWorld a b c d e f _ h i j k) := w in mkWorld a b c d e f v h i j k.
Definition set_w_events (v : list Event) (w : World) : World :=
  let '(mkWorld a b c d e f g h i j _) := w in mkWorld a b c d e f g h i j v.
Definition emit (e : Event) (w : World) : World := set_w_events (w_events w ++ [e]) w.

Record Env : Type := mkEnv { e_ctx : KvContext; e_world : World }.

(** ** The monad of handlers *)

Definition M (A : Type) : Type := Env → option (Env * A).

#[global] Instance M_ret : MRet M := λ A a e, Some (e, a).
#[global] Instance M_bind : MBind M := λ A B k m e,
  match m e with Some (e', a) => k a e' | None => None end.

Definition get_ctx : M KvContext := λ e, Some (e, e_ctx e).
Definition get_world : M World := λ e, Some (e, e_world e).
Definition upd_ctx (f : KvContext → KvContext) : M unit := λ e,
  Some (mkEnv (f (e_ctx e)) (e_world e), tt).
Definition upd_world (f : World → World) : M unit := λ e,
  Some (mkEnv (e_ctx e) (f (e_world e)), tt).
Definition diverge {A} : M A := λ _, None.

(** A data command's handler as a handler: it sees the database number, the store and the
    clock, and nothing else. *)
Definition data {A} (m : DM A) : M A := λ e,
  let w := e_world e in
  let '((s, clk), a) := m (w_store w, w_clock w) in
  Some (mkEnv (e_ctx e) (set_w_data s clk w), a).

Abbreviation Handler := (RespValue → M RespValue).

Definition data_handler (h : DataHandler) : Handler := λ req,
  c ← get_ctx; data (h (c_db c) req).

(** [KvStore::nowMs()] *)
Definition nowMs : M Z := data (λ d, ((d.1, λ k, d.2 (S k)), d.2 0%nat)).

Lemma M_bind_run {A B} (m : M A) (k : A → M B) e e' a : m e = Some (e', a) → (m ≫= k) e = k a e'.
Proof. unfold mbind, M_bind. by intros ->. Qed.

Lemma data_run {A} (m : DM A) e :
  data m e = Some (mkEnv (e_ctx e) (set_w_data (m (w_store (e_world e), w_clock (e_world e))).1.1
                                    (m (w_store (e_world e), w_clock (e_world e))).1.2 (e_world e)),
                   (m (w_store (e_world e), w_clock (e_world e))).2).
Proof. unfold data. by destruct (m _) as [[s clk] a]. Qed.
