(* ===== verification/Aof.v ===== *)
(** * The append-only file

    [AofLog] ([persistence/aof.cc]): the commands [rewrite] writes for the contents of a
    store, and [replay], which dispatches the commands of the file on a context of its
    own.  The file is its text; opening, writing and renaming it are not modelled. *)

From Stdlib Require Import Ascii.
From stdpp Require Import options.
From stdpp Require Import vector.
From S2P Require Import Prelude.
From S2P Require Import CStd.
From S2P Require Import Double.
From S2P Require Import Store.
From S2P Require Import Resp.
From S2P Require Import RespReader.
From S2P Require Import Request.
From S2P Require Import Server.

#[local] Set Default Proof Using "Type*".

(** ** The settings *)

Inductive AofFsyncPolicy : Type := Always | EverySec | No.

Record AofLog : Type := mkAof { m_path : string; m_enabled : bool; m_fsync : AofFsyncPolicy }.
Definition AofLog0 : AofLog := mkAof "./appendonly.aof" false EverySec.

Definition setPath (path : string) (a : AofLog) : AofLog := mkAof path (m_enabled a) (m_fsync a).
Definition setEnabled (b : bool) (a : AofLog) : AofLog := mkAof (m_path a) b (m_fsync a).
Definition setFsyncPolicy (p : AofFsyncPolicy) (a : AofLog) : AofLog := mkAof (m_path a) (m_enabled a) p.
Definition setFsyncPolicyString (policy : string) (a : AofLog) : AofLog :=
  let p := lowerStr policy in
  setFsyncPolicy (if bool_decide (p = "always") then Always
                  else if bool_decide (p = "no") then No else EverySec) a.
Definition fsyncPolicyString (a : AofLog) : string :=
  match m_fsync a with Always => "always" | No => "no" | EverySec => "everysec" end.

Lemma fsyncPolicyString_set a b : fsyncPolicyString (setFsyncPolicyString (fsyncPolicyString a) b) = fsyncPolicyString a.
Proof. unfold fsyncPolicyString at 2 3. by destruct (m_fsync a). Qed.

(** What [append] makes of the file. *)
Definition append (a : AofLog) (command : RespValue) (file : string) : string :=
  if m_enabled a then file +:+ encode command else file.

Section aof.
Context `{impl : !StdImpl}.

(** ** Rewriting *)

Definition makeRewriteArray (args : list string) : RespValue := bulks args.
Definition scoreToString : double → string := stream_double.

Definition ttl_sec (now expire : Z) : Z := Z.quot (i64 (i64 (expire - now) + 999)) 1000.

(** A stream's entry; [fields.at(name)] finds every name. *)
Definition rewrite_item (key : string) (se : StreamEntry) : RespValue :=
  makeRewriteArray (["XADD"; key; se_id se] ++
    (sort_strings (hash_iter (se_fields se)).*1 ≫= λ name, [name; default "" (se_fields se !! name)])).

(** The commands that make a value of its type. *)
Definition rewrite_value (now : Z) (key : string) (e : Entry) : list RespValue :=
  match e_type e with
  | ObjHash => (λ f, makeRewriteArray ["HSET"; key; f.1; f.2]) <$> hash_iter (e_hash e)
  | ObjList => match e_list e with [] => [] | l => [makeRewriteArray ("RPUSH" :: key :: l)] end
  | ObjSet => match hash_iter_set (e_set e) with [] => [] | l => [makeRewriteArray ("SADD" :: key :: l)] end
  | ObjZSet =>
      match map_iter (e_zset e) ≫= λ z, [scoreToString z.2; z.1] with
      | [] => [] | l => [makeRewriteArray ("ZADD" :: key :: l)]
      end
  | ObjStream => rewrite_item key <$> e_stream e
  | ObjString =>
      let ttl := ttl_sec now (e_expire_at_ms e) in
      if (now <? e_expire_at_ms e) && (0 <? ttl)
      then [makeRewriteArray ["SETEX"; key; to_string ttl; e_value e]]
      else [makeRewriteArray ["SET"; key; e_value e]]
  end.

Definition rewrite_expire (now : Z) (key : string) (e : Entry) : list RespValue :=
  let ttl := ttl_sec now (e_expire_at_ms e) in
  if (now <? e_expire_at_ms e) && negb (is_type ObjString e) && (0 <? ttl)
  then [makeRewriteArray ["EXPIRE"; key; to_string ttl]] else [].

Definition rewrite_key (now : Z) (kv : string * Entry) : list RespValue :=
  rewrite_value now kv.1 kv.2 ++ rewrite_expire now kv.1 kv.2.

(** One map of one shard; [SELECT] is written the first time a database comes up. *)
Definition rewrite_db (now : Z) (acc : list RespValue * gset Z) (p : Z * DbMap) : list RespValue * gset Z :=
  let '(out, db_done) := acc in
  (out ++ (if bool_decide (p.1 ∈ db_done) then [] else [makeRewriteArray ["SELECT"; to_string p.1]]) ++
   (filter (λ kv, isExpired kv.2 now = false) (hash_iter p.2) ≫= rewrite_key now),
   {[p.1]} ∪ db_done).

Definition buildRewriteCommands (now : Z) (s : KvStore) : list RespValue :=
  (foldl (rewrite_db now) ([], ∅) (vec_to_list (m_shards s) ≫= λ sh, hash_iter (m_dbs sh))).1.

(** The text [rewrite] puts in the file's place. *)
Definition rewrite (now : Z) (s : KvStore) : string := encode_all (buildRewriteCommands now s).

(** ** Replay *)

Context (reserves : Z → bool) (dispatch : Handler).

(** The loop over what is left of the file, [pos] characters into it; each command
    takes at least one character. *)
Fixpoint replay_loop (fuel : nat) (data : list ascii) (pos : nat) : M (Res bool unit) :=
  match data with
  | [] => mret (ok true tt)
  | _ =>
      match fuel with
      | O => diverge
      | S fuel =>
          match tryParse reserves data RespValue0 with
          | Some (POk, req, consumed) =>
              _ ← dispatch req;
              upd_ctx (set_c_quit false) ;;
              replay_loop fuel (drop consumed data) (pos + consumed)
          | Some (NeedMore, _, _) =>
              mret (fail false tt ("ERR truncated AOF at offset " +:+ to_string (Z.of_nat pos)))
          | Some (PError_, _, _) =>
              mret (fail false tt ("ERR corrupt AOF at offset " +:+ to_string (Z.of_nat pos)))
          | Some (Thrown, _, _) | None => diverge
          end
      end
  end.

(** [replay] of a file's text; the context is a new one, nobody's connection. *)
Definition replay (file : string) (w : World) : option (World * Res bool unit) :=
  '(e, r) ← replay_loop (S (String.length file)) (chars file) 0 (mkEnv KvContext0 w);
  Some (e_world e, r).
End aof.
