(* ===== verification/Blocking.v ===== *)
(** * Blocking list commands

    [BlockingListHub] ([blocking_list_hub.h], [blocking_list_hub.cc]) and the commands
    that go through it: the pushes, [BLPOP], [BRPOP] and [BRPOPLPUSH].  A waiting fiber
    yields until its waiter is done or its time is up; [yield] is what the other fibers
    do to the shared objects meanwhile. *)

From Stdlib Require Import Ascii SpecFloat.
From stdpp Require Import options.
From S2P Require Import Prelude.
From S2P Require Import CStd.
From S2P Require Import Double.
From S2P Require Import Store.
From S2P Require Import ListOps.
From S2P Require Import Resp.
From S2P Require Import Slowlog.
From S2P Require Import PubSub.
From S2P Require Import Request.
From S2P Require Import CmdKeys.
From S2P Require Import CmdColl.
From S2P Require Import Server.

#[local] Set Default Proof Using "Type*".

(** ** The hub *)

Definition addWaiter (p : nat) (w : World) : World :=
  set_w_waiters (w_waiters w ++ [p]) (w_waiter w) w.

(** [m_waiters.remove(waiter)] *)
Definition removeWaiter (p : nat) (w : World) : World :=
  set_w_waiters (filter (λ q, q ≠ p) (w_waiters w)) (w_waiter w) w.

Definition finish_waiter (key value : string) (lw : ListWaiter) : ListWaiter :=
  mkWaiter (lw_session lw) (lw_db lw) (lw_keys lw) (lw_pop_right lw) (lw_deadline_ms lw) true key value.

(** [cancelWaiters]: the session's waiters are marked done and leave the list. *)
Definition is_session_waiter (session : Sess) (w : World) (p : nat) : bool :=
  match w_waiter w !! p with
  | Some lw =>
      match lw_session lw with
      | Some s => w_alive w s && (s =? session)%nat
      | None => false
      end
  | None => false
  end.

Definition cancelWaiters (session : Sess) (w : World) : World :=
  let mine := is_session_waiter session w in
  let set_done lw := finish_waiter (lw_result_key lw) (lw_result_value lw) lw in
  set_w_waiters (filter (λ p, mine p = false) (w_waiters w))
    (foldl (λ m p, if mine p then alter set_done p m else m) (w_waiter w) (w_waiters w)) w.

Section hub.
Context `{impl : !StdImpl}.

(** [tryFulfill]: pop from the first of the waiter's keys that has something. *)
Fixpoint tryFulfill (db : Z) (pop_right : bool) (keys : list string) : DM (option (string * string)) :=
  match keys with
  | [] => mret None
  | key :: keys =>
      r ← timed (listPop db key (negb pop_right));
      match (if res_ret r : bool then res_out r else None) with
      | Some value => mret (Some (key, value))
      | None => tryFulfill db pop_right keys
      end
  end.

(** The scan of [onPush] over the waiters: the first one that can be served. *)
Fixpoint serve_first (db : Z) (key : string) (waiter : gmap nat ListWaiter) (l : list nat)
  : DM (option (nat * string * string)) :=
  match l with
  | [] => mret None
  | p :: l =>
      match waiter !! p with
      | None => serve_first db key waiter l
      | Some lw =>
          if negb (lw_db lw =? db) || negb (bool_decide (key ∈ lw_keys lw))
          then serve_first db key waiter l
          else
            r ← tryFulfill (lw_db lw) (lw_pop_right lw) (lw_keys lw);
            match r with
            | Some (k, v) => mret (Some (p, k, v))
            | None => serve_first db key waiter l
            end
      end
  end.

Definition onPush (db : Z) (key : string) : M unit :=
  w ← get_world;
  r ← data (serve_first db key (w_waiter w) (w_waiters w));
  match r with
  | None => mret tt
  | Some (p, k, v) =>
      upd_world (λ w, set_w_waiters (filter (λ q, q ≠ p) (w_waiters w))
                        (alter (finish_waiter k v) p (w_waiter w)) w)
  end.

(** ** The pushes *)

Definition push_handler (cmd : string) (left : bool) : Handler := λ req,
  if (argc req <? 3)%nat || anull req 1 then mret (wrong_args cmd)
  else
    match strs_from 2 req with
    | None => mret syntax_error
    | Some values =>
        c ← get_ctx;
        r ← data (timed (listPush (c_db c) (astr req 1) values left));
        if res_ret r <? 0 then mret (err_reply r)
        else onPush (c_db c) (astr req 1) ;; mret (resp_integer (res_ret r))
    end.

Definition cmd_LPUSH : Handler := push_handler "lpush" true.
Definition cmd_RPUSH : Handler := push_handler "rpush" false.

(** ** The blocking pops *)

(** [(int64_t)d]; out of range is undefined, the model takes what x86 gives. *)
Definition d_to_i64 (d : double) : Z :=
  match d with
  | S754_finite neg m e =>
      let v := if 0 <=? e then Zpos m * 2 ^ e else Zpos m / 2 ^ (- e) in
      let v := if neg then - v else v in
      if (INT64_MIN <=? v) && (v <=? INT64_MAX) then v else INT64_MIN
  | S754_zero _ => 0
  | _ => INT64_MIN
  end.

(** [(int64_t)(timeout * 1000.0)] *)
Definition timeout_ms (timeout : double) : Z :=
  d_to_i64 (SFmul prec emax timeout (of_Z 1000)).

Section blocking.
(** The other fibers, and whether this one runs under a scheduler. *)
Context (yield : World → World) (scheduled : bool).

(** [while(!waiter.done) { ...; YieldToHold(); }]: the waiter, or [None] when its time is
    up first.  [timed_wait] is whether the deadline is looked at. *)
Fixpoint wait_loop (fuel : nat) (p : nat) (timed_wait : bool) (deadline_ms : Z) : M (option ListWaiter) :=
  match fuel with
  | O => diverge
  | S fuel =>
      w ← get_world;
      match w_waiter w !! p with
      | None => diverge
      | Some lw =>
          if lw_done lw then mret (Some lw)
          else if timed_wait then
            now ← nowMs;
            if deadline_ms <=? now then mret None
            else upd_world yield ;; wait_loop fuel p timed_wait deadline_ms
          else upd_world yield ;; wait_loop fuel p timed_wait deadline_ms
      end
  end.

(** Register the waiter, wait, and take it off the list; its frame is gone afterwards. *)
Definition wait_on (fuel : nat) (timed_wait : bool) (deadline_ms : Z) (lw : ListWaiter)
  : M (option ListWaiter) :=
  w ← get_world;
  let p := fresh (dom (w_waiter w)) in
  upd_world (λ w, addWaiter p (set_w_waiters (w_waiters w) (<[p := lw]> (w_waiter w)) w)) ;;
  r ← wait_loop fuel p timed_wait deadline_ms;
  upd_world (λ w, let w := removeWaiter p w in
                  set_w_waiters (w_waiters w) (delete p (w_waiter w)) w) ;;
  mret r.

(** The first pass over the keys: the reply, when there is one already. *)
Fixpoint pop_any (db : Z) (left : bool) (keys : list string) : DM (option RespValue) :=
  match keys with
  | [] => mret None
  | key :: keys =>
      r ← timed (listPop db key left);
      if negb (res_ret r) then mret (Some (err_reply r))
      else
        match res_out r with
        | Some value => mret (Some (bulks [key; value]))
        | None => pop_any db left keys
        end
  end.

Definition new_waiter (c : KvContext) (keys : list string) (right : bool) (deadline_ms : Z) : ListWaiter :=
  mkWaiter (c_session c) (c_db c) keys right deadline_ms false "" "".

Definition err_timeout : RespValue := resp_err "ERR timeout is not a float or out of range".

Definition tryBlockingPop (fuel : nat) (right : bool) : Handler := λ req,
  if (argc req <? 3)%nat then mret (wrong_args (if right then "brpop" else "blpop"))
  else
    match strs (take (argc req - 2) (drop 1 (r_array req))) with
    | None => mret syntax_error
    | Some keys =>
        if bool_decide (keys = []) || anull req (argc req - 1) then mret syntax_error
        else
          match parseDoubleArg (arg req (argc req - 1)) with
          | None => mret err_timeout
          | Some timeout =>
              if d_ltb timeout d_zero then mret err_timeout
              else
                c ← get_ctx;
                first ← data (pop_any (c_db c) (negb right) keys);
                match first with
                | Some reply => mret reply
                | None =>
                    if d_eqb timeout d_zero || negb scheduled then mret resp_nullBulk
                    else
                      deadline_ms ← (if d_ltb d_zero timeout
                                     then now ← nowMs; mret (i64 (now + timeout_ms timeout))
                                     else mret (-1));
                      r ← wait_on fuel (0 <=? deadline_ms) deadline_ms
                            (new_waiter c keys right deadline_ms);
                      mret match r with
                           | None => resp_nullBulk
                           | Some lw =>
                               if bool_decide (lw_result_key lw = "") then resp_nullBulk
                               else bulks [lw_result_key lw; lw_result_value lw]
                           end
                end
          end
    end.

(** [BRPOPLPUSH]; the element a push handed over is pushed to [dst] by this fiber. *)
Definition tryBlockingRPopLPush (fuel : nat) : Handler := λ req,
  if negb (argc req =? 4)%nat || anull req 1 || anull req 2 || anull req 3
  then mret (wrong_args "brpoplpush")
  else
    let src := astr req 1 in
    let dst := astr req 2 in
    match parseDoubleArg' (arg req 3) with
    | None => mret err_timeout
    | Some timeout =>
        if d_ltb timeout d_zero then mret err_timeout
        else
          c ← get_ctx;
          r ← data (timed2 (listRPopLPush (c_db c) src dst));
          match (if res_ret r : bool then resp_bulk <$> res_out r else (λ _, err_reply r) <$> res_err r) with
          | Some reply => mret reply
          | None =>
              if d_eqb timeout d_zero || negb scheduled then mret resp_nullBulk
              else
                now ← nowMs;
                let deadline_ms := i64 (now + timeout_ms timeout) in
                r ← wait_on fuel true deadline_ms (new_waiter c [src] true deadline_ms);
                match r with
                | None => mret resp_nullBulk
                | Some lw =>
                    let v := lw_result_value lw in
                    if bool_decide (v = "") then mret resp_nullBulk
                    else
                      n ← data (timed (listPush (c_db c) dst [v] true));
                      if res_ret n <? 0 then mret (err_reply n)
                      else onPush (c_db c) dst ;; mret (resp_bulk v)
                end
          end
    end.
End blocking.
End hub.
