(* ===== verification/Dispatch.v ===== *)
(** * Command dispatch and transactions

    [CommandDispatch] ([command_dispatch.h], [command_dispatch.cc]): the table of
    handlers, the gates a request passes before its handler runs, [MULTI] queueing and
    [EXEC]; the handlers that act on the connection; and the step of
    [KvServer::handleClient] that logs what was executed. *)

From Stdlib Require Import Ascii.
From stdpp Require Import options.
From S2P Require Import Prelude.
From S2P Require Import CStd.
From S2P Require Import Double.
From S2P Require Import Store.
From S2P Require Import Resp.
From S2P Require Import Slowlog.
From S2P Require Import PubSub.
From S2P Require Import Request.
From S2P Require Import CmdKeys.
From S2P Require Import CmdColl.
From S2P Require Import CmdRdb.
From S2P Require Import Server.
From S2P Require Import Blocking.

#[local] Set Default Proof Using "Type*".

(** ** Command names *)

(** [cmdNameFromRequest], [upperCmd]. *)
Definition cmdNameFromRequest (request : RespValue) : string :=
  match r_type request, r_array request with
  | RArray, cmd :: _ => if negb (is_bulk cmd) || r_is_null cmd then "" else upperArg (r_str cmd)
  | _, _ => ""
  end.

Definition kMutating : list string :=
  ["SET"; "SETEX"; "SETNX"; "GETSET"; "GETDEL"; "GETEX"; "DEL"; "EXPIRE"; "PEXPIRE";
   "EXPIREAT"; "PEXPIREAT"; "PERSIST"; "MSET"; "MSETNX";
   "INCR"; "DECR"; "INCRBY"; "DECRBY"; "INCRBYFLOAT";
   "HSET"; "HDEL"; "HMSET"; "HSETNX"; "HINCRBY";
   "LPUSH"; "RPUSH"; "LPOP"; "RPOP"; "LTRIM"; "LSET"; "LREM"; "RPOPLPUSH"; "LINSERT";
   "SADD"; "SREM"; "SPOP"; "SINTERSTORE"; "SUNIONSTORE"; "SDIFFSTORE";
   "ZADD"; "ZREM"; "ZINCRBY"; "ZPOPMIN"; "ZPOPMAX";
   "APPEND"; "XADD"; "XDEL"; "XGROUP"; "XACK"; "XTRIM"; "XCLAIM";
   "RESTORE";
   "RENAME"; "RENAMENX";
   "FLUSHDB"; "FLUSHALL"; "SELECT"].

Definition isMutatingCommand (upper_name : string) : bool := bool_decide (upper_name ∈ kMutating).

Definition isSlaveWriteAllowed (upper_cmd : string) : bool :=
  bool_decide (upper_cmd ∈ ["AUTH"; "PING"; "INFO"; "ROLE"; "SLAVEOF"; "REPLICAOF"; "QUIT";
                            "CONFIG"; "CLIENT"]).

Definition isPubsubAllowedCommand (name : string) : bool :=
  bool_decide (name ∈ ["SUBSCRIBE"; "UNSUBSCRIBE"; "PSUBSCRIBE"; "PUNSUBSCRIBE"; "PING"; "QUIT"]).

(** [isCommandAuthExempt], [isAuthRequired] ([kv_config.cc]). *)
Definition isCommandAuthExempt (upper_cmd : string) : bool :=
  bool_decide (upper_cmd ∈ ["AUTH"; "PING"]).
Definition isAuthRequired (w : World) : bool := negb (bool_decide (w_pass w = "")).

(** ** Handlers on the connection *)

Definition cmd_PING : Handler := λ req,
  if (2 <=? argc req)%nat && negb (anull req 1) then mret (resp_bulk (astr req 1)) else mret resp_pong.

Definition cmd_ECHO : Handler := λ req,
  if (argc req <? 2)%nat || anull req 1 then mret (wrong_args "echo")
  else mret (resp_bulk (astr req 1)).

Definition cmd_SELECT : Handler := λ req,
  if negb (argc req =? 2)%nat then mret (wrong_args "select")
  else
    match parseDbIndex (arg req 1) with
    | None => mret (resp_err "ERR invalid DB index")
    | Some db => upd_ctx (set_c_db db) ;; mret resp_ok
    end.

Definition cmd_AUTH : Handler := λ req,
  if negb (argc req =? 2)%nat || anull req 1 then mret (wrong_args "auth")
  else
    w ← get_world;
    if negb (isAuthRequired w) || bool_decide (astr req 1 = w_pass w) then
      upd_ctx (set_c_authenticated true) ;; mret resp_ok
    else mret (resp_err "ERR invalid password").

Definition cmd_QUIT : Handler := λ _, upd_ctx (set_c_quit true) ;; mret resp_ok.

(** [CLIENT].  [clients] is what the server's list of sessions gives: the identifier, the
    address and the name of each. *)
Definition client_row (db : Z) (c : Z * string * string) : string :=
  let '(id, addr, name) := c in
  "id=" +:+ to_string id +:+ " addr=" +:+ addr +:+ " name=" +:+ name +:+ " db=" +:+ to_string db +:+ String "010" "".
Definition cmd_CLIENT (clients : list (Z * string * string)) : Handler := λ req,
  if (argc req <? 2)%nat || anull req 1 then mret (wrong_args "client")
  else
    c ← get_ctx;
    let sub := upperArg (astr req 1) in
    if bool_decide (sub = "ID") then mret (resp_integer (c_client_id c))
    else if bool_decide (sub = "SETNAME") then
      if negb (argc req =? 3)%nat || anull req 2 then mret (wrong_args "client setname")
      else upd_ctx (set_c_client_name (astr req 2)) ;; mret resp_ok
    else if bool_decide (sub = "LIST") then
      mret (resp_bulk (foldr String.append "" (client_row (c_db c) <$> clients)))
    else if bool_decide (sub = "GETNAME") then mret (resp_bulk (c_client_name c))
    else if bool_decide (sub = "KILL") then mret (resp_integer 0)
    else mret (resp_err "ERR unknown CLIENT subcommand").

(** [slowlogGet] and [SLOWLOG]. *)
Definition slow_row (e : SlowlogEntry) : RespValue :=
  resp_array [resp_integer (sl_id e); resp_integer (Z.quot (sl_timestamp_ms e) 1000);
    resp_integer (sl_duration_us e); bulks (sl_args e); resp_integer (sl_client_id e);
    resp_bulk (sl_client_addr e)].

Definition slowlogGet (req : RespValue) (log : Slowlog) : RespValue :=
  match (if (3 <=? argc req)%nat && negb (anull req 2) then parseInt64Arg' (arg req 2) else Some 10) with
  | None => err_integer
  | Some count => resp_array (slow_row <$> Slowlog.get count log)
  end.

Definition cmd_SLOWLOG : Handler := λ req,
  if (argc req <? 2)%nat || anull req 1 then mret (wrong_args "slowlog")
  else
    w ← get_world;
    let sub := upperArg (astr req 1) in
    if bool_decide (sub = "GET") then mret (slowlogGet req (w_slowlog w))
    else if bool_decide (sub = "LEN") then mret (resp_integer (Slowlog.len (w_slowlog w)))
    else if bool_decide (sub = "RESET") then
      upd_world (λ w, set_w_slowlog (reset (w_slowlog w)) w) ;; mret resp_ok
    else mret (resp_err "ERR unknown SLOWLOG subcommand").

(** *** Transactions *)

Definition clearWatch : KvContext → KvContext := set_c_watched [].

Section handlers.
Context `{impl : !StdImpl}.

(** [watchConflict]: some watched key's token has moved. *)
Fixpoint watch_conflict (l : list WatchEntry) : DM bool :=
  match l with
  | [] => mret false
  | we :: l =>
      t ← untimed (watchToken (we_db we) (we_key we));
      if negb (t =? we_token we) then mret true else watch_conflict l
  end.
Definition watchConflict : M bool := c ← get_ctx; data (watch_conflict (c_watched c)).

(** The loop of [WATCH]; a key already watched keeps its first token. *)
Fixpoint watch_loop (l : list RespValue) : M RespValue :=
  match l with
  | [] => mret resp_ok
  | v :: l =>
      if r_is_null v then mret syntax_error
      else
        c ← get_ctx;
        t ← data (untimed (watchToken (c_db c) (r_str v)));
        let dup := existsb (λ we, (we_db we =? c_db c) && bool_decide (we_key we = r_str v)) (c_watched c) in
        (if dup then mret tt
         else upd_ctx (λ c, set_c_watched (c_watched c ++ [mkWatch (c_db c) (r_str v) t]) c)) ;;
        watch_loop l
  end.

Definition cmd_WATCH : Handler := λ req,
  if (argc req <? 2)%nat then mret (wrong_args "watch") else watch_loop (drop 1 (r_array req)).

Definition cmd_UNWATCH : Handler := λ req,
  if negb (argc req =? 1)%nat then mret (wrong_args "unwatch")
  else upd_ctx clearWatch ;; mret resp_ok.

Definition cmd_MULTI : Handler := λ req,
  if negb (argc req =? 1)%nat then mret (wrong_args "multi")
  else
    c ← get_ctx;
    if c_multi_mode c then mret (resp_err "ERR MULTI calls can not be nested")
    else upd_ctx (set_c_multi true []) ;; mret resp_ok.

Definition cmd_DISCARD : Handler := λ req,
  if negb (argc req =? 1)%nat then mret (wrong_args "discard")
  else
    c ← get_ctx;
    if negb (c_multi_mode c) then mret (resp_err "ERR DISCARD without MULTI")
    else upd_ctx (λ c, clearWatch (set_c_multi false [] c)) ;; mret resp_ok.

(** What a mutating command that did not fail is logged to: [AofLog::append] checks that
    the log is enabled, [propagateCommand] that the server is a master. *)
Definition log_aof (cmd : RespValue) (w : World) : World :=
  if bool_decide (w_aof_enabled w = Some true) then emit (EvAof cmd) w else w.
Definition log_repl (cmd : RespValue) (w : World) : World :=
  match w_role w with Some Master => emit (EvPropagate cmd) w | _ => w end.

(** The loop of [EXEC] over the queue, [one] being [dispatchExecOne]. *)
Fixpoint exec_loop (one : Handler) (queue : list RespValue) (out : list RespValue) : M RespValue :=
  match queue with
  | [] => mret (resp_array out)
  | cmd :: queue =>
      rsp ← one cmd;
      (if negb (bool_decide (r_type rsp = RError)) && isMutatingCommand (cmdNameFromRequest cmd)
       then upd_world (λ w, log_repl cmd (log_aof cmd w)) else mret tt) ;;
      exec_loop one queue (out ++ [rsp])
  end.

Definition cmd_EXEC (one : Handler) : Handler := λ req,
  if negb (argc req =? 1)%nat then mret (wrong_args "exec")
  else
    c ← get_ctx;
    if negb (c_multi_mode c) then mret (resp_err "ERR EXEC without MULTI")
    else
      conflict ← watchConflict;
      upd_ctx (λ c, clearWatch (set_c_multi false [] c)) ;;
      if conflict : bool then mret resp_nullBulk
      else exec_loop one (c_multi_queue c) [].

(** *** Publish/subscribe *)

Definition makePubSubMetaReply (kind channel : string) (count : Z) : RespValue :=
  resp_array [resp_bulk kind; resp_bulk channel; resp_integer count].

(** [ctx.pubsub] and the locked session, or the error reply. *)
Definition with_session (k : Sess → M RespValue) : M RespValue :=
  c ← get_ctx;
  if negb (c_pubsub c) then mret (resp_err "ERR Pub/Sub unavailable")
  else match c_session c with
       | None => mret (resp_err "ERR session unavailable")
       | Some s => k s
       end.

Definition upd_hub (f : PubSubHub → PubSubHub) : M unit :=
  upd_world (λ w, set_w_pubsub (f (w_pubsub w)) w).

(** The loop over the channels or patterns: apply [f] and report the count. *)
Fixpoint meta_loop (kind : string) (f : World → string → PubSubHub → PubSubHub) (s : Sess)
    (l : list RespValue) (out : list RespValue) : M RespValue :=
  match l with
  | [] => mret (resp_array out)
  | v :: l =>
      if r_is_null v then meta_loop kind f s l out
      else
        w ← get_world;
        upd_hub (f w (r_str v)) ;;
        w ← get_world;
        meta_loop kind f s l
          (out ++ [makePubSubMetaReply kind (r_str v) (subscriptionCount s (w_pubsub w))])
  end.

Definition subscribe_handler (kind : string) (f : string → Sess → PubSubHub → PubSubHub) : Handler := λ req,
  if (argc req <? 2)%nat then mret (wrong_args kind)
  else with_session (λ s,
    upd_ctx (set_c_pubsub_mode true) ;;
    meta_loop kind (λ _ name, f name s) s (drop 1 (r_array req)) []).

Definition cmd_SUBSCRIBE : Handler := subscribe_handler "subscribe" subscribe.
Definition cmd_PSUBSCRIBE : Handler := subscribe_handler "psubscribe" psubscribe.

Definition leave_if_none (s : Sess) : M unit :=
  w ← get_world;
  if subscriptionCount s (w_pubsub w) =? 0 then upd_ctx (set_c_pubsub_mode false) else mret tt.

Definition cmd_UNSUBSCRIBE : Handler := λ req, with_session (λ s,
  if (argc req =? 1)%nat then
    w ← get_world;
    upd_hub (unsubscribeAll (w_alive w) s) ;; leave_if_none s ;;
    mret (resp_array [makePubSubMetaReply "unsubscribe" "" 0])
  else
    out ← meta_loop "unsubscribe" (λ w name, unsubscribe (w_alive w) name s) s (drop 1 (r_array req)) [];
    leave_if_none s ;; mret out).

Definition cmd_PUNSUBSCRIBE : Handler := λ req, with_session (λ s,
  if (argc req =? 1)%nat then
    w ← get_world;
    let before := subscriptionCount s (w_pubsub w) in
    upd_hub (punsubscribeAll (w_alive w) s) ;;
    (if 0 <? before then leave_if_none s else mret tt) ;;
    mret (resp_array [makePubSubMetaReply "punsubscribe" "" 0])
  else
    out ← meta_loop "punsubscribe" (λ w name, punsubscribe (w_alive w) name s) s (drop 1 (r_array req)) [];
    leave_if_none s ;; mret out).

(** [pushed] is whether a push to a session wrote anything. *)
Definition cmd_PUBLISH (pushed : Sess → RespValue → bool) : Handler := λ req,
  if negb (argc req =? 3)%nat || anull req 1 || anull req 2 then mret (wrong_args "publish")
  else
    c ← get_ctx;
    if negb (c_pubsub c) then mret (resp_integer 0)
    else
      w ← get_world;
      let ps := pushes (w_alive w) (astr req 1) (astr req 2) (w_pubsub w) in
      upd_world (λ w, foldl (λ w p, emit (EvPush p.1 p.2) w) w ps) ;;
      mret (resp_integer (publish (w_alive w) pushed (astr req 1) (astr req 2) (w_pubsub w))).

(** ** The table *)

(** A registered handler.  [EXEC]'s captures the dispatcher it is registered in. *)
Inductive HandlerRef : Type :=
  | Fn (f : nat → Handler)
  | FnExec.

Abbreviation Handlers := (gmap string HandlerRef).

(** [addCommand]: under the name and its lowercase. *)
Definition addCommand (name : string) (h : HandlerRef) (m : Handlers) : Handlers :=
  let m := <[name := h]> m in
  if bool_decide (lowerStr name ≠ name) then <[lowerStr name := h]> m else m.

(** The raw name, then its lowercase ([m_default] is never set). *)
Definition find_handler (m : Handlers) (rawName : string) : option HandlerRef :=
  match m !! rawName with
  | Some h => Some h
  | None => m !! lowerStr rawName
  end.

Section dispatch.
Context (m_handlers : Handlers).

(** [dispatchExecOne], [run] running the handler found. *)
Definition exec_one (run : HandlerRef → Handler) : Handler := λ cmd,
  if negb (bool_decide (r_type cmd = RArray)) then
    mret (resp_err "ERR protocol error: expected array")
  else if (argc cmd =? 0)%nat || negb (is_bulk (arg cmd 0)) || anull cmd 0 then
    mret (resp_err "ERR empty command")
  else
    match find_handler m_handlers (astr cmd 0) with
    | None => mret (resp_err ("ERR unknown command '" +:+ astr cmd 0 +:+ "'"))
    | Some h => run h cmd
    end.

(** A handler run by the dispatcher; each nested [EXEC] takes one unit of fuel. *)
Fixpoint run_handler (fuel : nat) (h : HandlerRef) : Handler :=
  match fuel with
  | O => λ _, diverge
  | S fuel =>
      match h with
      | Fn f => f fuel
      | FnExec => cmd_EXEC (exec_one (run_handler fuel))
      end
  end.

Definition dispatchExecOne (fuel : nat) : Handler := exec_one (run_handler fuel).

Definition err_pubsub : RespValue :=
  resp_err "ERR only (P|S)SUBSCRIBE / (P|S)UNSUBSCRIBE / PING / QUIT allowed in Pub/Sub mode".
Definition err_noauth : RespValue := resp_err "NOAUTH Authentication required.".
Definition err_readonly : RespValue := resp_err "READONLY You can't write against a read only replica.".

(** The gates of [dispatch], by raw name, then by upper case: the error of the first one
    that is closed. *)
Definition gate (c : KvContext) (w : World) (rawName : string) : option RespValue :=
  let up := upperArg rawName in
  if c_pubsub_mode c && negb (isPubsubAllowedCommand rawName) && negb (isPubsubAllowedCommand up)
  then Some err_pubsub
  else if isAuthRequired w && negb (c_authenticated c) && negb (isCommandAuthExempt rawName) &&
          negb (isCommandAuthExempt up)
  then Some err_noauth
  else if negb (c_repl_apply c) && match w_role w with Some Slave => true | _ => false end &&
          (isMutatingCommand rawName || isMutatingCommand up) &&
          negb (isSlaveWriteAllowed rawName) && negb (isSlaveWriteAllowed up)
  then Some err_readonly
  else None.

(** What [MULTI] mode makes of a request: an error, queueing, or neither. *)
Inductive MultiStep : Type := MultiRun | MultiError (r : RespValue) | MultiQueue.

Definition multi_step (c : KvContext) (rawName : string) : MultiStep :=
  if c_multi_mode c then
    let n := upperArg rawName in
    if bool_decide (n = "EXEC") || bool_decide (n = "DISCARD") then MultiRun
    else if bool_decide (n = "MULTI") then MultiError (resp_err "ERR MULTI calls can not be nested")
    else if bool_decide (n = "WATCH") || bool_decide (n = "BLPOP") || bool_decide (n = "BRPOP")
    then MultiError (resp_err ("ERR " +:+ n +:+ " not allowed in MULTI"))
    else MultiQueue
  else MultiRun.

Definition slow_record (req : RespValue) (t0 t1 : Z) : M unit :=
  c ← get_ctx;
  w ← get_world;
  let us := i64 (i64 (t1 - t0) * 1000) in
  now ← (if us <? m_slower_than_us (w_slowlog w) then mret 0 else nowMs);
  upd_world (λ w, set_w_slowlog (record (c_client_id c) (c_client_addr c) req us now (w_slowlog w)) w).

(** [CommandDispatch::dispatch] *)
Definition dispatch (fuel : nat) : Handler := λ request,
  if negb (bool_decide (r_type request = RArray)) then
    mret (resp_err "ERR protocol error: expected array")
  else if (argc request =? 0)%nat || negb (is_bulk (arg request 0)) || anull request 0 then
    mret (resp_err "ERR empty command")
  else
    let rawName := astr request 0 in
    c ← get_ctx;
    w ← get_world;
    match gate c w rawName with
    | Some e => mret e
    | None =>
        match multi_step c rawName with
        | MultiError e => mret e
        | MultiQueue => upd_ctx (λ c, set_c_multi true (c_multi_queue c ++ [request]) c) ;; mret resp_queued
        | MultiRun =>
            match find_handler m_handlers rawName with
            | None => mret (resp_err ("ERR unknown command '" +:+ rawName +:+ "'"))
            | Some h =>
                t0 ← nowMs;
                result ← run_handler fuel h request;
                t1 ← nowMs;
                slow_record request t0 t1 ;; mret result
            end
        end
    end.

(** One request of [KvServer::handleClient]: the reply, and the log of a command that
    changes data.  [aof_active] and [repl_active] were read when the client connected. *)
Definition handle_request (fuel : nat) (aof_active repl_active : bool) : Handler := λ req,
  rsp ← dispatch fuel req;
  (if (aof_active || repl_active) && negb (bool_decide (r_type rsp = RError)) &&
      isMutatingCommand (cmdNameFromRequest req)
   then
     (if aof_active then upd_world (log_aof req) else mret tt) ;;
     (if repl_active then upd_world (log_repl req) else mret tt)
   else mret tt) ;;
  mret rsp.

(** The inner loop of [handleClient] over the requests one read brought; it stops at the
    first that asks to quit. *)
Fixpoint serve (fuel : nat) (aof_active repl_active : bool) (reqs : list RespValue) : M (list RespValue) :=
  match reqs with
  | [] => mret []
  | req :: reqs =>
      rsp ← handle_request fuel aof_active repl_active req;
      c ← get_ctx;
      rsps ← (if c_quit c then mret [] else serve fuel aof_active repl_active reqs);
      mret (rsp :: rsps)
  end.
End dispatch.

(** The context [handleClient] gives a new connection, and what it does at its end. *)
Definition connect (id : Z) (addr : string) (s : Sess) (w : World) : KvContext :=
  mkCtx 0 false (negb (isAuthRequired w)) false false false false id "" addr [] [] true (Some s).

Definition disconnect (s : Sess) (w : World) : World :=
  cancelWaiters s (set_w_pubsub (removeSession (w_alive w) s (w_pubsub w)) w).

(** ** What is registered *)

Section builtin.
Context (pushed : Sess → RespValue → bool) (yield : World → World) (scheduled : bool)
  (clients : list (Z * string * string)).

Definition dh (h : DataHandler) : HandlerRef := Fn (λ _, data_handler h).
Definition ch (h : Handler) : HandlerRef := Fn (λ _, h).

(** The registered commands that the table below leaves out: those that reach the file
    system, the configuration, the replication link, the process, another clock or Lua, and
    [RESTORE] ([CmdRdb.cmd_RESTORE]), which can break what all others keep. *)
Definition left_out : list string :=
  ["CONFIG"; "INFO"; "ROLE"; "SLAVEOF"; "PSYNC"; "SAVE"; "LASTSAVE"; "BGREWRITEAOF"; "BGSAVE"; "RESTORE"; "TIME";
   "SHUTDOWN"; "EVAL"; "EVALSHA"; "SCRIPT"].

(** A request for one of the others, or of another shape. *)
Definition in_table (req : RespValue) : bool := negb (bool_decide (upperArg (astr req 0) ∈ left_out)).

(** [registerBuiltinCommands] and [registerP0P1Commands] without those. *)
Definition builtin_commands : list (string * HandlerRef) :=
  [("PING", ch cmd_PING); ("SELECT", ch cmd_SELECT); ("DBSIZE", dh cmd_DBSIZE);
   ("FLUSHDB", dh cmd_FLUSHDB); ("FLUSHALL", dh cmd_FLUSHALL); ("TYPE", dh cmd_TYPE);
   ("KEYS", dh cmd_KEYS); ("SCAN", dh cmd_SCAN); ("ECHO", ch cmd_ECHO); ("GET", dh cmd_GET);
   ("GETSET", dh cmd_GETSET); ("GETDEL", dh cmd_GETDEL); ("EXISTS", dh cmd_EXISTS);
   ("SET", dh cmd_SET); ("SETEX", dh cmd_SETEX); ("EXPIRE", dh cmd_EXPIRE);
   ("PEXPIRE", dh cmd_PEXPIRE); ("TTL", dh cmd_TTL); ("PTTL", dh cmd_PTTL);
   ("PERSIST", dh cmd_PERSIST); ("EXPIREAT", dh cmd_EXPIREAT); ("PEXPIREAT", dh cmd_PEXPIREAT);
   ("MGET", dh cmd_MGET); ("MSET", dh cmd_MSET); ("DEL", dh cmd_DEL); ("INCR", dh cmd_INCR);
   ("DECR", dh cmd_DECR); ("INCRBY", dh cmd_INCRBY); ("DECRBY", dh cmd_DECRBY);
   ("HSET", dh cmd_HSET); ("HGET", dh cmd_HGET); ("HGETALL", dh cmd_HGETALL);
   ("HDEL", dh cmd_HDEL); ("HEXISTS", dh cmd_HEXISTS); ("HLEN", dh cmd_HLEN);
   ("HMSET", dh cmd_HMSET); ("HMGET", dh cmd_HMGET); ("HKEYS", dh cmd_HKEYS);
   ("HVALS", dh cmd_HVALS); ("WATCH", ch cmd_WATCH); ("UNWATCH", ch cmd_UNWATCH);
   ("MULTI", ch cmd_MULTI); ("DISCARD", ch cmd_DISCARD); ("EXEC", FnExec);
   ("LPUSH", ch cmd_LPUSH); ("RPUSH", ch cmd_RPUSH);
   ("BLPOP", Fn (λ fuel, tryBlockingPop yield scheduled fuel false));
   ("BRPOP", Fn (λ fuel, tryBlockingPop yield scheduled fuel true));
   ("LPOP", dh cmd_LPOP); ("RPOP", dh cmd_RPOP); ("LLEN", dh cmd_LLEN); ("LRANGE", dh cmd_LRANGE);
   ("SADD", dh cmd_SADD); ("SREM", dh cmd_SREM); ("SMEMBERS", dh cmd_SMEMBERS);
   ("SCARD", dh cmd_SCARD); ("SISMEMBER", dh cmd_SISMEMBER); ("ZADD", dh cmd_ZADD);
   ("ZREM", dh cmd_ZREM); ("ZSCORE", dh cmd_ZSCORE); ("ZCARD", dh cmd_ZCARD);
   ("ZRANGE", dh cmd_ZRANGE); ("ZREVRANGE", dh cmd_ZREVRANGE); ("ZINCRBY", dh cmd_ZINCRBY);
   ("ZRANK", dh cmd_ZRANK); ("ZREVRANK", dh cmd_ZREVRANK);
   ("SUBSCRIBE", ch cmd_SUBSCRIBE); ("UNSUBSCRIBE", ch cmd_UNSUBSCRIBE);
   ("PSUBSCRIBE", ch cmd_PSUBSCRIBE); ("PUNSUBSCRIBE", ch cmd_PUNSUBSCRIBE);
   ("PUBLISH", ch (cmd_PUBLISH pushed)); ("AUTH", ch cmd_AUTH); ("APPEND", dh cmd_APPEND);
   ("STRLEN", dh cmd_STRLEN); ("HINCRBY", dh cmd_HINCRBY); ("LINDEX", dh cmd_LINDEX);
   ("LTRIM", dh cmd_LTRIM); ("LSET", dh cmd_LSET); ("LREM", dh cmd_LREM);
   ("RPOPLPUSH", dh cmd_RPOPLPUSH); ("SINTER", dh cmd_SINTER); ("SUNION", dh cmd_SUNION);
   ("SDIFF", dh cmd_SDIFF); ("RENAME", dh cmd_RENAME); ("RENAMENX", dh cmd_RENAMENX);
   ("XADD", dh cmd_XADD); ("XLEN", dh cmd_XLEN); ("XRANGE", dh cmd_XRANGE);
   ("XREVRANGE", dh cmd_XREVRANGE); ("XREAD", dh cmd_XREAD); ("XDEL", dh cmd_XDEL);
   ("GETEX", dh cmd_GETEX); ("SETNX", dh cmd_SETNX); ("HSETNX", dh cmd_HSETNX);
   ("SPOP", dh cmd_SPOP); ("ZPOPMIN", dh cmd_ZPOPMIN); ("ZPOPMAX", dh cmd_ZPOPMAX);
   ("XGROUP", dh cmd_XGROUP); ("XREADGROUP", dh cmd_XREADGROUP); ("XACK", dh cmd_XACK);
   ("QUIT", ch cmd_QUIT);
   ("MSETNX", dh cmd_MSETNX); ("INCRBYFLOAT", dh cmd_INCRBYFLOAT); ("LINSERT", dh cmd_LINSERT);
   ("BRPOPLPUSH", Fn (λ fuel, tryBlockingRPopLPush yield scheduled fuel));
   ("ZRANGEBYSCORE", dh cmd_ZRANGEBYSCORE); ("ZREVRANGEBYSCORE", dh cmd_ZREVRANGEBYSCORE);
   ("ZCOUNT", dh cmd_ZCOUNT); ("SINTERSTORE", dh cmd_SINTERSTORE);
   ("SUNIONSTORE", dh cmd_SUNIONSTORE); ("SDIFFSTORE", dh cmd_SDIFFSTORE);
   ("HSCAN", dh cmd_HSCAN); ("SSCAN", dh cmd_SSCAN); ("ZSCAN", dh cmd_ZSCAN);
   ("XTRIM", dh cmd_XTRIM); ("XPENDING", dh cmd_XPENDING); ("XCLAIM", dh cmd_XCLAIM);
   ("DUMP", dh cmd_DUMP); ("CLIENT", ch (cmd_CLIENT clients)); ("SLOWLOG", ch cmd_SLOWLOG)].

Definition register (l : list (string * HandlerRef)) (m : Handlers) : Handlers :=
  foldl (λ m p, addCommand p.1 p.2 m) m l.

Definition builtin : Handlers := register builtin_commands ∅.
End builtin.
End handlers.
