(* ===== verification/DispatchFacts.v ===== *)
(** * Facts about dispatch

    The gates see only the upper case of a name; the table finds a handler whatever the
    case; [MULTI] queues without touching anything shared; [EXEC] runs the queue in order
    or, when a watched token moved, not at all. *)

From Stdlib Require Import Ascii.
From stdpp Require Import options.
From stdpp Require Import vector finite.
From S2P Require Import Prelude.
From S2P Require Import CStd.
From S2P Require Import Double.
From S2P Require Import Store.
From S2P Require Import StoreFacts.
From S2P Require Import Resp.
From S2P Require Import Slowlog.
From S2P Require Import PubSub.
From S2P Require Import Request.
From S2P Require Import CmdKeys.
From S2P Require Import CmdColl.
From S2P Require Import Server.
From S2P Require Import Blocking.
From S2P Require Import Dispatch.

#[local] Set Default Proof Using "Type*".

(** ** Case *)

Lemma to_lower_upper c : to_lower (to_upper c) = to_lower c.
Proof. by destruct c as [[] [] [] [] [] [] [] []]. Qed.
Lemma to_upper_lower c : to_upper (to_lower c) = to_upper c.
Proof. by destruct c as [[] [] [] [] [] [] [] []]. Qed.
Lemma to_upper_upper c : to_upper (to_upper c) = to_upper c.
Proof. by destruct c as [[] [] [] [] [] [] [] []]. Qed.

Lemma map_chars_map f g h s :
  (∀ c, f (g c) = h c) → map_chars f (map_chars g s) = map_chars h s.
Proof. intros H. induction s as [|c s IH]; simpl; [done|]. by rewrite H, IH. Qed.

Lemma lower_upper s : lowerStr (upperArg s) = lowerStr s.
Proof. apply map_chars_map, to_lower_upper. Qed.
Lemma upper_lower s : upperArg (lowerStr s) = upperArg s.
Proof. apply map_chars_map, to_upper_lower. Qed.
Lemma upper_upper s : upperArg (upperArg s) = upperArg s.
Proof. apply map_chars_map, to_upper_upper. Qed.

(** A list of names that are all in upper case. *)
Definition all_upper (l : list string) : Prop := Forall (λ n, upperArg n = n) l.

Lemma upper_mem l raw : all_upper l → raw ∈ l → upperArg raw ∈ l.
Proof. intros Hl Hin. pose proof (proj1 (Forall_forall _ _) Hl raw Hin) as H. by rewrite H. Qed.

(** Testing the raw name before the upper case one makes no difference. *)
Lemma bool_upper l raw : all_upper l →
  (bool_decide (raw ∈ l) = true → bool_decide (upperArg raw ∈ l) = true).
Proof. intros Hl H%bool_decide_eq_true_1. apply bool_decide_eq_true_2. by apply upper_mem. Qed.

Ltac upper_list := repeat constructor.

Lemma pubsub_upper raw : isPubsubAllowedCommand raw = true → isPubsubAllowedCommand (upperArg raw) = true.
Proof. apply (bool_upper _ raw). upper_list. Qed.
Lemma exempt_upper raw : isCommandAuthExempt raw = true → isCommandAuthExempt (upperArg raw) = true.
Proof. apply (bool_upper _ raw). upper_list. Qed.
Lemma mutating_upper raw : isMutatingCommand raw = true → isMutatingCommand (upperArg raw) = true.
Proof. apply (bool_upper _ raw). upper_list. Qed.
Lemma allowed_upper raw : isSlaveWriteAllowed raw = true → isSlaveWriteAllowed (upperArg raw) = true.
Proof. apply (bool_upper _ raw). upper_list. Qed.

Lemma negb_weaker a b : (a = true → b = true) → negb a && negb b = negb b.
Proof. destruct a, b; naive_solver. Qed.
Lemma orb_weaker a b : (a = true → b = true) → a || b = b.
Proof. destruct a, b; naive_solver. Qed.

(** The gates look at the upper case of the name only. *)
Lemma gate_upper c w raw : gate c w raw =
  let up := upperArg raw in
  if c_pubsub_mode c && negb (isPubsubAllowedCommand up) then Some err_pubsub
  else if isAuthRequired w && negb (c_authenticated c) && negb (isCommandAuthExempt up)
  then Some err_noauth
  else if negb (c_repl_apply c) && match w_role w with Some Slave => true | _ => false end &&
          isMutatingCommand up && negb (isSlaveWriteAllowed up)
  then Some err_readonly
  else None.
Proof.
  unfold gate. cbv zeta.
  rewrite <-!andb_assoc, !(negb_weaker (isPubsubAllowedCommand raw)) by apply pubsub_upper.
  rewrite !(negb_weaker (isCommandAuthExempt raw)) by apply exempt_upper.
  rewrite !(negb_weaker (isSlaveWriteAllowed raw)) by apply allowed_upper.
  by rewrite !(orb_weaker (isMutatingCommand raw)) by apply mutating_upper.
Qed.

Lemma gate_case c w raw raw' : upperArg raw = upperArg raw' → gate c w raw = gate c w raw'.
Proof. intros H. by rewrite !gate_upper, H. Qed.

(** No mutating command is among those a replica lets through. *)
Lemma mutating_not_allowed up : isMutatingCommand up = true → isSlaveWriteAllowed up = false.
Proof.
  assert (Forall (λ n, isSlaveWriteAllowed n = false) kMutating) as H
    by (apply (bool_decide_unpack _); by vm_compute).
  intros Hm%bool_decide_eq_true_1. by apply (proj1 (Forall_forall _ _) H).
Qed.

Lemma gate_closed c w raw :
  let up := upperArg raw in
  w_role w = Some Slave ∧ c_repl_apply c = false ∧ isMutatingCommand up = true ∨
  c_pubsub_mode c = true ∧
    up ∉ ["SUBSCRIBE"; "UNSUBSCRIBE"; "PSUBSCRIBE"; "PUNSUBSCRIBE"; "PING"; "QUIT"] ∨
  w_pass w ≠ "" ∧ c_authenticated c = false ∧ up ≠ "AUTH" ∧ up ≠ "PING" →
  is_Some (gate c w raw).
Proof.
  intros up. rewrite gate_upper. cbv zeta. fold up.
  destruct (c_pubsub_mode c && negb (isPubsubAllowedCommand up)) eqn:E1; [by eexists|].
  destruct (isAuthRequired w && negb (c_authenticated c) && negb (isCommandAuthExempt up)) eqn:E2; [by eexists|].
  intros [(-> & -> & Hm)|[[Hp Hn]|(Hpass & Ha & H1 & H2)]].
  - rewrite Hm, (mutating_not_allowed _ Hm). by eexists.
  - unfold isPubsubAllowedCommand in E1. by rewrite Hp, bool_decide_eq_false_2 in E1.
  - unfold isAuthRequired, isCommandAuthExempt in E2.
    rewrite Ha, !bool_decide_eq_false_2 in E2; [done|set_solver|done].
Qed.

(** ** The table *)

Lemma addCommand_lookup name h m k :
  addCommand name h m !! k =
  if decide (k = name ∨ k = lowerStr name) then Some h else m !! k.
Proof.
  unfold addCommand. case_bool_decide as Hn; case_decide as Hk.
  - destruct Hk as [->| ->]; [|by rewrite lookup_insert_eq].
    rewrite lookup_insert_ne by done. by rewrite lookup_insert_eq.
  - rewrite !lookup_insert_ne; naive_solver.
  - rewrite Hn in Hk. destruct Hk as [->| ->]; by rewrite lookup_insert_eq.
  - rewrite lookup_insert_ne; naive_solver.
Qed.

(** After registering upper case names, each once, a name is found under itself and its
    lower case, and nothing else is. *)
Lemma register_lookup (l : list (string * HandlerRef)) k h :
  all_upper l.*1 → NoDup l.*1 →
  register l ∅ !! k = Some h ↔ ∃ name, (name, h) ∈ l ∧ (k = name ∨ k = lowerStr name).
Proof.
  unfold register. induction l as [|[name hd] l IH] using rev_ind.
  { intros _ _. simpl. rewrite lookup_empty. set_solver. }
  rewrite fmap_app. intros [Hup Hup']%Forall_app Hnd. apply NoDup_app in Hnd as (Hnd & Hdis & _).
  rewrite foldl_app. simpl. rewrite addCommand_lookup. specialize (IH Hup Hnd).
  apply Forall_cons in Hup' as [Hname _].
  case_decide as Hk.
  - split.
    + intros [= <-]. exists name. split; [set_solver|done].
    + intros (name' & [Hin|[= -> ->]%list_elem_of_singleton]%elem_of_app & Hk'); [|done].
      exfalso. apply (Hdis name); [|set_solver].
      assert (name' ∈ l.*1) as Hn' by (apply list_elem_of_fmap; by exists (name', h)).
      assert (upperArg k = name) as E1 by (destruct Hk as [->| ->]; rewrite ?upper_lower; done).
      assert (upperArg k = name') as E2.
      { pose proof (proj1 (Forall_forall _ _) Hup name' Hn') as E.
        destruct Hk' as [->| ->]; rewrite ?upper_lower; done. }
      congruence.
  - rewrite IH. split; intros (name' & Hin & Hk').
    + exists name'. split; [set_solver|done].
    + apply elem_of_app in Hin as [Hin|[= -> ->]%list_elem_of_singleton]; [by exists name'|done].
Qed.

Lemma find_register l raw name h :
  all_upper l.*1 → NoDup l.*1 → (name, h) ∈ l → upperArg raw = name →
  find_handler (register l ∅) raw = Some h.
Proof.
  intros Hup Hnd Hin Hraw. unfold find_handler.
  destruct (register l ∅ !! raw) as [h'|] eqn:E.
  - apply register_lookup in E as (name' & Hin' & Hk); [|done..].
    assert (name' ∈ l.*1) as Hn' by (apply list_elem_of_fmap; by exists (name', h')).
    pose proof (proj1 (Forall_forall _ _) Hup name' Hn') as E'.
    assert (upperArg raw = name') as E2 by (destruct Hk as [->| ->]; rewrite ?upper_lower; done).
    rewrite Hraw in E2. subst name'. f_equal.
    apply list_elem_of_lookup in Hin as [i Hi]. apply list_elem_of_lookup in Hin' as [j Hj].
    assert (i = j) as ->.
    { eapply NoDup_lookup; [exact Hnd| |]; rewrite list_lookup_fmap;
        [by rewrite Hi|by rewrite Hj]. }
    congruence.
  - apply register_lookup; [done..|]. exists name. split; [done|]. right.
    by rewrite <-Hraw, lower_upper.
Qed.

(** A name finds the handler registered under its upper case, and only that one. *)
Lemma find_register_iff l raw h : all_upper l.*1 → NoDup l.*1 →
  find_handler (register l ∅) raw = Some h ↔ (upperArg raw, h) ∈ l.
Proof.
  intros Hup Hnd. split; [|intros Hin; by eapply find_register].
  assert (∀ name h', (name, h') ∈ l → upperArg name = name) as Hname.
  { intros name h' Hin. apply (proj1 (Forall_forall _ _) Hup name).
    apply list_elem_of_fmap. by exists (name, h'). }
  assert (∀ k, register l ∅ !! k = Some h → (upperArg k, h) ∈ l) as Hk.
  { intros k (name & Hin & Hk)%register_lookup; [|done..].
    assert (upperArg k = name) as ->; [|done].
    destruct Hk as [->| ->]; rewrite ?upper_lower; by eapply Hname. }
  unfold find_handler. destruct (register l ∅ !! raw) as [h'|] eqn:E.
  - intros [= ->]. by apply Hk.
  - intros H. rewrite <-(upper_lower raw). by apply Hk.
Qed.

Section builtin.
Context `{impl : !StdImpl}.
Context (pushed : Sess → RespValue → bool) (yield : World → World) (scheduled : bool)
  (clients : list (Z * string * string)).

Lemma builtin_upper : all_upper (builtin_commands pushed yield scheduled clients).*1.
Proof. apply (bool_decide_unpack _). by vm_compute. Qed.
Lemma builtin_NoDup : NoDup (builtin_commands pushed yield scheduled clients).*1.
Proof. apply (bool_decide_unpack _). by vm_compute. Qed.

Lemma builtin_finds_iff raw h :
  find_handler (builtin pushed yield scheduled clients) raw = Some h ↔
  (upperArg raw, h) ∈ builtin_commands pushed yield scheduled clients.
Proof. apply find_register_iff; [apply builtin_upper|apply builtin_NoDup]. Qed.

Lemma multi_step_case c raw raw' : upperArg raw = upperArg raw' → multi_step c raw = multi_step c raw'.
Proof. unfold multi_step. by intros ->. Qed.

Lemma find_case raw raw' : upperArg raw = upperArg raw' →
  find_handler (builtin pushed yield scheduled clients) raw = find_handler (builtin pushed yield scheduled clients) raw'.
Proof.
  intros H. apply option_eq. intros h. by rewrite !builtin_finds_iff, H.
Qed.
End builtin.
