(* ===== verification/Transactions.v ===== *)
(** * Gates and transactions

    What a request can do before its handler runs: a closed gate changes nothing; [MULTI]
    queues without touching anything shared; [EXEC] runs the queue in order, or, when a
    watched token moved, not at all. *)

From Stdlib Require Import Ascii.
From stdpp Require Import vector finite.
From stdpp Require Import options.
From S2P Require Import Prelude.
From S2P Require Import CStd.
From S2P Require Import Double.
From S2P Require Import Store.
From S2P Require Import Evict.
From S2P Require Import StoreFacts.
From S2P Require Import KeySpace.
From S2P Require Import EvictFacts.
From S2P Require Import Commands.
From S2P Require Import Refinement.
From S2P Require Import Resp.
From S2P Require Import Slowlog.
From S2P Require Import PubSub.
From S2P Require Import Request.
From S2P Require Import CmdKeys.
From S2P Require Import CmdColl.
From S2P Require Import Server.
From S2P Require Import Blocking.
From S2P Require Import Dispatch.
From S2P Require Import DispatchFacts.

#[local] Set Default Proof Using "Type*".

(** ** Running a request *)

(** Only the clock and the slow log moved. *)
Definition same_shared (w w' : World) : Prop :=
  ∃ clk sl, w' = set_w_slowlog sl (set_w_data (w_store w) clk w).

#[export] Instance same_shared_preorder : PreOrder same_shared.
Proof.
  split.
  - intros [a b c d f g h i j k l]. by exists b, h.
  - intros w1 w2 w3 (clk & sl & ->) (clk' & sl' & ->). exists clk', sl'. by destruct w1.
Qed.

Definition tick (e : Env) : Env :=
  mkEnv (e_ctx e) (set_w_data (w_store (e_world e)) (λ k, w_clock (e_world e) (S k)) (e_world e)).

Lemma nowMs_run e : nowMs e = Some (tick e, w_clock (e_world e) 0%nat).
Proof. done. Qed.

Lemma tick_shared e : same_shared (e_world e) (e_world (tick e)).
Proof. destruct e as [c [a b ? ? ? ? h ? ? ? ?]]. by eexists _, h. Qed.

Lemma tick_ctx e : e_ctx (tick e) = e_ctx e.
Proof. done. Qed.

Lemma slow_record_run req t0 t1 e : ∃ w',
  slow_record req t0 t1 e = Some (mkEnv (e_ctx e) w', tt) ∧ same_shared (e_world e) w'.
Proof.
  unfold slow_record, get_ctx, get_world, upd_world, mbind, M_bind, mret, M_ret. cbv beta iota zeta.
  destruct e as [c w]. cbn [e_ctx e_world]. destruct (_ <? _); cbv beta iota.
  - eexists. split; [done|]. destruct w as [a b ? ? ? ? h ? ? ? ?]. by eexists b, _.
  - rewrite nowMs_run. cbv beta iota. eexists. split; [done|].
    destruct w as [a b ? ? ? ? h ? ? ? ?]. by eexists _, _.
Qed.

(** A request of the shape [dispatch] looks into. *)
Definition well_formed (req : RespValue) : bool :=
  bool_decide (r_type req = RArray) &&
  negb ((argc req =? 0)%nat || negb (is_bulk (arg req 0)) || anull req 0).

Section run.
Context `{impl : !StdImpl}.
Context (m : gmap string HandlerRef).

Lemma dispatch_malformed fuel req e :
  well_formed req = false → ∃ r, dispatch m fuel req e = Some (e, r) ∧ r_type r = RError.
Proof.
  unfold well_formed, dispatch. destruct (bool_decide (r_type req = RArray)); simpl; [|by eexists].
  destruct (_ || _ || _); [by eexists|done].
Qed.

(** [dispatch] past the shape of the request. *)
Lemma dispatch_open fuel req e : well_formed req = true →
  dispatch m fuel req e =
  match gate (e_ctx e) (e_world e) (astr req 0) with
  | Some err => Some (e, err)
  | None =>
      match multi_step (e_ctx e) (astr req 0) with
      | MultiError err => Some (e, err)
      | MultiQueue =>
          Some (mkEnv (set_c_multi true (c_multi_queue (e_ctx e) ++ [req]) (e_ctx e)) (e_world e), resp_queued)
      | MultiRun =>
          match find_handler m (astr req 0) with
          | None => Some (e, resp_err ("ERR unknown command '" +:+ astr req 0 +:+ "'"))
          | Some h => (t0 ← nowMs; result ← run_handler m fuel h req; t1 ← nowMs;
                       slow_record req t0 t1 ;; mret result) e
          end
      end
  end.
Proof.
  unfold well_formed, dispatch. intros [Hty Hargs]%andb_prop.
  rewrite Hty. apply negb_true_iff in Hargs. rewrite Hargs. cbn [negb].
  unfold get_ctx, get_world. cbv beta iota delta [mbind M_bind mret M_ret].
  destruct (gate _ _ _); [done|]. destruct (multi_step _ _); [|done..].
  by destruct (find_handler m (astr req 0)).
Qed.

Lemma gate_error c w raw err : gate c w raw = Some err → r_type err = RError.
Proof.
  rewrite gate_upper. cbv zeta. repeat case_match; intros [= <-]; done.
Qed.

Lemma multi_step_error c raw r : multi_step c raw = MultiError r → r_type r = RError.
Proof.
  unfold multi_step. destruct (c_multi_mode c); [|done].
  destruct (_ || _); [done|]. destruct (bool_decide _); [by intros [= <-]|].
  destruct (_ || _ || _); [by intros [= <-]|done].
Qed.

(** A closed gate: an error, and nothing happens; also for a malformed request. *)
Lemma dispatch_closed fuel req e err :
  gate (e_ctx e) (e_world e) (astr req 0) = Some err →
  ∃ r, dispatch m fuel req e = Some (e, r) ∧ r_type r = RError.
Proof.
  intros Hg. destruct (well_formed req) eqn:Hw; [|by apply dispatch_malformed].
  rewrite dispatch_open, Hg by done. exists err. split; [done|]. by eapply gate_error.
Qed.

(** A handler's run inside [dispatch]. *)
Lemma dispatch_handler fuel req e h e' r :
  well_formed req = true → gate (e_ctx e) (e_world e) (astr req 0) = None →
  multi_step (e_ctx e) (astr req 0) = MultiRun → find_handler m (astr req 0) = Some h →
  run_handler m fuel h req (tick e) = Some (e', r) →
  ∃ w', dispatch m fuel req e = Some (mkEnv (e_ctx e') w', r) ∧ same_shared (e_world e') w'.
Proof.
  intros Hw Hg Hm Hh Hrun. rewrite dispatch_open, Hg, Hm, Hh by done.
  rewrite (M_bind_run _ _ _ _ _ (nowMs_run e)), (M_bind_run _ _ _ _ _ Hrun).
  rewrite (M_bind_run _ _ _ _ _ (nowMs_run e')).
  edestruct (slow_record_run req (w_clock (e_world e) 0%nat)) as (w' & Hs & Hsh).
  rewrite (M_bind_run _ _ _ _ _ Hs). exists w'. split; [done|].
  etransitivity; [apply tick_shared|exact Hsh].
Qed.

(** Nothing is logged for an error, nor for a command outside the list. *)
Lemma handle_quiet fuel aof repl req e e' r :
  dispatch m fuel req e = Some (e', r) →
  r_type r = RError ∨ isMutatingCommand (cmdNameFromRequest req) = false →
  handle_request m fuel aof repl req e = Some (e', r).
Proof.
  intros Hd Hq. unfold handle_request. rewrite (M_bind_run _ _ _ _ _ Hd).
  assert ((aof || repl) && negb (bool_decide (r_type r = RError)) &&
    isMutatingCommand (cmdNameFromRequest req) = false) as ->; [|done].
  destruct Hq as [->| ->]; [rewrite bool_decide_eq_true_2 by done|]; by rewrite ?andb_false_r.
Qed.
End run.

Ltac registered := repeat first [apply list_elem_of_here | apply list_elem_of_further].

(** ** Before authentication *)

Section unauthenticated.
Context `{impl : !StdImpl}.
Context (pushed : Sess → RespValue → bool) (yield : World → World) (scheduled : bool)
  (clients : list (Z * string * string)).
Abbreviation table := (builtin pushed yield scheduled clients).

(** The request is [AUTH] with the password. *)
Definition presents (pass : string) (req : RespValue) : Prop :=
  upperArg (astr req 0) = "AUTH" ∧ astr req 1 = pass.

Definition locked (e : Env) : Prop :=
  isAuthRequired (e_world e) = true ∧ c_authenticated (e_ctx e) = false.

Lemma find_builtin name h raw :
  (name, h) ∈ builtin_commands pushed yield scheduled clients → upperArg raw = name →
  find_handler table raw = Some h.
Proof. intros Hin <-. by apply builtin_finds_iff. Qed.

Lemma cmd_PING_run req e : ∃ r, cmd_PING req e = Some (e, r) ∧ r_type r ≠ RError.
Proof. unfold cmd_PING. destruct (_ && _); by eexists. Qed.

Lemma cmd_AUTH_refuses req e :
  locked e → astr req 1 ≠ w_pass (e_world e) → ∃ r, cmd_AUTH req e = Some (e, r) ∧ r_type r = RError.
Proof.
  intros [Hl _] Hp. unfold cmd_AUTH. destruct (_ || _); [by eexists|].
  unfold get_world, mbind, M_bind. cbv beta iota. rewrite Hl, bool_decide_eq_false_2 by done.
  by eexists.
Qed.

Lemma same_shared_locked e c' w' :
  locked e → same_shared (e_world e) w' → c_authenticated c' = false →
  locked (mkEnv c' w') ∧ w_pass w' = w_pass (e_world e).
Proof. intros [Hl _] (clk & sl & ->) Hc. destruct e as [c []]. by repeat split. Qed.

Lemma locked_gate e raw : locked e → upperArg raw ≠ "AUTH" → upperArg raw ≠ "PING" →
  is_Some (gate (e_ctx e) (e_world e) raw).
Proof.
  intros [Hl Ha] H1 H2. rewrite gate_upper. cbv zeta. rewrite Hl, Ha.
  unfold isCommandAuthExempt. rewrite (bool_decide_eq_false_2 (_ ∈ _)) by set_solver.
  destruct (_ && _); simpl; by eexists.
Qed.

(** One request of a client that did not authenticate. *)
Lemma locked_step fuel aof repl req e :
  locked e → ¬ presents (w_pass (e_world e)) req →
  ∃ e' r, handle_request table (S fuel) aof repl req e = Some (e', r) ∧
    same_shared (e_world e) (e_world e') ∧ c_authenticated (e_ctx e') = false.
Proof.
  intros Hl Hp.
  assert (∀ r, dispatch table (S fuel) req e = Some (e, r) → r_type r = RError →
    ∃ e' r, handle_request table (S fuel) aof repl req e = Some (e', r) ∧
      same_shared (e_world e) (e_world e') ∧ c_authenticated (e_ctx e') = false) as Herr.
  { intros r Hd Hr. exists e, r. split_and!; [|done|apply Hl]. apply handle_quiet; [done|by left]. }
  destruct (well_formed req) eqn:Hw.
  2:{ destruct (dispatch_malformed table (S fuel) req e Hw) as (r & ? & ?). by eapply Herr. }
  destruct (gate (e_ctx e) (e_world e) (astr req 0)) as [err|] eqn:Hg.
  { destruct (dispatch_closed table (S fuel) req e err Hg) as (r & ? & ?). by eapply Herr. }
  assert (upperArg (astr req 0) = "AUTH" ∨ upperArg (astr req 0) = "PING") as Hname.
  { destruct (decide (upperArg (astr req 0) = "AUTH")); [by left|].
    destruct (decide (upperArg (astr req 0) = "PING")); [by right|].
    destruct (locked_gate e (astr req 0) Hl) as [? E]; [done..|]. by rewrite Hg in E. }
  assert (isMutatingCommand (cmdNameFromRequest req) = false) as Hmut.
  { unfold cmdNameFromRequest. unfold astr, arg in Hname. destruct (r_type req); try done.
    destruct (r_array req) as [|v l]; [done|]. destruct (_ || _); [done|].
    simpl in Hname. by destruct Hname as [-> | ->]. }
  destruct (multi_step (e_ctx e) (astr req 0)) eqn:Hm.
  - assert (∃ r, run_handler table (S fuel)
      (if decide (upperArg (astr req 0) = "AUTH") then ch cmd_AUTH else ch cmd_PING) req (tick e)
      = Some (tick e, r)) as [r Hrun].
    { destruct (decide _) as [Ha|].
      - destruct (cmd_AUTH_refuses req (tick e)) as (r & Hr & _); [by destruct e as [c []]| |by exists r].
        intros E. apply Hp. split; [done|]. by destruct e as [c []].
      - destruct (cmd_PING_run req (tick e)) as (r & Hr & _). by exists r. }
    assert (find_handler table (astr req 0) = Some
      (if decide (upperArg (astr req 0) = "AUTH") then ch cmd_AUTH else ch cmd_PING)) as Hh.
    { destruct (decide _) as [Ha|]; [eapply find_builtin; [registered|done]|].
      destruct Hname as [|Hn]; [done|]. eapply find_builtin; [registered|done]. }
    destruct (dispatch_handler table (S fuel) req e _ _ _ Hw Hg Hm Hh Hrun) as (w' & Hd & Hsh).
    eexists _, r. split; [apply handle_quiet; [exact Hd|by right]|].
    split; [|by apply Hl]. etransitivity; [apply tick_shared|done].
  - eapply Herr; [by rewrite dispatch_open, Hg, Hm|].
    by eapply multi_step_error.
  - eexists _, resp_queued. split; [apply handle_quiet; [by rewrite dispatch_open, Hg, Hm|by right]|].
    split; [done|]. simpl. destruct Hl as [_ Hl]. by destruct (e_ctx e).
Qed.

Lemma locked_serve fuel aof repl reqs e :
  locked e → Forall (λ req, ¬ presents (w_pass (e_world e)) req) reqs →
  ∃ e' rs, serve table (S fuel) aof repl reqs e = Some (e', rs) ∧
    same_shared (e_world e) (e_world e') ∧ c_authenticated (e_ctx e') = false.
Proof.
  revert e. induction reqs as [|req reqs IH]; intros e Hl Hf.
  { eexists e, []. split_and!; [done|done|apply Hl]. }
  apply Forall_cons in Hf as [Hp Hf].
  destruct (locked_step fuel aof repl req e Hl Hp) as ([c' w'] & r & Hr & Hsh & Ha).
  destruct (same_shared_locked e c' w' Hl Hsh Ha) as [Hl' Hpass].
  cbn [serve]. rewrite (M_bind_run _ _ _ _ _ Hr). unfold get_ctx, mbind at 1, M_bind at 1.
  cbv beta iota. cbn [e_ctx]. destruct (c_quit c').
  { eexists _, _. split; [done|]. by split. }
  destruct (IH (mkEnv c' w') Hl') as (e2 & rs & Hrs & Hsh2 & Ha2); [by cbn [e_world]; rewrite Hpass|].
  rewrite (M_bind_run _ _ _ _ _ Hrs). eexists _, _. split; [done|]. split; [|done].
  by etransitivity.
Qed.
End unauthenticated.

(** ** MULTI, EXEC and WATCH

    [MULTI] only queues; [EXEC] runs the queue in order, one reply each, or answers null
    and runs nothing when a watched token moved; the tokens are those [WATCH] saw. *)

(** ** Queueing *)

Definition enqueue (req : RespValue) (e : Env) : Env :=
  mkEnv (set_c_multi true (c_multi_queue (e_ctx e) ++ [req]) (e_ctx e)) (e_world e).

Section queueing.
Context `{impl : !StdImpl}.
Context (m : gmap string HandlerRef).

Lemma multi_step_in_multi c raw :
  c_multi_mode c = true → upperArg raw ≠ "EXEC" → upperArg raw ≠ "DISCARD" →
  multi_step c raw ≠ MultiRun.
Proof.
  intros Hm H1 H2. unfold multi_step. rewrite Hm, !bool_decide_eq_false_2 by done. simpl.
  by repeat case_match.
Qed.

(** In [MULTI] mode a request other than [EXEC] and [DISCARD] is refused, changing
    nothing, or queued, changing nothing but the queue. *)
Lemma dispatch_in_multi fuel req e :
  c_multi_mode (e_ctx e) = true → upperArg (astr req 0) ≠ "EXEC" → upperArg (astr req 0) ≠ "DISCARD" →
  ∃ r, (dispatch m fuel req e = Some (e, r) ∧ r_type r = RError) ∨
       (dispatch m fuel req e = Some (enqueue req e, r) ∧ r = resp_queued).
Proof.
  intros Hm H1 H2. destruct (well_formed req) eqn:Hw.
  2:{ destruct (dispatch_malformed m fuel req e Hw) as (r & ? & ?). exists r. by left. }
  rewrite dispatch_open by done. destruct (gate _ _ _) as [err|] eqn:Hg.
  { exists err. left. split; [done|]. by eapply gate_error. }
  pose proof (multi_step_in_multi (e_ctx e) (astr req 0) Hm H1 H2) as Hne.
  destruct (multi_step _ _) as [|r|] eqn:Hs; [done| |].
  - exists r. left. split; [done|]. by eapply multi_step_error.
  - exists resp_queued. by right.
Qed.

(** The commands that [MULTI] mode does not queue. *)
Definition unqueued : list string := ["EXEC"; "DISCARD"; "MULTI"; "WATCH"; "BLPOP"; "BRPOP"].

Lemma dispatch_queues fuel req e :
  well_formed req = true → gate (e_ctx e) (e_world e) (astr req 0) = None →
  c_multi_mode (e_ctx e) = true → upperArg (astr req 0) ∉ unqueued →
  dispatch m fuel req e = Some (enqueue req e, resp_queued).
Proof.
  intros Hw Hg Hm Hn. rewrite dispatch_open, Hg by done. unfold multi_step. rewrite Hm.
  rewrite !bool_decide_eq_false_2; [done|..]; intros E; rewrite E in Hn; apply Hn; unfold unqueued; set_solver.
Qed.

(** What [handleClient] logs of a request, the flags being those of the connection. *)
Definition logged (aof repl : bool) (req : RespValue) (w : World) : World :=
  let w := if aof then log_aof req w else w in if repl then log_repl req w else w.

Lemma handle_logs fuel aof repl req e e' r :
  dispatch m fuel req e = Some (e', r) → r_type r ≠ RError →
  isMutatingCommand (cmdNameFromRequest req) = true →
  handle_request m fuel aof repl req e = Some (mkEnv (e_ctx e') (logged aof repl req (e_world e')), r).
Proof.
  intros Hd Hr Hm. unfold handle_request. rewrite (M_bind_run _ _ _ _ _ Hd), Hm.
  rewrite bool_decide_eq_false_2 by done. destruct e' as [c w]. by destruct aof, repl.
Qed.
End queueing.

(** ** Running the queue *)

(** What [EXEC] logs of one command. *)
Definition exec_logged (cmd rsp : RespValue) (w : World) : World :=
  if negb (bool_decide (r_type rsp = RError)) && isMutatingCommand (cmdNameFromRequest cmd)
  then log_repl cmd (log_aof cmd w) else w.

(** The commands run one after the other, each logged before the next, with these
    replies. *)
Inductive exec_trace (one : RespValue → M RespValue) :
    list RespValue → Env → list RespValue → Env → Prop :=
  | trace_nil e : exec_trace one [] e [] e
  | trace_cons cmd cmds e c w rsp rsps e' :
      one cmd e = Some (mkEnv c w, rsp) →
      exec_trace one cmds (mkEnv c (exec_logged cmd rsp w)) rsps e' →
      exec_trace one (cmd :: cmds) e (rsp :: rsps) e'.

Lemma exec_trace_length one cmds e rsps e' : exec_trace one cmds e rsps e' → length rsps = length cmds.
Proof. induction 1; simpl; congruence. Qed.

Lemma exec_loop_trace one cmds out e e' r :
  exec_loop one cmds out e = Some (e', r) →
  ∃ rsps, r = resp_array (out ++ rsps) ∧ exec_trace one cmds e rsps e'.
Proof.
  revert out e. induction cmds as [|cmd cmds IH]; intros out e; cbn [exec_loop].
  { intros [= <- <-]. exists []. rewrite app_nil_r. split; [done|constructor]. }
  unfold mbind at 1, M_bind at 1. destruct (one cmd e) as [[[c w] rsp]|] eqn:E; [|done].
  intros H. assert (exec_loop one cmds (out ++ [rsp]) (mkEnv c (exec_logged cmd rsp w)) = Some (e', r)) as H'.
  { rewrite <-H. unfold exec_logged. by destruct (negb _ && _). }
  apply IH in H' as (rsps & -> & Ht). exists (rsp :: rsps). rewrite <-app_assoc.
  split; [done|]. by econstructor.
Qed.

(** When every command of the queue answers, the loop does. *)
Lemma exec_loop_total one cmds out e :
  (∀ cmd e, cmd ∈ cmds → is_Some (one cmd e)) → is_Some (exec_loop one cmds out e).
Proof.
  revert out e. induction cmds as [|cmd cmds IH]; intros out e Hone; cbn [exec_loop]; [by eexists|].
  destruct (Hone cmd e) as [[[c w] rsp] Hc]; [set_solver|].
  rewrite (M_bind_run _ _ _ _ _ Hc). unfold mbind, M_bind at 1.
  assert (∀ e, is_Some (exec_loop one cmds (out ++ [rsp]) e)) as IH'
    by (intros; apply IH; intros; apply Hone; set_solver).
  destruct (negb _ && _); apply IH'.
Qed.

(** The environment in which the queue starts. *)
Definition left_multi (c : KvContext) : KvContext := clearWatch (set_c_multi false [] c).

(** ** Tokens *)

Section watching.
Context `{impl : !StdImpl}.

(** Only version counters were armed. *)
Definition armed (s s' : KvStore) : Prop :=
  (∀ i, m_dbs (m_shards s' !!! i) = m_dbs (m_shards s !!! i) ∧
        m_watch_versions (m_shards s' !!! i) = m_watch_versions (m_shards s !!! i) ∧
        m_db_watch_epoch (m_shards s' !!! i) = m_db_watch_epoch (m_shards s !!! i) ∧
        (m_hasWatches (m_shards s !!! i) = true → m_hasWatches (m_shards s' !!! i) = true)) ∧
  s' = set_shards (m_shards s') s.

#[export] Instance armed_preorder : PreOrder armed.
Proof.
  split.
  - intros s. split; [done|by destruct s].
  - intros s1 s2 s3 [H12 E12] [H23 E23]. split; [|by rewrite E23, E12].
    intros i. destruct (H23 i) as (-> & -> & -> & ?), (H12 i) as (-> & -> & -> & ?). naive_solver.
Qed.

(** The token of a watched key, which arming does not change. *)
Definition token (s : KvStore) (db : Z) (key : string) : Z := shard_watchToken db key (getShard s key).

Lemma armed_token s s' db key : armed s s' → token s' db key = token s db key.
Proof. intros [H _]. unfold token, shard_watchToken, getShard. by destruct (H (shardIdx key)) as (_ & -> & -> & _). Qed.
Lemma armed_version s s' db key : armed s s' → watch_version s' db key = watch_version s db key.
Proof. intros [H _]. unfold watch_version, getShard. by destruct (H (shardIdx key)) as (_ & -> & _). Qed.
Lemma armed_view s s' t db key : armed s s' → view s' t db key = view s t db key.
Proof.
  intros [H _]. unfold view, live, raw, getShard, db_map. by destruct (H (shardIdx key)) as (-> & _).
Qed.
Lemma armed_wf s s' : armed s s' → wf s → wf s'.
Proof. intros [H _] Hs i db key e. unfold db_map. destruct (H i) as (-> & _). apply Hs. Qed.
Lemma armed_evict s s' : armed s s' → evict_off s' = evict_off s.
Proof. by intros [_ ->]. Qed.
Lemma armed_has s s' key : armed s s' → m_hasWatches (getShard s key) = true → m_hasWatches (getShard s' key) = true.
Proof. intros [H _]. apply H. Qed.

Lemma watchToken_spec db key s :
  armed s (watchToken db key s).1 ∧ (watchToken db key s).2 = token s db key ∧
  m_hasWatches (getShard (watchToken db key s).1 key) = true.
Proof.
  unfold watchToken. rewrite on_shard_run. cbn [fst snd]. split_and!; [|done|].
  - split; [|by destruct s]. intros i. unfold set_shard. cbn [m_shards set_shards].
    destruct (decide (shardIdx key = i)) as [<-|]; [by rewrite vlookup_insert|by rewrite vlookup_insert_ne].
  - unfold getShard, set_shard. cbn [m_shards set_shards]. by rewrite vlookup_insert.
Qed.

(** A watched token moved. *)
Definition moved (s : KvStore) (l : list WatchEntry) : bool :=
  existsb (λ we, negb (token s (we_db we) (we_key we) =? we_token we)) l.

Lemma moved_armed s s' l : armed s s' → moved s' l = moved s l.
Proof. intros H. induction l as [|we l IH]; [done|]. simpl. by rewrite IH, (armed_token s s'). Qed.

Lemma watch_conflict_spec l s clk : ∃ s',
  watch_conflict l (s, clk) = ((s', clk), moved s l) ∧ armed s s'.
Proof.
  revert s. induction l as [|we l IH]; intros s; [by exists s|].
  destruct (watchToken_spec (we_db we) (we_key we) s) as (Ha & Ht & _).
  cbn [watch_conflict]. unfold mbind at 1, state_bind at 1. unfold untimed. cbn [fst snd].
  destruct (watchToken (we_db we) (we_key we) s) as [s1 t]. cbn [fst snd] in *. subst t.
  simpl moved. destruct (_ =? we_token we) eqn:E; cbn [negb orb].
  - destruct (IH s1) as (s' & -> & Ha'). exists s'. rewrite (moved_armed s s1) by done.
    split; [done|]. by etransitivity.
  - by exists s1.
Qed.

Definition with_store (s : KvStore) (w : World) : World := set_w_data s (w_clock w) w.

Lemma watchConflict_run e : ∃ s',
  watchConflict e = Some (mkEnv (e_ctx e) (with_store s' (e_world e)),
                          moved (w_store (e_world e)) (c_watched (e_ctx e))) ∧
  armed (w_store (e_world e)) s'.
Proof.
  destruct (watch_conflict_spec (c_watched (e_ctx e)) (w_store (e_world e)) (w_clock (e_world e)))
    as (s' & Hc & Ha).
  exists s'. split; [|done]. unfold watchConflict. unfold get_ctx, mbind, M_bind. cbv beta iota.
  unfold data. by rewrite Hc.
Qed.

(** [EXEC] in [MULTI] mode: the queue runs, or nothing does. *)
Lemma cmd_EXEC_run one req e : argc req = 1%nat → c_multi_mode (e_ctx e) = true →
  ∃ s', armed (w_store (e_world e)) s' ∧
    let e0 := mkEnv (left_multi (e_ctx e)) (with_store s' (e_world e)) in
    cmd_EXEC one req e =
    if moved (w_store (e_world e)) (c_watched (e_ctx e)) then Some (e0, resp_nullBulk)
    else exec_loop one (c_multi_queue (e_ctx e)) [] e0.
Proof.
  intros Hargc Hm. destruct (watchConflict_run e) as (s' & Hc & Ha). exists s'. split; [done|].
  cbv zeta. unfold cmd_EXEC. rewrite Hargc. cbn [Nat.eqb negb].
  unfold get_ctx, mbind at 1, M_bind at 1. cbv beta iota. rewrite Hm. cbn [negb].
  rewrite (M_bind_run _ _ _ _ _ Hc). by destruct (moved _ _).
Qed.
End watching.

(** ** Optimistic locking *)

Section locking.
Context `{impl : !StdImpl}.

Definition watches (l : list WatchEntry) (db : Z) (key : string) : Prop :=
  ∃ we, we ∈ l ∧ we_db we = db ∧ we_key we = key.

Definition no_nulls (l : list RespValue) : Prop := Forall (λ v, r_is_null v = false) l.

(** What [WATCH] leaves: every key is watched, the new entries hold the key's token, and
    the shards of the keys count versions. *)
Lemma watch_loop_spec l e : no_nulls l →
  ∃ s' new,
    watch_loop l e = Some (mkEnv (set_c_watched (c_watched (e_ctx e) ++ new) (e_ctx e))
                                 (with_store s' (e_world e)), resp_ok) ∧
    armed (w_store (e_world e)) s' ∧
    Forall (λ we, we_token we = token (w_store (e_world e)) (we_db we) (we_key we)) new ∧
    Forall (λ v, watches (c_watched (e_ctx e) ++ new) (c_db (e_ctx e)) (r_str v) ∧
                 m_hasWatches (getShard s' (r_str v)) = true) l.
Proof.
  revert e. induction l as [|v l IH]; intros [c w] Hl; cbn [e_ctx e_world].
  { exists (w_store w), []. rewrite app_nil_r. split_and!; [|done..]. by destruct c, w. }
  apply Forall_cons in Hl as [Hv Hl]. cbn [watch_loop]. rewrite Hv.
  unfold get_ctx, mbind at 1, M_bind at 1. cbv beta iota. cbn [e_ctx].
  destruct (watchToken_spec (c_db c) (r_str v) (w_store w)) as (Ha & Ht & Hh).
  unfold data, untimed. unfold mbind at 1, M_bind at 1. cbn [e_world fst snd].
  destruct (watchToken (c_db c) (r_str v) (w_store w)) as [s1 t]. cbn [fst snd] in *. subst t.
  destruct (existsb _ (c_watched c)) eqn:Hdup.
  - unfold mbind at 1, M_bind at 1. cbv beta iota delta [mret M_ret].
    destruct (IH (mkEnv c (with_store s1 w)) Hl) as (s' & new & Hrun & Ha' & Hnew & Hf).
    cbn [e_ctx e_world] in *. destruct w as [s0 x1 x2 x3 x4 x5 x6 x7 x8 x9 x10]. cbn [w_store w_clock with_store set_w_data] in *.
    exists s', new. rewrite Hrun. split_and!; [done|by etransitivity| |].
    + eapply Forall_impl; [exact Hnew|]. intros we ->. by apply armed_token.
    + constructor; [|done]. split; [|by eapply armed_has].
      apply existsb_exists in Hdup as (we & Hin & [H1 H2]%andb_prop).
      exists we. apply list_elem_of_In in Hin. split_and!; [set_solver|lia|by eapply bool_decide_eq_true_1].
  - unfold mbind at 1, M_bind at 1. unfold upd_ctx at 1. cbv beta iota. cbn [e_ctx e_world].
    set (we := mkWatch (c_db c) (r_str v) (token (w_store w) (c_db c) (r_str v))).
    destruct (IH (mkEnv (set_c_watched (c_watched c ++ [we]) c) (with_store s1 w)) Hl)
      as (s' & new & Hrun & Ha' & Hnew & Hf).
    destruct w as [s0 x1 x2 x3 x4 x5 x6 x7 x8 x9 x10]. destruct c as [y1 y2 y3 y4 y5 y6 y7 y8 y9 y10 y11 wl y12 y13].
    cbn [e_ctx e_world c_watched c_db set_c_watched w_store w_clock with_store set_w_data] in *.
    exists s', (we :: new). unfold with_store in Hrun. cbn in Hrun.
    rewrite <-app_assoc in Hrun. cbn [app] in Hrun. rewrite <-app_assoc in Hf. cbn [app] in Hf.
    split_and!; [exact Hrun|by etransitivity| |].
    + constructor; [done|]. eapply Forall_impl; [exact Hnew|]. intros we' ->. by apply armed_token.
    + constructor; [|done]. split; [|by eapply armed_has]. exists we. split; [set_solver|done].
Qed.

(** A watched entry whose token is out of date stops [EXEC]. *)
Lemma moved_intro s l we : we ∈ l → token s (we_db we) (we_key we) ≠ we_token we → moved s l = true.
Proof.
  intros Hin Hne. apply existsb_exists. exists we. split; [by apply list_elem_of_In|].
  apply negb_true_iff. by apply Z.eqb_neq.
Qed.

(** A client that watched nothing watches keys; another one then changes the value of
    one of them: the first one's [EXEC] answers null and changes nothing. *)
Lemma watch_then_exec (c : Command) now one req_w req_x e e1 r v ctx w :
  no_nulls (drop 1 (r_array req_w)) → c_watched (e_ctx e) = [] →
  cmd_WATCH req_w e = Some (e1, r) → v ∈ drop 1 (r_array req_w) →
  args_ok c → announces c = true →
  let s := w_store (e_world e) in let s1 := w_store (e_world e1) in
  let db := c_db (e_ctx e) in let key := r_str v in
  wf s → evict_off s = true → in_u64 (watch_version s db key) →
  av_value <$> (spec c now (view s now db key)).1 ≠ av_value <$> view s now db key →
  argc req_x = 1%nat → c_multi_mode ctx = true → c_watched ctx = c_watched (e_ctx e1) →
  w_store w = (run c db key now s1).1 →
  ∃ s', cmd_EXEC one req_x (mkEnv ctx w) = Some (mkEnv (left_multi ctx) (with_store s' w), resp_nullBulk) ∧
    ∀ t db' key', view s' t db' key' = view (w_store w) t db' key'.
Proof.
  intros Hnn Hw0 HW Hv Ha Hann s s1 db key Hs Hoff Hver Hch Hargc Hm Hwl Hst.
  unfold cmd_WATCH in HW.
  assert ((argc req_w <? 2)%nat = false) as Hn.
  { apply Nat.ltb_ge. unfold argc. destruct (r_array req_w) as [|? [|? ?]]; simpl in *; [set_solver..|lia]. }
  rewrite Hn in HW.
  destruct (watch_loop_spec (drop 1 (r_array req_w)) e Hnn) as (s1' & new & Hrun & Har & Hnew & Hf).
  rewrite HW in Hrun. injection Hrun as -> ->. rewrite Hw0 in *.
  destruct e as [[y1 y2 y3 y4 y5 y6 y7 y8 y9 y10 y11 wl y12 y13] [s0 x1 x2 x3 x4 x5 x6 x7 x8 x9 x10]]. cbn [e_ctx e_world c_watched set_c_watched app w_store with_store set_w_data] in *.
  subst s s1. cbn [w_store w_clock set_w_data] in *.
  rewrite Forall_forall in Hf. destruct (Hf v Hv) as ((we & Hin & Hdb & Hkey) & Hhas).
  rewrite Forall_forall in Hnew. pose proof (Hnew we Hin) as Htok.
  cbn [c_db] in *. fold key in Hhas, Hkey.
  assert (token (w_store w) db key ≠ we_token we) as Hmoved.
  { rewrite Htok, Hdb, Hkey, Hst. rewrite <-(armed_token s0 s1') by done. unfold token.
    pose proof (commands_announce c db key now s1' Ha Hann) as H. cbv zeta in H.
    rewrite before_off in H by (by rewrite (armed_evict s0)).
    apply H; [by eapply armed_wf|done|by rewrite (armed_version s0)|].
    by rewrite (armed_view s0). }
  destruct (cmd_EXEC_run one req_x (mkEnv ctx w) Hargc Hm) as (s' & Har' & Hx). cbv zeta in Hx.
  cbn [e_ctx e_world] in *.
  rewrite (moved_intro (w_store w) (c_watched ctx) we) in Hx;
    [|by rewrite Hwl|by rewrite Hdb, Hkey].
  exists s'. split; [done|]. intros. by apply armed_view.
Qed.
End locking.

(** ** EXEC as a request *)

Section exec.
Context `{impl : !StdImpl}.
Context (m : gmap string HandlerRef).

Lemma multi_step_run c raw :
  upperArg raw = "EXEC" ∨ upperArg raw = "DISCARD" → multi_step c raw = MultiRun.
Proof. unfold multi_step. destruct (c_multi_mode c); [|done]. by intros [-> | ->]. Qed.

(** A request that finds [EXEC] open. *)
Record exec_request (req : RespValue) (e : Env) : Prop := {
  ex_shape : well_formed req = true;
  ex_gate : gate (e_ctx e) (e_world e) (astr req 0) = None;
  ex_name : upperArg (astr req 0) = "EXEC";
  ex_found : find_handler m (astr req 0) = Some FnExec;
  ex_argc : argc req = 1%nat;
  ex_multi : c_multi_mode (e_ctx e) = true
}.

Lemma dispatch_exec fuel req e e1 r :
  exec_request req e →
  cmd_EXEC (dispatchExecOne m fuel) req (tick e) = Some (e1, r) →
  ∃ w', dispatch m (S fuel) req e = Some (mkEnv (e_ctx e1) w', r) ∧ same_shared (e_world e1) w'.
Proof.
  intros [Hw Hg Hn Hf _ _] Hx. eapply dispatch_handler; [done|done| |done|exact Hx].
  apply multi_step_run. by left.
Qed.

(** Unmoved tokens: the queue runs in order, one reply each. *)
Lemma dispatch_exec_runs fuel req e :
  exec_request req e →
  moved (w_store (e_world e)) (c_watched (e_ctx e)) = false →
  (∀ cmd e', cmd ∈ c_multi_queue (e_ctx e) → is_Some (dispatchExecOne m fuel cmd e')) →
  ∃ s' rsps e1 w',
    armed (w_store (e_world e)) s' ∧
    exec_trace (dispatchExecOne m fuel) (c_multi_queue (e_ctx e))
      (mkEnv (left_multi (e_ctx e)) (with_store s' (e_world (tick e)))) rsps e1 ∧
    dispatch m (S fuel) req e = Some (mkEnv (e_ctx e1) w', resp_array rsps) ∧
    same_shared (e_world e1) w'.
Proof.
  intros Hreq Hmv Htot.
  destruct (cmd_EXEC_run (dispatchExecOne m fuel) req (tick e)) as (s' & Ha & Hx);
    [apply Hreq|apply Hreq|]. cbv zeta in Hx.
  assert (w_store (e_world (tick e)) = w_store (e_world e)) as Ht by (by destruct e as [? []]).
  rewrite Ht in Hx, Ha. rewrite tick_ctx, Hmv in Hx.
  edestruct (exec_loop_total (dispatchExecOne m fuel) (c_multi_queue (e_ctx e)) []) as [[e1 r] Hl].
  { intros cmd e' Hin. by apply Htot. }
  rewrite Hl in Hx. destruct (exec_loop_trace _ _ _ _ _ _ Hl) as (rsps & -> & Htr).
  destruct (dispatch_exec _ _ _ _ _ Hreq Hx) as (w' & Hd & Hsh). by exists s', rsps, e1, w'.
Qed.

(** A moved token: null, and nothing ran. *)
Lemma dispatch_exec_aborts fuel req e :
  exec_request req e →
  moved (w_store (e_world e)) (c_watched (e_ctx e)) = true →
  ∃ s' w',
    armed (w_store (e_world e)) s' ∧
    dispatch m (S fuel) req e = Some (mkEnv (left_multi (e_ctx e)) w', resp_nullBulk) ∧
    same_shared (with_store s' (e_world e)) w'.
Proof.
  intros Hreq Hmv.
  destruct (cmd_EXEC_run (dispatchExecOne m fuel) req (tick e)) as (s' & Ha & Hx);
    [apply Hreq|apply Hreq|]. cbv zeta in Hx.
  assert (w_store (e_world (tick e)) = w_store (e_world e)) as Ht by (by destruct e as [? []]).
  rewrite Ht in Hx, Ha. rewrite tick_ctx, Hmv in Hx.
  destruct (dispatch_exec _ _ _ _ _ Hreq Hx) as (w' & Hd & Hsh). exists s', w'. split_and!; [done|done|].
  etransitivity; [|exact Hsh]. destruct e as [c []]. by eexists _, _.
Qed.

(** A queued command is logged although it has not run, and stays logged when the
    transaction is discarded. *)
Lemma queued_then_discarded fuel aof repl req dis e :
  well_formed req = true → gate (e_ctx e) (e_world e) (astr req 0) = None →
  c_multi_mode (e_ctx e) = true → upperArg (astr req 0) ∉ unqueued →
  isMutatingCommand (cmdNameFromRequest req) = true →
  well_formed dis = true → upperArg (astr dis 0) = "DISCARD" → argc dis = 1%nat →
  gate (e_ctx e) (e_world e) (astr dis 0) = None →
  find_handler m (astr dis 0) = Some (Fn (λ _, cmd_DISCARD)) → c_quit (e_ctx e) = false →
  ∃ e', serve m (S fuel) aof repl [req; dis] e = Some (e', [resp_queued; resp_ok]) ∧
    c_multi_mode (e_ctx e') = false ∧ c_multi_queue (e_ctx e') = [] ∧
    same_shared (logged aof repl req (e_world e)) (e_world e').
Proof.
  intros Hw Hg Hm Hu Hmut Hw' Hn Hargc Hg' Hf Hq.
  pose proof (dispatch_queues m (S fuel) req e Hw Hg Hm Hu) as Hd.
  apply (handle_logs m (S fuel) aof repl) in Hd; [|done|done].
  set (e1 := mkEnv _ _) in Hd.
  assert (c_multi_mode (e_ctx e1) = true ∧ c_quit (e_ctx e1) = false) as [Hm1 Hq1]
    by (unfold e1; by destruct e as [[] ?]).
  assert (gate (e_ctx e1) (e_world e1) (astr dis 0) = None) as Hg1.
  { rewrite <-Hg'. unfold e1, logged, log_aof, log_repl, enqueue. destruct e as [[] []].
    cbn [e_ctx e_world]. by destruct aof, repl; repeat case_match. }
  assert (cmd_DISCARD dis (tick e1) = Some (mkEnv (left_multi (e_ctx e1)) (e_world (tick e1)), resp_ok)) as Hrun.
  { unfold cmd_DISCARD. rewrite Hargc. cbn [Nat.eqb negb]. unfold get_ctx, mbind at 1, M_bind at 1.
    cbv beta iota. by rewrite tick_ctx, Hm1. }
  destruct (dispatch_handler m (S fuel) dis e1 (Fn (λ _, cmd_DISCARD)) _ _ Hw' Hg1
    (multi_step_run _ _ (or_intror Hn)) Hf Hrun) as (w' & Hd' & Hsh).
  assert (isMutatingCommand (cmdNameFromRequest dis) = false) as Hmut'.
  { unfold cmdNameFromRequest. destruct (r_type dis); try done. unfold astr, arg in Hn.
    destruct (r_array dis) as [|v l]; [done|]. destruct (_ || _); [done|]. simpl in Hn. by rewrite Hn. }
  apply (handle_quiet m (S fuel) aof repl) in Hd'; [|by right].
  eexists. cbn [serve]. rewrite (M_bind_run _ _ _ _ _ Hd). unfold get_ctx, mbind at 1, M_bind at 1.
  cbv beta iota. rewrite Hq1. unfold mbind at 1, M_bind at 1.
  rewrite (M_bind_run _ _ _ _ _ Hd'). unfold mbind at 1, M_bind at 1. cbv beta iota. cbn [e_ctx].
  assert (c_quit (left_multi (e_ctx e1)) = false) as -> by (by destruct (e_ctx e1)).
  split; [done|]. cbn [e_ctx e_world]. split_and!; [by destruct (e_ctx e1)..|].
  transitivity (e_world (tick e1)); [exact (tick_shared e1)|exact Hsh].
Qed.
End exec.
