(* ===== verification/StoreInv.v ===== *)
(** * Every command keeps the store well-formed

    A small logic for the invariant [wf] (every entry in the shard of its key, no empty
    container, nothing left of another type): [sw] for a critical section, [kw] for an
    operation of the store, [dw] for a command handler.  The handlers establish what the
    operations need of their arguments. *)

From stdpp Require Import options.
From stdpp Require Import vector finite.
From S2P Require Import Prelude.
From S2P Require Import CStd.
From S2P Require Import Double.
From S2P Require Import Glob.
From S2P Require Import Scan.
From S2P Require Import Store.
From S2P Require Import Evict.
From S2P Require Import StoreFacts.
From S2P Require Import StrOps.
From S2P Require Import HashOps.
From S2P Require Import ListOps.
From S2P Require Import SetOps.
From S2P Require Import ZSetOps.
From S2P Require Import StreamOps.
From S2P Require Import KeySpace.
From S2P Require Import EvictFacts.
From S2P Require Import KeyOps.
From S2P Require Import Commands.
From S2P Require Import Refinement.
From S2P Require Import MultiKey.
From S2P Require Import SetAlgebra.
From S2P Require Import Resp.
From S2P Require Import Request.

#[local] Set Default Proof Using "Type*".

Create HintDb keeps_wf.

Section logic.
Context `{impl : !StdImpl}.

(** ** Critical sections *)

Definition shard_ok (i : fin kShardCount) (sh : Shard) : Prop :=
  ∀ db key e, db_map sh db !! key = Some e → shardIdx key = i ∧ coherent e.

Definition sw {A} (i : fin kShardCount) (m : SM A) : Prop := ∀ sh, shard_ok i sh → shard_ok i (m sh).1.

Lemma shard_ok_equiv i sh sh' : sh ≡ sh' → shard_ok i sh → shard_ok i sh'.
Proof. intros (Hm & _) Hs db key e. rewrite <-Hm. apply Hs. Qed.

Lemma shard_ok_write db key o n sh :
  coherent_opt o → shard_ok (shardIdx key) sh → shard_ok (shardIdx key) (write_slot db key o n sh).
Proof.
  intros Ho Hs db' key' e. destruct (decide ((db', key') = (db, key))) as [[= -> ->]|Hne].
  - rewrite slot_write_slot_raw. intros ->. by split.
  - rewrite raw_write_slot_ne by done. apply Hs.
Qed.

Lemma slot_coherent db key now i sh : shard_ok i sh → coherent_opt (slot db key now sh).
Proof.
  intros Hs. unfold slot. apply coherent_live. destruct (db_map sh db !! key) as [e|] eqn:E; [|done].
  by destruct (Hs _ _ _ E).
Qed.

Lemma sw_ret {A} i (a : A) : sw i (mret a).
Proof. by intros ? ?. Qed.

Lemma sw_bind {A B} i (m : SM A) (k : A → SM B) : sw i m → (∀ a, sw i (k a)) → sw i (m ≫= k).
Proof. intros Hm Hk sh Hs. rewrite bind_run. by apply Hk, Hm. Qed.

Lemma sw_find {A} db key now (k : option Entry → SM A) :
  (∀ o, coherent_opt o → sw (shardIdx key) (k o)) → sw (shardIdx key) (findEntry db key now ≫= k).
Proof.
  intros Hk sh Hs. rewrite bind_run, findEntry_run. cbn [fst snd].
  pose proof (slot_coherent db key now _ _ Hs) as Hc.
  by apply Hk, shard_ok_write.
Qed.

Lemma sw_findDb db key now (k : option Entry → Prop) :
  sw (shardIdx key) (findEntryDb db key now).
Proof.
  intros sh Hs. destruct (findEntryDb_run db key now sh) as [Heq _].
  eapply shard_ok_equiv; [by symmetry|]. apply shard_ok_write; [|done]. by eapply slot_coherent.
Qed.

Lemma sw_put db key e : coherent e → sw (shardIdx key) (putEntry db key e).
Proof. intros He sh Hs. by apply (shard_ok_write db key (Some e) 0). Qed.

Lemma sw_erase db key : sw (shardIdx key) (eraseEntry db key).
Proof. intros sh Hs. by apply (shard_ok_write db key None 0). Qed.

Lemma sw_bump i db key : sw i (bumpWatchKey db key).
Proof.
  intros sh Hs db' key' e. unfold bumpWatchKey, modify. cbn [fst]. rewrite db_map_bump. apply Hs.
Qed.

Lemma sw_gets {A} i (f : Shard → A) : sw i (gets f).
Proof. by intros ? ?. Qed.

(** ** Operations *)

Definition kw {A} (m : KM A) : Prop := ∀ s, wf s → wf (m s).1.

Lemma wf_shards s : wf s ↔ ∀ i, shard_ok i (m_shards s !!! i).
Proof. done. Qed.

Lemma kw_on_shard {A} key (m : SM A) : sw (shardIdx key) m → kw (on_shard key m).
Proof.
  intros Hm s Hs i. rewrite on_shard_run. unfold set_shard. cbn [fst m_shards set_shards].
  destruct (decide (shardIdx key = i)) as [<-|]; [|rewrite vlookup_insert_ne by done; apply Hs].
  rewrite vlookup_insert. apply Hm. exact (Hs _).
Qed.

Lemma kw_ret {A} (a : A) : kw (mret a).
Proof. by intros ? ?. Qed.
Lemma kw_bind {A B} (m : KM A) (k : A → KM B) : kw m → (∀ a, kw (k a)) → kw (m ≫= k).
Proof. intros Hm Hk s Hs. rewrite bind_run. by apply Hk, Hm. Qed.
Lemma kw_gets {A} (f : KvStore → A) : kw (gets f).
Proof. by intros ? ?. Qed.

(** The entry a lookup answers is coherent. *)
Lemma kw_lookup {A} db key now (k : option Entry → KM A) :
  (∀ o, coherent_opt o → kw (k o)) → kw (lookup_key db key now ≫= k).
Proof.
  intros Hk s Hs. rewrite bind_run. destruct (lookup_key_spec db key now s) as [-> Hu].
  apply Hk; [by apply live_coherent|by apply Hu].
Qed.

Lemma kw_unchanged {A} now (m : KM A) : (∀ s, unchanged now s (m s).1) → kw m.
Proof. intros Hu s. by destruct (Hu s). Qed.

Lemma kw_evict now : kw (evictIfNeededLocked now).
Proof. intros s. apply evict_wf. Qed.

(** A command of a family, its arguments checked. *)
Lemma kw_run {C} `{family : !KeyCommands C} (c : C) db key now : args_ok c → kw (run c db key now).
Proof. intros Ha s Hs. by apply (commands_refine c db key now s Ha Hs). Qed.

(** ** Handlers *)

Definition dw {A} (m : DM A) : Prop := ∀ d, wf d.1 → wf (m d).1.1.

Lemma dw_ret {A} (a : A) : dw (mret a).
Proof. by intros ? ?. Qed.
Lemma dw_bind {A B} (m : DM A) (k : A → DM B) : dw m → (∀ a, dw (k a)) → dw (m ≫= k).
Proof. intros Hm Hk s Hs. rewrite bind_run. by apply Hk, Hm. Qed.
Lemma dw_timed {A} (op : Z → KM A) : (∀ now, kw (op now)) → dw (timed op).
Proof. intros Hop [s clk] Hs. unfold timed. cbn [fst snd] in *. pose proof (Hop (clk 0%nat) s Hs). by destruct (op _ s). Qed.
Lemma dw_timed2 {A} (op : Z → Z → KM A) : (∀ now1 now2, kw (op now1 now2)) → dw (timed2 op).
Proof. intros Hop [s clk] Hs. unfold timed2. cbn [fst snd] in *. pose proof (Hop (clk 0%nat) (clk 1%nat) s Hs). by destruct (op _ _ s). Qed.
Lemma dw_timed_n {A} n (op : (nat → Z) → KM A) : (∀ clk, kw (op clk)) → dw (timed_n n op).
Proof. intros Hop [s clk] Hs. unfold timed_n. cbn [fst snd] in *. pose proof (Hop clk s Hs). by destruct (op _ s). Qed.
Lemma dw_untimed {A} (op : KM A) : kw op → dw (untimed op).
Proof. intros Hop [s clk] Hs. unfold untimed. cbn [fst snd] in *. pose proof (Hop s Hs). by destruct (op s). Qed.
End logic.

(** The entries the operations write are coherent when what they read was. *)
Ltac coherent := unfold coherent_opt, coherent, stream_of in *;
  repeat match goal with e : Entry |- _ => destruct e end;
  cbn in *; unfold is_type in *; cbn in *; simplify_eq;
  repeat match goal with t : ObjType |- _ => destruct t end;
  cbn in *; try discriminate; repeat case_bool_decide; cbn in *; intuition congruence.

Ltac keep_step :=
  match goal with
  | |- sw _ (mret _) => apply sw_ret
  | |- sw _ (findEntry _ _ _ ≫= _) => apply sw_find; intros ? ?
  | |- sw _ (_ ≫= _) => apply sw_bind; [|intros ?]
  | |- sw _ (putEntry _ _ _) => apply sw_put
  | |- sw _ (eraseEntry _ _) => apply sw_erase
  | |- sw _ (bumpWatchKey _ _) => apply sw_bump
  | |- sw _ (gets _) => apply sw_gets
  | |- kw (mret _) => apply kw_ret
  | |- kw (gets _) => apply kw_gets
  | |- kw (evictIfNeededLocked _) => apply kw_evict
  | |- kw (lookup_key _ _ _ ≫= _) => apply kw_lookup; intros ? ?
  | |- kw (_ ≫= _) => apply kw_bind; [|intros ?]
  | |- kw (on_shard _ _) => apply kw_on_shard
  | |- dw (mret _) => apply dw_ret
  | |- dw (_ ≫= _) => apply dw_bind; [|intros ?]
  | |- dw (timed _) => apply dw_timed; intros ?
  | |- dw (timed2 _) => apply dw_timed2; intros ? ?
  | |- dw (timed_n _ _) => apply dw_timed_n; intros ?
  | |- dw (untimed _) => apply dw_untimed
  end.

Ltac keep_case :=
  match goal with
  | |- _ (if ?b then _ else _) => destruct b eqn:?
  | |- _ (match ?x with _ => _ end) => destruct x eqn:?
  | |- _ _ (if ?b then _ else _) => destruct b eqn:?
  | |- _ _ (match ?x with _ => _ end) => destruct x eqn:?
  end.

Ltac keeps := repeat (cbv beta zeta; first [keep_step | keep_case]); auto with keeps_wf.

(** ** The one-key operations *)

Ltac one_key c := exact (kw_run c _ _ _ I).

#[export] Hint Extern 2 (kw (get _ _ _)) => one_key CGet : keeps_wf.
#[export] Hint Extern 2 (kw (type _ _ _)) => one_key CType : keeps_wf.
#[export] Hint Extern 2 (kw (persist _ _ _)) => one_key CPersist : keeps_wf.
#[export] Hint Extern 2 (kw (ttl _ _ _)) => one_key CTtl : keeps_wf.
#[export] Hint Extern 2 (kw (pttl _ _ _)) => one_key CPttl : keeps_wf.
#[export] Hint Extern 2 (kw (strlen _ _ _)) => one_key CStrlen : keeps_wf.
#[export] Hint Extern 2 (kw (setOpt _ _ ?v ?n ?x ?ex ?px _)) => one_key (CSetOpt v n x ex px) : keeps_wf.
#[export] Hint Extern 2 (kw (expire _ _ ?n _)) => one_key (CExpire n) : keeps_wf.
#[export] Hint Extern 2 (kw (pexpire _ _ ?n _)) => one_key (CPexpire n) : keeps_wf.
#[export] Hint Extern 2 (kw (expireAt _ _ ?n _)) => one_key (CExpireAt n) : keeps_wf.
#[export] Hint Extern 2 (kw (pexpireAt _ _ ?n _)) => one_key (CPexpireAt n) : keeps_wf.
#[export] Hint Extern 2 (kw (incrBy _ _ ?d _)) => one_key (CIncrBy d) : keeps_wf.
#[export] Hint Extern 2 (kw (incrByFloat _ _ ?d _)) => one_key (CIncrByFloat d) : keeps_wf.
#[export] Hint Extern 2 (kw (append _ _ ?v _)) => one_key (CAppend v) : keeps_wf.
#[export] Hint Extern 2 (kw (getex _ _ ?ex ?px ?p _)) => one_key (CGetex ex px p) : keeps_wf.
#[export] Hint Extern 2 (kw (hset _ _ ?f ?v _)) => one_key (CHset f v) : keeps_wf.
#[export] Hint Extern 2 (kw (hget _ _ ?f _)) => one_key (CHget f) : keeps_wf.
#[export] Hint Extern 2 (kw (hdel _ _ ?f _)) => one_key (CHdel f) : keeps_wf.
#[export] Hint Extern 2 (kw (hexists _ _ ?f _)) => one_key (CHexists f) : keeps_wf.
#[export] Hint Extern 2 (kw (hlen _ _ _)) => one_key CHlen : keeps_wf.
#[export] Hint Extern 2 (kw (hgetall _ _ _)) => one_key CHgetall : keeps_wf.
#[export] Hint Extern 2 (kw (listPop _ _ ?l _)) => one_key (CPop l) : keeps_wf.
#[export] Hint Extern 2 (kw (listLen _ _ _)) => one_key CLlen : keeps_wf.
#[export] Hint Extern 2 (kw (listRange _ _ ?a ?b _)) => one_key (CLrange a b) : keeps_wf.
#[export] Hint Extern 2 (kw (listIndex _ _ ?i _)) => one_key (CLindex i) : keeps_wf.
#[export] Hint Extern 2 (kw (listTrim _ _ ?a ?b _)) => one_key (CLtrim a b) : keeps_wf.
#[export] Hint Extern 2 (kw (listSet _ _ ?i ?v _)) => one_key (CLset i v) : keeps_wf.
#[export] Hint Extern 2 (kw (listInsert _ _ ?b ?p ?v _)) => one_key (CLinsert b p v) : keeps_wf.
#[export] Hint Extern 2 (kw (setMembers _ _ _)) => one_key CSmembers : keeps_wf.
#[export] Hint Extern 2 (kw (setCard _ _ _)) => one_key CScard : keeps_wf.
#[export] Hint Extern 2 (kw (setIsMember _ _ ?m _)) => one_key (CSismember m) : keeps_wf.
#[export] Hint Extern 2 (kw (spop _ _ _)) => one_key CSpop : keeps_wf.
#[export] Hint Extern 2 (kw (zscore _ _ ?m _)) => one_key (CZscore m) : keeps_wf.
#[export] Hint Extern 2 (kw (zcard _ _ _)) => one_key CZcard : keeps_wf.
#[export] Hint Extern 2 (kw (zrange _ _ ?a ?b ?r _)) => one_key (CZrange a b r) : keeps_wf.
#[export] Hint Extern 2 (kw (zincrby _ _ ?m ?d _)) => one_key (CZincrby m d) : keeps_wf.
#[export] Hint Extern 2 (kw (zrank _ _ ?m ?r _)) => one_key (CZrank m r) : keeps_wf.
#[export] Hint Extern 2 (kw (zpop ?max _ _ _)) => one_key (CZpop max) : keeps_wf.
#[export] Hint Extern 2 (kw (xlen _ _ _)) => one_key CXlen : keeps_wf.
#[export] Hint Extern 2 (kw (xrange _ _ ?a ?b ?c ?r _)) => one_key (CXrange a b c r) : keeps_wf.
#[export] Hint Extern 2 (kw (xdel _ _ ?l _)) => one_key (CXdel l) : keeps_wf.
#[export] Hint Extern 2 (kw (xgroupDestroy _ _ ?g _)) => one_key (CXgroupDestroy g) : keeps_wf.
#[export] Hint Extern 2 (kw (xack _ _ ?g ?l _)) => one_key (CXack g l) : keeps_wf.
#[export] Hint Extern 2 (kw (xclaim _ _ ?g ?c ?i ?l ?f _)) => one_key (CXclaim g c i l f) : keeps_wf.

Section operations.
Context `{impl : !StdImpl}.

Lemma kw_set db key v now : kw (set db key v now).
Proof. unfold set. keeps. Qed.
Lemma kw_setex db key v ttl now : kw (setex db key v ttl now).
Proof. unfold setex. keeps. Qed.
Lemma kw_getset db key v now1 now2 : kw (getset db key v now1 now2).
Proof. unfold getset. keeps. apply kw_set. Qed.
Lemma kw_hmset db key fields clk : kw (hmset db key fields clk).
Proof. revert clk. induction fields as [|f l IH]; intros clk; cbn [hmset]; keeps. Qed.
Lemma kw_hmget db key fields clk : kw (hmget db key fields clk).
Proof.
  unfold hmget. generalize ([] : list (option string)). revert clk.
  induction fields as [|f l IH]; intros clk acc; cbn [hmget_loop]; keeps.
Qed.
Lemma kw_hkeys db key now : kw (hkeys db key now).
Proof. unfold hkeys. keeps. Qed.
Lemma kw_hvals db key now : kw (hvals db key now).
Proof. unfold hvals. keeps. Qed.
Lemma kw_hsetnx db key f v now1 now2 : kw (hsetnx db key f v now1 now2).
Proof. unfold hsetnx, hsetnx_check. keeps. Qed.

(** Commands whose arguments the handlers check. *)
Lemma kw_hincrby db key f d now : in_i64 d → kw (hincrby db key f d now).
Proof. exact (kw_run (CHincrby f d) db key now). Qed.
Lemma kw_hsetFields db key l now : l ≠ [] → kw (hsetFields db key l now).
Proof. exact (kw_run (CHsetFields l) db key now). Qed.
Lemma kw_hscan db key c p n now : in_u64 c → kw (hscan db key c p n now).
Proof. exact (kw_run (CHscan c p n) db key now). Qed.
Lemma kw_sscan db key c p n now : in_u64 c → kw (sscan db key c p n now).
Proof. exact (kw_run (CSscan c p n) db key now). Qed.
Lemma kw_zscan db key c p n now : in_u64 c → kw (zscan db key c p n now).
Proof. exact (kw_run (CZscan c p n) db key now). Qed.
Lemma kw_listPush db key l left now : l ≠ [] → kw (listPush db key l left now).
Proof. exact (kw_run (CPush l left) db key now). Qed.
Lemma kw_setAdd db key l now : l ≠ [] → kw (setAdd db key l now).
Proof. exact (kw_run (CSadd l) db key now). Qed.
Lemma kw_setRem db key l now : l ≠ [] → kw (setRem db key l now).
Proof. exact (kw_run (CSrem l) db key now). Qed.
Lemma kw_zrem db key l now : l ≠ [] → kw (zrem db key l now).
Proof. exact (kw_run (CZrem l) db key now). Qed.

Lemma kw_listRem db key count v now : kw (listRem db key count v now).
Proof. unfold listRem. keeps. all: coherent. Qed.

Lemma kw_zaddOpt db key opt l now : kw (zaddOpt db key opt l now).
Proof.
  destruct (decide (l = [])) as [->|Hl]; [apply kw_ret|].
  destruct (nx opt && xx opt) eqn:E1; [|destruct (gt opt && lt opt) eqn:E2].
  - unfold zaddOpt. rewrite bool_decide_eq_false_2, E1 by done. apply kw_ret.
  - unfold zaddOpt. rewrite bool_decide_eq_false_2, E1, E2 by done. apply kw_ret.
  - exact (kw_run (CZaddOpt opt l) db key now (conj Hl (conj E1 E2))).
Qed.

Lemma kw_zrangeByScore db key min max r o c now : kw (zrangeByScore db key min max r o c now).
Proof. unfold zrangeByScore. keeps. Qed.
Lemma kw_zcount db key min max now : kw (zcount db key min max now).
Proof. unfold zcount. keeps. Qed.
End operations.

(** ** Several keys, whole databases, streams *)

Section more_operations.
Context `{impl : !StdImpl}.

Lemma kw_delMany db ks now : kw (delMany db ks now).
Proof. intros s. by destruct (delMany_spec db ks now s) as (_ & H & _). Qed.
Lemma kw_getdel db key now1 now2 : kw (getdel db key now1 now2).
Proof. unfold getdel, del. keeps. apply kw_delMany. Qed.
Lemma kw_existsMany db ks now : kw (existsMany db ks now).
Proof. apply (kw_unchanged now). intros s. apply existsMany_spec. Qed.
Lemma kw_msetnx db pairs now : kw (msetnx db pairs now).
Proof. intros s. by destruct (msetnx_spec db pairs now s) as (_ & H & _). Qed.

Lemma kw_renameKey db src dst nx now : kw (renameKey db src dst nx now).
Proof.
  destruct (decide (src = dst)) as [->|Hne].
  - unfold renameKey. rewrite bool_decide_eq_true_2 by done. apply kw_ret.
  - intros s Hs. pose proof (renameKey_spec db src dst nx now s Hne) as H. cbv zeta in H.
    destruct (view s now db src) as [a|]; [|by apply H].
    destruct (nx && is_live s now db dst); [by apply H|]. by apply H.
Qed.

Lemma kw_purge db now : kw (on_all_shards (purge_shard db now)).
Proof. apply (kw_unchanged now). intros s. apply purge_all_unchanged. Qed.

Lemma kw_dbsize db now : kw (dbsize db now).
Proof. unfold dbsize. keeps. apply kw_purge. Qed.
Lemma kw_keys db p now : kw (keys db p now).
Proof. unfold keys. keeps. apply kw_purge. Qed.
Lemma kw_scan db c p n now : kw (scan db c p n now).
Proof. unfold scan. keeps. apply kw_purge. Qed.
Lemma kw_flushdb db : kw (flushdb db).
Proof. intros s. apply flushdb_spec. Qed.
Lemma kw_flushall : kw flushall.
Proof. intros s _. apply flushall_spec. Qed.
Lemma kw_purgeActive n now : kw (purgeExpiredActive n now).
Proof. apply (kw_unchanged now). intros s. apply purgeExpiredActive_spec. Qed.

Lemma kw_rpoplpush db src dst now1 now2 : kw (listRPopLPush db src dst now1 now2).
Proof. unfold listRPopLPush. keeps. by apply kw_listPush. Qed.

Lemma kw_store_set db dest X now : kw (store_set db dest X now).
Proof. intros s. apply store_set_spec. Qed.
Lemma kw_store_fold db dest now r : kw (store_fold db dest now r).
Proof. destruct r; [apply kw_store_set..|apply kw_ret]. Qed.
Lemma kw_inter touch db ks now acc : kw (inter_loop touch db ks now acc).
Proof. apply (kw_unchanged now). intros s. apply inter_loop_spec. Qed.
Lemma kw_union touch db ks now acc : kw (union_loop touch db ks now acc).
Proof. apply (kw_unchanged now). intros s. apply union_loop_spec. Qed.
Lemma kw_diff db ks now : kw (diff_fold db ks now).
Proof. apply (kw_unchanged now). intros s. apply diff_fold_spec. Qed.
End more_operations.

#[export] Hint Resolve kw_set kw_setex kw_getset kw_hmset kw_hmget kw_hkeys kw_hvals kw_hsetnx
  kw_hincrby kw_hsetFields kw_hscan kw_sscan kw_zscan kw_listPush kw_setAdd kw_setRem kw_zrem
  kw_listRem kw_zaddOpt kw_zrangeByScore kw_zcount kw_delMany kw_getdel kw_existsMany kw_msetnx
  kw_renameKey kw_dbsize kw_keys kw_scan kw_flushdb kw_flushall kw_rpoplpush kw_store_set
  kw_store_fold kw_inter kw_union kw_diff : keeps_wf.

Section streams.
Context `{impl : !StdImpl}.

Lemma kw_setInter db ks now : kw (setInter db ks now).
Proof. unfold setInter. keeps. Qed.
Lemma kw_setUnion db ks now : kw (setUnion db ks now).
Proof. unfold setUnion. keeps. Qed.
Lemma kw_setDiff db ks now : kw (setDiff db ks now).
Proof. unfold setDiff. keeps. Qed.
Lemma kw_setInterStore db dest ks now : kw (setInterStore db dest ks now).
Proof. unfold setInterStore. keeps. Qed.
Lemma kw_setUnionStore db dest ks now : kw (setUnionStore db dest ks now).
Proof. unfold setUnionStore. keeps. Qed.
Lemma kw_setDiffStore db dest ks now : kw (setDiffStore db dest ks now).
Proof. unfold setDiffStore. keeps. Qed.

Lemma kw_xadd db key id fields now : kw (xadd db key id fields now).
Proof. unfold xadd, xadd_body. keeps. all: coherent. Qed.
Lemma kw_xtrim db key maxlen now : kw (xtrim db key maxlen now).
Proof. unfold xtrim. keeps. all: coherent. Qed.
Lemma kw_xgroupCreate db key group id mk now : kw (xgroupCreate db key group id mk now).
Proof. unfold xgroupCreate, xgroup_create_body, put_stream. keeps. all: coherent. Qed.
Lemma kw_xpendingSummary db key group now : kw (xpendingSummary db key group now).
Proof. unfold xpendingSummary. keeps. Qed.
Lemma kw_xpendingRange db key group a b c d now : kw (xpendingRange db key group a b c d now).
Proof. unfold xpendingRange. keeps. Qed.

Lemma as_stream_Some o e : as_stream o = Some e → o = Some e ∧ is_type ObjStream e = true.
Proof. destruct o as [e'|]; simpl; [|done]. destruct (is_type ObjStream e') eqn:E; [|done]. by intros [= ->]. Qed.

Lemma kw_xread db ks ids count now : kw (xread db ks ids count now).
Proof.
  unfold xread. keeps. generalize ([] : list (string * list StreamEntry)).
  induction (zip ks ids) as [|[key id] l IH]; intros out; cbn [xread_loop]; keeps.
  unfold touch_key. apply as_stream_Some in Heqo0 as [-> Ht]. keeps. coherent.
Qed.

Lemma kw_xreadGroup db group consumer ks ids count now : kw (xreadGroup db group consumer ks ids count now).
Proof.
  unfold xreadGroup. keeps. generalize ([] : list (string * list StreamEntry)).
  induction (zip ks ids) as [|[key id] l IH]; intros out; cbn [xreadGroup_loop]; keeps.
  apply as_stream_Some in Heqo0 as [-> Ht]. coherent.
Qed.
End streams.

#[export] Hint Resolve kw_setInter kw_setUnion kw_setDiff kw_setInterStore kw_setUnionStore
  kw_setDiffStore kw_xadd kw_xtrim kw_xgroupCreate kw_xpendingSummary kw_xpendingRange kw_xread
  kw_xreadGroup : keeps_wf.
