(* ===== verification/HandlerInv.v ===== *)
(** * Every handler keeps the store well-formed

    The data commands' handlers, whatever the request: they pass on to the store only
    arguments in the ranges its operations rely on. *)

From Stdlib Require Import Ascii.
From stdpp Require Import options.
From stdpp Require Import vector finite.
From S2P Require Import Prelude.
From S2P Require Import CStd.
From S2P Require Import Double.
From S2P Require Import Scan.
From S2P Require Import Store.
From S2P Require Import StrOps.
From S2P Require Import HashOps.
From S2P Require Import ListOps.
From S2P Require Import SetOps.
From S2P Require Import ZSetOps.
From S2P Require Import StreamOps.
From S2P Require Import KeySpace.
From S2P Require Import KeyOps.
From S2P Require Import Commands.
From S2P Require Import StoreInv.
From S2P Require Import Resp.
From S2P Require Import Request.
From S2P Require Import CmdKeys.
From S2P Require Import CmdColl.
From S2P Require Import CmdRdb.

#[local] Set Default Proof Using "Type*".

(** ** What the parsers of arguments promise *)

Lemma strtoll_range s : in_i64 (strtoll s).1.
Proof.
  unfold strtoll, in_i64, INT64_MIN, INT64_MAX. destruct (scan_int s) as [[[neg n] rest]|]; simpl; [|lia].
  destruct neg; lia.
Qed.

Lemma parseInt64Arg_range v n : parseInt64Arg v = Some n → in_i64 n.
Proof.
  unfold parseInt64Arg. destruct (_ || _); [done|]. pose proof (strtoll_range (r_str v)) as H.
  destruct (strtoll (r_str v)) as [z end_]. destruct (_ || _); [done|]. by intros [= <-].
Qed.

Lemma parseInt64Arg'_range v n : parseInt64Arg' v = Some n → in_i64 n.
Proof.
  unfold parseInt64Arg'. destruct (_ || _); [done|]. pose proof (strtoll_range (r_str v)) as H.
  destruct (strtoll (r_str v)) as [z end_]. destruct (_ =? _)%nat; [done|]. by intros [= <-].
Qed.

Lemma strs_length l x : strs l = Some x → length x = length l.
Proof.
  revert x. induction l as [|v l IH]; intros x; simpl; [by intros [= <-]|].
  destruct (r_is_null v); [done|]. intros (y & Hy & ->)%fmap_Some. simpl. by rewrite (IH y).
Qed.

Lemma strs_from_nonempty n req l : (n < argc req)%nat → strs_from n req = Some l → l ≠ [].
Proof.
  intros Hn Hl%strs_length ->. unfold argc in Hn. rewrite length_drop in Hl. simpl in Hl. lia.
Qed.

Lemma pairs_from_nonempty n req l : (n + 1 < argc req)%nat → pairs_from n req = Some l → l ≠ [].
Proof.
  unfold pairs_from, argc. intros Hn. pose proof (length_drop (r_array req) n) as Hd.
  destruct (drop n (r_array req)) as [|a [|b rest]]; simpl in *; [lia..|].
  destruct (_ || _); [done|]. intros (y & _ & ->)%fmap_Some. done.
Qed.

Ltac args := repeat match goal with
  | H : parseInt64Arg _ = Some _ |- _ => apply parseInt64Arg_range in H
  | H : parseInt64Arg' _ = Some _ |- _ => apply parseInt64Arg'_range in H
  | H : (_ || _) = false |- _ => apply orb_false_iff in H as [? ?]
  | H : negb _ = false |- _ => apply negb_false_iff in H
  | H : (_ <? _)%nat = false |- _ => apply Nat.ltb_ge in H
  | H : (_ =? _)%nat = true |- _ => apply Nat.eqb_eq in H
  | H : strs_from _ _ = Some _ |- _ => apply strs_from_nonempty in H; [|lia]
  | H : pairs_from _ _ = Some _ |- _ => apply pairs_from_nonempty in H; [|lia]
  end; try done; unfold in_i64, in_u64, INT64_MIN, INT64_MAX, UINT64_MAX in *; try lia.

Create HintDb handlers.
#[export] Hint Unfold cmd_DBSIZE cmd_FLUSHDB cmd_FLUSHALL cmd_TYPE cmd_KEYS cmd_SCAN cmd_EXISTS
  cmd_DEL cmd_RENAME cmd_RENAMENX cmd_EXPIRE cmd_PEXPIRE cmd_EXPIREAT cmd_PEXPIREAT cmd_TTL
  cmd_PTTL cmd_PERSIST cmd_GET cmd_GETSET cmd_GETDEL cmd_GETEX cmd_SET cmd_SETNX cmd_SETEX
  cmd_APPEND cmd_STRLEN cmd_MGET cmd_MSET cmd_MSETNX cmd_INCR cmd_DECR cmd_INCRBY cmd_DECRBY
  cmd_INCRBYFLOAT cmd_HSET cmd_HMSET cmd_HSETNX cmd_HGET cmd_HGETALL cmd_HDEL cmd_HEXISTS
  cmd_HLEN cmd_HMGET cmd_HKEYS cmd_HVALS cmd_HINCRBY cmd_HSCAN cmd_SSCAN cmd_ZSCAN cmd_DUMP
  expire_handler key_int_handler dispatchIncrBy incrby_handler dispatchCollectionScan : handlers.
#[export] Hint Unfold cmd_LPOP cmd_RPOP cmd_LLEN cmd_LRANGE cmd_LINDEX cmd_LTRIM cmd_LSET cmd_LREM
  cmd_RPOPLPUSH cmd_LINSERT cmd_SADD cmd_SREM cmd_SMEMBERS cmd_SCARD cmd_SISMEMBER cmd_SPOP
  cmd_SINTER cmd_SUNION cmd_SDIFF cmd_SINTERSTORE cmd_SUNIONSTORE cmd_SDIFFSTORE cmd_ZADD
  cmd_ZREM cmd_ZSCORE cmd_ZCARD cmd_ZRANGE cmd_ZREVRANGE cmd_ZINCRBY cmd_ZRANK cmd_ZREVRANK
  cmd_ZRANGEBYSCORE cmd_ZREVRANGEBYSCORE cmd_ZCOUNT cmd_ZPOPMIN cmd_ZPOPMAX cmd_XADD cmd_XLEN
  cmd_XRANGE cmd_XREVRANGE cmd_XREAD cmd_XDEL cmd_XGROUP cmd_XREADGROUP cmd_XACK cmd_XTRIM
  cmd_XPENDING cmd_XCLAIM pop_handler members_handler algebra_handler dispatchZrange
  dispatchZrangeByScore rank_handler zpop_handler range_handler : handlers.

Section handlers.
Context `{impl : !StdImpl}.

Lemma members_handler_wf cmd op db req :
  (∀ db key l now, l ≠ [] → kw (op db key l now)) → dw (members_handler cmd op db req).
Proof. intros Hop. unfold members_handler. keeps. apply Hop. args. Qed.

Lemma scan_handler_wf cmd fn db req :
  (∀ db key c p n now, in_u64 c → kw (fn db key c p n now)) → dw (dispatchCollectionScan cmd fn db req).
Proof. intros Hfn. unfold dispatchCollectionScan. keeps. apply Hfn. args. Qed.

(** The commands on whole databases, strings and hashes. *)
Definition key_handlers : list DataHandler :=
  [cmd_DBSIZE; cmd_FLUSHDB; cmd_FLUSHALL; cmd_TYPE; cmd_KEYS; cmd_SCAN; cmd_EXISTS; cmd_DEL;
   cmd_RENAME; cmd_RENAMENX; cmd_EXPIRE; cmd_PEXPIRE; cmd_EXPIREAT; cmd_PEXPIREAT; cmd_TTL;
   cmd_PTTL; cmd_PERSIST; cmd_GET; cmd_GETSET; cmd_GETDEL; cmd_GETEX; cmd_SET; cmd_SETNX;
   cmd_SETEX; cmd_APPEND; cmd_STRLEN; cmd_MGET; cmd_MSET; cmd_MSETNX; cmd_INCR; cmd_DECR;
   cmd_INCRBY; cmd_DECRBY; cmd_INCRBYFLOAT; cmd_HSET; cmd_HMSET; cmd_HSETNX; cmd_HGET;
   cmd_HGETALL; cmd_HDEL; cmd_HEXISTS; cmd_HLEN; cmd_HMGET; cmd_HKEYS; cmd_HVALS; cmd_HINCRBY;
   cmd_HSCAN; cmd_SSCAN; cmd_ZSCAN; cmd_DUMP].

Lemma mget_loop_wf db l out : dw (mget_loop db l out).
Proof. revert out. induction l as [|v l IH]; intros out; cbn [mget_loop]; keeps. Qed.

Lemma mset_loop_wf db l : dw (mset_loop db l).
Proof.
  enough (∀ n l, (length l < n)%nat → dw (mset_loop db l)) as H by (apply (H (S (length l))); lia).
  intros n. induction n as [|n IH]; intros [|k [|v l']] Hl; simpl in Hl; [lia..|apply dw_ret|apply dw_ret|].
  cbn [mset_loop]. keeps. apply IH. lia.
Qed.

Lemma hdel_loop_wf db key l n : dw (hdel_loop db key l n).
Proof. revert n. induction l as [|v l IH]; intros n; cbn [hdel_loop]; keeps. Qed.

Lemma key_handlers_wf : Forall (λ h : DataHandler, ∀ db req, dw (h db req)) key_handlers.
Proof.
  unfold key_handlers. repeat (apply Forall_cons; split); [..|by apply Forall_nil]; intros db req.
  all: autounfold with handlers; keeps.
  all: first [apply mget_loop_wf | apply mset_loop_wf | apply hdel_loop_wf | apply kw_hincrby
             | apply kw_hsetFields | apply kw_hscan | apply kw_sscan | apply kw_zscan]; args.
Qed.

Definition coll_handlers : list DataHandler :=
  [cmd_LPOP; cmd_RPOP; cmd_LLEN; cmd_LRANGE; cmd_LINDEX; cmd_LTRIM; cmd_LSET; cmd_LREM;
   cmd_RPOPLPUSH; cmd_LINSERT; cmd_SADD; cmd_SREM; cmd_SMEMBERS; cmd_SCARD; cmd_SISMEMBER;
   cmd_SPOP; cmd_SINTER; cmd_SUNION; cmd_SDIFF; cmd_SINTERSTORE; cmd_SUNIONSTORE;
   cmd_SDIFFSTORE; cmd_ZADD; cmd_ZREM; cmd_ZSCORE; cmd_ZCARD; cmd_ZRANGE; cmd_ZREVRANGE;
   cmd_ZINCRBY; cmd_ZRANK; cmd_ZREVRANK; cmd_ZRANGEBYSCORE; cmd_ZREVRANGEBYSCORE; cmd_ZCOUNT;
   cmd_ZPOPMIN; cmd_ZPOPMAX; cmd_XADD; cmd_XLEN; cmd_XRANGE; cmd_XREVRANGE; cmd_XREAD; cmd_XDEL;
   cmd_XGROUP; cmd_XREADGROUP; cmd_XACK; cmd_XTRIM; cmd_XPENDING; cmd_XCLAIM].

Lemma coll_handlers_wf : Forall (λ h : DataHandler, ∀ db req, dw (h db req)) coll_handlers.
Proof.
  unfold coll_handlers. repeat (apply Forall_cons; split); [..|by apply Forall_nil]; intros db req.
  all: autounfold with handlers; keeps.
  all: first [apply kw_setAdd | apply kw_setRem | apply kw_zrem]; args.
Qed.
End handlers.
