(* ===== verification/ServerInv.v ===== *)
(** * The invariant of the whole server

    [world_ok] holds in every state the server reaches, whatever the clients send: the
    store is well-formed, the publish/subscribe indexes agree, the slow log is within its
    bound, and the blocking hub holds no waiter whose frame is gone.  [mw] says of a
    handler that it keeps the invariant. *)

From Stdlib Require Import Ascii.
From stdpp Require Import options.
From stdpp Require Import vector finite.
From S2P Require Import Prelude.
From S2P Require Import CStd.
From S2P Require Import Double.
From S2P Require Import Store.
From S2P Require Import ListOps.
From S2P Require Import KeySpace.
From S2P Require Import KeyOps.
From S2P Require Import Commands.
From S2P Require Import Resp.
From S2P Require Import Slowlog.
From S2P Require Import PubSub.
From S2P Require Import Request.
From S2P Require Import CmdKeys.
From S2P Require Import CmdColl.
From S2P Require Import Server.
From S2P Require Import Blocking.
From S2P Require Import Dispatch.
From S2P Require Import DispatchFacts.
From S2P Require Import Transactions.
From S2P Require Import StoreInv.
From S2P Require Import HandlerInv.

#[local] Set Default Proof Using "Type*".

Section logic.
Context `{impl : !StdImpl}.

(** Every waiter on the list is the frame of a fiber that is still blocked. *)
Definition waiters_ok (w : World) : Prop := Forall (λ p, is_Some (w_waiter w !! p)) (w_waiters w).

Record world_ok (w : World) : Prop := {
  ok_store : wf (w_store w);
  ok_hub : hub_ok (w_alive w) (w_pubsub w);
  ok_waiters : waiters_ok w;
  ok_slowlog : slowlog_ok (w_slowlog w)
}.

(** ** How the setters move it *)

Lemma world_ok_data s clk w : wf s → world_ok w → world_ok (set_w_data s clk w).
Proof. intros Hs [_ ? ? ?]. by destruct w. Qed.
Lemma world_ok_pubsub h w : hub_ok (w_alive w) h → world_ok w → world_ok (set_w_pubsub h w).
Proof. intros Hh [? _ ? ?]. by destruct w. Qed.
Lemma world_ok_slowlog l w : slowlog_ok l → world_ok w → world_ok (set_w_slowlog l w).
Proof. intros Hl [? ? ? _]. by destruct w. Qed.
Lemma world_ok_events l w : world_ok w → world_ok (set_w_events l w).
Proof. intros []. by destruct w. Qed.
Lemma world_ok_waiters l m w :
  Forall (λ p, is_Some (m !! p)) l → world_ok w → world_ok (set_w_waiters l m w).
Proof. intros Hl [? ? _ ?]. by destruct w. Qed.

Lemma world_ok_hub_op o w : world_ok w → world_ok (set_w_pubsub (hub_op (w_alive w) o (w_pubsub w)) w).
Proof. intros Hw. apply world_ok_pubsub; [|done]. apply hub_op_ok, Hw. Qed.

Lemma world_ok_slow o w : world_ok w → world_ok (set_w_slowlog (slow_step o (w_slowlog w)) w).
Proof. intros Hw. apply world_ok_slowlog; [|done]. apply slow_step_ok, Hw. Qed.

(** ** The logic *)

Definition mw {A} (m : M A) : Prop :=
  ∀ e e' a, world_ok (e_world e) → m e = Some (e', a) → world_ok (e_world e').

Lemma mw_ret {A} (a : A) : mw (mret a).
Proof. by intros e e' ? He [= <- _]. Qed.
Lemma mw_bind {A B} (m : M A) (k : A → M B) : mw m → (∀ a, mw (k a)) → mw (m ≫= k).
Proof.
  intros Hm Hk e e' b He. unfold mbind, M_bind. destruct (m e) as [[e1 a]|] eqn:E; [|done].
  apply Hk. by eapply Hm.
Qed.
Lemma mw_get_ctx : mw get_ctx.
Proof. by intros e e' ? He [= <- _]. Qed.
Lemma mw_get_world : mw get_world.
Proof. by intros e e' ? He [= <- _]. Qed.
Lemma mw_upd_ctx f : mw (upd_ctx f).
Proof. by intros e e' ? He [= <- _]. Qed.
Lemma mw_upd_world f : (∀ w, world_ok w → world_ok (f w)) → mw (upd_world f).
Proof. intros Hf e e' ? He [= <- _]. by apply Hf. Qed.
Lemma mw_diverge {A} : mw (A:=A) diverge.
Proof. by intros e e' ? He. Qed.
Lemma mw_data {A} (m : DM A) : dw m → mw (data m).
Proof.
  intros Hm e e' a He. rewrite data_run. intros [= <- _]. cbn [e_world].
  apply world_ok_data; [|done]. apply Hm, He.
Qed.
Lemma mw_data_handler (h : DataHandler) req : (∀ db req, dw (h db req)) → mw (data_handler h req).
Proof. intros Hh. apply mw_bind; [apply mw_get_ctx|]. intros c. by apply mw_data. Qed.
Lemma mw_nowMs : mw nowMs.
Proof. apply mw_data. by intros [] Hs. Qed.

(** The world read is the world the rest starts from. *)
Lemma mw_with_world {A} (k : World → M A) :
  (∀ w e' c a, world_ok w → k w (mkEnv c w) = Some (e', a) → world_ok (e_world e')) →
  mw (get_world ≫= k).
Proof. intros Hk [c w] e' a He. apply Hk, He. Qed.

Lemma log_aof_ok cmd w : world_ok w → world_ok (log_aof cmd w).
Proof. unfold log_aof, emit. destruct (bool_decide _); [apply world_ok_events|done]. Qed.
Lemma log_repl_ok cmd w : world_ok w → world_ok (log_repl cmd w).
Proof. unfold log_repl, emit. destruct (w_role w) as [[]|]; [apply world_ok_events|done..]. Qed.
End logic.

Ltac mkeep_step :=
  match goal with
  | |- mw (mret _) => apply mw_ret
  | |- mw get_ctx => apply mw_get_ctx
  | |- mw get_world => apply mw_get_world
  | |- mw (upd_ctx _) => apply mw_upd_ctx
  | |- mw nowMs => apply mw_nowMs
  | |- mw diverge => apply mw_diverge
  | |- mw (data _) => apply mw_data
  | |- mw (_ ≫= _) => apply mw_bind; [|intros ?]
  end.

Ltac mkeeps := repeat (cbv beta zeta; first [mkeep_step | keep_case]).

(** ** The handlers on the connection *)

Section handlers.
Context `{impl : !StdImpl}.

Lemma mw_SLOWLOG req : mw (cmd_SLOWLOG req).
Proof.
  unfold cmd_SLOWLOG. mkeeps. apply mw_upd_world. intros w Hw. by apply (world_ok_slow SlowReset).
Qed.

Lemma dw_watchToken db key : dw (untimed (watchToken db key)).
Proof.
  apply dw_untimed. intros s Hs. destruct (watchToken_spec db key s) as (Ha & _). by eapply armed_wf.
Qed.

Lemma mw_watch_loop l : mw (watch_loop l).
Proof.
  induction l as [|v l IH]; cbn [watch_loop]; [apply mw_ret|]. mkeeps; [apply dw_watchToken|exact IH..].
Qed.

Lemma dw_watch_conflict l : dw (watch_conflict l).
Proof.
  induction l as [|we l IH]; cbn [watch_conflict]; [apply dw_ret|].
  apply dw_bind; [apply dw_watchToken|]. intros t. destruct (negb _); [apply dw_ret|exact IH].
Qed.

Lemma mw_exec_log cmd (b : bool) :
  mw (if b then upd_world (λ w, log_repl cmd (log_aof cmd w)) else mret tt).
Proof. destruct b; [|apply mw_ret]. apply mw_upd_world. intros w Hw. by apply log_repl_ok, log_aof_ok. Qed.

Lemma mw_exec_loop one q out : (∀ cmd, mw (one cmd)) → mw (exec_loop one q out).
Proof.
  intros Hone. revert out. induction q as [|cmd q IH]; intros out; cbn [exec_loop]; [apply mw_ret|].
  apply mw_bind; [apply Hone|]. intros rsp. apply mw_bind; [apply mw_exec_log|]. intros _. apply IH.
Qed.

Lemma mw_EXEC one req : (∀ cmd, mw (one cmd)) → mw (cmd_EXEC one req).
Proof.
  intros Hone. unfold cmd_EXEC, watchConflict. mkeeps; [apply dw_watch_conflict|].
  by apply mw_exec_loop.
Qed.

(** *** Publish/subscribe *)

(** What a subscription handler does to the hub. *)
Definition hub_change (f : World → string → PubSubHub → PubSubHub) : Prop :=
  ∀ w name, ∃ o, f w name = hub_op (w_alive w) o.

Lemma mw_upd_hub (f : World → PubSubHub → PubSubHub) {A} (k : World → M A) :
  (∀ w, ∃ o, f w = hub_op (w_alive w) o) → (∀ w, mw (k w)) →
  mw (w ← get_world; upd_hub (f w) ;; k w).
Proof.
  intros Hf Hk. apply mw_with_world. intros w e' c a Hw.
  unfold upd_hub, upd_world, mbind, M_bind. cbn [e_ctx e_world]. apply Hk. cbn [e_world].
  destruct (Hf w) as [o ->]. by apply world_ok_hub_op.
Qed.

Lemma mw_meta_loop kind f s l out : hub_change f → mw (meta_loop kind f s l out).
Proof.
  intros Hf. revert out. induction l as [|v l IH]; intros out; cbn [meta_loop]; [apply mw_ret|].
  destruct (r_is_null v); [apply IH|].
  apply (mw_upd_hub (λ w, f w (r_str v)) (λ _, _)); [intros w; apply Hf|]. intros _.
  apply mw_bind; [apply mw_get_world|]. intros w. apply IH.
Qed.

Lemma mw_with_session k : (∀ s, mw (k s)) → mw (with_session k).
Proof. intros Hk. unfold with_session. mkeeps. apply Hk. Qed.

Lemma mw_leave s : mw (leave_if_none s).
Proof. unfold leave_if_none. mkeeps. Qed.

Lemma mw_SUBSCRIBE req : mw (cmd_SUBSCRIBE req).
Proof.
  unfold cmd_SUBSCRIBE, subscribe_handler. mkeeps. apply mw_with_session. intros s. mkeeps.
  apply mw_meta_loop. intros w name. by exists (OpSubscribe name s).
Qed.
Lemma mw_PSUBSCRIBE req : mw (cmd_PSUBSCRIBE req).
Proof.
  unfold cmd_PSUBSCRIBE, subscribe_handler. mkeeps. apply mw_with_session. intros s. mkeeps.
  apply mw_meta_loop. intros w name. by exists (OpPsubscribe name s).
Qed.
Lemma mw_UNSUBSCRIBE req : mw (cmd_UNSUBSCRIBE req).
Proof.
  unfold cmd_UNSUBSCRIBE. apply mw_with_session. intros s. destruct (_ =? _)%nat.
  - apply (mw_upd_hub (λ w, unsubscribeAll (w_alive w) s) (λ _, _));
      [intros w; by exists (OpUnsubscribeAll s)|]. intros _. mkeeps. apply mw_leave.
  - mkeeps; [|apply mw_leave]. apply mw_meta_loop. intros w name. by exists (OpUnsubscribe name s).
Qed.
Lemma mw_PUNSUBSCRIBE req : mw (cmd_PUNSUBSCRIBE req).
Proof.
  unfold cmd_PUNSUBSCRIBE. apply mw_with_session. intros s. destruct (_ =? _)%nat.
  - apply (mw_upd_hub (λ w, punsubscribeAll (w_alive w) s) (λ w, _));
      [intros w; by exists (OpPunsubscribeAll s)|]. intros w. mkeeps; apply mw_leave.
  - mkeeps; [|apply mw_leave]. apply mw_meta_loop. intros w name. by exists (OpPunsubscribe name s).
Qed.

Lemma emit_all_ok {B} (f : B → Event) (l : list B) w :
  world_ok w → world_ok (foldl (λ w p, emit (f p) w) w l).
Proof. revert w. induction l as [|p l IH]; intros w Hw; [done|]. by apply IH, world_ok_events. Qed.

Lemma mw_PUBLISH pushed req : mw (cmd_PUBLISH pushed req).
Proof.
  unfold cmd_PUBLISH. mkeeps. apply mw_upd_world. intros w Hw.
  by apply (emit_all_ok (λ p, EvPush p.1 p.2)).
Qed.

(** *** Blocking lists *)

Lemma dw_tryFulfill db right l : dw (tryFulfill db right l).
Proof. induction l as [|k l IH]; cbn [tryFulfill]; keeps. Qed.

Lemma dw_serve_first db key m l : dw (serve_first db key m l).
Proof. induction l as [|p l IH]; cbn [serve_first]; keeps. apply dw_tryFulfill. Qed.

Lemma dw_pop_any db left l : dw (pop_any db left l).
Proof. induction l as [|k l IH]; cbn [pop_any]; keeps. Qed.

Lemma alter_keeps (f : ListWaiter → ListWaiter) p q (m : gmap nat ListWaiter) :
  is_Some (m !! q) → is_Some (alter f p m !! q).
Proof. intros H. by apply lookup_alter_is_Some. Qed.

Lemma mw_onPush db key : mw (onPush db key).
Proof.
  unfold onPush. mkeeps; [apply dw_serve_first|]. apply mw_upd_world. intros w Hw.
  apply world_ok_waiters; [|done]. apply Forall_forall. intros q [_ Hq]%list_elem_of_filter.
  apply alter_keeps. by apply (proj1 (Forall_forall _ _) (ok_waiters w Hw)).
Qed.

Lemma mw_push cmd left req : mw (push_handler cmd left req).
Proof.
  unfold push_handler. mkeeps; [|apply mw_onPush]. apply dw_timed. intros now. apply kw_listPush.
  apply orb_false_iff in Heqb as [Heqb _]. apply Nat.ltb_ge in Heqb.
  eapply strs_from_nonempty; [|exact Heqo]. lia.
Qed.

Lemma cancelWaiters_ok s w : world_ok w → world_ok (cancelWaiters s w).
Proof.
  intros Hw. unfold cancelWaiters. apply world_ok_waiters; [|done].
  apply Forall_forall. intros q [_ Hq]%list_elem_of_filter.
  assert (is_Some (w_waiter w !! q)) as H by (by apply (proj1 (Forall_forall _ _) (ok_waiters w Hw))).
  revert H. generalize (w_waiter w). generalize (w_waiters w) at 1. intros l.
  induction l as [|p l IH]; intros m Hm; [done|]. simpl. apply IH.
  destruct (is_session_waiter s w p); [by apply alter_keeps|done].
Qed.
(** The frame is registered, and leaves the list before it goes. *)
Lemma register_ok p lw w :
  world_ok w → world_ok (addWaiter p (set_w_waiters (w_waiters w) (<[p := lw]> (w_waiter w)) w)).
Proof.
  intros Hw. pose proof (ok_waiters w Hw) as H. unfold waiters_ok in H.
  destruct w as [s0 x1 x2 x3 l m x6 x7 x8 x9 x10]. unfold addWaiter. cbn [w_waiters w_waiter set_w_waiters] in *.
  assert (∀ q, is_Some (m !! q) → is_Some (<[p:=lw]> m !! q)) as Hins
    by (intros; apply lookup_insert_is_Some'; by right).
  apply (world_ok_waiters (l ++ [p]) (<[p:=lw]> m)
           (mkWorld s0 x1 x2 x3 l m x6 x7 x8 x9 x10)); [|done].
  apply Forall_app. split; [by eapply Forall_impl|]. apply Forall_singleton.
  rewrite lookup_insert_eq. by eexists.
Qed.

Lemma unregister_ok p w :
  world_ok w →
  world_ok (let w := removeWaiter p w in set_w_waiters (w_waiters w) (delete p (w_waiter w)) w).
Proof.
  intros Hw. pose proof (ok_waiters w Hw) as H. unfold waiters_ok in H.
  destruct w as [s0 x1 x2 x3 l m x6 x7 x8 x9 x10]. unfold removeWaiter. cbn [w_waiters w_waiter set_w_waiters] in *.
  apply (world_ok_waiters (filter (λ q, q ≠ p) l) (delete p m)
           (mkWorld s0 x1 x2 x3 l m x6 x7 x8 x9 x10)); [|done].
  apply Forall_forall. intros q [Hne Hq]%list_elem_of_filter. rewrite lookup_delete_ne by done.
  by apply (proj1 (Forall_forall _ _) H).
Qed.

End handlers.

(** ** The server *)

Section server.
Context `{impl : !StdImpl}.
Context (pushed : Sess → RespValue → bool) (yield : World → World) (scheduled : bool)
  (clients : list (Z * string * string)).

(** What the other fibers do while one waits keeps the invariant. *)
Hypothesis yield_ok : ∀ w, world_ok w → world_ok (yield w).

Lemma mw_wait_loop fuel p timed_wait deadline : mw (wait_loop yield fuel p timed_wait deadline).
Proof.
  induction fuel as [|fuel IH]; cbn [wait_loop]; [apply mw_diverge|].
  mkeeps; try apply IH; by apply mw_upd_world.
Qed.

Lemma mw_wait_on fuel timed_wait deadline lw : mw (wait_on yield fuel timed_wait deadline lw).
Proof.
  unfold wait_on. mkeeps; [|apply mw_wait_loop|]; apply mw_upd_world; intros w Hw.
  - by apply register_ok.
  - by apply unregister_ok.
Qed.

Lemma mw_BPOP fuel right req : mw (tryBlockingPop yield scheduled fuel right req).
Proof. unfold tryBlockingPop. mkeeps; [apply dw_pop_any|apply mw_wait_on]. Qed.

Lemma mw_BRPOPLPUSH fuel req : mw (tryBlockingRPopLPush yield scheduled fuel req).
Proof.
  unfold tryBlockingRPopLPush. mkeeps; [keeps|apply mw_wait_on| |apply mw_onPush].
  apply dw_timed. intros. by apply kw_listPush.
Qed.

Abbreviation table := (builtin pushed yield scheduled clients).

Definition href_ok (h : HandlerRef) : Prop :=
  match h with Fn f => ∀ fuel req, mw (f fuel req) | FnExec => True end.

Lemma dh_ok (h : DataHandler) l :
  Forall (λ h : DataHandler, ∀ db req, dw (h db req)) l → h ∈ l → href_ok (dh h).
Proof. intros Hl Hin fuel req. apply mw_data_handler. by apply (proj1 (Forall_forall _ _) Hl). Qed.

Ltac in_handlers := lazymatch goal with
  | |- ?x ∈ ?y :: _ =>
      tryif constr_eq x y then apply list_elem_of_here else (apply list_elem_of_further; in_handlers)
  end.

Lemma builtin_ok : Forall (λ p, href_ok p.2) (builtin_commands pushed yield scheduled clients).
Proof.
  unfold builtin_commands. repeat (apply Forall_cons; split); [..|by apply Forall_nil]; cbn [snd].
  all: lazymatch goal with
  | |- href_ok (dh _) => idtac
  | |- href_ok FnExec => exact I
  | |- _ => intros fuel req
  end.
  all: lazymatch goal with
  | |- href_ok (dh _) =>
      first [refine (dh_ok _ _ key_handlers_wf _); unfold key_handlers; in_handlers
            |refine (dh_ok _ _ coll_handlers_wf _); unfold coll_handlers; in_handlers]
  | |- mw (cmd_SLOWLOG _) => apply mw_SLOWLOG
  | |- mw (cmd_SUBSCRIBE _) => apply mw_SUBSCRIBE
  | |- mw (cmd_PSUBSCRIBE _) => apply mw_PSUBSCRIBE
  | |- mw (cmd_UNSUBSCRIBE _) => apply mw_UNSUBSCRIBE
  | |- mw (cmd_PUNSUBSCRIBE _) => apply mw_PUNSUBSCRIBE
  | |- mw (cmd_PUBLISH _ _) => apply mw_PUBLISH
  | |- mw (tryBlockingPop _ _ _ _ _) => apply mw_BPOP
  | |- mw (tryBlockingRPopLPush _ _ _ _) => apply mw_BRPOPLPUSH
  | |- mw (cmd_LPUSH ?r) => exact (mw_push "lpush" true r)
  | |- mw (cmd_RPUSH ?r) => exact (mw_push "rpush" false r)
  | |- mw (cmd_CLIENT _ _) => unfold cmd_CLIENT; mkeeps
  | |- mw (cmd_WATCH _) => unfold cmd_WATCH; mkeeps; apply mw_watch_loop
  | |- mw (?cmd _) => unfold cmd; mkeeps
  end.
Qed.

Lemma find_ok raw h : find_handler table raw = Some h → href_ok h.
Proof.
  intros Hin%builtin_finds_iff.
  exact (proj1 (Forall_forall _ _) builtin_ok _ Hin).
Qed.

Lemma mw_run_handler fuel h req : href_ok h → mw (run_handler table fuel h req).
Proof.
  revert h req. induction fuel as [|fuel IH]; intros h req Hh; cbn [run_handler]; [apply mw_diverge|].
  destruct h as [f|]; [apply Hh|]. apply mw_EXEC. intros cmd. unfold exec_one. mkeeps.
  apply IH. by eapply find_ok.
Qed.

Lemma mw_dispatch fuel req : mw (dispatch table fuel req).
Proof.
  unfold dispatch, slow_record. mkeeps.
  - apply mw_run_handler. by eapply find_ok.
  - apply mw_upd_world. intros w Hw. by apply (world_ok_slow (SlowRecord _ _ _ _ _)).
Qed.

Lemma mw_handle_request fuel aof repl req : mw (handle_request table fuel aof repl req).
Proof.
  unfold handle_request. mkeeps; [apply mw_dispatch|..].
  - apply mw_upd_world. intros w Hw. by apply log_aof_ok.
  - apply mw_upd_world. intros w Hw. by apply log_repl_ok.
Qed.
End server.

(** ** Every reachable state *)

Section reach.
Context `{impl : !StdImpl}.

(** The server at its start. *)
Definition World0 (clk : nat → Z) (pass : string) (aof : option bool) (role : option Role) : World :=
  mkWorld KvStore0 clk PubSubHub0 (λ _, false) [] ∅ Slowlog0 pass aof role [].

(** What can happen to the shared objects: a request of some connection, neither it nor
    what the connection has queued for a command the table leaves out, during which
    the fibers that get to run while it waits take such steps too; a connection that
    opens, at an address the hub has forgotten, or closes; the timer's purge; a fiber
    that starts or stops to wait. *)
Inductive world_step : World → World → Prop :=
  | step_request pushed yield scheduled clients fuel aof repl ctx req w e' rsp :
      (∀ v, world_steps v (yield v)) → in_table req = true → Forall (λ cmd, in_table cmd = true) (c_multi_queue ctx) →
      handle_request (builtin pushed yield scheduled clients) fuel aof repl req (mkEnv ctx w) = Some (e', rsp) →
      world_step w (e_world e')
  | step_connect s w :
      si_of (hub_channels (w_pubsub w)) !! s = None → si_of (hub_patterns (w_pubsub w)) !! s = None →
      world_step w (set_w_alive (λ x, bool_decide (x = s) || w_alive w x) w)
  | step_disconnect s w :
      world_step w (set_w_alive (λ x, bool_decide (x ≠ s) && w_alive w x) (disconnect s w))
  | step_purge n now w :
      world_step w (set_w_data (purgeExpiredActive n now (w_store w)).1 (w_clock w) w)
  | step_waits p lw w :
      w_waiter w !! p = None →
      world_step w (addWaiter p (set_w_waiters (w_waiters w) (<[p := lw]> (w_waiter w)) w))
  | step_leaves p w :
      world_step w (let w := removeWaiter p w in set_w_waiters (w_waiters w) (delete p (w_waiter w)) w)
with world_steps : World → World → Prop :=
  | steps_refl w : world_steps w w
  | steps_cons w1 w2 w3 : world_step w1 w2 → world_steps w2 w3 → world_steps w1 w3.

Scheme world_step_mind := Minimality for world_step Sort Prop
  with world_steps_mind := Minimality for world_steps Sort Prop.

Lemma world_ok_alive v w :
  hub_ok v (w_pubsub w) → world_ok w → world_ok (set_w_alive v w).
Proof. intros Hv [? _ ? ?]. by destruct w. Qed.

Lemma connect_ok s w :
  si_of (hub_channels (w_pubsub w)) !! s = None → si_of (hub_patterns (w_pubsub w)) !! s = None →
  world_ok w → world_ok (set_w_alive (λ x, bool_decide (x = s) || w_alive w x) w).
Proof.
  intros Hc Hp Hw. apply world_ok_alive; [|done]. destruct (ok_hub w Hw) as [H1 H2].
  split; (eapply index_ok_alive; [done|]); intros x Hx; apply orb_prop in Hx as [Hx|Hx];
    [right|by left|right|by left]; apply bool_decide_eq_true_1 in Hx; by subst x.
Qed.

Lemma disconnect_ok s w :
  world_ok w → world_ok (set_w_alive (λ x, bool_decide (x ≠ s) && w_alive w x) (disconnect s w)).
Proof.
  intros Hw. assert (world_ok (disconnect s w)) as Hd
    by (apply cancelWaiters_ok, (world_ok_hub_op (OpRemoveSession s)), Hw).
  assert (w_alive (disconnect s w) = w_alive w) as Ha by (by destruct w).
  apply world_ok_alive; [|done]. destruct (ok_hub _ Hd) as [H1 H2]. rewrite Ha in H1, H2.
  split; (eapply index_ok_alive; [done|]); intros x Hx; left; by apply andb_prop in Hx as [_ ?].
Qed.

Lemma world_step_ok w w' : world_step w w' → world_ok w → world_ok w'.
Proof.
  revert w w'. apply (world_step_mind (λ w w', world_ok w → world_ok w') (λ w w', world_ok w → world_ok w')).
  - intros pushed yield scheduled clients fuel aof repl ctx req w e' rsp _ Hy _ _ Hr Hw.
    eapply (mw_handle_request pushed yield scheduled clients Hy); [|exact Hr]. done.
  - intros. by apply connect_ok.
  - intros. by apply disconnect_ok.
  - intros n now w Hw. apply world_ok_data; [|done]. apply kw_purgeActive, Hw.
  - intros. by apply register_ok.
  - intros. by apply unregister_ok.
  - done.
  - intros w1 w2 w3 _ H1 _ H2 Hw. auto.
Qed.

Lemma World0_ok clk pass aof role : world_ok (World0 clk pass aof role).
Proof. split; [apply wf_init|by split; apply index_ok_0|by constructor|by split]. Qed.

Lemma world_steps_ok w w' : world_steps w w' → world_ok w → world_ok w'.
Proof. induction 1 as [|w1 w2 w3 H1 _ IH]; [done|]. intros Hw. apply IH. by eapply world_step_ok. Qed.
End reach.
