(* ===== verification/BlockingFacts.v ===== *)
(** * Facts about the blocking lists, [XREAD] and [GETEX]

    A push to a missing key hands an element to the first client that waits for the key;
    that client's fiber then leaves its loop with it.  Two handlers that do not do what
    they mean to: [XREAD] answers an error to every request, and [GETEX] without options
    expires the key it reads. *)

From Stdlib Require Import Ascii.
From stdpp Require Import options.
From stdpp Require Import vector finite.
From S2P Require Import Prelude.
From S2P Require Import CStd.
From S2P Require Import Double.
From S2P Require Import Store.
From S2P Require Import Evict.
From S2P Require Import StoreFacts.
From S2P Require Import StrOps.
From S2P Require Import ListOps.
From S2P Require Import StreamOps.
From S2P Require Import KeySpace.
From S2P Require Import Commands.
From S2P Require Import Refinement.
From S2P Require Import SetAlgebra.
From S2P Require Import Resp.
From S2P Require Import Slowlog.
From S2P Require Import PubSub.
From S2P Require Import Request.
From S2P Require Import CmdKeys.
From S2P Require Import CmdColl.
From S2P Require Import HandlerInv.
From S2P Require Import Server.
From S2P Require Import Blocking.

#[local] Set Default Proof Using "Type*".

Section blocking.
Context `{impl : !StdImpl}.

(** The waiter does not wait for [key] of [db]. *)
Definition waits_elsewhere (db : Z) (key : string) (m : gmap nat ListWaiter) (p : nat) : Prop :=
  match m !! p with
  | None => True
  | Some lw => lw_db lw ≠ db ∨ key ∉ lw_keys lw
  end.

Lemma serve_first_skip db key m l1 l2 d :
  Forall (waits_elsewhere db key m) l1 → serve_first db key m (l1 ++ l2) d = serve_first db key m l2 d.
Proof.
  induction l1 as [|p l1 IH]; [done|]. intros [Hp Hl]%Forall_cons. unfold waits_elsewhere in Hp.
  cbn [app serve_first]. destruct (m !! p) as [lw|]; [|by apply IH].
  assert (negb (lw_db lw =? db) || negb (bool_decide (key ∈ lw_keys lw)) = true) as ->; [|by apply IH].
  destruct Hp as [Hp|Hp]; [|by rewrite (bool_decide_eq_false_2 _ Hp), orb_true_r].
  by apply Z.eqb_neq in Hp as ->.
Qed.

Lemma list_value_live t (l : list string) (d : Decision (l = [])) :
  av_live t (if @bool_decide (l = []) d then None else Some (mkAVal (VList l) 0)) = list_value l 0.
Proof.
  unfold list_value. destruct (decide (l = [])) as [E|E];
    [by rewrite !(bool_decide_eq_true_2 _ E)|by rewrite !(bool_decide_eq_false_2 _ E)].
Qed.

(** What a push leaves at a missing key. *)
Definition pushed_list (left : bool) (values : list string) : list string :=
  if left then reverse values else values.

Lemma push_missing db key values left now s :
  wf s → values ≠ [] → view s now db key = None →
  let s' := (listPush db key values left now s).1 in
  wf s' ∧ (listPush db key values left now s).2 = ok (Z.of_nat (length values)) tt ∧
  (∀ t, view s' t db key = list_value (pushed_list left values) 0).
Proof.
  intros Hs Hne Hv.
  destruct (commands_refine (family := list_commands) (CPush values left) db key now s Hne Hs)
    as (Hw & Hr & Hk & _).
  cbn [before evicts list_commands] in Hr, Hk. rewrite Hv in Hr, Hk.
  cbn [spec list_commands spec_list] in Hr, Hk. unfold spec_listPush, spec_on in Hr, Hk. cbn in Hr, Hk.
  split_and!; [done|exact Hr|]. intros t. rewrite Hk. unfold pushed_list. rewrite app_nil_r. by apply list_value_live.
Qed.

Lemma pop_present db key (left : bool) now s l x ex :
  wf s → view s now db key = Some (mkAVal (VList l) ex) → (if left then head l else last l) = Some x →
  let s' := (listPop db key left now s).1 in
  wf s' ∧ (listPop db key left now s).2 = ok true (Some x) ∧
  (∀ t, view s' t db key = av_live t (list_value (if left then drop 1 l else take (length l - 1) l) ex)).
Proof.
  intros Hs Hv Hx.
  destruct (commands_refine (family := list_commands) (CPop left) db key now s I Hs)
    as (Hw & Hr & Hk & _).
  cbn [before evicts list_commands] in Hr, Hk. rewrite Hv in Hr, Hk.
  cbn [spec list_commands spec_list] in Hr, Hk. unfold spec_listPop, spec_on in Hr, Hk. cbn in Hr, Hk.
  rewrite Hx in Hr. split_and!; [done|exact Hr|]. intros t. rewrite Hk. unfold list_value.
  by destruct left.
Qed.

(** The push serves the first client that waits for the key. *)
Lemma push_wakes cmd left req c w p lw l1 l2 key values x :
  wf (w_store w) → (3 ≤ argc req)%nat → anull req 1 = false → astr req 1 = key →
  strs_from 2 req = Some values → values ≠ [] →
  view (w_store w) (w_clock w 0%nat) (c_db c) key = None →
  w_waiters w = l1 ++ p :: l2 → Forall (waits_elsewhere (c_db c) key (w_waiter w)) l1 →
  w_waiter w !! p = Some lw → lw_db lw = c_db c → lw_keys lw = [key] →
  let l := pushed_list left values in
  let lft := negb (lw_pop_right lw) in
  (if lft then head l else last l) = Some x →
  ∃ w', push_handler cmd left req (mkEnv c w) =
          Some (mkEnv c w', resp_integer (Z.of_nat (length values))) ∧
    w_waiter w' !! p = Some (finish_waiter key x lw) ∧
    w_waiters w' = filter (λ q, q ≠ p) (w_waiters w) ∧
    (∀ q, q ≠ p → w_waiter w' !! q = w_waiter w !! q) ∧
    (∀ t, view (w_store w') t (c_db c) key =
          list_value (if lft then drop 1 l else take (length l - 1) l) 0).
Proof.
  intros Hs Hargc Hnull Hkey Hvals Hne Hview Hws Hl1 Hp Hdb Hkeys l lft Hx.
  destruct w as [s clk x2 x3 ws m x6 x7 x8 x9 x10].
  cbn [w_store w_clock w_waiters w_waiter] in *. subst ws.
  destruct (push_missing (c_db c) key values left (clk 0%nat) s Hs Hne Hview) as (Hs1 & Hr1 & Hv1).
  set (s1 := (listPush (c_db c) key values left (clk 0%nat) s).1) in *.
  assert (l ≠ []) as Hlne by (intros E; rewrite E in Hx; by destruct lft).
  assert (view s1 (clk 1%nat) (c_db c) key = Some (mkAVal (VList l) 0)) as Hv2.
  { rewrite Hv1. unfold list_value. by rewrite bool_decide_eq_false_2. }
  destruct (pop_present (c_db c) key lft (clk 1%nat) s1 l x 0 Hs1 Hv2 Hx) as (_ & Hr2 & Hv3).
  set (s2 := (listPop (c_db c) key lft (clk 1%nat) s1).1) in *.
  eexists (mkWorld s2 (λ k, clk (S (S k))) x2 x3 (filter (λ q, q ≠ p) (l1 ++ p :: l2))
             (alter (finish_waiter key x) p m) x6 x7 x8 x9 x10).
  split.
  - unfold push_handler. rewrite Hnull, Hkey, Hvals.
    replace (argc req <? 3)%nat with false by (symmetry; apply Nat.ltb_ge; lia). cbn [orb].
    unfold get_ctx, mbind at 1, M_bind at 1. cbv beta iota. cbn [e_ctx].
    unfold data, timed. unfold mbind at 1, M_bind at 1. cbn [e_world w_store w_clock fst snd].
    destruct (listPush (c_db c) key values left (clk 0%nat) s) as [s1' r1] eqn:E1.
    cbn [fst snd] in *. subst r1. subst s1. unfold ok. cbn [res_ret].
    replace (Z.of_nat (length values) <? 0) with false by (symmetry; apply Z.ltb_ge; lia).
    unfold onPush, get_world, data. cbn [set_w_data].
    unfold mbind at 1 2 3, M_bind at 1 2 3. cbn [e_world w_store w_clock w_waiters w_waiter].
    rewrite serve_first_skip by done. cbn [serve_first]. rewrite Hp, Hdb, Hkeys, Z.eqb_refl.
    rewrite bool_decide_eq_true_2 by set_solver. cbn [negb orb tryFulfill]. fold lft.
    unfold timed. unfold mbind, state_bind. cbn [fst snd].
    destruct (listPop (c_db c) key lft (clk 1%nat) s1') as [s2' r2] eqn:E2.
    cbn [fst snd] in *. subst r2. unfold ok. cbn [res_ret res_out]. unfold mret, state_ret. done.
  - cbn [w_store w_waiter w_waiters]. split_and!; [by rewrite lookup_alter_eq, Hp|done| |].
    + intros q Hq. by rewrite lookup_alter_ne.
    + intros t. rewrite Hv3. unfold list_value. by destruct (bool_decide _).
Qed.

(** The fiber of a served waiter leaves its loop at once. *)
Lemma wait_loop_done yield fuel p timed_wait deadline e lw :
  w_waiter (e_world e) !! p = Some lw → lw_done lw = true →
  wait_loop yield (S fuel) p timed_wait deadline e = Some (e, Some lw).
Proof.
  intros Hp Hd. cbn [wait_loop]. unfold get_world, mbind, M_bind. cbv beta iota. by rewrite Hp, Hd.
Qed.
End blocking.

(** ** Two handlers that fail *)

Section handlers.
Context `{impl : !StdImpl}.

Lemma xread_mismatch db ks ids count now s :
  length ks ≠ length ids → xread db ks ids count now s = (s, fail false [] err_syntax).
Proof. intros H. unfold xread. by rewrite bool_decide_eq_true_2 by (by left). Qed.

(** [XREAD] takes one key fewer than it takes identifiers, or none: it always answers an
    error, and reads nothing. *)
Lemma cmd_XREAD_fails db req s clk : ∃ clk' r,
  cmd_XREAD db req (s, clk) = ((s, clk'), r) ∧ r_type r = RError.
Proof.
  unfold cmd_XREAD. destruct (argc req <? 4)%nat; [by eexists _, _|].
  destruct (if _ && _ then _ else _) as [[count ks]|]; [|by eexists _, _].
  destruct ((argc req <? ks + 2)%nat || _ || _) eqn:Hopen; [by eexists _, _|].
  apply orb_false_iff in Hopen as [Hopen _]. apply orb_false_iff in Hopen as [Hlen%Nat.ltb_ge _].
  cbv zeta. set (mid := ((argc req - ks - 1) / 2 + ks)%nat).
  destruct ((mid <=? ks)%nat || _) eqn:Hmid; [by eexists _, _|].
  apply orb_false_iff in Hmid as [Hlo%Nat.leb_gt Hhi%Nat.leb_gt].
  destruct (strs (take _ _)) as [keys|] eqn:Hk; [|by eexists _, _].
  destruct (strs (drop mid _)) as [ids|] eqn:Hi; [|by eexists _, _].
  apply strs_length in Hk, Hi. rewrite length_take, length_drop in Hk. rewrite length_drop in Hi.
  fold (argc req) in Hk, Hi.
  assert (length keys ≠ length ids) as Hne.
  { pose proof (Nat.div_mod_eq (argc req - ks - 1) 2). pose proof (Nat.mod_upper_bound (argc req - ks - 1) 2).
    unfold mid in *. lia. }
  rewrite bind_run. unfold timed. cbn [fst snd]. rewrite xread_mismatch by done.
  by eexists _, _.
Qed.

(** [GETEX key] answers the value and leaves nothing of it. *)
Lemma cmd_GETEX_expires db req key s clk v ex :
  wf s → evict_off s = true → 0 < clk 0%nat → in_i64 (clk 0%nat) →
  argc req = 2%nat → anull req 1 = false → astr req 1 = key →
  view s (clk 0%nat) db key = Some (mkAVal (VString v) ex) →
  ∃ s', cmd_GETEX db req (s, clk) = ((s', λ k, clk (S k)), resp_bulk v) ∧ wf s' ∧
    (∀ t, clk 0%nat ≤ t → view s' t db key = None).
Proof.
  intros Hs Hoff Hpos Hrange Hargc Hnull Hkey Hv.
  assert (drop 2 (r_array req) = []) as Hdrop by (apply drop_ge; unfold argc in Hargc; lia).
  unfold cmd_GETEX. rewrite Hargc, Hnull, Hkey, Hdrop. cbn [Nat.ltb Nat.leb orb getex_opts].
  destruct (commands_refine (family := str_commands) (CGetex 0 0 false) db key (clk 0%nat) s I Hs)
    as (Hw & Hr & Hk & _).
  rewrite before_off in Hr, Hk by done. rewrite Hv in Hr, Hk.
  cbn [spec str_commands spec_str] in Hr, Hk. unfold spec_getex, spec_string in Hr, Hk. cbn in Hr, Hk.
  rewrite bind_run. unfold timed. cbn [fst snd].
  change (run (CGetex 0 0 false) db key (clk 0%nat) s) with (getex db key 0 0 false (clk 0%nat) s) in *.
  destruct (getex db key 0 0 false (clk 0%nat) s) as [s' r]. cbn [fst snd] in *. subst r.
  exists s'. split_and!; [done|done|]. intros t Ht. rewrite Hk. unfold set_deadline, av_live. simpl.
  assert (i64 (clk 0%nat + i64 (0 * 1000)) = clk 0%nat) as Hnow by (change (i64 (0 * 1000)) with 0; rewrite Z.add_0_r; by apply i64_id).
  rewrite Hnow. by replace ((0 <? clk 0%nat) && (clk 0%nat <=? t)) with true by lia.
Qed.
End handlers.
