(* ===== verification/Answers.v ===== *)
(** * Every request is answered

    A handler that does not wait for other clients always ends: two units of fuel, one
    for the command and one for the commands of an [EXEC], are enough. *)

From Stdlib Require Import Ascii.
From stdpp Require Import options.
From stdpp Require Import vector finite.
From S2P Require Import Prelude.
From S2P Require Import CStd.
From S2P Require Import Double.
From S2P Require Import Store.
From S2P Require Import Resp.
From S2P Require Import Slowlog.
From S2P Require Import PubSub.
From S2P Require Import Request.
From S2P Require Import CmdKeys.
From S2P Require Import CmdColl.
From S2P Require Import Server.
From S2P Require Import Blocking.
From S2P Require Import Dispatch.
From S2P Require Import DispatchFacts.
From S2P Require Import Transactions.
From S2P Require Import StoreInv.

#[local] Set Default Proof Using "Type*".

Section answers.
Context `{impl : !StdImpl}.

Definition answers {A} (m : M A) : Prop := ∀ e, is_Some (m e).

Lemma answers_ret {A} (a : A) : answers (mret a).
Proof. intros e. by eexists. Qed.
Lemma answers_bind {A B} (m : M A) (k : A → M B) : answers m → (∀ a, answers (k a)) → answers (m ≫= k).
Proof. intros Hm Hk e. destruct (Hm e) as [[e' a] H]. rewrite (M_bind_run _ _ _ _ _ H). apply Hk. Qed.
Lemma answers_get_ctx : answers get_ctx.
Proof. intros e. by eexists. Qed.
Lemma answers_get_world : answers get_world.
Proof. intros e. by eexists. Qed.
Lemma answers_upd_ctx f : answers (upd_ctx f).
Proof. intros e. by eexists. Qed.
Lemma answers_upd_world f : answers (upd_world f).
Proof. intros e. by eexists. Qed.
Lemma answers_data {A} (m : DM A) : answers (data m).
Proof. intros e. rewrite data_run. by eexists. Qed.
Lemma answers_nowMs : answers nowMs.
Proof. apply answers_data. Qed.
End answers.

Ltac answer_step :=
  lazymatch goal with
  | |- answers (mret _) => apply answers_ret
  | |- answers get_ctx => apply answers_get_ctx
  | |- answers get_world => apply answers_get_world
  | |- answers (upd_ctx _) => apply answers_upd_ctx
  | |- answers (upd_world _) => apply answers_upd_world
  | |- answers nowMs => apply answers_nowMs
  | |- answers (data _) => apply answers_data
  | |- answers (_ ≫= _) => apply answers_bind; [|intros ?]
  end.

Ltac answer := repeat (cbv beta zeta; first [answer_step | keep_case]).

Section table.
Context `{impl : !StdImpl}.
Context (pushed : Sess → RespValue → bool) (yield : World → World) (scheduled : bool)
  (clients : list (Z * string * string)).

Lemma answers_data_handler (h : DataHandler) req : answers (data_handler h req).
Proof. unfold data_handler. answer. Qed.

Lemma answers_watch_loop l : answers (watch_loop l).
Proof. induction l as [|v l IH]; cbn [watch_loop]; answer; apply IH. Qed.

Lemma answers_meta_loop kind f s l out : answers (meta_loop kind f s l out).
Proof.
  revert out. induction l as [|v l IH]; intros out; cbn [meta_loop]; unfold upd_hub; answer; apply IH.
Qed.

Lemma answers_onPush db key : answers (onPush db key).
Proof. unfold onPush. answer. Qed.

(** The commands that wait for other clients, and [EXEC]. *)
Definition waiting : list string := ["BLPOP"; "BRPOP"; "BRPOPLPUSH"; "EXEC"].

Lemma not_waiting s : s ∉ ["BLPOP"; "BRPOP"; "BRPOPLPUSH"] → s ≠ "EXEC" → s ∉ waiting.
Proof. unfold waiting. set_solver. Qed.

Definition href_answers (h : HandlerRef) : Prop :=
  match h with Fn f => ∀ fuel req, answers (f fuel req) | FnExec => False end.

Lemma builtin_answers :
  Forall (λ p, p.1 ∈ waiting ∨ href_answers p.2) (builtin_commands pushed yield scheduled clients).
Proof.
  unfold builtin_commands. repeat (apply Forall_cons; split); [..|by apply Forall_nil]; cbn [fst snd].
  all: lazymatch goal with
  | |- _ ∨ href_answers (dh _) => right; intros fuel req; apply answers_data_handler
  | |- _ ∨ href_answers (ch _) => right; intros fuel req
  | |- _ => left; unfold waiting; set_solver
  end.
  all: lazymatch goal with
  | |- answers (cmd_WATCH _) => unfold cmd_WATCH; answer; apply answers_watch_loop
  | |- answers (cmd_LPUSH _) => unfold cmd_LPUSH, push_handler; answer; apply answers_onPush
  | |- answers (cmd_RPUSH _) => unfold cmd_RPUSH, push_handler; answer; apply answers_onPush
  | |- answers (cmd_PUBLISH _ _) => unfold cmd_PUBLISH; answer
  | |- _ =>
      unfold cmd_PING, cmd_SELECT, cmd_ECHO, cmd_UNWATCH, cmd_MULTI, cmd_DISCARD, cmd_AUTH, cmd_QUIT,
        cmd_CLIENT, cmd_SLOWLOG, cmd_SUBSCRIBE, cmd_PSUBSCRIBE, cmd_UNSUBSCRIBE, cmd_PUNSUBSCRIBE,
        subscribe_handler, with_session, upd_hub, leave_if_none; answer; apply answers_meta_loop
  end.
Qed.

Abbreviation table := (builtin pushed yield scheduled clients).

Lemma run_answers fuel raw h req :
  find_handler table raw = Some h → upperArg raw ∉ waiting → answers (run_handler table (S fuel) h req).
Proof.
  intros Hin%builtin_finds_iff Hn.
  destruct (proj1 (Forall_forall _ _) builtin_answers _ Hin) as [Hw|Hh]; [done|].
  cbn [snd] in Hh. cbn [run_handler]. destruct h as [f|]; [apply Hh|done].
Qed.

Lemma one_answers fuel cmd : upperArg (astr cmd 0) ∉ waiting → answers (dispatchExecOne table (S fuel) cmd).
Proof.
  intros Hn. unfold dispatchExecOne, exec_one. answer. by eapply run_answers.
Qed.

(** A request is answered when neither it nor, for [EXEC], the queue waits. *)
Lemma dispatch_answers fuel req e :
  upperArg (astr req 0) ∉ ["BLPOP"; "BRPOP"; "BRPOPLPUSH"] →
  Forall (λ cmd, upperArg (astr cmd 0) ∉ waiting) (c_multi_queue (e_ctx e)) →
  is_Some (dispatch table (S (S fuel)) req e).
Proof.
  intros Hn Hq. destruct (well_formed req) eqn:Hw.
  2:{ destruct (dispatch_malformed table (S (S fuel)) req e Hw) as (r & -> & _). by eexists. }
  rewrite dispatch_open by done. destruct (gate _ _ _); [by eexists|].
  destruct (multi_step _ _); [|by eexists..].
  destruct (find_handler table (astr req 0)) as [h|] eqn:Hf; [|by eexists].
  rewrite (M_bind_run _ _ _ _ _ (nowMs_run e)).
  assert (is_Some (run_handler table (S (S fuel)) h req (tick e))) as [[e1 r] Hr].
  { destruct (decide (upperArg (astr req 0) = "EXEC")) as [He|He].
    - assert (h = FnExec) as ->.
      { apply builtin_finds_iff in Hf. rewrite He in Hf.
        assert (find_handler table "EXEC" = Some FnExec) as E
          by (apply builtin_finds_iff; registered).
        assert (find_handler table "EXEC" = Some h) as E' by (by apply builtin_finds_iff). congruence. }
      change (is_Some (cmd_EXEC (dispatchExecOne table (S fuel)) req (tick e))).
      unfold cmd_EXEC. destruct (negb _); [by eexists|]. unfold get_ctx, mbind at 1, M_bind at 1.
      cbv beta iota. rewrite tick_ctx. destruct (negb _); [by eexists|].
      destruct (watchConflict_run (tick e)) as (s' & Hc & _).
      rewrite (M_bind_run _ _ _ _ _ Hc). unfold mbind, M_bind, upd_ctx. cbv beta iota.
      destruct (moved _ _); [by eexists|]. apply exec_loop_total. intros cmd e' Hin.
      apply one_answers. by apply (proj1 (Forall_forall _ _) Hq).
    - apply (run_answers (S fuel) (astr req 0)); [done|]. by apply not_waiting. }
  rewrite (M_bind_run _ _ _ _ _ Hr), (M_bind_run _ _ _ _ _ (nowMs_run e1)).
  edestruct (slow_record_run req) as (w' & Hs & _). rewrite (M_bind_run _ _ _ _ _ Hs).
  by eexists.
Qed.
End table.
