(* ===== verification/AofFacts.v ===== *)
(** * Rewriting and replaying the append-only file

    The commands [rewrite] writes for a store are replayed by the dispatcher as the store
    operations they name ([replays_ops]); on an empty keyspace their specifications give
    back the values they were written for ([ops_restore]); together ([rewrite_replay])
    the rewritten file brings the store back. *)

From Stdlib Require Import Ascii.
From stdpp Require Import options.
From stdpp Require Import vector finite.
From S2P Require Import Prelude.
From S2P Require Import CStd.
From S2P Require Import Double.
From S2P Require Import Store.
From S2P Require Import Evict.
From S2P Require Import StoreFacts.
From S2P Require Import StrOps.
From S2P Require Import HashOps.
From S2P Require Import ListOps.
From S2P Require Import SetOps.
From S2P Require Import ZSetOps.
From S2P Require Import KeySpace.
From S2P Require Import EvictFacts.
From S2P Require Import Commands.
From S2P Require Import Refinement.
From S2P Require Import Resp.
From S2P Require Import RespReader.
From S2P Require Import RespFacts.
From S2P Require Import Slowlog.
From S2P Require Import PubSub.
From S2P Require Import Request.
From S2P Require Import CmdKeys.
From S2P Require Import CmdColl.
From S2P Require Import Server.
From S2P Require Import Blocking.
From S2P Require Import Dispatch.
From S2P Require Import DispatchFacts.
From S2P Require Import Transactions.
From S2P Require Import Rdb.
From S2P Require Import RdbFacts.
From S2P Require Import MultiKey.
From S2P Require Import Aof.

#[local] Set Default Proof Using "Type*".

(** ** The text of commands *)

Section text.
Context (reserves : Z → bool).

(** A command the parser takes whole. *)
Definition fits (args : list string) : Prop :=
  Z.of_nat (length args) ≤ INT64_MAX ∧ reserves (Z.of_nat (length args)) = true ∧
  Forall (λ s, Z.of_nat (String.length s) ≤ INT64_MAX) args.

#[export] Instance fits_dec args : Decision (fits args).
Proof. unfold fits. apply _. Defined.

Lemma parseValue_bulk fuel s rest :
  Z.of_nat (String.length s) ≤ INT64_MAX →
  parseValue reserves (S fuel) (chars (encode (resp_bulk s)) ++ rest) RespValue0 =
  Some (POk, resp_bulk s, String.length (encode (resp_bulk s))).
Proof.
  intros Hs. cbn [encode r_type resp_bulk r_is_null r_str]. rewrite bulk_header by done.
  rewrite !chars_app, <-!app_assoc, chars_crlf. cbn [chars app parseValue].
  rewrite parse_bulk_back by done. cbn [fst snd]. rewrite !app_length_s.
  change (String.length crlf) with 2%nat. simpl. do 2 f_equal. lia.
Qed.

Lemma items_bulks fuel args rest items read n :
  Forall (λ s, Z.of_nat (String.length s) ≤ INT64_MAX) args → (length args < n)%nat →
  parse_items (parseValue reserves (S fuel)) n (Z.of_nat (length args))
    (chars (encode_all (resp_bulk <$> args)) ++ rest) items read =
  Some (POk, items ++ (resp_bulk <$> args), (read + String.length (encode_all (resp_bulk <$> args)))%nat).
Proof.
  revert items read n. induction args as [|s args IH]; intros items read n Hl Hn.
  - destruct n; [lia|]. simpl. by rewrite app_nil_r, Nat.add_0_r.
  - destruct n as [|n]; [lia|]. apply Forall_cons in Hl as [Hs Hl]. rewrite fmap_cons. cbn [encode_all].
    rewrite chars_app, <-app_assoc. cbn [parse_items length].
    destruct (Z.leb_spec (Z.of_nat (S (length args))) 0); [lia|].
    rewrite parseValue_bulk by done. cbn [mbind option_bind]. rewrite bool_decide_eq_true_2 by done.
    rewrite drop_chars. replace (Z.of_nat (S (length args)) - 1) with (Z.of_nat (length args)) by lia.
    rewrite IH by (done || (simpl in Hn; lia)). rewrite <-app_assoc, app_length_s. do 2 f_equal. lia.
Qed.

Lemma tryParse_bulks args rest :
  fits args →
  tryParse reserves (chars (encode (bulks args)) ++ rest) RespValue0 =
  Some (POk, bulks args, String.length (encode (bulks args))).
Proof.
  intros (Hn & Hr & Hl). unfold bulks. rewrite encode_array by done. cbn [r_array resp_array].
  rewrite length_fmap, appendInt64_pos by lia. rewrite !chars_app, <-!app_assoc, chars_crlf.
  set (z := Z.of_nat (length args)) in *. cbn [chars app tryParse isRespPrefix].
  set (data := "*"%char :: _). cbn [parseValue data].
  rewrite readInt64_to_string; [|lia|done]. rewrite drop_chars, at_crlf_app. cbn [negb].
  destruct (Z.ltb_spec z 0); [lia|]. rewrite Hr. cbn [negb].
  rewrite <-drop_drop, drop_chars. cbn [drop]. rewrite drop_0.
  assert (∃ k, length data = S k) as [k ->] by (by eexists).
  unfold z. rewrite items_bulks; [|done|].
  - cbn [mbind option_bind app]. do 2 f_equal. rewrite !app_length_s. simpl. lia.
  - rewrite length_app, chars_length. pose proof (encode_all_length (resp_bulk <$> args)) as H'.
    rewrite length_fmap in H'. lia.
Qed.

(** The commands run one after the other, a request to quit ignored. *)
Inductive plays (run : Handler) : list RespValue → Env → Env → Prop :=
  | plays_nil e : plays run [] e e
  | plays_cons cmd cmds e e1 r e' :
      run cmd e = Some (e1, r) →
      plays run cmds (mkEnv (set_c_quit false (e_ctx e1)) (e_world e1)) e' →
      plays run (cmd :: cmds) e e'.

Lemma plays_app run cmds1 cmds2 e e1 e2 :
  plays run cmds1 e e1 → plays run cmds2 e1 e2 → plays run (cmds1 ++ cmds2) e e2.
Proof. intros H1 H2. induction H1; [done|]. econstructor; [done|by apply IHplays]. Qed.

(** Replaying the text of commands runs them. *)
Lemma replay_loop_plays run cmds e e' : plays run (bulks <$> cmds) e e' → Forall fits cmds →
  ∀ fuel pos, (length cmds < fuel)%nat →
  replay_loop reserves run fuel (chars (encode_all (bulks <$> cmds))) pos e = Some (e', ok true tt).
Proof.
  remember (bulks <$> cmds) as reqs eqn:E. intros H. revert cmds E.
  induction H as [e|req reqs e e1 r e' Hrun Hplay IH]; intros cmds E Hf fuel pos Hfuel.
  - destruct cmds; [|done]. by destruct fuel.
  - destruct cmds as [|cmd cmds]; [done|]. injection E as -> ->. apply Forall_cons in Hf as [Hc Hf].
    change (list_fmap _ _ bulks cmds) with (bulks <$> cmds) in *.
    destruct fuel as [|fuel]; [lia|]. cbn [encode_all fmap list_fmap].
    change (list_fmap _ _ bulks cmds) with (bulks <$> cmds). rewrite chars_app.
    pose proof (tryParse_bulks cmd (chars (encode_all (bulks <$> cmds))) Hc) as Hp.
    pose proof (drop_chars (encode (bulks cmd)) (chars (encode_all (bulks <$> cmds)))) as Hdrop.
    destruct (encode_starts (bulks cmd)) as (c & s & Es & _).
    destruct (chars (encode (bulks cmd)) ++ _) as [|c' data] eqn:Ed; [by rewrite Es in Ed|].
    cbn [replay_loop]. rewrite Hp, Hdrop, (M_bind_run _ _ _ _ _ Hrun).
    apply (IH cmds); [done..|simpl in Hfuel; lia].
Qed.
End text.

(** ** The commands of a rewrite *)

Inductive RewriteOp : Type :=
  | OpSet (key value : string)
  | OpSetex (key : string) (ttl : Z) (value : string)
  | OpHset (key field value : string)
  | OpRpush (key : string) (l : list string)
  | OpSadd (key : string) (l : list string)
  | OpZadd (key : string) (l : list (string * double))
  | OpExpire (key : string) (ttl : Z).

Definition op_key (op : RewriteOp) : string :=
  match op with
  | OpSet key _ | OpSetex key _ _ | OpHset key _ _ | OpRpush key _ | OpSadd key _
  | OpZadd key _ | OpExpire key _ => key
  end.

Section ops.
Context `{impl : !StdImpl}.

Definition op_args (op : RewriteOp) : list string :=
  match op with
  | OpSet key value => ["SET"; key; value]
  | OpSetex key ttl value => ["SETEX"; key; to_string ttl; value]
  | OpHset key field value => ["HSET"; key; field; value]
  | OpRpush key l => "RPUSH" :: key :: l
  | OpSadd key l => "SADD" :: key :: l
  | OpZadd key l => "ZADD" :: key :: (l ≫= λ z, [scoreToString z.2; z.1])
  | OpExpire key ttl => ["EXPIRE"; key; to_string ttl]
  end.

Definition no_options : ZaddOptions := mkZadd false false false false false.

(** The operation of the store each is for. *)
Definition op_command (op : RewriteOp) : Command :=
  match op with
  | OpSet _ value => inl (inl (inl (CSetOpt value false false (-1) (-1))))
  | OpSetex _ ttl value => inl (inl (inl (CSetOpt value false false ttl (-1))))
  | OpHset _ field value => inl (inl (inr (CHset field value)))
  | OpRpush _ l => inl (inr (inl (CPush l false)))
  | OpSadd _ l => inl (inr (inr (CSadd l)))
  | OpZadd _ l => inr (inl (CZaddOpt no_options ((λ z, (z.2, z.1)) <$> l)))
  | OpExpire _ ttl => inl (inl (inl (CExpire ttl)))
  end.

(** A score that is read back from its six digits. *)
Definition printable (d : double) : Prop :=
  parseDoubleArg (resp_bulk (scoreToString d)) = Some d ∧
  upperArg (scoreToString d) ∉ ["NX"; "XX"; "GT"; "LT"; "CH"].

Definition op_ok (op : RewriteOp) : Prop :=
  match op with
  | OpSet _ _ | OpHset _ _ _ => True
  | OpSetex _ ttl _ | OpExpire _ ttl => in_i64 ttl
  | OpRpush _ l | OpSadd _ l => l ≠ []
  | OpZadd _ l => l ≠ [] ∧ Forall (λ z, printable z.2) l
  end.

Lemma op_args_ok op : op_ok op → args_ok (op_command op).
Proof.
  destruct op; simpl; try done. intros [Hl _]. split_and!; [|done..].
  by intros E%fmap_nil_inv.
Qed.

(** *** The arguments, as the handlers read them *)

Lemma parseInt64Arg_to_string z : in_i64 z → parseInt64Arg (resp_bulk (to_string z)) = Some z.
Proof.
  intros Hz. unfold parseInt64Arg. cbn [r_is_null resp_bulk negb orb is_bulk r_type r_str].
  assert (to_string z ≠ "") as Hne.
  { destruct (decide (0 ≤ z)) as [Hp|Hn]; [|by rewrite to_string_neg by lia].
    destruct (to_string_starts z Hp) as (c & s & d & -> & _). done. }
  change (is_bulk _) with true. rewrite bool_decide_eq_false_2 by done. cbn [negb orb].
  rewrite strtoll_to_string by done.
  destruct (String.length (to_string z)) as [|k] eqn:El; [by destruct (to_string z)|].
  cbn [Nat.eqb orb]. rewrite <-El. unfold c_end. 
  assert (∀ s, String.get (String.length s) s = None) as -> by (intros s; induction s; [done|simpl; done]).
  done.
Qed.

Lemma strs_bulks l : strs (resp_bulk <$> l) = Some l.
Proof. induction l as [|s l IH]; [done|]. cbn. by rewrite IH. Qed.

Lemma zadd_members_scores l : Forall (λ z, printable z.2) l →
  zadd_members (resp_bulk <$> (l ≫= λ z, [scoreToString z.2; z.1])) = inr ((λ z, (z.2, z.1)) <$> l).
Proof.
  induction l as [|[m d] l IH]; [done|]. intros [[Hd _] Hl]%Forall_cons.
  cbn [mbind list_bind app fmap list_fmap fst snd] in *. cbn [zadd_members r_is_null resp_bulk orb].
  change (mkResp RBulkString (scoreToString d) 0 [] false) with (resp_bulk (scoreToString d)).
  rewrite Hd. by rewrite IH.
Qed.

Lemma zadd_flags_scores l : l ≠ [] → Forall (λ z, printable z.2) l →
  zadd_flags (resp_bulk <$> (l ≫= λ z, [scoreToString z.2; z.1])) no_options =
  Some (no_options, resp_bulk <$> (l ≫= λ z, [scoreToString z.2; z.1])).
Proof.
  destruct l as [|[m d] l]; [done|]. intros _ [[_ Hd] _]%Forall_cons.
  cbn [mbind list_bind app fmap list_fmap fst snd] in *. cbn [zadd_flags r_is_null resp_bulk r_str no_options].
  rewrite !bool_decide_eq_false_2; [done|set_solver..].
Qed.

Lemma length_scores (l : list (string * double)) :
  length (l ≫= λ z, [scoreToString z.2; z.1]) = (2 * length l)%nat.
Proof. induction l as [|z l IH]; [done|]. cbn in *. rewrite IH. lia. Qed.
End ops.

(** ** Replaying them *)

Section replay.
Context `{impl : !StdImpl}.
Context (pushed : Sess → RespValue → bool) (yield : World → World) (scheduled : bool)
  (clients : list (Z * string * string)) (fuel : nat).
Context (clk : nat → Z).
Abbreviation table := (builtin pushed yield scheduled clients).
Abbreviation run_one := (dispatch table (S fuel)).

(** The state of a replay: a fresh context on database [d], no password, not a replica,
    nobody waiting, [n] readings of the clock taken. *)
Record booted (d : Z) (n : nat) (e : Env) : Prop := {
  b_ctx : e_ctx e = set_c_db d KvContext0;
  b_pass : w_pass (e_world e) = "";
  b_role : w_role (e_world e) ≠ Some Slave;
  b_waiters : w_waiters (e_world e) = [];
  b_off : evict_off (w_store (e_world e)) = true;
  b_clock : ∀ k, w_clock (e_world e) k = clk (n + k)%nat
}.

Lemma slow_record_later req t0 t1 e : ∃ n sl,
  slow_record req t0 t1 e =
  Some (mkEnv (e_ctx e) (set_w_slowlog sl (set_w_data (w_store (e_world e))
          (λ k, w_clock (e_world e) (n + k)%nat) (e_world e))), tt).
Proof.
  unfold slow_record, get_ctx, get_world, upd_world, mbind, M_bind, mret, M_ret. cbv beta iota zeta.
  destruct e as [c w]. cbn [e_ctx e_world]. destruct (_ <? _); cbv beta iota.
  - exists 0%nat. eexists. by destruct w.
  - rewrite nowMs_run. cbv beta iota. exists 1%nat. eexists. by destruct w.
Qed.

Lemma gate_booted d n e raw : booted d n e → gate (e_ctx e) (e_world e) raw = None.
Proof.
  intros [Hc Hp Hr _ _ _]. unfold gate, isAuthRequired. rewrite Hc, Hp. simpl.
  by destruct (w_role (e_world e)) as [[]|].
Qed.

(** A handler that leaves the connection, but for its database, and the hub alone. *)
Lemma booted_dispatch d d' n m e name args h s' clk' r :
  booted d n e → (name, h) ∈ builtin_commands pushed yield scheduled clients → upperArg name = name →
  run_handler table (S fuel) h (bulks (name :: args)) (tick e) =
    Some (mkEnv (set_c_db d' KvContext0) (set_w_data s' clk' (e_world e)), r) →
  (∀ k, clk' k = clk (n + m + k)%nat) → evict_off s' = true →
  ∃ e1 m1, run_one (bulks (name :: args)) e = Some (e1, r) ∧ w_store (e_world e1) = s' ∧
    booted d' (n + m + m1) (mkEnv (set_c_quit false (e_ctx e1)) (e_world e1)).
Proof.
  intros Hb Hin Hup Hrun Hclk Hoff. destruct Hb as [Hc Hp Hr Hw Ho Hk] eqn:Eb.
  rewrite dispatch_open by done. change (astr (bulks (name :: args)) 0) with name.
  rewrite (gate_booted d n e name Hb), Hc. cbn [multi_step c_multi_mode set_c_db KvContext0].
  assert (find_handler table name = Some h) as -> by (apply builtin_finds_iff; by rewrite Hup).
  rewrite (M_bind_run _ _ _ _ _ (nowMs_run e)), (M_bind_run _ _ _ _ _ Hrun).
  set (e2 := mkEnv _ _). rewrite (M_bind_run _ _ _ _ _ (nowMs_run e2)).
  destruct (slow_record_later (bulks (name :: args)) (w_clock (e_world e) 0%nat) (w_clock (e_world e2) 0%nat) (tick e2))
    as (m1 & sl & Hs).
  rewrite (M_bind_run _ _ _ _ _ Hs). eexists _, (S m1). split; [done|].
  destruct e as [c w]. destruct w. simpl in *. split; [done|]. split; simpl; try done.
  intros k. rewrite Hclk. f_equal. lia.
Qed.

Lemma select_replays d d' n e : booted d n e → 0 ≤ d' ≤ 15 →
  ∃ e1 r m, run_one (bulks ["SELECT"; to_string d']) e = Some (e1, r) ∧
    w_store (e_world e1) = w_store (e_world e) ∧
    booted d' (n + m) (mkEnv (set_c_quit false (e_ctx e1)) (e_world e1)).
Proof.
  intros Hb Hd.
  destruct (booted_dispatch d d' n 1 e "SELECT" [to_string d'] (ch cmd_SELECT) (w_store (e_world e))
    (λ k, w_clock (e_world e) (S k)) resp_ok Hb) as (e1 & m1 & H1 & H2 & H3).
  - registered.
  - done.
  - assert (parseDbIndex (resp_bulk (to_string d')) = Some d') as Hp.
    { assert (d' ∈ seqZ 0 16) as Hin by (apply elem_of_seqZ; lia). clear -Hin.
      assert (Forall (λ d, parseDbIndex (resp_bulk (to_string d)) = Some d) (seqZ 0 16)) as H
        by (apply (bool_decide_unpack _); by vm_compute).
      by apply (proj1 (Forall_forall _ _) H). }
    cbn [run_handler ch]. unfold cmd_SELECT. change (argc _) with 2%nat. cbn [Nat.eqb negb].
    change (arg _ 1) with (resp_bulk (to_string d')). rewrite Hp.
    unfold upd_ctx, mbind, M_bind, mret, M_ret. rewrite tick_ctx, (b_ctx _ _ _ Hb). done.
  - intros k. rewrite (b_clock _ _ _ Hb). f_equal. lia.
  - apply (b_off _ _ _ Hb).
  - exists e1, resp_ok, (1 + m1)%nat. by rewrite Nat.add_assoc.
Qed.

(** What the replay of one operation gives. *)
Definition op_done (d : Z) (n : nat) (op : RewriteOp) (e : Env) : Prop :=
  ∃ e1 r m, run_one (bulks (op_args op)) e = Some (e1, r) ∧
    w_store (e_world e1) = (run (op_command op) d (op_key op) (clk (S n)) (w_store (e_world e))).1 ∧
    booted d (S n + m) (mkEnv (set_c_quit false (e_ctx e1)) (e_world e1)).

Lemma run_off (c : Command) db key now s :
  args_ok c → evict_off s = true → evict_off (run c db key now s).1 = true.
Proof.
  intros Ha Ho. destruct (run_config c db key now s Ha) as [H1 H2]. unfold evict_off in *.
  rewrite before_off in H1, H2 by done. by rewrite H1, H2.
Qed.

Lemma handler_replays d n e op name args h clk' r :
  booted d n e → op_ok op → op_args op = name :: args →
  (name, h) ∈ builtin_commands pushed yield scheduled clients → upperArg name = name →
  run_handler table (S fuel) h (bulks (op_args op)) (tick e) =
    Some (mkEnv (e_ctx e) (set_w_data (run (op_command op) d (op_key op) (clk (S n)) (w_store (e_world e))).1
                             clk' (e_world e)), r) →
  (∀ k, clk' k = clk (n + 2 + k)%nat) → op_done d n op e.
Proof.
  intros Hb Hop Ha Hin Hup Hrun Hclk. rewrite Ha, (b_ctx _ _ _ Hb) in Hrun.
  destruct (booted_dispatch d d n 2 e name args h _ _ _ Hb Hin Hup Hrun Hclk) as (e1 & m1 & H1 & H2 & H3).
  { apply run_off; [by apply op_args_ok|apply (b_off _ _ _ Hb)]. }
  exists e1, r, (S m1). rewrite Ha. replace (S n + S m1)%nat with (n + 2 + m1)%nat by lia. done.
Qed.

(** A data command that reads the clock once. *)
Lemma data_replays d n e op name args h :
  booted d n e → op_ok op → op_args op = name :: args →
  (name, dh h) ∈ builtin_commands pushed yield scheduled clients → upperArg name = name →
  (∀ s c, ∃ r, h d (bulks (op_args op)) (s, c) =
    (((run (op_command op) d (op_key op) (c 0%nat) s).1, λ k, c (S k)), r)) →
  op_done d n op e.
Proof.
  intros Hb Hop Ha Hin Hup Hh.
  destruct (Hh (w_store (e_world e)) (λ k, w_clock (e_world e) (S k))) as [r Hr].
  apply (handler_replays d n e op name args (dh h) (λ k, w_clock (e_world e) (S (S k))) r); [done..| |].
  - cbn [run_handler dh]. unfold data_handler, get_ctx, mbind, M_bind. cbv beta iota.
    rewrite tick_ctx, (b_ctx _ _ _ Hb). unfold data. destruct e as [c w]. destruct w. simpl in *.
    rewrite Hr. pose proof (b_clock _ _ _ Hb 1) as Hk. simpl in Hk. rewrite Hk, Nat.add_1_r.
    pose proof (b_ctx _ _ _ Hb) as Hc. simpl in Hc. by rewrite Hc.
  - intros k. rewrite (b_clock _ _ _ Hb). f_equal. lia.
Qed.

Lemma timed_once {A} (op : Z → KM A) (f : A → RespValue) s c :
  (timed op ≫= λ a, mret (f a)) (s, c) = (((op (c 0%nat) s).1, λ k, c (S k)), f (op (c 0%nat) s).2).
Proof. unfold timed, mbind, state_bind. cbn [fst snd]. by destruct (op _ s). Qed.

Lemma rpush_replays d n e key l : booted d n e → l ≠ [] → op_done d n (OpRpush key l) e.
Proof.
  intros Hb Hl. destruct (run (op_command (OpRpush key l)) d key (clk (S n)) (w_store (e_world e))) as [s' r] eqn:Er.
  eapply (handler_replays d n e (OpRpush key l) "RPUSH" (key :: l) (ch cmd_RPUSH)
    (λ k, w_clock (e_world e) (S (S k))) (if res_ret r <? 0 then err_reply r else resp_integer (res_ret r)));
    [done..|registered|done| |].
  - destruct l as [|x l]; [done|]. cbn [run_handler ch op_args]. unfold cmd_RPUSH, push_handler.
    change (argc _ <? 3)%nat with false. change (anull _ 1) with false. cbn [orb].
    change (strs_from 2 _) with (strs (resp_bulk <$> x :: l)). rewrite strs_bulks.
    change (astr _ 1) with key. 
    rewrite (M_bind_run get_ctx _ (tick e) (tick e) (e_ctx (tick e)) eq_refl).
    rewrite tick_ctx, (b_ctx _ _ _ Hb). rewrite (M_bind_run _ _ _ _ _ (data_run _ _)).
    unfold timed. cbn [fst snd]. pose proof (b_clock _ _ _ Hb 1) as Hk. rewrite Nat.add_1_r in Hk.
    change (w_store (e_world (tick e))) with (w_store (e_world (tick e))).
    destruct e as [c w]. destruct w. simpl in *. rewrite Hk. rewrite Er. cbn [fst snd].
    pose proof (b_ctx _ _ _ Hb) as Hc. pose proof (b_waiters _ _ _ Hb) as Hw. simpl in Hc, Hw. subst.
    destruct (res_ret r <? 0); [done|]. unfold onPush. done.
  - intros k. rewrite (b_clock _ _ _ Hb). f_equal. lia.
Qed.

Lemma op_replays d n e op : booted d n e → op_ok op → op_done d n op e.
Proof.
  intros Hb Hop. destruct op as [key v|key ttl v|key f v|key l|key l|key l|key ttl];
    [..|by apply rpush_replays| | |]; try (eapply data_replays; [done..|reflexivity|registered|done|]; intros s c; eexists).
  - exact (timed_once (setOpt d key v false false (-1) (-1)) (λ rc, if rc =? 0 then resp_nullBulk else resp_ok) s c).
  - cbn [op_args]. unfold cmd_SETEX. change (arg _ 2) with (resp_bulk (to_string ttl)).
    rewrite parseInt64Arg_to_string by done.
    etransitivity; [exact (timed_once (setex d key v ttl) (λ _, resp_ok) s c)|].
    change (run _ d (op_key _) (c 0%nat) s) with (setOpt d key v false false ttl (-1) (c 0%nat) s).
    unfold setex, mbind, state_bind. by destruct (setOpt _ _ _ _ _ _ _ _ s).
  - exact (timed_once (hset d key f v) reply_count s c).
  - destruct l as [|x l]; [done|]. cbn [op_args]. unfold cmd_SADD, members_handler.
    change (strs_from 2 _) with (strs (resp_bulk <$> x :: l)). rewrite strs_bulks.
    exact (timed_once (setAdd d key (x :: l)) reply_count s c).
  - destruct Hop as [Hl Hs]. cbn [op_args]. unfold cmd_ZADD.
    change (drop 2 _) with (resp_bulk <$> (l ≫= λ z, [scoreToString z.2; z.1])).
    change (mkZadd false false false false false) with no_options.
    rewrite zadd_flags_scores by done. cbv beta iota. rewrite length_fmap, length_scores.
    assert (Nat.odd (2 * length l) = false) as ->
      by (rewrite <-Nat.negb_even; apply negb_false_iff, Nat.even_spec; by exists (length l)).
    rewrite zadd_members_scores by done. destruct l as [|z l]; [done|].
    exact (timed_once (zaddOpt d key no_options ((λ z, (z.2, z.1)) <$> z :: l)) reply_count s c).
  - cbn [op_args]. unfold cmd_EXPIRE, expire_handler. change (arg _ 2) with (resp_bulk (to_string ttl)).
    rewrite parseInt64Arg_to_string by done.
    exact (timed_once (expire d key ttl) resp_integer s c).
Qed.

Definition timed_as (d : Z) (op : RewriteOp) (rq : Refinement.Request Command) : Prop :=
  rq_cmd rq = op_command op ∧ rq_db rq = d ∧ rq_key rq = op_key op ∧ ∃ k, rq_now rq = clk k.

Context (clk_mono : ∀ k, clk k ≤ clk (S k)).

Lemma clk_later n m : clk n ≤ clk (n + m)%nat.
Proof. induction m as [|m IH]; [by rewrite Nat.add_0_r|]. rewrite Nat.add_succ_r. specialize (clk_mono (n + m)). lia. Qed.

Lemma last_clock_cons t (rq : Refinement.Request Command) rqs : last_clock t (rq :: rqs) = last_clock (rq_now rq) rqs.
Proof. done. Qed.

Lemma clock_from_weaken t t' (rqs : list (Refinement.Request Command)) : t ≤ t' → clock_from t' rqs → clock_from t rqs.
Proof. destruct rqs; [done|]. simpl. intros ? [? ?]. split; [lia|done]. Qed.

Lemma last_clock_le t t' (rqs : list (Refinement.Request Command)) : t ≤ t' → last_clock t rqs ≤ last_clock t' rqs.
Proof. destruct rqs; [done|]. intros _. rewrite !last_clock_cons. lia. Qed.

(** A list of operations is replayed as the store operations they name. *)
Lemma ops_replay d ops : Forall op_ok ops → ∀ n e, booted d n e →
  ∃ rqs e' m, plays run_one (bulks ∘ op_args <$> ops) e e' ∧ Forall2 (timed_as d) ops rqs ∧
    clock_from (clk n) rqs ∧ last_clock (clk n) rqs ≤ clk (n + m)%nat ∧
    w_store (e_world e') = (run_all rqs (w_store (e_world e))).1 ∧ booted d (n + m) e'.
Proof.
  induction 1 as [|op ops Hop Hops IH]; intros n e Hb.
  { exists [], e, 0%nat. rewrite Nat.add_0_r. split_and!; try done; constructor. }
  destruct (op_replays d n e op Hb Hop) as (e1 & r & m1 & Hrun & Hs & Hb1).
  destruct (IH _ _ Hb1) as (rqs & e' & m2 & Hp & Hrqs & Hc & Hl & Hs2 & Hb2).
  exists (mkRequest (op_command op) d (op_key op) (clk (S n)) :: rqs), e', (S m1 + m2)%nat.
  replace (n + (S m1 + m2))%nat with (S n + m1 + m2)%nat by lia.
  pose proof (clk_later n 1) as H1. pose proof (clk_later (S n) m1) as H2. rewrite Nat.add_1_r in H1.
  split_and!; [|constructor; [split_and!; try done; by eexists|done]| | | |done].
  - cbn [fmap list_fmap compose]. by eapply plays_cons.
  - cbn [clock_from rq_now]. split; [done|]. by eapply clock_from_weaken.
  - rewrite last_clock_cons. etransitivity; [by apply last_clock_le|done].
  - rewrite Hs2. cbn [run_all rq_cmd rq_db rq_key rq_now e_world]. rewrite Hs.
    destruct (run (op_command op) d (op_key op) (clk (S n)) (w_store (e_world e))) as [s1 r1]. cbn [fst].
    by destruct (run_all rqs s1).
Qed.
End replay.

(** ** What they make of an empty keyspace *)

Section restore.
Context `{impl : !StdImpl}.
Context (clk : nat → Z).

Abbreviation Requests := (list (Refinement.Request Command)).

(** One key's requests, one after the other. *)
Definition key_spec (rqs : Requests) (o : option AVal) : option AVal :=
  foldl (λ o rq, (spec (rq_cmd rq) (rq_now rq) (av_live (rq_now rq) o)).1) o rqs.

Lemma spec_all_lookup (rqs : Requests) K db key :
  (spec_all rqs K).1 db key =
  key_spec (filter (λ rq, (rq_db rq, rq_key rq) = (db, key)) rqs) (K db key).
Proof.
  revert K. induction rqs as [|rq rqs IH]; intros K; [done|]. cbn [spec_all].
  destruct (spec (rq_cmd rq) (rq_now rq) _) as [o r] eqn:Es.
  destruct (spec_all rqs _) as [K2 rs] eqn:Ek. cbn [fst].
  replace K2 with (K2, rs).1 by done. rewrite <-Ek, IH, filter_cons. clear Ek.
  case_decide as Hd.
  - injection Hd as E1 E2. rewrite decide_True by congruence. cbn [key_spec foldl]. rewrite <-E1, <-E2 in Es. by rewrite Es.
  - by rewrite decide_False by congruence.
Qed.

Lemma av_live_plain t v : av_live t (Some (mkAVal v 0)) = Some (mkAVal v 0).
Proof. done. Qed.

(** *** Each operation *)

Lemma spec_hset_on now f v (h : gmap string string) :
  (spec (inl (inl (inr (CHset f v))) : Command) now (Some (mkAVal (VHash h) 0))).1 =
  Some (mkAVal (VHash (<[f := v]> h)) 0).
Proof.
  cbn. unfold spec_hset, spec_on. cbn. rewrite bool_decide_eq_false_2; [done|apply insert_non_empty].
Qed.

Lemma spec_hset_new now f v :
  (spec (inl (inl (inr (CHset f v))) : Command) now None).1 = Some (mkAVal (VHash {[f := v]}) 0).
Proof. cbn. unfold spec_hset, spec_on. cbn. by rewrite bool_decide_eq_false_2 by apply insert_non_empty. Qed.

Lemma key_spec_hset d key rqs l (h : gmap string string) :
  Forall2 (timed_as clk d) ((λ f, OpHset key f.1 f.2) <$> l) rqs →
  key_spec rqs (Some (mkAVal (VHash h) 0)) =
  Some (mkAVal (VHash (foldl (λ m p, <[p.1 := p.2]> m) h l)) 0).
Proof.
  revert h rqs. induction l as [|[f v] l IH]; intros h rqs; [by intros ->%Forall2_nil_inv_l|].
  intros (rq & rqs' & (Hc & _ & _ & _) & H & ->)%Forall2_cons_inv_l.
  cbn [key_spec foldl]. rewrite Hc, av_live_plain. cbn [op_command]. rewrite spec_hset_on.
  by apply IH.
Qed.

Lemma key_spec_hash d key rqs (h : gmap string string) : h ≠ ∅ →
  Forall2 (timed_as clk d) ((λ f, OpHset key f.1 f.2) <$> hash_iter h) rqs →
  key_spec rqs None = Some (mkAVal (VHash h) 0).
Proof.
  intros Hh H.
  assert (foldl (λ m p, <[p.1 := p.2]> m) ∅ (hash_iter h) = h) as Hl by apply foldl_insert_perm, hash_iter_perm.
  destruct (hash_iter h) as [|[f v] l]; [by rewrite <-Hl in Hh|].
  destruct (Forall2_cons_inv_l _ _ _ _ H) as (rq & rqs' & (Hc & _ & _ & _) & H' & ->).
  cbn [key_spec foldl]. rewrite Hc. cbn [av_live op_command fst snd].
  rewrite spec_hset_new.
  etransitivity; [exact (key_spec_hset d key rqs' l {[f := v]} H')|]. by rewrite <-Hl.
Qed.

(** The collections written with one command. *)
Lemma spec_push now l : l ≠ [] →
  (spec (inl (inr (inl (CPush l false))) : Command) now None).1 = Some (mkAVal (VList l) 0).
Proof. intros Hl. cbn. unfold spec_listPush, spec_on. cbn. by rewrite bool_decide_eq_false_2. Qed.

Lemma spec_sadd now X : X ≠ ∅ →
  (spec (inl (inr (inr (CSadd (hash_iter_set X)))) : Command) now None).1 = Some (mkAVal (VSet X) 0).
Proof.
  intros HX. cbn. unfold spec_setAdd, spec_on. cbn.
  assert (list_to_set (hash_iter_set X) ∪ ∅ = X) as ->
    by (apply set_eq; intros x; rewrite elem_of_union, elem_of_list_to_set, hash_iter_set_elem; set_solver).
  by rewrite bool_decide_eq_false_2.
Qed.

Lemma zadd_opt_new (l : list (double * string)) z added updated :
  NoDup l.*2 → (∀ p, p ∈ l → z !! p.2 = None) →
  (foldl (zadd_member no_options) (z, added, updated) l).1.1 = foldl (λ m p, <[p.2 := p.1]> m) z l.
Proof.
  revert z added updated. induction l as [|[s m] l IH]; intros z added updated Hn Hz; [done|].
  rewrite fmap_cons in Hn. apply NoDup_cons in Hn as [Hm Hn].
  cbn [foldl]. unfold zadd_member at 2. rewrite Hz by left. cbn [xx no_options fst snd].
  apply IH; [done|]. intros p Hp. rewrite lookup_insert_ne; [apply Hz; by right|].
  intros E. apply Hm. cbn in E |- *. rewrite E. by apply (list_elem_of_fmap_2 snd).
Qed.

Lemma spec_zadd_all now (z : gmap string double) : z ≠ ∅ →
  (spec (inr (inl (CZaddOpt no_options ((λ p, (p.2, p.1)) <$> map_iter z))) : Command) now None).1 =
  Some (mkAVal (VZSet z) 0).
Proof.
  intros Hz. cbn. unfold spec_zaddOpt, spec_on. cbn.
  assert ((zadd_opt_loop no_options ∅ ((λ p, (p.2, p.1)) <$> map_iter z)).1.1 = z) as E.
  { unfold zadd_opt_loop. rewrite zadd_opt_new.
    - rewrite foldl_fmap. apply foldl_insert_perm, map_iter_perm.
    - rewrite <-list_fmap_compose. change (NoDup (map_iter z).*1). rewrite map_iter_perm. apply NoDup_fst_map_to_list.
    - intros. apply lookup_empty. }
  destruct (zadd_opt_loop _ _ _) as [[z' a] u]. cbn in E. subst z'. cbn.
  by rewrite bool_decide_eq_false_2.
Qed.

(** *** The operations of an entry *)

Definition value_ops (now : Z) (key : string) (e : Entry) : list RewriteOp :=
  match e_type e with
  | ObjHash => (λ f, OpHset key f.1 f.2) <$> hash_iter (e_hash e)
  | ObjList => [OpRpush key (e_list e)]
  | ObjSet => [OpSadd key (hash_iter_set (e_set e))]
  | ObjZSet => [OpZadd key (map_iter (e_zset e))]
  | ObjStream => []
  | ObjString =>
      if now <? e_expire_at_ms e then [OpSetex key (ttl_sec now (e_expire_at_ms e)) (e_value e)]
      else [OpSet key (e_value e)]
  end.

Definition expire_ops (now : Z) (key : string) (e : Entry) : list RewriteOp :=
  if (now <? e_expire_at_ms e) && negb (is_type ObjString e)
  then [OpExpire key (ttl_sec now (e_expire_at_ms e))] else [].

Definition key_ops (now : Z) (kv : string * Entry) : list RewriteOp :=
  value_ops now kv.1 kv.2 ++ expire_ops now kv.1 kv.2.

(** Times of less than 2^60 ms, whose sums do not overflow. *)
Definition in_time (z : Z) : Prop := 0 ≤ z ≤ 2 ^ 60.

(** What the file can bring back: no stream, scores of six digits. *)
Definition rewritable (e : Entry) : Prop :=
  match e_type e with
  | ObjStream => False
  | ObjZSet => map_Forall (λ _ d, printable d) (e_zset e)
  | _ => True
  end ∧ e_expire_at_ms e ≤ 2 ^ 60.

#[export] Instance rewritable_dec e : Decision (rewritable e).
Proof. unfold rewritable, printable. destruct (e_type e); apply _. Defined.

Lemma ttl_sec_bounds now ex : in_time now → ex ≤ 2 ^ 60 → now < ex →
  0 < ttl_sec now ex ≤ 2 ^ 60 ∧ ex - now ≤ ttl_sec now ex * 1000 ≤ ex - now + 999.
Proof.
  unfold in_time. intros Hn He Hlt. unfold ttl_sec.
  rewrite (i64_id (ex - now)), i64_id by (unfold in_i64, INT64_MIN, INT64_MAX; lia).
  rewrite Z.quot_div_nonneg by lia.
  pose proof (Z.div_mod (ex - now + 999) 1000 ltac:(lia)). pose proof (Z.mod_pos_bound (ex - now + 999) 1000 ltac:(lia)).
  nia.
Qed.

Lemma non_empty_iter (h : gmap string string) : h ≠ ∅ → hash_iter h ≠ [].
Proof. intros Hh E. apply Hh, map_to_list_empty_iff, Permutation_nil_r. by rewrite <-hash_iter_perm, E. Qed.
Lemma non_empty_iter_set X : X ≠ ∅ → hash_iter_set X ≠ [].
Proof. intros HX E. apply HX, set_eq. intros x. rewrite <-hash_iter_set_elem, E. set_solver. Qed.
Lemma non_empty_map_iter (z : gmap string double) : z ≠ ∅ → map_iter z ≠ [].
Proof. intros Hz E. apply Hz, map_to_list_empty_iff, Permutation_nil_r. by rewrite <-map_iter_perm, E. Qed.

Lemma rewrite_key_ops now kv : coherent kv.2 → rewritable kv.2 → in_time now →
  rewrite_key now kv = bulks ∘ op_args <$> key_ops now kv.
Proof.
  destruct kv as [key e]. cbn [fst snd]. intros Hco [Hr Hx] Hnow. unfold rewrite_key, key_ops. cbn [fst snd].
  rewrite fmap_app. f_equal.
  - destruct Hco as (_ & Hh & Hl & Hs & Hz & _). unfold rewrite_value, value_ops, is_type in *.
    destruct (e_type e) eqn:Et; simpl in Hh, Hl, Hs, Hz.
    + destruct (Z.ltb_spec now (e_expire_at_ms e)); [|done]. cbn [andb].
      by rewrite (proj2 (Z.ltb_lt _ _)) by (by apply ttl_sec_bounds).
    + rewrite <-list_fmap_compose. done.
    + by destruct (e_list e).
    + pose proof (non_empty_iter_set _ Hs). by destruct (hash_iter_set (e_set e)).
    + pose proof (non_empty_map_iter _ Hz). by destruct (map_iter (e_zset e)).
    + done.
  - unfold rewrite_expire, expire_ops. destruct (Z.ltb_spec now (e_expire_at_ms e)); [|done].
    rewrite (proj2 (Z.ltb_lt 0 _)) by (by apply ttl_sec_bounds). rewrite andb_true_r.
    by destruct (negb _).
Qed.

Lemma key_ops_ok now kv : coherent kv.2 → rewritable kv.2 → in_time now → Forall op_ok (key_ops now kv).
Proof.
  destruct kv as [key e]. cbn [fst snd]. intros Hco [Hr Hx] Hnow. unfold key_ops. cbn [fst snd].
  assert (now < e_expire_at_ms e → in_i64 (ttl_sec now (e_expire_at_ms e))) as Httl.
  { intros Hlt. pose proof (ttl_sec_bounds now _ Hnow Hx Hlt). unfold in_i64, INT64_MIN, INT64_MAX. lia. }
  apply Forall_app. split.
  - destruct Hco as (_ & Hh & Hl & Hs & Hz & _). unfold value_ops, is_type in *.
    destruct (e_type e) eqn:Et; simpl in Hh, Hl, Hs, Hz.
    + destruct (Z.ltb_spec now (e_expire_at_ms e)); apply Forall_singleton; [by apply Httl|done].
    + apply Forall_fmap, Forall_true. done.
    + by apply Forall_singleton.
    + apply Forall_singleton. by apply non_empty_iter_set.
    + apply Forall_singleton. split; [by apply non_empty_map_iter|].
      apply Forall_forall. intros [m d] Hin%map_iter_elem. by apply (Hr m d).
    + done.
  - unfold expire_ops. destruct (Z.ltb_spec now (e_expire_at_ms e)); [|done].
    destruct (negb _); [|done]. apply Forall_singleton. by apply Httl.
Qed.

(** The value comes back, with an expiry up to a second later after the reading of the
    clock it was set at as it was due after [now]. *)
Definition kept (now : Z) (a : AVal) (o : option AVal) : Prop :=
  ∃ ex, o = Some (mkAVal (av_value a) ex) ∧
    if now <? av_expire a
    then ∃ k, clk k + (av_expire a - now) ≤ ex ≤ clk k + (av_expire a - now) + 999
    else ex = 0.

Context (clk_time : ∀ k, in_time (clk k)).

Lemma deadline_id k ttl : 0 ≤ ttl * 1000 ≤ 2 ^ 61 → i64 (clk k + i64 (ttl * 1000)) = clk k + ttl * 1000.
Proof.
  intros Ht. pose proof (clk_time k) as Hk. unfold in_time in Hk.
  rewrite (i64_id (ttl * 1000)), i64_id; [done|unfold in_i64, INT64_MIN, INT64_MAX; lia..].
Qed.

Lemma value_ops_restore d now key e rqs :
  coherent e → rewritable e → in_time now → is_type ObjString e = false →
  Forall2 (timed_as clk d) (value_ops now key e) rqs → key_spec rqs None = Some (mkAVal (entry_value e) 0).
Proof.
  intros (_ & Hh & Hl & Hs & Hz & _) [Hr Hx] Hnow Hstr. unfold value_ops, is_type, entry_value in *.
  assert (∀ op rqs, Forall2 (timed_as clk d) [op] rqs →
    ∃ now, key_spec rqs None = (spec (op_command op) now None).1) as Hone.
  { intros op rqs' (rq & ? & (Hc & _ & _ & _) & ->%Forall2_nil_inv_l & ->)%Forall2_cons_inv_l.
    exists (rq_now rq). cbn. by rewrite Hc. }
  destruct (e_type e) eqn:Et; simpl in Hh, Hl, Hs, Hz, Hstr; [done|..|done].
  - by apply key_spec_hash.
  - intros [t ->]%Hone. by apply spec_push.
  - intros [t ->]%Hone. by apply spec_sadd.
  - intros [t ->]%Hone. by apply spec_zadd_all.
Qed.

Lemma ops_restore d now key e rqs :
  coherent e → rewritable e → in_time now →
  Forall2 (timed_as clk d) (key_ops now (key, e)) rqs → kept now (abs_entry e) (key_spec rqs None).
Proof.
  intros Hco Hr Hnow. unfold key_ops. cbn [fst snd].
  intros (rqs1 & rqs2 & H1 & H2 & ->)%Forall2_app_inv_l. unfold key_spec. rewrite foldl_app.
  fold (key_spec rqs1 None). unfold kept, abs_entry. cbn [av_value av_expire].
  destruct (is_type ObjString e) eqn:Hstr.
  - unfold is_type in Hstr. unfold expire_ops, value_ops, entry_value, is_type in *.
    destruct (e_type e); try done. cbn in H2. rewrite andb_false_r in H2.
    apply Forall2_nil_inv_l in H2 as ->. cbn [foldl].
    destruct (Z.ltb_spec now (e_expire_at_ms e)) as [Hlt|Hge].
    + destruct (Forall2_cons_inv_l _ _ _ _ H1) as (rq & ? & (Hc & _ & _ & k & Hk) & ->%Forall2_nil_inv_l & ->).
      destruct (ttl_sec_bounds now _ Hnow (proj2 Hr) Hlt) as [Ht1 Ht2].
      exists (clk k + ttl_sec now (e_expire_at_ms e) * 1000). split; [|exists k; lia].
      cbn. rewrite Hc, Hk. cbn. unfold set_deadline. rewrite (proj2 (Z.leb_le _ _)) by lia.
      destruct Hr as [_ Hx]. unfold in_time in Hnow. by rewrite deadline_id by lia.
    + destruct (Forall2_cons_inv_l _ _ _ _ H1) as (rq & ? & (Hc & _ & _ & _) & ->%Forall2_nil_inv_l & ->).
      exists 0. split; [|done]. cbn. by rewrite Hc.
  - rewrite (value_ops_restore d now key e rqs1) by done. unfold expire_ops in H2. rewrite Hstr in H2.
    rewrite andb_true_r in H2. destruct (Z.ltb_spec now (e_expire_at_ms e)) as [Hlt|Hge].
    + destruct (Forall2_cons_inv_l _ _ _ _ H2) as (rq & ? & (Hc & _ & _ & k & Hk) & ->%Forall2_nil_inv_l & ->).
      destruct (ttl_sec_bounds now _ Hnow (proj2 Hr) Hlt) as [Ht1 Ht2].
      exists (clk k + ttl_sec now (e_expire_at_ms e) * 1000). split; [|exists k; lia].
      cbn [foldl]. rewrite Hc, Hk, av_live_plain. cbn. unfold spec_expire.
      rewrite (proj2 (Z.leb_gt _ _)) by lia. destruct Hr as [_ Hx]. unfold in_time in Hnow.
      by rewrite deadline_id by lia.
    + apply Forall2_nil_inv_l in H2 as ->. by exists 0.
Qed.
End restore.

(** ** Rewriting and replaying *)

Section round_trip.
Context `{impl : !StdImpl}.

(** Every map of the store is one of database [d]. *)
Definition only_db (d : Z) (s : KvStore) : Prop :=
  ∀ i db m, m_dbs (m_shards s !!! i) !! db = Some m → db = d.

Lemma rewrite_dbs d now l out :
  Forall (λ p : Z * DbMap, p.1 = d) l →
  ∃ done, foldl (rewrite_db now) (out, {[d]}) l =
    (out ++ (l ≫= λ p, snap_entries now p.2 ≫= rewrite_key now), done).
Proof.
  revert out. induction l as [|[d' m] l IH]; intros out; [eexists; cbn; by rewrite app_nil_r|].
  intros [Hd Hl]%Forall_cons. cbn in Hd. subst d'. cbn [foldl rewrite_db fst snd].
  rewrite bool_decide_eq_true_2 by set_solver. rewrite (left_id_L [] (++)).
  replace ({[d]} ∪ {[d]} : gset Z) with ({[d]} : gset Z) by set_solver.
  destruct (IH (out ++ (snap_entries now m ≫= rewrite_key now)) Hl) as [done Hd].
  exists done. etransitivity; [exact Hd|]. by rewrite <-(assoc_L (++)).
Qed.

(** The commands of a store of one database. *)
Lemma buildRewriteCommands_one d now s : only_db d s →
  let l := snap_get d (snapshot now s) in
  buildRewriteCommands now s = [] ∧ l = [] ∨
  buildRewriteCommands now s = makeRewriteArray ["SELECT"; to_string d] :: (l ≫= rewrite_key now).
Proof.
  intros Hd. cbv zeta. rewrite snapshot_get. unfold buildRewriteCommands.
  rewrite vec_to_list_enum, list_fmap_bind, <-bind_bind.
  set (L := enum (fin kShardCount) ≫= (λ i, hash_iter (m_dbs (m_shards s !!! i)))).
  assert (Forall (λ p : Z * DbMap, p.1 = d) L) as HL.
  { apply Forall_forall. intros [d' m] (i & Hin%hash_iter_elem & _)%list_elem_of_bind. by eapply Hd. }
  change (enum _ ≫= _ ∘ _) with L.
  assert ((L ≫= (λ p, if p.1 =? d then snap_entries now p.2 else [])) = L ≫= (λ p, snap_entries now p.2)) as ->.
  { clearbody L. induction HL as [|p L Hp _ IH]; [done|]. cbn in *. by rewrite IH, Hp, Z.eqb_refl. }
  rewrite bind_bind. destruct L as [|[d' m] L]; [by left|]. right.
  apply Forall_cons in HL as [Hp HL]. cbn in Hp. subst d'.
  cbn [foldl rewrite_db fst snd]. rewrite bool_decide_eq_false_2 by set_solver.
  rewrite (right_id_L ∅ (∪)), (left_id_L [] (++)).
  destruct (rewrite_dbs d now L ([makeRewriteArray ["SELECT"; to_string d]] ++ (snap_entries now m ≫= rewrite_key now)) HL)
    as [done Hf].
  etransitivity; [exact (f_equal fst Hf)|]. done.
Qed.

Lemma key_ops_key now kv op : op ∈ key_ops now kv → op_key op = kv.1.
Proof.
  destruct kv as [key e]. unfold key_ops, value_ops, expire_ops. cbn [fst snd].
  rewrite elem_of_app. intros [H|H].
  - destruct (e_type e); [|apply list_elem_of_fmap in H as (f & -> & _); done|..];
      try destruct (_ <? _); first [by apply list_elem_of_singleton in H as ->|by apply elem_of_nil in H].
  - destruct (_ && _); first [by apply list_elem_of_singleton in H as ->|by apply elem_of_nil in H].
Qed.

Lemma filter_key_ops now l key :
  NoDup l.*1 →
  filter (λ op, op_key op = key) (l ≫= key_ops now) =
  match (list_to_map l : gmap string Entry) !! key with Some e => key_ops now (key, e) | None => [] end.
Proof.
  induction l as [|[k e] l IH]; [done|]. intros [Hk Hl]%NoDup_cons. cbn [mbind list_bind]. rewrite filter_app.
  change (list_bind _ _ (key_ops now) l) with (l ≫= key_ops now). rewrite IH by done. cbn.
  destruct (decide (k = key)) as [->|Hne].
  - rewrite lookup_insert_eq, (not_elem_of_list_to_map_1 l key Hk), app_nil_r.
    apply filter_all. intros op Hop. by rewrite (key_ops_key now (key, e) op Hop).
  - rewrite lookup_insert_ne by done. rewrite filter_none; [done|].
    intros op Hop. by rewrite (key_ops_key now (k, e) op Hop).
Qed.

Lemma Forall2_filter {A B} (R : A → B → Prop) (P : A → Prop) (Q : B → Prop)
    `{∀ x, Decision (P x), ∀ y, Decision (Q y)} l k :
  Forall2 R l k → (∀ x y, R x y → P x ↔ Q y) → Forall2 R (filter P l) (filter Q k).
Proof.
  intros HR Hpq. induction HR as [|x y l k Hxy _ IH]; [constructor|].
  specialize (Hpq x y Hxy). rewrite !filter_cons. do 2 case_decide; [by constructor|tauto..|done].
Qed.

(** The arguments of a command. *)
Definition args_of (req : RespValue) : list string := r_str <$> r_array req.

Lemma args_of_bulks args : args_of (bulks args) = args.
Proof. unfold args_of. cbn. rewrite <-list_fmap_compose. by rewrite list_fmap_id. Qed.

(** A server about to replay: no key, no password, no master, nobody waiting, no memory
    limit, and a clock that does not run back. *)
Record fresh (w : World) : Prop := {
  f_wf : wf (w_store w);
  f_empty : ∀ t db key, view (w_store w) t db key = None;
  f_pass : w_pass w = "";
  f_role : w_role w ≠ Some Slave;
  f_waiters : w_waiters w = [];
  f_off : evict_off (w_store w) = true;
  f_mono : ∀ k, w_clock w k ≤ w_clock w (S k);
  f_time : ∀ k, in_time (w_clock w k)
}.

Lemma snapshot_coherent d now s : wf s → Forall (λ kv, coherent kv.2) (snap_get d (snapshot now s)).
Proof.
  intros Hs. apply Forall_forall. intros [key e] Hin. apply snapshot_elem in Hin; [|done]. cbn [snd].
  pose proof (coherent_live (raw s d key) now (wf_coherent s d key Hs)) as H. unfold live in Hin. by rewrite Hin in H.
Qed.

Lemma entries_ops_ok now l : Forall (λ kv, coherent kv.2) l → Forall (λ kv, rewritable kv.2) l → in_time now →
  Forall op_ok (l ≫= key_ops now).
Proof.
  intros Hco Hr Hnow. apply Forall_bind, Forall_forall. intros kv Hin. apply key_ops_ok; [..|done].
  - by apply (proj1 (Forall_forall _ _) Hco).
  - by apply (proj1 (Forall_forall _ _) Hr).
Qed.

Lemma entries_kept clk (clk_time : ∀ k, in_time (clk k)) d now s rqs db key :
  only_db d s → wf s → in_time now →
  Forall (λ kv, rewritable kv.2) (snap_get d (snapshot now s)) →
  Forall2 (timed_as clk d) (snap_get d (snapshot now s) ≫= key_ops now) rqs →
  let o := key_spec (filter (λ rq, (rq_db rq, rq_key rq) = (db, key)) rqs) None in
  match view s now db key with None => o = None | Some a => kept clk now a o end.
Proof.
  intros Hd Hs Hnow Hr Hrqs o. set (l := snap_get d (snapshot now s)) in *.
  destruct (decide (db = d)) as [->|Hne].
  - assert (NoDup l.*1) as Hnd by (by apply snapshot_keys_NoDup).
    assert (Forall2 (timed_as clk d) (filter (λ op, op_key op = key) (l ≫= key_ops now))
      (filter (λ rq, (rq_db rq, rq_key rq) = (d, key)) rqs)) as H.
    { apply Forall2_filter; [done|]. intros op rq (_ & -> & -> & _). naive_solver. }
    rewrite filter_key_ops in H by done. unfold view.
    destruct (live s now d key) as [e|] eqn:He; cbn [fmap option_fmap option_map].
    + apply snapshot_elem in He; [|done]. fold l in He. rewrite (elem_of_list_to_map_1 l key e) in H by done.
      eapply ops_restore; [done|..|exact H]; [|by apply (proj1 (Forall_forall _ _) Hr _ He)|done].
      by apply (proj1 (Forall_forall _ _) (snapshot_coherent d now s Hs) _ He).
    + unfold o. rewrite (not_elem_of_list_to_map_1 l key) in H.
      * by apply Forall2_nil_inv_l in H as ->.
      * intros ([k e] & -> & Hin)%list_elem_of_fmap. apply snapshot_elem in Hin; [|done]. cbn in He. congruence.
  - assert (view s now db key = None) as ->.
    { unfold view, live, raw, db_map. destruct (m_dbs (getShard s key) !! db) as [m|] eqn:Em.
      - destruct Hne. eapply Hd. exact Em.
      - cbn. by rewrite lookup_empty. }
    unfold o. rewrite filter_none; [done|]. apply Forall_forall.
    eapply Forall2_Forall_r; [exact Hrqs|]. apply Forall_true. intros op rq (_ & -> & _). congruence.
Qed.

Context (reserves : Z → bool).
Context (pushed : Sess → RespValue → bool) (yield : World → World) (scheduled : bool)
  (clients : list (Z * string * string)) (fuel : nat).
Abbreviation run_one := (dispatch (builtin pushed yield scheduled clients) (S fuel)).

(** The operations of the entries, run on a fresh server. *)
Lemma rewrite_plays d now s w : only_db d s → 0 ≤ d ≤ 15 → wf s → in_time now → fresh w →
  Forall (λ kv, rewritable kv.2) (snap_get d (snapshot now s)) →
  ∃ cmds rqs e', buildRewriteCommands now s = bulks <$> cmds ∧
    plays run_one (buildRewriteCommands now s) (mkEnv KvContext0 w) e' ∧
    Forall2 (timed_as (w_clock w) d) (snap_get d (snapshot now s) ≫= key_ops now) rqs ∧
    w_store (e_world e') = (run_all rqs (w_store w)).1 ∧
    (∃ n, ∀ k, w_clock (e_world e') k = w_clock w (n + k)%nat) ∧
    ∃ t, clock_from t rqs ∧ last_clock t rqs ≤ w_clock (e_world e') 0%nat ∧ t ≤ w_clock (e_world e') 0%nat.
Proof.
  intros Hd Hrange Hs Hnow Hw Hr. set (l := snap_get d (snapshot now s)) in *. set (clk := w_clock w).
  assert (booted clk 0 0 (mkEnv KvContext0 w)) as Hb0 by (destruct Hw; by split).
  assert (Forall (λ kv, coherent kv.2) l) as Hco by (by apply snapshot_coherent).
  assert ((l ≫= rewrite_key now) = (bulks ∘ op_args <$> (l ≫= key_ops now))) as Hops.
  { clearbody l. rewrite fmap_bind. induction Hco as [|kv l Hc _ IH]; [done|].
    apply Forall_cons in Hr as [Hkv Hr]. cbn [mbind list_bind]. f_equal; [by apply rewrite_key_ops|by apply IH]. }
  assert (Forall op_ok (l ≫= key_ops now)) as Hok by (by apply entries_ops_ok).
  destruct (buildRewriteCommands_one d now s Hd) as [[E Hl]|E]; rewrite E; clear E.
  { fold l in Hl. rewrite Hl. exists [], [], (mkEnv KvContext0 w). split_and!; [done|constructor|constructor|done|by exists 0%nat|].
    by exists (clk 0%nat). }
  fold l. rewrite Hops.
  destruct (select_replays pushed yield scheduled clients fuel clk 0 d 0 _ Hb0 Hrange) as (e1 & r & m & Hsel & Hs1 & Hb1).
  destruct (ops_replay pushed yield scheduled clients fuel clk (f_mono w Hw) d _ Hok _ _ Hb1)
    as (rqs & e' & m' & Hp & Hrqs & Hc & Hlast & Hs2 & Hb2).
  exists (["SELECT"; to_string d] :: (op_args <$> (l ≫= key_ops now))), rqs, e'.
  split_and!; [by rewrite fmap_cons, <-list_fmap_compose|by eapply plays_cons|done|rewrite Hs2; cbn [e_world]; by rewrite Hs1|exists (0 + m + m')%nat; apply (b_clock _ _ _ _ Hb2)|].
  exists (clk m). pose proof (b_clock _ _ _ _ Hb2 0) as Hk. rewrite Nat.add_0_r in Hk. rewrite Hk.
  split_and!; [done|done|]. apply (clk_later clk (f_mono w Hw)).
Qed.

(** The rewritten file, replayed on a fresh server, brings the store back. *)
Lemma rewrite_replay d now s w :
  only_db d s → 0 ≤ d ≤ 15 → wf s → in_time now → fresh w →
  Forall (λ kv, rewritable kv.2) (snap_get d (snapshot now s)) →
  Forall (λ req, fits reserves (args_of req)) (buildRewriteCommands now s) →
  ∃ w' K, replay reserves run_one (rewrite now s) w = Some (w', ok true tt) ∧ wf (w_store w') ∧
    (∃ n, ∀ k, w_clock w' k = w_clock w (n + k)%nat) ∧
    holds_keyspace (w_store w') (w_clock w' 0%nat) K ∧
    ∀ db key, match view s now db key with
              | None => K db key = None
              | Some a => kept (w_clock w) now a (K db key)
              end.
Proof.
  intros Hd Hrange Hs Hnow Hw Hr Hfits.
  destruct (rewrite_plays d now s w Hd Hrange Hs Hnow Hw Hr) 
    as (cmds & rqs & e' & Ecmds & Hp & Hrqs & Hst & Hclk & t & Hc & Hlast & Ht).
  set (l := snap_get d (snapshot now s)) in *.
  assert (Forall (λ kv, coherent kv.2) l) as Hco by (by apply snapshot_coherent).
  assert (Forall (λ rq : Refinement.Request Command, args_ok (rq_cmd rq)) rqs) as Hargs.
  { eapply Forall2_Forall_r; [exact Hrqs|]. eapply Forall_impl; [by apply entries_ops_ok|].
    intros op Hop rq (Hc' & _). cbn beta. rewrite Hc'. by apply op_args_ok. }
  destruct (run_all_refines rqs (w_store w) t empty_keyspace (f_wf w Hw) (f_off w Hw) Hargs Hc)
    as (_ & Hwf & HK). { intros t' db key _. apply (f_empty w Hw). }
  exists (e_world e'), (spec_all rqs empty_keyspace).1. rewrite Hst. split_and!; [|done|done| |].
  - assert (Forall (fits reserves) cmds) as Hcmds.
    { rewrite Ecmds in Hfits. apply Forall_forall. intros args Hin. rewrite <-(args_of_bulks args).
      apply (proj1 (Forall_forall _ _) Hfits). by apply list_elem_of_fmap_2. }
    unfold replay, rewrite. rewrite Ecmds in Hp |- *. erewrite replay_loop_plays; [done..|].
    pose proof (encode_all_length (bulks <$> cmds)) as Hlen. rewrite length_fmap in Hlen. lia.
  - intros t' db key Ht'. apply HK. lia.
  - intros db key. rewrite spec_all_lookup. by apply (entries_kept (w_clock w) (f_time w Hw) d).
Qed.

(** *** Where a password is required *)

(** A command the authentication gate closes on. *)
Definition refused (req : RespValue) : Prop :=
  ∃ name args, req = bulks (name :: args) ∧ upperArg name ≠ "AUTH" ∧ upperArg name ≠ "PING".

Lemma rewrite_refused now s : Forall refused (buildRewriteCommands now s).
Proof.
  assert (∀ name args, upperArg name ≠ "AUTH" → upperArg name ≠ "PING" → refused (bulks (name :: args))) as Hr
    by (intros; by eexists _, _).
  assert (∀ key e, Forall refused (rewrite_key now (key, e))) as Hk.
  { intros key e. unfold rewrite_key, rewrite_value, rewrite_expire, rewrite_item. cbn [fst snd].
    apply Forall_app. split; [|destruct (_ && _ && _); [apply Forall_singleton; by apply Hr|done]].
    destruct (e_type e); repeat case_match; rewrite ?Forall_fmap;
      first [apply Forall_singleton; by apply Hr|apply Forall_true; intros; by apply Hr|done]. }
  unfold buildRewriteCommands. generalize (vec_to_list (m_shards s) ≫= λ sh, hash_iter (m_dbs sh)). intros l.
  assert (Forall refused ([], ∅ : gset Z).1) as H by done. revert H.
  generalize (([], ∅) : list RespValue * gset Z). induction l as [|p l IH]; intros [out dn] H; [done|].
  apply IH. cbn [rewrite_db fst]. apply Forall_app. split; [done|]. apply Forall_app. split.
  - case_bool_decide; [done|]. apply Forall_singleton. by apply Hr.
  - apply Forall_bind, Forall_true. intros [key e]. apply Hk.
Qed.

(** Then a replay refuses every command of a rewrite, and answers true. *)
Lemma replay_refused now s w : w_pass w ≠ "" →
  Forall (λ req, fits reserves (args_of req)) (buildRewriteCommands now s) →
  replay reserves run_one (rewrite now s) w = Some (w, ok true tt).
Proof.
  intros Hp. unfold replay, rewrite.
  assert (∃ cmds, buildRewriteCommands now s = bulks <$> cmds ∧ Forall (λ c, refused (bulks c)) cmds) as (cmds & -> & Hr).
  { pose proof (rewrite_refused now s) as H. induction H as [|req l Hreq _ (cmds & -> & IH)]; [by exists []|].
    destruct Hreq as (name & args & -> & H1 & H2). exists ((name :: args) :: cmds). split; [done|].
    constructor; [by eexists _, _|done]. }
  intros Hf. assert (Forall (fits reserves) cmds) as Hcmds.
  { apply Forall_forall. intros args Hin. rewrite <-(args_of_bulks args).
    apply (proj1 (Forall_forall _ _) Hf). by apply list_elem_of_fmap_2. }
  assert (plays run_one (bulks <$> cmds) (mkEnv KvContext0 w) (mkEnv KvContext0 w)) as Hplay.
  { clear Hf Hcmds. induction Hr as [|c cmds (name & args & E & H1 & H2) _ IH]; [constructor|].
    destruct (dispatch_closed (builtin pushed yield scheduled clients) (S fuel) (bulks c) (mkEnv KvContext0 w) err_noauth)
      as (r & Hd & _).
    - rewrite E. change (astr (bulks (name :: args)) 0) with name.
      rewrite gate_upper. cbv zeta. cbn [e_ctx e_world c_pubsub_mode KvContext0 andb c_authenticated negb].
      unfold isAuthRequired, isCommandAuthExempt. rewrite !bool_decide_eq_false_2; [done|set_solver|done].
    - by eapply plays_cons. }
  rewrite (replay_loop_plays reserves run_one cmds _ _ Hplay Hcmds); [done|].
  pose proof (encode_all_length (bulks <$> cmds)) as Hlen. rewrite length_fmap in Hlen. lia.
Qed.
End round_trip.

(** ** Two databases *)

#[local] Existing Instance plain_impl.

(** "a" and "b" in database 1, "a" in database 0 too; "b" is in a later shard. *)
Definition two_dbs : KvStore :=
  let put db key x s := (run (CPush [x] false) db key 5 s).1 in
  put 1 "b" "x" (put 1 "a" "y" (put 0 "a" "z" KvStore0)).

Lemma two_dbs_wf : wf two_dbs.
Proof.
  unfold two_dbs. cbv zeta.
  repeat (apply (commands_refine (family := list_commands)); [done|]). apply wf_init.
Qed.

(** [SELECT 1] is not written again for the second shard: "b" goes to database 0. *)
Lemma replay_mixes : ∃ w',
  replay (λ _, true) (dispatch (builtin (λ _ _, true) id false []) 2) (rewrite 9 two_dbs)
    (mkWorld KvStore0 (λ _, 9) PubSubHub0 (λ _, false) [] ∅ Slowlog0 "" None None []) = Some (w', ok true tt) ∧
  view (w_store w') 9 1 "b" = None ∧ view (w_store w') 9 0 "b" = Some (mkAVal (VList ["x"]) 0).
Proof.
  set (r := replay _ _ _ _).
  assert ((λ p, (p.2, view (w_store p.1) 9 1 "b", view (w_store p.1) 9 0 "b")) <$> r =
    Some (ok true tt, None, Some (mkAVal (VList ["x"]) 0))) as E by by vm_compute.
  destruct r as [[w' x]|]; [|done]. injection E as E1 E2 E3. exists w'. by rewrite <-E1.
Qed.
