(* ===== verification/Replication.v ===== *)
(** * Replication: the backlog, PSYNC, and the replica's loop

    [ReplicationManager] ([replication/replication.cc]) and its three commands ([ROLE],
    [SLAVEOF], [PSYNC] of [command_dispatch.cc]).  A lock's critical section is a function
    of the manager; [handlePsync] has two of them with the dump in between, and takes the
    manager as it is at each.  Sockets, timers and the scheduler are what an operation
    returns to be done: a session to close, bytes to push, a synchronisation to schedule.
    The replica's side reads commands off a [KvSession] and dispatches them. *)

From Stdlib Require Import Ascii.
From stdpp Require Import options.
From S2P Require Import Prelude.
From S2P Require Import CStd.
From S2P Require Import Bytes.
From S2P Require Import Store.
From S2P Require Import Resp.
From S2P Require Import RespReader.
From S2P Require Import ClusterSlot.
From S2P Require Import PubSub.
From S2P Require Import Session.
From S2P Require Import Request.
From S2P Require Import Rdb.
From S2P Require Import Server.

#[local] Set Default Proof Using "Type*".

(** ** The manager *)

Record BacklogChunk : Type := mkChunk { start_offset : Z; payload : string }.

Definition kMaxBacklogBytes : Z := 1024 * 1024.

(** [m_sync] says whether [configureSlaveSync] has been given its three objects;
    [m_master_sync] is the replica's own connection to its master. *)
Record ReplicationManager : Type := mkRepl {
  m_role : Role;
  m_repl_id : string;
  m_offset : Z;
  m_backlog : list BacklogChunk;
  m_backlog_bytes : Z;
  m_replicas : list Sess;
  m_master_host : string;
  m_master_port : Z;
  m_master_link_status : Z;
  m_master_repl_id : string;
  m_master_offset : Z;
  m_sync : bool;
  m_master_sync : option Sess
}.

(** The constructor; [id] is what [randomReplId] drew. *)
Definition ReplicationManager0 (id : string) : ReplicationManager :=
  mkRepl Master id 0 [] 0 [] "" 0 0 "" (-1) false None.

Definition set_log (offset : Z) (backlog : list BacklogChunk) (bytes : Z) (r : ReplicationManager)
  : ReplicationManager :=
  let '(mkRepl a b _ _ _ f g h i j k l m) := r in mkRepl a b offset backlog bytes f g h i j k l m.
Definition set_replicas (v : list Sess) (r : ReplicationManager) : ReplicationManager :=
  let '(mkRepl a b c d e _ g h i j k l m) := r in mkRepl a b c d e v g h i j k l m.
Definition set_master (role : Role) (host : string) (port link : Z) (r : ReplicationManager)
  : ReplicationManager :=
  let '(mkRepl _ b c d e f _ _ _ j k l m) := r in mkRepl role b c d e f host port link j k l m.
Definition set_link (link : Z) (r : ReplicationManager) : ReplicationManager :=
  let '(mkRepl a b c d e f g h _ j k l m) := r in mkRepl a b c d e f g h link j k l m.
Definition set_master_pos (id : string) (offset : Z) (r : ReplicationManager) : ReplicationManager :=
  let '(mkRepl a b c d e f g h i _ _ l m) := r in mkRepl a b c d e f g h i id offset l m.
Definition configureSlaveSync (given : bool) (r : ReplicationManager) : ReplicationManager :=
  let '(mkRepl a b c d e f g h i j k _ m) := r in mkRepl a b c d e f g h i j k given m.
Definition set_master_sync (v : option Sess) (r : ReplicationManager) : ReplicationManager :=
  let '(mkRepl a b c d e f g h i j k l _) := r in mkRepl a b c d e f g h i j k l v.

Section manager.
(** What the weak pointers to sessions still lock. *)
Context (alive : Sess → bool).

Definition connectedSlaves (r : ReplicationManager) : Z :=
  Z.of_nat (length (filter (λ s, alive s = true) (m_replicas r))).

(** Whether [io->schedule] and [io->addTimer] are called. *)
Definition scheduleSlaveSync (r : ReplicationManager) : bool :=
  bool_decide (m_role r = Slave) && m_sync r.
Definition scheduleSlaveReconnect (r : ReplicationManager) : bool :=
  bool_decide (m_role r = Slave) && m_sync r && negb (bool_decide (m_master_host r = "")) &&
  (0 <? m_master_port r).

(** The new manager, the session closed, whether a synchronisation is scheduled. *)
Definition setSlaveOf (host : string) (port : Z) (r : ReplicationManager)
  : ReplicationManager * option Sess * bool :=
  let sync_session := s ← m_master_sync r; if alive s then Some s else None in
  if bool_decide (host = "") then
    (set_master_sync None (set_master_pos "" (-1) (set_master Master "" 0 0 r)), sync_session, false)
  else
    let r := set_master Slave host port 0 r in (r, sync_session, scheduleSlaveSync r).

Definition promoteToMaster (r : ReplicationManager) : ReplicationManager * option Sess * bool :=
  setSlaveOf "" 0 r.

Definition registerReplica (session : option Sess) (r : ReplicationManager) : ReplicationManager :=
  match session with
  | Some s => set_replicas (m_replicas r ++ [s]) r
  | None => r
  end.

Definition removeReplica (session : option Sess) (r : ReplicationManager) : ReplicationManager :=
  match session with
  | Some s => set_replicas (filter (λ s', alive s' = true ∧ s' ≠ s) (m_replicas r)) r
  | None => r
  end.

(** ** The backlog *)

Fixpoint trim_backlog (bytes : Z) (l : list BacklogChunk) : Z * list BacklogChunk :=
  match l with
  | [] => (bytes, [])
  | c :: l' => if kMaxBacklogBytes <? bytes then trim_backlog (u64 (bytes - str_size (payload c))) l'
               else (bytes, l)
  end.

Definition appendBacklog (p : string) (r : ReplicationManager) : ReplicationManager :=
  if bool_decide (p = "") then r
  else
    let chunk := mkChunk (i64 (m_offset r + 1)) p in
    let '(bytes, backlog) :=
      trim_backlog (u64 (m_backlog_bytes r + str_size p)) (m_backlog r ++ [chunk]) in
    set_log (i64 (m_offset r + str_size p)) backlog bytes r.

(** The sessions [encoded] is pushed to. *)
Definition fanoutToReplicas (r : ReplicationManager) : list Sess :=
  filter (λ s, alive s = true) (m_replicas r).

Definition propagateCommand (command : RespValue) (r : ReplicationManager)
  : ReplicationManager * list (Sess * string) :=
  match m_role r with
  | Master =>
      let encoded := encode command in
      let r := appendBacklog encoded r in
      (r, (λ s, (s, encoded)) <$> fanoutToReplicas r)
  | Slave => (r, [])
  end.

(** The loop of [tryCollectPartial]. *)
Fixpoint collect (want : Z) (l : list BacklogChunk) : option string :=
  match l with
  | [] => None
  | chunk :: rest =>
      let chunk_end := i64 (i64 (start_offset chunk + str_size (payload chunk)) - 1) in
      if chunk_end <? want then collect want rest
      else if want <? start_offset chunk then None
      else Some (foldl (λ out c, out +:+ payload c)
                   (str_drop (Z.to_nat (want - start_offset chunk)) (payload chunk)) rest)
  end.

Definition tryCollectPartial (replid : string) (offset : Z) (r : ReplicationManager) : option string :=
  if negb (bool_decide (replid = "?")) && negb (bool_decide (replid = m_repl_id r)) then None
  else if offset <? 0 then None
  else
    let want := i64 (offset + 1) in
    match m_backlog r with
    | [] => None
    | oldest :: _ => if want <? start_offset oldest then None else collect want (m_backlog r)
    end.
End manager.

(** ** PSYNC *)

Inductive PsyncKind : Type := PsyncFull | PsyncPartial | PsyncError.

Record PsyncResult : Type := mkPsync {
  ps_kind : PsyncKind;
  ps_line : RespValue;
  ps_payload : string
}.

Definition fullresync_line (r : ReplicationManager) : string :=
  "FULLRESYNC " +:+ m_repl_id r +:+ " " +:+ to_string (m_offset r).

(** [r] is the manager under the first lock, [dumped] what [Rdb::dump] then makes of the
    store ([None] for a null store), [r'] the manager under the second lock. *)
Definition handlePsync (replid : string) (offset : Z) (dumped : option Bytes)
    (r r' : ReplicationManager) : PsyncResult :=
  match m_role r with
  | Slave => mkPsync PsyncError (resp_err "ERR PSYNC not allowed on replica") ""
  | Master =>
      match tryCollectPartial replid offset r with
      | Some partial => mkPsync PsyncPartial (resp_simple "CONTINUE") partial
      | None =>
          match dumped with
          | None => mkPsync PsyncError (resp_err "ERR store unavailable") ""
          | Some bytes => mkPsync PsyncFull (resp_simple (fullresync_line r')) (text bytes)
          end
      end
  end.

(** ** The commands

    [repl] is what [replicationFromCtx] finds. *)

Definition makeRoleReply (repl : option ReplicationManager) : RespValue :=
  match repl with
  | Some r =>
      match m_role r with
      | Master => resp_array [resp_bulk "master"; resp_integer (m_offset r); resp_array []]
      | Slave =>
          resp_array [resp_bulk "slave"; resp_bulk (m_master_host r); resp_integer (m_master_port r);
                      resp_bulk "connect"; resp_bulk (to_string (m_master_link_status r))]
      end
  | None => resp_array [resp_bulk "master"; resp_integer 0; resp_array []]
  end.

Definition cmd_ROLE (repl : option ReplicationManager) (req : RespValue) : RespValue :=
  if negb (argc req =? 1)%nat then wrong_args "role" else makeRoleReply repl.

(** The reply, the manager, the session to close, whether a synchronisation is scheduled. *)
Definition cmd_SLAVEOF (alive : Sess → bool) (repl : option ReplicationManager) (req : RespValue)
  : RespValue * option ReplicationManager * option Sess * bool :=
  if negb (argc req =? 3)%nat || anull req 1 || anull req 2 then
    (wrong_args "slaveof", repl, None, false)
  else
    match repl with
    | None => (resp_err "ERR replication unavailable", repl, None, false)
    | Some r =>
        if bool_decide (upperArg (astr req 1) = "NO") && bool_decide (upperArg (astr req 2) = "ONE") then
          let '(r, closed, sched) := promoteToMaster alive r in (resp_ok, Some r, closed, sched)
        else
          match parseInt64Arg (arg req 2) with
          | Some port =>
              if (port <=? 0) || (65535 <? port) then (resp_err "ERR invalid port", repl, None, false)
              else
                let '(r, closed, sched) := setSlaveOf alive (astr req 1) (i32 port) r in
                (resp_ok, Some r, closed, sched)
          | None => (resp_err "ERR invalid port", repl, None, false)
          end
    end.

(** The reply, the context, the manager, and what is appended to the connection's own
    session.  [dumped] and [r'] as in [handlePsync]; the session registers with [r'']. *)
Definition cmd_PSYNC (dumped : option Bytes) (repl : option ReplicationManager)
    (r' r'' : ReplicationManager) (c : KvContext) (req : RespValue)
  : RespValue * KvContext * option ReplicationManager * string :=
  if negb (argc req =? 3)%nat || anull req 1 || anull req 2 then (wrong_args "psync", c, repl, "")
  else
    match repl with
    | None => (resp_err "ERR replication unavailable", c, repl, "")
    | Some r =>
        match parseInt64Arg (arg req 2) with
        | None => (resp_err "ERR invalid replication offset", c, repl, "")
        | Some offset =>
            let result := handlePsync (astr req 1) offset dumped r r' in
            match ps_kind result, c_session c with
            | PsyncError, _ | _, None => (ps_line result, c, Some r'', "")
            | PsyncFull, Some s =>
                (resp_none, set_c_replica_connection true c, Some (registerReplica (Some s) r''),
                 appendResponse (resp_bulk (ps_payload result)) (appendResponse (ps_line result) ""))
            | PsyncPartial, Some s =>
                let line := appendResponse (ps_line result) "" in
                if bool_decide (ps_payload result = "") then (resp_none, c, Some r'', line)
                else (resp_none, set_c_replica_connection true c, Some (registerReplica (Some s) r''),
                      line +:+ ps_payload result)
            end
        end
    end.

(** ** The replica's side *)

(** [ss >> word] and [ss >> offset] of an [istringstream]; a number that is not there
    leaves 0. *)
Fixpoint take_word (s : string) : string * string :=
  match s with
  | EmptyString => ("", "")
  | String c s' => if is_space c then ("", s) else let '(w, rest) := take_word s' in (String c w, rest)
  end.

Definition parseFullResyncLine (line : string) : option (string * Z) :=
  if (String.length line <=? 11)%nat || negb (String.prefix "FULLRESYNC " line) then None
  else
    let '(replid, rest) := take_word (skip_spaces (str_drop 11 line)) in
    if bool_decide (replid = "") then None else Some (replid, fst (strtoll rest)).

(** The context the commands of the master run in. *)
Definition slave_ctx : KvContext :=
  mkCtx 0 false true false false true false 0 "" "" [] [] false None.

(** The first critical section of [runSlaveSyncOnce]: the manager, and the replication id
    and offset to ask for. *)
Definition sync_begin (r : ReplicationManager) : option (ReplicationManager * string * Z) :=
  if negb (bool_decide (m_role r = Slave)) || bool_decide (m_master_host r = "") ||
     (m_master_port r <=? 0) then None
  else
    let r := set_link 0 r in
    if negb (bool_decide (m_master_repl_id r = "")) && (0 <=? m_master_offset r)
    then Some (r, m_master_repl_id r, m_master_offset r) else Some (r, "?", -1).

Definition psync_request (replid : string) (offset : Z) : RespValue :=
  bulks ["PSYNC"; replid; to_string offset].

(** [m_master_offset += n] where it is known. *)
Definition advance (n : Z) (r : ReplicationManager) : ReplicationManager :=
  if 0 <=? m_master_offset r then set_master_pos (m_master_repl_id r) (i64 (m_master_offset r + n)) r
  else r.

Section slave.
Context `{impl : !StdImpl}.
Context (reserves : Z → bool) {net : Type} (read : net → Z → net * list ascii).
Context (dispatch : Handler).
(** [loadFromJsonV1] *)
Context (json : Bytes → Z → State KvStore Outcome).

(** [applyReplicationPayload]; the fuel is the payload's length. *)
Fixpoint apply_payload (fuel : nat) (data : list ascii) (pos : nat) : M nat :=
  match data, fuel with
  | [], _ => mret pos
  | _, O => diverge
  | _, S fuel =>
      match tryParse reserves data RespValue0 with
      | Some (POk, req, consumed) =>
          if (consumed =? 0)%nat then mret pos
          else _ ← dispatch req; apply_payload fuel (drop consumed data) (pos + consumed)
      | Some (NeedMore, _, _) | Some (PError_, _, _) => mret pos
      | Some (Thrown, _, _) | None => diverge
      end
  end.
Definition applyReplicationPayload (p : string) (w : World) : option (World * nat) :=
  '(e, n) ← apply_payload (String.length p) (chars p) 0 (mkEnv slave_ctx w); Some (e_world e, n).

(** [drainSessionReplication]: what is buffered whole already.  [cmd] lives across the
    iterations. *)
Fixpoint drain (fuel : nat) (s : Session) (cmd : RespValue) (applied : Z) (e : Env)
  : option (Session * Z * Env) :=
  match fuel with
  | O => None
  | S fuel =>
      '(got, s, cmd) ← tryRecvCommand reserves s cmd;
      match got with
      | RecvTrue => '(e, _) ← dispatch cmd e; drain fuel s cmd (u64 (applied + str_size (encode cmd))) e
      | RecvFalse => Some (s, applied, e)
      | RecvThrown => None
      end
  end.
Definition drainSessionReplication (fuel : nat) (s : Session) (w : World) : option (Session * Z * World) :=
  '(s, applied, e) ← drain fuel s RespValue0 0 (mkEnv slave_ctx w); Some (s, applied, e_world e).

(** The loop that follows the master until the connection ends. *)
Fixpoint sync_loop (fuel rfuel : nat) (s : Session) (n : net) (w : World) (r : ReplicationManager)
  : option (net * World * ReplicationManager) :=
  match fuel with
  | O => None
  | S fuel =>
      '(got, s, n, cmd) ← recvCommand reserves read rfuel s n RespValue0;
      match got with
      | RecvTrue =>
          '(e, _) ← dispatch cmd (mkEnv slave_ctx w);
          sync_loop fuel rfuel s n (e_world e) (advance (str_size (encode cmd)) r)
      | RecvFalse => Some (n, w, r)
      | RecvThrown => None
      end
  end.

(** What is made of the master's answer: the session's state and the manager once the
    link is up, or [None] to reconnect. *)
Definition sync_answer (fuel rfuel : nat) (s : Session) (n : net) (w : World) (r : ReplicationManager)
  : option (net * World * ReplicationManager * option Session) :=
  '(got, s, n, line) ← recvCommand reserves read rfuel s n RespValue0;
  match got, r_type line with
  | RecvThrown, _ => None
  | RecvTrue, RSimpleString =>
      if String.prefix "FULLRESYNC" (r_str line) then
        match parseFullResyncLine (r_str line) with
        | None => Some (n, w, r, None)
        | Some (id, offset) =>
            '(got, s, n, bulk) ← recvCommand reserves read rfuel s n RespValue0;
            match got with
            | RecvThrown => None
            | RecvFalse => Some (n, w, r, None)
            | RecvTrue =>
                if negb (bool_decide (r_type bulk = RBulkString)) || r_is_null bulk then Some (n, w, r, None)
                else
                  let '(st, o) :=
                    loadFromString reserves json (chars (r_str bulk)) (w_clock w 0) (w_store w) in
                  let w := set_w_data st (λ k, w_clock w (S k)) w in
                  match o with
                  | Done res =>
                      if res_ret res then Some (n, w, set_link 1 (set_master_pos id offset r), Some s)
                      else Some (n, w, r, None)
                  | Threw | NoType => None
                  end
            end
        end
      else if bool_decide (r_str line = "CONTINUE") then
        '(s, applied, w) ← drainSessionReplication fuel s w;
        Some (n, w, set_link 1 (advance applied r), Some s)
      else Some (n, w, r, None)
  | _, _ => Some (n, w, r, None)
  end.

(** [runSlaveSyncOnce], [configured] when the store and the dispatcher are there,
    [connected] when the socket is: the session [sid] and the connection.  Whether the
    timer of [scheduleSlaveReconnect] is set comes last. *)
Definition runSlaveSyncOnce (fuel rfuel : nat) (connected : option (Sess * net)) (written : string → Z)
    (w : World) (r : ReplicationManager) : option (World * ReplicationManager * bool) :=
  match sync_begin r with
  | None => Some (w, r, false)
  | Some (r, replid, offset) =>
      let reconnect w r := Some (w, r, scheduleSlaveReconnect r) in
      match connected with
      | Some (sid, n) =>
          if negb (m_sync r) then reconnect w r
          else
            let r := set_master_sync (Some sid) r in
            let '(s, sent) := sendResponse written (psync_request replid offset) Session0 in
            if sent <=? 0 then reconnect w r
            else
              '(n, w, r, up) ← sync_answer fuel rfuel s n w r;
              match up with
              | None => reconnect w r
              | Some s =>
                  '(_, w, r) ← sync_loop fuel rfuel s n w r;
                  reconnect w (set_link 0 r)
              end
      | None => reconnect w r
      end
  end.
End slave.
