(* ===== verification/ReplFacts.v ===== *)
(** * Facts about replication

    The backlog is the end of the stream of everything propagated, cut in contiguous
    chunks; a partial resynchronisation sends the stream from the offset asked for; a
    replica's offset is where the last command it applied ends, so that what the master
    sends it next begins with the next command. *)

From Stdlib Require Import Ascii.
From stdpp Require Import options.
From S2P Require Import Prelude.
From S2P Require Import CStd.
From S2P Require Import Store.
From S2P Require Import Resp.
From S2P Require Import RespReader.
From S2P Require Import RespFacts.
From S2P Require Import ClusterSlot.
From S2P Require Import PubSub.
From S2P Require Import Session.
From S2P Require Import Request.
From S2P Require Import Rdb.
From S2P Require Import Server.
From S2P Require Import Replication.

#[local] Set Default Proof Using "Type*".

(** ** Strings *)

Lemma str_size_app a b : str_size (a +:+ b) = str_size a + str_size b.
Proof. unfold str_size. rewrite app_length_s. lia. Qed.

Lemma str_drop_more a n b : str_drop (String.length a + n) (a +:+ b) = str_drop n b.
Proof. by induction a. Qed.

Lemma str_drop_less n a b : (n ≤ String.length a)%nat → str_drop n (a +:+ b) = str_drop n a +:+ b.
Proof.
  revert n. induction a as [|c a IH]; intros n Hn.
  - assert (n = 0%nat) as -> by (simpl in Hn; lia). done.
  - destruct n as [|n]; [done|]. simpl in *. apply IH. lia.
Qed.

(** ** The backlog *)

Definition whole (l : list BacklogChunk) : string := foldr (λ c s, payload c +:+ s) "" l.

(** The chunks that follow the first [at_] characters of the stream. *)
Fixpoint chunks_from (at_ : Z) (l : list BacklogChunk) : Prop :=
  match l with
  | [] => True
  | c :: l => start_offset c = at_ + 1 ∧ payload c ≠ "" ∧ chunks_from (at_ + str_size (payload c)) l
  end.

Record log_ok (stream : string) (r : ReplicationManager) : Prop := {
  lo_offset : m_offset r = str_size stream;
  lo_bytes : m_backlog_bytes r = str_size (whole (m_backlog r));
  lo_limit : m_backlog_bytes r ≤ kMaxBacklogBytes;
  lo_tail : ∃ before, stream = before +:+ whole (m_backlog r) ∧ chunks_from (str_size before) (m_backlog r)
}.

Lemma whole_app l k : whole (l ++ k) = whole l +:+ whole k.
Proof. induction l as [|c l IH]; [done|]. simpl. by rewrite IH, app_assoc_s. Qed.

Lemma chunks_app at_ l c :
  chunks_from at_ l → start_offset c = at_ + str_size (whole l) + 1 → payload c ≠ "" →
  chunks_from at_ (l ++ [c]).
Proof.
  revert at_. induction l as [|d l IH]; intros at_ Hl Hc Hp; simpl in *.
  - change (str_size "") with 0 in Hc. split_and!; [lia|done|done].
  - destruct Hl as (? & ? & Hl). split_and!; [done|done|]. apply IH; [done| |done].
    rewrite str_size_app in Hc. lia.
Qed.

Lemma collect_spec at_ l offset :
  chunks_from at_ l → 0 ≤ at_ → at_ ≤ offset → offset < INT64_MAX → at_ + str_size (whole l) ≤ INT64_MAX →
  collect (offset + 1) l =
  if offset <? at_ + str_size (whole l) then Some (str_drop (Z.to_nat (offset - at_)) (whole l)) else None.
Proof.
  revert at_. induction l as [|c l IH]; intros at_ Hl H0 Hle Hmax Hsz; simpl.
  { change (str_size "") with 0. destruct (Z.ltb_spec offset (at_ + 0)); [lia|done]. }
  simpl in Hl, Hsz. destruct Hl as (Hs & Hp & Hl). rewrite str_size_app in *.
  pose proof (str_size_pos (payload c)). pose proof (str_size_pos (whole l)).
  rewrite <-(Z.add_opp_r (i64 _)), i64_add_l, Hs. rewrite i64_id by (unfold in_i64, INT64_MIN, INT64_MAX in *; lia).
  destruct (Z.ltb_spec (at_ + 1 + str_size (payload c) + - (1)) (offset + 1)).
  - rewrite (IH (at_ + str_size (payload c))) by (done || lia). replace (at_ + (str_size (payload c) + str_size (whole l)))
      with (at_ + str_size (payload c) + str_size (whole l)) by lia.
    destruct (offset <? _); [|done]. f_equal.
    replace (Z.to_nat (offset - at_)) with
      (String.length (payload c) + Z.to_nat (offset - (at_ + str_size (payload c))))%nat
      by (unfold str_size in *; lia).
    by rewrite str_drop_more.
  - destruct (Z.ltb_spec (offset + 1) (at_ + 1)); [lia|].
    destruct (Z.ltb_spec offset (at_ + (str_size (payload c) + str_size (whole l)))); [|lia].
    f_equal. replace (offset + 1 - (at_ + 1)) with (offset - at_) by lia.
    rewrite (str_drop_less _ (payload c)) by (unfold str_size in *; lia).
    generalize (str_drop (Z.to_nat (offset - at_)) (payload c)). intros s. clear.
    revert s. induction l as [|c l IH]; intros s; simpl; [by rewrite app_empty_r|].
    by rewrite IH, app_assoc_s.
Qed.

(** Trimming drops chunks from the front until the rest is within the limit. *)
Lemma trim_spec at_ l :
  chunks_from at_ l → str_size (whole l) ≤ UINT64_MAX →
  ∃ gone kept, l = gone ++ kept ∧ trim_backlog (str_size (whole l)) l = (str_size (whole kept), kept) ∧
    str_size (whole kept) ≤ kMaxBacklogBytes ∧ chunks_from (at_ + str_size (whole gone)) kept.
Proof.
  revert at_. induction l as [|c l IH]; intros at_ Hl Hsz; simpl.
  { exists [], []. split_and!; done. }
  simpl in Hl, Hsz. destruct Hl as (Hs & Hp & Hl). pose proof (str_size_pos (payload c)).
  pose proof (str_size_pos (whole l)). rewrite str_size_app in *.
  destruct (Z.ltb_spec kMaxBacklogBytes (str_size (payload c) + str_size (whole l))).
  - rewrite u64_id by (unfold in_u64, UINT64_MAX in *; lia).
    replace (str_size (payload c) + str_size (whole l) - str_size (payload c)) with (str_size (whole l)) by lia.
    destruct (IH _ Hl ltac:(lia)) as (gone & kept & -> & Ht & Hlim & Hk).
    exists (c :: gone), kept. split_and!; [done|done|done|]. simpl. rewrite str_size_app.
    by rewrite Z.add_assoc.
  - exists [], (c :: l). split_and!; [done| |simpl; rewrite str_size_app; lia|].
    + simpl. by rewrite str_size_app.
    + simpl. rewrite Z.add_0_r. done.
Qed.

Lemma appendBacklog_ok stream p r :
  log_ok stream r → str_size (stream +:+ p) ≤ INT64_MAX → log_ok (stream +:+ p) (appendBacklog p r).
Proof.
  intros [Ho Hb Hl (before & Hst & Hc)] Hmax. unfold appendBacklog. case_bool_decide as Hp.
  { subst p. rewrite app_empty_r. split; [done..|by exists before]. }
  pose proof (str_size_pos p). pose proof (str_size_pos stream). pose proof (str_size_pos before).
  assert (str_size stream = str_size before + str_size (whole (m_backlog r))) as Hss
    by (by rewrite Hst at 1; rewrite str_size_app).
  assert (p ≠ "" → 0 < str_size p) as Hpos by (unfold str_size; destruct p; simpl; [done|lia]).
  specialize (Hpos Hp). rewrite str_size_app in Hmax.
  assert (in_i64 (m_offset r + 1) ∧ in_i64 (m_offset r + str_size p)) as [Hi1 Hi2].
  { rewrite Ho. unfold in_i64, INT64_MIN. lia. }
  rewrite !i64_id by done. rewrite u64_id, Hb.
  2: { rewrite Hb. unfold in_u64, UINT64_MAX, INT64_MAX in *. pose proof (str_size_pos (whole (m_backlog r))). lia. }
  set (c := mkChunk _ _). assert (str_size (whole (m_backlog r)) + str_size p = str_size (whole (m_backlog r ++ [c])))
    as ->. { rewrite whole_app, str_size_app. simpl. by rewrite app_empty_r. }
  destruct (trim_spec (str_size before) (m_backlog r ++ [c])) as (gone & kept & Hg & Ht & Hlim & Hk).
  - apply chunks_app; [done| |done]. simpl. rewrite Ho. lia.
  - rewrite whole_app, str_size_app. simpl. rewrite app_empty_r. unfold UINT64_MAX, INT64_MAX in *. lia.
  - rewrite Ht. destruct r. split; simpl in *; [by rewrite str_size_app, Ho|done|done|].
    exists (before +:+ whole gone). split.
    + rewrite Hst, !app_assoc_s. f_equal. rewrite <-whole_app, <-Hg, whole_app. simpl.
      by rewrite app_empty_r.
    + by rewrite str_size_app.
Qed.

(** The oldest offset a replica may have and still resume, the stream's length here. *)
Definition oldest_offset (r : ReplicationManager) : Z := m_offset r - m_backlog_bytes r.

Lemma partial_ok stream r replid offset :
  log_ok stream r → str_size stream ≤ INT64_MAX → in_i64 offset →
  tryCollectPartial replid offset r =
  if (bool_decide (replid = "?") || bool_decide (replid = m_repl_id r)) &&
     (oldest_offset r <=? offset) && (offset <? m_offset r)
  then Some (str_drop (Z.to_nat offset) stream) else None.
Proof.
  intros [Ho Hb Hl (before & Hst & Hc)] Hmax Hoff. unfold tryCollectPartial, oldest_offset.
  rewrite <-negb_orb. destruct (_ || _) eqn:Hid; [|done]. cbn [negb andb].
  pose proof (str_size_pos before). pose proof (str_size_pos (whole (m_backlog r))).
  assert (str_size stream = str_size before + str_size (whole (m_backlog r))) as Hss
    by (by rewrite Hst at 1; rewrite str_size_app).
  rewrite Ho, Hb. destruct (Z.ltb_spec offset 0).
  { by destruct (Z.leb_spec (str_size stream - str_size (whole (m_backlog r))) offset); [lia|]. }
  destruct (m_backlog r) as [|c l] eqn:El.
  { change (str_size (whole [])) with 0 in *.
    destruct (Z.leb_spec (str_size stream - 0) offset), (Z.ltb_spec offset (str_size stream)); done || lia. }
  rewrite <-El in *. assert (start_offset c = str_size before + 1) as Hs.
  { rewrite El in Hc. by destruct Hc. }
  destruct (decide (offset = INT64_MAX)) as [->|Hne].
  { change (i64 (INT64_MAX + 1)) with INT64_MIN. rewrite Hs.
    destruct (Z.ltb_spec INT64_MIN (str_size before + 1)); [|unfold INT64_MIN in *; lia].
    destruct (Z.ltb_spec INT64_MAX (str_size stream)); [lia|]. by rewrite andb_false_r. }
  destruct Hoff as [_ Hoff]. rewrite i64_id by (unfold in_i64, INT64_MIN in *; lia). rewrite Hs.
  destruct (Z.ltb_spec (offset + 1) (str_size before + 1)).
  { by destruct (Z.leb_spec (str_size stream - str_size (whole (m_backlog r))) offset); [lia|]. }
  rewrite (collect_spec (str_size before)) by (done || lia). rewrite <-Hss.
  destruct (Z.leb_spec (str_size stream - str_size (whole (m_backlog r))) offset); [|lia].
  destruct (offset <? _); [|done]. simpl. f_equal. rewrite Hst at 1.
  replace (Z.to_nat offset) with (String.length before + Z.to_nat (offset - str_size before))%nat
    by (unfold str_size in *; lia).
  by rewrite str_drop_more.
Qed.

(** ** The managers there can be *)

Section reach.
Context (alive : Sess → bool).

(** A critical section of a method, and what it adds to the stream.  The last three are
    the ones of the replica's own loop. *)
Inductive repl_step : ReplicationManager → string → ReplicationManager → Prop :=
  | step_propagate cmd r :
      repl_step r (match m_role r with Master => encode cmd | Slave => "" end)
        (propagateCommand alive cmd r).1
  | step_slaveof host port r : repl_step r "" (setSlaveOf alive host port r).1.1
  | step_register s r : repl_step r "" (registerReplica s r)
  | step_remove s r : repl_step r "" (removeReplica alive s r)
  | step_configure b r : repl_step r "" (configureSlaveSync b r)
  | step_link n r : repl_step r "" (set_link n r)
  | step_pos id n r : repl_step r "" (set_master_pos id n r)
  | step_session s r : repl_step r "" (set_master_sync s r).

(** The managers there can be, with the stream of what they propagated. *)
Inductive repl_reach : string → ReplicationManager → Prop :=
  | reach_new id : repl_reach "" (ReplicationManager0 id)
  | reach_step stream r add r' :
      repl_reach stream r → repl_step r add r' → repl_reach (stream +:+ add) r'.

Definition same_log (r r' : ReplicationManager) : Prop :=
  m_offset r' = m_offset r ∧ m_backlog r' = m_backlog r ∧ m_backlog_bytes r' = m_backlog_bytes r.

Lemma same_log_ok stream r r' : same_log r r' → log_ok stream r → log_ok stream r'.
Proof. intros (Ho & Hl & Hb) []. split; by rewrite ?Ho, ?Hl, ?Hb. Qed.

Lemma step_log r add r' : repl_step r add r' →
  same_log r r' ∧ add = "" ∨ (add ≠ "" ∧ same_log (appendBacklog add r) r').
Proof.
  destruct 1 as [cmd r|host port r|[s|] r|[s|] r|b r|n r|id n r|s r];
    try (left; by destruct r); unfold propagateCommand, setSlaveOf.
  - destruct (m_role r) eqn:E; [|left; by destruct r]. right. split; [|by destruct r].
    destruct (encode_starts cmd) as (c & s & -> & _). done.
  - left. case_bool_decide; by destruct r.
Qed.

Lemma reach_ok stream r : repl_reach stream r → str_size stream ≤ INT64_MAX → log_ok stream r.
Proof.
  induction 1 as [id|stream r add r' Hr IH Hstep]; intros Hmax.
  { split; [done..|]. by exists "". }
  pose proof (str_size_pos add). rewrite str_size_app in Hmax. specialize (IH ltac:(lia)).
  destruct (step_log _ _ _ Hstep) as [[Hs ->]|[Ha Hs]].
  - rewrite app_empty_r. by eapply same_log_ok.
  - eapply same_log_ok; [done|]. apply appendBacklog_ok; [done|]. rewrite str_size_app. lia.
Qed.
End reach.

(** ** What a replica applies *)

Lemma encode_all_app l k : encode_all (l ++ k) = encode_all l +:+ encode_all k.
Proof. induction l as [|x l IH]; [done|]. simpl. by rewrite IH, app_assoc_s. Qed.

Lemma encode_all_replies l l' :
  Forall (λ a, ∀ b, reply_of a = reply_of b → encode a = encode b) l →
  reply_of <$> l = reply_of <$> l' → encode_all l = encode_all l'.
Proof.
  intros IH. revert l'. induction IH as [|x l Hx _ IH]; intros [|y l'] H; [done..|].
  injection H as Hxy H. simpl. by rewrite (Hx _ Hxy), (IH _ H).
Qed.

(** The text of a value is that of what it means. *)
Lemma encode_reply a b : reply_of a = reply_of b → encode a = encode b.
Proof.
  revert b. induction a as [t s n l z IH] using RespValue_nested_ind. intros [t' s' n' l' z'] H.
  destruct t, t', z, z'; cbn [reply_of r_type r_str r_integer r_is_null r_array] in H;
    try discriminate; try (by injection H as ->); try done.
  all: rewrite !encode_array by done; cbn [r_array]; injection H as H.
  all: rewrite (encode_all_replies _ _ IH H); by rewrite <-(length_fmap reply_of l), H, length_fmap.
Qed.

Section follow.
Context (reserves : Z → bool) {net : Type} (read : net → Z → net * list ascii).
Context (stream : net → list ascii) (dispatch : Handler).

(** The commands applied to the data one after the other, each in a new context. *)
Inductive applies : list RespValue → World → World → Prop :=
  | applies_nil w : applies [] w w
  | applies_cons cmd cmds w e r w' :
      dispatch cmd (mkEnv slave_ctx w) = Some (e, r) → applies cmds (e_world e) w' →
      applies (cmd :: cmds) w w'.

(** [dispatch] returns on what is received for [cmd]. *)
Definition answered (cmd : RespValue) : Prop :=
  ∀ v e, reply_of v = reply_of cmd → is_Some (dispatch v e).

Lemma advance_offset n r : 0 ≤ m_master_offset r → in_i64 (m_master_offset r + n) → 
  m_master_offset (advance n r) = m_master_offset r + n.
Proof.
  intros H Hi. unfold advance. destruct (Z.leb_spec 0 (m_master_offset r)); [|lia].
  destruct r. simpl in *. by apply i64_id.
Qed.

Definition same_master (r r' : ReplicationManager) : Prop :=
  m_master_repl_id r' = m_master_repl_id r ∧ m_role r' = m_role r ∧
  m_master_host r' = m_master_host r ∧ m_master_port r' = m_master_port r.

Lemma advance_same n r : same_master r (advance n r).
Proof. unfold advance. destruct (0 <=? _), r; done. Qed.

(** At the end of the stream the session is closed. *)
Lemma recvCommand_eof rf s n out :
  reads_stream read stream → session_ok s → (m_readPos s ≤ length (m_data s))%nat →
  unread s ++ stream n = [] → ∃ s' n', recvCommand reserves read (S rf) s n out = Some (RecvFalse, s', n', out).
Proof.
  intros Hread Hs Hp [Hu Hn]%app_eq_nil. cbn [recvCommand]. rewrite <-compact_unread in Hu.
  pose proof (compact_ok s Hs) as Hc. apply compact_pos in Hp. pose proof (compact_full s) as Hfull.
  assert (m_size (compactIfNeeded s) = m_size s) as Hsize.
  { unfold compactIfNeeded. case_bool_decide; [done|]. by destruct (_ && _). }
  set (c := compactIfNeeded s) in *.
  assert (length (m_data c) ≤ m_readPos c)%nat as Hle.
  { apply (f_equal length) in Hu. unfold unread in Hu. rewrite length_drop in Hu. simpl in Hu. lia. }
  unfold parse_buffered. destruct (Nat.leb_spec (length (m_data c)) (m_readPos c)); [|lia].
  cbn [mbind option_bind]. pose proof (size_pow c Hc) as [Hz _].
  destruct (Z.leb_spec (m_size c) (m_dataLen c)) as [Hge|Hlt].
  { rewrite Hsize in Hge. specialize (Hfull Hge). unfold m_dataLen in *. lia. }
  pose proof (Hread n (m_size c - m_dataLen c) ltac:(lia)) as (Hst & _ & _).
  destruct (read n (m_size c - m_dataLen c)) as [n' chunk]. simpl in Hst. rewrite Hn in Hst.
  symmetry in Hst. apply app_eq_nil in Hst as [-> _]. by eexists _, _.
Qed.

Lemma recv_steps_max s : session_ok s → recv_steps s ≤ 3 * kMaxBufferSize.
Proof.
  intros Hs. pose proof (size_pow s Hs) as [Hz _]. unfold recv_steps, m_dataLen.
  case_bool_decide; change kMaxBufferSize with (2 ^ 24) in *; lia.
Qed.

(** Following a stream of commands: the ones applied are the first of them, in order, and
    the offset is where they end. *)
Lemma sync_loop_follows rf cmds : ∀ fuel s n w r,
  reads_stream read stream → session_ok s → (m_readPos s ≤ length (m_data s))%nat →
  Forall (λ c, is_command reserves c ∧ str_size (encode c) ≤ kMaxBufferSize ∧ answered c) cmds →
  unread s ++ stream n = chars (encode_all cmds) → 3 * kMaxBufferSize ≤ Z.of_nat rf →
  (length cmds < fuel)%nat → 0 ≤ m_master_offset r →
  m_master_offset r + str_size (encode_all cmds) ≤ INT64_MAX →
  ∃ k n' reqs w' r', sync_loop reserves read dispatch fuel rf s n w r = Some (n', w', r') ∧
    (k ≤ length cmds)%nat ∧ reply_of <$> reqs = reply_of <$> take k cmds ∧ applies reqs w w' ∧
    m_master_offset r' = m_master_offset r + str_size (encode_all (take k cmds)) ∧
    same_master r r'.
Proof.
  intros fuel s n w r Hread Hs Hp Hall Hu Hrf. revert fuel s n w r Hs Hp Hu.
  induction Hall as [|c cmds (Hc & Hmax & Hans) Hall IH]; intros fuel s n w r Hs Hp Hu Hf H0 Hi;
    (destruct fuel as [|fuel]; [simpl in Hf; lia|]); cbn [sync_loop].
  - destruct rf as [|rf]; [change kMaxBufferSize with (2 ^ 24) in Hrf; lia|].
    destruct (recvCommand_eof rf s n RespValue0 Hread Hs Hp Hu) as (s' & n' & ->). simpl.
    exists 0%nat, n', [], w, r. split_and!; [done..|apply (applies_nil w)|exact (eq_sym (Z.add_0_r _))|done].
  - cbn [encode_all] in Hu, Hi. rewrite chars_app in Hu. rewrite str_size_app in Hi.
    pose proof (str_size_pos (encode c)). pose proof (str_size_pos (encode_all cmds)).
    pose proof (recv_steps_max s Hs).
    pose proof (recvCommand_delivers reserves read stream rf c s n _ RespValue0 Hread Hs Hp Hc Hmax Hu
                  ltac:(lia)) as Hd.
    destruct (recvCommand reserves read rf s n RespValue0) as [[[[[] s'] n'] out]|]; [| |done..].
    2: { exists 0%nat, n', [], w, r. split_and!; [done|simpl; lia|done|apply (applies_nil w)|exact (eq_sym (Z.add_0_r _))|done]. }
    destruct Hd as (Hout & Hu' & Hp' & Hs'). cbn [mbind option_bind].
    destruct (Hans out (mkEnv slave_ctx w) Hout) as [[e rsp] He]. rewrite He. cbn [mbind option_bind].
    rewrite (encode_reply _ _ Hout). pose proof (advance_same (str_size (encode c)) r) as Hid.
    assert (m_master_offset (advance (str_size (encode c)) r) = m_master_offset r + str_size (encode c)) as Ho.
    { apply advance_offset; [done|]. unfold in_i64, INT64_MIN. lia. }
    destruct (IH fuel s' n' (e_world e) (advance (str_size (encode c)) r)) as
      (k & n'' & reqs & w' & r' & Hrun & Hk & Hreqs & Happ & Hoff & Hid'); [done..|simpl in Hf; lia|lia|lia|].
    exists (S k), n'', (out :: reqs), w', r'. split_and!; [done|simpl; lia| | | |unfold same_master in *; intuition congruence].
    + cbn [take]. rewrite !fmap_cons. by rewrite Hout, Hreqs.
    + by econstructor.
    + cbn [take encode_all]. rewrite str_size_app, Hoff, Ho. lia.
Qed.
End follow.

(** ** Resuming *)

Lemma oldest_range stream r : log_ok stream r →
  0 ≤ oldest_offset r ≤ m_offset r ∧ m_offset r - oldest_offset r ≤ kMaxBacklogBytes.
Proof.
  intros [Ho Hb Hl (before & Hst & _)]. unfold oldest_offset. pose proof (str_size_pos before).
  pose proof (str_size_pos (whole (m_backlog r))).
  apply (f_equal str_size) in Hst. rewrite str_size_app in Hst. lia.
Qed.

Lemma sync_begin_resumes r : m_role r = Slave → m_master_host r ≠ "" → 0 < m_master_port r →
  m_master_repl_id r ≠ "" → 0 ≤ m_master_offset r →
  sync_begin r = Some (set_link 0 r, m_master_repl_id r, m_master_offset r).
Proof.
  intros Hr Hh Hp Hi Ho. unfold sync_begin. rewrite Hr, bool_decide_eq_true_2, bool_decide_eq_false_2 by done.
  destruct (Z.leb_spec (m_master_port r) 0); [lia|]. destruct r; simpl in *.
  rewrite bool_decide_eq_false_2 by done. cbn [negb orb andb].
  match goal with |- context [0 <=? ?x] => by destruct (Z.leb_spec 0 x); [|lia] end.
Qed.

Lemma resume_offsets (past sent later : list RespValue) k :
  let all := encode_all (past ++ sent ++ later) in
  let at_ := str_size (encode_all (past ++ take k sent)) in
  at_ = str_size (encode_all past) + str_size (encode_all (take k sent)) ∧
  at_ ≤ str_size all ∧
  str_size (encode_all past) + str_size (encode_all sent) ≤ str_size all ∧
  str_drop (Z.to_nat at_) all = encode_all (drop k sent ++ later) ∧
  (drop k sent ++ later ≠ [] → at_ < str_size all).
Proof.
  cbv zeta. assert (past ++ sent ++ later = (past ++ take k sent) ++ drop k sent ++ later) as E.
  { rewrite <-(take_drop k sent) at 1. by rewrite <-!app_assoc. }
  split_and!.
  - by rewrite encode_all_app, str_size_app.
  - rewrite E, (encode_all_app (_ ++ _)), str_size_app.
    pose proof (str_size_pos (encode_all (drop k sent ++ later))). lia.
  - rewrite (encode_all_app past), (encode_all_app sent), !str_size_app.
    pose proof (str_size_pos (encode_all later)). lia.
  - rewrite E, (encode_all_app (_ ++ _)). unfold str_size. rewrite Nat2Z.id. apply str_drop_app.
  - intros H. rewrite E, (encode_all_app (_ ++ take _ _)), str_size_app.
    destruct (drop k sent ++ later) as [|c l]; [done|]. cbn [encode_all]. rewrite str_size_app.
    pose proof (str_size_pos (encode_all l)). pose proof (encode_pos c). unfold str_size in *. lia.
Qed.
