(* ===== verification/Timer.v ===== *)
(** * Timers

    [Timer] and [TimerManager] ([core/concurrency/timer.h], [timer.cc]).  A timer is at an
    address; the manager's [std::set] is the list of addresses in the order of its
    comparator, by [m_next] and then by address.  [GetCurrentMS] is an argument, [Cb] the
    callbacks.  Whether [onTimerInsertedAtFront] is called is part of the result. *)

From stdpp Require Import options.
From S2P Require Import Prelude.
From S2P Require Import CStd.

#[local] Set Default Proof Using "Type*".

Section timer.
Context {Cb : Type}.

Record Timer : Type := mkTimer {
  m_recurring : bool;
  m_ms : Z;
  m_next : Z;
  m_cb : option Cb
}.

Definition set_next (ms next : Z) (t : Timer) : Timer := mkTimer (m_recurring t) ms next (m_cb t).
Definition set_cb (cb : option Cb) (t : Timer) : Timer := mkTimer (m_recurring t) (m_ms t) (m_next t) cb.

(** [Timer(ms, cb, recurring, manager)] *)
Definition new_timer (ms : Z) (cb : option Cb) (recurring : bool) (now : Z) : Timer :=
  mkTimer recurring ms (u64 (now + ms)) cb.

Record TimerManager : Type := mkTimers {
  m_heap : gmap nat Timer;
  m_timers : list nat;
  m_tickled : bool;
  m_previouseTime : Z
}.

Definition TimerManager0 (now : Z) : TimerManager := mkTimers ∅ [] false now.

Definition set_timers (heap : gmap nat Timer) (timers : list nat) (m : TimerManager) : TimerManager :=
  mkTimers heap timers (m_tickled m) (m_previouseTime m).
Definition set_tickled (b : bool) (m : TimerManager) : TimerManager :=
  mkTimers (m_heap m) (m_timers m) b (m_previouseTime m).
Definition set_previous (now : Z) (m : TimerManager) : TimerManager :=
  mkTimers (m_heap m) (m_timers m) (m_tickled m) now.

Definition next_of (heap : gmap nat Timer) (a : nat) : Z := default 0 (m_next <$> heap !! a).

(** [Timer::Comparator] on two timers that are there. *)
Definition comparator (heap : gmap nat Timer) (a b : nat) : bool :=
  if next_of heap a <? next_of heap b then true
  else if next_of heap b <? next_of heap a then false
  else (a <? b)%nat.

(** [std::set::insert], and whether the element is the first. *)
Fixpoint set_insert (lt : nat → nat → bool) (x : nat) (l : list nat) : list nat :=
  match l with
  | [] => [x]
  | y :: l' => if lt x y then x :: l else if lt y x then y :: set_insert lt x l' else l
  end.

(** [std::set::find]: the first element that is not less, if it is not more. *)
Fixpoint set_find (lt : nat → nat → bool) (x : nat) (l : list nat) : option nat :=
  match l with
  | [] => None
  | y :: l => if lt y x then set_find lt x l else if lt x y then None else Some y
  end.

(** [addTimer(val, lock)]: the manager and whether [onTimerInsertedAtFront] is called. *)
Definition insert_timer (a : nat) (m : TimerManager) : TimerManager * bool :=
  let timers := set_insert (comparator (m_heap m)) a (m_timers m) in
  let at_front := bool_decide (head timers = Some a) && negb (m_tickled m) in
  let m := set_timers (m_heap m) timers m in
  (if at_front then set_tickled true m else m, at_front).

(** [addTimer(ms, cb, recurring)], the new timer at [a]. *)
Definition addTimer (a : nat) (ms : Z) (cb : option Cb) (recurring : bool) (now : Z) (m : TimerManager)
  : TimerManager * bool :=
  insert_timer a (set_timers (<[a := new_timer ms cb recurring now]> (m_heap m)) (m_timers m) m).

(** What [find(shared_from_this())] points at, taken out of the set. *)
Definition erase_timer (a : nat) (m : TimerManager) : option (list nat) :=
  y ← set_find (comparator (m_heap m)) a (m_timers m); Some (filter (λ x, x ≠ y) (m_timers m)).

(** [cancel]; [None] is [erase(end())]. *)
Definition cancel (a : nat) (m : TimerManager) : option (TimerManager * bool) :=
  match m_heap m !! a with
  | Some t =>
      match m_cb t with
      | Some _ =>
          timers ← erase_timer a m;
          Some (set_timers (<[a := set_cb None t]> (m_heap m)) timers m, true)
      | None => Some (m, false)
      end
  | None => Some (m, false)
  end.

Definition refresh (a : nat) (now : Z) (m : TimerManager) : TimerManager * bool :=
  match m_heap m !! a with
  | Some t =>
      match m_cb t, erase_timer a m with
      | Some _, Some timers =>
          let heap := <[a := set_next (m_ms t) (u64 (now + m_ms t)) t]> (m_heap m) in
          (set_timers heap (set_insert (comparator heap) a timers) m, true)
      | _, _ => (m, false)
      end
  | None => (m, false)
  end.

(** [reset(ms, from_now)]; the last component as in [insert_timer]. *)
Definition reset (a : nat) (ms : Z) (from_now : bool) (now : Z) (m : TimerManager) : TimerManager * bool * bool :=
  match m_heap m !! a with
  | Some t =>
      if (ms =? m_ms t) && negb from_now then (m, true, false)
      else
        match m_cb t, erase_timer a m with
        | Some _, Some timers =>
            let start := if from_now then now else u64 (m_next t - m_ms t) in
            let heap := <[a := set_next ms (u64 (start + ms)) t]> (m_heap m) in
            let '(m, front) := insert_timer a (set_timers heap timers m) in (m, true, front)
        | _, _ => (m, false, false)
        end
  | None => (m, false, false)
  end.

Definition getNextTimer (now : Z) (m : TimerManager) : TimerManager * Z :=
  let m := set_tickled false m in
  (m, match m_timers m with
      | [] => UINT64_MAX
      | next :: _ =>
          if next_of (m_heap m) next <=? now then 0 else u64 (next_of (m_heap m) next - now)
      end).

Definition hasTimer (m : TimerManager) : bool := negb (bool_decide (m_timers m = [])).

Definition detectClockRollover (now : Z) (m : TimerManager) : TimerManager * bool :=
  (set_previous now m,
   (now <? m_previouseTime m) && (now <? u64 (m_previouseTime m - 60 * 60 * 1000))).

(** [begin()] up to [lower_bound(now_timer)], and on over the timers of this millisecond;
    [now_timer] is at [tmp]. *)
Fixpoint expired_prefix (heap : gmap nat Timer) (now : Z) (tmp : nat) (l : list nat) : list nat * list nat :=
  let lt a := if next_of heap a <? now then true else if now <? next_of heap a then false else (a <? tmp)%nat in
  match l with
  | [] => ([], [])
  | a :: l' => if lt a then let '(x, y) := expired_prefix heap now tmp l' in (a :: x, y) else ([], l)
  end.
Fixpoint this_ms (heap : gmap nat Timer) (now : Z) (l : list nat) : list nat * list nat :=
  match l with
  | [] => ([], [])
  | a :: l' => if next_of heap a =? now then let '(x, y) := this_ms heap now l' in (a :: x, y) else ([], l)
  end.

Definition split_expired (rollover : bool) (now : Z) (tmp : nat) (m : TimerManager) : list nat * list nat :=
  let '(before, rest) := if rollover then (m_timers m, []) else expired_prefix (m_heap m) now tmp (m_timers m) in
  let '(same, rest) := this_ms (m_heap m) now rest in
  (before ++ same, rest).

(** The body of the last loop. *)
Definition fire (now : Z) (st : gmap nat Timer * list nat * list (option Cb)) (a : nat)
  : gmap nat Timer * list nat * list (option Cb) :=
  let '(heap, timers, cbs) := st in
  match heap !! a with
  | Some t =>
      if m_recurring t then
        let heap := <[a := set_next (m_ms t) (u64 (now + m_ms t)) t]> heap in
        (heap, set_insert (comparator heap) a timers, cbs ++ [m_cb t])
      else (<[a := set_cb None t]> heap, timers, cbs ++ [m_cb t])
  | None => st
  end.

(** [listExpiredCb]: the manager, the timers expired, their callbacks. *)
Definition listExpiredCb (now : Z) (tmp : nat) (m : TimerManager) : TimerManager * list nat * list (option Cb) :=
  match m_timers m with
  | [] => (m, [], [])
  | first :: _ =>
      let '(m, rollover) := detectClockRollover now m in
      if negb rollover && (now <? next_of (m_heap m) first) then (m, [], [])
      else
        let '(expired, rest) := split_expired rollover now tmp m in
        let '(heap, timers, cbs) := foldl (fire now) (m_heap m, rest, []) expired in
        (set_timers heap timers m, expired, cbs)
  end.
End timer.
Arguments Timer : clear implicits.
Arguments TimerManager : clear implicits.

(** [OnTimer]: the callback of a condition timer runs only while the condition is alive. *)
Inductive Callback : Type := Plain (cb : nat) | OnTimer (cond cb : nat).
Definition addConditionTimer (a : nat) (ms : Z) (cb cond : nat) (recurring : bool) (now : Z)
    (m : TimerManager Callback) : TimerManager Callback * bool :=
  addTimer a ms (Some (OnTimer cond cb)) recurring now m.
Definition run_callback (alive : nat → bool) (c : Callback) : option nat :=
  match c with
  | Plain cb => Some cb
  | OnTimer cond cb => if alive cond then Some cb else None
  end.
