(* ===== verification/TimerFacts.v ===== *)
(** * Facts about timers

    The manager's set is ordered and holds every timer that is armed; collecting the
    expired timers takes exactly those that are due; a timer that was cancelled or has
    fired its only shot stays out of the set. *)

From stdpp Require Import options.
From S2P Require Import Prelude.
From S2P Require Import CStd.
From S2P Require Import Timer.

#[local] Set Default Proof Using "Type*".

Section order.
Context {Cb : Type} (heap : gmap nat (Timer Cb)).
#[local] Abbreviation lt := (comparator heap).

Lemma comparator_spec a b : lt a b = true ↔
  next_of heap a < next_of heap b ∨ (next_of heap a = next_of heap b ∧ (a < b)%nat).
Proof.
  unfold comparator. destruct (Z.ltb_spec (next_of heap a) (next_of heap b)); [split; [by left|done]|].
  destruct (Z.ltb_spec (next_of heap b) (next_of heap a)); [split; [done|lia]|].
  rewrite Nat.ltb_lt. lia.
Qed.

Definition ordered (l : list nat) : Prop := StronglySorted (λ a b, lt a b = true) l.

Lemma ordered_NoDup l : ordered l → NoDup l.
Proof.
  induction 1 as [|x l _ IH Hx]; [constructor|]. constructor; [|done]. intros Hin.
  rewrite Forall_forall in Hx. specialize (Hx x Hin). apply comparator_spec in Hx. lia.
Qed.

Lemma set_insert_perm x l : x ∉ l → set_insert lt x l ≡ₚ x :: l.
Proof.
  induction l as [|y l IH]; intros Hx; simpl; [done|]. apply not_elem_of_cons in Hx as [Hne Hx].
  destruct (lt x y) eqn:E1; [done|]. destruct (lt y x) eqn:E2.
  - rewrite IH by done. constructor.
  - exfalso. apply Hne. apply not_true_iff_false in E1, E2. rewrite comparator_spec in E1, E2. lia.
Qed.

Lemma set_insert_ordered x l : ordered l → x ∉ l → ordered (set_insert lt x l).
Proof.
  induction 1 as [|y l Hl IH Hy]; intros Hx; simpl; [repeat constructor|].
  apply not_elem_of_cons in Hx as [Hne Hx]. destruct (lt x y) eqn:E1.
  - constructor; [by constructor|]. constructor; [done|]. eapply Forall_impl; [exact Hy|]. intros z Hz. simpl in *.
    apply comparator_spec in E1, Hz. apply comparator_spec. lia.
  - destruct (lt y x) eqn:E2.
    + constructor; [by apply IH|]. rewrite (set_insert_perm x l) by done. by constructor.
    + exfalso. apply Hne. apply not_true_iff_false in E1, E2. rewrite comparator_spec in E1, E2. lia.
Qed.

Lemma set_find_elem x l : ordered l → x ∈ l → set_find lt x l = Some x.
Proof.
  induction 1 as [|y l Hl IH Hy]; intros Hx; [by apply elem_of_nil in Hx|]. simpl.
  apply elem_of_cons in Hx as [->|Hx].
  - assert (lt y y = false) as ->; [|done]. apply not_true_iff_false. rewrite comparator_spec. lia.
  - rewrite Forall_forall in Hy. specialize (Hy x Hx). simpl in Hy. rewrite Hy. by apply IH.
Qed.

Lemma set_find_some x l y : set_find lt x l = Some y → x = y ∧ y ∈ l.
Proof.
  induction l as [|z l IH]; simpl; [done|]. destruct (lt z x) eqn:E1; [intros H; apply IH in H; set_solver|].
  destruct (lt x z) eqn:E2; [done|]. injection 1 as ->. split; [|set_solver].
  apply not_true_iff_false in E1, E2. rewrite comparator_spec in E1, E2. lia.
Qed.
End order.

Section timers.
Context {Cb : Type}.
Implicit Types (m : TimerManager Cb) (heap : gmap nat (Timer Cb)).

(** A timer outside the set may change without disturbing the order. *)
Lemma ordered_change heap heap' l :
  (∀ a, a ∈ l → next_of heap' a = next_of heap a) → ordered heap l → ordered heap' l.
Proof.
  intros H. induction 1 as [|x l Hl IH Hx]; [constructor|]. constructor; [apply IH; set_solver|].
  rewrite Forall_forall in *. intros y Hy. specialize (Hx y Hy). simpl in *. rewrite comparator_spec in *.
  rewrite !H by set_solver. done.
Qed.

Lemma ordered_insert heap l a t : a ∉ l → ordered heap l → ordered (<[a := t]> heap) l.
Proof.
  intros Ha. apply ordered_change. intros b Hb. unfold next_of. rewrite lookup_insert_ne; [done|set_solver].
Qed.

Lemma ordered_filter heap (P : nat → Prop) `{∀ x, Decision (P x)} l : ordered heap l → ordered heap (filter P l).
Proof. apply StronglySorted_filter. Qed.

Record timers_ok m : Prop := {
  to_ordered : ordered (m_heap m) (m_timers m);
  to_there a : a ∈ m_timers m → is_Some (m_heap m !! a);
  to_armed a t : m_heap m !! a = Some t → m_cb t ≠ None → a ∈ m_timers m
}.

(** Cancelled, or its only shot fired. *)
Definition dead m (a : nat) : Prop := (a ∉ m_timers m) ∧ (∃ t, m_heap m !! a = Some t ∧ m_cb t = None).

Lemma TimerManager0_ok now : timers_ok (TimerManager0 now).
Proof. split; simpl; [constructor|intros a Ha; by apply elem_of_nil in Ha|done]. Qed.

Lemma erase_timer_spec m a l : timers_ok m → erase_timer a m = Some l → a ∈ m_timers m ∧ (a ∉ l) ∧
  ordered (m_heap m) l ∧ (∀ b, b ∈ l ↔ b ≠ a ∧ b ∈ m_timers m).
Proof.
  intros Hok. unfold erase_timer. destruct (set_find _ _ _) as [y|] eqn:E; [|done].
  cbn [mbind option_bind]. injection 1 as <-.
  apply set_find_some in E as [<- Ha]. split_and!; [done| | |].
  - rewrite list_elem_of_filter. naive_solver.
  - apply ordered_filter, Hok.
  - intros b. by rewrite list_elem_of_filter.
Qed.

Lemma erase_timer_armed m a t : timers_ok m → m_heap m !! a = Some t → m_cb t ≠ None → is_Some (erase_timer a m).
Proof.
  intros Hok Ha Hcb. unfold erase_timer. rewrite set_find_elem; [by eexists|apply Hok|by eapply to_armed].
Qed.

(** A timer put (back) into the set. *)
Lemma insert_back_ok m heap l a t : timers_ok m → a ∉ l →
  (∀ b, b ∈ l ↔ b ≠ a ∧ b ∈ m_timers m) → ordered (m_heap m) l → heap = <[a := t]> (m_heap m) →
  timers_ok (set_timers heap (set_insert (comparator heap) a l) m) ∧
  (∀ b, b ∈ set_insert (comparator heap) a l ↔ b = a ∨ b ∈ m_timers m).
Proof.
  intros Hok Ha Hl Ho ->. pose proof (set_insert_perm (<[a := t]> (m_heap m)) a l Ha) as Hp.
  assert (∀ b, b ∈ set_insert (comparator (<[a := t]> (m_heap m))) a l ↔ b = a ∨ b ∈ m_timers m) as Hel.
  { intros b. rewrite Hp, elem_of_cons, Hl. destruct (decide (b = a)); naive_solver. }
  split; [|done]. split; simpl.
  - apply set_insert_ordered; [|done]. by apply ordered_insert.
  - intros b. rewrite Hel. intros [->|Hb]; [rewrite lookup_insert_eq; by eexists|].
    destruct (decide (b = a)) as [->|]; [rewrite lookup_insert_eq; by eexists|].
    rewrite lookup_insert_ne by done. by apply Hok.
  - intros b t' Hb Hcb. rewrite Hel. destruct (decide (b = a)); [by left|]. right.
    rewrite lookup_insert_ne in Hb by done. by eapply to_armed.
Qed.

Lemma insert_timer_timers m a :
  m_heap (insert_timer a m).1 = m_heap m ∧
  m_timers (insert_timer a m).1 = set_insert (comparator (m_heap m)) a (m_timers m).
Proof. unfold insert_timer. by destruct (_ && _). Qed.

(** The flag and the clock play no part in the invariant. *)
Lemma timers_ok_same m m' : m_heap m' = m_heap m → m_timers m' = m_timers m → timers_ok m → timers_ok m'.
Proof. intros Hh Ht []. split; rewrite ?Hh, ?Ht; done. Qed.

Lemma addTimer_ok m a ms cb recurring now : timers_ok m → m_heap m !! a = None →
  timers_ok (addTimer a ms cb recurring now m).1 ∧
  (∀ b, b ∈ m_timers (addTimer a ms cb recurring now m).1 ↔ b = a ∨ b ∈ m_timers m) ∧
  m_heap (addTimer a ms cb recurring now m).1 = <[a := new_timer ms cb recurring now]> (m_heap m).
Proof.
  intros Hok Ha. assert (a ∉ m_timers m) as Hn by (intros H; apply Hok in H as [? H]; congruence).
  unfold addTimer. set (m0 := set_timers _ _ _). destruct (insert_timer_timers m0 a) as [Hh Ht].
  destruct (insert_back_ok m (<[a := new_timer ms cb recurring now]> (m_heap m)) (m_timers m) a
    (new_timer ms cb recurring now)) as [Hok' Hel]; [done|done| |apply Hok|done|].
  { intros b. destruct (decide (b = a)); naive_solver. }
  rewrite Hh, Ht. split_and!; [|exact Hel|done]. by refine (timers_ok_same _ _ _ _ Hok').
Qed.

Lemma cancel_ok m a m' b : timers_ok m → cancel a m = Some (m', b) →
  timers_ok m' ∧ (b = true → dead m' a) ∧ (∀ c, dead m c → dead m' c).
Proof.
  intros Hok. unfold cancel. destruct (m_heap m !! a) as [t|] eqn:Ha; [|intros [= <- <-]; done].
  destruct (m_cb t) as [cb|] eqn:Hcb; [|intros [= <- <-]; done].
  destruct (erase_timer a m) as [l|] eqn:El; [|done]. cbn [mbind option_bind]. intros [= <- <-].
  apply erase_timer_spec in El as (Hin & Hn & Ho & Hl); [|done].
  assert (dead (set_timers (<[a := set_cb None t]> (m_heap m)) l m) a) as Hdead.
  { split; [done|]. exists (set_cb None t). split; [apply lookup_insert_eq|done]. }
  split_and!; [|done|].
  - split; simpl.
    + by apply ordered_insert.
    + intros c Hc. apply Hl in Hc as [Hne Hc]. rewrite lookup_insert_ne by done. by apply Hok.
    + intros c t' Hc Ht'. apply Hl. destruct (decide (c = a)) as [->|Hne].
      * rewrite lookup_insert_eq in Hc. by simplify_eq.
      * rewrite lookup_insert_ne in Hc by done. split; [done|]. by eapply to_armed.
  - intros c [Hc (t' & Ht' & Hcb')]. destruct (decide (c = a)) as [->|Hne]; [done|]. split; simpl.
    + rewrite Hl. naive_solver.
    + exists t'. by rewrite lookup_insert_ne.
Qed.

(** [cancel] never erases [end()]. *)
Lemma cancel_defined m a : timers_ok m → is_Some (cancel a m).
Proof.
  intros Hok. unfold cancel. destruct (m_heap m !! a) as [t|] eqn:Ha; [|by eexists].
  destruct (m_cb t) eqn:Hcb; [|by eexists].
  destruct (erase_timer_armed m a t) as [l ->]; [done..|by rewrite Hcb|]. by eexists.
Qed.

(** A timer that [erase_timer] finds is rescheduled: nothing else moves. *)
Lemma rescheduled_ok m a l t : timers_ok m → erase_timer a m = Some l →
  timers_ok (set_timers (<[a := t]> (m_heap m)) (set_insert (comparator (<[a := t]> (m_heap m))) a l) m) ∧
  (∀ c, dead m c →
    dead (set_timers (<[a := t]> (m_heap m)) (set_insert (comparator (<[a := t]> (m_heap m))) a l) m) c).
Proof.
  intros Hok Hl. apply erase_timer_spec in Hl as (Hin & Hn & Ho & Hl); [|done].
  destruct (insert_back_ok m (<[a := t]> (m_heap m)) l a t) as [Hok' Hel]; [done..|].
  split; [done|]. intros d [Hc (t' & Ht' & Hcb)]. assert (d ≠ a) as Hne by (intros ->; done). split; simpl.
  - rewrite Hel. intros [|]; done.
  - exists t'. by rewrite lookup_insert_ne.
Qed.

Lemma refresh_ok m a now : timers_ok m →
  timers_ok (refresh a now m).1 ∧ (∀ c, dead m c → dead (refresh a now m).1 c).
Proof.
  intros Hok. unfold refresh. destruct (m_heap m !! a) as [t|]; [|done].
  destruct (m_cb t) as [cb|]; [|done]. destruct (erase_timer a m) as [l|] eqn:El; [|done]. by apply rescheduled_ok.
Qed.

Lemma dead_same m m' c : m_heap m' = m_heap m → m_timers m' = m_timers m → dead m c → dead m' c.
Proof. intros Hh Ht [Hc Hd]. split; [by rewrite Ht|by rewrite Hh]. Qed.

Lemma reset_ok m a ms from_now now : timers_ok m →
  timers_ok (reset a ms from_now now m).1.1 ∧ (∀ c, dead m c → dead (reset a ms from_now now m).1.1 c).
Proof.
  intros Hok. unfold reset. destruct (m_heap m !! a) as [t|]; [|done].
  destruct (_ && _); [done|]. destruct (m_cb t) as [cb|]; [|done]. destruct (erase_timer a m) as [l|] eqn:El; [|done].
  cbv zeta. set (t' := set_next _ _ _). destruct (insert_timer a _) as [m1 front] eqn:E.
  pose proof (insert_timer_timers (set_timers (<[a := t']> (m_heap m)) l m) a) as [Hh Ht]. rewrite E in Hh, Ht.
  destruct (rescheduled_ok m a l t' Hok El) as [Hok' Hd]. simpl in *. split.
  - by refine (timers_ok_same _ _ _ _ Hok').
  - intros c Hc. by refine (dead_same _ _ _ _ _ (Hd c Hc)).
Qed.

(** ** Collecting the expired timers *)

Lemma this_ms_filter heap now l : ordered heap l → Forall (λ a, now ≤ next_of heap a) l →
  this_ms heap now l = (filter (λ a, next_of heap a ≤ now) l, filter (λ a, now < next_of heap a) l).
Proof.
  induction 1 as [|a l Hl IH Ha]; intros Hall; [done|]. apply Forall_cons in Hall as [Hn Hall]. simpl.
  destruct (Z.eqb_spec (next_of heap a) now) as [Heq|Hne].
  - rewrite IH by done. rewrite !filter_cons, decide_True, decide_False by lia. done.
  - rewrite !filter_cons, decide_False, decide_True by lia. f_equal.
    + symmetry. apply filter_none. rewrite Forall_forall in Ha. intros b Hb.
      apply Ha, comparator_spec in Hb. lia.
    + f_equal. symmetry. apply filter_all. rewrite Forall_forall in Ha. intros b Hb.
      apply Ha, comparator_spec in Hb. lia.
Qed.

Lemma expired_filter heap now tmp l x y : ordered heap l → expired_prefix heap now tmp l = (x, y) →
  x ++ (this_ms heap now y).1 = filter (λ a, next_of heap a ≤ now) l ∧
  (this_ms heap now y).2 = filter (λ a, now < next_of heap a) l.
Proof.
  intros Ho. revert x y. induction Ho as [|a l Hl IH Ha]; intros x y; simpl; [by intros [= <- <-]|].
  pose proof (λ H, this_ms_filter heap now (a :: l) (SSorted_cons a Hl Ha) H) as Hrest.
  assert (now ≤ next_of heap a → Forall (λ b, now ≤ next_of heap b) (a :: l)) as Hge.
  { intros H. constructor; [done|]. eapply Forall_impl; [exact Ha|]. intros b Hb. apply comparator_spec in Hb. lia. }
  destruct (expired_prefix heap now tmp l) as [x' y'] eqn:E. specialize (IH x' y' eq_refl) as [IH1 IH2].
  match goal with |- context [if ?b then (a :: x', y') else _] => set (lt := b) end.
  assert (if lt then next_of heap a ≤ now else now ≤ next_of heap a) as Hlt.
  { unfold lt. destruct (Z.ltb_spec (next_of heap a) now), (Z.ltb_spec now (next_of heap a)), (a <? tmp)%nat; lia. }
  destruct lt.
  - intros [= <- <-]. rewrite !filter_cons, decide_True, decide_False, <-IH1; [done|lia|done].
  - intros [= <- <-]. rewrite Hrest; [done|]. by apply Hge.
Qed.

Definition rollover (now : Z) m : bool := (detectClockRollover now m).2.

(** The timers that are due: every one when the clock went back more than an hour. *)
Definition due (now : Z) m : list nat :=
  if rollover now m then m_timers m else filter (λ a, next_of (m_heap m) a ≤ now) (m_timers m).
Definition not_due (now : Z) m : list nat :=
  if rollover now m then [] else filter (λ a, now < next_of (m_heap m) a) (m_timers m).

Lemma split_expired_due now tmp m : timers_ok m →
  split_expired (rollover now m) now tmp m = (due now m, not_due now m).
Proof.
  intros Hok. unfold split_expired, due, not_due. destruct (rollover now m); simpl; [by rewrite app_nil_r|].
  destruct (expired_prefix _ _ _ _) as [x y] eqn:E.
  destruct (expired_filter _ _ _ _ _ _ (to_ordered _ Hok) E) as [H1 H2].
  destruct (this_ms _ _ _). simpl in *. by rewrite H1, H2.
Qed.

(** What firing makes of a timer. *)
Definition fired (now : Z) (t : Timer Cb) : Timer Cb :=
  if m_recurring t then set_next (m_ms t) (u64 (now + m_ms t)) t else set_cb None t.
Definition recurs heap (a : nat) : Prop := ∃ t, heap !! a = Some t ∧ m_recurring t = true.

Lemma fire_all now expired : ∀ heap timers cbs, NoDup expired → (∀ a, a ∈ expired → is_Some (heap !! a)) →
  (∀ a, a ∈ expired → a ∉ timers) → ordered heap timers →
  ∃ heap' timers', foldl (fire now) (heap, timers, cbs) expired =
    (heap', timers', cbs ++ (m_cb <$> omap (heap !!.) expired)) ∧
  (∀ b, heap' !! b = if decide (b ∈ expired) then fired now <$> heap !! b else heap !! b) ∧
  ordered heap' timers' ∧ (∀ b, b ∈ timers' ↔ b ∈ timers ∨ b ∈ expired ∧ recurs heap b).
Proof.
  induction expired as [|a l IH]; intros heap timers cbs Hnd Hin Hout Ho.
  { exists heap, timers. split_and!; [by rewrite app_nil_r| |done|set_solver].
    intros b. by rewrite decide_False by set_solver. }
  apply NoDup_cons in Hnd as [Ha Hnd]. destruct (Hin a) as [t Ht]; [set_solver|].
  set (timers1 := if m_recurring t then set_insert (comparator (<[a := fired now t]> heap)) a timers else timers).
  assert (fire now (heap, timers, cbs) a = (<[a := fired now t]> heap, timers1, cbs ++ [m_cb t])) as Hfire.
  { unfold timers1, fired. simpl. rewrite Ht. by destruct (m_recurring t). }
  assert (a ∉ timers) as Han by (apply Hout; set_solver).
  assert (∀ b, b ∈ timers1 ↔ b ∈ timers ∨ b = a ∧ m_recurring t = true) as Hel1.
  { intros b. unfold timers1. destruct (m_recurring t); [|naive_solver].
    rewrite (set_insert_perm _ a) by done. rewrite elem_of_cons. naive_solver. }
  destruct (IH (<[a := fired now t]> heap) timers1 (cbs ++ [m_cb t])) as (heap' & timers' & Hf & Hh & Ho' & Hel).
  - done.
  - intros b Hb. rewrite lookup_insert_ne by (intros ->; done). apply Hin. set_solver.
  - intros b Hb. rewrite Hel1. intros [Hb'|[-> _]]; [|done]. revert Hb'. apply Hout. set_solver.
  - unfold timers1. destruct (m_recurring t); [apply set_insert_ordered; [|done]|]; by apply ordered_insert.
  - assert (∀ b, b ∈ l → <[a := fired now t]> heap !! b = heap !! b) as Hsame.
    { intros b Hb. apply lookup_insert_ne. by intros ->. }
    exists heap', timers'. split_and!; [| |done|].
    + cbn [foldl]. rewrite Hfire, Hf. simpl. rewrite Ht. simpl. rewrite <-app_assoc.
      do 4 f_equal. apply list_omap_ext, Forall_Forall2_diag, Forall_forall, Hsame.
    + intros b. rewrite Hh. destruct (decide (b = a)) as [->|Hne].
      * rewrite decide_False, decide_True, Ht, lookup_insert_eq by set_solver. done.
      * rewrite lookup_insert_ne by done. destruct (decide (b ∈ l)).
        -- by rewrite decide_True by set_solver.
        -- by rewrite decide_False by set_solver.
    + intros b. rewrite Hel, Hel1, elem_of_cons. unfold recurs. destruct (decide (b = a)) as [->|Hne].
      * split; [intros [[?|[_ ?]]|[? _]]; [by left|right; split; [by left|by exists t]|done]|].
        intros [?|[_ (t' & ? & ?)]]; simplify_eq; left; [by left|by right].
      * rewrite lookup_insert_ne by done. naive_solver.
Qed.

Lemma due_timers now m a : a ∈ due now m → a ∈ m_timers m.
Proof. unfold due. destruct (rollover now m); [done|]. rewrite list_elem_of_filter. tauto. Qed.

Lemma not_due_elem now m a : a ∈ not_due now m ↔ a ∈ m_timers m ∧ a ∉ due now m.
Proof.
  unfold due, not_due. destruct (rollover now m); [rewrite elem_of_nil; tauto|].
  rewrite !list_elem_of_filter. destruct (Z_lt_le_dec now (next_of (m_heap m) a)); split; naive_solver lia.
Qed.

(** Nothing is due while the earliest timer is not. *)
Lemma due_early now m a l : timers_ok m → m_timers m = a :: l → rollover now m = false →
  now < next_of (m_heap m) a → due now m = [].
Proof.
  intros Hok Hl Hr Hlt. unfold due. rewrite Hr. apply filter_none. intros b Hb Hle.
  pose proof (to_ordered _ Hok) as Ho. rewrite Hl in Hb, Ho. apply StronglySorted_inv in Ho as [_ Ho].
  apply elem_of_cons in Hb as [->|Hb]; [lia|]. rewrite Forall_forall in Ho. apply Ho, comparator_spec in Hb. lia.
Qed.

(** What [listExpiredCb] leaves of the timers. *)
Record expired_from (now : Z) m m' : Prop := {
  ef_heap b : m_heap m' !! b = if decide (b ∈ due now m) then fired now <$> m_heap m !! b else m_heap m !! b;
  ef_timers b : b ∈ m_timers m' ↔ b ∈ m_timers m ∧ (b ∉ due now m ∨ recurs (m_heap m) b);
  ef_ordered : ordered (m_heap m') (m_timers m')
}.

Lemma expired_from_nil now m m' : timers_ok m → due now m = [] → m_heap m' = m_heap m → m_timers m' = m_timers m →
  expired_from now m m'.
Proof. intros Hok Hd Hh Ht. split; rewrite ?Hd, ?Hh, ?Ht; [done|set_solver|apply Hok]. Qed.

Lemma listExpired_spec now tmp m : timers_ok m → ∃ m',
  listExpiredCb now tmp m = (m', due now m, m_cb <$> omap (m_heap m !!.) (due now m)) ∧ expired_from now m m'.
Proof.
  intros Hok. unfold listExpiredCb. destruct (m_timers m) as [|a l] eqn:Hl.
  { assert (due now m = []) as Hd by (unfold due; rewrite Hl; by destruct (rollover now m)).
    exists m. rewrite Hd. split; [done|]. by apply expired_from_nil. }
  destruct (detectClockRollover now m) as [m1 r] eqn:E.
  assert (r = rollover now m) as -> by (unfold rollover; by rewrite E).
  assert (m1 = set_previous now m) as -> by (unfold detectClockRollover in E; congruence).
  destruct (_ && _) eqn:Hearly.
  { apply andb_true_iff in Hearly as [Hr Hlt]. apply negb_true_iff in Hr. apply Z.ltb_lt in Hlt.
    assert (due now m = []) as Hd by (by eapply due_early).
    exists (set_previous now m). rewrite Hd. split; [done|]. by apply expired_from_nil. }
  pose proof (split_expired_due now tmp m Hok) as Hs. unfold split_expired in Hs |- *. simpl. rewrite Hs.
  destruct (fire_all now (due now m) (m_heap m) (not_due now m) []) as (heap' & timers' & Hf & Hh & Ho & Hel).
  - pose proof (ordered_NoDup _ _ (to_ordered _ Hok)). unfold due. destruct (rollover now m); [done|].
    by apply NoDup_filter.
  - intros b Hb. by eapply to_there, due_timers.
  - intros b Hb. rewrite not_due_elem. tauto.
  - pose proof (to_ordered _ Hok). unfold not_due. destruct (rollover now m); [constructor|]. by apply ordered_filter.
  - rewrite Hf. eexists. split; [done|]. split; simpl; [done| |done].
    intros b. rewrite Hel, not_due_elem. pose proof (due_timers now m b). destruct (decide (b ∈ due now m)); tauto.
Qed.

Lemma expired_ok now m m' : timers_ok m → expired_from now m m' → timers_ok m'.
Proof.
  intros Hok [Hh Ht Ho]. split; [done| |].
  - intros a Ha. apply Ht in Ha as [Ha _]. rewrite Hh. apply Hok in Ha as [t ->]. destruct (decide _); by eexists.
  - intros a t. rewrite Hh, Ht. destruct (decide (a ∈ due now m)) as [Hd|Hd].
    + intros H Hcb. apply fmap_Some in H as (t0 & H0 & ->). split; [by eapply due_timers|]. right.
      exists t0. split; [done|]. unfold fired in Hcb. by destruct (m_recurring t0).
    + intros H Hcb. split; [by eapply to_armed|by left].
Qed.

Lemma expired_dead now m m' c : expired_from now m m' → dead m c → dead m' c.
Proof.
  intros [Hh Ht _] [Hc (t & H & Hcb)]. split; [rewrite Ht; tauto|]. exists t. split; [|done].
  rewrite Hh, decide_False; [done|]. by intros H'%due_timers.
Qed.

Lemma one_shot_dead now m m' a t : expired_from now m m' → a ∈ due now m → m_heap m !! a = Some t →
  m_recurring t = false → dead m' a.
Proof.
  intros [Hh Ht _] Ha H Hr. split.
  - rewrite Ht. intros [_ [?|(t' & ? & ?)]]; [done|congruence].
  - exists (fired now t). split; [by rewrite Hh, decide_True, H by done|]. unfold fired. by rewrite Hr.
Qed.

(** ** A run of the manager *)

(** A step: the operation under the lock, and the timers whose callback it hands out.  A
    timer object is new when it is added. *)
Inductive timer_step : TimerManager Cb → list nat → TimerManager Cb → Prop :=
| step_add a ms cb recurring now m : m_heap m !! a = None →
    timer_step m [] (addTimer a ms cb recurring now m).1
| step_cancel a m m' b : cancel a m = Some (m', b) → timer_step m [] m'
| step_refresh a now m : timer_step m [] (refresh a now m).1
| step_reset a ms from_now now m : timer_step m [] (reset a ms from_now now m).1.1
| step_next now m : timer_step m [] (getNextTimer now m).1
| step_expire now tmp m : timer_step m (listExpiredCb now tmp m).1.2 (listExpiredCb now tmp m).1.1.

Inductive timer_run : TimerManager Cb → list nat → TimerManager Cb → Prop :=
| run_nil m : timer_run m [] m
| run_step m l m1 l' m' : timer_step m l m1 → timer_run m1 l' m' → timer_run m (l ++ l') m'.

Lemma timer_step_ok m l m' : timers_ok m → timer_step m l m' →
  timers_ok m' ∧ (∀ c, dead m c → dead m' c ∧ c ∉ l).
Proof.
  intros Hok Hs. destruct Hs as [a ms cb recurring now m Ha|a m m' b H|a now m|a ms f now m|now m|now tmp m].
  - destruct (addTimer_ok m a ms cb recurring now Hok Ha) as (Hok' & Ht & Hh). split; [done|].
    intros c [Hc (t & H & Hcb)]. assert (c ≠ a) by congruence. split; [|set_solver]. split; [rewrite Ht; tauto|].
    exists t. rewrite Hh. by rewrite lookup_insert_ne.
  - destruct (cancel_ok m a m' b Hok H) as (Hok' & _ & Hd). split; [done|]. intros c Hc. split; [by apply Hd|set_solver].
  - destruct (refresh_ok m a now Hok) as [Hok' Hd]. split; [done|]. intros c Hc. split; [by apply Hd|set_solver].
  - destruct (reset_ok m a ms f now Hok) as [Hok' Hd]. split; [done|]. intros c Hc. split; [by apply Hd|set_solver].
  - split; [by refine (timers_ok_same _ _ _ _ Hok)|]. intros c Hc. split; [done|set_solver].
  - destruct (listExpired_spec now tmp m Hok) as (m' & -> & He). simpl. split; [by eapply expired_ok|].
    intros c Hc. split; [by eapply expired_dead|]. intros H. by apply Hc, (due_timers now).
Qed.

Lemma timer_run_ok m l m' : timers_ok m → timer_run m l m' →
  timers_ok m' ∧ (∀ c, dead m c → dead m' c ∧ c ∉ l).
Proof.
  intros Hok Hr. induction Hr as [m|m l m1 l' m' Hs _ IH]; [split; [done|set_solver]|].
  destruct (timer_step_ok _ _ _ Hok Hs) as [Hok1 Hd1]. destruct (IH Hok1) as [Hok' Hd']. split; [done|].
  intros c Hc. destruct (Hd1 c Hc) as [Hc1 Hl]. destruct (Hd' c Hc1) as [Hc' Hl']. split; [done|].
  rewrite elem_of_app. tauto.
Qed.

Lemma due_ordered now m : timers_ok m → ordered (m_heap m) (due now m).
Proof.
  intros Hok. pose proof (to_ordered _ Hok). unfold due. destruct (rollover now m); [done|]. by apply ordered_filter.
Qed.

(** A one-shot timer handed out by [listExpiredCb]. *)
Definition one_shot_fired (a : nat) m m' : Prop := ∃ now tmp t,
  m_heap m !! a = Some t ∧ m_recurring t = false ∧ a ∈ (listExpiredCb now tmp m).1.2 ∧
  m' = (listExpiredCb now tmp m).1.1.

Lemma one_shot_fired_dead a m m' : timers_ok m → one_shot_fired a m m' → timers_ok m' ∧ dead m' a.
Proof.
  intros Hok (now & tmp & t & Ht & Hr & Ha & ->). destruct (listExpired_spec now tmp m Hok) as (m1 & E & He).
  rewrite E in Ha |- *. simpl in *. split; [by eapply expired_ok|by eapply one_shot_dead].
Qed.

(** The clock and the times of the timers are [uint64_t]s. *)
Definition clock_fits (now : Z) m : Prop :=
  0 ≤ now < 2 ^ 64 ∧ ∀ a, a ∈ m_timers m → 0 ≤ next_of (m_heap m) a < 2 ^ 64.

Lemma next_timer_due now now' m : timers_ok m → clock_fits now m → m_previouseTime m ≤ now → now ≤ now' →
  due now' m ≠ [] ↔ m_timers m ≠ [] ∧ now + (getNextTimer now m).2 ≤ now'.
Proof.
  intros Hok [Hnow Hfit] Hp Hn.
  assert (rollover now' m = false) as Hr.
  { unfold rollover, detectClockRollover. simpl. by destruct (Z.ltb_spec now' (m_previouseTime m)); [lia|]. }
  unfold getNextTimer. simpl. destruct (m_timers m) as [|a l] eqn:Hl.
  { unfold due. rewrite Hr, Hl. simpl. naive_solver. }
  assert (now' < next_of (m_heap m) a ∨ next_of (m_heap m) a ≤ now' ∧ a ∈ due now' m) as Hcase.
  { destruct (Z_lt_le_dec now' (next_of (m_heap m) a)) as [|Hle]; [by left|right]. split; [done|].
    unfold due. rewrite Hr, Hl. rewrite list_elem_of_filter. split; [done|left]. }
  assert (0 ≤ next_of (m_heap m) a < 2 ^ 64) by (apply Hfit; left).
  set (d := if _ <=? now then 0 else _).
  assert (now + d = Z.max now (next_of (m_heap m) a)) as Hd.
  { unfold d. destruct (Z.leb_spec (next_of (m_heap m) a) now); [lia|]. rewrite u64_id; unfold in_u64, UINT64_MAX; lia. }
  destruct Hcase as [Hlt|[Hle Hin]].
  - rewrite (due_early now' m a l) by done. split; [done|lia].
  - split; [split; [done|lia]|]. intros _ H'. rewrite H' in Hin. by apply elem_of_nil in Hin.
Qed.
End timers.
