(* ===== verification/LoadBalancer.v ===== *)
(** * The RPC load balancer

    [RpcLoadBalancer] ([rpc/rpc_load_balancer.h], [rpc_load_balancer.cc]).  Every method
    holds the one lock, so a method is a function on the balancer.  What [rand] draws is an
    argument.  A node's index is written as the list's position; that it fits an [int]
    is not repeated. *)

From Stdlib Require Import Ascii.
From stdpp Require Import strings options.
From S2P Require Import Prelude.
From S2P Require Import CStd.
From S2P Require Import Double.

Record RpcNode : Type := mkRpcNode {
  n_id : string;
  n_host : string;
  n_port : Z;
  n_weight : Z;
  n_healthy : bool;
  n_activeRequests : Z;
  n_totalRequests : Z;
  n_failedRequests : Z;
  n_metadata : gmap string string
}.

(** Setters *)
Definition set_weight (w : Z) (n : RpcNode) : RpcNode :=
  mkRpcNode (n_id n) (n_host n) (n_port n) w (n_healthy n) (n_activeRequests n) (n_totalRequests n)
    (n_failedRequests n) (n_metadata n).
Definition set_healthy (b : bool) (n : RpcNode) : RpcNode :=
  mkRpcNode (n_id n) (n_host n) (n_port n) (n_weight n) b (n_activeRequests n) (n_totalRequests n)
    (n_failedRequests n) (n_metadata n).
Definition set_requests (active total failed : Z) (n : RpcNode) : RpcNode :=
  mkRpcNode (n_id n) (n_host n) (n_port n) (n_weight n) (n_healthy n) active total failed (n_metadata n).

Record RpcLbContext : Type := mkLbContext {
  c_sourceKey : string;
  c_zone : string;
  c_canary : bool;
  c_canaryTag : string
}.
Definition RpcLbContext0 : RpcLbContext := mkLbContext "" "" false "".

Inductive LoadBalanceStrategy : Type :=
  | RoundRobin | Random | LeastConnections | WeightedRoundRobin | WeightedRandom
  | ConsistentHash | Canary | SameZone.

Record RpcLoadBalancer : Type := mkLb {
  b_strategy : LoadBalanceStrategy;
  b_nodes : list RpcNode;
  b_rrIndex : Z;
  b_wrrIndex : Z
}.

(** [create] *)
Definition RpcLoadBalancer0 (strategy : LoadBalanceStrategy) : RpcLoadBalancer := mkLb strategy [] 0 0.

Definition set_lb_nodes (l : list RpcNode) (b : RpcLoadBalancer) : RpcLoadBalancer :=
  mkLb (b_strategy b) l (b_rrIndex b) (b_wrrIndex b).
Definition set_rr (i : Z) (b : RpcLoadBalancer) : RpcLoadBalancer := mkLb (b_strategy b) (b_nodes b) i (b_wrrIndex b).
Definition set_wrr (i : Z) (b : RpcLoadBalancer) : RpcLoadBalancer := mkLb (b_strategy b) (b_nodes b) (b_rrIndex b) i.

(** The counters of a node start at 0 again. *)
Definition updateNodes (nodes : list RpcNode) (b : RpcLoadBalancer) : RpcLoadBalancer :=
  set_lb_nodes (map (set_requests 0 0 0) nodes) b.

(** ** Selection *)

(** The positions, from [i] on, of the nodes that satisfy [p]. *)
Fixpoint indices_from (i : Z) (p : RpcNode → bool) (l : list RpcNode) : list Z :=
  match l with
  | [] => []
  | n :: l => if p n then i :: indices_from (i + 1) p l else indices_from (i + 1) p l
  end.
Definition indices (p : RpcNode → bool) (l : list RpcNode) : list Z := indices_from 0 p l.

(** [idx[k % idx.size()]], or -1 when there is none. *)
Definition pick_mod (k : Z) (idx : list Z) : Z :=
  match idx with
  | [] => -1
  | _ => nth (Z.to_nat (k mod Z.of_nat (length idx))) idx (-1)
  end.

(** The loop of [selectRoundRobin], [k] turns to go. *)
Fixpoint rr_loop (k : nat) (start i : Z) (l : list RpcNode) : Z :=
  match k with
  | O => -1
  | S k =>
      let idx := u64 (start + i) mod Z.of_nat (length l) in
      match l !! Z.to_nat idx with
      | Some n => if n_healthy n then idx else rr_loop k start (i + 1) l
      | None => -1
      end
  end.
Definition selectRoundRobin (b : RpcLoadBalancer) : RpcLoadBalancer * Z :=
  match b_nodes b with
  | [] => (b, -1)
  | l => (set_rr (u64 (b_rrIndex b + 1)) b, rr_loop (length l) (b_rrIndex b) 0 l)
  end.

Definition selectRandom (draw : Z) (b : RpcLoadBalancer) : Z := pick_mod draw (indices n_healthy (b_nodes b)).

Fixpoint least_loop (best minActive i : Z) (l : list RpcNode) : Z :=
  match l with
  | [] => best
  | n :: l =>
      if n_healthy n && (n_activeRequests n <? minActive) then least_loop i (n_activeRequests n) (i + 1) l
      else least_loop best minActive (i + 1) l
  end.
Definition selectLeastConnections (b : RpcLoadBalancer) : Z := least_loop (-1) UINT64_MAX 0 (b_nodes b).

(** The weights of the healthy nodes, added as [int]s. *)
Definition total_weight (l : list RpcNode) : Z :=
  foldl (λ t n, if n_healthy n then i32 (t + n_weight n) else t) 0 l.
(** The first node at which the sum reaches [target]. *)
Fixpoint weight_loop (target current i : Z) (l : list RpcNode) : Z :=
  match l with
  | [] => -1
  | n :: l =>
      if n_healthy n then
        let current := i32 (current + n_weight n) in
        if target <=? current then i else weight_loop target current (i + 1) l
      else weight_loop target current (i + 1) l
  end.
Definition selectWeightedRoundRobin (b : RpcLoadBalancer) : RpcLoadBalancer * Z :=
  match b_nodes b with
  | [] => (b, -1)
  | l =>
      let total := total_weight l in
      if total <=? 0 then (b, -1)
      else (set_wrr (u64 (b_wrrIndex b + 1)) b, weight_loop (b_wrrIndex b mod total + 1) 0 0 l)
  end.
Definition selectWeightedRandom (draw : Z) (b : RpcLoadBalancer) : Z :=
  let total := total_weight (b_nodes b) in
  if total <=? 0 then -1 else weight_loop (draw mod total + 1) 0 0 (b_nodes b).

Definition fnv1aHash (s : string) : Z :=
  foldl (λ h c, u64 (Z.lxor h (Z.of_N (N_of_ascii c)) * 1099511628211)) 14695981039346656037 (chars s).

Definition selectConsistentHash (ctx : RpcLbContext) (b : RpcLoadBalancer) : Z :=
  pick_mod (fnv1aHash (c_sourceKey ctx)) (indices n_healthy (b_nodes b)).

Definition is_canary (n : RpcNode) : bool := bool_decide (n_metadata n !! "canary" = Some "true").
Definition selectCanary (ctx : RpcLbContext) (b : RpcLoadBalancer) : Z :=
  let canaryIdx := indices (λ n, n_healthy n && is_canary n) (b_nodes b) in
  let stableIdx := indices (λ n, n_healthy n && negb (is_canary n)) (b_nodes b) in
  if c_canary ctx && negb (bool_decide (canaryIdx = [])) then
    pick_mod (fnv1aHash (if bool_decide (c_canaryTag ctx = "") then c_sourceKey ctx else c_canaryTag ctx)) canaryIdx
  else if negb (bool_decide (stableIdx = [])) then pick_mod (fnv1aHash (c_sourceKey ctx)) stableIdx
  else hd (-1) canaryIdx.

Definition in_zone (zone : string) (n : RpcNode) : bool := bool_decide (n_metadata n !! "zone" = Some zone).
Definition selectSameZone (ctx : RpcLbContext) (b : RpcLoadBalancer) : Z :=
  let sameZoneIdx := indices (λ n, n_healthy n && in_zone (c_zone ctx) n) (b_nodes b) in
  let otherIdx := indices (λ n, n_healthy n && negb (in_zone (c_zone ctx) n)) (b_nodes b) in
  pick_mod (fnv1aHash (c_sourceKey ctx)) (match sameZoneIdx with [] => otherIdx | _ => sameZoneIdx end).

Definition selectNode (draw : Z) (ctx : RpcLbContext) (b : RpcLoadBalancer) : RpcLoadBalancer * Z :=
  match b_strategy b with
  | RoundRobin => selectRoundRobin b
  | Random => (b, selectRandom draw b)
  | LeastConnections => (b, selectLeastConnections b)
  | WeightedRoundRobin => selectWeightedRoundRobin b
  | WeightedRandom => (b, selectWeightedRandom draw b)
  | ConsistentHash => (b, selectConsistentHash ctx b)
  | Canary => (b, selectCanary ctx b)
  | SameZone => (b, selectSameZone ctx b)
  end.

(** ** Counters, health, weights *)

(** A change of the node at [index], if there is one. *)
Definition at_index (index : Z) (f : RpcNode → RpcNode) (b : RpcLoadBalancer) : RpcLoadBalancer :=
  if (index <? 0) || (Z.of_nat (length (b_nodes b)) <=? index) then b
  else set_lb_nodes (alter f (Z.to_nat index) (b_nodes b)) b.

Definition markRequestStart (index : Z) : RpcLoadBalancer → RpcLoadBalancer :=
  at_index index (λ n, set_requests (u64 (n_activeRequests n + 1)) (u64 (n_totalRequests n + 1)) (n_failedRequests n) n).
Definition markRequestEnd (index : Z) (success : bool) : RpcLoadBalancer → RpcLoadBalancer :=
  at_index index (λ n, set_requests
    (if 0 <? n_activeRequests n then n_activeRequests n - 1 else n_activeRequests n) (n_totalRequests n)
    (if success then n_failedRequests n else u64 (n_failedRequests n + 1)) n).
Definition setNodeHealthy (index : Z) (healthy : bool) : RpcLoadBalancer → RpcLoadBalancer :=
  at_index index (set_healthy healthy).

(** [newWeight / 2] rounds towards zero. *)
Definition adjust_node (threshold : double) (minWeight maxWeight : Z) (n : RpcNode) : RpcNode :=
  if n_totalRequests n =? 0 then n
  else
    let rate := d_div (of_Z (n_failedRequests n)) (of_Z (n_totalRequests n)) in
    if d_ltb threshold rate then set_weight (Z.max minWeight (Z.quot (n_weight n) 2)) n
    else if d_ltb rate (d_div threshold (of_Z 2)) then set_weight (Z.min maxWeight (i32 (n_weight n + 1))) n
    else n.
Definition adjustWeightsByFailureRate (threshold : double) (minWeight maxWeight : Z) (b : RpcLoadBalancer)
  : RpcLoadBalancer :=
  set_lb_nodes (map (adjust_node threshold minWeight maxWeight) (b_nodes b)) b.

Definition getNodes (b : RpcLoadBalancer) : list RpcNode := b_nodes b.

(** ** Facts about the load balancer

    Which positions a selection can return, and the order in which the two round robins
    serve the nodes. *)

(** The node at a position. *)
Inductive node_at_index (l : list RpcNode) (r : Z) (n : RpcNode) : Prop :=
  | Node_at : 0 ≤ r → l !! Z.to_nat r = Some n → node_at_index l r n.

Lemma node_at_head m l i : node_at_index (m :: l) (i - i) m.
Proof. by rewrite Z.sub_diag. Qed.

Lemma node_at_cons l m r n : node_at_index l r n → node_at_index (m :: l) (r + 1) n.
Proof. intros [Hr Hn]. split; [lia|]. replace (Z.to_nat (r + 1)) with (S (Z.to_nat r)) by lia. done. Qed.

(** ** Positions *)

Lemma indices_from_elem p l i r : r ∈ indices_from i p l ↔ ∃ n, node_at_index l (r - i) n ∧ p n = true.
Proof.
  revert i. induction l as [|m l IH]; intros i; cbn [indices_from].
  - split; [by intros ?%not_elem_of_nil|]. intros (n & [_ Hn] & _). by rewrite lookup_nil in Hn.
  - assert (r ∈ indices_from (i + 1) p l ↔ ∃ n, node_at_index (m :: l) (r - i) n ∧ p n = true ∧ r ≠ i) as Htail.
    { rewrite IH. split.
      - intros (n & Hn & Hp). exists n. destruct (node_at_cons l m _ _ Hn) as [H1 H2]. destruct Hn as [Hr _].
        split_and!; [by replace (r - i) with (r - (i + 1) + 1) by lia|done|lia].
      - intros (n & [Hr Hn] & Hp & Hne). exists n. split; [|done]. split; [lia|].
        by replace (Z.to_nat (r - i)) with (S (Z.to_nat (r - (i + 1)))) in Hn by lia. }
    destruct (p m) eqn:Hm; [rewrite elem_of_cons|]; rewrite Htail.
    + split.
      * intros [->|(n & Hn & Hp & _)]; [|by exists n]. exists m. split; [apply node_at_head|done].
      * intros (n & Hn & Hp). destruct (decide (r = i)); [by left|right]. by exists n.
    + split; [intros (n & Hn & Hp & _); by exists n|]. intros (n & [Hr Hn] & Hp). exists n. split; [done|]. split; [done|].
      intros ->. rewrite Z.sub_diag in Hn. injection Hn as ->. congruence.
Qed.

Lemma indices_elem p l r : r ∈ indices p l ↔ ∃ n, node_at_index l r n ∧ p n = true.
Proof. unfold indices. rewrite indices_from_elem. by rewrite Z.sub_0_r. Qed.

Lemma indices_some p l : indices p l ≠ [] ↔ ∃ n, n ∈ l ∧ p n = true.
Proof.
  split.
  - intros Hne. destruct (indices p l) as [|r rs] eqn:E; [done|].
    assert (r ∈ indices p l) as (n & [_ Hn] & Hp)%indices_elem by (rewrite E; by left).
    exists n. split; [by eapply list_elem_of_lookup_2|done].
  - intros (n & [i Hi]%list_elem_of_lookup_1 & Hp) E.
    assert (Z.of_nat i ∈ indices p l) as Hin; [|by rewrite E in Hin; apply not_elem_of_nil in Hin].
    apply indices_elem. exists n. split; [|done]. split; [lia|]. by rewrite Nat2Z.id.
Qed.

Lemma indices_none p l : indices p l = [] ↔ ∀ n, n ∈ l → p n = false.
Proof.
  destruct (decide (indices p l = [])) as [E|E].
  - split; [|done]. intros _ n Hn. destruct (p n) eqn:Hp; [|done]. exfalso. by apply (proj2 (indices_some p l)); [naive_solver|].
  - split; [done|]. apply indices_some in E as (n & Hn & Hp). intros H. rewrite (H n Hn) in Hp. done.
Qed.

Lemma pick_mod_elem k idx : idx ≠ [] → pick_mod k idx ∈ idx.
Proof.
  destruct idx as [|a idx']; [done|]. intros _. set (idx := a :: idx'). unfold pick_mod. unfold idx at 1.
  change (a :: idx') with idx. rewrite list_elem_of_In. apply nth_In.
  pose proof (Z.mod_pos_bound k (Z.of_nat (length idx))) as H. unfold idx in *. simpl length in *. lia.
Qed.

(** ** Each loop *)

Definition healthy_at (b : RpcLoadBalancer) (r : Z) (n : RpcNode) : Prop :=
  node_at_index (b_nodes b) r n ∧ n_healthy n = true.

Lemma least_loop_spec l best minActive i :
  let r := least_loop best minActive i l in
  (r = best ∧ ∀ n, n ∈ l → n_healthy n = true → minActive ≤ n_activeRequests n) ∨
  (∃ n, node_at_index l (r - i) n ∧ n_healthy n = true ∧ n_activeRequests n < minActive ∧
     ∀ m, m ∈ l → n_healthy m = true → n_activeRequests n ≤ n_activeRequests m).
Proof.
  revert best minActive i. induction l as [|m l IH]; intros best minActive i; cbn [least_loop].
  { left. split; [done|]. by intros n ?%not_elem_of_nil. }
  destruct (n_healthy m && (n_activeRequests m <? minActive)) eqn:E.
  - apply andb_true_iff in E as [Hm Hlt%Z.ltb_lt]. right.
    destruct (IH i (n_activeRequests m) (i + 1)) as [[-> Hall]|(n & Hn & Hh & Hact & Hall)].
    + exists m. split_and!; [apply node_at_head|done|done|]. intros k [->|Hk]%elem_of_cons ?; [lia|auto].
    + exists n. split_and!; [|done|lia|].
      * apply (node_at_cons _ m) in Hn. by replace (_ - i) with (least_loop i (n_activeRequests m) (i + 1) l - (i + 1) + 1) by lia.
      * intros k [->|Hk]%elem_of_cons ?; [lia|auto].
  - destruct (IH best minActive (i + 1)) as [[-> Hall]|(n & Hn & Hh & Hact & Hall)]; [left|right].
    + split; [done|]. intros k [->|Hk]%elem_of_cons Hk'; [|auto]. rewrite Hk' in E. simpl in E. lia.
    + exists n. split_and!; [|done|done|].
      * apply (node_at_cons _ m) in Hn. by replace (_ - i) with (least_loop best minActive (i + 1) l - (i + 1) + 1) by lia.
      * intros k [->|Hk]%elem_of_cons Hk'; [|auto]. rewrite Hk' in E. simpl in E. lia.
Qed.

Lemma weight_loop_spec target l current i : current < target →
  target ≤ foldl (λ t n, if n_healthy n then i32 (t + n_weight n) else t) current l →
  ∃ n, node_at_index l (weight_loop target current i l - i) n ∧ n_healthy n = true.
Proof.
  revert current i. induction l as [|m l IH]; intros current i Hlt Hsum; cbn [weight_loop foldl] in *; [lia|].
  assert (∀ c, c < target → target ≤ foldl (λ t n, if n_healthy n then i32 (t + n_weight n) else t) c l →
    ∃ n, node_at_index (m :: l) (weight_loop target c (i + 1) l - i) n ∧ n_healthy n = true) as Hgo.
  { intros c Hc Hs. destruct (IH c (i + 1) Hc Hs) as (n & Hn & Hh). exists n. split; [|done].
    apply (node_at_cons _ m) in Hn. by replace (_ - i) with (weight_loop target c (i + 1) l - (i + 1) + 1) by lia. }
  destruct (n_healthy m) eqn:Hm; [|by apply Hgo].
  destruct (Z.leb_spec target (i32 (current + n_weight m))); [|by apply Hgo].
  exists m. split; [apply node_at_head|done].
Qed.

Lemma rr_loop_spec k start i l : 0 ≤ start + i → start + i + Z.of_nat k ≤ 2 ^ 64 → l ≠ [] →
  let r := rr_loop k start i l in
  (∃ n j, node_at_index l r n ∧ n_healthy n = true ∧ i ≤ j < i + Z.of_nat k ∧ r = (start + j) mod Z.of_nat (length l) ∧
     ∀ j', i ≤ j' < j → ∃ m, node_at_index l ((start + j') mod Z.of_nat (length l)) m ∧ n_healthy m = false) ∨
  (r = -1 ∧ ∀ j, i ≤ j < i + Z.of_nat k → ∃ n, node_at_index l ((start + j) mod Z.of_nat (length l)) n ∧ n_healthy n = false).
Proof.
  intros Hs Hk Hl. revert i Hs Hk. induction k as [|k IH]; intros i Hs Hk; cbn [rr_loop].
  { right. split; [done|]. lia. }
  rewrite u64_id by (unfold in_u64, UINT64_MAX; lia).
  assert (0 < Z.of_nat (length l)) as Hlen by (destruct l; simpl; [done|lia]).
  pose proof (Z.mod_pos_bound (start + i) _ Hlen) as Hb.
  destruct (lookup_lt_is_Some_2 l (Z.to_nat ((start + i) mod Z.of_nat (length l)))) as [n Hn]; [lia|].
  rewrite Hn. destruct (n_healthy n) eqn:Hh.
  - left. exists n, i. split_and!; [by split; [lia|]|done|lia|lia|done|lia].
  - destruct (IH (i + 1)) as [(n' & j & Hn' & Hh' & Hj & Hr & Hall)|[-> Hall]]; [lia|lia| |].
    + left. exists n', j. split_and!; [done|done|lia|lia|done|].
      intros j' Hj'. destruct (decide (j' = i)) as [->|]; [|apply Hall; lia]. exists n. by split; [split; [lia|]|].
    + right. split; [done|]. intros j Hj. destruct (decide (j = i)) as [->|]; [|apply Hall; lia].
      exists n. by split; [split; [lia|]|].
Qed.

(** ** Whom a selection can return *)

(** What a strategy prefers among the healthy nodes [l]. *)
Definition prefers (b : RpcLoadBalancer) (ctx : RpcLbContext) (n : RpcNode) : Prop :=
  let there (p : RpcNode → bool) := ∃ m, m ∈ b_nodes b ∧ n_healthy m = true ∧ p m = true in
  match b_strategy b with
  | LeastConnections => ∀ m, m ∈ b_nodes b → n_healthy m = true → n_activeRequests n ≤ n_activeRequests m
  | Canary => (c_canary ctx = true → there is_canary → is_canary n = true) ∧
              (c_canary ctx = false → there (λ m, negb (is_canary m)) → is_canary n = false)
  | SameZone => there (in_zone (c_zone ctx)) → in_zone (c_zone ctx) n = true
  | _ => True
  end.

(** When a strategy finds none. *)
Definition finds_none (b : RpcLoadBalancer) : Prop :=
  match b_strategy b with
  | WeightedRoundRobin | WeightedRandom => total_weight (b_nodes b) ≤ 0
  | LeastConnections => ∀ n, n ∈ b_nodes b → n_healthy n = true → UINT64_MAX ≤ n_activeRequests n
  | _ => ∀ n, n ∈ b_nodes b → n_healthy n = false
  end.

(** A result: a healthy node the strategy prefers, or none. *)
Definition selection_ok (b : RpcLoadBalancer) (ctx : RpcLbContext) (r : Z) : Prop :=
  (r = -1 ∧ finds_none b) ∨ (¬ finds_none b ∧ ∃ n, node_at_index (b_nodes b) r n ∧ n_healthy n = true ∧ prefers b ctx n).

Lemma some_healthy b r n : node_at_index (b_nodes b) r n → n_healthy n = true → ¬ ∀ m, m ∈ b_nodes b → n_healthy m = false.
Proof. intros [_ Hn] Hh H. rewrite (H n) in Hh; [done|]. by eapply list_elem_of_lookup_2. Qed.

(** A choice among the positions where [n_healthy] and [p] hold. *)
Lemma chosen_among b p r : r ∈ indices (λ n, n_healthy n && p n) (b_nodes b) →
  ∃ n, node_at_index (b_nodes b) r n ∧ n_healthy n = true ∧ p n = true.
Proof. intros (n & Hn & [Hh Hp]%andb_true_iff)%indices_elem. by exists n. Qed.

Lemma none_among p l : indices (λ n, n_healthy n && p n) l = [] ↔ ¬ ∃ m, m ∈ l ∧ n_healthy m = true ∧ p m = true.
Proof.
  rewrite indices_none. split.
  - intros H (m & Hm & Hh & Hp). specialize (H m Hm). rewrite Hh, Hp in H. done.
  - intros H n Hn. destruct (n_healthy n && p n) eqn:E; [|done]. apply andb_true_iff in E as [??]. destruct H. by exists n.
Qed.

Lemma weighted_ok b ctx draw : b_strategy b = WeightedRoundRobin ∨ b_strategy b = WeightedRandom →
  let total := total_weight (b_nodes b) in
  selection_ok b ctx (if total <=? 0 then -1 else weight_loop (draw mod total + 1) 0 0 (b_nodes b)).
Proof.
  intros Hs total. assert (finds_none b ↔ total ≤ 0) as Hf by (unfold finds_none; by destruct Hs as [->| ->]).
  assert (∀ n, prefers b ctx n) as Hp by (intros n; unfold prefers; by destruct Hs as [->| ->]).
  unfold selection_ok. destruct (Z.leb_spec total 0) as [|Hpos]; [left|right]; [naive_solver|]. split; [naive_solver lia|].
  pose proof (Z.mod_pos_bound draw total Hpos) as Hb.
  destruct (weight_loop_spec (draw mod total + 1) (b_nodes b) 0 0) as (n & Hn & Hh); [lia|fold (total_weight (b_nodes b)); fold total; lia|].
  rewrite Z.sub_0_r in Hn. by exists n.
Qed.

Lemma plain_ok b ctx k : b_strategy b = Random ∨ b_strategy b = ConsistentHash →
  selection_ok b ctx (pick_mod k (indices n_healthy (b_nodes b))).
Proof.
  intros Hs. assert (finds_none b ↔ ∀ n, n ∈ b_nodes b → n_healthy n = false) as Hf by (unfold finds_none; by destruct Hs as [->| ->]).
  assert (∀ n, prefers b ctx n) as Hp by (intros n; unfold prefers; by destruct Hs as [->| ->]).
  unfold selection_ok. rewrite Hf. destruct (decide (indices n_healthy (b_nodes b) = [])) as [E|E]; [left|right].
  - rewrite E. exact (conj eq_refl (proj1 (indices_none _ _) E)).
  - pose proof (pick_mod_elem k _ E) as (n & Hn & Hh)%indices_elem. split; [by eapply some_healthy|]. by exists n.
Qed.

Lemma round_robin_ok b ctx : b_strategy b = RoundRobin → 0 ≤ b_rrIndex b →
  b_rrIndex b + Z.of_nat (length (b_nodes b)) ≤ 2 ^ 64 → selection_ok b ctx (selectRoundRobin b).2.
Proof.
  intros Hs H0 H1. unfold selection_ok, finds_none, prefers, selectRoundRobin. rewrite Hs.
  destruct (b_nodes b) as [|m l'] eqn:El; [left; split; [done|]; by intros n ?%not_elem_of_nil|].
  rewrite <-El in *. cbn [snd]. assert (b_nodes b ≠ []) as Hne by by rewrite El.
  destruct (rr_loop_spec (length (b_nodes b)) (b_rrIndex b) 0 (b_nodes b)) as [(n & j & Hn & Hh & _)|[-> Hall]]; [lia|lia|done| |].
  - right. split; [by eapply some_healthy|]. by exists n.
  - left. split; [done|]. intros n [i Hi]%list_elem_of_lookup_1. pose proof (lookup_lt_Some _ _ _ Hi) as Hlt.
    assert (0 < Z.of_nat (length (b_nodes b))) as Hlen by lia.
    set (len := Z.of_nat (length (b_nodes b))) in *.
    destruct (Hall ((Z.of_nat i - b_rrIndex b) mod len)) as (n' & [_ Hn'] & Hh'); [pose proof (Z.mod_pos_bound (Z.of_nat i - b_rrIndex b) len Hlen); lia|].
    rewrite Zplus_mod_idemp_r in Hn'. replace (b_rrIndex b + (Z.of_nat i - b_rrIndex b)) with (Z.of_nat i) in Hn' by lia.
    rewrite Z.mod_small, Nat2Z.id in Hn' by lia. congruence.
Qed.

Lemma least_ok b ctx : b_strategy b = LeastConnections → selection_ok b ctx (selectLeastConnections b).
Proof.
  intros Hs. unfold selection_ok, finds_none, prefers, selectLeastConnections. rewrite Hs.
  destruct (least_loop_spec (b_nodes b) (-1) UINT64_MAX 0) as [[-> Hall]|(n & Hn & Hh & Hlt & Hall)]; [by left|right].
  rewrite Z.sub_0_r in Hn. split; [|by exists n]. intros H. specialize (H n). destruct Hn as [_ Hn].
  specialize (H (list_elem_of_lookup_2 _ _ _ Hn) Hh). lia.
Qed.

Lemma canary_ok b ctx : b_strategy b = Canary → selection_ok b ctx (selectCanary ctx b).
Proof.
  intros Hs. unfold selection_ok, finds_none, prefers, selectCanary. rewrite Hs.
  set (C := indices (λ n, n_healthy n && is_canary n) (b_nodes b)). set (S := indices (λ n, n_healthy n && negb (is_canary n)) (b_nodes b)).
  destruct (c_canary ctx && negb (bool_decide (C = []))) eqn:Ec; [|destruct (decide (S = [])) as [Es|Es];
    [rewrite (bool_decide_eq_true_2 (S = [])) by done|rewrite (bool_decide_eq_false_2 (S = [])) by done]; cbn [negb]].
  - apply andb_true_iff in Ec as [Hc HC%negb_true_iff%bool_decide_eq_false]. right.
    set (k := fnv1aHash (if bool_decide (c_canaryTag ctx = "") then c_sourceKey ctx else c_canaryTag ctx)).
    destruct (chosen_among b is_canary _ (pick_mod_elem k _ HC)) as (n & Hn & Hh & Hp).
    split; [by eapply some_healthy|]. exists n. split_and!; [done|done|done|]. by rewrite Hc.
  - destruct C as [|r C'] eqn:EC.
    + left. split; [done|]. apply none_among in EC. apply none_among in Es. intros n Hn. destruct (n_healthy n) eqn:Hh; [|done].
      exfalso. destruct (is_canary n) eqn:Hk; [apply EC|apply Es]; exists n; by rewrite ?Hk.
    + right. destruct (chosen_among b is_canary r) as (n & Hn & Hh & Hp); [fold C; rewrite EC; by left|].
      split; [by eapply some_healthy|]. exists n. split_and!; [done|done|done|]. intros _ H. by apply none_among in Es.
  - right. destruct (chosen_among b (λ n, negb (is_canary n)) _ (pick_mod_elem (fnv1aHash (c_sourceKey ctx)) _ Es)) as (n & Hn & Hh & Hp%negb_true_iff).
    split; [by eapply some_healthy|]. exists n. split_and!; [done|done| |done]. intros Hc H. exfalso. rewrite Hc in Ec.
    apply negb_false_iff, bool_decide_eq_true, none_among in Ec. done.
Qed.

Lemma same_zone_ok b ctx : b_strategy b = SameZone → selection_ok b ctx (selectSameZone ctx b).
Proof.
  intros Hs. unfold selection_ok, finds_none, prefers, selectSameZone. rewrite Hs.
  destruct (indices (λ n, n_healthy n && in_zone (c_zone ctx) n) (b_nodes b)) as [|r l] eqn:E.
  - pose proof (proj1 (none_among _ _) E) as Hz.
    destruct (decide (indices (λ n, n_healthy n && negb (in_zone (c_zone ctx) n)) (b_nodes b) = [])) as [E2|E2].
    + left. rewrite E2. split; [done|]. apply none_among in E2. intros n Hn. destruct (n_healthy n) eqn:Hh; [|done].
      exfalso. destruct (in_zone (c_zone ctx) n) eqn:Hk; [apply Hz|apply E2]; exists n; by rewrite ?Hk.
    + right. destruct (chosen_among b _ _ (pick_mod_elem (fnv1aHash (c_sourceKey ctx)) _ E2)) as (n & Hn & Hh & _).
      split; [by eapply some_healthy|]. by exists n.
  - right. rewrite <-E. assert (indices (λ n, n_healthy n && in_zone (c_zone ctx) n) (b_nodes b) ≠ []) as Hne by by rewrite E.
    destruct (chosen_among b _ _ (pick_mod_elem (fnv1aHash (c_sourceKey ctx)) _ Hne)) as (n & Hn & Hh & Hp).
    split; [by eapply some_healthy|]. by exists n.
Qed.

Lemma selectNode_ok b ctx draw : 0 ≤ b_rrIndex b → b_rrIndex b + Z.of_nat (length (b_nodes b)) ≤ 2 ^ 64 →
  selection_ok b ctx (selectNode draw ctx b).2.
Proof.
  intros H0 H1. unfold selectNode. destruct (b_strategy b) eqn:Hs; cbn [snd].
  - by apply round_robin_ok.
  - by apply plain_ok; left.
  - by apply least_ok.
  - unfold selectWeightedRoundRobin. pose proof (weighted_ok b ctx (b_wrrIndex b) (or_introl Hs)) as H. cbv zeta in H.
    destruct (b_nodes b) as [|n l] eqn:E; [done|]. rewrite <-E in *. by destruct (_ <=? 0).
  - by apply weighted_ok; right.
  - by apply plain_ok; right.
  - by apply canary_ok.
  - by apply same_zone_ok.
Qed.

(** ** The order of service *)

(** The selections made one after the other, with the draws given. *)
Fixpoint turns (ctx : RpcLbContext) (draws : list Z) (b : RpcLoadBalancer) : list Z :=
  match draws with
  | [] => []
  | d :: draws => let '(b, r) := selectNode d ctx b in r :: turns ctx draws b
  end.

(** Every healthy node as often as its weight. *)
Fixpoint schedule_from (i : Z) (l : list RpcNode) : list Z :=
  match l with
  | [] => []
  | n :: l => replicate (if n_healthy n then Z.to_nat (n_weight n) else 0) i ++ schedule_from (i + 1) l
  end.
Definition schedule (l : list RpcNode) : list Z := schedule_from 0 l.

Definition weights_ok (l : list RpcNode) : Prop := ∀ n, n ∈ l → n_healthy n = true → 0 ≤ n_weight n.

Lemma schedule_cons i n l : weights_ok (n :: l) →
  Z.of_nat (length (schedule_from i (n :: l))) =
    (if n_healthy n then n_weight n else 0) + Z.of_nat (length (schedule_from (i + 1) l)).
Proof.
  intros Hw. cbn [schedule_from]. rewrite length_app, length_replicate. destruct (n_healthy n) eqn:Hh; [|lia].
  specialize (Hw n ltac:(by left) Hh). lia.
Qed.

Lemma weights_tail n l : weights_ok (n :: l) → weights_ok l.
Proof. intros H m Hm. apply H. by right. Qed.

Lemma i32_small z : 0 ≤ z < 2 ^ 31 → i32 z = z.
Proof. intros Hz. unfold i32. rewrite Z.mod_small; lia. Qed.

Lemma total_weight_from i l t : weights_ok l → 0 ≤ t → t + Z.of_nat (length (schedule_from i l)) < 2 ^ 31 →
  foldl (λ t n, if n_healthy n then i32 (t + n_weight n) else t) t l = t + Z.of_nat (length (schedule_from i l)).
Proof.
  revert i t. induction l as [|n l IH]; intros i t Hw Ht Hlt; [cbn; lia|].
  rewrite schedule_cons in * by done. cbn [foldl]. pose proof (weights_tail n l Hw) as Hw'.
  specialize (Hw n ltac:(by left)). destruct (n_healthy n).
  - specialize (Hw eq_refl). rewrite i32_small, (IH (i + 1)) by (done || lia). lia.
  - rewrite (IH (i + 1)) by (done || lia). lia.
Qed.

Lemma weight_loop_schedule l target current i : weights_ok l → 0 ≤ current →
  current + Z.of_nat (length (schedule_from i l)) < 2 ^ 31 →
  current < target ≤ current + Z.of_nat (length (schedule_from i l)) →
  schedule_from i l !! Z.to_nat (target - current - 1) = Some (weight_loop target current i l).
Proof.
  revert current i. induction l as [|n l IH]; intros current i Hw Hc Hlt Ht; [cbn in *; lia|].
  rewrite schedule_cons in * by done. pose proof (weights_tail n l Hw) as Hw'.
  specialize (Hw n ltac:(by left)). cbn [schedule_from weight_loop]. destruct (n_healthy n).
  - specialize (Hw eq_refl). rewrite i32_small by lia. destruct (Z.leb_spec target (current + n_weight n)).
    + rewrite lookup_app_l by (rewrite length_replicate; lia). apply lookup_replicate_2. lia.
    + rewrite lookup_app_r, length_replicate by (rewrite length_replicate; lia). rewrite <-IH by (done || lia). f_equal. lia.
  - by rewrite <-IH by (done || lia).
Qed.

(** The runs of the two round robins: positions of a list, one after the other. *)
Lemma turns_wrr ctx draws b : b_strategy b = WeightedRoundRobin → weights_ok (b_nodes b) →
  let l := schedule (b_nodes b) in
  l ≠ [] → Z.of_nat (length l) < 2 ^ 31 → 0 ≤ b_wrrIndex b → b_wrrIndex b + Z.of_nat (length draws) < 2 ^ 64 →
  ∀ j, (j < length draws)%nat →
  turns ctx draws b !! j = l !! Z.to_nat ((b_wrrIndex b + Z.of_nat j) mod Z.of_nat (length l)).
Proof.
  intros Hs Hw l Hl Hlt. unfold l in *. clear l. revert b Hs Hw Hl Hlt.
  induction draws as [|d draws IH]; intros b Hs Hw Hl Hlt H0 H1 j Hj; [simpl in Hj; lia|].
  cbn [turns]. unfold selectNode. rewrite Hs. unfold selectWeightedRoundRobin.
  destruct (b_nodes b) as [|n nodes] eqn:En; [done|]. rewrite <-En in *.
  assert (0 < Z.of_nat (length (schedule (b_nodes b)))) as Hpos by (destruct (schedule (b_nodes b)); simpl; [done|lia]).
  assert (total_weight (b_nodes b) = Z.of_nat (length (schedule (b_nodes b)))) as ->.
  { unfold total_weight, schedule in *. by rewrite (total_weight_from 0) by (done || lia). }
  destruct (Z.leb_spec (Z.of_nat (length (schedule (b_nodes b)))) 0); [lia|].
  pose proof (Z.mod_pos_bound (b_wrrIndex b) _ Hpos) as Hb. cbn [length] in *.
  destruct j as [|j]; cbn [lookup list_lookup].
  - rewrite Z.add_0_r. symmetry. unfold schedule in *.
    rewrite <-(weight_loop_schedule (b_nodes b) (b_wrrIndex b mod Z.of_nat (length (schedule_from 0 (b_nodes b))) + 1) 0 0) by (done || lia).
    f_equal. lia.
  - rewrite u64_id by (unfold in_u64, UINT64_MAX; lia).
    change (list_lookup j) with (lookup (M := list Z) j). rewrite (IH (set_wrr (b_wrrIndex b + 1) b)) by (cbn; done || lia).
    cbn. f_equal. f_equal. f_equal. lia.
Qed.

Lemma rotated {A} (l t : list A) (k : Z) : length t = length l → 0 ≤ k →
  (∀ j, (j < length t)%nat → t !! j = l !! Z.to_nat ((k + Z.of_nat j) mod Z.of_nat (length l))) →
  t = rotate (Z.to_nat k) l.
Proof.
  intros Hlen Hk H. apply list_eq. intros j. destruct (decide (j < length t)%nat) as [Hj|Hj].
  - rewrite H, lookup_rotate_r by lia. unfold rotate_nat_add. do 2 f_equal. f_equal. lia.
  - rewrite !lookup_ge_None_2; [done|rewrite length_rotate; lia|lia].
Qed.

Lemma turns_length ctx draws b : length (turns ctx draws b) = length draws.
Proof. revert b. induction draws as [|d draws IH]; intros b; [done|]. cbn [turns]. destruct (selectNode d ctx b). cbn. by rewrite IH. Qed.

Lemma turns_rr ctx draws b : b_strategy b = RoundRobin → b_nodes b ≠ [] → 0 ≤ b_rrIndex b →
  b_rrIndex b + Z.of_nat (length draws) < 2 ^ 64 →
  ∀ j, (j < length draws)%nat →
  turns ctx draws b !! j = Some (rr_loop (length (b_nodes b)) (b_rrIndex b + Z.of_nat j) 0 (b_nodes b)).
Proof.
  revert b. induction draws as [|d draws IH]; intros b Hs Hl H0 H1 j Hj; [simpl in Hj; lia|].
  cbn [turns length] in *. unfold selectNode. rewrite Hs. unfold selectRoundRobin.
  destruct (b_nodes b) as [|n nodes] eqn:En; [done|]. rewrite <-En in *.
  destruct j as [|j]; cbn [lookup list_lookup]; [by rewrite Z.add_0_r|].
  rewrite u64_id by (unfold in_u64, UINT64_MAX; lia).
  change (list_lookup j) with (lookup (M := list Z) j). rewrite (IH (set_rr (b_rrIndex b + 1) b)) by (cbn; done || lia).
  cbn. do 2 f_equal. lia.
Qed.

(** A healthy node is found when its turn starts. *)
Lemma rr_loop_hit k start i l n : (0 < k)%nat → 0 ≤ start < 2 ^ 64 → start mod Z.of_nat (length l) = i →
  node_at_index l i n → n_healthy n = true → rr_loop k start 0 l = i.
Proof.
  intros Hk Hs Hi [_ Hn] Hh. destruct k as [|k]; [lia|]. cbn [rr_loop].
  rewrite Z.add_0_r, u64_id by (unfold in_u64, UINT64_MAX; lia). by rewrite Hi, Hn, Hh.
Qed.

Lemma rr_serves ctx draws b i n : b_strategy b = RoundRobin → 0 ≤ b_rrIndex b →
  b_rrIndex b + Z.of_nat (length draws) < 2 ^ 64 → (length (b_nodes b) ≤ length draws)%nat →
  node_at_index (b_nodes b) i n → n_healthy n = true → i ∈ turns ctx draws b.
Proof.
  intros Hs H0 H1 Hlen Hn Hh. pose proof Hn as [Hi Hlk]. pose proof (lookup_lt_Some _ _ _ Hlk) as Hlt.
  assert (0 < Z.of_nat (length (b_nodes b))) as Hpos by lia. set (len := Z.of_nat (length (b_nodes b))) in *.
  pose proof (Z.mod_pos_bound (i - b_rrIndex b) len Hpos) as Hj.
  apply list_elem_of_lookup. exists (Z.to_nat ((i - b_rrIndex b) mod len)).
  rewrite turns_rr by (done || (intros E; rewrite E in Hlk; done) || lia). f_equal. rewrite Z2Nat.id by lia.
  apply (rr_loop_hit _ _ _ _ n); [lia|lia| |done|done]. fold len. rewrite Zplus_mod_idemp_r.
  replace (b_rrIndex b + (i - b_rrIndex b)) with i by lia. apply Z.mod_small. lia.
Qed.
