(* ===== verification/CircuitBreaker.v ===== *)
(** * Circuit breakers

    [RpcCircuitBreaker] and its manager ([rpc/rpc_circuit_breaker.h], [.cc]) and the HTTP
    one ([http/middleware/circuit_breaker_middleware.h], [.cc]).  The clock is
    an argument: milliseconds for the RPC breaker, whose methods read it at most once and
    hold its lock throughout, nanoseconds for the HTTP one, which is modelled for requests
    handled one after the other. *)

From stdpp Require Import strings options.
From stdpp Require Import strings options relations.
From S2P Require Import Prelude.

(** ** The RPC breaker *)

Inductive RpcCircuitState : Type := Closed | Open | HalfOpen.
#[global] Instance RpcCircuitState_eq_dec : EqDecision RpcCircuitState.
Proof. solve_decision. Defined.

Record RpcCircuitBreakerConfig : Type := mkCbConfig {
  failureThreshold : Z;
  successThreshold : Z;
  openDurationMs : Z;
  halfOpenMaxCalls : Z
}.
Definition RpcCircuitBreakerConfig0 : RpcCircuitBreakerConfig := mkCbConfig 5 2 5000 3.

Record RpcCircuitBreaker : Type := mkCb {
  cb_config : RpcCircuitBreakerConfig;
  cb_state : RpcCircuitState;
  cb_failures : Z;
  cb_successes : Z;
  cb_halfOpenCalls : Z;
  cb_openedAt : Z
}.
Definition RpcCircuitBreaker0 (config : RpcCircuitBreakerConfig) : RpcCircuitBreaker := mkCb config Closed 0 0 0 0.

Definition transitionTo (now : Z) (state : RpcCircuitState) (b : RpcCircuitBreaker) : RpcCircuitBreaker :=
  match state with
  | Closed => mkCb (cb_config b) Closed 0 0 0 (cb_openedAt b)
  | Open => mkCb (cb_config b) Open (cb_failures b) 0 0 now
  | HalfOpen => mkCb (cb_config b) HalfOpen 0 0 0 (cb_openedAt b)
  end.

Definition set_calls (n : Z) (b : RpcCircuitBreaker) : RpcCircuitBreaker :=
  mkCb (cb_config b) (cb_state b) (cb_failures b) (cb_successes b) n (cb_openedAt b).
Definition set_successes (n : Z) (b : RpcCircuitBreaker) : RpcCircuitBreaker :=
  mkCb (cb_config b) (cb_state b) (cb_failures b) n (cb_halfOpenCalls b) (cb_openedAt b).
Definition set_failures (n : Z) (b : RpcCircuitBreaker) : RpcCircuitBreaker :=
  mkCb (cb_config b) (cb_state b) n (cb_successes b) (cb_halfOpenCalls b) (cb_openedAt b).

Definition allowRequest (now : Z) (b : RpcCircuitBreaker) : RpcCircuitBreaker * bool :=
  match cb_state b with
  | Closed => (b, true)
  | Open =>
      if openDurationMs (cb_config b) <=? u64 (now - cb_openedAt b)
      then (set_calls 1 (transitionTo now HalfOpen b), true)
      else (b, false)
  | HalfOpen =>
      if cb_halfOpenCalls b <? halfOpenMaxCalls (cb_config b)
      then (set_calls (u64 (cb_halfOpenCalls b + 1)) b, true)
      else (b, false)
  end.

Definition recordSuccess (b : RpcCircuitBreaker) : RpcCircuitBreaker :=
  match cb_state b with
  | HalfOpen =>
      let b := set_successes (i32 (cb_successes b + 1)) b in
      if successThreshold (cb_config b) <=? cb_successes b then transitionTo 0 Closed b else b
  | Closed => if 0 <? cb_failures b then set_failures (cb_failures b - 1) b else b
  | Open => b
  end.

Definition recordFailure (now : Z) (b : RpcCircuitBreaker) : RpcCircuitBreaker :=
  match cb_state b with
  | HalfOpen => transitionTo now Open b
  | _ =>
      let b := set_failures (i32 (cb_failures b + 1)) b in
      if failureThreshold (cb_config b) <=? cb_failures b then transitionTo now Open b else b
  end.

Definition stateString (b : RpcCircuitBreaker) : string :=
  match cb_state b with Closed => "closed" | Open => "open" | HalfOpen => "half-open" end.

(** ** The manager: one breaker for each key, made when it is first asked for *)

Record RpcCircuitBreakerManager : Type := mkCbManager {
  mg_default : RpcCircuitBreakerConfig;
  mg_breakers : gmap string RpcCircuitBreaker;
  mg_configs : gmap string RpcCircuitBreakerConfig
}.
Definition RpcCircuitBreakerManager0 (config : RpcCircuitBreakerConfig) : RpcCircuitBreakerManager := mkCbManager config ∅ ∅.

Definition get_breaker (key : string) (m : RpcCircuitBreakerManager) : RpcCircuitBreaker :=
  match mg_breakers m !! key with
  | Some b => b
  | None => RpcCircuitBreaker0 (default (mg_default m) (mg_configs m !! key))
  end.
Definition put_breaker (key : string) (b : RpcCircuitBreaker) (m : RpcCircuitBreakerManager) : RpcCircuitBreakerManager :=
  mkCbManager (mg_default m) (<[key := b]> (mg_breakers m)) (mg_configs m).

Definition m_allowRequest (now : Z) (key : string) (m : RpcCircuitBreakerManager) : RpcCircuitBreakerManager * bool :=
  let '(b, r) := allowRequest now (get_breaker key m) in (put_breaker key b m, r).
Definition m_recordSuccess (key : string) (m : RpcCircuitBreakerManager) : RpcCircuitBreakerManager :=
  put_breaker key (recordSuccess (get_breaker key m)) m.
Definition m_recordFailure (now : Z) (key : string) (m : RpcCircuitBreakerManager) : RpcCircuitBreakerManager :=
  put_breaker key (recordFailure now (get_breaker key m)) m.
(** A breaker made earlier keeps the configuration it was made with. *)
Definition setConfig (key : string) (config : RpcCircuitBreakerConfig) (m : RpcCircuitBreakerManager)
  : RpcCircuitBreakerManager := mkCbManager (mg_default m) (mg_breakers m) (<[key := config]> (mg_configs m)).
Definition getStates (m : RpcCircuitBreakerManager) : gmap string string := stateString <$> mg_breakers m.

(** ** The HTTP middleware *)

Record CircuitBreakerConfig : Type := mkHbConfig {
  hc_failureThreshold : Z;
  hc_recoveryTimeoutMs : Z;
  hc_halfOpenMaxCalls : Z;
  hc_isFailure : option (Z → bool)
}.

(** [isFailure] looks at the status of the response. *)
Definition defaultIsFailure (status : Z) : bool := (500 <=? status) && (status <? 600).

Record CircuitBreakerMiddleware : Type := mkHb {
  hb_config : CircuitBreakerConfig;
  hb_state : RpcCircuitState;
  hb_failures : Z;
  hb_halfOpenCalls : Z;
  hb_openedAt : Z
}.
Definition CircuitBreakerMiddleware0 (config : CircuitBreakerConfig) (now : Z) : CircuitBreakerMiddleware :=
  mkHb (mkHbConfig (hc_failureThreshold config) (hc_recoveryTimeoutMs config) (hc_halfOpenMaxCalls config)
          (Some (default defaultIsFailure (hc_isFailure config))))
    Closed 0 0 now.

Definition hb_transitionTo (now : Z) (state : RpcCircuitState) (b : CircuitBreakerMiddleware) : CircuitBreakerMiddleware :=
  if decide (hb_state b = state) then b
  else
    match state with
    | Open => mkHb (hb_config b) Open (hb_failures b) 0 now
    | HalfOpen => mkHb (hb_config b) HalfOpen (hb_failures b) 0 (hb_openedAt b)
    | Closed => mkHb (hb_config b) Closed 0 0 (hb_openedAt b)
    end.

Definition shouldTrip (status : Z) (b : CircuitBreakerMiddleware) : bool :=
  match hc_isFailure (hb_config b) with Some f => f status | None => false end.

Definition onSuccess (now : Z) (b : CircuitBreakerMiddleware) : CircuitBreakerMiddleware :=
  match hb_state b with
  | HalfOpen =>
      let calls := u32 (hb_halfOpenCalls b + 1) in
      let b := mkHb (hb_config b) (hb_state b) (hb_failures b) calls (hb_openedAt b) in
      if hc_halfOpenMaxCalls (hb_config b) <=? calls then hb_transitionTo now Closed b else b
  | Closed => mkHb (hb_config b) (hb_state b) 0 (hb_halfOpenCalls b) (hb_openedAt b)
  | Open => b
  end.

Definition onFailure (now : Z) (b : CircuitBreakerMiddleware) : CircuitBreakerMiddleware :=
  match hb_state b with
  | HalfOpen => hb_transitionTo now Open b
  | Closed =>
      let f := u32 (hb_failures b + 1) in
      let b := mkHb (hb_config b) (hb_state b) f (hb_halfOpenCalls b) (hb_openedAt b) in
      if hc_failureThreshold (hb_config b) <=? f then hb_transitionTo now Open b else b
  | Open => b
  end.

(** [handle] returns -1 and answers 503 itself, or returns 0.  [status] is the status the
    response has when the middleware runs, before any servlet. *)
Definition hb_handle (now status : Z) (b : CircuitBreakerMiddleware) : CircuitBreakerMiddleware * Z :=
  let judge (b : CircuitBreakerMiddleware) :=
    (if status =? 200 then b else if shouldTrip status b then onFailure now b else onSuccess now b, 0) in
  match hb_state b with
  | Open =>
      if hc_recoveryTimeoutMs (hb_config b) <=? u64 (Z.quot (now - hb_openedAt b) 1000000)
      then judge (hb_transitionTo now HalfOpen b)
      else (b, -1)
  | _ => judge b
  end.

(** ** Facts about circuit breakers

    Runs of an RPC breaker, as sequences of its methods and as a system that counts the
    requests admitted and not yet answered. *)

(** ** Sequences of calls *)

(** A call, with the clock it reads. *)
Inductive CbEvent : Type := Ask (now : Z) | Succeeded (now : Z) | Failed (now : Z).
Definition ev_time (e : CbEvent) : Z := match e with Ask t | Succeeded t | Failed t => t end.

(** A call, and what [allowRequest] answered. *)
Definition cb_event (e : CbEvent) (b : RpcCircuitBreaker) : RpcCircuitBreaker * bool :=
  match e with
  | Ask now => allowRequest now b
  | Succeeded _ => (recordSuccess b, false)
  | Failed now => (recordFailure now b, false)
  end.

(** The breaker after a sequence, and how many requests it let through. *)
Fixpoint cb_exec (l : list CbEvent) (b : RpcCircuitBreaker) : RpcCircuitBreaker * Z :=
  match l with
  | [] => (b, 0)
  | e :: l =>
      let '(b, ok) := cb_event e b in
      let '(b, n) := cb_exec l b in (b, n + Z.b2z ok)
  end.

(** The clock does not go back. *)
Fixpoint clock_ok (from : Z) (l : list CbEvent) : Prop :=
  match l with [] => True | e :: l => from ≤ ev_time e ∧ clock_ok (ev_time e) l end.

Lemma transitionTo_config now s b : cb_config (transitionTo now s b) = cb_config b.
Proof. by destruct s. Qed.

Lemma cb_event_config e b : cb_config (cb_event e b).1 = cb_config b.
Proof. destruct b as [c [] f s h o], e; cbn; repeat case_match; done. Qed.

Lemma clock_trans from from' l : from ≤ from' → clock_ok from' l → clock_ok from l.
Proof. destruct l; cbn; [done|]. intros ? [? ?]. split; [lia|done]. Qed.

(** An open breaker lets nothing through before its time is over, whatever arrives late. *)
Lemma open_rejects l b t : cb_state b = Open → 0 ≤ cb_openedAt b ≤ t → clock_ok t l →
  Forall (λ e, ev_time e < cb_openedAt b + openDurationMs (cb_config b)) l →
  openDurationMs (cb_config b) ≤ UINT64_MAX →
  let '(b', n) := cb_exec l b in cb_state b' = Open ∧ n = 0 ∧ cb_openedAt b ≤ cb_openedAt b'.
Proof.
  revert b t. induction l as [|e l IH]; intros b t Hs Ht Hc Hl Hd; [done|].
  cbn [cb_exec clock_ok] in *. apply Forall_cons in Hl as [He Hl]. destruct Hc as [Hte Hc].
  assert (cb_state (cb_event e b).1 = Open ∧ (cb_event e b).2 = false ∧
    cb_openedAt b ≤ cb_openedAt (cb_event e b).1 ≤ ev_time e) as (Hs' & Hno & Ho).
  { destruct e as [now|now|now]; cbn in *.
    - unfold allowRequest. rewrite Hs. rewrite u64_id by (unfold in_u64, UINT64_MAX in *; lia).
      destruct (Z.leb_spec (openDurationMs (cb_config b)) (now - cb_openedAt b)); [lia|]. cbn. split_and!; [done|done|lia|lia].
    - unfold recordSuccess. rewrite Hs. split_and!; [done|done|lia|lia].
    - unfold recordFailure. rewrite Hs. destruct (_ <=? _); cbn; split_and!; done || lia. }
  pose proof (cb_event_config e b) as Hcfg. destruct (cb_event e b) as [b1 ok]. cbn in Hs', Hno, Ho, Hcfg. subst ok.
  specialize (IH b1 (ev_time e) Hs' ltac:(lia) Hc). rewrite Hcfg in IH.
  destruct (cb_exec l b1) as [b2 n]. destruct IH as (-> & -> & ?); [|done|split_and!; [done|done|lia]].
  eapply Forall_impl; [exact Hl|]. cbn. lia.
Qed.

(** ** Requests under way *)

(** A step of the breaker and of the number of requests it admitted that have not
    reported. *)
Inductive cb_step : RpcCircuitBreaker * nat → RpcCircuitBreaker * nat → Prop :=
  | step_admit now b b' n : allowRequest now b = (b', true) → cb_step (b, n) (b', S n)
  | step_reject now b b' n : allowRequest now b = (b', false) → cb_step (b, n) (b', n)
  | step_success b n : cb_step (b, S n) (recordSuccess b, n)
  | step_failure now b n : cb_step (b, S n) (recordFailure now b, n).

Definition cb_reach (config : RpcCircuitBreakerConfig) (y : RpcCircuitBreaker * nat) : Prop :=
  rtc cb_step (RpcCircuitBreaker0 config, O) y.

Definition config_ok (c : RpcCircuitBreakerConfig) : Prop :=
  1 ≤ failureThreshold c < 2 ^ 31 ∧ 1 ≤ successThreshold c < 2 ^ 31 ∧ 0 ≤ halfOpenMaxCalls c < 2 ^ 64.

(** At most this many trials. *)
Definition trials (c : RpcCircuitBreakerConfig) : Z := Z.max 1 (halfOpenMaxCalls c).

Definition cb_inv (config : RpcCircuitBreakerConfig) (y : RpcCircuitBreaker * nat) : Prop :=
  let '(b, n) := y in
  cb_config b = config ∧
  match cb_state b with
  | Closed => 0 ≤ cb_failures b < failureThreshold config
  | Open => True
  | HalfOpen =>
      0 ≤ cb_successes b < successThreshold config ∧ 1 ≤ cb_halfOpenCalls b ≤ trials config ∧
      cb_halfOpenCalls b ≤ cb_successes b + Z.of_nat n
  end.

Lemma i32_of z : 0 ≤ z < 2 ^ 31 → i32 z = z.
Proof. intros Hz. unfold i32. rewrite Z.mod_small; lia. Qed.

Lemma cb_inv_step config y y' : config_ok config → cb_step y y' → cb_inv config y → cb_inv config y'.
Proof.
  intros (Hf & Hs & Hh) Hstep Hinv. destruct Hstep as [now b b' n E|now b b' n E|b n|now b n].
  - destruct Hinv as [Hc Hst]. unfold allowRequest in E. destruct (cb_state b) eqn:Es.
    + injection E as <-. split; [done|]. by rewrite Es.
    + case_match; [|done]. injection E as <-. split; [done|]. cbn. unfold trials. lia.
    + case_match; [|done]. injection E as <-. split; [done|]. cbn. rewrite Es. rewrite Hc in *.
      rewrite u64_id by (unfold in_u64, UINT64_MAX; lia). unfold trials in *. lia.
  - destruct Hinv as [Hc Hst]. assert (b' = b) as ->; [|done]. unfold allowRequest in E. by repeat case_match; simplify_eq.
  - destruct Hinv as [Hc Hst]. unfold recordSuccess. destruct (cb_state b) eqn:Es.
    + destruct (Z.ltb_spec 0 (cb_failures b)); (split; [done|]); cbn; rewrite Es; cbn; lia.
    + split; [done|]. by rewrite Es.
    + cbn [cb_config set_successes cb_successes]. rewrite i32_of by lia. rewrite Hc.
      destruct (Z.leb_spec (successThreshold config) (cb_successes b + 1)); (split; [done|]); cbn; [lia|]. rewrite Es. lia.
  - destruct Hinv as [Hc Hst]. unfold recordFailure. destruct (cb_state b) eqn:Es.
    + cbn [cb_config set_failures cb_failures]. rewrite i32_of by lia. rewrite Hc.
      destruct (Z.leb_spec (failureThreshold config) (cb_failures b + 1)); (split; [done|]); cbn; [done|]. rewrite Es. lia.
    + case_match; (split; [done|]); cbn; by rewrite ?Es.
    + split; [done|]. done.
Qed.

Lemma cb_reach_inv config y : config_ok config → cb_reach config y → cb_inv config y.
Proof.
  intros Hok. apply (rtc_ind_r (cb_inv config)).
  - destruct Hok as (Hf & _). split; [done|]. cbn. lia.
  - intros y1 y2 _ Hstep. by apply cb_inv_step.
Qed.

(** With nothing under way a request is let through, except while the breaker is open. *)
Lemma idle_admits config b now : config_ok config → successThreshold config ≤ trials config →
  cb_reach config (b, O) → (cb_state b = Open → openDurationMs config ≤ u64 (now - cb_openedAt b)) →
  (allowRequest now b).2 = true.
Proof.
  intros Hok Hst Hr Hopen. pose proof (cb_reach_inv _ _ Hok Hr) as [Hc Hinv]. destruct Hok as (_ & ? & ?).
  unfold allowRequest, trials in *. rewrite Hc. destruct (cb_state b) eqn:Es; [done| |].
  - specialize (Hopen eq_refl). destruct (Z.leb_spec (openDurationMs config) (u64 (now - cb_openedAt b))); [done|lia].
  - destruct (Z.ltb_spec (cb_halfOpenCalls b) (halfOpenMaxCalls config)); [done|lia].
Qed.

(** [k] requests, one after the other, each answered. *)
Fixpoint probes (k : nat) (now : Z) (b : RpcCircuitBreaker) : RpcCircuitBreaker :=
  match k with O => b | S k => probes k now (recordSuccess (allowRequest now b).1) end.

Lemma probe_step config b now : config_ok config → successThreshold config ≤ trials config →
  cb_reach config (b, O) → cb_state b = HalfOpen →
  let b' := recordSuccess (allowRequest now b).1 in
  cb_reach config (b', O) ∧
  (if decide (successThreshold config ≤ cb_successes b + 1) then cb_state b' = Closed
   else cb_state b' = HalfOpen ∧ cb_successes b' = cb_successes b + 1).
Proof.
  intros Hok Hst Hr Hs b'. pose proof (idle_admits config b now Hok Hst Hr ltac:(by rewrite Hs)) as Hyes.
  pose proof (cb_reach_inv _ _ Hok Hr) as [Hc Hinv]. rewrite Hs in Hinv. destruct Hok as (_ & ? & ?). split.
  - unfold cb_reach in *. eapply rtc_r; [|apply step_success]. eapply rtc_r; [exact Hr|].
    apply (step_admit now). unfold b'. destruct (allowRequest now b). cbn in *. by subst.
  - unfold b', allowRequest in *. rewrite Hs in *. case_match; [|done]. cbn [fst]. unfold recordSuccess. cbn [cb_state set_calls].
    rewrite Hs. cbn [set_successes set_calls cb_successes cb_config]. rewrite i32_of by lia. rewrite Hc.
    destruct (Z.leb_spec (successThreshold config) (cb_successes b + 1)), (decide (successThreshold config ≤ cb_successes b + 1)); try lia; done.
Qed.

Lemma probes_close config b now : config_ok config → successThreshold config ≤ trials config →
  cb_reach config (b, O) → cb_state b = HalfOpen →
  cb_state (probes (Z.to_nat (successThreshold config - cb_successes b)) now b) = Closed.
Proof.
  intros Hok Hst Hr Hs. remember (Z.to_nat (successThreshold config - cb_successes b)) as k eqn:Hk.
  revert b Hr Hs Hk. induction k as [|k IH]; intros b Hr Hs Hk.
  - pose proof (cb_reach_inv _ _ Hok Hr) as [Hc Hinv]. rewrite Hs in Hinv. lia.
  - destruct (probe_step config b now Hok Hst Hr Hs) as [Hr' Hb]. cbn [probes]. destruct (decide _) as [Hd|Hd].
    + assert (k = 0%nat) as -> by (pose proof (cb_reach_inv _ _ Hok Hr) as [_ Hinv]; rewrite Hs in Hinv; lia).
      done.
    + destruct Hb as [Hs' Hn]. apply IH; [done|done|]. rewrite Hn. lia.
Qed.

(** More successes wanted than trials allowed: once the trials are over it refuses for good. *)
Lemma stuck_for_good l b : cb_state b = HalfOpen → halfOpenMaxCalls (cb_config b) ≤ cb_halfOpenCalls b →
  (∀ e, e ∈ l → ∃ now, e = Ask now) → cb_exec l b = (b, 0).
Proof.
  intros Hs Hmax. induction l as [|e l IH]; intros Hl; [done|]. destruct (Hl e) as [now ->]; [by left|].
  cbn [cb_exec cb_event]. unfold allowRequest. rewrite Hs.
  destruct (Z.ltb_spec (cb_halfOpenCalls b) (halfOpenMaxCalls (cb_config b))); [lia|]. rewrite IH; [done|]. intros e He. apply Hl. by right.
Qed.

(** ** One half-open period *)

(** The breaker stays half open all along. *)
Fixpoint half_open_through (l : list CbEvent) (b : RpcCircuitBreaker) : Prop :=
  cb_state b = HalfOpen ∧ match l with [] => True | e :: l => half_open_through l (cb_event e b).1 end.

Lemma half_open_admits config b l : config_ok config → cb_config b = config → 0 ≤ cb_halfOpenCalls b ≤ trials config →
  half_open_through l b → cb_halfOpenCalls b + (cb_exec l b).2 ≤ trials config.
Proof.
  intros Hok. revert b. induction l as [|e l IH]; intros b Hc Hn Hl; [cbn; lia|]. destruct Hl as [Hs Hl].
  pose proof Hok as (_ & _ & Hmax). cbn [cb_exec].
  assert (0 ≤ cb_halfOpenCalls (cb_event e b).1 ≤ trials config ∧
    cb_halfOpenCalls b + Z.b2z (cb_event e b).2 ≤ cb_halfOpenCalls (cb_event e b).1) as [Hn' Hle].
  { assert (cb_state (cb_event e b).1 = HalfOpen) as Hs' by (by destruct l, Hl). revert Hs'. destruct e as [now|now|now]; cbn.
    - unfold allowRequest. rewrite Hs, Hc. destruct (Z.ltb_spec (cb_halfOpenCalls b) (halfOpenMaxCalls config)); cbn; [|lia].
      rewrite u64_id by (unfold in_u64, UINT64_MAX; lia). unfold trials in *. lia.
    - unfold recordSuccess. rewrite Hs. case_match; cbn; [done|lia].
    - unfold recordFailure. by rewrite Hs. }
  pose proof (cb_event_config e b) as Hcfg. destruct (cb_event e b) as [b1 ok]. cbn [fst snd] in *.
  specialize (IH b1 ltac:(congruence) Hn' Hl). destruct (cb_exec l b1) as [b2 n]. cbn [snd] in *. lia.
Qed.

Lemma half_open_begins config b now b' l : config_ok config → cb_config b = config → cb_state b = Open →
  allowRequest now b = (b', true) → half_open_through l b' → 1 + (cb_exec l b').2 ≤ trials config.
Proof.
  intros Hok Hc Hs E. unfold allowRequest in E. rewrite Hs in E. case_match; [|done]. injection E as <-. intros Hl.
  apply (half_open_admits config (set_calls 1 (transitionTo now HalfOpen b))); [done|done|cbn; unfold trials; lia|done].
Qed.

(** ** Trials that all succeed and are too few *)

Lemma probe_few config b now k : config_ok config → cb_config b = config → cb_state b = HalfOpen →
  cb_halfOpenCalls b = cb_successes b → 0 ≤ cb_successes b →
  ((0 < k)%nat → cb_successes b + Z.of_nat k ≤ halfOpenMaxCalls config) →
  cb_successes b + Z.of_nat k < successThreshold config →
  rtc cb_step (b, O) (probes k now b, O) ∧ cb_config (probes k now b) = config ∧ cb_state (probes k now b) = HalfOpen ∧
  cb_halfOpenCalls (probes k now b) = cb_halfOpenCalls b + Z.of_nat k.
Proof.
  intros Hok. pose proof Hok as (_ & Hst & Hmax). revert b. induction k as [|k IH]; intros b Hc Hs He Hp Hk Hlt.
  { split; [done|]. split; [done|]. split; [done|]. cbn [probes]. lia. }
  cbn [probes]. assert (∃ b', allowRequest now b = (b', true) ∧ b' = set_calls (cb_halfOpenCalls b + 1) b) as (b' & E & Hb').
  { specialize (Hk ltac:(lia)). unfold allowRequest. rewrite Hs, Hc.
    destruct (Z.ltb_spec (cb_halfOpenCalls b) (halfOpenMaxCalls config)); [|lia].
    rewrite u64_id by (unfold in_u64, UINT64_MAX; lia). eauto. }
  rewrite E. cbn [fst].
  assert (recordSuccess b' = set_successes (cb_successes b + 1) b') as Hrec.
  { subst b'. unfold recordSuccess. cbn [cb_state set_calls]. rewrite Hs. cbn [cb_successes cb_config set_calls set_successes].
    rewrite i32_of by lia. rewrite Hc. destruct (Z.leb_spec (successThreshold config) (cb_successes b + 1)); [lia|done]. }
  destruct (IH (recordSuccess b')) as (H1 & H2 & H3 & H4); [rewrite Hrec, Hb'; cbn; (done || lia)..|].
  split; [|split; [done|split; [done|rewrite H4, Hrec, Hb'; cbn; lia]]].
  eapply rtc_l; [apply (step_admit now _ _ _ E)|]. eapply rtc_l; [apply step_success|]. exact H1.
Qed.

(** From an open breaker whose time is over. *)
Lemma recovery_fails config b now : config_ok config → trials config < successThreshold config → cb_reach config (b, O) →
  cb_state b = Open → openDurationMs config ≤ u64 (now - cb_openedAt b) →
  let b' := probes (Z.to_nat (trials config)) now b in
  cb_reach config (b', O) ∧ cb_state b' = HalfOpen ∧ ∀ l, (∀ e, e ∈ l → ∃ now, e = Ask now) → cb_exec l b' = (b', 0).
Proof.
  intros Hok Hlt Hr Hs Ht. pose proof (cb_reach_inv _ _ Hok Hr) as [Hc _]. pose proof Hok as (_ & Hst & Hmax). cbv zeta.
  set (b1 := set_calls 1 (transitionTo now HalfOpen b)).
  assert (allowRequest now b = (b1, true)) as E.
  { unfold allowRequest. rewrite Hs, Hc. destruct (Z.leb_spec (openDurationMs config) (u64 (now - cb_openedAt b))); [done|lia]. }
  assert (1 <= trials config) as Ht1 by (unfold trials; lia).
  replace (Z.to_nat (trials config)) with (S (Z.to_nat (trials config - 1))) by lia. cbn [probes]. rewrite E. cbn [fst].
  assert (recordSuccess b1 = set_successes 1 b1) as Hrec.
  { unfold recordSuccess. change (cb_state b1) with HalfOpen. cbn [cb_successes cb_config set_successes].
    change (cb_successes b1) with 0. change (cb_config b1) with (cb_config b). rewrite i32_of by lia. rewrite Hc. destruct (Z.leb_spec (successThreshold config) (0 + 1)); [lia|done]. }
  assert (rtc cb_step (b, O) (recordSuccess b1, O)) as Hrun.
  { eapply rtc_l; [apply (step_admit now _ _ _ E)|]. eapply rtc_l; [apply step_success|]. done. }
  destruct (probe_few config (recordSuccess b1) now (Z.to_nat (trials config - 1))) as (H1 & H2 & H3 & H4);
    [done|by rewrite Hrec|by rewrite Hrec|by rewrite Hrec|by rewrite Hrec|rewrite Hrec; cbn; unfold trials in *; lia|rewrite Hrec; cbn; lia|].
  split; [unfold cb_reach in *; etrans; [exact Hr|]; etrans; [exact Hrun|exact H1]|]. split; [done|].
  intros l. apply stuck_for_good; [done|]. rewrite H2, H4, Hrec. cbn. unfold trials in *. lia.
Qed.

(** ** Failures that are not consecutive *)

(** The longest run of failures, successes ending one, [cur] the length of the present one. *)
Fixpoint failures_in_row (cur : nat) (l : list CbEvent) : nat :=
  match l with
  | [] => cur
  | Ask _ :: l => failures_in_row cur l
  | Failed _ :: l => failures_in_row (S cur) l
  | Succeeded _ :: l => Nat.max cur (failures_in_row 0 l)
  end.

(** Two calls that fail, one that succeeds, [k] times; then two that fail. *)
Fixpoint two_of_three (k : nat) : list CbEvent :=
  match k with
  | O => [Ask 0; Failed 0; Ask 0; Failed 0]
  | S k => [Ask 0; Failed 0; Ask 0; Failed 0; Ask 0; Succeeded 0] ++ two_of_three k
  end.

Lemma two_of_three_runs k : failures_in_row 0 (two_of_three k) = 2%nat.
Proof. induction k as [|k IH]; [done|]. cbn [two_of_three app failures_in_row]. by rewrite IH. Qed.

Lemma fst_exec e l b : (cb_exec (e :: l) b).1 = (cb_exec l (cb_event e b).1).1.
Proof. cbn [cb_exec]. destruct (cb_event e b) as [b1 ok]. cbn [fst]. by destruct (cb_exec l b1). Qed.

Lemma two_of_three_opens config k n : config_ok config → 0 ≤ n → n + Z.of_nat k + 2 = Z.max 2 (failureThreshold config) →
  cb_state (cb_exec (two_of_three k) (mkCb config Closed n 0 0 0)).1 = Open.
Proof.
  intros (Hf & _). revert n. induction k as [|k IH]; intros n Hn Hk.
  - cbn [two_of_three]. rewrite !fst_exec. cbn [cb_exec fst]. cbn [cb_event]. unfold allowRequest at 2. cbn [cb_state fst].
    unfold recordFailure at 2. cbn [cb_state set_failures cb_failures cb_config]. rewrite i32_of by lia.
    destruct (Z.leb_spec (failureThreshold config) (n + 1)) as [Hle|Hgt].
    + cbn [transitionTo set_failures]. unfold allowRequest. cbn [cb_state cb_config cb_openedAt set_failures].
      destruct (_ <=? _); cbn [fst]; [done|]. unfold recordFailure. cbn [cb_state]. by destruct (_ <=? _).
    + unfold allowRequest, recordFailure. cbn. rewrite i32_of by lia.
      destruct (Z.leb_spec (failureThreshold config) (n + 1 + 1)); [done|lia].
  - cbn [two_of_three app]. rewrite !fst_exec.
    assert (∀ m, 0 ≤ m → m + 1 < failureThreshold config →
      recordFailure 0 (mkCb config Closed m 0 0 0) = mkCb config Closed (m + 1) 0 0 0) as Hfail.
    { intros m Hm Hlt. unfold recordFailure. cbn. rewrite i32_of by lia. destruct (Z.leb_spec (failureThreshold config) (m + 1)); [lia|done]. }
    cbn [cb_event]. unfold allowRequest at 3. cbn [cb_state fst]. rewrite Hfail by lia.
    unfold allowRequest at 2. cbn [cb_state fst]. rewrite Hfail by lia. unfold allowRequest. cbn [cb_state fst].
    unfold recordSuccess. cbn [cb_state cb_failures]. destruct (Z.ltb_spec 0 (n + 1 + 1)); [|lia]. cbn.
    replace (n + 1 + 1 - 1) with (n + 1) by lia. apply IH; lia.
Qed.

(** Every threshold is reached. *)
Lemma failures_open config : config_ok config →
  ∃ b, cb_reach config (b, O) ∧ cb_state b = Open ∧ cb_openedAt b = 0.
Proof.
  intros Hok. pose proof Hok as (Hf & _).
  assert (∀ k : nat, Z.of_nat k < failureThreshold config → cb_reach config (mkCb config Closed (Z.of_nat k) 0 0 0, O)) as Hk.
  { induction k as [|k IH]; intros Hlt; [by apply rtc_refl|]. unfold cb_reach in *. specialize (IH ltac:(lia)).
    eapply rtc_r; [eapply rtc_r; [exact IH|by apply (step_admit 0)]|].
    replace (mkCb config Closed (Z.of_nat (S k)) 0 0 0) with (recordFailure 0 (mkCb config Closed (Z.of_nat k) 0 0 0)); [apply step_failure|].
    unfold recordFailure. cbn. rewrite i32_of by lia. destruct (Z.leb_spec (failureThreshold config) (Z.of_nat k + 1)); [lia|].
    unfold set_failures. cbn. f_equal. lia. }
  exists (recordFailure 0 (mkCb config Closed (failureThreshold config - 1) 0 0 0)).
  specialize (Hk (Z.to_nat (failureThreshold config - 1)) ltac:(lia)). rewrite Z2Nat.id in Hk by lia.
  split; [unfold cb_reach in *; eapply rtc_r; [eapply rtc_r; [exact Hk|by apply (step_admit 0)]|apply step_failure]|].
  unfold recordFailure. cbn. rewrite i32_of by lia. by destruct (Z.leb_spec (failureThreshold config) (failureThreshold config - 1 + 1)); [|lia].
Qed.

(** ** The manager keeps the keys apart *)

(** A call on the manager. *)
Definition mg_event (e : string * CbEvent) (m : RpcCircuitBreakerManager) : RpcCircuitBreakerManager * bool :=
  match e.2 with
  | Ask now => m_allowRequest now e.1 m
  | Succeeded _ => (m_recordSuccess e.1 m, false)
  | Failed now => (m_recordFailure now e.1 m, false)
  end.
Lemma mg_event_get e m key : get_breaker key (mg_event e m).1 =
  if decide (e.1 = key) then (cb_event e.2 (get_breaker key m)).1 else get_breaker key m.
Proof.
  destruct e as [k e]. cbn [fst snd]. unfold mg_event, m_allowRequest, m_recordSuccess, m_recordFailure. cbn [fst snd].
  assert (∀ b, get_breaker key (put_breaker k b m) = if decide (k = key) then b else get_breaker key m) as Hput.
  { intros b. unfold get_breaker, put_breaker. cbn. destruct (decide (k = key)) as [->|]; by simplify_map_eq. }
  destruct e as [now|now|now]; cbn.
  - destruct (allowRequest now (get_breaker k m)) eqn:E. cbn. rewrite Hput. destruct (decide (k = key)) as [->|]; [by rewrite E|done].
  - rewrite Hput. by destruct (decide (k = key)) as [->|].
  - rewrite Hput. by destruct (decide (k = key)) as [->|].
Qed.

(** The HTTP middleware over requests whose response still says OK: it lets all of them
    through and stays as it is. *)
Fixpoint hb_exec (l : list (Z * Z)) (b : CircuitBreakerMiddleware) : CircuitBreakerMiddleware * list Z :=
  match l with
  | [] => (b, [])
  | (now, status) :: l => let '(b, r) := hb_handle now status b in let '(b, rs) := hb_exec l b in (b, r :: rs)
  end.

Lemma hb_inert l b : hb_state b ≠ Open → Forall (λ e, e.2 = 200) l → hb_exec l b = (b, replicate (length l) 0).
Proof.
  intros Hs Hl. induction Hl as [|[now status] l He _ IH]; [done|]. cbn in He. subst status. cbn [hb_exec length replicate].
  assert (hb_handle now 200 b = (b, 0)) as ->; [|by rewrite IH]. unfold hb_handle. by destruct (hb_state b).
Qed.
