(* ===== verification/RateLimit.v ===== *)
(** * Rate limiters

    [http/middleware/rate_limit_middleware.h] and [.cc].  The clock is in nanoseconds and an
    argument; [acquire] reads it once, under the limiter's lock. *)

From Stdlib.Floats Require Import SpecFloat.
From stdpp Require Import strings options.
From S2P Require Import Prelude.
From S2P Require Import Double.

Inductive RateLimitAlgorithm : Type := TokenBucket | SlidingWindow | LeakyBucket.

Record TokenBucketRateLimiter : Type := mkToken {
  tk_rate : double;
  tk_burst : double;
  tk_tokens : double;
  tk_lastTime : Z
}.
Record SlidingWindowRateLimiter : Type := mkSliding {
  sw_maxRequests : Z;
  sw_windowMs : Z;
  sw_records : list Z
}.
Record LeakyBucketRateLimiter : Type := mkLeaky {
  lk_rate : double;
  lk_capacity : double;
  lk_water : double;
  lk_lastTime : Z
}.

Definition TokenBucketRateLimiter0 (rate burst : double) (now : Z) : TokenBucketRateLimiter := mkToken rate burst burst now.
Definition SlidingWindowRateLimiter0 (maxRequests windowMs : Z) : SlidingWindowRateLimiter := mkSliding maxRequests windowMs [].
Definition LeakyBucketRateLimiter0 (rate capacity : double) (now : Z) : LeakyBucketRateLimiter := mkLeaky rate capacity d_zero now.

(** Seconds between two readings, from whole microseconds. *)
Definition elapsed_seconds (last now : Z) : double := d_div (of_Z (Z.quot (now - last) 1000)) (of_Z 1000000).
Definition d_one : double := of_Z 1.

Definition token_acquire (now : Z) (l : TokenBucketRateLimiter) : TokenBucketRateLimiter * bool :=
  let tokens := d_add (tk_tokens l) (d_mul (elapsed_seconds (tk_lastTime l) now) (tk_rate l)) in
  let tokens := if d_ltb (tk_burst l) tokens then tk_burst l else tokens in
  if d_ltb tokens d_one then (mkToken (tk_rate l) (tk_burst l) tokens now, false)
  else (mkToken (tk_rate l) (tk_burst l) (d_sub tokens d_one) now, true).

(** Whole milliseconds between two readings. *)
Definition elapsed_ms (last now : Z) : Z := Z.quot (now - last) 1000000.

(** The records that are over leave at the front. *)
Fixpoint drop_old (windowMs now : Z) (records : list Z) : list Z :=
  match records with
  | t :: rest => if windowMs <=? elapsed_ms t now then drop_old windowMs now rest else records
  | [] => []
  end.
Definition sliding_acquire (now : Z) (l : SlidingWindowRateLimiter) : SlidingWindowRateLimiter * bool :=
  let records := drop_old (sw_windowMs l) now (sw_records l) in
  if sw_maxRequests l <=? i32 (Z.of_nat (length records)) then (mkSliding (sw_maxRequests l) (sw_windowMs l) records, false)
  else (mkSliding (sw_maxRequests l) (sw_windowMs l) (records ++ [now]), true).

Definition leaky_acquire (now : Z) (l : LeakyBucketRateLimiter) : LeakyBucketRateLimiter * bool :=
  let water := d_sub (lk_water l) (d_mul (elapsed_seconds (lk_lastTime l) now) (lk_rate l)) in
  let water := if d_ltb water d_zero then d_zero else water in
  if d_ltb (lk_capacity l) (d_add water d_one) then (mkLeaky (lk_rate l) (lk_capacity l) water now, false)
  else (mkLeaky (lk_rate l) (lk_capacity l) (d_add water d_one) now, true).

(** [IRateLimiter] *)
Inductive IRateLimiter : Type :=
  | ATokenBucket (l : TokenBucketRateLimiter)
  | ASlidingWindow (l : SlidingWindowRateLimiter)
  | ALeakyBucket (l : LeakyBucketRateLimiter).

Definition acquire (now : Z) (l : IRateLimiter) : IRateLimiter * bool :=
  match l with
  | ATokenBucket l => let '(l, r) := token_acquire now l in (ATokenBucket l, r)
  | ASlidingWindow l => let '(l, r) := sliding_acquire now l in (ASlidingWindow l, r)
  | ALeakyBucket l => let '(l, r) := leaky_acquire now l in (ALeakyBucket l, r)
  end.

(** [static_cast<int>] of a double whose value fits. *)
Definition d_to_int (d : double) : Z :=
  match d with
  | S754_finite neg m e => let '(num, den) := as_fraction m e in (if neg then -1 else 1) * (num `div` den)
  | _ => 0
  end.

Definition createLimiter (algo : RateLimitAlgorithm) (rate burst : double) (now : Z) : IRateLimiter :=
  match algo with
  | SlidingWindow => ASlidingWindow (SlidingWindowRateLimiter0 (d_to_int rate) (d_to_int burst))
  | LeakyBucket => ALeakyBucket (LeakyBucketRateLimiter0 rate burst now)
  | TokenBucket => ATokenBucket (TokenBucketRateLimiter0 rate burst now)
  end.

(** ** The middleware *)

(** A request, and what [m_extractor] makes of it. *)
Record RateLimitMiddleware (Request : Type) : Type := mkRl {
  rl_algo : RateLimitAlgorithm;
  rl_rate : double;
  rl_burst : double;
  rl_extractor : option (Request → string);
  rl_globalLimiter : option IRateLimiter;
  rl_limiters : gmap string IRateLimiter
}.
Arguments mkRl {_}.
Arguments rl_algo {_}.
Arguments rl_rate {_}.
Arguments rl_burst {_}.
Arguments rl_extractor {_}.
Arguments rl_globalLimiter {_}.
Arguments rl_limiters {_}.

(** [global] and [perKey]; without an extractor there is one limiter for all. *)
Definition RateLimitMiddleware0 {Request} (algo : RateLimitAlgorithm) (rate burst : double)
    (extractor : option (Request → string)) (now : Z) : RateLimitMiddleware Request :=
  mkRl algo rate burst extractor
    (match extractor with None => Some (createLimiter algo rate burst now) | Some _ => None end) ∅.

(** [handle]: 0, or -1 when the request is over the limit and answered 429.  A limiter made
    now has its own reading [created] of the clock. *)
Definition rl_handle {Request} (created now : Z) (request : Request) (m : RateLimitMiddleware Request)
  : RateLimitMiddleware Request * Z :=
  match rl_extractor m, rl_globalLimiter m with
  | Some extractor, _ =>
      let key := extractor request in
      let limiter := default (createLimiter (rl_algo m) (rl_rate m) (rl_burst m) created) (rl_limiters m !! key) in
      let '(limiter, allowed) := acquire now limiter in
      (mkRl (rl_algo m) (rl_rate m) (rl_burst m) (rl_extractor m) (rl_globalLimiter m) (<[key := limiter]> (rl_limiters m)),
       if allowed then 0 else -1)
  | None, Some limiter =>
      let '(limiter, allowed) := acquire now limiter in
      (mkRl (rl_algo m) (rl_rate m) (rl_burst m) (rl_extractor m) (Some limiter) (rl_limiters m), if allowed then 0 else -1)
  | None, None => (m, -1)
  end.

(** ** Facts about rate limiters

    A sliding window counts exactly the requests let through in the last window; the
    middleware keeps the keys apart. *)

(** ** The reference: look back over everything let through. *)

Definition in_window (windowMs now t : Z) : Prop := elapsed_ms t now < windowMs.
#[global] Instance in_window_dec windowMs now t : Decision (in_window windowMs now t).
Proof. unfold in_window. apply _. Defined.

Fixpoint window_ref (maxRequests windowMs : Z) (let_through times : list Z) : list bool :=
  match times with
  | [] => []
  | now :: times =>
      if decide (Z.of_nat (length (filter (in_window windowMs now) let_through)) < maxRequests)
      then true :: window_ref maxRequests windowMs (let_through ++ [now]) times
      else false :: window_ref maxRequests windowMs let_through times
  end.

(** Readings in order. *)
Fixpoint ordered (from : Z) (l : list Z) : Prop :=
  match l with [] => True | t :: l => from ≤ t ∧ ordered t l end.

Lemma ordered_from a b l : a ≤ b → ordered b l → ordered a l.
Proof. destruct l; cbn; [done|]. intros ? [? ?]. split; [lia|done]. Qed.

Lemma elapsed_mono a b now : a ≤ b → elapsed_ms b now ≤ elapsed_ms a now.
Proof. intros Hab. unfold elapsed_ms. apply Z.quot_le_mono; lia. Qed.

Lemma elapsed_later a now now' : now ≤ now' → elapsed_ms a now ≤ elapsed_ms a now'.
Proof. intros Hab. unfold elapsed_ms. apply Z.quot_le_mono; lia. Qed.

Lemma drop_old_filter win now from l : ordered from l → drop_old win now l = filter (in_window win now) l.
Proof.
  revert from. induction l as [|t l IH]; intros from Ho; [done|]. destruct Ho as [_ Ho]. cbn [drop_old].
  destruct (Z.leb_spec win (elapsed_ms t now)) as [Hold|Hnew].
  - rewrite filter_cons_False by (unfold in_window; lia). by apply (IH t).
  - rewrite filter_cons_True by done. f_equal. symmetry. apply filter_all, Forall_forall. clear IH.
    revert t Hnew Ho. induction l as [|u l IH]; intros t Hnew Ho; [done|]. destruct Ho as [Htu Ho].
    pose proof (elapsed_mono t u now Htu). constructor; [unfold in_window; lia|]. apply (IH u); [lia|done].
Qed.

Lemma filter_later win now now' (l : list Z) : now ≤ now' →
  filter (in_window win now') (filter (in_window win now) l) = filter (in_window win now') l.
Proof.
  intros Hnow. rewrite list_filter_filter. apply list_filter_iff. intros t. unfold in_window.
  pose proof (elapsed_later t now now' Hnow). lia.
Qed.

Lemma ordered_snoc from l t : ordered from l → Forall (λ a, a ≤ t) l → from ≤ t → ordered from (l ++ [t]).
Proof.
  revert from. induction l as [|a l IH]; intros from Ho Hall Hf; cbn in *; [done|].
  apply Forall_cons in Hall as [? ?]. destruct Ho. split; [done|]. by apply IH.
Qed.

(** A limiter over a list of readings. *)
Fixpoint sliding_run (times : list Z) (l : SlidingWindowRateLimiter) : list bool :=
  match times with
  | [] => []
  | now :: times => let '(l, ok) := sliding_acquire now l in ok :: sliding_run times l
  end.

Lemma sliding_exact times maxr win let_through now from : 0 < win → from ≤ now → ordered now times →
  ordered from let_through → Forall (λ a, a ≤ now) let_through →
  Z.of_nat (length let_through + length times) < 2 ^ 31 →
  sliding_run times (mkSliding maxr win (filter (in_window win now) let_through)) =
  window_ref maxr win let_through times.
Proof.
  revert let_through now. induction times as [|t times IH]; intros let_through now Hwin Hfn Ht Ho Hall Hlen; [done|].
  destruct Ht as [Hnt Ht]. cbn [sliding_run window_ref length] in *. unfold sliding_acquire. cbn [sw_windowMs sw_records sw_maxRequests].
  assert (drop_old win t (filter (in_window win now) let_through) = filter (in_window win t) let_through) as ->.
  { rewrite (drop_old_filter _ _ from).
    - by apply filter_later.
    - clear -Ho. revert from Ho. induction let_through as [|a l IH]; intros from Ho; [done|]. destruct Ho as [Hfa Ho].
      rewrite filter_cons. case_decide; [split; [done|by apply IH]|]. apply (ordered_from from a); [done|]. by apply IH. }
  assert (Z.of_nat (length (filter (in_window win t) let_through)) < 2 ^ 31) as Hsmall.
  { assert (length (filter (in_window win t) let_through) ≤ length let_through)%nat by apply length_filter. lia. }
  assert (i32 (Z.of_nat (length (filter (in_window win t) let_through))) = Z.of_nat (length (filter (in_window win t) let_through))) as ->
    by (unfold i32; rewrite Z.mod_small; lia).
  assert (Forall (λ a, a ≤ t) let_through) as Hall' by (eapply Forall_impl; [exact Hall|cbn; lia]).
  destruct (Z.leb_spec maxr (Z.of_nat (length (filter (in_window win t) let_through)))), (decide (Z.of_nat (length (filter (in_window win t) let_through)) < maxr)); try lia.
  - f_equal. by apply (IH _ t); [done|lia|done|done|done|lia].
  - f_equal. assert (filter (in_window win t) let_through ++ [t] = filter (in_window win t) (let_through ++ [t])) as ->.
    { rewrite filter_app, (filter_all _ [t]); [done|]. intros u ->%list_elem_of_singleton. unfold in_window, elapsed_ms. by rewrite Z.sub_diag. }
    apply (IH _ t); [done|lia|done| | |rewrite length_app; cbn; lia].
    + apply ordered_snoc; [done|done|lia].
    + apply Forall_app. split; [done|]. by apply Forall_singleton.
Qed.

(** ** The middleware *)

Section middleware.
Context {Request : Type} (f : Request → string).

(** A request with the two readings of the clock its handling may take. *)
Definition Arrival : Type := Request * Z * Z.

(** The answers to the requests of one key. *)
Fixpoint rl_answers (key : string) (l : list Arrival) (m : RateLimitMiddleware Request) : list Z :=
  match l with
  | [] => []
  | (r, created, now) :: l =>
      let '(m, a) := rl_handle created now r m in
      if decide (f r = key) then a :: rl_answers key l m else rl_answers key l m
  end.

Definition own (key : string) (l : list Arrival) : list Arrival := filter (λ a, f a.1.1 = key) l.

(** One limiter alone. *)
Fixpoint limiter_run (algo : RateLimitAlgorithm) (rate burst : double) (l : list Arrival) (lim : option IRateLimiter) : list Z :=
  match l with
  | [] => []
  | (_, created, now) :: l =>
      let '(lim, allowed) := acquire now (default (createLimiter algo rate burst created) lim) in
      (if allowed then 0 else -1) :: limiter_run algo rate burst l (Some lim)
  end.

Lemma keys_apart key l m : rl_extractor m = Some f →
  rl_answers key l m = limiter_run (rl_algo m) (rl_rate m) (rl_burst m) (own key l) (rl_limiters m !! key).
Proof.
  revert m. induction l as [|[[r c] now] l IH]; intros m Hm; [done|]. cbn [rl_answers]. unfold rl_handle. rewrite Hm.
  destruct (acquire now (default _ (rl_limiters m !! f r))) as [lim ok] eqn:E. unfold own. rewrite filter_cons. cbn [fst snd].
  destruct (decide (f r = key)) as [<-|Hne].
  - cbn [limiter_run]. rewrite E. f_equal. rewrite IH by done. cbn. by rewrite lookup_insert_eq.
  - rewrite IH by done. cbn. by rewrite lookup_insert_ne.
Qed.

Lemma limiter_sliding rate burst l maxr win records : 
  limiter_run SlidingWindow rate burst l (Some (ASlidingWindow (mkSliding maxr win records))) =
  (λ ok : bool, if ok then 0 else -1) <$> sliding_run (snd <$> l) (mkSliding maxr win records).
Proof.
  revert records. induction l as [|[[r c] now] l IH]; intros records; [done|].
  cbn [limiter_run default acquire fmap list_fmap sliding_run snd]. unfold id, acquire.
  destruct (sliding_acquire now (mkSliding maxr win records)) as [[maxr' win' records'] ok] eqn:E.
  assert (maxr' = maxr ∧ win' = win) as [-> ->] by (unfold sliding_acquire in E; case_match; by simplify_eq/=).
  cbn [fmap list_fmap]. f_equal. apply IH.
Qed.

Lemma window_middleware key l m maxr win now : rl_extractor m = Some f → rl_algo m = SlidingWindow →
  rl_limiters m !! key = None → d_to_int (rl_rate m) = maxr → d_to_int (rl_burst m) = win → 0 < win →
  ordered now (snd <$> own key l) → Z.of_nat (length (own key l)) < 2 ^ 31 →
  rl_answers key l m = (λ ok : bool, if ok then 0 else -1) <$> window_ref maxr win [] (snd <$> own key l).
Proof.
  intros Hf Ha Hnew Hmax Hwin Hpos Ho Hlen. rewrite keys_apart, Hnew, Ha by done.
  rewrite <-(sliding_exact _ maxr win [] now now); [|done|lia|done|done|constructor|by rewrite length_fmap].
  rewrite <-(limiter_sliding (rl_rate m) (rl_burst m)). destruct (own key l) as [|[[r c] t] rest]; [done|].
  cbn [limiter_run default]. cbn [createLimiter]. by rewrite Hmax, Hwin.
Qed.
End middleware.
