(* ===== verification/WebSocket.v ===== *)
(** * WebSocket frames

    [WSFrameHead], [WSRecvMessage], [WSSendMessage], pings and the echo of small frames
    ([http/ws_session.h], [ws_session.cc]) over [Stream::readFixSize] and [writeFixSize]
    ([core/io/stream.cc]).  A stream is what is still to arrive, what was written, and
    whether it was closed.  How many bytes a [read] or [write] moves is a parameter; none
    is an error or the end.  The bit fields are laid out from the lowest bit, as GCC does on
    the little-endian host. *)

From Stdlib Require Import Ascii.
From stdpp Require Import options.
From S2P Require Import Prelude.
From S2P Require Import CStd.
From S2P Require Import Bytes.

#[local] Set Default Proof Using "Type*".

(** [OPCODE] *)
Definition CONTINUE : Z := 0.
Definition TEXT_FRAME : Z := 1.
Definition BIN_FRAME : Z := 2.
Definition CLOSE : Z := 8.
Definition PING : Z := 9.
Definition PONG : Z := 10.

Record WSFrameHead : Type := mkHead {
  wh_opcode : Z;
  wh_rsv3 : bool;
  wh_rsv2 : bool;
  wh_rsv1 : bool;
  wh_fin : bool;
  wh_payload : Z;
  wh_mask : bool
}.

Definition bit_at (b : bool) (i : Z) : Z := if b then Z.shiftl 1 i else 0.

(** The two bytes of a head. *)
Definition head_bytes (h : WSFrameHead) : Bytes :=
  [byte (Z.lor (Z.land (wh_opcode h) 15)
           (Z.lor (bit_at (wh_rsv3 h) 4) (Z.lor (bit_at (wh_rsv2 h) 5)
              (Z.lor (bit_at (wh_rsv1 h) 6) (bit_at (wh_fin h) 7)))));
   byte (Z.lor (Z.land (wh_payload h) 127) (bit_at (wh_mask h) 7))].
Definition head_of (l : Bytes) : WSFrameHead :=
  let b i := byte_of (nth i l "000"%char) in
  mkHead (Z.land (b 0%nat) 15) (Z.testbit (b 0%nat) 4) (Z.testbit (b 0%nat) 5) (Z.testbit (b 0%nat) 6)
    (Z.testbit (b 0%nat) 7) (Z.land (b 1%nat) 127) (Z.testbit (b 1%nat) 7).

Definition simple_head (opcode : Z) (fin mask : bool) (payload : Z) : WSFrameHead :=
  mkHead opcode false false false fin payload mask.

(** [byteswapOnLittleEndian] of the length, as it is in memory. *)
Definition be_bytes (n : nat) (v : Z) : Bytes := le_bytes n (byteswap n v).
Definition be_value (l : Bytes) : Z := byteswap (length l) (le_value l).

(** [data[i] ^= mask[i % 4]] *)
Definition xor_byte (a b : ascii) : ascii := byte (Z.lxor (byte_of a) (byte_of b)).
Definition xor_mask (mask data : Bytes) : Bytes :=
  imap (λ i c, xor_byte c (nth (i mod 4) mask "000"%char)) data.

Record Stream : Type := mkStream { st_in : Bytes; st_out : Bytes; st_closed : bool }.
Definition close (s : Stream) : Stream := mkStream (st_in s) (st_out s) true.

Section websocket.
Context (reads writes : Bytes → nat → nat).

(** ** [readFixSize], [writeFixSize]: what they return, and the bytes read. *)

Fixpoint read_fix (fuel left : nat) (s : Stream) : Stream * option Bytes :=
  match left, fuel with
  | O, _ | _, O => (s, Some [])
  | _, S fuel =>
      let len := Nat.min (reads (st_in s) left) (Nat.min left (length (st_in s))) in
      if (len =? 0)%nat then (s, None)
      else
        let '(s', r) := read_fix fuel (left - len) (mkStream (drop len (st_in s)) (st_out s) (st_closed s)) in
        (s', app (take len (st_in s)) <$> r)
  end.
(** [length] is a [size_t], counted down as an [int64_t] and returned as an [int]. *)
Definition readFixSize (length : Z) (s : Stream) : Stream * (Z * Bytes) :=
  let left := Z.to_nat (i64 length) in
  match read_fix left left s with
  | (s, Some l) => (s, (i32 length, l))
  | (s, None) => (s, (0, []))
  end.

Fixpoint write_fix (fuel : nat) (buf : Bytes) (s : Stream) : Stream * bool :=
  match buf, fuel with
  | [], _ | _, O => (s, true)
  | _, S fuel =>
      let len := Nat.min (writes (st_out s) (length buf)) (length buf) in
      if (len =? 0)%nat then (s, false)
      else write_fix fuel (drop len buf) (mkStream (st_in s) (st_out s ++ take len buf) (st_closed s))
  end.
Definition writeFixSize (buf : Bytes) (s : Stream) : Stream * Z :=
  match write_fix (length buf) buf s with
  | (s, true) => (s, i32 (Z.of_nat (length buf)))
  | (s, false) => (s, 0)
  end.

(** ** Pings *)

Definition send_head (h : WSFrameHead) (s : Stream) : Stream * Z :=
  let '(s, v) := writeFixSize (head_bytes h) s in (if v <=? 0 then close s else s, v).
Definition WSPing : Stream → Stream * Z := send_head (simple_head PING true false 0).
Definition WSPong : Stream → Stream * Z := send_head (simple_head PONG true false 0).

(** ** Receiving *)

(** A message, or [nullptr]. *)
Definition Message : Type := Z * Bytes.

Context (max_size : Z).

(** The bytes of a frame, mask first if there is one; [None] when they do not come. *)
Definition read_payload (masked : bool) (len : Z) (s : Stream) : Stream * option Bytes :=
  let '(s, (v, mask)) := if masked then readFixSize 4 s else (s, (4, [])) in
  if v <=? 0 then (s, None)
  else
    let '(s, (v, data)) := readFixSize len s in
    if v <=? 0 then (s, None) else (s, Some (if masked then xor_mask mask data else data)).

(** [ws_recv_small_masked_frame] of a frame that is final. *)
Definition ws_recv_small_masked_frame (h : WSFrameHead) (opcode cur_len : Z) (data : Bytes) (s : Stream)
  : Stream * option Message :=
  if max_size <=? u64 (cur_len + wh_payload h) then (s, None)
  else
    match read_payload true (wh_payload h) s with
    | (s, Some l) =>
        let opcode := if (opcode =? 0) && negb (wh_opcode h =? CONTINUE) then wh_opcode h else opcode in
        (s, if wh_fin h then Some (opcode, data ++ l) else None)
    | (s, None) => (s, None)
    end.

(** The length of the payload; [None] when it does not come. *)
Definition read_length (h : WSFrameHead) (s : Stream) : Stream * option Z :=
  if wh_payload h =? 126 then
    let '(s, (v, l)) := readFixSize 2 s in (s, if v <=? 0 then None else Some (be_value l))
  else if wh_payload h =? 127 then
    let '(s, (v, l)) := readFixSize 8 s in (s, if v <=? 0 then None else Some (be_value l))
  else (s, Some (wh_payload h)).

(** The loop of [WSRecvMessage]; [None] when the fuel ends. *)
Fixpoint recv_loop (fuel : nat) (client : bool) (opcode cur_len : Z) (data : Bytes) (s : Stream)
  : option (Stream * option Message) :=
  match fuel with
  | O => None
  | S fuel =>
      let '(s, (v, l)) := readFixSize 2 s in
      if v <=? 0 then Some (close s, None)
      else
        let h := head_of l in
        if wh_opcode h =? PING then
          let '(s, v) := WSPong s in
          if v <=? 0 then Some (close s, None) else recv_loop fuel client opcode cur_len data s
        else if wh_opcode h =? PONG then recv_loop fuel client opcode cur_len data s
        else if (wh_opcode h =? CONTINUE) || (wh_opcode h =? TEXT_FRAME) || (wh_opcode h =? BIN_FRAME) then
          if negb client && negb (wh_mask h) then Some (close s, None)
          else if negb client && wh_fin h && (0 <? wh_payload h) && (wh_payload h <? 126) && negb (wh_opcode h =? CONTINUE)
          then
            match ws_recv_small_masked_frame h opcode cur_len data s with
            | (s, Some m) => Some (s, Some m)
            | (s, None) => Some (close s, None)
            end
          else
            match read_length h s with
            | (s, None) => Some (close s, None)
            | (s, Some len) =>
                if max_size <=? u64 (cur_len + len) then Some (close s, None)
                else
                  match read_payload (wh_mask h) len s with
                  | (s, None) => Some (close s, None)
                  | (s, Some l) =>
                      let opcode := if (opcode =? 0) && negb (wh_opcode h =? CONTINUE) then wh_opcode h else opcode in
                      if wh_fin h then Some (s, Some (opcode, data ++ l))
                      else recv_loop fuel client opcode (i32 (cur_len + len)) (data ++ l) s
                  end
            end
        else recv_loop fuel client opcode cur_len data s
  end.

(** Every turn reads a head. *)
Definition WSRecvMessage (client : bool) (s : Stream) : option (Stream * option Message) :=
  recv_loop (S (length (st_in s))) client 0 0 [] s.

(** ** Sending *)

(** The buffers written one after the other; the first that fails ends it. *)
Fixpoint write_all (l : list Bytes) (s : Stream) : Stream * bool :=
  match l with
  | [] => (s, true)
  | buf :: l =>
      let '(s, v) := writeFixSize buf s in if v <=? 0 then (s, false) else write_all l s
  end.

Definition frame_head (opcode : Z) (client fin : bool) (size : Z) : WSFrameHead :=
  simple_head opcode fin client (if size <? 126 then size else if size <? 65536 then 126 else 127).
Definition length_bytes (size : Z) : list Bytes :=
  if size <? 126 then [] else if size <? 65536 then [be_bytes 2 size] else [be_bytes 8 size].

(** What is written of a message, buffer by buffer; [rand_value] is the draw. *)
Definition frame_buffers (msg : Message) (client fin : bool) (rand_value : Z) : list Bytes :=
  let size := Z.of_nat (length msg.2) in
  let mask := le_bytes 4 rand_value in
  head_bytes (frame_head msg.1 client fin size) :: length_bytes size ++
  (if client then [mask; xor_mask mask msg.2] else [msg.2]).

Definition WSSendMessage (msg : Message) (client fin : bool) (rand_value : Z) (s : Stream) : Stream * Z :=
  match write_all (frame_buffers msg client fin rand_value) s with
  | (s, true) => (s, i32 (Z.of_nat (length msg.2) + 2))
  | (s, false) => (close s, -1)
  end.

(** ** [echoSmallFrame] *)

Definition echoSmallFrame (s : Stream) : Stream * bool :=
  let '(s, (v, l)) := readFixSize 2 s in
  if v <=? 0 then (s, false)
  else
    let h := head_of l in
    if wh_opcode h =? PING then let '(s, v) := WSPong s in (s, 0 <? v)
    else if wh_opcode h =? PONG then (s, true)
    else if negb (wh_opcode h =? TEXT_FRAME) && negb (wh_opcode h =? BIN_FRAME) then (s, false)
    else if negb (wh_mask h) || (wh_payload h =? 0) || (126 <=? wh_payload h) then (s, false)
    else
      let '(s, (v, frame)) := readFixSize (4 + wh_payload h) s in
      if v <=? 0 then (s, false)
      else
        let '(s, v) := writeFixSize
          (head_bytes (simple_head (wh_opcode h) true false (wh_payload h)) ++ xor_mask (take 4 frame) (drop 4 frame)) s in
        (s, 0 <? v).
End websocket.

(** ** Facts about WebSocket frames

    Streams that make progress, the layout of a head, masks, and what a receiver makes of
    what a sender wrote. *)

(** ** Heads, lengths, masks *)

Lemma seqZ_check (P : Z → bool) n z : forallb P (seqZ 0 n) = true → 0 ≤ z < n → P z = true.
Proof. rewrite forallb_forall. intros H Hz. apply H, list_elem_of_In, elem_of_seqZ. lia. Qed.

Lemma head_round_trip h rest : 0 ≤ wh_opcode h < 16 → 0 ≤ wh_payload h < 128 → head_of (head_bytes h ++ rest) = h.
Proof.
  intros Ho Hp. destruct h as [o r3 r2 r1 f p m]. cbn [wh_opcode wh_payload] in *.
  set (ok0 := λ o, let b := byte_of (byte (Z.lor (Z.land o 15)
           (Z.lor (bit_at r3 4) (Z.lor (bit_at r2 5) (Z.lor (bit_at r1 6) (bit_at f 7)))))) in
         (Z.land b 15 =? o) && eqb (Z.testbit b 4) r3 && eqb (Z.testbit b 5) r2 && eqb (Z.testbit b 6) r1 && eqb (Z.testbit b 7) f).
  set (ok1 := λ p, let b := byte_of (byte (Z.lor (Z.land p 127) (bit_at m 7))) in
         (Z.land b 127 =? p) && eqb (Z.testbit b 7) m).
  assert (ok0 o = true) as H0.
  { apply (seqZ_check ok0 16); [|done]. unfold ok0. destruct r3, r2, r1, f; by vm_compute. }
  assert (ok1 p = true) as H1 by (apply (seqZ_check ok1 128); [|done]; unfold ok1; destruct m; by vm_compute).
  unfold ok0, ok1 in H0, H1. repeat (apply andb_true_iff in H0 as [H0 ?]). repeat (apply andb_true_iff in H1 as [H1 ?]).
  repeat match goal with H : eqb _ _ = true |- _ => apply eqb_prop in H end. apply Z.eqb_eq in H0, H1.
  unfold head_of, head_bytes. cbn [app nth wh_opcode wh_rsv3 wh_rsv2 wh_rsv1 wh_fin wh_payload wh_mask]. by f_equal.
Qed.

Lemma be_bytes_length n v : length (be_bytes n v) = n.
Proof. apply le_bytes_length. Qed.

Lemma be_value_bytes n v : 0 ≤ v < 2 ^ (8 * Z.of_nat n) → be_value (be_bytes n v) = v.
Proof.
  intros Hv. unfold be_value. rewrite be_bytes_length. unfold be_bytes. rewrite le_value_bytes, Z.mod_small.
  - by apply byteswap_twice.
  - apply byteswap_range.
Qed.

Lemma lxor_bytes a b : 0 ≤ a < 256 → 0 ≤ b < 256 → 0 ≤ Z.lxor a b < 256.
Proof.
  intros Ha Hb. pose (P := λ a, forallb (λ b, (0 <=? Z.lxor a b) && (Z.lxor a b <? 256)) (seqZ 0 256)).
  assert (P a = true) as H by (apply (seqZ_check P 256); [by vm_compute|done]).
  unfold P in H. apply (seqZ_check (λ b, (0 <=? Z.lxor a b) && (Z.lxor a b <? 256)) 256 b) in H; [lia|done].
Qed.

Lemma xor_byte_twice a b : xor_byte (xor_byte a b) b = a.
Proof.
  unfold xor_byte. rewrite byte_of_byte by (apply lxor_bytes; apply byte_range).
  rewrite Z.lxor_assoc, Z.lxor_nilpotent, Z.lxor_0_r. apply byte_byte_of.
Qed.

Lemma xor_mask_twice mask data : xor_mask mask (xor_mask mask data) = data.
Proof.
  apply list_eq. intros i. unfold xor_mask. rewrite !list_lookup_imap. destruct (data !! i) as [c|]; [|done]. simpl.
  by rewrite xor_byte_twice.
Qed.

Lemma xor_mask_length mask data : length (xor_mask mask data) = length data.
Proof. apply length_imap. Qed.

(** The opcode of the message so far. *)
Definition opcode_after (opcode op : Z) : Z := if (opcode =? 0) && negb (op =? CONTINUE) then op else opcode.

(** ** Any stream *)

Section any.
Context (reads writes : Bytes → nat → nat) (max_size : Z).

Definition pong_head : WSFrameHead := simple_head PONG true false 0.

Lemma read_fix_spec fuel n s : (n ≤ fuel)%nat →
  let '(s', r) := read_fix reads fuel n s in
  st_out s' = st_out s ∧ st_closed s' = st_closed s ∧ (length (st_in s') ≤ length (st_in s))%nat ∧
  if r is Some l then length l = n ∧ st_in s = l ++ st_in s' else True.
Proof.
  revert n s. induction fuel as [|fuel IH]; intros [|n] s Hf; [done|lia|done|]. cbn [read_fix].
  set (len := Nat.min (reads (st_in s) (S n)) (Nat.min (S n) (length (st_in s)))).
  destruct (Nat.eqb_spec len 0) as [|Hlen]; [done|].
  specialize (IH (S n - len)%nat (mkStream (drop len (st_in s)) (st_out s) (st_closed s)) ltac:(lia)).
  destruct (read_fix reads fuel _ _) as [s' r]. cbn [st_in st_out st_closed] in IH. rewrite length_drop in IH.
  destruct IH as (-> & -> & Hle & Hr). split_and!; [done|done|lia|].
  destruct r as [l|]; [|done]. destruct Hr as [Hl Hin]. cbn [fmap option_fmap option_map]. split.
  - rewrite length_app, length_take, Hl. lia.
  - by rewrite <-app_assoc, <-Hin, take_drop.
Qed.

Lemma readFixSize_spec n s :
  let '(s', (v, l)) := readFixSize reads n s in
  st_out s' = st_out s ∧ st_closed s' = st_closed s ∧ (length (st_in s') ≤ length (st_in s))%nat ∧
  (0 < v → v = i32 n ∧ length l = Z.to_nat (i64 n) ∧ st_in s = l ++ st_in s').
Proof.
  unfold readFixSize. set (k := Z.to_nat (i64 n)). pose proof (read_fix_spec k k s (Nat.le_refl k)) as H.
  destruct (read_fix reads k k s) as [s' [l|]]; destruct H as (? & ? & ? & Hr).
  - destruct Hr. done.
  - done.
Qed.

Lemma write_fix_spec fuel buf s : (length buf ≤ fuel)%nat →
  let '(s', b) := write_fix writes fuel buf s in
  st_in s' = st_in s ∧ st_closed s' = st_closed s ∧ (b = true → st_out s' = st_out s ++ buf).
Proof.
  revert buf s. induction fuel as [|fuel IH]; intros [|a l] s Hf; [by rewrite app_nil_r|simpl in Hf; lia|by simpl; rewrite app_nil_r|].
  cbn [write_fix]. set (buf := a :: l) in *.
  set (len := Nat.min (writes (st_out s) (length buf)) (length buf)). destruct (Nat.eqb_spec len 0) as [|Hlen]; [done|].
  specialize (IH (drop len buf) (mkStream (st_in s) (st_out s ++ take len buf) (st_closed s))).
  rewrite length_drop in IH. specialize (IH ltac:(lia)). destruct (write_fix writes fuel _ _) as [s' b].
  cbn [st_in st_out st_closed] in IH. by rewrite <-app_assoc, take_drop in IH.
Qed.

Lemma WSPong_spec s :
  let '(s', v) := WSPong writes s in
  st_in s' = st_in s ∧ (0 < v → st_out s' = st_out s ++ head_bytes pong_head ∧ st_closed s' = st_closed s).
Proof.
  unfold WSPong, send_head, writeFixSize. fold pong_head.
  pose proof (write_fix_spec (length (head_bytes pong_head)) (head_bytes pong_head) s (Nat.le_refl _)) as H.
  destruct (write_fix writes _ _ s) as [s' []]; destruct H as (? & ? & Ho).
  - change (i32 (Z.of_nat (length (head_bytes pong_head)))) with 2. cbn [Z.leb Z.compare]. split; [done|]. intros _. by rewrite Ho.
  - cbn [Z.leb Z.compare]. split; [done|lia].
Qed.

Lemma i64_i32_small n : 0 ≤ n < 2 ^ 31 → i64 n = n ∧ i32 n = n.
Proof. intros Hn. split; [apply i64_id; unfold in_i64, INT64_MIN, INT64_MAX; lia|]. unfold i32. rewrite Z.mod_small; lia. Qed.

Lemma i32_wrapped n : 2 ^ 64 - 2 ^ 31 ≤ n < 2 ^ 64 → i32 n < 0.
Proof.
  intros Hn. unfold i32. replace (n + 2 ^ 31) with (n + 2 ^ 31 - 2 ^ 64 + 2 ^ 32 * 2 ^ 32) by lia.
  rewrite Z.mod_add, Z.mod_small; lia.
Qed.

Lemma read_payload_spec masked len s : 0 ≤ len < 2 ^ 31 ∨ 2 ^ 64 - 2 ^ 31 ≤ len < 2 ^ 64 →
  let '(s', r) := read_payload reads masked len s in
  st_out s' = st_out s ∧ st_closed s' = st_closed s ∧ (length (st_in s') ≤ length (st_in s))%nat ∧
  if r is Some l then Z.of_nat (length l) = len ∧ l ≠ [] ∧ len < 2 ^ 31 else True.
Proof.
  clear writes. intros Hlen. unfold read_payload. set (first := if masked then _ else _).
  assert (let '(s', (v, l)) := first in
    st_out s' = st_out s ∧ st_closed s' = st_closed s ∧ (length (st_in s') ≤ length (st_in s))%nat) as H1.
  { unfold first. destruct masked; [|done]. pose proof (readFixSize_spec 4 s) as H.
    destruct (readFixSize reads 4 s) as [s1 [v l]]. naive_solver. }
  destruct first as [s1 [v mask]]. destruct H1 as (? & ? & ?). destruct (Z.leb_spec v 0); [done|].
  pose proof (readFixSize_spec len s1) as Hr. destruct (readFixSize reads len s1) as [s2 [v2 l]].
  destruct Hr as (? & ? & ? & Hv). destruct (Z.leb_spec v2 0) as [|Hpos]; (split; [congruence|]); (split; [congruence|]);
    (split; [lia|]); [done|].
  destruct (Hv Hpos) as (Hv2 & Hl & _). destruct Hlen as [Hlen|Hlen]; [|apply i32_wrapped in Hlen; lia].
  destruct (i64_i32_small len Hlen) as [E1 E2].
  assert (Z.of_nat (length (if masked then xor_mask mask l else l)) = len) as Hlength
    by (destruct masked; rewrite ?xor_mask_length; lia).
  split; [done|]. split; [|lia]. intros E. rewrite E in Hlength. simpl in Hlength. lia.
Qed.

Lemma be_value_range l : (length l ≤ 8)%nat → 0 ≤ be_value l < 2 ^ 64.
Proof.
  intros Hl. unfold be_value. pose proof (byteswap_range (length l) (le_value l)) as [H1 H2].
  split; [done|]. eapply Z.lt_le_trans; [exact H2|]. apply Z.pow_le_mono_r; lia.
Qed.

Lemma read_length_of n s : n = 2 ∨ n = 8 →
  let '(s', r) := (let '(s, (v, l)) := readFixSize reads n s in (s, if v <=? 0 then None else Some (be_value l))) in
  st_out s' = st_out s ∧ st_closed s' = st_closed s ∧ (length (st_in s') ≤ length (st_in s))%nat ∧
  if r is Some len then 0 ≤ len < 2 ^ 64 else True.
Proof.
  intros Hn. pose proof (readFixSize_spec n s) as H. destruct (readFixSize reads n s) as [s1 [v l]].
  destruct H as (? & ? & ? & Hv). destruct (Z.leb_spec v 0) as [|Hpos]; [done|]. do 3 (split; [done|]).
  apply be_value_range; destruct (Hv Hpos) as (_ & -> & _); destruct Hn as [->| ->]; by apply Nat.leb_le; vm_compute.
Qed.

Lemma read_length_spec h s : 0 ≤ wh_payload h < 128 →
  let '(s', r) := read_length reads h s in
  st_out s' = st_out s ∧ st_closed s' = st_closed s ∧ (length (st_in s') ≤ length (st_in s))%nat ∧
  if r is Some len then 0 ≤ len < 2 ^ 64 else True.
Proof.
  intros Hh. unfold read_length. destruct (_ =? 126); [|destruct (_ =? 127); [|]].
  3:{ split_and!; [done..|lia|lia]. }
  - by apply read_length_of; left.
  - by apply read_length_of; right.
Qed.

(** What [WSRecvMessage] leaves: nothing and a closed stream, or a message of at least one
    byte below the limit, with a pong for every ping. *)
Definition recv_outcome (s : Stream) (r : Stream * option Message) : Prop :=
  match r.2 with
  | None => st_closed r.1 = true
  | Some m => m.2 ≠ [] ∧ Z.of_nat (length m.2) < max_size ∧ st_closed r.1 = st_closed s ∧
      ∃ n, st_out r.1 = st_out s ++ concat (replicate n (head_bytes pong_head))
  end.

Lemma outcome_after n s s' r : st_closed s' = st_closed s →
  st_out s' = st_out s ++ concat (replicate n (head_bytes pong_head)) → recv_outcome s' r → recv_outcome s r.
Proof.
  unfold recv_outcome. intros Hc Ho Hr. destruct r.2 as [m|]; [|done]. destruct Hr as (? & ? & ? & k & Hk).
  split_and!; [done|done|congruence|]. exists (n + k)%nat. by rewrite Hk, Ho, replicate_add, concat_app, app_assoc.
Qed.

Lemma head_of_range l : 0 ≤ wh_payload (head_of l) < 128.
Proof. unfold head_of. cbn. change 127 with (Z.ones 7). rewrite Z.land_ones by lia. apply Z.mod_pos_bound. lia. Qed.

Lemma received s s' op data pl : pl ≠ [] → Z.of_nat (length (data ++ pl)) < max_size →
  st_closed s' = st_closed s → st_out s' = st_out s → recv_outcome s (s', Some (op, data ++ pl)).
Proof.
  intros Hne Hlen Hc Ho. unfold recv_outcome. cbn [fst snd]. split_and!; [by intros [_ ?]%app_nil|done|done|].
  exists 0%nat. cbn. by rewrite app_nil_r.
Qed.

Lemma u64_fits a b : max_size ≤ 2 ^ 31 → 0 ≤ a < 2 ^ 31 → 0 ≤ b < 2 ^ 64 → u64 (a + b) < max_size →
  0 ≤ b < 2 ^ 31 ∧ a + b < max_size ∨ 2 ^ 64 - 2 ^ 31 ≤ b < 2 ^ 64.
Proof.
  intros Hmax Ha Hb. destruct (decide (a + b < 2 ^ 64)) as [Hlt|Hge]; [|lia].
  rewrite u64_id by (unfold in_u64, UINT64_MAX; lia). lia.
Qed.

Lemma recv_total fuel client opcode cur data s : max_size ≤ 2 ^ 31 →
  (length (st_in s) < fuel)%nat → cur = Z.of_nat (length data) → cur = 0 ∨ cur < max_size →
  ∃ r, recv_loop reads writes max_size fuel client opcode cur data s = Some r ∧ recv_outcome s r.
Proof.
  intros Hmax. revert opcode cur data s. induction fuel as [|fuel IH]; intros opcode cur data s Hf Hcur Hfit; [lia|].
  cbn [recv_loop]. pose proof (readFixSize_spec 2 s) as H1. destruct (readFixSize reads 2 s) as [s1 [v l]].
  destruct H1 as (Ho1 & Hc1 & Hle1 & Hv). destruct (Z.leb_spec v 0) as [|Hpos]; [by eexists|].
  destruct (Hv Hpos) as (_ & Hl & Hin). apply (f_equal length) in Hin. rewrite length_app, Hl in Hin.
  change (Z.to_nat (i64 2)) with 2%nat in Hin.
  pose proof (head_of_range l) as Hrange. set (h := head_of l) in *.
  assert (∀ op, ∃ r, recv_loop reads writes max_size fuel client op cur data s1 = Some r ∧ recv_outcome s r) as Hgo.
  { intros op. destruct (IH op cur data s1) as (r & -> & Hr); [lia|done|done|]. eexists; split; [done|].
    by apply (outcome_after 0 s s1); [|simpl; rewrite app_nil_r|]. }
  destruct (wh_opcode h =? PING).
  { pose proof (WSPong_spec s1) as H2. destruct (WSPong writes s1) as [s2 v2]. destruct H2 as (Hi2 & Hw).
    destruct (Z.leb_spec v2 0) as [|Hp2]; [by eexists|]. destruct (Hw Hp2) as [Ho2 Hc2].
    destruct (IH opcode cur data s2) as (r & -> & Hr); [rewrite Hi2; lia|done|done|]. eexists; split; [done|].
    apply (outcome_after 1 s s2); [congruence| |done]. by rewrite Ho2, Ho1. }
  destruct (wh_opcode h =? PONG); [apply Hgo|]. destruct (_ || _ || _); [|apply Hgo].
  destruct (negb client && negb (wh_mask h)); [by eexists|]. destruct (_ && _ && _ && _ && _).
  - unfold ws_recv_small_masked_frame. destruct (Z.leb_spec max_size (u64 (cur + wh_payload h))) as [|Hbig]; [by eexists|].
    rewrite u64_id in Hbig by (unfold in_u64, UINT64_MAX; lia).
    pose proof (read_payload_spec true (wh_payload h) s1 ltac:(lia)) as H2.
    destruct (read_payload reads true _ s1) as [s2 [pl|]]; [|by eexists].
    destruct H2 as (Ho2 & Hc2 & _ & Hpl & Hne & _). destruct (wh_fin h); [|by eexists]. eexists; split; [done|].
    apply received; [done|rewrite length_app; lia|congruence..].
  - pose proof (read_length_spec h s1 Hrange) as H2. destruct (read_length reads h s1) as [s2 [len|]]; [|by eexists].
    destruct H2 as (Ho2 & Hc2 & Hle2 & Hlen).
    destruct (Z.leb_spec max_size (u64 (cur + len))) as [|Hbig]; [by eexists|].
    apply u64_fits in Hbig; [|lia..].
    pose proof (read_payload_spec (wh_mask h) len s2 ltac:(lia)) as H3.
    destruct (read_payload reads (wh_mask h) _ s2) as [s3 [pl|]]; [|by eexists].
    destruct H3 as (Ho3 & Hc3 & Hle3 & Hpl & Hne & Hmid). destruct (wh_fin h).
    + eexists; split; [done|]. apply received; [done|rewrite length_app; lia|congruence..].
    + assert (length pl ≠ 0%nat) by by destruct pl. destruct (i64_i32_small (cur + len)) as [_ Hcl]; [lia|].
      destruct (IH (opcode_after opcode (wh_opcode h)) (i32 (cur + len)) (data ++ pl) s3) as (r & Hr & Ho);
        [lia|rewrite length_app; lia|lia|].
      exists r. split; [exact Hr|].
      apply (outcome_after 0 s s3); [congruence|simpl; rewrite app_nil_r; congruence|done].
Qed.
(** More fuel changes nothing. *)
Lemma recv_loop_mono fuel client opcode cur data s r :
  recv_loop reads writes max_size fuel client opcode cur data s = Some r →
  recv_loop reads writes max_size (S fuel) client opcode cur data s = Some r.
Proof.
  revert opcode cur data s. induction fuel as [|fuel IH]; intros opcode cur data s H; [done|].
  set (n := S fuel) in |- *. cbn [recv_loop]. cbn [recv_loop] in H. fold n.
  assert (∀ opcode cur data s, recv_loop reads writes max_size fuel client opcode cur data s = Some r →
    recv_loop reads writes max_size n client opcode cur data s = Some r) as Hn by exact IH. clearbody n.
  repeat case_match; simplify_eq; auto.
Qed.

Lemma recv_loop_enough k fuel client opcode cur data s r :
  recv_loop reads writes max_size fuel client opcode cur data s = Some r →
  recv_loop reads writes max_size (k + fuel) client opcode cur data s = Some r.
Proof. intros H. induction k as [|k IH]; [done|]. by apply recv_loop_mono. Qed.
End any.

(** ** Streams that make progress *)

(** A stream that moves at least a byte whenever there is one. *)
Definition moves (reads writes : Bytes → nat → nat) : Prop :=
  (∀ l n, l ≠ [] → (0 < n)%nat → (0 < reads l n)%nat) ∧ (∀ l n, (0 < n)%nat → (0 < writes l n)%nat).

Section facts.
Context (reads writes : Bytes → nat → nat) (max_size : Z).
Hypothesis Hreads : ∀ l n, l ≠ [] → (0 < n)%nat → (0 < reads l n)%nat.
Hypothesis Hwrites : ∀ l n, (0 < n)%nat → (0 < writes l n)%nat.

Lemma read_fix_ok fuel n i o c : (n ≤ length i)%nat → (n ≤ fuel)%nat →
  read_fix reads fuel n (mkStream i o c) = (mkStream (drop n i) o c, Some (take n i)).
Proof.
  revert n i. induction fuel as [|fuel IH]; intros n i Hn Hf; [by replace n with 0%nat by lia|].
  destruct n as [|n']; [done|]. set (n := S n') in *. cbn [read_fix st_in st_out st_closed].
  assert (0 < reads i n)%nat as Hr by (apply Hreads; [intros ->; unfold n in Hn; simpl in Hn; lia|lia]).
  set (len := Nat.min (reads i n) (Nat.min n (length i))).
  destruct (Nat.eqb_spec len 0); [lia|]. change n with (S n') at 1. cbn [read_fix].
  rewrite IH by (rewrite ?length_drop; lia). cbn [fmap option_fmap option_map]. rewrite drop_drop.
  replace (len + (n - len))%nat with n by lia. do 2 f_equal. rewrite take_take_drop. f_equal. lia.
Qed.

(** The bytes that come first. *)
Lemma readFixSize_app n l i o c : Z.of_nat (length l) = n → 0 < n < 2 ^ 31 →
  readFixSize reads n (mkStream (l ++ i) o c) = (mkStream i o c, (n, l)).
Proof.
  intros Hl Hn. unfold readFixSize. destruct (i64_i32_small n) as [-> ->]; [lia|].
  assert (Z.to_nat n = length l) as -> by lia. rewrite read_fix_ok by (rewrite ?length_app; lia).
  by rewrite drop_app_length, take_app_length.
Qed.

Lemma write_fix_ok fuel buf i o c : (length buf ≤ fuel)%nat →
  write_fix writes fuel buf (mkStream i o c) = (mkStream i (o ++ buf) c, true).
Proof.
  revert buf o. induction fuel as [|fuel IH]; intros buf o Hf.
  { assert (buf = []) as -> by (destruct buf; simpl in *; [done|lia]). simpl. by rewrite app_nil_r. }
  destruct buf as [|b buf']; [simpl; by rewrite app_nil_r|]. set (buf := b :: buf') in *.
  cbn [write_fix]. unfold buf at 1. cbn [write_fix]. fold buf. cbn [st_in st_out st_closed].
  assert (0 < length buf)%nat as Hb by (simpl; lia). specialize (Hwrites o (length buf) Hb).
  set (len := Nat.min (writes o (length buf)) (length buf)). destruct (Nat.eqb_spec len 0); [lia|].
  rewrite IH by (rewrite length_drop; lia). by rewrite <-app_assoc, take_drop.
Qed.

Lemma writeFixSize_ok buf i o c : Z.of_nat (length buf) < 2 ^ 31 →
  writeFixSize writes buf (mkStream i o c) = (mkStream i (o ++ buf) c, Z.of_nat (length buf)).
Proof. intros Hb. unfold writeFixSize. rewrite write_fix_ok by done. by destruct (i64_i32_small (Z.of_nat (length buf))) as [_ ->]; [lia|]. Qed.

(** A buffer that can be written: not empty, and its size an [int]. *)
Definition buffer_ok (b : Bytes) : Prop := 0 < Z.of_nat (length b) < 2 ^ 31.

Lemma write_all_ok l i o c : Forall buffer_ok l →
  write_all writes l (mkStream i o c) = (mkStream i (o ++ concat l) c, true).
Proof.
  intros Hl. revert o. induction Hl as [|b l Hb _ IH]; intros o; cbn [write_all concat]; [by rewrite app_nil_r|].
  unfold buffer_ok in Hb. rewrite writeFixSize_ok by lia.
  destruct (Z.leb_spec (Z.of_nat (length b)) 0); [lia|]. by rewrite IH, app_assoc.
Qed.

(** ** Receiving what was sent *)

Definition payload_wire (masked : bool) (rand_value : Z) (data : Bytes) : Bytes :=
  if masked then le_bytes 4 rand_value ++ xor_mask (le_bytes 4 rand_value) data else data.

Lemma frame_wire msg b fin r : concat (frame_buffers msg b fin r) =
  head_bytes (frame_head msg.1 b fin (Z.of_nat (length msg.2))) ++
  concat (length_bytes (Z.of_nat (length msg.2))) ++ payload_wire b r msg.2.
Proof. unfold frame_buffers, payload_wire. cbn [concat]. rewrite concat_app. destruct b; cbn [concat]; by rewrite ?app_nil_r. Qed.

Lemma read_head h i o c : 0 ≤ wh_opcode h < 16 → 0 ≤ wh_payload h < 128 →
  readFixSize reads 2 (mkStream (head_bytes h ++ i) o c) = (mkStream i o c, (2, head_bytes h)) ∧
  head_of (head_bytes h) = h.
Proof.
  intros Ho Hp. split; [by rewrite (readFixSize_app 2) by done|]. rewrite <-(app_nil_r (head_bytes h)). by apply head_round_trip.
Qed.

Lemma read_length_ok op b fin size i o c : 0 ≤ size < 2 ^ 64 →
  read_length reads (frame_head op b fin size) (mkStream (concat (length_bytes size) ++ i) o c) =
    (mkStream i o c, Some size).
Proof.
  intros Hs. unfold read_length, frame_head, length_bytes. cbn [simple_head wh_payload].
  destruct (Z.ltb_spec size 126); [|destruct (Z.ltb_spec size 65536)].
  - destruct (Z.eqb_spec size 126), (Z.eqb_spec size 127); [lia..|]. done.
  - cbn [Z.eqb Pos.eqb concat]. rewrite app_nil_r, (readFixSize_app 2) by (by rewrite ?be_bytes_length).
    cbn [Z.leb Z.of_nat Z.compare]. by rewrite be_value_bytes by (change (8 * Z.of_nat 2) with 16; lia).
  - cbn [Z.eqb Pos.eqb concat]. rewrite app_nil_r, (readFixSize_app 8) by (by rewrite ?be_bytes_length).
    cbn [Z.leb Z.of_nat Z.compare]. by rewrite be_value_bytes by (change (8 * Z.of_nat 8) with 64; lia).
Qed.

Lemma read_payload_ok b r data i o c : buffer_ok data →
  read_payload reads b (Z.of_nat (length data)) (mkStream (payload_wire b r data ++ i) o c) = (mkStream i o c, Some data).
Proof.
  intros Hd. unfold buffer_ok in Hd. unfold read_payload, payload_wire. destruct b.
  - rewrite <-app_assoc, (readFixSize_app 4) by (by rewrite ?le_bytes_length).
    cbn [Z.leb Z.compare]. rewrite readFixSize_app by (rewrite ?xor_mask_length; lia).
    destruct (Z.leb_spec (Z.of_nat (length data)) 0); [lia|]. by rewrite xor_mask_twice.
  - cbn [Z.leb Z.compare]. rewrite readFixSize_app by lia.
    by destruct (Z.leb_spec (Z.of_nat (length data)) 0); [lia|].
Qed.

(** A data frame: its opcode, and bytes, at least one. *)
Definition frame_ok (msg : Message) : Prop := (msg.1 = CONTINUE ∨ msg.1 = TEXT_FRAME ∨ msg.1 = BIN_FRAME) ∧ buffer_ok msg.2.

Context (Hmax : max_size ≤ 2 ^ 31).

Lemma recv_frame fuel msg b fin r opcode cur acc i o c : frame_ok msg → 0 ≤ cur →
  cur + Z.of_nat (length msg.2) < max_size →
  recv_loop reads writes max_size (S fuel) (negb b) opcode cur acc
    (mkStream (concat (frame_buffers msg b fin r) ++ i) o c) =
  if fin then Some (mkStream i o c, Some (opcode_after opcode msg.1, acc ++ msg.2))
  else recv_loop reads writes max_size fuel (negb b) (opcode_after opcode msg.1) (cur + Z.of_nat (length msg.2))
         (acc ++ msg.2) (mkStream i o c).
Proof.
  destruct msg as [op data]. intros [Hop Hd] Hcur Hsize. cbn [fst snd] in *. set (size := Z.of_nat (length data)) in *.
  assert (0 < size) as Hpos by (unfold buffer_ok in Hd; unfold size; lia).
  assert (∃ h, h = frame_head op b fin size) as [h Hh] by by eexists.
  assert (0 ≤ wh_payload h < 128) as Hp.
  { rewrite Hh. cbn. destruct (Z.ltb_spec size 126); [lia|]. destruct (size <? 65536); lia. }
  rewrite frame_wire. cbn [fst snd]. fold size. rewrite <-Hh, <-!app_assoc. cbn [recv_loop].
  destruct (read_head h (concat (length_bytes size) ++ payload_wire b r data ++ i) o c) as [-> ->];
    [rewrite Hh; cbn; unfold CONTINUE, TEXT_FRAME, BIN_FRAME in *; lia|done|].
  cbn [Z.leb Z.compare]. assert (wh_opcode h = op) as -> by by rewrite Hh.
  assert (wh_mask h = b) as -> by by rewrite Hh. assert (wh_fin h = fin) as -> by by rewrite Hh.
  assert ((op =? PING) = false ∧ (op =? PONG) = false ∧
    ((op =? CONTINUE) || (op =? TEXT_FRAME) || (op =? BIN_FRAME)) = true) as (-> & -> & ->).
  { unfold PING, PONG, CONTINUE, TEXT_FRAME, BIN_FRAME in *. destruct Hop as [->|[->| ->]]; done. }
  assert (u64 (cur + size) = cur + size) as Hu by (apply u64_id; unfold in_u64, UINT64_MAX; lia).
  assert (i32 (cur + size) = cur + size) as Hi by (unfold i32; rewrite Z.mod_small; lia).
  rewrite negb_involutive. assert (b && negb b = false) as -> by by destruct b.
  assert ((max_size <=? u64 (cur + size)) = false) as Hfit by (rewrite Hu; by destruct (Z.leb_spec max_size (cur + size)); [lia|]).
  destruct (_ && _ && _ && _ && _) eqn:Hsmall.
  - repeat (apply andb_true_iff in Hsmall as [Hsmall ?]). subst b fin.
    assert (wh_payload h = size) as Hpl.
    { rewrite Hh in *. cbn [frame_head simple_head wh_payload] in *.
      destruct (Z.ltb_spec size 126); [done|]. by destruct (size <? 65536). }
    assert (size < 126) as Hlt by lia. unfold ws_recv_small_masked_frame. rewrite Hpl, Hfit.
    assert (length_bytes size = []) as -> by (unfold length_bytes; by destruct (Z.ltb_spec size 126); [|lia]).
    cbn [concat app]. unfold size. rewrite read_payload_ok by done.
    assert (wh_opcode h = op) as -> by by rewrite Hh. by assert (wh_fin h = true) as -> by by rewrite Hh.
  - rewrite Hh at 1. rewrite read_length_ok by (unfold size; lia). rewrite Hfit. unfold size.
    rewrite read_payload_ok by done. fold size. rewrite Hi. by destruct fin.
Qed.

Definition ping_head : WSFrameHead := simple_head PING true false 0.

Lemma send_head_ok h i o c : send_head writes h (mkStream i o c) = (mkStream i (o ++ head_bytes h) c, 2).
Proof. unfold send_head. by rewrite writeFixSize_ok by done. Qed.

Lemma recv_ping fuel rc opcode cur acc i o c :
  recv_loop reads writes max_size (S fuel) rc opcode cur acc (mkStream (head_bytes ping_head ++ i) o c) =
  recv_loop reads writes max_size fuel rc opcode cur acc (mkStream i (o ++ head_bytes pong_head) c).
Proof.
  cbn [recv_loop]. destruct (read_head ping_head i o c) as [-> ->]; [done|done|].
  cbn [Z.leb Z.compare]. unfold WSPong. rewrite send_head_ok. done.
Qed.

Lemma recv_pong fuel rc opcode cur acc i o c :
  recv_loop reads writes max_size (S fuel) rc opcode cur acc (mkStream (head_bytes pong_head ++ i) o c) =
  recv_loop reads writes max_size fuel rc opcode cur acc (mkStream i o c).
Proof. cbn [recv_loop]. by destruct (read_head pong_head i o c) as [-> ->]. Qed.

(** What a peer sends before the last frame of a message. *)
Inductive WsItem : Type := ItemFrame (msg : Message) (rand_value : Z) | ItemPing | ItemPong.

Definition send_item (client : bool) (it : WsItem) (s : Stream) : Stream :=
  match it with
  | ItemFrame msg r => (WSSendMessage writes msg client false r s).1
  | ItemPing => (WSPing writes s).1
  | ItemPong => (WSPong writes s).1
  end.
Definition send_items (client : bool) (l : list WsItem) (s : Stream) : Stream :=
  foldl (λ s it, send_item client it s) s l.

Definition item_data (it : WsItem) : Bytes := match it with ItemFrame msg _ => msg.2 | _ => [] end.
Definition item_opcode (opcode : Z) (it : WsItem) : Z :=
  match it with ItemFrame msg _ => opcode_after opcode msg.1 | _ => opcode end.
Definition item_reply (it : WsItem) : Bytes := match it with ItemPing => head_bytes pong_head | _ => [] end.
Definition item_fits (it : WsItem) : Prop := match it with ItemFrame msg _ => frame_ok msg | _ => True end.

Definition item_bytes (client : bool) (it : WsItem) : Bytes :=
  match it with
  | ItemFrame msg r => concat (frame_buffers msg client false r)
  | ItemPing => head_bytes ping_head
  | ItemPong => head_bytes pong_head
  end.

Lemma frame_buffers_ok msg client fin r : buffer_ok msg.2 → Forall buffer_ok (frame_buffers msg client fin r).
Proof.
  intros Hd. unfold frame_buffers. constructor; [done|]. apply Forall_app. split.
  - unfold length_bytes. destruct (_ <? _); [constructor|]. destruct (_ <? _); repeat constructor; done.
  - unfold buffer_ok in *. destruct client; repeat constructor; rewrite ?xor_mask_length, ?le_bytes_length; lia.
Qed.

Lemma send_message_ok msg client fin r i o c : buffer_ok msg.2 →
  WSSendMessage writes msg client fin r (mkStream i o c) =
    (mkStream i (o ++ concat (frame_buffers msg client fin r)) c, i32 (Z.of_nat (length msg.2) + 2)).
Proof. intros Hd. unfold WSSendMessage. by rewrite write_all_ok by (by apply frame_buffers_ok). Qed.

Lemma send_items_ok client l i o c : Forall item_fits l →
  send_items client l (mkStream i o c) = mkStream i (o ++ (l ≫= item_bytes client)) c.
Proof.
  intros Hl. revert o. induction Hl as [|it l Hit _ IH]; intros o; [simpl; by rewrite app_nil_r|].
  change (send_items client (it :: l) (mkStream i o c)) with (send_items client l (send_item client it (mkStream i o c))).
  assert (send_item client it (mkStream i o c) = mkStream i (o ++ item_bytes client it) c) as ->.
  { destruct it as [msg r| |]; cbn [send_item item_bytes].
    - rewrite send_message_ok; [done|]. apply Hit.
    - unfold WSPing. by rewrite send_head_ok.
    - unfold WSPong. by rewrite send_head_ok. }
  rewrite IH, bind_cons. by rewrite app_assoc.
Qed.

Lemma recv_items l b fuel opcode cur acc i o c : Forall item_fits l → 0 ≤ cur →
  cur + Z.of_nat (length (l ≫= item_data)) < max_size →
  recv_loop reads writes max_size (length l + fuel) (negb b) opcode cur acc
    (mkStream ((l ≫= item_bytes b) ++ i) o c) =
  recv_loop reads writes max_size fuel (negb b) (foldl item_opcode opcode l)
    (cur + Z.of_nat (length (l ≫= item_data))) (acc ++ (l ≫= item_data))
    (mkStream i (o ++ (l ≫= item_reply)) c).
Proof.
  intros Hl. revert opcode cur acc o. induction Hl as [|it l Hit _ IH]; intros opcode cur acc o Hcur Hsize.
  { simpl. by rewrite !app_nil_r, Z.add_0_r. }
  rewrite !bind_cons, <-!app_assoc in *. rewrite length_app in Hsize. cbn [length Nat.add foldl].
  destruct it as [msg r| |]; cbn [item_bytes item_opcode item_data item_reply] in *.
  - rewrite recv_frame by (done || lia). rewrite IH by lia. rewrite <-app_assoc. cbn [app].
    f_equal. rewrite length_app. lia.
  - fold ping_head. rewrite recv_ping, IH by (simpl in *; lia). by rewrite <-app_assoc.
  - rewrite recv_pong, IH by (simpl in *; lia). done.
Qed.

Lemma item_bytes_some b it : item_fits it → item_bytes b it ≠ [].
Proof. by destruct it as [msg r| |]. Qed.

Lemma recv_message l b msg r i o c : Forall item_fits l → frame_ok msg →
  Z.of_nat (length ((l ≫= item_data) ++ msg.2)) < max_size →
  WSRecvMessage reads writes max_size (negb b)
    (mkStream ((l ≫= item_bytes b) ++ concat (frame_buffers msg b true r) ++ i) o c) =
  Some (mkStream i (o ++ (l ≫= item_reply)) c,
        Some (opcode_after (foldl item_opcode 0 l) msg.1, (l ≫= item_data) ++ msg.2)).
Proof.
  intros Hl Hm Hsize. unfold WSRecvMessage. rewrite length_app in Hsize. cbn [st_in].
  set (w := (l ≫= item_bytes b) ++ _ ++ i).
  assert (length l ≤ length w)%nat as Hlen.
  { unfold w. rewrite length_app. clear -Hl. induction Hl as [|it l Hit _ IH]; [cbn [length]; lia|].
    pose proof (item_bytes_some b it Hit). rewrite bind_cons, length_app. cbn [length].
    assert (0 < length (item_bytes b it))%nat by (destruct (item_bytes b it); [done|cbn [length]; lia]). lia. }
  replace (S (length w)) with (length l + S (length w - length l))%nat by lia. unfold w at 2.
  rewrite recv_items by (done || lia). rewrite recv_frame by (done || lia). by cbn [app].
Qed.
(** Heads whose opcode is no data and no ping are passed over, and nothing else is. *)
Lemma recv_skip rc h i o c : 0 ≤ wh_opcode h < 16 → 0 ≤ wh_payload h < 128 →
  wh_opcode h ∉ [PING; CONTINUE; TEXT_FRAME; BIN_FRAME] → 
  WSRecvMessage reads writes max_size rc (mkStream (head_bytes h ++ i) o c) =
  WSRecvMessage reads writes max_size rc (mkStream i o c).
Proof.
  intros Ho Hp Hnot. unfold WSRecvMessage at 1. cbn [st_in]. cbn [recv_loop].
  destruct (read_head h i o c Ho Hp) as [-> ->]. cbn [Z.leb Z.compare].
  rewrite !not_elem_of_cons in Hnot. destruct Hnot as (H1 & H2 & H3 & H4 & _).
  rewrite (proj2 (Z.eqb_neq (wh_opcode h) PING)) by done.
  rewrite (proj2 (Z.eqb_neq (wh_opcode h) CONTINUE)), (proj2 (Z.eqb_neq (wh_opcode h) TEXT_FRAME)),
    (proj2 (Z.eqb_neq (wh_opcode h) BIN_FRAME)) by done. cbn [orb].
  destruct (recv_total reads writes max_size (S (length i)) rc 0 0 [] (mkStream i o c)) as (r & Hr & _);
    [done|cbn; lia|done|by left|].
  unfold WSRecvMessage. cbn [st_in]. rewrite Hr.
  pose proof (recv_loop_enough reads writes max_size 1 _ _ _ _ _ _ _ Hr) as Hm.
  rewrite length_app. change (length (head_bytes h) + length i)%nat with (1 + S (length i))%nat.
  by destruct (wh_opcode h =? PONG).
Qed.
Definition data_opcode (op : Z) : Prop := op ∈ [CONTINUE; TEXT_FRAME; BIN_FRAME].

Lemma data_opcode_tests op : data_opcode op →
  (op =? PING) = false ∧ (op =? PONG) = false ∧ (op =? CONTINUE) || (op =? TEXT_FRAME) || (op =? BIN_FRAME) = true.
Proof. intros [->|[->|[->|[]%not_elem_of_nil]%elem_of_cons]%elem_of_cons]%elem_of_cons; done. Qed.

(** The frames that close: unmasked ones to a server, too long ones, empty ones. *)
Lemma recv_refuse rc h i o c : 0 ≤ wh_opcode h < 16 → 0 ≤ wh_payload h < 128 → data_opcode (wh_opcode h) →
  (rc = false ∧ wh_mask h = false) ∨ ((rc = true ∨ wh_mask h = true) ∧ wh_payload h < 126 ∧ max_size ≤ wh_payload h) ∨
    (rc = true ∧ wh_mask h = false ∧ wh_payload h = 0) →
  WSRecvMessage reads writes max_size rc (mkStream (head_bytes h ++ i) o c) = Some (mkStream i o true, None).
Proof.
  intros Ho Hp Hd Hcase. unfold WSRecvMessage. cbn [recv_loop]. destruct (read_head h i o c Ho Hp) as [-> ->].
  cbn [Z.leb Z.compare]. destruct (data_opcode_tests _ Hd) as (-> & -> & ->).
  destruct Hcase as [[-> ->]|[(Hm & Hsmall & Hbig)|(-> & -> & Hz)]]; [done| |].
  - assert (negb rc && negb (wh_mask h) = false) as -> by (destruct Hm as [-> | ->]; [done|by rewrite andb_false_r]).
    assert (u64 (0 + wh_payload h) = wh_payload h) as Hu by (rewrite Z.add_0_l; apply u64_id; unfold in_u64, UINT64_MAX; lia).
    destruct (_ && _ && _ && _ && _).
    + unfold ws_recv_small_masked_frame. rewrite Hu. by destruct (Z.leb_spec max_size (wh_payload h)); [|lia].
    + unfold read_length. rewrite !(proj2 (Z.eqb_neq _ _)) by lia. rewrite Hu.
      by destruct (Z.leb_spec max_size (wh_payload h)); [|lia].
  - cbn [negb andb]. unfold read_length. rewrite Hz. cbn [Z.eqb]. by destruct (max_size <=? _).
Qed.

Lemma send_empty op client fin r i o c :
  (WSSendMessage writes (op, []) client fin r (mkStream i o c)).2 = -1.
Proof.
  unfold WSSendMessage. set (m := write_all _ _ _). assert (m.2 = false) as Hm; [|by destruct m as [? []]].
  unfold m. change (frame_buffers (op, []) client fin r) with
    (head_bytes (frame_head op client fin 0) :: if client then [le_bytes 4 r; []] else [[]]).
  generalize (frame_head op client fin 0). intros h. cbn [write_all]. rewrite writeFixSize_ok by done.
  change (Z.of_nat (length (head_bytes h)) <=? 0) with false. cbn [negb]. destruct client; cbn [write_all]; [|done].
  rewrite writeFixSize_ok by (by rewrite le_bytes_length). by rewrite le_bytes_length.
Qed.
End facts.
