(* ===== verification/RpcClient.v ===== *)
(** * RPC clients and servers

    The framing of [RpcChannel] and [RpcServer] ([rpc/rpc_channel.cc], [rpc_server.cc]), the
    calls of [RpcChannelManager] ([rpc/rpc_channel_manager.h], [.cc]) with its load balancers,
    circuit breakers and retries, and [ServiceDiscovery] ([registry/service_discovery.cc]),
    which feeds the balancers.  The serialisation of an envelope is protobuf's and a
    parameter.  A call of the manager is modelled alone: what other threads do to it between
    its locked sections is left out. *)

From Stdlib Require Import Ascii.
From stdpp Require Import strings pretty options.
From stdpp Require Import strings options.
From S2P Require Import Prelude.
From S2P Require Import CStd.
From S2P Require Import Bytes.
From S2P Require Import LoadBalancer.
From S2P Require Import CircuitBreaker.
From S2P Require Import WebSocket.

#[local] Set Default Proof Using "Type*".

(** ** Framing: four bytes of length, the most significant first, and the envelope *)

Definition encodeBe32 (val : Z) : Bytes :=
  [byte (Z.land (Z.shiftr val 24) 255); byte (Z.land (Z.shiftr val 16) 255); byte (Z.land (Z.shiftr val 8) 255);
   byte (Z.land val 255)].
Definition decodeBe32 (l : Bytes) : Z :=
  let b i := byte_of (nth i l "000"%char) in
  Z.lor (Z.lor (Z.lor (Z.shiftl (b 0%nat) 24) (Z.shiftl (b 1%nat) 16)) (Z.shiftl (b 2%nat) 8)) (b 3%nat).

Definition MAX_MESSAGE : Z := 64 * 1024 * 1024.
Definition length_ok (len : Z) : bool := (0 <? len) && (len <=? MAX_MESSAGE).

Section framing.
Context (reads writes : Bytes → nat → nat).
Context {Envelope : Type} (serialize : Envelope → option Bytes) (parse : Bytes → option Envelope).

(** [readFull] and [writeFull]; a turn that moves nothing is a poll or a call that fails. *)
Definition readFull (len : Z) (s : Stream) : Stream * option Bytes := read_fix reads (Z.to_nat len) (Z.to_nat len) s.
Definition writeFull (buf : Bytes) (s : Stream) : Stream * bool := write_fix writes (length buf) buf s.

Definition write_envelope (wire : Bytes) (s : Stream) : Stream * bool :=
  let '(s, ok) := writeFull (encodeBe32 (u32 (Z.of_nat (length wire)))) s in
  if ok then writeFull wire s else (s, false).

(** [RpcChannel::call] *)
Definition channel_call (request : Envelope) (s : Stream) : Stream * option Envelope :=
  if st_closed s then (s, None)
  else
    match serialize request with
    | None => (s, None)
    | Some wire =>
        let '(s, ok) := write_envelope wire s in
        if negb ok then (close s, None)
        else
          match readFull 4 s with
          | (s, None) => (close s, None)
          | (s, Some lenBuf) =>
              let respLen := decodeBe32 lenBuf in
              if negb (length_ok respLen) then (close s, None)
              else
                match readFull respLen s with
                | (s, None) => (close s, None)
                | (s, Some respWire) => (s, parse respWire)
                end
          end
    end.

(** [RpcChannel::send] *)
Definition channel_send (msg : Envelope) (s : Stream) : Stream * bool :=
  if st_closed s then (s, false)
  else
    match serialize msg with
    | None => (s, false)
    | Some wire => let '(s, ok) := write_envelope wire s in (if ok then s else close s, ok)
    end.

(** One turn of [RpcServer::handleClient]: [None] ends the loop.  [dispatch] is the handler,
    with the state it works on. *)
Context {S : Type} (dispatch : Envelope → S → S * Envelope).

Definition serve_one (st : S) (s : Stream) : S * Stream * bool :=
  let '(s, (v, lenBuf)) := readFixSize reads 4 s in
  if v <=? 0 then (st, s, false)
  else
    let msgLen := decodeBe32 lenBuf in
    if negb (length_ok msgLen) then (st, s, false)
    else
      let '(s, (v, wireBuf)) := readFixSize reads msgLen s in
      if v <=? 0 then (st, s, false)
      else
        match parse wireBuf with
        | None => (st, s, false)
        | Some request =>
            let '(st, response) := dispatch request st in
            match serialize response with
            | None => (st, s, false)
            | Some respWire =>
                let '(s, v) := writeFixSize writes (encodeBe32 (u32 (Z.of_nat (length respWire)))) s in
                if v <=? 0 then (st, s, false)
                else
                  let '(s, v) := writeFixSize writes respWire s in
                  (st, s, negb (v <=? 0))
            end
        end.

Fixpoint serve_loop (fuel : nat) (st : S) (s : Stream) : option (S * Stream) :=
  match fuel with
  | O => None
  | Datatypes.S fuel =>
      let '(st, s, more) := serve_one st s in
      if more then serve_loop fuel st s else Some (st, s)
  end.
(** Every turn reads a length. *)
Definition rpc_handleClient (st : S) (s : Stream) : option (S * Stream) :=
  serve_loop (Datatypes.S (length (st_in s))) st s.
End framing.

(** ** The pool of channels *)

(** Channels are shared: an address, and whether it is connected. *)
Record RpcChannelPool : Type := mkPool {
  p_connected : gmap nat bool;
  p_channels : gmap string nat
}.
Definition channel_key (host : string) (port : Z) : string := host +:+ ":" +:+ pretty port.
Definition is_connected (p : RpcChannelPool) (ch : nat) : bool := default false (p_connected p !! ch).
Definition close_channel (ch : nat) (p : RpcChannelPool) : RpcChannelPool :=
  mkPool (<[ch := false]> (p_connected p)) (p_channels p).

(** A connected channel that is cached. *)
Definition cached_channel (key : string) (p : RpcChannelPool) : option nat :=
  match p_channels p !! key with
  | Some ch => if is_connected p ch then Some ch else None
  | None => None
  end.
(** [fresh] is the new channel and [connects] whether it connects; [others] is what other
    threads make of the pool meanwhile. *)
Definition getChannel (host : string) (port : Z) (fresh : nat) (connects : bool) (others : RpcChannelPool → RpcChannelPool)
    (p : RpcChannelPool) : RpcChannelPool * option nat :=
  let key := channel_key host port in
  match cached_channel key p with
  | Some ch => (p, Some ch)
  | None =>
      let p := others p in
      if negb connects then (p, None)
      else
        match cached_channel key p with
        | Some ch => (p, Some ch)
        | None => (mkPool (<[fresh := true]> (p_connected p)) (<[key := fresh]> (p_channels p)), Some fresh)
        end
  end.
Definition removeChannel (host : string) (port : Z) (p : RpcChannelPool) : RpcChannelPool :=
  match p_channels p !! channel_key host port with
  | Some ch => let p := close_channel ch p in mkPool (p_connected p) (delete (channel_key host port) (p_channels p))
  | None => p
  end.
Definition cleanupStale (p : RpcChannelPool) : RpcChannelPool :=
  mkPool (p_connected p) (filter (λ kv, is_connected p kv.2 = true) (p_channels p)).
Definition clear_pool (p : RpcChannelPool) : RpcChannelPool :=
  mkPool (foldr (λ kv m, <[kv.2 := false]> m) (p_connected p) (map_to_list (p_channels p))) ∅.

(** ** Discovery *)

Record ServiceInstance : Type := mkInstance {
  i_id : string;
  i_serviceName : string;
  i_host : string;
  i_port : Z;
  i_version : string;
  i_metadata : gmap string string;
  i_healthy : bool
}.

Record HealthCheckConfig : Type := mkHc { failThreshold : Z; hc_successThreshold : Z }.

Record ServiceDiscovery : Type := mkDiscovery {
  d_hcConfig : HealthCheckConfig;
  d_cache : gmap string (list ServiceInstance);
  d_failCount : gmap string Z;
  d_successCount : gmap string Z
}.
Definition ServiceDiscovery0 (hc : HealthCheckConfig) : ServiceDiscovery := mkDiscovery hc ∅ ∅ ∅.

Definition locally_healthy (d : ServiceDiscovery) (inst : ServiceInstance) : bool :=
  match d_failCount d !! i_id inst with
  | None => true
  | Some n => n <? failThreshold (d_hcConfig d)
  end.
Definition usable (d : ServiceDiscovery) (inst : ServiceInstance) : bool := i_healthy inst && locally_healthy d inst.

(** [registered] is what the registry answers. *)
Definition discover (serviceName : string) (registered : list ServiceInstance) (d : ServiceDiscovery)
  : ServiceDiscovery * list ServiceInstance :=
  let result := List.filter (usable d) registered in
  (mkDiscovery (d_hcConfig d) (<[serviceName := result]> (d_cache d)) (d_failCount d) (d_successCount d), result).
Definition discover_if (serviceName : string) (keep : ServiceInstance → bool) (registered : list ServiceInstance)
    (d : ServiceDiscovery) : ServiceDiscovery * list ServiceInstance :=
  let '(d, l) := discover serviceName registered d in (d, List.filter keep l).
Definition discoverByVersion (serviceName version : string) :=
  discover_if serviceName (λ inst, bool_decide (i_version inst = version)).
Definition discoverByMetadata (serviceName key value : string) :=
  discover_if serviceName (λ inst, bool_decide (i_metadata inst !! key = Some value)).
(** What a watcher is called with. *)
Definition watched_instances (instances : list ServiceInstance) (d : ServiceDiscovery) : list ServiceInstance :=
  List.filter (usable d) instances.

Definition setInstanceHealthy (serviceId : string) (healthy : bool) (d : ServiceDiscovery) : ServiceDiscovery :=
  if healthy then
    mkDiscovery (d_hcConfig d) (d_cache d) (delete serviceId (d_failCount d))
      (<[serviceId := hc_successThreshold (d_hcConfig d)]> (d_successCount d))
  else
    mkDiscovery (d_hcConfig d) (d_cache d) (<[serviceId := failThreshold (d_hcConfig d)]> (d_failCount d))
      (delete serviceId (d_successCount d)).

(** [probeInstance] and what a turn of the health check makes of it. *)
Definition probeInstance (inst : ServiceInstance) : bool := true.
Definition record_probe (inst : ServiceInstance) (d : ServiceDiscovery) : ServiceDiscovery :=
  if probeInstance inst then
    mkDiscovery (d_hcConfig d) (d_cache d) (delete (i_id inst) (d_failCount d))
      (<[i_id inst := default 0 (d_successCount d !! i_id inst) + 1]> (d_successCount d))
  else
    mkDiscovery (d_hcConfig d) (d_cache d) (<[i_id inst := default 0 (d_failCount d !! i_id inst) + 1]> (d_failCount d))
      (delete (i_id inst) (d_successCount d)).
Definition health_turn (d : ServiceDiscovery) : ServiceDiscovery :=
  foldl (λ d inst, record_probe inst d) d (concat (snd <$> map_to_list (d_cache d))).

(** [convertToRpcNodes], and the watcher of [watchService]: [weight] is taken from the
    metadata when it is a number. *)
Definition node_of_instance (inst : ServiceInstance) : RpcNode :=
  mkRpcNode (i_id inst) (i_host inst) (i_port inst)
    (match i_metadata inst !! "weight" with Some w => default 1 (stoi w) | None => 1 end)
    (i_healthy inst) 0 0 0 (i_metadata inst).
Definition convertToRpcNodes (instances : list ServiceInstance) : list RpcNode := map node_of_instance instances.
(** [RpcDiscoveryBridge::onInstancesChanged] *)
Definition onInstancesChanged (instances : list ServiceInstance) : RpcLoadBalancer → RpcLoadBalancer :=
  updateNodes (convertToRpcNodes instances).

(** ** The manager *)

Record RpcRetryPolicy : Type := mkRetry { maxAttempts : Z; baseDelayMs : Z; maxDelayMs : Z }.
Record RpcServiceConfig : Type := mkService {
  lbStrategy : LoadBalanceStrategy;
  retryPolicy : RpcRetryPolicy;
  cbConfig : RpcCircuitBreakerConfig
}.
Definition RpcServiceConfig0 : RpcServiceConfig := mkService RoundRobin (mkRetry 3 50 1000) RpcCircuitBreakerConfig0.

(** [RpcMetadata]: the fields the manager looks at. *)
Record RpcMetadata : Type := mkMetadata { md_traceId : string; md_tags : gmap string string }.
Definition md_get (key : string) (m : RpcMetadata) : string := default "" (md_tags m !! key).

Section manager.
Context {Envelope : Type} (request_id : Envelope → Z).

Record RpcInvocation : Type := mkInvocation {
  iv_serviceName : string;
  iv_methodName : string;
  iv_request : Envelope;
  iv_response : Envelope;
  iv_metadata : RpcMetadata;
  iv_targetHost : string;
  iv_targetPort : Z;
  iv_success : bool;
  iv_error : string
}.
Definition set_error (e : string) (v : RpcInvocation) : RpcInvocation :=
  mkInvocation (iv_serviceName v) (iv_methodName v) (iv_request v) (iv_response v) (iv_metadata v) (iv_targetHost v)
    (iv_targetPort v) (iv_success v) e.
Definition set_target (host : string) (port : Z) (v : RpcInvocation) : RpcInvocation :=
  mkInvocation (iv_serviceName v) (iv_methodName v) (iv_request v) (iv_response v) (iv_metadata v) host port
    (iv_success v) (iv_error v).
Definition set_result (response : Envelope) (success : bool) (v : RpcInvocation) : RpcInvocation :=
  mkInvocation (iv_serviceName v) (iv_methodName v) (iv_request v) response (iv_metadata v) (iv_targetHost v)
    (iv_targetPort v) success (iv_error v).

(** [before] can stop the call; both can change the invocation. *)
Record RpcInterceptor : Type := mkInterceptor {
  ic_before : RpcInvocation → RpcInvocation * bool;
  ic_after : RpcInvocation → RpcInvocation
}.

Record RpcChannelManager : Type := mkManager {
  cm_loadBalancers : gmap string RpcLoadBalancer;
  cm_cbManagers : gmap string RpcCircuitBreakerManager;
  cm_configs : gmap string RpcServiceConfig;
  cm_interceptors : list RpcInterceptor
}.
Definition RpcChannelManager0 : RpcChannelManager := mkManager ∅ ∅ ∅ [].
Definition set_lbs (lbs : gmap string RpcLoadBalancer) (m : RpcChannelManager) : RpcChannelManager :=
  mkManager lbs (cm_cbManagers m) (cm_configs m) (cm_interceptors m).
Definition set_cbs (cbs : gmap string RpcCircuitBreakerManager) (m : RpcChannelManager) : RpcChannelManager :=
  mkManager (cm_loadBalancers m) cbs (cm_configs m) (cm_interceptors m).

(** A balancer and a breaker manager that are there stay. *)
Definition registerService (serviceName : string) (config : RpcServiceConfig) (m : RpcChannelManager) : RpcChannelManager :=
  mkManager
    (match cm_loadBalancers m !! serviceName with
     | None => <[serviceName := RpcLoadBalancer0 (lbStrategy config)]> (cm_loadBalancers m)
     | Some _ => cm_loadBalancers m
     end)
    (match cm_cbManagers m !! serviceName with
     | None => <[serviceName := RpcCircuitBreakerManager0 (cbConfig config)]> (cm_cbManagers m)
     | Some _ => cm_cbManagers m
     end)
    (<[serviceName := config]> (cm_configs m)) (cm_interceptors m).
Definition addInterceptor (i : RpcInterceptor) (m : RpcChannelManager) : RpcChannelManager :=
  mkManager (cm_loadBalancers m) (cm_cbManagers m) (cm_configs m) (cm_interceptors m ++ [i]).
(** The watcher [watchService] sets. *)
Definition instances_changed (serviceName : string) (instances : list ServiceInstance) (m : RpcChannelManager)
  : RpcChannelManager :=
  match cm_loadBalancers m !! serviceName with
  | Some b => set_lbs (<[serviceName := updateNodes (map node_of_instance instances) b]> (cm_loadBalancers m)) m
  | None => m
  end.
Definition cm_getNodes (serviceName : string) (m : RpcChannelManager) : list RpcNode :=
  match cm_loadBalancers m !! serviceName with Some b => getNodes b | None => [] end.

Definition cm_selectNode (draw : Z) (serviceName : string) (ctx : RpcLbContext) (config : RpcServiceConfig)
    (m : RpcChannelManager) : RpcChannelManager * Z :=
  match cm_loadBalancers m !! serviceName with
  | None => (set_lbs (<[serviceName := RpcLoadBalancer0 (lbStrategy config)]> (cm_loadBalancers m)) m, -1)
  | Some b =>
      let '(b, idx) := selectNode draw ctx b in (set_lbs (<[serviceName := b]> (cm_loadBalancers m)) m, idx)
  end.

(** What [getChannel] and [RpcChannel::call] come to: no connection, a failed call and what it
    left in the response, or an answer. *)
Inductive Outcome : Type := NoChannel | CallFailed (response : Envelope) | Answered (response : Envelope).

(** What the surroundings decide of one attempt: the draw, the clock at its two readings, and
    what a node answers. *)
Record Attempt : Type := mkAttempt {
  at_draw : Z;
  at_ask : Z;
  at_fail : Z;
  at_send : string → Z → Envelope → Outcome
}.

(** What is seen of a call: attempts that reached for a node, and sleeps. *)
Inductive RpcEvent : Type := Reached (node : RpcNode) | Slept (ms : Z).

(** The load balancing context of an invocation. *)
Definition context_of (v : RpcInvocation) : RpcLbContext :=
  let md := iv_metadata v in
  mkLbContext (if bool_decide (md_traceId md = "") then pretty (request_id (iv_request v)) else md_traceId md)
    (md_get "zone" md) (bool_decide (md_tags md !! "canary" = Some "true"))
    (match md_tags md !! "canary" with Some _ => md_get "canaryTag" md | None => "" end).

Definition cb_key (v : RpcInvocation) : string := iv_serviceName v +:+ "#" +:+ iv_methodName v.

(** A method of the breaker manager of a service, if it has one. *)
Definition record_failure (now : Z) (v : RpcInvocation) (m : RpcChannelManager) : RpcChannelManager :=
  set_cbs (alter (m_recordFailure now (cb_key v)) (iv_serviceName v) (cm_cbManagers m)) m.
Definition record_success (v : RpcInvocation) (m : RpcChannelManager) : RpcChannelManager :=
  set_cbs (alter (m_recordSuccess (cb_key v)) (iv_serviceName v) (cm_cbManagers m)) m.
Definition ask_breaker (now : Z) (v : RpcInvocation) (m : RpcChannelManager) : RpcChannelManager * bool :=
  match cm_cbManagers m !! iv_serviceName v with
  | None => (m, true)
  | Some mg =>
      let '(mg, ok) := m_allowRequest now (cb_key v) mg in
      (set_cbs (<[iv_serviceName v := mg]> (cm_cbManagers m)) m, ok)
  end.

Definition doCall (a : Attempt) (config : RpcServiceConfig) (v : RpcInvocation) (m : RpcChannelManager)
  : RpcChannelManager * RpcInvocation * bool * list RpcEvent :=
  let '(m, idx) := cm_selectNode (at_draw a) (iv_serviceName v) (context_of v) config m in
  if idx <? 0 then (m, set_error "no available node" v, false, [])
  else
    match cm_getNodes (iv_serviceName v) m !! Z.to_nat idx with
    | None => (m, set_error "node index out of range" v, false, [])
    | Some node =>
        let v := set_target (n_host node) (n_port node) v in
        let '(m, ok) := ask_breaker (at_ask a) v m in
        if negb ok then (m, set_error "circuit breaker open" v, false, [])
        else
          match at_send a (n_host node) (n_port node) (iv_request v) with
          | NoChannel => (record_failure (at_fail a) v m, set_error "connect failed" v, false, [Reached node])
          | CallFailed r =>
              (record_failure (at_fail a) v m, set_error "rpc call failed" (set_result r false v), false, [Reached node])
          | Answered r => (record_success v m, set_result r true v, true, [Reached node])
          end
    end.

(** The [togo] attempts to go; the last failure is not followed by a sleep. *)
Fixpoint retry_loop (togo : nat) (i : nat) (attempts : nat → Attempt) (config : RpcServiceConfig) (delayMs : Z)
    (v : RpcInvocation) (m : RpcChannelManager) : RpcChannelManager * RpcInvocation * bool * list RpcEvent :=
  match togo with
  | O => (m, v, false, [])
  | S togo =>
      let '(m, v, ok, ev) := doCall (attempts i) config v m in
      if ok || (togo =? 0)%nat then (m, v, ok, ev)
      else
        let '(m, v, ok, ev') := retry_loop togo (S i) attempts config
          (Z.min (i32 (delayMs * 2)) (maxDelayMs (retryPolicy config))) v m in
        (m, v, ok, ev ++ Slept delayMs :: ev')
  end.

(** The interceptors in order; the first that refuses ends it. *)
Fixpoint run_before (l : list RpcInterceptor) (v : RpcInvocation) : RpcInvocation * bool :=
  match l with
  | [] => (v, true)
  | i :: l => let '(v, ok) := ic_before i v in if ok then run_before l v else (v, false)
  end.

(** The result, the response, and what was seen. *)
Definition cm_call (serviceName methodName : string) (request empty : Envelope) (metadata : RpcMetadata)
    (attempts : nat → Attempt) (m : RpcChannelManager) : RpcChannelManager * bool * Envelope * list RpcEvent :=
  let config := default RpcServiceConfig0 (cm_configs m !! serviceName) in
  let v := mkInvocation serviceName methodName request empty metadata "" 0 false "" in
  let '(v, go) := run_before (cm_interceptors m) v in
  if negb go then (m, false, iv_response v, [])
  else
    let '(m, v, ok, ev) := retry_loop (Z.to_nat (maxAttempts (retryPolicy config))) 0 attempts config
      (baseDelayMs (retryPolicy config)) v m in
    (m, ok, iv_response v, ev).
End manager.

(** ** Facts about RPC clients and servers

    Frames are read back as written, by the client and by the server; what retries do; and
    what a breaker keeps from nodes that do not answer. *)

(** ** Framing *)

Lemma be32_round_trip v : 0 ≤ v < 2 ^ 32 → decodeBe32 (encodeBe32 v) = v.
Proof.
  intros Hv. unfold decodeBe32, encodeBe32. cbn [nth].
  assert (∀ z, byte_of (byte (Z.land z 255)) = z mod 2 ^ 8) as Hb.
  { intros z. change 255 with (Z.ones 8). rewrite Z.land_ones by lia. apply byte_of_byte, Z.mod_pos_bound. lia. }
  rewrite !Hb, be32_value by (apply Z.mod_pos_bound; lia). rewrite !Z.shiftr_div_pow2 by lia.
  Z.to_euclidean_division_equations. lia.
Qed.

Section framing.
Context (reads writes : Bytes → nat → nat).
Hypothesis Hreads : ∀ l n, l ≠ [] → (0 < n)%nat → (0 < reads l n)%nat.
Hypothesis Hwrites : ∀ l n, (0 < n)%nat → (0 < writes l n)%nat.
Context {Envelope : Type} (serialize : Envelope → option Bytes) (parse : Bytes → option Envelope).
Hypothesis Hparse : ∀ m wire, serialize m = Some wire → parse wire = Some m.

Definition rpc_frame (wire : Bytes) : Bytes := encodeBe32 (Z.of_nat (length wire)) ++ wire.

(** A wire form that both sides accept. *)
Definition wire_of (m : Envelope) (wire : Bytes) : Prop :=
  serialize m = Some wire ∧ 0 < Z.of_nat (length wire) ≤ MAX_MESSAGE.

Lemma wire_length m wire : wire_of m wire →
  0 < Z.of_nat (length wire) < 2 ^ 31 ∧ u32 (Z.of_nat (length wire)) = Z.of_nat (length wire) ∧
  decodeBe32 (encodeBe32 (Z.of_nat (length wire))) = Z.of_nat (length wire) ∧ length_ok (Z.of_nat (length wire)) = true.
Proof.
  intros [_ [H1 H2]]. unfold MAX_MESSAGE in H2. split_and!; [lia|lia| | |].
  - unfold u32. apply Z.mod_small. lia.
  - apply be32_round_trip. lia.
  - unfold length_ok, MAX_MESSAGE. lia.
Qed.

Lemma write_envelope_ok wire m i o c : wire_of m wire →
  write_envelope writes wire (mkStream i o c) = (mkStream i (o ++ rpc_frame wire) c, true).
Proof.
  intros Hw. destruct (wire_length m wire Hw) as (? & Hu & _). unfold write_envelope, writeFull. rewrite Hu.
  rewrite (write_fix_ok writes Hwrites) by done. rewrite (write_fix_ok writes Hwrites) by done. unfold rpc_frame. by rewrite app_assoc.
Qed.

Lemma readFull_ok n l i o c : Z.of_nat (length l) = n → readFull reads n (mkStream (l ++ i) o c) = (mkStream i o c, Some l).
Proof.
  intros Hn. unfold readFull. assert (Z.to_nat n = length l) as -> by lia.
  rewrite (read_fix_ok reads Hreads) by (rewrite ?length_app; lia). by rewrite drop_app_length, take_app_length.
Qed.

Lemma call_ok m wire r rwire i o : wire_of m wire → wire_of r rwire →
  channel_call reads writes serialize parse m (mkStream (rpc_frame rwire ++ i) o false) =
  (mkStream i (o ++ rpc_frame wire) false, Some r).
Proof.
  intros Hm Hr. unfold channel_call. cbn [st_closed]. destruct Hm as [Es Hm]. rewrite Es.
  rewrite (write_envelope_ok wire m) by (by split). cbn [negb]. destruct (wire_length r rwire Hr) as (_ & _ & Hd & Hok).
  unfold rpc_frame at 1. rewrite <-app_assoc, (readFull_ok 4) by done. rewrite Hd, Hok. cbn [negb].
  rewrite readFull_ok by done. destruct Hr as [Er _]. by rewrite (Hparse _ _ Er).
Qed.

Context {S : Type} (dispatch : Envelope → S → S * Envelope).

Lemma serve_one_ok st m wire st' r rwire i o c : wire_of m wire → dispatch m st = (st', r) → wire_of r rwire →
  serve_one reads writes serialize parse dispatch st (mkStream (rpc_frame wire ++ i) o c) =
  (st', mkStream i (o ++ rpc_frame rwire) c, true).
Proof.
  intros Hm Hd Hr. unfold serve_one. destruct (wire_length m wire Hm) as (Hl & _ & Hdec & Hok).
  unfold rpc_frame at 1. rewrite <-app_assoc. rewrite (readFixSize_app reads Hreads 4) by done.
  change (4 <=? 0) with false. rewrite Hdec, Hok. cbn [negb].
  rewrite (readFixSize_app reads Hreads) by done. destruct (Z.leb_spec (Z.of_nat (length wire)) 0); [lia|].
  destruct Hm as [Em _]. rewrite (Hparse _ _ Em), Hd. destruct (wire_length r rwire Hr) as (Hrl & Hu & _ & _).
  destruct Hr as [Er _]. rewrite Er, Hu. rewrite (writeFixSize_ok writes Hwrites) by done.
  change (Z.of_nat (length (encodeBe32 (Z.of_nat (length rwire)))) <=? 0) with false.
  rewrite (writeFixSize_ok writes Hwrites) by lia. destruct (Z.leb_spec (Z.of_nat (length rwire)) 0); [lia|].
  unfold rpc_frame. by rewrite app_assoc.
Qed.

(** The answers of the handler to requests, one after the other. *)
Fixpoint answers (l : list Envelope) (st : S) : S * list Envelope :=
  match l with
  | [] => (st, [])
  | m :: l => let '(st, r) := dispatch m st in let '(st, rs) := answers l st in (st, r :: rs)
  end.

(** Calls of a client on one channel. *)
Fixpoint channel_calls (l : list Envelope) (s : Stream) : Stream * list (option Envelope) :=
  match l with
  | [] => (s, [])
  | m :: l => let '(s, r) := channel_call reads writes serialize parse m s in
              let '(s, rs) := channel_calls l s in (s, r :: rs)
  end.

(** Each request has a wire form, and each answer. *)
Definition wired (l : list Envelope) (wires : list Bytes) : Prop := Forall2 wire_of l wires.

Lemma rpc_frame_some wire i : rpc_frame wire ++ i ≠ [].
Proof. done. Qed.

Lemma read_nothing o c : readFixSize reads 4 (mkStream [] o c) = (mkStream [] o c, (0, [])).
Proof.
  unfold readFixSize. change (Z.to_nat (i64 4)) with 4%nat. cbn [read_fix st_in length].
  by rewrite (Nat.min_0_r 4), Nat.min_0_r.
Qed.

Lemma serve_ok l wires rwires st o c fuel : wired l wires → wired (answers l st).2 rwires → (length l < fuel)%nat →
  serve_loop reads writes serialize parse dispatch fuel st (mkStream (concat (rpc_frame <$> wires)) o c) =
  Some ((answers l st).1, mkStream [] (o ++ concat (rpc_frame <$> rwires)) c).
Proof.
  intros Hl. revert st rwires o fuel. induction Hl as [|m wire l wires Hm _ IH]; intros st rwires o fuel Hr Hf.
  - destruct fuel as [|fuel]; [lia|]. apply Forall2_nil_inv_l in Hr as ->. cbn [serve_loop fmap list_fmap concat answers fst].
    unfold serve_one. rewrite read_nothing. cbn. by rewrite app_nil_r.
  - destruct fuel as [|fuel]; [simpl in Hf; lia|]. cbn [answers] in *. destruct (dispatch m st) as [st1 r] eqn:Ed.
    destruct (answers l st1) as [st2 rs] eqn:Ea. cbn [snd fst] in *. apply Forall2_cons_inv_l in Hr as (rwire & rwires' & Hr & Hrs & ->).
    cbn [serve_loop fmap list_fmap concat]. rewrite (serve_one_ok st m wire st1 r rwire) by done.
    specialize (IH st1 rwires' (o ++ rpc_frame rwire) fuel). rewrite Ea in IH. cbn [fst snd] in IH. rewrite IH by (done || (simpl in Hf; lia)).
    by rewrite <-app_assoc.
Qed.

Lemma calls_ok l wires rs rwires i o : wired l wires → wired rs rwires → length l = length rs →
  channel_calls l (mkStream (concat (rpc_frame <$> rwires) ++ i) o false) =
  (mkStream i (o ++ concat (rpc_frame <$> wires)) false, Some <$> rs).
Proof.
  intros Hl. revert rs rwires o. induction Hl as [|m wire l wires Hm _ IH]; intros rs rwires o Hr Hlen.
  - destruct rs; [|done]. apply Forall2_nil_inv_l in Hr as ->. cbn. by rewrite app_nil_r.
  - destruct rs as [|r rs]; [done|]. apply Forall2_cons_inv_l in Hr as (rwire & rwires' & Hr & Hrs & ->).
    cbn [channel_calls fmap list_fmap concat]. rewrite <-app_assoc, (call_ok m wire r rwire) by done.
    rewrite (IH rs rwires') by (done || (simpl in Hlen; lia)). by rewrite <-app_assoc.
Qed.

Lemma answers_length l st : length (answers l st).2 = length l.
Proof. revert st. induction l as [|m l IH]; intros st; [done|]. cbn [answers]. destruct (dispatch m st) as [st1 r]. specialize (IH st1). destruct (answers l st1). cbn in *. by f_equal. Qed.
End framing.

(** ** A service that does not answer *)

Section dead.
Context {Envelope : Type} (request_id : Envelope → Z).

(** Attempts, of whatever calls, one after the other. *)
Definition Doing : Type := Attempt (Envelope := Envelope) * RpcServiceConfig * RpcInvocation (Envelope := Envelope).
Fixpoint do_calls (l : list Doing) (m : RpcChannelManager) : RpcChannelManager * list (RpcEvent) :=
  match l with
  | [] => (m, [])
  | (a, config, v) :: l =>
      let '(m, _, _, ev) := doCall request_id a config v m in
      let '(m, ev') := do_calls l m in (m, ev ++ ev')
  end.

Definition never_answers (a : Attempt (Envelope := Envelope)) : Prop :=
  ∀ host port e, match at_send a host port e with Answered _ => False | _ => True end.

(** The breaker of a key of a service. *)
Definition breaker_of (service key : string) (m : RpcChannelManager (Envelope := Envelope)) : option RpcCircuitBreaker :=
  get_breaker key <$> cm_cbManagers m !! service.

Lemma allow_rejected now b b' : allowRequest now b = (b', false) → b' = b.
Proof. unfold allowRequest. intros. by repeat case_match; simplify_eq. Qed.

Lemma get_put key b mg : get_breaker key (put_breaker key b mg) = b.
Proof. unfold get_breaker, put_breaker. cbn. by rewrite lookup_insert_eq. Qed.

(** An attempt that is not answered: its breaker rejects it or nothing is selected and the
    breaker stays, or a node is reached and the breaker records a failure. *)
Lemma doCall_unanswered a config v m b : never_answers a → breaker_of (iv_serviceName v) (cb_key v) m = Some b →
  let '(m', _, _, ev) := doCall request_id a config v m in
  (ev = [] ∧ breaker_of (iv_serviceName v) (cb_key v) m' = Some b) ∨
  (∃ n, ev = [Reached n] ∧ (allowRequest (at_ask a) b).2 = true ∧
     breaker_of (iv_serviceName v) (cb_key v) m' = Some (recordFailure (at_fail a) (allowRequest (at_ask a) b).1)).
Proof.
  intros Hno Hb. unfold doCall. destruct (cm_selectNode _ _ _ _ m) as [m1 idx] eqn:Esel.
  assert (cm_cbManagers m1 = cm_cbManagers m) as Hcb.
  { unfold cm_selectNode in Esel. destruct (cm_loadBalancers m !! _); [destruct (selectNode _ _ _)|]; by simplify_eq/=. }
  assert (breaker_of (iv_serviceName v) (cb_key v) m1 = Some b) as Hb1 by (unfold breaker_of; by rewrite Hcb).
  destruct (idx <? 0); [by left|]. destruct (cm_getNodes _ m1 !! _) as [node|]; [|by left].
  set (v' := set_target _ _ v). assert (iv_serviceName v' = iv_serviceName v ∧ cb_key v' = cb_key v) as [Hs Hk] by done.
  unfold breaker_of in Hb1. destruct (cm_cbManagers m1 !! iv_serviceName v) as [mg|] eqn:Emg; [|done]. injection Hb1 as Hg.
  unfold ask_breaker. rewrite Hs, Emg, Hk. unfold m_allowRequest. rewrite Hg.
  destruct (allowRequest (at_ask a) b) as [b1 ok] eqn:Eask. destruct ok; cbn [negb].
  - assert (breaker_of (iv_serviceName v) (cb_key v) (record_failure (at_fail a) v'
      (set_cbs (<[iv_serviceName v := put_breaker (cb_key v) b1 mg]> (cm_cbManagers m1)) m1)) = Some (recordFailure (at_fail a) b1)) as Hrec.
    { unfold breaker_of, record_failure. rewrite Hs, Hk. cbn. rewrite lookup_alter_eq, lookup_insert_eq. cbn.
      unfold m_recordFailure. by rewrite !get_put. }
    specialize (Hno (n_host node) (n_port node) (iv_request v')). destruct (at_send a _ _ _); [|..|done]; right; by exists node.
  - apply allow_rejected in Eask as ->. left. split; [done|]. unfold breaker_of. cbn. rewrite lookup_insert_eq. cbn. by rewrite get_put.
Qed.

(** The failures a breaker can still count before it is open. *)
Definition remaining (b : RpcCircuitBreaker) : Z :=
  match cb_state b with Closed => failureThreshold (cb_config b) - cb_failures b | _ => 0 end.

(** The readings of the clock, in order. *)
Definition readings (l : list Doing) : list Z := l ≫= λ x, [at_ask x.1.1; at_fail x.1.1].
Fixpoint rising (from : Z) (l : list Z) : Prop := match l with [] => True | t :: l => from ≤ t ∧ rising t l end.

Lemma recordFailure_config now b : cb_config (recordFailure now b) = cb_config b.
Proof. apply (cb_event_config (Failed now)). Qed.
Lemma allow_config now b : cb_config (allowRequest now b).1 = cb_config b.
Proof. apply (cb_event_config (Ask now)). Qed.

Lemma dead_bound service key t0 l m b now : breaker_of service key m = Some b → config_ok (cb_config b) →
  match cb_state b with Closed => 0 ≤ cb_failures b < failureThreshold (cb_config b) | Open => t0 ≤ cb_openedAt b ≤ now | HalfOpen => False end →
  0 ≤ t0 → openDurationMs (cb_config b) ≤ UINT64_MAX → t0 ≤ now → rising now (readings l) →
  Forall (λ t, t < t0 + openDurationMs (cb_config b)) (readings l) →
  Forall (λ x, never_answers x.1.1 ∧ iv_serviceName x.2 = service ∧ cb_key x.2 = key) l →
  Z.of_nat (length (do_calls l m).2) ≤ remaining b.
Proof.
  intros Hb Hok Hst H0 Hdur Hnow Hrise Hlt Hall. revert m b now Hb Hok Hst Hdur Hnow Hrise Hlt.
  induction Hall as [|[[a config] v] l (Hno & <- & <-) _ IH]; intros m b now Hb Hok Hst Hdur Hnow Hrise Hlt.
  { cbn. unfold remaining. destruct (cb_state b); lia. }
  cbn [do_calls]. pose proof (doCall_unanswered a config v m b Hno Hb) as Hdo. destruct (doCall _ _ _ _ _) as [[[m1 v1] ok] ev].
  unfold readings in Hrise, Hlt. rewrite bind_cons in Hrise, Hlt. fold (readings l) in Hrise, Hlt. cbn in Hrise, Hlt.
  apply Forall_cons in Hlt as [Hlt1 [Hlt2 Hlt]%Forall_cons]. destruct Hrise as (Hr1 & Hr2 & Hrise).
  assert (now ≤ at_fail a) as Hnf by lia.
  destruct Hdo as [[-> Hb1]|(n & -> & Hyes & Hb1)]; destruct (do_calls l m1) as [m2 ev2] eqn:El.
  - specialize (IH m1 b (at_fail a) Hb1 Hok). rewrite El in IH. apply IH; [|done|lia|done|done]. destruct (cb_state b); [done|lia|done].
  - cbn [snd]. rewrite length_app. cbn [length]. unfold allowRequest in *. destruct (cb_state b) eqn:Es; [| |done].
    + cbn [fst] in Hb1. unfold recordFailure in Hb1. rewrite Es in Hb1. cbn [cb_config set_failures cb_failures] in Hb1.
      destruct Hok as (Hft & Hrest). rewrite i32_of in Hb1 by lia.
      destruct (Z.leb_spec (failureThreshold (cb_config b)) (cb_failures b + 1)).
      * specialize (IH m1 _ (at_fail a) Hb1). cbn in IH. rewrite El in IH. specialize (IH (conj Hft Hrest) ltac:(lia) Hdur ltac:(lia) Hrise Hlt).
        unfold remaining in *. rewrite Es. cbn in *. lia.
      * specialize (IH m1 _ (at_fail a) Hb1). cbn in IH. rewrite Es, El in IH. specialize (IH (conj Hft Hrest) ltac:(lia) Hdur ltac:(lia) Hrise Hlt).
        unfold remaining in *. cbn in IH. rewrite Es in *. lia.
    + exfalso. rewrite u64_id in Hyes by (unfold in_u64, UINT64_MAX in *; lia).
      destruct (Z.leb_spec (openDurationMs (cb_config b)) (at_ask a - cb_openedAt b)); [lia|done].
Qed.
End dead.

(** ** Retries *)

Section retries.
Context {Envelope : Type} (request_id : Envelope → Z).

Definition slept (l : list RpcEvent) : list Z := omap (λ e, match e with Slept ms => Some ms | _ => None end) l.
Definition reached (l : list RpcEvent) : list RpcNode := omap (λ e, match e with Reached n => Some n | _ => None end) l.

(** The sleeps between attempts: doubled each time, up to the maximum. *)
Fixpoint delays (n : nat) (delayMs maxMs : Z) : list Z :=
  match n with O => [] | S n => delayMs :: delays n (Z.min (i32 (delayMs * 2)) maxMs) maxMs end.

Lemma doCall_spec a config v m :
  let '(_, v', ok, ev) := doCall request_id a config v m in
  slept ev = [] ∧ (length (reached ev) ≤ 1)%nat ∧ iv_request v' = iv_request v ∧
  if (ok : bool) then ∃ n r, ev = [Reached n] ∧ at_send a (n_host n) (n_port n) (iv_request v) = Answered r ∧
                             iv_response v' = r ∧ iv_success v' = true
  else ∀ n r, ev = [Reached n] → at_send a (n_host n) (n_port n) (iv_request v) ≠ Answered r.
Proof.
  unfold doCall. destruct (cm_selectNode _ _ _ _ m) as [m1 idx]. destruct (idx <? 0); [split_and!; [done|cbn; lia|done|done]|].
  destruct (cm_getNodes _ m1 !! _) as [node|]; [|split_and!; [done|cbn; lia|done|done]].
  destruct (ask_breaker _ _ m1) as [m2 ok]. destruct ok; cbn [negb]; [|split_and!; [done|cbn; lia|done|done]].
  cbn [iv_request set_target]. destruct (at_send a _ _ _) as [|r|r] eqn:E; split_and!; try done; try (cbn; lia).
  - intros n r [= <-]. by rewrite E.
  - intros n r' [= <-]. by rewrite E.
  - by exists node, r.
Qed.

Lemma slept_app a b : slept (a ++ b) = slept a ++ slept b.
Proof. apply omap_app. Qed.
Lemma reached_app a b : reached (a ++ b) = reached a ++ reached b.
Proof. apply omap_app. Qed.

Lemma retry_spec togo i attempts config delayMs v m :
  let '(_, v', ok, ev) := retry_loop request_id togo i attempts config delayMs v m in
  (length (reached ev) ≤ togo)%nat ∧
  (∃ k, slept ev = take k (delays (togo - 1) delayMs (maxDelayMs (retryPolicy config)))) ∧
  if (ok : bool) then ∃ j n r, (i ≤ j < i + togo)%nat ∧ last ev = Some (Reached n) ∧
    at_send (attempts j) (n_host n) (n_port n) (iv_request v) = Answered r ∧ iv_response v' = r
  else slept ev = delays (togo - 1) delayMs (maxDelayMs (retryPolicy config)).
Proof.
  revert i delayMs v m. induction togo as [|togo IH]; intros i delayMs v m; cbn [retry_loop].
  { split_and!; [cbn; lia|by exists 0%nat|done]. }
  pose proof (doCall_spec (attempts i) config v m) as Hd. destruct (doCall _ _ _ _ _) as [[[m1 v1] ok] ev].
  destruct Hd as (Hs & Hr & Hreq & Hok). destruct ok; cbn [orb].
  - destruct Hok as (n & r & -> & Hsend & Hresp & _). split_and!; [cbn; lia|by exists 0%nat|]. exists i, n, r. split_and!; [lia|lia|done..].
  - destruct (Nat.eqb_spec togo 0) as [->|Hne].
    { split_and!; [lia|by exists 0%nat; rewrite Hs|done]. }
    specialize (IH (S i) (Z.min (i32 (delayMs * 2)) (maxDelayMs (retryPolicy config))) v1 m1).
    destruct (retry_loop _ _ _ _ _ _ _ _) as [[[m2 v2] ok] ev2]. destruct IH as (Hr2 & (k & Hk) & Hok2).
    replace (S togo - 1)%nat with (S (togo - 1)) by lia. cbn [delays].
    rewrite reached_app, length_app, slept_app, Hs. cbn [slept omap list_omap app reached]. split_and!.
    + fold (reached ev2). lia.
    + exists (S k). fold (slept ev2). by rewrite Hk.
    + destruct ok.
      * destruct Hok2 as (j & n & r & Hj & Hl & Hsend & Hresp). exists j, n, r. split_and!; [lia|lia| |by rewrite <-Hreq|done].
        rewrite last_app_cons, last_cons, Hl. done.
      * fold (slept ev2). by rewrite Hok2.
Qed.
End retries.
