(* ===== verification/Http2.v ===== *)
(** * HTTP/2 frames and header compression

    [HPack] ([http/hpack.h], [hpack.cc]) and the frames of [http/http2.h], [http2.cc].  A
    decoder works on what is left of the input and refuses it, or steps outside what the
    code may read or shift ([Undefined]). *)

From Stdlib Require Import Ascii.
From stdpp Require Import strings options.
From S2P Require Import Prelude.
From S2P Require Import CStd.
From S2P Require Import Bytes.

#[local] Set Default Proof Using "Type*".

(** ** HPACK *)

Definition kStaticTable : list (string * string) :=
  [("", "");
   (":authority", "");
   (":method", "GET");
   (":method", "POST");
   (":path", "/");
   (":path", "/index.html");
   (":scheme", "http");
   (":scheme", "https");
   (":status", "200");
   (":status", "204");
   (":status", "206");
   (":status", "304");
   (":status", "400");
   (":status", "404");
   (":status", "500");
   ("accept-charset", "");
   ("accept-encoding", "gzip, deflate");
   ("accept-language", "");
   ("accept-ranges", "");
   ("accept", "");
   ("access-control-allow-origin", "");
   ("age", "");
   ("allow", "");
   ("authorization", "");
   ("cache-control", "");
   ("content-disposition", "");
   ("content-encoding", "");
   ("content-language", "");
   ("content-length", "");
   ("content-location", "");
   ("content-range", "");
   ("content-type", "");
   ("cookie", "");
   ("date", "");
   ("etag", "");
   ("expect", "");
   ("expires", "");
   ("from", "");
   ("host", "");
   ("if-match", "");
   ("if-modified-since", "");
   ("if-none-match", "");
   ("if-range", "");
   ("if-unmodified-since", "");
   ("last-modified", "");
   ("link", "");
   ("location", "");
   ("max-forwards", "");
   ("proxy-authenticate", "");
   ("proxy-authorization", "");
   ("range", "");
   ("referer", "");
   ("refresh", "");
   ("retry-after", "");
   ("server", "");
   ("set-cookie", "");
   ("strict-transport-security", "");
   ("transfer-encoding", "");
   ("user-agent", "");
   ("vary", "");
   ("via", "");
   ("www-authenticate", "")].
Definition kStaticTableSize : Z := Z.of_nat (length kStaticTable).

(** The first position, from [i] on, that holds the pair; 0 when there is none. *)
Fixpoint lookup_from (i : Z) (name value : string) (table : list (string * string)) : Z :=
  match table with
  | [] => 0
  | (n, v) :: table => if bool_decide (name = n ∧ value = v) then i else lookup_from (i + 1) name value table
  end.
Definition lookupStaticTable (name value : string) : Z := lookup_from 1 name value (tail kStaticTable).

Definition maxPrefix (prefixBits : Z) : Z := 2 ^ prefixBits - 1.

(** Seven bits at a time; a [uint32_t] has at most five groups. *)
Fixpoint encode_groups (fuel : nat) (value : Z) : Bytes :=
  match fuel with
  | O => [byte value]
  | S fuel =>
      if 128 <=? value then byte (Z.lor (Z.land value 127) 128) :: encode_groups fuel (Z.shiftr value 7)
      else [byte value]
  end.
Definition encodeInteger (value prefixBits : Z) : Bytes :=
  if value <? maxPrefix prefixBits then [byte value]
  else byte (maxPrefix prefixBits) :: encode_groups 5 (value - maxPrefix prefixBits).

Inductive Decoded (A : Type) : Type := Done (a : A) (rest : Bytes) | Refused | Undefined.
Arguments Done {_}.
Arguments Refused {_}.
Arguments Undefined {_}.

(** [d], then [f] on what it read and on what is left. *)
Definition and_then {A B} (d : Decoded A) (f : A → Bytes → Decoded B) : Decoded B :=
  match d with Done a rest => f a rest | Refused => Refused | Undefined => Undefined end.

(** A shift by 32 or more, or of a bit out of 32, is undefined. *)
Fixpoint decode_groups (m value : Z) (l : Bytes) : Decoded Z :=
  match l with
  | [] => Done value []
  | c :: l =>
      let part := Z.land (byte_of c) 127 * 2 ^ m in
      if (32 <=? m) || (2 ^ 32 <=? part) then Undefined
      else
        let value := u32 (value + part) in
        if Z.land (byte_of c) 128 =? 0 then Done value l else decode_groups (m + 7) value l
  end.
(** The first byte is read without a look at the length. *)
Definition decodeInteger (prefixBits : Z) (l : Bytes) : Decoded Z :=
  match l with
  | [] => Undefined
  | c :: l =>
      let b := Z.land (byte_of c) (maxPrefix prefixBits) in
      if b <? maxPrefix prefixBits then Done b l else decode_groups 0 b l
  end.

(** The first byte of a list changed. *)
Definition map_head (f : Z → Z) (l : Bytes) : Bytes :=
  match l with [] => [] | c :: l => byte (f (byte_of c)) :: l end.

Definition encodeStringLiteral (str : Bytes) : Bytes :=
  map_head (λ b, Z.land b 127) (encodeInteger (u32 (Z.of_nat (length str))) 7) ++ str.
Definition decodeStringLiteral (l : Bytes) : Decoded Bytes :=
  match l with
  | [] => Refused
  | c :: _ =>
      let huffman := negb (Z.land (byte_of c) 128 =? 0) in
      and_then (decodeInteger 7 l) (λ strLen l,
        if Z.of_nat (length l) <? strLen then Refused
        else if huffman then Refused
        else Done (take (Z.to_nat strLen) l) (drop (Z.to_nat strLen) l))
  end.

Definition encode_header (name value : string) : Bytes :=
  let idx := lookupStaticTable name value in
  if 0 <? idx then map_head (λ b, Z.lor b 128) (encodeInteger idx 7)
  else byte 64 :: encodeStringLiteral (chars name) ++ encodeStringLiteral (chars value).
Definition hpack_encode (headers : gmap string string) : Bytes :=
  map_iter headers ≫= λ kv, encode_header kv.1 kv.2.

Definition table_entry (idx : Z) : option (string * string) :=
  if (idx =? 0) || (kStaticTableSize <=? idx) then None else kStaticTable !! Z.to_nat idx.

(** A literal whose first byte [b] was passed: the name, from the table when a bit of [mask]
    is set, and the value. *)
Definition decode_literal (mask prefixBits b : Z) (l : Bytes) : Decoded (string * string) :=
  and_then
    (if Z.land b mask =? 0 then and_then (decodeStringLiteral l) (λ s rest, Done (text s) rest)
     else and_then (decodeInteger prefixBits l) (λ idx rest,
            match table_entry idx with Some (n, _) => Done n rest | None => Refused end))
    (λ name rest, and_then (decodeStringLiteral rest) (λ v rest, Done (name, text v) rest)).

Definition decode_header (l : Bytes) : Decoded (string * string) :=
  match l with
  | [] => Refused
  | c :: l' =>
      let b := byte_of c in
      if negb (Z.land b 128 =? 0) then
        and_then (decodeInteger 7 l) (λ idx rest,
          match table_entry idx with Some kv => Done kv rest | None => Refused end)
      else if Z.land b 192 =? 64 then decode_literal 63 6 b l'
      else if (Z.land b 240 =? 0) || (Z.land b 240 =? 16) then decode_literal 15 4 b l'
      else Refused
  end.

(** The loop; every turn takes at least a byte.  The headers read before a refusal stay. *)
Fixpoint decode_loop (fuel : nat) (l : Bytes) (headers : gmap string string) : option (gmap string string * Decoded unit) :=
  match l, fuel with
  | [], _ => Some (headers, Done () [])
  | _, O => None
  | _, S fuel =>
      match decode_header l with
      | Done (n, v) rest => decode_loop fuel rest (<[n := v]> headers)
      | Refused => Some (headers, Refused)
      | Undefined => Some (headers, Undefined)
      end
  end.
Definition hpack_decode (l : Bytes) (headers : gmap string string) : option (gmap string string * Decoded unit) :=
  decode_loop (length l) l headers.

(** ** Frames *)

Definition SETTINGS : Z := 4.
Definition ACK : Z := 1.
Definition SETTINGS_MAX_CONCURRENT_STREAMS : Z := 3.
Definition SETTINGS_INITIAL_WINDOW_SIZE : Z := 4.
Definition SETTINGS_MAX_FRAME_SIZE : Z := 5.
Definition kSize : nat := 9.

Definition line_end : Bytes := ["013"%char; "010"%char].
Definition kConnectionPreface : Bytes :=
  chars "PRI * HTTP/2.0" ++ line_end ++ line_end ++ chars "SM" ++ line_end ++ line_end.

Record FrameHeader : Type := mkFrame {
  fh_length : Z;
  fh_type : Z;
  fh_flags : Z;
  fh_streamId : Z
}.

Definition at_byte (l : Bytes) (i : nat) : Z := byte_of (nth i l "000"%char).
Definition or_shifts (b0 b1 b2 b3 : Z) : Z :=
  Z.lor (Z.lor (Z.lor (Z.shiftl b0 24) (Z.shiftl b1 16)) (Z.shiftl b2 8)) b3.

Definition decode_frame_header (l : Bytes) : option FrameHeader :=
  if (length l <? kSize)%nat then None
  else Some (mkFrame (or_shifts 0 (at_byte l 0) (at_byte l 1) (at_byte l 2)) (at_byte l 3) (at_byte l 4)
               (Z.land (or_shifts (at_byte l 5) (at_byte l 6) (at_byte l 7) (at_byte l 8)) 2147483647)).
Definition encode_frame_header (h : FrameHeader) : Bytes :=
  [byte (Z.land (Z.shiftr (fh_length h) 16) 255); byte (Z.land (Z.shiftr (fh_length h) 8) 255);
   byte (Z.land (fh_length h) 255); byte (fh_type h); byte (fh_flags h);
   byte (Z.land (Z.shiftr (fh_streamId h) 24) 127); byte (Z.land (Z.shiftr (fh_streamId h) 16) 255);
   byte (Z.land (Z.shiftr (fh_streamId h) 8) 255); byte (Z.land (fh_streamId h) 255)].

(** [SettingsFrame]: pairs of an identifier and a value. *)
Definition Settings : Type := list (Z * Z).
Definition encode_setting (p : Z * Z) : Bytes :=
  [byte (Z.land (Z.shiftr p.1 8) 255); byte (Z.land p.1 255); byte (Z.land (Z.shiftr p.2 24) 255);
   byte (Z.land (Z.shiftr p.2 16) 255); byte (Z.land (Z.shiftr p.2 8) 255); byte (Z.land p.2 255)].
Definition encode_settings (params : Settings) : Bytes := params ≫= encode_setting.
Fixpoint decode_params (l : Bytes) : option Settings :=
  match l with
  | [] => Some []
  | b0 :: b1 :: b2 :: b3 :: b4 :: b5 :: l =>
      params ← decode_params l;
      mret ((Z.lor (Z.shiftl (byte_of b0) 8) (byte_of b1),
             or_shifts (byte_of b2) (byte_of b3) (byte_of b4) (byte_of b5)) :: params)
  | _ => None
  end.

(** [Http2Connection] *)
Record Http2Connection : Type := mkH2 {
  h2_receivedPreface : bool;
  h2_settingsAcked : bool;
  h2_maxFrameSize : Z;
  h2_maxConcurrentStreams : Z
}.
Definition Http2Connection0 : Http2Connection := mkH2 false false 16384 100.

Definition sendLocalSettings (c : Http2Connection) : Bytes :=
  let payload := encode_settings
    [(SETTINGS_MAX_CONCURRENT_STREAMS, h2_maxConcurrentStreams c); (SETTINGS_INITIAL_WINDOW_SIZE, 65535);
     (SETTINGS_MAX_FRAME_SIZE, h2_maxFrameSize c)] in
  encode_frame_header (mkFrame (Z.of_nat (length payload)) SETTINGS 0 0) ++ payload.

Definition apply_setting (c : Http2Connection) (p : Z * Z) : Http2Connection :=
  if p.1 =? SETTINGS_MAX_FRAME_SIZE then mkH2 (h2_receivedPreface c) (h2_settingsAcked c) p.2 (h2_maxConcurrentStreams c)
  else if p.1 =? SETTINGS_MAX_CONCURRENT_STREAMS then mkH2 (h2_receivedPreface c) (h2_settingsAcked c) (h2_maxFrameSize c) p.2
  else c.
Definition handleSettings (h : FrameHeader) (payload : Bytes) (c : Http2Connection) : Http2Connection * bool :=
  if negb (Z.land (fh_flags h) ACK =? 0) then
    (mkH2 (h2_receivedPreface c) true (h2_maxFrameSize c) (h2_maxConcurrentStreams c), true)
  else
    match decode_params payload with
    | Some params => (foldl apply_setting c params, true)
    | None => (c, false)
    end.

(** The frames of the input; every one has nine bytes at least. *)
Fixpoint frames_loop (fuel : nat) (l : Bytes) (c : Http2Connection) : option (Http2Connection * bool) :=
  if (length l <? kSize)%nat then Some (c, true)
  else
    match fuel with
    | O => None
    | S fuel =>
        match decode_frame_header l with
        | None => Some (c, false)
        | Some h =>
            if (length l <? kSize + Z.to_nat (fh_length h))%nat then Some (c, false)
            else
              let payload := take (Z.to_nat (fh_length h)) (drop kSize l) in
              let rest := drop (kSize + Z.to_nat (fh_length h)) l in
              if fh_type h =? SETTINGS then
                let '(c, ok) := handleSettings h payload c in
                if ok then frames_loop fuel rest c else Some (c, false)
              else frames_loop fuel rest c
        end
    end.
Definition onFrame (l : Bytes) (c : Http2Connection) : option (Http2Connection * bool) :=
  if h2_receivedPreface c then frames_loop (length l) l c
  else
    let n := length kConnectionPreface in
    if (length l <? n)%nat then Some (c, false)
    else if negb (bool_decide (take n l = kConnectionPreface)) then Some (c, false)
    else
      frames_loop (length l) (drop n l)
        (mkH2 true (h2_settingsAcked c) (h2_maxFrameSize c) (h2_maxConcurrentStreams c)).

(** ** What was encoded is decoded *)

Lemma low_high b : 0 ≤ b < 128 →
  byte_of (byte (Z.lor b 128)) = b + 128 ∧ Z.land (b + 128) 127 = b ∧ Z.land (b + 128) 128 = 128.
Proof.
  intros Hb. pose (P := λ b, (byte_of (byte (Z.lor b 128)) =? b + 128) && (Z.land (b + 128) 127 =? b) && (Z.land (b + 128) 128 =? 128)).
  assert (P b = true) as H; [|unfold P in H; lia].
  assert (forallb P (seqZ 0 128) = true) as Hall by by vm_compute.
  rewrite forallb_forall in Hall. apply Hall, list_elem_of_In, elem_of_seqZ. lia.
Qed.

Lemma low_only b : 0 ≤ b < 128 → Z.land b 127 = b ∧ Z.land b 128 = 0.
Proof.
  intros Hb. pose (P := λ b, (Z.land b 127 =? b) && (Z.land b 128 =? 0)). assert (P b = true) as H; [|unfold P in H; lia].
  assert (forallb P (seqZ 0 128) = true) as Hall by by vm_compute.
  rewrite forallb_forall in Hall. apply Hall, list_elem_of_In, elem_of_seqZ. lia.
Qed.

Lemma land_low7 b : Z.land b 127 = b mod 2 ^ 7.
Proof. change 127 with (Z.ones 7). by apply Z.land_ones. Qed.

Lemma groups_round_trip fuel m value v rest : 0 ≤ v < 128 * 128 ^ Z.of_nat fuel → 0 ≤ m < 32 →
  0 ≤ value → value + v * 2 ^ m < 2 ^ 32 →
  decode_groups m value (encode_groups fuel v ++ rest) = Done (value + v * 2 ^ m) rest.
Proof.
  revert m value v. induction fuel as [|fuel IH]; intros m value v Hv Hm H0 Hsum; cbn [encode_groups].
  - cbn [app decode_groups]. rewrite byte_of_byte by (cbn in Hv; lia). destruct (low_only v) as [-> ->]; [cbn in Hv; lia|].
    destruct (Z.leb_spec 32 m), (Z.leb_spec (2 ^ 32) (v * 2 ^ m)); try lia. cbn [orb Z.eqb]. unfold u32. by rewrite Z.mod_small by lia.
  - assert (0 < 2 ^ m) as Hpow by (apply Z.pow_pos_nonneg; lia).
    destruct (Z.leb_spec 128 v).
    + rewrite (land_low7 v). pose proof (Z.mod_pos_bound v (2 ^ 7) ltac:(lia)) as Hmod.
      destruct (low_high (v mod 2 ^ 7)) as (Hbyte & Hlow & Hhigh); [lia|].
      cbn [app decode_groups]. rewrite Hbyte, Hlow, Hhigh. pose proof (Z.div_mod v (2 ^ 7) ltac:(lia)) as Hdiv.
      rewrite Z.shiftr_div_pow2 by lia. set (q := v / 2 ^ 7) in *. set (r := v mod 2 ^ 7) in *.
      assert (1 ≤ q) by lia. assert (r * 2 ^ m ≤ v * 2 ^ m) by nia.
      destruct (Z.leb_spec 32 m), (Z.leb_spec (2 ^ 32) (r * 2 ^ m)); try lia. cbn [orb Z.eqb].
      assert (q * 2 ^ (m + 7) + r * 2 ^ m = v * 2 ^ m) as Hsplit by (rewrite Z.pow_add_r by lia; nia).
      assert (m + 7 < 32) as Hm7.
      { destruct (decide (m + 7 < 32)) as [|Hge]; [done|]. assert (2 ^ 32 ≤ 2 ^ (m + 7)) by (apply Z.pow_le_mono_r; lia). nia. }
      unfold u32. rewrite Z.mod_small by nia. rewrite IH.
      * f_equal. lia.
      * split; [lia|]. rewrite Nat2Z.inj_succ, Z.pow_succ_r in Hv by lia. nia.
      * lia.
      * nia.
      * nia.
    + cbn [app decode_groups]. rewrite byte_of_byte by lia. destruct (low_only v) as [-> ->]; [lia|].
      destruct (Z.leb_spec 32 m), (Z.leb_spec (2 ^ 32) (v * 2 ^ m)); try lia. cbn [orb Z.eqb]. unfold u32. by rewrite Z.mod_small by lia.
Qed.

(** What the encoders do to the first byte. *)
Inductive top_bit : (Z → Z) → Prop :=
  | top_clear : top_bit (λ b, Z.land b 127)
  | top_set : top_bit (λ b, Z.lor b 128).

(** Whatever the bit above the prefix. *)
Lemma integer_round_trip high v rest : top_bit high → 0 ≤ v < 2 ^ 32 →
  decodeInteger 7 (map_head high (encodeInteger v 7) ++ rest) = Done v rest.
Proof.
  intros Hhigh Hv. unfold encodeInteger, decodeInteger. change (maxPrefix 7) with 127.
  assert (∀ b, 0 ≤ b < 128 → Z.land (byte_of (byte (high (byte_of (byte b))))) 127 = b) as Hb.
  { intros b Hb. rewrite (byte_of_byte b) by lia. destruct Hhigh.
    - destruct (low_only b Hb) as [-> _]. rewrite byte_of_byte by lia. by apply low_only.
    - destruct (low_high b Hb) as (-> & H & _). exact H. }
  destruct (Z.ltb_spec v 127); cbn [map_head app]; rewrite Hb by lia.
  - by destruct (Z.ltb_spec v 127); [|lia].
  - change (127 <? 127) with false. cbn iota. rewrite groups_round_trip by lia. f_equal. lia.
Qed.

Lemma encodeInteger_head v bits : ∃ b l, encodeInteger v bits = b :: l.
Proof. unfold encodeInteger. destruct (v <? _); eauto. Qed.

Lemma literal_head v : 0 ≤ v → ∃ c l,
  map_head (λ b, Z.land b 127) (encodeInteger v 7) = c :: l ∧ Z.land (byte_of c) 128 = 0.
Proof.
  intros Hv. destruct (encodeInteger_head v 7) as (b & l & ->). eexists _, _. split; [done|].
  cbv beta. rewrite (land_low7 (byte_of b)). pose proof (Z.mod_pos_bound (byte_of b) (2 ^ 7) ltac:(lia)).
  rewrite byte_of_byte by lia. apply low_only. lia.
Qed.

Lemma string_round_trip s rest : Z.of_nat (length s) < 2 ^ 32 →
  decodeStringLiteral (encodeStringLiteral s ++ rest) = Done s rest.
Proof.
  intros Hs. unfold encodeStringLiteral. rewrite <-app_assoc.
  replace (u32 (Z.of_nat (length s))) with (Z.of_nat (length s)) by (unfold u32; rewrite Z.mod_small; lia).
  set (n := Z.of_nat (length s)) in *.
  pose proof (integer_round_trip _ n (s ++ rest) top_clear ltac:(lia)) as Hint.
  destruct (literal_head n) as (c & l & Hhd & Hc); [lia|]. rewrite Hhd in *. cbn [app] in *. unfold decodeStringLiteral.
  rewrite Hint, Hc. cbn [and_then Z.eqb negb].
  destruct (Z.ltb_spec (Z.of_nat (length (s ++ rest))) n) as [Hlt|_]; [rewrite length_app in Hlt; lia|].
  subst n. rewrite Nat2Z.id, take_app_length, drop_app_length. done.
Qed.

Lemma lookup_from_spec i name value table j : 0 < i → lookup_from i name value table = j → j ≠ 0 →
  i ≤ j < i + Z.of_nat (length table) ∧ table !! Z.to_nat (j - i) = Some (name, value).
Proof.
  revert i. induction table as [|[n v] table IH]; intros i Hi Hj Hnz; cbn [lookup_from] in Hj; [lia|].
  case_bool_decide as Heq.
  - destruct Heq as [-> ->]. subst j. rewrite Z.sub_diag. cbn [length]. split; [lia|done].
  - destruct (IH (i + 1)) as [Hr Hl]; [lia|done|done|]. cbn [length]. split; [lia|].
    replace (Z.to_nat (j - i)) with (S (Z.to_nat (j - (i + 1)))) by lia. exact Hl.
Qed.

Lemma lookup_entry name value : 0 < lookupStaticTable name value →
  table_entry (lookupStaticTable name value) = Some (name, value) ∧ lookupStaticTable name value < 2 ^ 32.
Proof.
  intros Hpos. set (j := lookupStaticTable name value) in *.
  destruct (lookup_from_spec 1 name value (tail kStaticTable) j) as [Hr Hl]; [lia|done|lia|].
  change (Z.of_nat (length (tail kStaticTable))) with (kStaticTableSize - 1) in Hr.
  assert (kStaticTableSize = 62) as Hsize by done. split; [|lia].
  unfold table_entry. destruct (Z.eqb_spec j 0), (Z.leb_spec kStaticTableSize j); try lia. cbn [orb].
  replace (Z.to_nat j) with (S (Z.to_nat (j - 1))) by lia. exact Hl.
Qed.

Lemma indexed_head v : 0 ≤ v → ∃ c l,
  map_head (λ b, Z.lor b 128) (encodeInteger v 7) = c :: l ∧ negb (Z.land (byte_of c) 128 =? 0) = true.
Proof.
  intros Hv. assert (∃ b l, encodeInteger v 7 = byte b :: l ∧ 0 ≤ b < 128) as (b & l & -> & Hb).
  { unfold encodeInteger. change (maxPrefix 7) with 127. destruct (Z.ltb_spec v 127); eexists _, _; (split; [done|lia]). }
  eexists _, _. split; [done|]. cbv beta. rewrite (byte_of_byte b) by lia.
  destruct (low_high b Hb) as (Hbyte & _ & Hhigh). by rewrite Hbyte, Hhigh.
Qed.

Definition sized (kv : string * string) : Prop :=
  Z.of_nat (String.length kv.1) < 2 ^ 32 ∧ Z.of_nat (String.length kv.2) < 2 ^ 32.

Lemma header_round_trip kv rest : sized kv → decode_header (encode_header kv.1 kv.2 ++ rest) = Done kv rest.
Proof.
  destruct kv as [name value]. intros [Hn Hv]. cbn [fst snd] in *. unfold encode_header.
  destruct (Z.ltb_spec 0 (lookupStaticTable name value)) as [Hpos|_].
  - destruct (lookup_entry name value Hpos) as [Hentry Hlt]. set (j := lookupStaticTable name value) in *.
    pose proof (integer_round_trip _ j rest top_set ltac:(lia)) as Hint.
    destruct (indexed_head j) as (c & l & Hhd & Hc); [lia|]. rewrite Hhd in *. cbn [app] in *.
    unfold decode_header. rewrite Hc, Hint. cbn [and_then]. by rewrite Hentry.
  - rewrite <-app_comm_cons, <-app_assoc. unfold decode_header. rewrite byte_of_byte by lia.
    change (Z.land 64 128 =? 0) with true. change (Z.land 64 192 =? 64) with true. cbn [negb].
    unfold decode_literal. change (Z.land 64 63 =? 0) with true. cbn iota.
    rewrite string_round_trip by (rewrite chars_length; lia). cbn [and_then].
    rewrite string_round_trip by (rewrite chars_length; lia). cbn [and_then]. by rewrite !text_chars.
Qed.

Lemma encode_header_cons name value : ∃ c l, encode_header name value = c :: l.
Proof.
  unfold encode_header. destruct (0 <? _); [|eauto].
  destruct (encodeInteger_head (lookupStaticTable name value) 7) as (b & l & ->). cbn [map_head]. eauto.
Qed.

Lemma headers_round_trip l fuel headers : Forall sized l →
  (length (l ≫= λ kv, encode_header kv.1 kv.2) ≤ fuel)%nat →
  decode_loop fuel (l ≫= λ kv, encode_header kv.1 kv.2) headers =
    Some (foldl (λ m p, <[p.1 := p.2]> m) headers l, Done () []).
Proof.
  revert fuel headers. induction l as [|[n v] l IH]; intros fuel headers Hl Hf; [by destruct fuel|].
  apply Forall_cons in Hl as [Hkv Hl]. cbn [mbind list_bind fst snd] in *.
  pose proof (header_round_trip (n, v) (l ≫= λ kv, encode_header kv.1 kv.2) Hkv) as Hd. cbn [fst snd] in Hd.
  destruct (encode_header_cons n v) as (c & rest & Henc). rewrite Henc in *. cbn [app length] in *.
  destruct fuel as [|fuel]; [lia|]. cbn [decode_loop]. rewrite Hd. cbn [foldl fst snd]. apply IH; [done|].
  rewrite length_app in Hf. lia.
Qed.

(** ** The frames of a peer *)

Definition frame_bytes (ty flags stream : Z) (payload : Bytes) : Bytes :=
  encode_frame_header (mkFrame (Z.of_nat (length payload)) ty flags stream) ++ payload.

(** The settings of a peer, its acknowledgement, and any other frame. *)
Inductive H2Frame : Type :=
  | FSettings (params : Settings)
  | FAck
  | FOther (ty flags stream : Z) (payload : Bytes).

Definition encode_frame (f : H2Frame) : Bytes :=
  match f with
  | FSettings params => frame_bytes SETTINGS 0 0 (encode_settings params)
  | FAck => frame_bytes SETTINGS ACK 0 []
  | FOther ty flags stream payload => frame_bytes ty flags stream payload
  end.

Definition param_ok (p : Z * Z) : Prop := 0 ≤ p.1 < 2 ^ 16 ∧ 0 ≤ p.2 < 2 ^ 32.
Definition h2_frame_ok (f : H2Frame) : Prop :=
  match f with
  | FSettings params => Forall param_ok params ∧ Z.of_nat (length params) * 6 < 2 ^ 24
  | FAck => True
  | FOther ty flags stream payload =>
      (0 ≤ ty < 256 ∧ ty ≠ SETTINGS) ∧ 0 ≤ flags < 256 ∧ 0 ≤ stream < 2 ^ 31 ∧ Z.of_nat (length payload) < 2 ^ 24
  end.

(** The last value given to [id], [d] when there is none. *)
Definition last_value (id : Z) (params : list (Z * Z)) (d : Z) : Z :=
  match last (filter (λ p : Z * Z, p.1 = id) params) with Some p => p.2 | None => d end.

Definition frame_effect (c : Http2Connection) (f : H2Frame) : Http2Connection :=
  match f with
  | FSettings params =>
      mkH2 (h2_receivedPreface c) (h2_settingsAcked c) (last_value SETTINGS_MAX_FRAME_SIZE params (h2_maxFrameSize c))
        (last_value SETTINGS_MAX_CONCURRENT_STREAMS params (h2_maxConcurrentStreams c))
  | FAck => mkH2 (h2_receivedPreface c) true (h2_maxFrameSize c) (h2_maxConcurrentStreams c)
  | FOther _ _ _ _ => c
  end.

Lemma land_255 b : Z.land b 255 = b mod 2 ^ 8.
Proof. change 255 with (Z.ones 8). by apply Z.land_ones. Qed.

(** Bytes put together again, by the Euclidean equations of their parts. *)
Ltac bytes_back :=
  change (2 ^ 7) with 128 in *; change (2 ^ 8) with 256 in *; change (2 ^ 16) with 65536 in *;
  change (2 ^ 24) with 16777216 in *; rewrite ?be32_value, ?lor_shiftl_add by (Z.to_euclidean_division_equations; lia);
  Z.to_euclidean_division_equations; lia.

Lemma frame_header_round_trip h l : 0 ≤ fh_length h < 2 ^ 24 → 0 ≤ fh_type h < 256 → 0 ≤ fh_flags h < 256 →
  0 ≤ fh_streamId h < 2 ^ 31 → decode_frame_header (encode_frame_header h ++ l) = Some h.
Proof.
  destruct h as [n ty flags s]. cbn [fh_length fh_type fh_flags fh_streamId]. intros Hn Hty Hfl Hs.
  unfold decode_frame_header, encode_frame_header. cbn [fh_length fh_type fh_flags fh_streamId app length Nat.ltb Nat.leb kSize].
  unfold at_byte. cbn [nth]. rewrite !byte_of_mod, !land_255, land_low7, !Z.shiftr_div_pow2 by lia.
  change 2147483647 with (Z.ones 31). rewrite Z.land_ones by lia. unfold or_shifts.
  f_equal. f_equal; bytes_back.
Qed.

Lemma params_round_trip params : Forall param_ok params → decode_params (encode_settings params) = Some params.
Proof.
  induction 1 as [|[id v] params [Hid Hv] _ IH]; [done|]. cbn [fst snd] in *.
  change (encode_settings ((id, v) :: params)) with (encode_setting (id, v) ++ encode_settings params).
  unfold encode_setting. cbn [fst snd app decode_params]. rewrite IH. cbn [mbind option_bind mret option_ret].
  rewrite !byte_of_mod, !land_255, !Z.shiftr_div_pow2 by lia. unfold or_shifts.
  f_equal. f_equal. f_equal; bytes_back.
Qed.

Lemma settings_length params : length (encode_settings params) = (6 * length params)%nat.
Proof.
  induction params as [|p params IH]; [done|]. change (encode_settings (p :: params)) with (encode_setting p ++ encode_settings params).
  rewrite length_app, IH. cbn [length encode_setting]. lia.
Qed.

Lemma last_value_snoc id params p d :
  last_value id (params ++ [p]) d = if p.1 =? id then p.2 else last_value id params d.
Proof.
  unfold last_value. rewrite filter_app, filter_cons, filter_nil. destruct (Z.eqb_spec p.1 id).
  - by rewrite decide_True, last_snoc by done.
  - by rewrite decide_False, app_nil_r by done.
Qed.

Lemma apply_settings params c : foldl apply_setting c params = frame_effect c (FSettings params).
Proof.
  induction params as [|p params IH] using rev_ind; [by destruct c|]. rewrite foldl_app, IH. cbn [foldl frame_effect].
  rewrite !last_value_snoc. unfold apply_setting. cbn [h2_receivedPreface h2_settingsAcked h2_maxFrameSize h2_maxConcurrentStreams].
  destruct (Z.eqb_spec p.1 SETTINGS_MAX_FRAME_SIZE) as [Hf|Hf]; [by rewrite Hf|by destruct (p.1 =? SETTINGS_MAX_CONCURRENT_STREAMS)].
Qed.

Lemma handle_settings_frame params c h : Forall param_ok params → Z.land (fh_flags h) ACK = 0 →
  handleSettings h (encode_settings params) c = (frame_effect c (FSettings params), true).
Proof.
  intros Hp Hack. unfold handleSettings. rewrite Hack. cbn [Z.eqb negb].
  by rewrite params_round_trip, apply_settings by done.
Qed.

(** A whole frame at the head of the input. *)
Lemma frames_loop_cons fuel ty flags stream payload rest c :
  0 ≤ ty < 256 → 0 ≤ flags < 256 → 0 ≤ stream < 2 ^ 31 → Z.of_nat (length payload) < 2 ^ 24 →
  frames_loop (S fuel) (frame_bytes ty flags stream payload ++ rest) c =
    let h := mkFrame (Z.of_nat (length payload)) ty flags stream in
    if ty =? SETTINGS then
      let '(c, ok) := handleSettings h payload c in if ok then frames_loop fuel rest c else Some (c, false)
    else frames_loop fuel rest c.
Proof.
  intros Hty Hfl Hs Hlen. unfold frame_bytes. rewrite <-app_assoc. cbn [frames_loop].
  rewrite frame_header_round_trip by (cbn; lia). rewrite !length_app. cbn [fh_length fh_type].
  assert (length (encode_frame_header (mkFrame (Z.of_nat (length payload)) ty flags stream)) = kSize) as Hk by done.
  rewrite Hk, Nat2Z.id. destruct (Nat.ltb_spec (kSize + (length payload + length rest)) kSize); [lia|].
  destruct (Nat.ltb_spec (kSize + (length payload + length rest)) (kSize + length payload)); [lia|].
  rewrite drop_app_length' by done. rewrite take_app_length.
  replace (drop (kSize + length payload) _) with rest; [done|].
  rewrite <-drop_drop, drop_app_length' by done. by rewrite drop_app_length.
Qed.

Lemma frame_step fuel f rest c : h2_frame_ok f →
  frames_loop (S fuel) (encode_frame f ++ rest) c = frames_loop fuel rest (frame_effect c f).
Proof.
  destruct f as [params| |ty flags stream payload]; intros Hok; cbn [encode_frame].
  - destruct Hok as [Hp Hl]. rewrite frames_loop_cons by (rewrite ?settings_length; lia || done). cbv zeta.
    rewrite (handle_settings_frame params) by done. done.
  - by rewrite frames_loop_cons by (cbn; lia || done).
  - destruct Hok as ([Hty Hnot] & Hfl & Hs & Hl). rewrite frames_loop_cons by done. cbv zeta.
    by destruct (Z.eqb_spec ty SETTINGS).
Qed.

Lemma frames_step frames fuel rest c : Forall h2_frame_ok frames → (length frames ≤ fuel)%nat →
  frames_loop fuel ((frames ≫= encode_frame) ++ rest) c = frames_loop (fuel - length frames) rest (foldl frame_effect c frames).
Proof.
  intros Hok. revert fuel c. induction Hok as [|f frames Hf _ IH]; intros fuel c Hfuel; [cbn [length]; by rewrite Nat.sub_0_r|].
  cbn [length] in Hfuel. destruct fuel as [|fuel]; [lia|].
  change ((f :: frames) ≫= encode_frame) with (encode_frame f ++ (frames ≫= encode_frame)).
  rewrite <-app_assoc, frame_step by done. rewrite IH by lia. done.
Qed.

Lemma frame_length f : h2_frame_ok f → (kSize ≤ length (encode_frame f))%nat.
Proof. intros _. unfold kSize. destruct f; cbn [encode_frame]; unfold frame_bytes; rewrite length_app; cbn [encode_frame_header length]; lia. Qed.

Lemma frames_length frames : Forall h2_frame_ok frames → (length frames ≤ length (frames ≫= encode_frame))%nat.
Proof.
  induction 1 as [|f frames Hf _ IH]; [done|]. change ((f :: frames) ≫= encode_frame) with (encode_frame f ++ (frames ≫= encode_frame)).
  rewrite length_app. pose proof (frame_length f Hf) as Hl. unfold kSize in Hl. cbn [length]. lia.
Qed.

Lemma frames_loop_end fuel rest c : (length rest < kSize)%nat → frames_loop fuel rest c = Some (c, true).
Proof. intros Hr. destruct fuel; cbn [frames_loop]; by destruct (Nat.ltb_spec (length rest) kSize); [|lia]. Qed.

(** A frame whose header came and whose payload did not come whole. *)
Lemma frames_loop_cut fuel f n c : h2_frame_ok f → (kSize ≤ n < length (encode_frame f))%nat →
  frames_loop (S fuel) (take n (encode_frame f)) c = Some (c, false).
Proof.
  intros Hf Hn. assert (∃ ty flags stream payload, encode_frame f = frame_bytes ty flags stream payload ∧
    0 ≤ ty < 256 ∧ 0 ≤ flags < 256 ∧ 0 ≤ stream < 2 ^ 31 ∧ Z.of_nat (length payload) < 2 ^ 24) as (ty & flags & s & payload & Heq & Hty & Hfl & Hs & Hp).
  { destruct f as [params| |ty flags s payload]; eexists _, _, _, _; (split; [done|]).
    - destruct Hf as [_ Hl]. rewrite settings_length. repeat split; unfold SETTINGS, ACK; cbn [length]; lia.
    - repeat split; unfold SETTINGS, ACK; cbn [length]; lia.
    - destruct Hf as ([Hty _] & Hfl & Hs & Hl). done. }
  rewrite Heq in *. unfold frame_bytes in *.
  set (h := mkFrame (Z.of_nat (length payload)) ty flags s) in *.
  assert (length (encode_frame_header h) = kSize) as Hk by done. rewrite length_app, Hk in Hn.
  rewrite take_app, (take_ge (encode_frame_header h)) by lia. cbn [frames_loop].
  rewrite frame_header_round_trip by (cbn; lia). rewrite length_app, length_take, Hk.
  destruct (Nat.ltb_spec (kSize + (n - kSize) `min` length payload) kSize); [lia|]. cbn [h fh_length]. rewrite Nat2Z.id.
  by destruct (Nat.ltb_spec (kSize + (n - kSize) `min` length payload) (kSize + length payload)); [|lia].
Qed.

Lemma frames_loop_total fuel l c : (length l ≤ fuel)%nat → is_Some (frames_loop fuel l c).
Proof.
  revert l c. induction fuel as [|fuel IH]; intros l c Hl; cbn [frames_loop].
  - destruct (Nat.ltb_spec (length l) kSize) as [_|H]; [eauto|]. unfold kSize in H. lia.
  - destruct (Nat.ltb_spec (length l) kSize) as [_|H]; [eauto|]. destruct (decode_frame_header l); [|eauto].
    destruct (_ <? _)%nat; [eauto|]. unfold kSize in H.
    assert (∀ k, length (drop (kSize + k) l) ≤ fuel)%nat as Hd by (intros; rewrite length_drop; unfold kSize; lia).
    destruct (_ =? _); [|by apply IH]. destruct (handleSettings _ _ _) as [c' []]; [by apply IH|eauto].
Qed.

Definition with_preface (c : Http2Connection) : Http2Connection :=
  mkH2 true (h2_settingsAcked c) (h2_maxFrameSize c) (h2_maxConcurrentStreams c).

Lemma onFrame_preface l c : h2_receivedPreface c = false →
  onFrame (kConnectionPreface ++ l) c = frames_loop (length kConnectionPreface + length l) l (with_preface c).
Proof.
  intros Hc. unfold onFrame. rewrite Hc, length_app. cbv zeta.
  destruct (Nat.ltb_spec (length kConnectionPreface + length l) (length kConnectionPreface)); [lia|].
  rewrite take_app_length, drop_app_length, bool_decide_true by done. done.
Qed.

Lemma onFrame_total l c : is_Some (onFrame l c).
Proof.
  unfold onFrame. destruct (h2_receivedPreface c); [by apply frames_loop_total|]. cbv zeta.
  destruct (_ <? _)%nat; [eauto|]. destruct (negb _); [eauto|]. apply frames_loop_total. rewrite length_drop. lia.
Qed.

(** ** The decoder ends *)

(** What is left is not longer than [n]. *)
Definition leaves {A} (n : nat) (d : Decoded A) : Prop :=
  match d with Done _ rest => (length rest ≤ n)%nat | _ => True end.

Lemma leaves_and_then {A B} n (d : Decoded A) (f : A → Bytes → Decoded B) :
  leaves n d → (∀ a rest, (length rest ≤ n)%nat → leaves n (f a rest)) → leaves n (and_then d f).
Proof. destruct d; cbn; auto. Qed.

Lemma decode_groups_leaves m value l : leaves (length l) (decode_groups m value l).
Proof.
  revert m value. induction l as [|c l IH]; intros m value; cbn [decode_groups]; [cbn; lia|]. cbv zeta.
  destruct (_ || _); [exact I|]. destruct (_ =? 0); [cbn; lia|].
  specialize (IH (m + 7) (u32 (value + Z.land (byte_of c) 127 * 2 ^ m))). destruct (decode_groups _ _ _); cbn in *; lia.
Qed.

Lemma decodeInteger_leaves bits c l : leaves (length l) (decodeInteger bits (c :: l)).
Proof. unfold decodeInteger. cbv zeta. destruct (_ <? _); [cbn; lia|]. apply decode_groups_leaves. Qed.

Lemma decodeString_leaves n l : (length l ≤ n)%nat → leaves n (decodeStringLiteral l).
Proof.
  intros Hn. destruct l as [|c l]; [exact I|]. cbn [length] in Hn. unfold decodeStringLiteral. cbv zeta.
  pose proof (decodeInteger_leaves 7 c l) as Hi. destruct (decodeInteger 7 (c :: l)) as [k rest| |]; cbn [and_then leaves] in *; [|exact I..].
  destruct (_ <? _); [exact I|]. destruct (negb _); [exact I|]. cbn. rewrite length_drop. lia.
Qed.

Lemma decode_literal_leaves mask bits b l n : (length l ≤ n)%nat → leaves n (decode_literal mask bits b l).
Proof.
  intros Hn. unfold decode_literal. apply leaves_and_then.
  - destruct (_ =? 0).
    + apply leaves_and_then; [by apply decodeString_leaves|]. by intros.
    + apply leaves_and_then; [|intros idx rest Hr; by destruct (table_entry idx) as [[? ?]|]].
      destruct l as [|c l]; [exact I|]. pose proof (decodeInteger_leaves bits c l) as Hi. cbn [length] in Hn.
      destruct (decodeInteger bits (c :: l)); cbn in *; lia.
  - intros name rest Hr. apply leaves_and_then; [by apply decodeString_leaves|]. by intros.
Qed.

Lemma decode_header_leaves c l : leaves (length l) (decode_header (c :: l)).
Proof.
  unfold decode_header. cbv zeta. destruct (negb _).
  - apply leaves_and_then; [apply decodeInteger_leaves|]. by intros idx rest Hr; destruct (table_entry idx).
  - destruct (_ =? 64); [by apply decode_literal_leaves|]. destruct (_ || _); [by apply decode_literal_leaves|exact I].
Qed.

Lemma decode_loop_total fuel l headers : (length l ≤ fuel)%nat → is_Some (decode_loop fuel l headers).
Proof.
  revert l headers. induction fuel as [|fuel IH]; intros [|c l] headers Hl; cbn [length] in Hl; [by eexists|lia|by eexists|].
  cbn [decode_loop]. pose proof (decode_header_leaves c l) as Hd.
  destruct (decode_header (c :: l)) as [[n v] rest| |]; [|by eexists..]. cbn in Hd. apply IH. lia.
Qed.

(** ** A name taken from the table *)

(** Short strings go with their length in one byte. *)
Lemma short_string v : (length v < 127)%nat → encodeStringLiteral v = byte (Z.of_nat (length v)) :: v.
Proof.
  intros Hv. unfold encodeStringLiteral, encodeInteger. change (maxPrefix 7) with 127.
  replace (u32 (Z.of_nat (length v))) with (Z.of_nat (length v)) by (unfold u32; rewrite Z.mod_small; lia).
  destruct (Z.ltb_spec (Z.of_nat (length v)) 127); [|lia]. cbn [map_head app]. rewrite byte_of_byte by lia.
  by destruct (low_only (Z.of_nat (length v))) as [-> _]; [lia|].
Qed.

Lemma low_six n : 0 ≤ n < 63 → Z.land (64 + n) 128 = 0 ∧ Z.land (64 + n) 192 = 64 ∧ Z.land (64 + n) 63 = n ∧ Z.land n 63 = n.
Proof.
  intros Hn. pose (P := λ n, (Z.land (64 + n) 128 =? 0) && (Z.land (64 + n) 192 =? 64) && (Z.land (64 + n) 63 =? n) && (Z.land n 63 =? n)).
  assert (P n = true) as H; [|unfold P in H; lia].
  assert (forallb P (seqZ 0 63) = true) as Hall by by vm_compute.
  rewrite forallb_forall in Hall. apply Hall, list_elem_of_In, elem_of_seqZ. lia.
Qed.

(** The byte after the first, the length of the value, is taken for the index of the name. *)
Lemma indexed_name i v rest : 0 < i < 62 → (0 < length v < 62)%nat →
  decode_header (byte (64 + i) :: encodeStringLiteral v ++ rest) =
    match kStaticTable !! length v with
    | Some (n, _) => and_then (decodeStringLiteral (v ++ rest)) (λ x rest, Done (n, text x) rest)
    | None => Refused
    end.
Proof.
  intros Hi Hv. unfold decode_header. rewrite byte_of_byte by lia. destruct (low_six i) as (H1 & H2 & H3 & _); [lia|].
  rewrite H1, H2. cbn [Z.eqb negb]. unfold decode_literal. rewrite H3.
  destruct (Z.eqb_spec i 0); [lia|]. rewrite short_string by lia. cbn [app]. unfold decodeInteger at 1.
  destruct (low_six (Z.of_nat (length v))) as (_ & _ & _ & H4); [lia|].
  change (maxPrefix 6) with 63. rewrite byte_of_byte, H4 by lia. cbv zeta.
  destruct (Z.ltb_spec (Z.of_nat (length v)) 63); [|lia]. cbn [and_then]. unfold table_entry. change kStaticTableSize with 62.
  destruct (Z.eqb_spec (Z.of_nat (length v)) 0), (Z.leb_spec 62 (Z.of_nat (length v))); try lia. cbn [orb].
  rewrite Nat2Z.id. by destruct (kStaticTable !! length v) as [[? ?]|].
Qed.

Lemma indexed_name_alone i : 0 < i < 62 → decode_header [byte (64 + i)] = Undefined.
Proof.
  intros Hi. unfold decode_header. rewrite byte_of_byte by lia. destruct (low_six i) as (H1 & H2 & H3 & _); [lia|].
  rewrite H1, H2. cbn [Z.eqb negb]. unfold decode_literal. rewrite H3. by destruct (Z.eqb_spec i 0); [lia|].
Qed.

Lemma table_update i l : 32 ≤ i < 64 → decode_header (byte i :: l) = Refused.
Proof.
  intros Hi. pose (P := λ b, (Z.land b 128 =? 0) && negb (Z.land b 192 =? 64) && negb ((Z.land b 240 =? 0) || (Z.land b 240 =? 16))).
  assert (P i = true) as H.
  { assert (forallb P (seqZ 32 32) = true) as Hall by by vm_compute.
    rewrite forallb_forall in Hall. apply Hall, list_elem_of_In, elem_of_seqZ. lia. }
  unfold P in H. unfold decode_header. rewrite byte_of_byte by lia. cbv zeta.
  destruct (Z.land i 128 =? 0), (Z.land i 192 =? 64), ((Z.land i 240 =? 0) || (Z.land i 240 =? 16)); done.
Qed.

(** One byte holds the bit above the prefix and a value below the prefix's greatest. *)
Lemma top_bit_byte i l : 0 ≤ i < 127 →
  negb (Z.land (byte_of (byte (128 + i))) 128 =? 0) = true ∧ decodeInteger 7 (byte (128 + i) :: l) = Done i l.
Proof.
  intros Hi. destruct (low_high i) as (_ & Hlow & Hhigh); [lia|]. rewrite Z.add_comm. unfold decodeInteger.
  rewrite byte_of_byte by lia. change (maxPrefix 7) with 127. rewrite Hhigh, Hlow. split; [done|].
  cbv zeta. by destruct (Z.ltb_spec i 127); [|lia].
Qed.

Lemma outside_table i l : i = 0 ∨ 62 ≤ i < 127 → decode_header (byte (128 + i) :: l) = Refused.
Proof.
  intros Hi. destruct (top_bit_byte i l) as [Htop Hint]; [lia|]. unfold decode_header. rewrite Htop, Hint.
  cbn [and_then]. unfold table_entry. change kStaticTableSize with 62.
  by destruct (Z.eqb_spec i 0), (Z.leb_spec 62 i); try lia.
Qed.

Lemma huffman_refused i l : 0 ≤ i < 127 → decodeStringLiteral (byte (128 + i) :: l) = Refused.
Proof.
  intros Hi. destruct (top_bit_byte i l) as [Htop Hint]; [lia|]. unfold decodeStringLiteral. rewrite Htop, Hint.
  cbn [and_then]. by destruct (_ <? _).
Qed.

Definition local_params (c : Http2Connection) : Settings :=
  [(SETTINGS_MAX_CONCURRENT_STREAMS, h2_maxConcurrentStreams c); (SETTINGS_INITIAL_WINDOW_SIZE, 65535);
   (SETTINGS_MAX_FRAME_SIZE, h2_maxFrameSize c)].

Lemma local_settings c : sendLocalSettings c = encode_frame (FSettings (local_params c)).
Proof. done. Qed.

Lemma local_ok c : 0 ≤ h2_maxFrameSize c < 2 ^ 32 → 0 ≤ h2_maxConcurrentStreams c < 2 ^ 32 → Forall param_ok (local_params c).
Proof. intros H1 H2. unfold local_params. repeat constructor; cbn [fst snd]; unfold SETTINGS_MAX_CONCURRENT_STREAMS, SETTINGS_INITIAL_WINDOW_SIZE, SETTINGS_MAX_FRAME_SIZE; lia. Qed.
