(* ===== verification/Sentinel.v ===== *)
(** * Sentinels

    [SentinelManager] ([rpc/sentinel_manager.h], [sentinel_manager.cc]) and the handler of
    its requests ([rpc/sentinel_service.cc]).  What runs on the sentinel's thread is a
    [Prog]: sections under a lock, readings of the clock, draws, calls to other nodes and
    lines of the log, between which handlers may run.  A handler's section is a function of
    the manager. *)

From Stdlib Require Import Ascii.
From stdpp Require Import options.
From S2P Require Import Prelude.
From S2P Require Import CStd.

#[local] Set Default Proof Using "Type*".

(** ** Messages ([rpc/proto]) *)

Inductive NodeRole : Type := MASTER | REPLICA | SENTINEL.
#[global] Instance NodeRole_eq_dec : EqDecision NodeRole.
Proof. solve_decision. Defined.

Definition Endpoint : Type := string * Z.

Record HealthCheckResponse : Type := mkHealth {
  h_ok : bool;
  h_node_id : string;
  h_role : NodeRole;
  h_replication_id : string;
  h_replication_offset : Z;
  h_connected_replicas : Z
}.

Record NodeStatus : Type := mkStatus {
  st_node_id : string;
  st_role : NodeRole;
  st_replication_id : string;
  st_replication_offset : Z;
  st_connected_replicas : Z;
  st_master : Endpoint;
  st_master_link_status : Z
}.

(** The oneof of [RpcEnvelope], the cases sentinels and key-value nodes send or answer. *)
Inductive Request : Type :=
  | HealthCheckReq (caller_id : string)
  | ReplicaOfReq (master_host : string) (master_port term : Z)
  | GetNodeStatusReq
  | RequestVoteReq (term : Z) (candidate_id : string)
  | HeartbeatReq (term : Z) (leader_id : string) (current_master : option Endpoint)
  | GetMasterReq
  | WatchMasterReq.

Inductive Response : Type :=
  | HealthCheckResp (r : HealthCheckResponse)
  | ReplicaOfResp (accepted : bool) (error : string)
  | GetNodeStatusResp (r : NodeStatus)
  | RequestVoteResp (term : Z) (vote_granted : bool)
  | HeartbeatResp (term : Z) (success : bool)
  | GetMasterResp (master : option Endpoint) (term : Z)
  | NoResp.

(** ** The state *)

Inductive SentinelRole : Type := Follower | Candidate | Leader.
#[global] Instance SentinelRole_eq_dec : EqDecision SentinelRole.
Proof. solve_decision. Defined.

Record MasterInfo : Type := mkMaster { mi_valid : bool; mi_host : string; mi_port : Z; mi_nodeId : string }.

Record NodeState : Type := mkNode {
  ns_addr : string;
  ns_port : Z;
  ns_role : NodeRole;
  ns_replId : string;
  ns_replOffset : Z;
  ns_alive : bool;
  ns_failures : Z
}.

Definition set_ns_role (role : NodeRole) (n : NodeState) : NodeState :=
  mkNode (ns_addr n) (ns_port n) role (ns_replId n) (ns_replOffset n) (ns_alive n) (ns_failures n).
Definition set_ns_alive (alive : bool) (failures : Z) (n : NodeState) : NodeState :=
  mkNode (ns_addr n) (ns_port n) (ns_role n) (ns_replId n) (ns_replOffset n) alive failures.

(** Configuration, election state, tracked nodes, the two times of the thread. *)
Record SentinelManager : Type := mkSentinel {
  m_nodeId : string;
  m_sentinelPeers : list Endpoint;
  m_monitoredNodes : list Endpoint;
  m_currentTerm : Z;
  m_votedFor : string;
  m_role : SentinelRole;
  m_leaderId : string;
  m_electionTimeoutMs : Z;
  m_lastHeartbeatMs : Z;
  m_kvNodes : gmap string NodeState;
  m_currentMaster : MasterInfo;
  m_lastHbMs : Z;
  m_lastCheckMs : Z
}.

Definition set_election (term : Z) (voted : string) (role : SentinelRole) (s : SentinelManager) : SentinelManager :=
  mkSentinel (m_nodeId s) (m_sentinelPeers s) (m_monitoredNodes s) term voted role (m_leaderId s)
    (m_electionTimeoutMs s) (m_lastHeartbeatMs s) (m_kvNodes s) (m_currentMaster s) (m_lastHbMs s) (m_lastCheckMs s).
Definition set_leader (id : string) (s : SentinelManager) : SentinelManager :=
  mkSentinel (m_nodeId s) (m_sentinelPeers s) (m_monitoredNodes s) (m_currentTerm s) (m_votedFor s) (m_role s) id
    (m_electionTimeoutMs s) (m_lastHeartbeatMs s) (m_kvNodes s) (m_currentMaster s) (m_lastHbMs s) (m_lastCheckMs s).
Definition set_timeout (ms : Z) (s : SentinelManager) : SentinelManager :=
  mkSentinel (m_nodeId s) (m_sentinelPeers s) (m_monitoredNodes s) (m_currentTerm s) (m_votedFor s) (m_role s)
    (m_leaderId s) ms (m_lastHeartbeatMs s) (m_kvNodes s) (m_currentMaster s) (m_lastHbMs s) (m_lastCheckMs s).
Definition set_heartbeat (now : Z) (s : SentinelManager) : SentinelManager :=
  mkSentinel (m_nodeId s) (m_sentinelPeers s) (m_monitoredNodes s) (m_currentTerm s) (m_votedFor s) (m_role s)
    (m_leaderId s) (m_electionTimeoutMs s) now (m_kvNodes s) (m_currentMaster s) (m_lastHbMs s) (m_lastCheckMs s).
Definition set_nodes (nodes : gmap string NodeState) (s : SentinelManager) : SentinelManager :=
  mkSentinel (m_nodeId s) (m_sentinelPeers s) (m_monitoredNodes s) (m_currentTerm s) (m_votedFor s) (m_role s)
    (m_leaderId s) (m_electionTimeoutMs s) (m_lastHeartbeatMs s) nodes (m_currentMaster s) (m_lastHbMs s) (m_lastCheckMs s).
Definition set_current (master : MasterInfo) (s : SentinelManager) : SentinelManager :=
  mkSentinel (m_nodeId s) (m_sentinelPeers s) (m_monitoredNodes s) (m_currentTerm s) (m_votedFor s) (m_role s)
    (m_leaderId s) (m_electionTimeoutMs s) (m_lastHeartbeatMs s) (m_kvNodes s) master (m_lastHbMs s) (m_lastCheckMs s).
Definition set_last_hb (now : Z) (s : SentinelManager) : SentinelManager :=
  mkSentinel (m_nodeId s) (m_sentinelPeers s) (m_monitoredNodes s) (m_currentTerm s) (m_votedFor s) (m_role s)
    (m_leaderId s) (m_electionTimeoutMs s) (m_lastHeartbeatMs s) (m_kvNodes s) (m_currentMaster s) now (m_lastCheckMs s).
Definition set_last_check (now : Z) (s : SentinelManager) : SentinelManager :=
  mkSentinel (m_nodeId s) (m_sentinelPeers s) (m_monitoredNodes s) (m_currentTerm s) (m_votedFor s) (m_role s)
    (m_leaderId s) (m_electionTimeoutMs s) (m_lastHeartbeatMs s) (m_kvNodes s) (m_currentMaster s) (m_lastHbMs s) now.

Definition SentinelManager0 (timeout now : Z) : SentinelManager :=
  mkSentinel "" [] [] 0 "" Follower "" timeout now ∅ (mkMaster false "" 0 "") 0 0.

Definition kMaxHealthCheckFailures : Z := 3.
Definition kHealthCheckIntervalMs : Z := 1000.
Definition kElectionTimeoutMinMs : Z := 5000.
Definition kElectionTimeoutMaxMs : Z := 10000.
Definition kHeartbeatIntervalMs : Z := 2000.

(** ** Configuration *)

Definition node_key (e : Endpoint) : string := e.1 +:+ ":" +:+ to_string e.2.

Definition setNodeId (id : string) (s : SentinelManager) : SentinelManager :=
  mkSentinel id (m_sentinelPeers s) (m_monitoredNodes s) (m_currentTerm s) (m_votedFor s) (m_role s) (m_leaderId s)
    (m_electionTimeoutMs s) (m_lastHeartbeatMs s) (m_kvNodes s) (m_currentMaster s) (m_lastHbMs s) (m_lastCheckMs s).
Definition setSentinelPeers (peers : list Endpoint) (s : SentinelManager) : SentinelManager :=
  mkSentinel (m_nodeId s) peers (m_monitoredNodes s) (m_currentTerm s) (m_votedFor s) (m_role s) (m_leaderId s)
    (m_electionTimeoutMs s) (m_lastHeartbeatMs s) (m_kvNodes s) (m_currentMaster s) (m_lastHbMs s) (m_lastCheckMs s).
Definition setMonitoredNodes (nodes : list Endpoint) (s : SentinelManager) : SentinelManager :=
  mkSentinel (m_nodeId s) (m_sentinelPeers s) nodes (m_currentTerm s) (m_votedFor s) (m_role s) (m_leaderId s)
    (m_electionTimeoutMs s) (m_lastHeartbeatMs s)
    (foldl (λ kv n,
       match kv !! node_key n with
       | None => <[node_key n := mkNode n.1 n.2 MASTER "" 0 false 0]> kv
       | Some _ => kv
       end) (m_kvNodes s) nodes)
    (m_currentMaster s) (m_lastHbMs s) (m_lastCheckMs s).

(** ** Requests *)

Definition handleRequestVote (term : Z) (candidateId : string) (now : Z) (s : SentinelManager) : SentinelManager * bool :=
  if term <=? m_currentTerm s then (s, false)
  else if bool_decide (m_votedFor s = "") || bool_decide (m_votedFor s = candidateId)
  then (set_heartbeat now (set_election term candidateId Follower s), true)
  else (s, false).

Definition handleHeartbeat (term : Z) (leaderId : string) (currentMaster : option Endpoint) (now : Z)
    (s : SentinelManager) : SentinelManager * bool :=
  if term <? m_currentTerm s then (s, false)
  else
    let s := set_heartbeat now (set_leader leaderId (set_election term "" Follower s)) in
    (match currentMaster with
     | Some (host, port) =>
         if bool_decide (host = "") then s
         else set_current (mkMaster true host port (mi_nodeId (m_currentMaster s))) s
     | None => s
     end, true).

(** [currentMaster()] as an endpoint of the answer. *)
Definition master_endpoint (s : SentinelManager) : option Endpoint :=
  if mi_valid (m_currentMaster s) then Some (mi_host (m_currentMaster s), mi_port (m_currentMaster s)) else None.

(** [MakeSentinelHandler]: its first section; the term of the answer is read in a section
    of its own, from what the manager is by then. *)
Definition sentinel_section (req : Request) (now : Z) (s : SentinelManager) : SentinelManager * (bool * option Endpoint) :=
  match req with
  | RequestVoteReq term id => let '(s, granted) := handleRequestVote term id now s in (s, (granted, None))
  | HeartbeatReq term id master => let '(s, success) := handleHeartbeat term id master now s in (s, (success, None))
  | GetMasterReq | WatchMasterReq => (s, (false, master_endpoint s))
  | _ => (s, (false, None))
  end.
Definition sentinel_answer (req : Request) (done : bool * option Endpoint) (s : SentinelManager) : Response :=
  match req with
  | RequestVoteReq _ _ => RequestVoteResp (m_currentTerm s) done.1
  | HeartbeatReq _ _ _ => HeartbeatResp (m_currentTerm s) done.1
  | GetMasterReq | WatchMasterReq => GetMasterResp done.2 (m_currentTerm s)
  | _ => NoResp
  end.

(** ** The sentinel's thread

    A step is a section under a lock, a reading of the clock, a draw of
    [randomTimeoutMs], a call to another node ([None] when there is no channel, no answer in
    time, or an answer of another kind than the caller reads), or a line of the log.  The
    draws and readings the code makes under a lock come just before the section. *)

Inductive LogLine : Type :=
  | BecameCandidate (term : Z)
  | WonElection (term : Z)
  | BecameLeader (term : Z)
  | MasterDown (key : string)
  | NoSuitableReplica
  | BadReplicaAddr (best : string)
  | CannotPromote (best : string)
  | FailoverComplete (best : string).

Inductive Prog (A : Type) : Type :=
  | Done (a : A)
  | Locked {X : Type} (section : SentinelManager → SentinelManager * X) (k : X → Prog A)
  | Now (k : Z → Prog A)
  | RandomTimeout (k : Z → Prog A)
  | Call (to : Endpoint) (req : Request) (k : option Response → Prog A)
  | Log (line : LogLine) (k : Prog A).
Arguments Done {A} _.
Arguments Locked {A X} _ _.
Arguments Now {A} _.
Arguments RandomTimeout {A} _.
Arguments Call {A} _ _ _.
Arguments Log {A} _ _.

Fixpoint prog_bind {A B} (k : A → Prog B) (p : Prog A) : Prog B :=
  match p with
  | Done a => k a
  | Locked f c => Locked f (λ x, prog_bind k (c x))
  | Now c => Now (λ t, prog_bind k (c t))
  | RandomTimeout c => RandomTimeout (λ t, prog_bind k (c t))
  | Call to req c => Call to req (λ r, prog_bind k (c r))
  | Log line c => Log line (prog_bind k c)
  end.
#[global] Instance Prog_ret : MRet Prog := λ A a, Done a.
#[global] Instance Prog_bind : MBind Prog := λ A B k p, prog_bind k p.

Definition locked {X} (f : SentinelManager → SentinelManager * X) : Prog X := Locked f Done.
Definition under_lock (f : SentinelManager → SentinelManager) : Prog unit := locked (λ s, (f s, tt)).
Definition read_state {X} (f : SentinelManager → X) : Prog X := locked (λ s, (s, f s)).
Definition nowMs : Prog Z := Now Done.
Definition randomTimeoutMs : Prog Z := RandomTimeout Done.
Definition call (to : Endpoint) (req : Request) : Prog (option Response) := Call to req Done.
Definition log (line : LogLine) : Prog unit := Log line (Done tt).

Definition becomeFollower (newTerm : Z) : Prog unit :=
  timeout ← randomTimeoutMs; now ← nowMs;
  under_lock (λ s, set_heartbeat now (set_timeout timeout
    (set_election (Z.max (m_currentTerm s) newTerm) "" Follower s))).

Definition becomeCandidate : Prog unit :=
  myId ← read_state m_nodeId;
  timeout ← randomTimeoutMs;
  term ← locked (λ s,
    let term := u64 (m_currentTerm s + 1) in
    (set_timeout timeout (set_election term myId Candidate s), term));
  log (BecameCandidate term).

Definition becomeLeader : Prog unit :=
  myId ← read_state m_nodeId;
  term ← locked (λ s,
    (set_nodes (set_ns_alive false 0 <$> m_kvNodes s)
       (set_leader myId (set_election (m_currentTerm s) (m_votedFor s) Leader s)), m_currentTerm s));
  log (BecameLeader term).

Definition isQuorum (votes : Z) : Prog bool :=
  read_state (λ s, (1 + Z.of_nat (length (m_sentinelPeers s))) `quot` 2 + 1 <=? votes).

Definition sendRequestVote (peer : Endpoint) (term : Z) (candidateId : string) : Prog (option (Z * bool)) :=
  r ← call peer (RequestVoteReq term candidateId);
  mret (match r with Some (RequestVoteResp t granted) => Some (t, granted) | _ => None end).

(** The quorum section of [startElection]. *)
Definition win (term : Z) : Prog unit :=
  under_lock (λ s,
    if bool_decide (m_role s = Candidate) && (m_currentTerm s =? term)
    then set_election (m_currentTerm s) (m_votedFor s) Leader s else s).

Fixpoint election_loop (term : Z) (myId : string) (votes : Z) (peers : list Endpoint) : Prog unit :=
  match peers with
  | [] => mret tt
  | peer :: peers =>
      r ← sendRequestVote peer term myId;
      match r with
      | Some (peerTerm, false) =>
          if term <? peerTerm then becomeFollower peerTerm
          else
            q ← isQuorum votes;
            if q : bool then win term else election_loop term myId votes peers
      | Some (_, true) =>
          q ← isQuorum (votes + 1);
          if q : bool then win term else election_loop term myId (votes + 1) peers
      | None =>
          q ← isQuorum votes;
          if q : bool then win term else election_loop term myId votes peers
      end
  end.

Definition startElection : Prog unit :=
  term ← read_state m_currentTerm;
  c ← read_state (λ s, (m_nodeId s, m_sentinelPeers s));
  election_loop term c.1 1 c.2.

Definition sendHeartbeatTo (peer : Endpoint) : Prog bool :=
  c ← read_state (λ s, (m_currentMaster s, m_currentTerm s));
  myId ← read_state m_nodeId;
  r ← call peer (HeartbeatReq c.2 myId
        (if mi_valid c.1 then Some (mi_host c.1, mi_port c.1) else None));
  match r with
  | Some (HeartbeatResp peerTerm _) =>
      (if c.2 <? peerTerm then becomeFollower peerTerm else mret tt) ≫= λ _, mret true
  | _ => mret false
  end.

Fixpoint for_each (f : Endpoint → Prog unit) (l : list Endpoint) : Prog unit :=
  match l with
  | [] => mret tt
  | e :: l => f e ≫= λ _, for_each f l
  end.

Definition sendHeartbeats : Prog unit :=
  now ← nowMs;
  last ← read_state m_lastHbMs;
  if u64 (now - last) <? kHeartbeatIntervalMs then mret tt
  else
    _ ← under_lock (set_last_hb now);
    peers ← read_state m_sentinelPeers;
    for_each (λ peer, _ ← sendHeartbeatTo peer; mret tt) peers.

(** ** Health checks and failover *)

Definition sendHealthCheck (node : Endpoint) : Prog (option HealthCheckResponse) :=
  myId ← read_state m_nodeId;
  r ← call node (HealthCheckReq myId);
  mret (match r with Some (HealthCheckResp h) => Some h | _ => None end).

Definition sendReplicaOf (node : Endpoint) (masterHost : string) (masterPort term : Z) : Prog bool :=
  r ← call node (ReplicaOfReq masterHost masterPort term);
  mret (match r with Some (ReplicaOfResp accepted _) => accepted | _ => false end).

(** What follows the first colon is the port. *)
Definition parseAddr (s : string) : option Endpoint :=
  match find_char ":"%char s with
  | Some colon =>
      port ← stoi (str_drop (S colon) s);
      Some (String.substring 0 colon s, port)
  | None => None
  end.

Section selection.
Context `{impl : !StdImpl}.

(** One loop of [selectBestReplica] over the nodes that [fits]. *)
Definition best_step (fits : NodeState → bool) (best : string * Z) (kv : string * NodeState) : string * Z :=
  if ns_alive kv.2 && fits kv.2 && (best.2 <? ns_replOffset kv.2) then (kv.1, ns_replOffset kv.2) else best.
Definition best_of (fits : NodeState → bool) (best : string * Z) (nodes : gmap string NodeState) : string * Z :=
  foldl (best_step fits) best (hash_iter nodes).

Definition is_role (role : NodeRole) (n : NodeState) : bool := bool_decide (ns_role n = role).

Definition selectBestReplica (s : SentinelManager) : string :=
  let best := best_of (is_role REPLICA) ("", -1) (m_kvNodes s) in
  if bool_decide (best.1 = "") then (best_of (negb ∘ is_role MASTER) best (m_kvNodes s)).1 else best.1.

(** The last section of [handleFailover]. *)
Definition failover_done (failedMasterId best : string) (e : Endpoint) (s : SentinelManager) : SentinelManager :=
  set_nodes (alter (set_ns_role MASTER) best (alter (set_ns_role REPLICA) failedMasterId (m_kvNodes s)))
    (set_current (mkMaster true e.1 e.2 best) s).

Definition handleFailover (failedMasterId : string) : Prog unit :=
  best ← read_state selectBestReplica;
  if bool_decide (best = "") then log NoSuitableReplica
  else
    match parseAddr best with
    | None => log (BadReplicaAddr best)
    | Some e =>
        term ← read_state m_currentTerm;
        ok ← sendReplicaOf e "" 0 term;
        if negb ok then log (CannotPromote best)
        else
          allNodes ← read_state m_monitoredNodes;
          _ ← for_each (λ node,
                if bool_decide (node_key node = best) || bool_decide (node_key node = failedMasterId) then mret tt
                else _ ← sendReplicaOf node e.1 e.2 term; mret tt) allNodes;
          _ ← under_lock (failover_done failedMasterId best e);
          log (FailoverComplete best)
    end.

(** The section of [checkKVNodes] after a health check; whether a failover is due. *)
Definition record_check (node : Endpoint) (resp : option HealthCheckResponse) (s : SentinelManager)
  : SentinelManager * bool :=
  let key := node_key node in
  match m_kvNodes s !! key, resp with
  | None, Some h =>
      (set_nodes (<[key := mkNode node.1 node.2 (h_role h) (h_replication_id h) (h_replication_offset h) true 0]>
         (m_kvNodes s)) s, false)
  | None, None => (set_nodes (<[key := mkNode node.1 node.2 MASTER "" 0 false 1]> (m_kvNodes s)) s, false)
  | Some n, Some h =>
      let s := set_nodes (<[key := mkNode (ns_addr n) (ns_port n) (h_role h) (h_replication_id h)
                                     (h_replication_offset h) true 0]> (m_kvNodes s)) s in
      (if bool_decide (h_role h = MASTER) then set_current (mkMaster true node.1 node.2 (h_node_id h)) s else s, false)
  | Some n, None =>
      let failures := ns_failures n + 1 in
      (set_nodes (<[key := set_ns_alive false failures n]> (m_kvNodes s)) s,
       bool_decide (ns_role n = MASTER) && (kMaxHealthCheckFailures <=? failures))
  end.

Fixpoint check_loop (nodes : list Endpoint) : Prog unit :=
  match nodes with
  | [] => mret tt
  | node :: nodes =>
      resp ← sendHealthCheck node;
      down ← locked (record_check node resp);
      if down : bool
      then _ ← log (MasterDown (node_key node)); handleFailover (node_key node)
      else check_loop nodes
  end.

Definition checkKVNodes : Prog unit :=
  now ← nowMs;
  last ← read_state m_lastCheckMs;
  if u64 (now - last) <? kHealthCheckIntervalMs then mret tt
  else
    _ ← under_lock (set_last_check now);
    nodes ← read_state m_monitoredNodes;
    check_loop nodes.

(** One turn of the loop of [runLoop]. *)
Definition election_turn : Prog unit :=
  _ ← startElection;
  timeout ← randomTimeoutMs;
  won ← locked (λ s,
    if bool_decide (m_role s = Leader) then (s, Some (m_currentTerm s))
    else (set_timeout timeout (set_election (m_currentTerm s) (m_votedFor s) Follower s), None));
  match won with
  | Some term => _ ← log (WonElection term); becomeLeader
  | None => mret tt
  end.

Definition runLoop_turn : Prog unit :=
  now ← nowMs;
  c ← read_state (λ s, (m_role s, m_lastHeartbeatMs s));
  match c.1 with
  | Follower =>
      timeout ← read_state m_electionTimeoutMs;
      if timeout <? u64 (now - c.2) then becomeCandidate else mret tt
  | Candidate => election_turn
  | Leader => _ ← sendHeartbeats; checkKVNodes
  end.
End selection.
