(* ===== verification/Election.v ===== *)
(** * Elections among sentinels

    A system of sentinels: what each one's manager and thread are, the requests sent, the
    requests handled and the answers given, the lines logged.  A request that was sent may
    be handled at any time, any number of times or never, and its answer may be lost.  The
    threads and the handlers interleave section by section.

    Elections are shown safe by rely-guarantee reasoning: [wp] runs a thread's program with
    what the handlers of the same sentinel may do between its sections. *)

From stdpp Require Import functions.
From stdpp Require Import options.
From S2P Require Import Prelude.
From S2P Require Import CStd.
From S2P Require Import Sentinel.

#[local] Set Default Proof Using "Type*".

Section system.
Context `{impl : !StdImpl} {node : Type} `{EqDecision node}.

(** The sentinels, their identifiers and peers, and who is at an address. *)
Context (all : list node) (ids : node → string) (peers : node → list Endpoint) (addr : Endpoint → option node).

Record System : Type := mkSystem {
  sys_state : node → SentinelManager;
  sys_thread : node → Prog unit;
  sys_sent : list (Endpoint * Request);
  sys_handled : list (node * Request * (bool * option Endpoint));
  sys_replies : list (node * Request * Response);
  sys_log : list (node * LogLine)
}.

Definition put_state (i : node) (s : SentinelManager) (y : System) : System :=
  mkSystem (<[i := s]> (sys_state y)) (sys_thread y) (sys_sent y) (sys_handled y) (sys_replies y) (sys_log y).
Definition put_thread (i : node) (p : Prog unit) (y : System) : System :=
  mkSystem (sys_state y) (<[i := p]> (sys_thread y)) (sys_sent y) (sys_handled y) (sys_replies y) (sys_log y).
Definition put_sent (m : Endpoint * Request) (y : System) : System :=
  mkSystem (sys_state y) (sys_thread y) (m :: sys_sent y) (sys_handled y) (sys_replies y) (sys_log y).
Definition put_handled (m : node * Request * (bool * option Endpoint)) (y : System) : System :=
  mkSystem (sys_state y) (sys_thread y) (sys_sent y) (m :: sys_handled y) (sys_replies y) (sys_log y).
Definition put_reply (m : node * Request * Response) (y : System) : System :=
  mkSystem (sys_state y) (sys_thread y) (sys_sent y) (sys_handled y) (m :: sys_replies y) (sys_log y).
Definition put_log (m : node * LogLine) (y : System) : System :=
  mkSystem (sys_state y) (sys_thread y) (sys_sent y) (sys_handled y) (sys_replies y) (m :: sys_log y).

(** Who can answer a call: the sentinel at the address, with an answer to that request;
    what is at other addresses, in any way. *)
Definition answers (y : System) (to : Endpoint) (req : Request) (r : Response) : Prop :=
  match addr to with Some j => (j, req, r) ∈ sys_replies y | None => True end.

Inductive sys_step : System → System → Prop :=
| step_turn y i : sys_thread y i = Done tt → sys_step y (put_thread i runLoop_turn y)
| step_locked y i X (f : SentinelManager → SentinelManager * X) k : sys_thread y i = Locked f k →
    sys_step y (put_thread i (k (f (sys_state y i)).2) (put_state i (f (sys_state y i)).1 y))
| step_now y i k t : sys_thread y i = Now k → sys_step y (put_thread i (k t) y)
| step_random y i k t : sys_thread y i = RandomTimeout k →
    kElectionTimeoutMinMs ≤ t ≤ kElectionTimeoutMaxMs → sys_step y (put_thread i (k t) y)
| step_send y i to req k : sys_thread y i = Call to req k → sys_step y (put_sent (to, req) y)
| step_fail y i to req k : sys_thread y i = Call to req k → sys_step y (put_thread i (k None) y)
| step_return y i to req k r : sys_thread y i = Call to req k → answers y to req r →
    sys_step y (put_thread i (k (Some r)) y)
| step_log y i line k : sys_thread y i = Log line k → sys_step y (put_log (i, line) (put_thread i k y))
| step_handle y j to req now : (to, req) ∈ sys_sent y → addr to = Some j →
    sys_step y (put_handled (j, req, (sentinel_section req now (sys_state y j)).2)
                  (put_state j (sentinel_section req now (sys_state y j)).1 y))
| step_answer y j req done : (j, req, done) ∈ sys_handled y →
    sys_step y (put_reply (j, req, sentinel_answer req done (sys_state y j)) y).

(** Every sentinel starts as it is configured, and its term as zero. *)
Definition sys_start (y : System) : Prop :=
  (∀ i, m_nodeId (sys_state y i) = ids i ∧ m_sentinelPeers (sys_state y i) = peers i ∧
        m_currentTerm (sys_state y i) = 0 ∧ m_role (sys_state y i) = Follower ∧ sys_thread y i = Done tt) ∧
  sys_sent y = [] ∧ sys_handled y = [] ∧ sys_replies y = [] ∧ sys_log y = [].

(** Terms stay below [2 ^ 64 - 1]. *)
Definition terms_fit (y : System) : Prop := ∀ i, m_currentTerm (sys_state y i) < UINT64_MAX.

Inductive sys_reach : System → Prop :=
| reach_start y : sys_start y → sys_reach y
| reach_next y y' : sys_reach y → sys_step y y' → terms_fit y' → sys_reach y'.

(** Each sentinel has the others as its peers. *)
Definition well_configured : Prop :=
  NoDup all ∧ (∀ i j, ids i = ids j → i = j) ∧
  ∀ i, ∃ js, addr <$> peers i = Some <$> js ∧ i :: js ≡ₚ all.

(** ** Votes *)

Definition given (y : System) (j : node) (t : Z) (c : string) : Prop :=
  ∃ x, (j, RequestVoteReq t c, (true, x)) ∈ sys_handled y.

(** What a sentinel's thread knows: its manager, and the votes given in the system. *)
Record View : Type := mkView { v_state : SentinelManager; v_given : node → Z → string → Prop }.
#[local] Abbreviation term v := (m_currentTerm (v_state v)).
#[local] Abbreviation role v := (m_role (v_state v)).

Section thread.
Context (i : node).

Definition config_ok (s : SentinelManager) : Prop := m_nodeId s = ids i ∧ m_sentinelPeers s = peers i.

(** A candidate has voted for nobody else in its term. *)
Definition view_ok (v : View) : Prop :=
  config_ok (v_state v) ∧ 0 ≤ term v < UINT64_MAX ∧ (role v = Candidate → ∀ c, ¬ v_given v i (term v) c).

(** What may happen between two sections of the thread. *)
Record rely (v v' : View) : Prop := {
  rely_given j t c : v_given v j t c → v_given v' j t c;
  rely_own t c : v_given v' i t c → v_given v i t c ∨ term v < t;
  rely_term : term v ≤ term v';
  rely_role : (role v' = role v ∧ term v' = term v) ∨ role v' = Follower
}.

(** What a section of the thread may do. *)
Definition section_ok (s s' : SentinelManager) : Prop :=
  config_ok s' ∧ m_currentTerm s ≤ m_currentTerm s' ∧
  (m_role s' = Candidate → (m_role s = Candidate ∧ m_currentTerm s' = m_currentTerm s) ∨ m_currentTerm s < m_currentTerm s').

(** [i] has the votes of a majority in the term [t], its own included. *)
Definition elected (v : View) (t : Z) : Prop :=
  t ≤ term v ∧ (∀ c, ¬ v_given v i t c) ∧
  ∃ Q, NoDup Q ∧ i ∈ Q ∧ Q ⊆ all ∧ (length all < 2 * length Q)%nat ∧
    ∀ j, j ∈ Q → j ≠ i → v_given v j t (ids i).

Definition log_ok (v : View) (line : LogLine) : Prop :=
  match line with WonElection t => elected v t | _ => True end.

(** A vote in an answer was given. *)
Definition answer_ok (v : View) (to : Endpoint) (req : Request) (r : Response) : Prop :=
  ∀ j t c pt, addr to = Some j → req = RequestVoteReq t c → r = RequestVoteResp pt true → v_given v j t c.

Fixpoint wp {A} (p : Prog A) (Q : A → View → Prop) (v : View) : Prop :=
  match p with
  | Done a => Q a v
  | Locked f k => ∀ v', rely v v' → view_ok v' →
      section_ok (v_state v') (f (v_state v')).1 ∧
      wp (k (f (v_state v')).2) Q (mkView (f (v_state v')).1 (v_given v'))
  | Now k | RandomTimeout k => ∀ t, wp (k t) Q v
  | Call to req k => ∀ v', rely v v' →
      wp (k None) Q v' ∧ (∀ r, answer_ok v' to req r → wp (k (Some r)) Q v')
  | Log line k => ∀ v', rely v v' → log_ok v' line ∧ wp k Q v'
  end.

#[global] Instance rely_preorder : PreOrder rely.
Proof.
  split.
  - intros v. split; [done|by left|lia|by left].
  - intros v1 v2 v3 [G1 O1 T1 R1] [G2 O2 T2 R2]. split.
    + auto.
    + intros t c H. apply O2 in H as [H|H]; [apply O1 in H as [H|H]; [by left|by right]|right; lia].
    + lia.
    + destruct R2 as [[R2 E2]|R2]; [|by right]. rewrite R2, E2. destruct R1 as [[R1 E1]|R1]; [by left|by right].
Qed.

Definition stable (P : View → Prop) : Prop := ∀ v v', rely v v' → P v → P v'.

Lemma wp_stable {A} (p : Prog A) Q v v' : (∀ a, stable (Q a)) → rely v v' → wp p Q v → wp p Q v'.
Proof.
  intros HQ. revert v v'. induction p as [a|X f k IH|k IH|k IH|to req k IH|line k IH]; intros v v' Hr; simpl.
  - by apply HQ.
  - intros H v2 Hr2. apply H. by etrans.
  - intros H t. eapply IH; [done|apply H].
  - intros H t. eapply IH; [done|apply H].
  - intros H v2 Hr2. apply H. by etrans.
  - intros H v2 Hr2. apply H. by etrans.
Qed.

Lemma wp_mono {A} (p : Prog A) Q Q' v : (∀ a v, Q a v → Q' a v) → wp p Q v → wp p Q' v.
Proof.
  intros HQ. revert v. induction p as [a|X f k IH|k IH|k IH|to req k IH|line k IH]; intros v; simpl.
  - apply HQ.
  - intros H v2 Hr2 Hok. destruct (H v2 Hr2 Hok) as [H1 H2]. split; [done|]. by apply IH.
  - intros H t. by apply IH.
  - intros H t. by apply IH.
  - intros H v2 Hr2. destruct (H v2 Hr2) as [H1 H2]. split; [by apply IH|]. intros r Hr. by apply IH, H2.
  - intros H v2 Hr2. destruct (H v2 Hr2) as [H1 H2]. split; [done|]. by apply IH.
Qed.

Lemma wp_bind {A B} (p : Prog A) (k : A → Prog B) Q v :
  wp p (λ a, wp (k a) Q) v → wp (p ≫= k) Q v.
Proof.
  unfold mbind, Prog_bind. revert v. induction p as [a|X f c IH|c IH|c IH|to req c IH|line c IH]; intros v; simpl.
  - done.
  - intros H v2 Hr2 Hok. destruct (H v2 Hr2 Hok) as [H1 H2]. split; [done|]. by apply IH.
  - intros H t. by apply IH.
  - intros H t. by apply IH.
  - intros H v2 Hr2. destruct (H v2 Hr2) as [H1 H2]. split; [by apply IH|]. intros r Hr. by apply IH, H2.
  - intros H v2 Hr2. destruct (H v2 Hr2) as [H1 H2]. split; [done|]. by apply IH.
Qed.

(** *** The sentinel's thread *)

(** A section that touches neither the configuration nor term and role. *)
Definition idle (f : SentinelManager → SentinelManager) : Prop := ∀ s,
  m_nodeId (f s) = m_nodeId s ∧ m_sentinelPeers (f s) = m_sentinelPeers s ∧
  m_currentTerm (f s) = m_currentTerm s ∧ m_role (f s) = m_role s.

Lemma idle_section f s : idle f → config_ok s → section_ok s (f s).
Proof.
  intros Hf [Hi Hp]. destruct (Hf s) as (H1 & H2 & H3 & H4). unfold section_ok, config_ok.
  rewrite H1, H2, H3, H4. split_and!; [done..|lia|]. intros H. by left.
Qed.

Lemma wp_read {X} (f : SentinelManager → X) (Q : X → View → Prop) v :
  (∀ v', rely v v' → view_ok v' → Q (f (v_state v')) v') → wp (read_state f) Q v.
Proof.
  intros H v' Hr Hok. split; [by apply (idle_section id); [|apply Hok]|]. destruct v'. by apply H.
Qed.

Lemma wp_lock f (Q : unit → View → Prop) v :
  (∀ v', rely v v' → view_ok v' → section_ok (v_state v') (f (v_state v')) ∧
     Q tt (mkView (f (v_state v')) (v_given v'))) → wp (under_lock f) Q v.
Proof. intros H v' Hr Hok. by apply H. Qed.

(** A program that is safe whatever it starts from. *)
Definition quiet {A} (p : Prog A) : Prop := ∀ v, wp p (λ _ _, True) v.

Lemma quiet_ret {A} (a : A) : quiet (mret a).
Proof. done. Qed.

Lemma quiet_bind {A B} (p : Prog A) (k : A → Prog B) : quiet p → (∀ a, quiet (k a)) → quiet (p ≫= k).
Proof. intros Hp Hk v. apply wp_bind. eapply wp_mono; [|apply Hp]. intros a v' _. apply Hk. Qed.

Lemma quiet_read {X} (f : SentinelManager → X) : quiet (read_state f).
Proof. intros v. by apply wp_read. Qed.

Lemma quiet_idle f : idle f → quiet (under_lock f).
Proof. intros Hf v. apply wp_lock. intros v' _ Hok. split; [|done]. apply idle_section; [done|apply Hok]. Qed.

Lemma quiet_call to req : quiet (call to req).
Proof. by intros v v' _. Qed.

Lemma quiet_log line : (∀ t, line ≠ WonElection t) → quiet (log line).
Proof. intros H v v' _. split; [|done]. destruct line as [|t| | | | | |]; try done. by destruct (H t). Qed.

Lemma quiet_now : quiet nowMs.
Proof. by intros v t. Qed.

Lemma quiet_random : quiet randomTimeoutMs.
Proof. by intros v t. Qed.

Lemma quiet_for_each f l : (∀ e, quiet (f e)) → quiet (for_each f l).
Proof. intros Hf. induction l as [|e l IH]; [by apply quiet_ret|]. apply quiet_bind; [apply Hf|done]. Qed.

(** What the thread knows when it is, or may be, a candidate. *)
Definition no_usurper (v : View) : Prop := role v = Leader → elected v (term v).

Lemma given_none_stable v v' t : rely v v' → t ≤ term v → (∀ c, ¬ v_given v i t c) → ∀ c, ¬ v_given v' i t c.
Proof. intros [_ Ho _ _] Ht Hn c Hc. apply Ho in Hc as [Hc|Hc]; [by eapply Hn|lia]. Qed.

Lemma elected_stable t : stable (λ v, elected v t).
Proof.
  intros v v' Hr (Ht & Hn & Q & Hnd & Hi & Hall & Hmaj & Hg). split; [destruct Hr; lia|].
  split; [by eapply given_none_stable|]. exists Q. split_and!; [done..|].
  intros j Hj Hne. apply (rely_given _ _ Hr). by apply Hg.
Qed.

Lemma no_usurper_stable : stable no_usurper.
Proof.
  intros v v' Hr Hv Hl. pose proof Hr as [_ _ _ [[Hrole Ht]|Hrole]]; [|congruence].
  rewrite Ht. eapply elected_stable; [done|]. apply Hv. congruence.
Qed.

Lemma wp_becomeFollower t (v : View) : wp (becomeFollower t) (λ _ v, role v = Follower) v.
Proof.
  apply wp_bind. intros timeout. apply wp_bind. intros now. apply wp_lock. intros v' _ Hok.
  split; [|done]. destruct Hok as ([Hi Hp] & Ht & _). split_and!; simpl; [by split|lia|done].
Qed.

Lemma quiet_becomeFollower t : quiet (becomeFollower t).
Proof. intros v. eapply wp_mono; [|apply wp_becomeFollower]. done. Qed.

Lemma quiet_becomeCandidate : quiet becomeCandidate.
Proof.
  apply quiet_bind; [apply quiet_read|]. intros id. apply quiet_bind; [apply quiet_random|]. intros timeout.
  apply quiet_bind; [|intros t; by apply quiet_log].
  intros v v' _ ([Hi Hp] & Ht & _). split; [|done].
  assert (u64 (term v' + 1) = term v' + 1) as E by (apply u64_id; unfold in_u64; lia).
  split_and!; simpl; [by split|lia|]. intros _. right. lia.
Qed.

Lemma quiet_becomeLeader : quiet becomeLeader.
Proof.
  apply quiet_bind; [apply quiet_read|]. intros id. apply quiet_bind; [|intros t; by apply quiet_log].
  intros v v' _ ([Hi Hp] & Ht & _). split; [|done]. split_and!; simpl; [by split|lia|done].
Qed.

(** The voters counted so far, with the thread's sentinel first. *)
Definition counted (t : Z) (Q js : list node) (v : View) : Prop :=
  NoDup (Q ++ js) ∧ Q ++ js ⊆ all ∧ i ∈ Q ∧ ∀ j, j ∈ Q → j ≠ i → v_given v j t (ids i).

Lemma counted_stable t Q js : stable (counted t Q js).
Proof. intros v v' Hr (H1 & H2 & H3 & H4). split_and!; [done..|]. intros j Hj Hne. apply (rely_given _ _ Hr). by apply H4. Qed.

Lemma wp_win t Q js v : no_usurper v → counted t Q js v → (length all < 2 * length Q)%nat →
  wp (win t) (λ _, no_usurper) v.
Proof.
  intros Hb Hc Hmaj. apply wp_lock. intros v' Hr Hok.
  pose proof (no_usurper_stable _ _ Hr Hb) as Hb'. pose proof (counted_stable _ _ _ _ _ Hr Hc) as (Hnd & Hperm & Hi & Hg).
  destruct Hok as (Hcfg & Ht & Hcand).
  destruct (bool_decide_reflect (m_role (v_state v') = Candidate)) as [Hrole|Hrole]; simpl;
    [destruct (Z.eqb_spec (m_currentTerm (v_state v')) t) as [Heq|Hne]|].
  2,3: split; [by apply (idle_section id)|by destruct v'].
  split; [by split_and!; simpl; [apply Hcfg|lia|]|].
  intros _. split; [simpl; lia|]. simpl. split; [by apply Hcand|]. exists Q. rewrite Heq.
  apply NoDup_app in Hnd as (HQ & _ & _). split_and!; [done|done| |done|done].
  intros j Hj. apply Hperm, elem_of_app. by left.
Qed.

Lemma quorum_majority n votes : (1 + Z.of_nat n) `quot` 2 + 1 <= Z.of_nat votes → (1 + n < 2 * votes)%nat.
Proof. intros H. rewrite Z.quot_div_nonneg in H by lia. pose proof (Z.div_mod (1 + Z.of_nat n) 2 ltac:(lia)). pose proof (Z.mod_pos_bound (1 + Z.of_nat n) 2 ltac:(lia)). lia. Qed.

(** Asking whether there is a quorum, and winning if so. *)
Lemma wp_quorum t Q js v (rest : Prog unit) : (length all = 1 + length (peers i))%nat → 
  no_usurper v → counted t Q js v →
  (∀ v', rely v v' → no_usurper v' → counted t Q js v' → wp rest (λ _, no_usurper) v') →
  wp (q ← isQuorum (Z.of_nat (length Q)); if q : bool then win t else rest) (λ _, no_usurper) v.
Proof.
  intros Hall Hb Hc Hrest. apply wp_bind, wp_read. intros v' Hr Hok.
  pose proof (no_usurper_stable _ _ Hr Hb). pose proof (counted_stable _ _ _ _ _ Hr Hc).
  assert (m_sentinelPeers (v_state v') = peers i) as -> by apply Hok.
  destruct (Z.leb_spec ((1 + Z.of_nat (length (peers i))) `quot` 2 + 1) (Z.of_nat (length Q))) as [Hq|Hq].
  - eapply wp_win; [done..|]. apply quorum_majority in Hq. lia.
  - by apply Hrest.
Qed.

Lemma wp_election_loop t l : ∀ Q js v, (length all = 1 + length (peers i))%nat →
  no_usurper v → counted t Q js v → addr <$> l = Some <$> js →
  wp (election_loop t (ids i) (Z.of_nat (length Q)) l) (λ _, no_usurper) v.
Proof.
  induction l as [|p l IH]; intros Q js v Hall Hb Hc Hjs; [done|]. destruct js as [|j js]; [done|].
  injection Hjs as Hj Hjs. cbn [election_loop]. apply wp_bind. unfold sendRequestVote. apply wp_bind.
  intros v1 Hr1. pose proof (no_usurper_stable _ _ Hr1 Hb) as Hb1.
  pose proof (counted_stable _ _ _ _ _ Hr1 Hc) as Hc1.
  assert (∀ v, counted t Q (j :: js) v → counted t Q js v) as Hdrop.
  { intros w (H1 & H2 & H3 & H4). split_and!; [| |done|done].
    - eapply sublist_NoDup; [exact H1|]. apply sublist_app; [done|]. by apply sublist_cons.
    - intros x Hx. apply H2. set_solver. }
  assert (∀ v, no_usurper v → counted t Q (j :: js) v → wp (q ← isQuorum (Z.of_nat (length Q));
            if q : bool then win t else election_loop t (ids i) (Z.of_nat (length Q)) l) (λ _, no_usurper) v) as Hrest.
  { intros w Hbw Hcw. eapply wp_quorum; [done..|]. intros w' _ Hbw' Hcw'. apply (IH Q js); auto. }
  split; [by apply Hrest|]. intros r Hans. simpl.
  destruct r as [| | |pt granted| | |]; try (by apply Hrest). destruct granted.
  - assert (counted t (j :: Q) js v1) as Hc2.
    { destruct Hc1 as (H1 & H2 & H3 & H4). split_and!.
      - simpl. by rewrite (Permutation_middle Q js j).
      - intros x Hx. apply H2. set_solver.
      - set_solver.
      - intros x Hx Hne. apply elem_of_cons in Hx as [->|Hx]; [|by apply H4]. by eapply Hans. }
    replace (Z.of_nat (length Q) + 1) with (Z.of_nat (length (j :: Q))) by (simpl; lia).
    eapply wp_quorum; [done..|]. intros w' _ Hbw' Hcw'. by apply (IH (j :: Q) js).
  - destruct (t <? pt); [|by apply Hrest]. eapply wp_mono; [|apply wp_becomeFollower].
    intros ? w Hw Hl. congruence.
Qed.

Context (Hcfg : well_configured).

Lemma peers_of : ∃ js, addr <$> peers i = Some <$> js ∧ NoDup (i :: js) ∧ i :: js ⊆ all ∧
  (length all = 1 + length (peers i))%nat.
Proof.
  destruct Hcfg as (Hnd & _ & Hp). destruct (Hp i) as (js & Hjs & Hperm). exists js. split_and!.
  - done.
  - by rewrite Hperm.
  - by rewrite Hperm.
  - rewrite <-Hperm. apply (f_equal length) in Hjs. rewrite !length_fmap in Hjs. simpl. lia.
Qed.

Lemma wp_startElection v : no_usurper v → wp startElection (λ _, no_usurper) v.
Proof.
  intros Hb. apply wp_bind, wp_read. intros v1 Hr1 _. apply wp_bind, wp_read. intros v2 Hr2 [[Hi Hp] _]. simpl.
  rewrite Hi, Hp. destruct peers_of as (js & Hjs & Hnd & Hsub & Hall).
  apply (wp_election_loop _ _ [i] js); [done| |split_and!; [done|done|set_solver|set_solver]|done].
  eapply no_usurper_stable; [|done]. by etrans.
Qed.

Lemma quiet_election_turn v : no_usurper v → wp election_turn (λ _ _, True) v.
Proof.
  intros Hb. apply wp_bind. eapply wp_mono; [|by apply wp_startElection]. intros ? v1 Hb1.
  apply wp_bind. intros timeout. apply wp_bind. intros v2 Hr2 ([Hi Hp] & Ht & _).
  pose proof (no_usurper_stable _ _ Hr2 Hb1) as Hb2. destruct (bool_decide_reflect (m_role (v_state v2) = Leader)) as [Hl|Hl].
  - split; [by apply (idle_section id); [|split]|]. apply wp_bind. intros v3 Hr3. split; [|apply quiet_becomeLeader].
    simpl. eapply elected_stable; [exact Hr3|]. destruct v2. by apply Hb2.
  - split; [by split_and!; simpl; [split|lia|]|]. done.
Qed.

(** *** Heartbeats, health checks, failover *)

(** Goes through a program that neither wins nor becomes a candidate. *)
Ltac go_quiet :=
  repeat match goal with
  | |- quiet (mret _) => apply quiet_ret
  | |- quiet (read_state _) => apply quiet_read
  | |- quiet nowMs => apply quiet_now
  | |- quiet randomTimeoutMs => apply quiet_random
  | |- quiet (call _ _) => apply quiet_call
  | |- quiet (log _) => by apply quiet_log
  | |- quiet (becomeFollower _) => apply quiet_becomeFollower
  | |- quiet (under_lock _) => apply quiet_idle; intros s; done
  | |- quiet (for_each _ _) => apply quiet_for_each; intros ?
  | |- quiet (mbind _ _) => apply quiet_bind; [|intros ?]
  | |- quiet (if ?b then _ else _) => destruct b
  | |- quiet (match ?x with _ => _ end) => destruct x
  end.

Lemma quiet_sendHeartbeats : quiet sendHeartbeats.
Proof. unfold sendHeartbeats, sendHeartbeatTo. go_quiet. Qed.

Lemma quiet_handleFailover key : quiet (handleFailover key).
Proof. unfold handleFailover, sendReplicaOf. go_quiet. Qed.

Lemma record_check_idle n resp : idle (λ s, (record_check n resp s).1).
Proof. intros s. unfold record_check. by destruct (m_kvNodes s !! node_key n), resp as [h|]; [destruct (bool_decide _)|..]. Qed.

Lemma quiet_record_check n resp : quiet (locked (record_check n resp)).
Proof.
  intros v v' _ Hok. split; [|done].
  apply (idle_section (λ s, (record_check n resp s).1)); [apply record_check_idle|apply Hok].
Qed.

Lemma quiet_check_loop l : quiet (check_loop l).
Proof.
  induction l as [|n l IH]; [by apply quiet_ret|]. cbn [check_loop]. unfold sendHealthCheck. go_quiet.
  - apply quiet_record_check.
  - apply quiet_handleFailover.
  - done.
Qed.

Lemma quiet_checkKVNodes : quiet checkKVNodes.
Proof. unfold checkKVNodes. go_quiet. apply quiet_check_loop. Qed.

Lemma quiet_runLoop_turn : quiet runLoop_turn.
Proof.
  intros v. apply wp_bind. intros now. apply wp_bind, wp_read. intros v1 Hr1 Hok. cbn [fst snd].
  destruct (m_role (v_state v1)) eqn:Hrole.
  - match goal with |- wp ?p _ _ => enough (quiet p) as Hq by apply Hq end. go_quiet. apply quiet_becomeCandidate.
  - apply quiet_election_turn. intros Hl. congruence.
  - apply quiet_bind; [apply quiet_sendHeartbeats|]. intros _. apply quiet_checkKVNodes.
Qed.
End thread.

(** ** The system *)

Definition view_of (y : System) (i : node) : View := mkView (sys_state y i) (given y).

Record sys_inv (y : System) : Prop := {
  inv_view i : view_ok i (view_of y i);
  inv_term j t c : given y j t c → t ≤ m_currentTerm (sys_state y j);
  inv_vote j t c c' : given y j t c → given y j t c' → c = c';
  inv_reply j t c pt : (j, RequestVoteReq t c, RequestVoteResp pt true) ∈ sys_replies y → given y j t c;
  inv_thread i : wp i (sys_thread y i) (λ _ _, True) (view_of y i);
  inv_log i t : (i, WonElection t) ∈ sys_log y → elected i (view_of y i) t
}.

(** A request handled by the sentinel [j]. *)
Lemma handler_spec req now s s' d : sentinel_section req now s = (s', d) →
  m_nodeId s' = m_nodeId s ∧ m_sentinelPeers s' = m_sentinelPeers s ∧ m_currentTerm s ≤ m_currentTerm s' ∧
  ((m_role s' = m_role s ∧ m_currentTerm s' = m_currentTerm s) ∨ m_role s' = Follower) ∧
  (∀ t c, req = RequestVoteReq t c → d.1 = true → m_currentTerm s < t ∧ m_currentTerm s' = t).
Proof.
  destruct req as [| | |t c|t id master| |]; simpl; try (intros [= <- <-]; split_and!; [done|done|lia|by left|done]).
  - unfold handleRequestVote. destruct (Z.leb_spec t (m_currentTerm s)); [|destruct (_ || _)]; intros [= <- <-]; simpl.
    1,3: split_and!; [done|done|lia|by left|done].
    split_and!; [done|done|lia|by right|]. intros ? ? [= <- <-] _. done.
  - unfold handleHeartbeat. destruct (Z.ltb_spec t (m_currentTerm s)); [|destruct master as [[host port]|];
      [destruct (bool_decide (host = ""))|]]; intros [= <- <-]; simpl; split_and!; try done; try lia; try (by left); by right.
Qed.

Lemma given_handled y j s req d k t c :
  given (put_handled (j, req, d) (put_state j s y)) k t c ↔
  given y k t c ∨ (k = j ∧ req = RequestVoteReq t c ∧ d.1 = true).
Proof.
  unfold given. simpl. setoid_rewrite elem_of_cons. split.
  - intros [x [Hx|Hx]]; [right; by simplify_eq|left; by exists x].
  - intros [[x Hx]|(-> & -> & Hd)]; [exists x; by right|]. exists d.2. left. destruct d; simpl in *; congruence.
Qed.

(** Steps that leave states and votes alone. *)
Lemma inv_quiet_step y y' : sys_inv y → sys_state y' = sys_state y → sys_handled y' = sys_handled y →
  (∀ j t c pt, (j, RequestVoteReq t c, RequestVoteResp pt true) ∈ sys_replies y' → given y j t c) →
  (∀ i, wp i (sys_thread y' i) (λ _ _, True) (view_of y i)) →
  (∀ i t, (i, WonElection t) ∈ sys_log y' → elected i (view_of y i) t) → sys_inv y'.
Proof.
  intros [H1 H2 H3 H4 H5 H6] Hs Hh Hr Ht Hl.
  assert (given y' = given y) as Hg by (unfold given; by rewrite Hh).
  assert (view_of y' = view_of y) as Hv by (unfold view_of; by rewrite Hs, Hg).
  split; rewrite ?Hv, ?Hg, ?Hs; eauto.
Qed.

Lemma wp_put (i j : node) (p : Prog unit) (f : node → Prog unit) (v : node → View) :
  wp i p (λ _ _, True) (v i) → (i ≠ j → wp j (f j) (λ _ _, True) (v j)) → wp j (<[i := p]> f j) (λ _ _, True) (v j).
Proof.
  intros Hp Hf. destruct (decide (i = j)) as [->|Hne]; [by rewrite fn_lookup_insert|].
  rewrite fn_lookup_insert_ne by done. by apply Hf.
Qed.

Lemma inv_locked y i X (f : SentinelManager → SentinelManager * X) k : sys_inv y → sys_thread y i = Locked f k →
  terms_fit (put_thread i (k (f (sys_state y i)).2) (put_state i (f (sys_state y i)).1 y)) →
  sys_inv (put_thread i (k (f (sys_state y i)).2) (put_state i (f (sys_state y i)).1 y)).
Proof.
  intros [H1 H2 H3 H4 H5 H6] Hp Hfit. pose proof (H5 i) as Hwp. rewrite Hp in Hwp.
  destruct (Hwp (view_of y i) (reflexivity _) (H1 i)) as [(Hc & Hterm & Hrole) Hk]. simpl in *.
  specialize (Hfit i). simpl in Hfit. rewrite fn_lookup_insert in Hfit.
  set (s' := (f (sys_state y i)).1) in *. set (y' := put_thread _ _ _).
  assert (∀ j, i ≠ j → view_of y' j = view_of y j) as Hne by (intros j Hj; unfold view_of; simpl; by rewrite fn_lookup_insert_ne).
  assert (view_of y' i = mkView s' (given y)) as Heq by (unfold view_of; simpl; by rewrite fn_lookup_insert).
  assert (∀ j, m_currentTerm (sys_state y j) ≤ m_currentTerm (sys_state y' j)) as Hmono.
  { intros j. simpl. destruct (decide (i = j)) as [<-|]; [by rewrite fn_lookup_insert|by rewrite fn_lookup_insert_ne by done]. }
  split.
  - intros j. destruct (decide (i = j)) as [<-|Hj]; [|rewrite Hne by done; apply H1]. rewrite Heq.
    destruct (H1 i) as (_ & [Ht _] & Hcand). split; [done|]. simpl in *. split; [lia|]. intros Hr c Hg.
    destruct (Hrole Hr) as [[Hr0 Ht0]|Ht0]; [apply (Hcand Hr0 c); by rewrite <-Ht0|].
    specialize (H2 i _ _ Hg). lia.
  - intros j t c Hg. etrans; [by eapply H2|done].
  - exact H3.
  - exact H4.
  - intros j. apply wp_put; [by rewrite Heq|]. intros Hj. rewrite Hne by done. apply H5.
  - intros j t Hl. specialize (H6 j t Hl). destruct (decide (i = j)) as [<-|]; [|by rewrite Hne].
    rewrite Heq. destruct H6 as (Ht & Hn & Hq). split; [by etrans|done].
Qed.

Lemma inv_handle y j req now : sys_inv y →
  let d := (sentinel_section req now (sys_state y j)).2 in
  let s' := (sentinel_section req now (sys_state y j)).1 in
  terms_fit (put_handled (j, req, d) (put_state j s' y)) → sys_inv (put_handled (j, req, d) (put_state j s' y)).
Proof.
  intros [H1 H2 H3 H4 H5 H6] d s' Hfit.
  destruct (handler_spec req now (sys_state y j) s' d) as (Hi & Hp & Hterm & Hrole & Hvote); [by unfold s', d; destruct (sentinel_section _ _ _)|].
  set (y' := put_handled _ _) in *.
  assert (sys_state y' j = s') as Hsj by apply fn_lookup_insert.
  assert (∀ k, j ≠ k → sys_state y' k = sys_state y k) as Hne by (intros k Hk; by apply fn_lookup_insert_ne).
  assert (∀ k, rely k (view_of y k) (view_of y' k)) as Hrely.
  { intros k. destruct (decide (j = k)) as [<-|Hk].
    - split; unfold view_of; cbn [v_state v_given]; rewrite ?Hsj.
      + intros k t c Hg. apply given_handled. by left.
      + intros t c Hg. apply given_handled in Hg as [?|(_ & Hreq & Hd)]; [by left|right]. by eapply Hvote.
      + done.
      + done.
    - split; unfold view_of; cbn [v_state v_given]; rewrite ?Hne by done; [| |lia|by left].
      + intros k' t c Hg. apply given_handled. by left.
      + intros t c Hg. apply given_handled in Hg as [?|(-> & _)]; [by left|done]. }
  assert (∀ k t c, given y' k t c → given y k t c ∨ (k = j ∧ m_currentTerm (sys_state y j) < t ∧ m_currentTerm s' = t ∧
            req = RequestVoteReq t c)) as Hnew.
  { intros k t c Hg. apply given_handled in Hg as [?|(-> & Hreq & Hd)]; [by left|right].
    destruct (Hvote t c Hreq Hd). done. }
  split.
  - intros k. destruct (Hrely k) as [_ Ho Ht Hr]. destruct (H1 k) as ([Hci Hcp] & [Ht0 _] & Hcand).
    simpl in Hci, Hcp, Ht0. split_and!.
    + unfold view_of. cbn [v_state]. destruct (decide (j = k)) as [<-|Hk]; [|by rewrite Hne]. rewrite Hsj. split; congruence.
    + etrans; [exact Ht0|exact Ht].
    + apply Hfit.
    + intros Hc c Hg. destruct Hr as [[Hr Hrt]|Hr]; [|congruence]. rewrite Hrt in Hg. rewrite Hr in Hc.
      apply Ho in Hg as [Hg|Hg]; [by eapply Hcand|lia].
  - intros k t c Hg. apply Hnew in Hg as [Hg|(-> & _ & Ht & _)]; [|by rewrite Hsj, Ht].
    etrans; [by eapply H2|]. apply (Hrely k).
  - intros k t c c' Hg Hg'. apply Hnew in Hg as [Hg|(-> & Ht & _ & Hreq)], Hg' as [Hg'|(Hk & Ht' & _ & Hreq')].
    + by eapply H3.
    + subst k. specialize (H2 _ _ _ Hg). lia.
    + specialize (H2 _ _ _ Hg'). lia.
    + congruence.
  - intros k t c pt Hr. apply given_handled. left. by eapply H4.
  - intros k. eapply wp_stable; [by intros ? ? ?|apply Hrely|apply H5].
  - intros k t Hl. eapply elected_stable; [apply Hrely|by apply H6].
Qed.

Lemma inv_step y y' : well_configured → sys_inv y → sys_step y y' → terms_fit y' → sys_inv y'.
Proof.
  intros Hcfg Hinv Hstep Hfit. pose proof Hinv as [H1 H2 H3 H4 H5 H6].
  destruct Hstep as [y i Hp|y i X f k Hp|y i k t Hp|y i k t Hp|y i to req k Hp|y i to req k Hp|y i to req k r Hp Hans
                    |y i line k Hp|y j to req now Hs Ha|y j req done Hh].
  - apply (inv_quiet_step y); try done. intros j. apply (wp_put i j); [by apply quiet_runLoop_turn|done].
  - by apply inv_locked.
  - apply (inv_quiet_step y); try done. intros j. apply (wp_put i j); [|done].
    specialize (H5 i). rewrite Hp in H5. apply H5.
  - apply (inv_quiet_step y); try done. intros j. apply (wp_put i j); [|done].
    specialize (H5 i). rewrite Hp in H5. apply H5.
  - by apply (inv_quiet_step y).
  - apply (inv_quiet_step y); try done. intros j. apply (wp_put i j); [|done].
    specialize (H5 i). rewrite Hp in H5. by apply H5.
  - apply (inv_quiet_step y); try done. intros j. apply (wp_put i j); [|done].
    specialize (H5 i). rewrite Hp in H5. apply H5; [done|]. intros k' t c pt Hto -> ->.
    unfold answers in Hans. rewrite Hto in Hans. by eapply H4.
  - pose proof (H5 i) as Hw. rewrite Hp in Hw. destruct (Hw _ (reflexivity _)) as [Hline Hk].
    apply (inv_quiet_step y); try done.
    + intros j. by apply (wp_put i j).
    + intros j t. simpl. rewrite elem_of_cons. intros [[= -> <-]|Hl]; [done|by apply H6].
  - by apply inv_handle.
  - apply (inv_quiet_step y); try done. intros k t c pt. simpl. rewrite elem_of_cons.
    intros [[= <- <- Heq]|Hr]; [|by eapply H4]. simpl in Heq. injection Heq as _ Hd.
    exists done.2. destruct done. simpl in *. by subst.
Qed.

Lemma inv_start y : sys_start y → sys_inv y.
Proof.
  intros (Hi & Hs & Hh & Hr & Hl). split.
  - intros i. destruct (Hi i) as (H1 & H2 & H3 & H4 & _). split_and!; simpl; [by split|lia|rewrite H3; done|].
    rewrite H4. done.
  - intros j t c [x Hx]. rewrite Hh in Hx. by apply elem_of_nil in Hx.
  - intros j t c c' [x Hx]. rewrite Hh in Hx. by apply elem_of_nil in Hx.
  - intros j t c pt Hx. rewrite Hr in Hx. by apply elem_of_nil in Hx.
  - intros i. destruct (Hi i) as (_ & _ & _ & _ & ->). done.
  - intros i t Hx. rewrite Hl in Hx. by apply elem_of_nil in Hx.
Qed.

Lemma reach_inv y : well_configured → sys_reach y → sys_inv y.
Proof. intros Hcfg. induction 1 as [y Hy|y y' _ IH Hs Hf]; [by apply inv_start|by eapply inv_step]. Qed.

(** Two majorities share a sentinel. *)
Lemma majorities_meet (l Q1 Q2 : list node) : NoDup Q1 → NoDup Q2 → Q1 ⊆ l → Q2 ⊆ l →
  (length l < 2 * length Q1)%nat → (length l < 2 * length Q2)%nat → ∃ x, x ∈ Q1 ∧ x ∈ Q2.
Proof.
  intros Hn1 Hn2 H1 H2 L1 L2. destruct (decide (Exists (λ x, x ∈ Q2) Q1)) as [H|H].
  { apply Exists_exists in H as (x & Hx & Hy). by exists x. }
  assert (NoDup (Q1 ++ Q2)) as Hnd.
  { apply NoDup_app. split_and!; [done| |done]. intros x Hx Hx2. apply H, Exists_exists. by exists x. }
  assert (length (Q1 ++ Q2) ≤ length l)%nat as Hlen.
  { apply submseteq_length, NoDup_submseteq; [done|]. intros x. rewrite elem_of_app. intros [?|?]; auto. }
  rewrite length_app in Hlen. lia.
Qed.

Lemma elected_once y i j t : well_configured → sys_inv y → elected i (view_of y i) t → elected j (view_of y j) t → i = j.
Proof.
  intros (Hnd & Hinj & _) Hinv (Ht & Hn & Q & HQ & Hi & Hsub & Hmaj & Hg) (Ht' & Hn' & Q' & HQ' & Hi' & Hsub' & Hmaj' & Hg').
  destruct (majorities_meet all Q Q') as (x & Hx & Hx'); [done..|]. simpl in *.
  destruct (decide (x = i)) as [->|Hxi].
  - destruct (decide (i = j)) as [|Hij]; [done|]. destruct (Hn (ids j)). by apply Hg'.
  - destruct (decide (x = j)) as [->|Hxj]; [destruct (Hn' (ids i)); by apply Hg|].
    apply Hinj. eapply inv_vote; [done|by apply Hg|by apply Hg'].
Qed.
End system.

(** ** Running a system of sentinels

    [exec] takes a list of choices, who moves and what the clock shows, and runs them;
    what it reaches is reachable.  Three sentinels are run into two leaders of one term. *)

Section exec.
Context `{impl : !StdImpl} {node : Type} `{EqDecision node}.
Context (all : list node) (ids : node → string) (peers : node → list Endpoint) (addr : Endpoint → option node).

(** [Move i t]: the next step of the thread of [i], which sees [t] if it looks at the clock
    or draws.  [Rpc i now]: the call the thread of [i] is at is sent, handled at once, and
    answered. *)
Inductive Choice : Type := Move (i : node) (t : Z) | Rpc (i : node) (now : Z).

Definition exec_move (i : node) (t : Z) (y : System) : option System :=
  match sys_thread y i with
  | Done _ => Some (put_thread i runLoop_turn y)
  | Locked f k => Some (put_thread i (k (f (sys_state y i)).2) (put_state i (f (sys_state y i)).1 y))
  | Now k => Some (put_thread i (k t) y)
  | RandomTimeout k =>
      if (kElectionTimeoutMinMs <=? t) && (t <=? kElectionTimeoutMaxMs) then Some (put_thread i (k t) y) else None
  | Log line k => Some (put_log (i, line) (put_thread i k y))
  | Call _ _ _ => None
  end.

(** The systems a call goes through. *)
Definition exec_rpc (i : node) (now : Z) (y : System) : option (list System) :=
  match sys_thread y i with
  | Call to req k =>
      j ← addr to;
      let r := sentinel_section req now (sys_state y j) in
      let y1 := put_sent (to, req) y in
      let y2 := put_handled (j, req, r.2) (put_state j r.1 y1) in
      let a := sentinel_answer req r.2 (sys_state y2 j) in
      let y3 := put_reply (j, req, a) y2 in
      Some [y1; y2; y3; put_thread i (k (Some a)) y3]
  | _ => None
  end.

Definition fit (y : System) : bool := forallb (λ i, m_currentTerm (sys_state y i) <? UINT64_MAX) all.

Definition exec_choice (c : Choice) (y : System) : option System :=
  match c with
  | Move i t => y' ← exec_move i t y; if fit y' then Some y' else None
  | Rpc i now => l ← exec_rpc i now y; if forallb fit l then last l else None
  end.

Fixpoint exec (l : list Choice) (y : System) : option System :=
  match l with
  | [] => Some y
  | c :: l => y' ← exec_choice c y; exec l y'
  end.

Context (Hall : ∀ i, i ∈ all).

Lemma fit_spec y : fit y = true → terms_fit y.
Proof. intros H i. unfold fit in H. rewrite forallb_forall in H. apply Z.ltb_lt, H. apply list_elem_of_In, Hall. Qed.

Lemma exec_choice_reach c y y' : sys_reach ids peers addr y → exec_choice c y = Some y' → sys_reach ids peers addr y'.
Proof.
  intros Hr. destruct c as [i t|i now]; simpl.
  - destruct (exec_move i t y) as [y1|] eqn:E; simpl; [|done]. destruct (fit y1) eqn:Hf; [|done].
    intros [= <-]. apply (reach_next _ _ _ y); [done| |by apply fit_spec]. unfold exec_move in E.
    destruct (sys_thread y i) as [[]|X f k|k|k|to req k|line k] eqn:Et; simplify_eq.
    + by apply step_turn.
    + by apply step_locked.
    + by apply step_now.
    + destruct (andb _ _) eqn:Eb; simplify_eq. apply andb_true_iff in Eb as [E1 E2]. apply step_random; [done|lia].
    + by apply step_log.
  - unfold exec_rpc. destruct (sys_thread y i) as [a|X f k|k|k|to req k|line k] eqn:Et; try done.
    destruct (addr to) as [j|] eqn:Ha; simpl; [|done].
    set (y1 := put_sent _ y). set (y2 := put_handled _ _). set (y3 := put_reply _ y2). set (y4 := put_thread _ _ y3).
    destruct (fit y1) eqn:F1, (fit y2) eqn:F2, (fit y3) eqn:F3, (fit y4) eqn:F4; try done. intros [= <-].
    apply (reach_next _ _ _ y3); [|apply (step_return _ y3 i to req k); [done|]|by apply fit_spec].
    + apply (reach_next _ _ _ y2); [|apply step_answer; by left|by apply fit_spec].
      apply (reach_next _ _ _ y1); [|apply (step_handle _ y1 j to req now); [by left|done]|by apply fit_spec].
      apply (reach_next _ _ _ y); [done|by apply (step_send _ _ i _ _ k)|by apply fit_spec].
    + unfold answers. rewrite Ha. by left.
Qed.

Lemma exec_reach l y y' : sys_reach ids peers addr y → exec l y = Some y' → sys_reach ids peers addr y'.
Proof.
  revert y. induction l as [|c l IH]; intros y Hr; simpl; [by intros [= <-]|].
  destruct (exec_choice c y) as [y1|] eqn:E; simpl; [|done]. apply IH. by eapply exec_choice_reach.
Qed.
End exec.
Arguments Move {node} _ _.
Arguments Rpc {node} _ _.

(** ** Three sentinels *)

Inductive Three : Type := S0 | S1 | S2.
#[global] Instance Three_eq_dec : EqDecision Three.
Proof. solve_decision. Defined.

Definition three_all : list Three := [S0; S1; S2].
Definition three_id (i : Three) : string := match i with S0 => "s0" | S1 => "s1" | S2 => "s2" end.
Definition three_at (i : Three) : Endpoint := (three_id i, 26379).
Definition three_peers (i : Three) : list Endpoint :=
  match i with S0 => [three_at S1; three_at S2] | S1 => [three_at S0; three_at S2] | S2 => [three_at S0; three_at S1] end.
Definition three_addr (e : Endpoint) : option Three :=
  if bool_decide (e = three_at S0) then Some S0 else if bool_decide (e = three_at S1) then Some S1
  else if bool_decide (e = three_at S2) then Some S2 else None.

Definition three_start : System :=
  mkSystem (λ i, setSentinelPeers (three_peers i) (setNodeId (three_id i) (SentinelManager0 5000 0)))
    (λ _, Done tt) [] [] [] [].

Lemma three_configured : well_configured three_all three_id three_peers three_addr.
Proof.
  split_and!.
  - repeat constructor; set_solver.
  - by intros [] [].
  - intros []; [exists [S1; S2]|exists [S0; S2]|exists [S0; S1]]; (split; [by vm_compute|]); unfold three_all; solve_Permutation.
Qed.

Lemma three_started `{impl : !StdImpl} : sys_reach three_id three_peers three_addr three_start.
Proof. apply reach_start. split; [|done]. intros []; done. Qed.

Lemma three_complete i : i ∈ three_all.
Proof. destruct i; set_solver. Qed.

(** The first sentinel wins the election of term 1 and stops before it becomes leader; the
    second wins term 2 with the vote of the third, and its heartbeat makes the first a
    follower in term 2; then the first goes on. *)
Definition usurping : list (Choice (node := Three)) :=
  repeat (Move S0 8000) 13 ++ [Rpc S0 0] ++ repeat (Move S0 8000) 5 ++
  repeat (Move S1 9000) 13 ++ [Rpc S1 0; Move S1 0; Rpc S1 0] ++ repeat (Move S1 9000) 8 ++
  repeat (Move S1 9000) 9 ++ [Rpc S1 0] ++ repeat (Move S0 0) 2.

Definition leads (y : System) (i : Three) : SentinelRole * Z :=
  (m_role (sys_state y i), m_currentTerm (sys_state y i)).

Lemma usurping_trace :
  (λ y, (leads y S0, leads y S1, sys_log y)) <$> exec (impl := plain_impl) three_all three_addr usurping three_start =
  Some ((Leader, 2), (Leader, 2),
    [(S1, BecameLeader 2); (S1, WonElection 2); (S1, BecameCandidate 2); (S0, WonElection 1); (S0, BecameCandidate 1)]).
Proof. by vm_compute. Qed.
