(* ===== verification/KvNode.v ===== *)
(** * The key-value server as a node

    [MakeKvNodeHandler] ([rpc/kv_node_service.cc]): what a key-value server answers a
    sentinel, on its replication manager.  [server.lock()] failing, or a server without a
    replication manager, are [None]s. *)

From stdpp Require Import options.
From S2P Require Import Prelude.
From S2P Require Import CStd.
From S2P Require Import PubSub.
From S2P Require Import Server.
From S2P Require Import Replication.
From S2P Require Import Sentinel.

#[local] Set Default Proof Using "Type*".

Section node.
(** Which sessions are alive; the identifier of the process. *)
Context (alive : Sess → bool) (node_id : string).

Definition node_role (r : ReplicationManager) : NodeRole :=
  match Replication.m_role r with Master => MASTER | Slave => REPLICA end.

Definition kv_node_handler (req : Request) (repl : option ReplicationManager) : option ReplicationManager * Response :=
  match req with
  | HealthCheckReq _ =>
      (repl, HealthCheckResp
         match repl with
         | Some r => mkHealth true node_id (node_role r) (m_repl_id r) (m_offset r) (connectedSlaves alive r)
         | None => mkHealth true node_id MASTER "" 0 0
         end)
  | ReplicaOfReq host port _ =>
      match repl with
      | Some r =>
          (Some (if bool_decide (host = "") then promoteToMaster alive r else setSlaveOf alive host port r).1.1,
           ReplicaOfResp true "")
      | None => (None, ReplicaOfResp false "no replication manager")
      end
  | GetNodeStatusReq =>
      (repl, GetNodeStatusResp
         match repl with
         | Some r => mkStatus node_id (node_role r) (m_repl_id r) (m_offset r) (connectedSlaves alive r)
                       (m_master_host r, m_master_port r) (m_master_link_status r)
         | None => mkStatus node_id MASTER "" 0 0 ("", 0) 0
         end)
  | _ => (repl, NoResp)
  end.
End node.
