(* ===== verification/SentinelFacts.v ===== *)
(** * Facts about sentinels: the choice of a replica, failures, failover

    The thread's programs run alone, against key-value nodes that answer as
    [kv_node_handler] does. *)

From Stdlib Require Import Ascii.
From stdpp Require Import options.
From S2P Require Import Prelude.
From S2P Require Import CStd.
From S2P Require Import PubSub.
From S2P Require Import Server.
From S2P Require Import Replication.
From S2P Require Import Sentinel.
From S2P Require Import KvNode.

#[local] Set Default Proof Using "Type*".

(** ** Addresses *)

(** A host that is not empty and has no colon, as an IPv4 address. *)
Definition plain_endpoint (e : Endpoint) : Prop :=
  e.1 ≠ "" ∧ (":"%char ∉ chars e.1) ∧ - 2 ^ 31 ≤ e.2 < 2 ^ 31.

Lemma find_char_none c s : (c ∉ chars s) → find_char c s = None.
Proof.
  induction s as [|c' s IH]; intros H; [done|]. cbn [String.list_ascii_of_string] in H.
  apply not_elem_of_cons in H as [Hc H]. rewrite find_char_cons, IH by done.
  by destruct (Ascii.eqb_spec c' c); [congruence|].
Qed.

Lemma parseAddr_key e : plain_endpoint e → parseAddr (node_key e) = Some e.
Proof.
  destruct e as [host port]. intros (Hne & Hn & Hp). unfold parseAddr, node_key. cbn [fst snd] in *.
  change (host +:+ ":" +:+ to_string port) with (host +:+ String ":" (to_string port)).
  rewrite find_char_app by (by apply find_char_none).
  change (host +:+ String ":" (to_string port)) with (host +:+ ":" +:+ to_string port).
  assert (str_drop (S (String.length host)) (host +:+ ":" +:+ to_string port) = to_string port) as ->.
  { replace (S (String.length host)) with (String.length (host +:+ ":")) by (rewrite app_length_s; simpl; lia).
    change (host +:+ ":" +:+ to_string port) with (host +:+ (":" +:+ to_string port)). rewrite <-app_assoc_s. apply str_drop_app. }
  assert (String.substring 0 (String.length host) (host +:+ ":" +:+ to_string port) = host) as ->.
  { exact (substring_app "" host (":" +:+ to_string port)). }
  assert (in_i64 port) as Hi by (unfold in_i64, INT64_MIN, INT64_MAX; lia).
  pose proof (strtoll_to_string port Hi) as Hs.
  assert (stoi (to_string port) = Some port) as ->; [|done].
  unfold stoi. rewrite Hs. destruct (scan_int (to_string port)) eqn:E.
  - cbn [fst]. by destruct (Z.leb_spec (- 2 ^ 31) port), (Z.ltb_spec port (2 ^ 31)); try lia.
  - unfold strtoll in Hs. rewrite E in Hs. injection Hs as <- _. done.
Qed.

(** ** The choice of a replica *)

Section selection.
Context `{impl : !StdImpl}.

Lemma best_fold fits l b :
  let b' := foldl (best_step fits) b l in
  b.2 ≤ b'.2 ∧
  (b' = b ∨ ∃ n, (b'.1, n) ∈ l ∧ ns_alive n = true ∧ fits n = true ∧ ns_replOffset n = b'.2 ∧ b.2 < b'.2) ∧
  (∀ k n, (k, n) ∈ l → ns_alive n = true → fits n = true → ns_replOffset n ≤ b'.2).
Proof.
  revert b. induction l as [|[k n] l IH]; intros b; cbn [foldl].
  { split_and!; [lia|by left|]. intros k n Hn. by apply elem_of_nil in Hn. }
  specialize (IH (best_step fits b (k, n))). cbv zeta in *. destruct IH as (H1 & H2 & H3).
  set (b' := foldl _ _ _) in *. unfold best_step in H1, H2. cbn [fst snd] in H1, H2.
  destruct (ns_alive n) eqn:Ha, (fits n) eqn:Hf; cbn [andb] in H1, H2;
    [destruct (Z.ltb_spec b.2 (ns_replOffset n)); cbn [fst snd] in H1, H2|..].
  2-5: split_and!; [done|destruct H2 as [H2|(n' & Hin & ?)]; [by left|right; exists n'; split; [by right|done]]|].
  2-5: intros k' n' [[= -> ->]|Hin]%elem_of_cons Ha' Hf'; [lia || congruence|by eapply H3].
  split_and!; [lia| |].
  - right. destruct H2 as [->|(n' & Hin & Ha' & Hf' & Ho & Hlt)].
    + exists n. split_and!; [by left|done..].
    + exists n'. split_and!; [by right|done..|lia].
  - intros k' n' [[= -> ->]|Hin]%elem_of_cons Ha' Hf'; [lia|by eapply H3].
Qed.

(** The node that is promoted: it answered the last check, is no master, and no replica
    that answered has received more. *)
Definition best_choice (s : SentinelManager) (key : string) : Prop := ∃ n,
  m_kvNodes s !! key = Some n ∧ ns_alive n = true ∧ ns_role n ≠ MASTER ∧ 0 ≤ ns_replOffset n ∧
  ∀ k n', m_kvNodes s !! k = Some n' → ns_alive n' = true → ns_role n' = REPLICA → ns_replOffset n' ≤ ns_replOffset n.

Lemma selectBestReplica_spec s : m_kvNodes s !! "" = None →
  (selectBestReplica s ≠ "" → best_choice s (selectBestReplica s)) ∧
  (selectBestReplica s = "" → ∀ k n, m_kvNodes s !! k = Some n → ns_alive n = true → ns_role n ≠ MASTER →
     ns_replOffset n < 0).
Proof.
  intros Hempty. unfold selectBestReplica, best_of. cbv zeta.
  pose proof (best_fold (is_role REPLICA) (hash_iter (m_kvNodes s)) ("", -1)) as (H1 & H2 & H3).
  set (b := foldl (best_step (is_role REPLICA)) _ _) in *. cbn [snd] in H1.
  assert (∀ k n, m_kvNodes s !! k = Some n → ns_alive n = true → ns_role n = REPLICA → ns_replOffset n ≤ b.2) as Hmax.
  { intros k n Hk Ha Hr. eapply H3; [by apply hash_iter_elem|done|]. by apply bool_decide_eq_true. }
  destruct (bool_decide_reflect (b.1 = "")) as [He|Hne].
  - assert (b = ("", -1)) as Hb.
    { destruct H2 as [H2|(n & Hin & _)]; [done|]. rewrite He in Hin. apply hash_iter_elem in Hin. congruence. }
    rewrite Hb in *. pose proof (best_fold (negb ∘ is_role MASTER) (hash_iter (m_kvNodes s)) ("", -1)) as (G1 & G2 & G3).
    set (c := foldl (best_step (negb ∘ is_role MASTER)) _ _) in *. cbn [snd] in *. split.
    + intros Hc. destruct G2 as [G2|(n & Hin & Ha & Hf & Ho & Hlt)]; [by rewrite G2 in Hc|].
      apply hash_iter_elem in Hin. exists n. split_and!; [done|done| |lia|].
      * apply negb_true_iff, bool_decide_eq_false in Hf. done.
      * intros k n' Hk Ha' Hr. specialize (Hmax k n' Hk Ha' Hr). lia.
    + intros Hc k n Hk Ha Hr.
      destruct G2 as [G2|(n' & Hin & _)]; [|rewrite Hc in Hin; apply hash_iter_elem in Hin; congruence].
      assert (ns_replOffset n ≤ c.2) as Hle.
      { eapply G3; [by apply hash_iter_elem|done|]. simpl. by apply negb_true_iff, bool_decide_eq_false. }
      rewrite G2 in Hle. simpl in Hle. lia.
  - split; [|done]. intros _. destruct H2 as [H2|(n & Hin & Ha & Hf & Ho & Hlt)]; [by rewrite H2 in Hne|].
    apply hash_iter_elem in Hin. apply bool_decide_eq_true in Hf. exists n. cbn [snd] in Hlt.
    split_and!; [done|done|congruence|lia|]. intros k n' Hk Ha' Hr. rewrite Ho. by eapply Hmax.
Qed.
End selection.

(** ** Health checks *)

Definition miss (node : Endpoint) (s : SentinelManager) : SentinelManager := (record_check node None s).1.

Lemma misses_nodes k node s n : m_kvNodes s !! node_key node = Some n → ns_failures n = 0 →
  m_kvNodes (Nat.iter k (miss node) s) !! node_key node =
    Some (if decide (k = 0%nat) then n else set_ns_alive false (Z.of_nat k) n).
Proof.
  intros Hn Hf. induction k as [|k IH]; [done|]. rewrite Nat.iter_succ.
  set (x := Nat.iter k (miss node) s) in *. unfold miss, record_check. rewrite IH.
  cbn [fst m_kvNodes set_nodes]. rewrite lookup_insert_eq. destruct (decide (k = 0%nat)) as [->|]; simpl; f_equal.
  - by rewrite Hf.
  - unfold set_ns_alive. simpl. f_equal. lia.
Qed.

(** A tracked node that has just answered is down at its third missed check in a row, if it
    was a master. *)
Lemma down_at_third k node s n : m_kvNodes s !! node_key node = Some n → ns_failures n = 0 →
  (record_check node None (Nat.iter k (miss node) s)).2 = bool_decide (ns_role n = MASTER) && (3 <=? Z.of_nat (S k)).
Proof.
  intros Hn Hf. unfold record_check. rewrite (misses_nodes k node s n Hn Hf). simpl.
  assert (∀ n', ns_role n' = ns_role n → ns_failures n' + 1 = Z.of_nat (S k) →
    bool_decide (ns_role n' = MASTER) && (kMaxHealthCheckFailures <=? ns_failures n' + 1) =
    bool_decide (ns_role n = MASTER) && (3 <=? Z.of_nat (S k))) as H by (by intros ? -> ->).
  destruct (decide (k = 0%nat)) as [->|]; apply H; simpl; lia || done.
Qed.

(** ** The thread running alone *)

Section run.
Context {W : Type} (answer : W → Endpoint → Request → W * option Response) (clock draw : Z).

Fixpoint run {A} (p : Prog A) (w : W) (s : SentinelManager) : A * W * SentinelManager * list LogLine :=
  match p with
  | Done a => (a, w, s, [])
  | Locked f k => run (k (f s).2) w (f s).1
  | Now k => run (k clock) w s
  | RandomTimeout k => run (k draw) w s
  | Call to req k => run (k (answer w to req).2) (answer w to req).1 s
  | Log line k => let '(a, w, s, l) := run k w s in (a, w, s, line :: l)
  end.

Lemma run_bind {A B} (p : Prog A) (k : A → Prog B) w s :
  run (p ≫= k) w s =
  let '(a, w1, s1, l1) := run p w s in let '(b, w2, s2, l2) := run (k a) w1 s1 in (b, w2, s2, l1 ++ l2).
Proof.
  unfold mbind, Prog_bind. revert w s. induction p as [a|X f c IH|c IH|c IH|to req c IH|line c IH]; intros w s; simpl.
  - by destruct (run (k a) w s) as [[[b w'] s'] l'].
  - apply IH.
  - apply IH.
  - apply IH.
  - apply IH.
  - rewrite IH. destruct (run c w s) as [[[a w1] s1] l1]. by destruct (run (k a) w1 s1) as [[[b w2] s2] l2].
Qed.

Lemma run_read {X} (f : SentinelManager → X) w s : run (read_state f) w s = (f s, w, s, []).
Proof. done. Qed.
End run.

(** ** Failover *)

Section failover.
Context `{impl : !StdImpl} (alive : Sess → bool) (ids : Endpoint → string) (clock draw : Z).

(** Key-value nodes by address; those that cannot be reached are not in the map. *)
Abbreviation Nodes := (gmap Endpoint ReplicationManager).

Definition kv_answer (kv : Nodes) (e : Endpoint) (req : Request) : Nodes * option Response :=
  match kv !! e with
  | None => (kv, None)
  | Some r =>
      let '(r', resp) := kv_node_handler alive (ids e) req (Some r) in
      (match r' with Some r' => <[e := r']> kv | None => kv end, Some resp)
  end.

(** A node told to follow [m]; to follow nobody when [m] has no host. *)
Definition repoint (m : Endpoint) (r : ReplicationManager) : ReplicationManager :=
  (if bool_decide (m.1 = "") then promoteToMaster alive r else setSlaveOf alive m.1 m.2 r).1.1.

Lemma run_replica_of node m t kv s :
  run kv_answer clock draw (sendReplicaOf node m.1 m.2 t) kv s =
    (bool_decide (is_Some (kv !! node)), alter (repoint m) node kv, s, []).
Proof.
  assert (kv_answer kv node (ReplicaOfReq m.1 m.2 t) =
    (alter (repoint m) node kv, if bool_decide (is_Some (kv !! node)) then Some (ReplicaOfResp true "") else None)) as E.
  { unfold kv_answer. destruct (kv !! node) as [r|] eqn:E.
    - rewrite bool_decide_eq_true_2 by (by eexists). simpl. f_equal. apply map_eq. intros n.
      destruct (decide (n = node)) as [->|].
      + by rewrite lookup_insert_eq, lookup_alter_eq, E.
      + by rewrite lookup_insert_ne, lookup_alter_ne.
    - rewrite bool_decide_eq_false_2 by (intros [? ?]; congruence). f_equal. apply map_eq. intros n.
      destruct (decide (n = node)) as [->|]; [by rewrite lookup_alter_eq, E|by rewrite lookup_alter_ne]. }
  unfold sendReplicaOf. rewrite run_bind. cbn [run call]. rewrite E. cbn [fst snd]. by destruct (bool_decide _).
Qed.

Definition spared (best failed : string) (n : Endpoint) : bool :=
  bool_decide (node_key n = best) || bool_decide (node_key n = failed).

Lemma run_repoint_all best failed m t l : ∀ kv s,
  run kv_answer clock draw (for_each (λ node,
      if spared best failed node then mret tt else sendReplicaOf node m.1 m.2 t ≫= λ _, mret tt) l) kv s =
  (tt, foldl (λ kv n, if spared best failed n then kv else alter (repoint m) n kv) kv l, s, []).
Proof.
  induction l as [|n l IH]; intros kv s; [done|]. cbn [for_each foldl].
  destruct (spared best failed n); [exact (IH kv s)|]. rewrite run_bind, run_bind, run_replica_of.
  exact (f_equal (λ x, let '(b, w2, s2, l2) := x in (b, w2, s2, [] ++ l2)) (IH _ s)).
Qed.

Definition follows (m : Endpoint) (r : ReplicationManager) : Prop :=
  Replication.m_role r = Slave ∧ m_master_host r = m.1 ∧ m_master_port r = m.2.

Lemma repoint_follows m r : m.1 ≠ "" → follows m (repoint m r).
Proof. intros Hm. unfold repoint. rewrite bool_decide_eq_false_2 by done. unfold setSlaveOf. rewrite bool_decide_eq_false_2 by done. by destruct r. Qed.

Lemma promoted r : Replication.m_role (repoint ("", 0) r) = Master.
Proof. by destruct r. Qed.

Lemma repointed best failed m l n : m.1 ≠ "" → ∀ kv : Nodes,
  let kv' := foldl (λ kv n, if spared best failed n then kv else alter (repoint m) n kv) kv l in
  (spared best failed n = true → kv' !! n = kv !! n) ∧ (n ∉ l → kv' !! n = kv !! n) ∧
  (is_Some (kv' !! n) ↔ is_Some (kv !! n)) ∧
  (spared best failed n = false → n ∈ l ∨ (∀ r, kv !! n = Some r → follows m r) →
     ∀ r, kv' !! n = Some r → follows m r).
Proof using alive.
  clear impl ids clock draw. intros Hm. induction l as [|x l IH]; intros kv; cbn [foldl].
  { split_and!; [done..|]. intros _ [Hn|H]; [by apply elem_of_nil in Hn|done]. }
  destruct (IH (if spared best failed x then kv else alter (repoint m) x kv)) as (H1 & H2 & H3 & H4).
  set (kv1 := if spared best failed x then kv else alter (repoint m) x kv) in *.
  assert (spared best failed n = true ∨ n ≠ x → kv1 !! n = kv !! n) as Hsame.
  { intros Hn. unfold kv1. destruct (spared best failed x) eqn:Ex; [done|].
    apply lookup_alter_ne. intros ->. destruct Hn; congruence. }
  assert (is_Some (kv1 !! n) ↔ is_Some (kv !! n)) as Hdom.
  { unfold kv1. destruct (spared best failed x); [done|]. apply lookup_alter_is_Some. }
  split_and!.
  - intros Hn. rewrite H1 by done. apply Hsame. by left.
  - intros Hn%not_elem_of_cons. rewrite H2 by tauto. apply Hsame. right. tauto.
  - by rewrite H3.
  - intros Hn Hin. apply H4; [done|]. destruct (decide (n = x)) as [->|Hne].
    + right. intros r. unfold kv1. rewrite Hn, lookup_alter_eq. intros (r0 & _ & ->)%fmap_Some. by apply repoint_follows.
    + destruct Hin as [[?|Hin]%elem_of_cons|Hin]; [done|by left|right]. rewrite Hsame by (by right). done.
Qed.

(** What a failover leaves: the nodes, the sentinel, the log. *)
Lemma failover_run s kv failed e t : selectBestReplica s = node_key e → plain_endpoint e → m_currentTerm s = t →
  run kv_answer clock draw (handleFailover failed) kv s =
    if bool_decide (is_Some (kv !! e)) then
      (tt, foldl (λ kv n, if spared (node_key e) failed n then kv else alter (repoint e) n kv)
             (alter (repoint ("", 0)) e kv) (m_monitoredNodes s),
       failover_done failed (node_key e) e s, [FailoverComplete (node_key e)])
    else (tt, kv, s, [CannotPromote (node_key e)]).
Proof.
  intros Hbest He Ht. unfold handleFailover. rewrite run_bind, run_read. cbn [app]. rewrite Hbest.
  rewrite bool_decide_eq_false_2, parseAddr_key by (done || (by destruct e as [[] ?])).
  rewrite run_bind, run_read, run_bind, (run_replica_of e ("", 0)), Ht. cbn [app].
  destruct (bool_decide_reflect (is_Some (kv !! e))) as [Hin|Hout]; cbn [negb].
  - rewrite run_bind, run_read. rewrite run_bind. unfold spared in *.
    pose proof (run_repoint_all (node_key e) failed e t (m_monitoredNodes s) (alter (repoint ("", 0)) e kv) s) as Hall.
    unfold spared in Hall. rewrite Hall. done.
  - simpl. repeat f_equal. apply alter_id'. by apply eq_None_not_Some.
Qed.
End failover.
