(* ===== verification/IoManager.v ===== *)
(** * The I/O manager

    [IOManager] ([core/io/iomanager.h], [iomanager.cc]) and the loop of its users
    ([core/io/hook.cc]).  An [FdContext] is at an address, which epoll is given and hands
    back; the manager's vector holds addresses.  Every section under one lock is a
    definition, and each method composes them.  [None] is a failed assertion or a call
    through a null scheduler.  Fibers, callbacks and flags are numbers, the flags 0 until
    they are written; [io_tasks] lists the calls of [schedule], with their scheduler and
    thread.  The clock, the thread and what the scheduler answers are arguments. *)

From stdpp Require Import options.
From S2P Require Import Prelude.
From S2P Require Import CStd.
From S2P Require Import Timer.

#[local] Set Default Proof Using "Type*".

Definition ETIMEDOUT : Z := 110.
Definition ECANCELED : Z := 125.
Definition EPOLLIN : Z := 1.
Definition EPOLLOUT : Z := 4.
Definition EPOLLERR : Z := 8.
Definition EPOLLHUP : Z := 16.
Definition EPOLLET : Z := 2147483648.

(** ** epoll

    What [epoll_ctl(2)] documents: the list of interest it changes, with the data given for
    each descriptor, and that a descriptor in the list can be changed and removed. *)
Inductive EpollOp : Type := EPOLL_CTL_ADD | EPOLL_CTL_MOD | EPOLL_CTL_DEL.

Class Epoll (Kernel : Type) : Type := {
  epoll_ctl : EpollOp → nat → Z * nat → Kernel → Kernel * Z;
  interest : Kernel → gmap nat (Z * nat);
  ctl_failed op fd ev k : (epoll_ctl op fd ev k).2 ≠ 0 → interest (epoll_ctl op fd ev k).1 = interest k;
  ctl_add fd ev k : (epoll_ctl EPOLL_CTL_ADD fd ev k).2 = 0 →
    interest k !! fd = None ∧ interest (epoll_ctl EPOLL_CTL_ADD fd ev k).1 = <[fd := ev]> (interest k);
  ctl_mod fd ev k : is_Some (interest k !! fd) →
    (epoll_ctl EPOLL_CTL_MOD fd ev k).2 = 0 ∧ interest (epoll_ctl EPOLL_CTL_MOD fd ev k).1 = <[fd := ev]> (interest k);
  ctl_del fd ev k : is_Some (interest k !! fd) →
    (epoll_ctl EPOLL_CTL_DEL fd ev k).2 = 0 ∧ interest (epoll_ctl EPOLL_CTL_DEL fd ev k).1 = delete fd (interest k)
}.

(** ** Contexts *)

Inductive Event : Type := READ | WRITE.
#[global] Instance Event_eq_dec : EqDecision Event.
Proof. solve_decision. Defined.
Definition bit (e : Event) : Z := match e with READ => 1 | WRITE => 4 end.

Inductive Task : Type := TFiber (f : nat) | TCb (c : nat).

Record EventContext : Type := mkEvent {
  ev_scheduler : option nat;
  ev_fiber : option nat;
  ev_cb : option nat;
  ev_expire_at : Z;
  ev_cancel_flag : option nat
}.
(** [resetContext] *)
Definition EventContext0 : EventContext := mkEvent None None None 0 None.

Record FdContext : Type := mkFd {
  fc_read : EventContext;
  fc_write : EventContext;
  fc_fd : nat;
  fc_events : Z
}.
Definition FdContext0 (fd : nat) : FdContext := mkFd EventContext0 EventContext0 fd 0.

Definition getContext (e : Event) (c : FdContext) : EventContext :=
  match e with READ => fc_read c | WRITE => fc_write c end.
Definition set_context (e : Event) (ev : EventContext) (c : FdContext) : FdContext :=
  match e with
  | READ => mkFd ev (fc_write c) (fc_fd c) (fc_events c)
  | WRITE => mkFd (fc_read c) ev (fc_fd c) (fc_events c)
  end.
Definition set_events (events : Z) (c : FdContext) : FdContext := mkFd (fc_read c) (fc_write c) (fc_fd c) events.
Definition has (e : Event) (events : Z) : bool := negb (Z.land events (bit e) =? 0).
Definition without (e : Event) (events : Z) : Z := Z.land events (Z.lnot (bit e)).

(** [triggerEvent]: the context and the call of [schedule], which takes the callback or the
    fiber out of the context and does nothing with a null one. *)
Definition triggerEvent (thread : Z) (e : Event) (c : FdContext) : option (FdContext * list (nat * Task * Z)) :=
  if has e (fc_events c) then
    let c := set_events (without e (fc_events c)) c in
    let ev := getContext e c in
    s ← ev_scheduler ev;
    match ev_cb ev with
    | Some cb =>
        Some (set_context e (mkEvent None (ev_fiber ev) None (ev_expire_at ev) (ev_cancel_flag ev)) c,
              [(s, TCb cb, thread)])
    | None =>
        Some (set_context e (mkEvent None None None (ev_expire_at ev) (ev_cancel_flag ev)) c,
              match ev_fiber ev with Some f => [(s, TFiber f, thread)] | None => [] end)
    end
  else None.

Section iomanager.
Context {Kernel : Type} `{epoll : !Epoll Kernel}.

Record IoManager : Type := mkIo {
  io_heap : gmap nat FdContext;
  m_fdContexts : list nat;
  m_pendingEventCount : Z;
  m_nextIoExpire : Z;
  m_ioExpireDirty : bool;
  io_flags : gmap nat Z;
  io_tasks : list (nat * Task * Z);
  io_tickles : nat;
  io_timers : TimerManager nat;
  io_kernel : Kernel
}.

Definition put_context (p : nat) (c : FdContext) (m : IoManager) : IoManager :=
  mkIo (<[p := c]> (io_heap m)) (m_fdContexts m) (m_pendingEventCount m) (m_nextIoExpire m) (m_ioExpireDirty m)
    (io_flags m) (io_tasks m) (io_tickles m) (io_timers m) (io_kernel m).
Definition set_vector (heap : gmap nat FdContext) (l : list nat) (m : IoManager) : IoManager :=
  mkIo heap l (m_pendingEventCount m) (m_nextIoExpire m) (m_ioExpireDirty m) (io_flags m) (io_tasks m) (io_tickles m)
    (io_timers m) (io_kernel m).
Definition set_pending (n : Z) (m : IoManager) : IoManager :=
  mkIo (io_heap m) (m_fdContexts m) n (m_nextIoExpire m) (m_ioExpireDirty m) (io_flags m) (io_tasks m) (io_tickles m)
    (io_timers m) (io_kernel m).
Definition set_next_expire (next : Z) (dirty : bool) (m : IoManager) : IoManager :=
  mkIo (io_heap m) (m_fdContexts m) (m_pendingEventCount m) next dirty (io_flags m) (io_tasks m) (io_tickles m)
    (io_timers m) (io_kernel m).
Definition write_flag (a : nat) (v : Z) (m : IoManager) : IoManager :=
  mkIo (io_heap m) (m_fdContexts m) (m_pendingEventCount m) (m_nextIoExpire m) (m_ioExpireDirty m)
    (<[a := v]> (io_flags m)) (io_tasks m) (io_tickles m) (io_timers m) (io_kernel m).
Definition add_tasks (l : list (nat * Task * Z)) (m : IoManager) : IoManager :=
  mkIo (io_heap m) (m_fdContexts m) (m_pendingEventCount m) (m_nextIoExpire m) (m_ioExpireDirty m) (io_flags m)
    (io_tasks m ++ l) (io_tickles m) (io_timers m) (io_kernel m).
Definition tickle (m : IoManager) : IoManager :=
  mkIo (io_heap m) (m_fdContexts m) (m_pendingEventCount m) (m_nextIoExpire m) (m_ioExpireDirty m) (io_flags m)
    (io_tasks m) (S (io_tickles m)) (io_timers m) (io_kernel m).
Definition set_io_timers (t : TimerManager nat) (m : IoManager) : IoManager :=
  mkIo (io_heap m) (m_fdContexts m) (m_pendingEventCount m) (m_nextIoExpire m) (m_ioExpireDirty m) (io_flags m)
    (io_tasks m) (io_tickles m) t (io_kernel m).
Definition set_kernel (k : Kernel) (m : IoManager) : IoManager :=
  mkIo (io_heap m) (m_fdContexts m) (m_pendingEventCount m) (m_nextIoExpire m) (m_ioExpireDirty m) (io_flags m)
    (io_tasks m) (io_tickles m) (io_timers m) k.

Definition flag_of (m : IoManager) (a : nat) : Z := default 0 (io_flags m !! a).

(** ** The vector of contexts *)

(** New contexts for the descriptors from [fd] on. *)
Fixpoint alloc_contexts (n fd : nat) (heap : gmap nat FdContext) : gmap nat FdContext * list nat :=
  match n with
  | O => (heap, [])
  | S n =>
      let p := fresh (dom heap) in
      let '(heap, l) := alloc_contexts n (S fd) (<[p := FdContext0 fd]> heap) in (heap, p :: l)
  end.
(** A vector made smaller forgets contexts and does not delete them. *)
Definition contextResize (size : nat) (m : IoManager) : IoManager :=
  let kept := take size (m_fdContexts m) in
  let '(heap, l) := alloc_contexts (size - length kept) (length kept) (io_heap m) in set_vector heap (kept ++ l) m.

Definition IoManager0 (k : Kernel) (now : Z) : IoManager :=
  contextResize 32 (mkIo ∅ [] 0 UINT64_MAX false ∅ [] 0 (TimerManager0 now) k).

Definition find_context (fd : nat) (m : IoManager) : option nat :=
  if (fd <? length (m_fdContexts m))%nat then m_fdContexts m !! fd else None.
(** [fd * 1.5] as a size. *)
Definition grow_context (fd : nat) (m : IoManager) : IoManager * option nat :=
  let m := contextResize (fd * 3 / 2) m in (m, m_fdContexts m !! fd).

(** ** The next deadline *)

Definition onIoWaitAdded (expire_at : Z) (m : IoManager) : IoManager :=
  if expire_at =? 0 then m
  else if (m_nextIoExpire m =? UINT64_MAX) || (expire_at <? m_nextIoExpire m) then tickle (set_next_expire expire_at false m)
  else m.
Definition onIoWaitRemoved (expire_at : Z) (m : IoManager) : IoManager :=
  if negb (expire_at =? 0) && (m_nextIoExpire m =? expire_at) then set_next_expire (m_nextIoExpire m) true m else m.

Definition min_expire (next expire_at : Z) : Z :=
  if negb (expire_at =? 0) && ((next =? UINT64_MAX) || (expire_at <? next)) then expire_at else next.
Definition scan_context (m : IoManager) (next : Z) (p : nat) : Z :=
  match io_heap m !! p with
  | Some c => min_expire (min_expire next (ev_expire_at (fc_read c))) (ev_expire_at (fc_write c))
  | None => next
  end.
Definition refreshNextIoExpire (m : IoManager) : IoManager :=
  set_next_expire (foldl (scan_context m) UINT64_MAX (m_fdContexts m)) false m.
Definition refresh_if_dirty (m : IoManager) : IoManager := if m_ioExpireDirty m then refreshNextIoExpire m else m.

Definition getNextIoExpire (now : Z) (m : IoManager) : IoManager * Z :=
  let m := refresh_if_dirty m in
  (m, if m_nextIoExpire m =? UINT64_MAX then UINT64_MAX
      else if m_nextIoExpire m <=? now then 0 else u64 (m_nextIoExpire m - now)).

(** ** Events *)

Definition op_of (events : Z) (op : EpollOp) : EpollOp := if events =? 0 then op else EPOLL_CTL_MOD.

(** [addEvent] under the lock of the context: the manager, and the deadline unless epoll
    refuses.  [cb] is the callback if there is one, [fiber] the running fiber, [s]
    [Scheduler::GetThis()]. *)
Definition add_locked (p fd : nat) (e : Event) (cb : option nat) (fiber : nat) (timeout_ms : Z) (cancel_flag : option nat)
    (now : Z) (s : option nat) (m : IoManager) : option (IoManager * option Z) :=
  c ← io_heap m !! p;
  if has e (fc_events c) then None
  else
    let events := Z.lor (fc_events c) (bit e) in
    let '(k, rt) := epoll_ctl (op_of (fc_events c) EPOLL_CTL_ADD) fd (Z.lor EPOLLET events, p) (io_kernel m) in
    let m := set_kernel k m in
    if negb (rt =? 0) then Some (m, None)
    else
      match getContext e c with
      | mkEvent None None None _ _ =>
          let expire_at := if timeout_ms =? UINT64_MAX then 0 else u64 (now + timeout_ms) in
          let ev := mkEvent s (match cb with Some _ => None | None => Some fiber end) cb expire_at
                      (if expire_at =? 0 then None else cancel_flag) in
          Some (put_context p (set_context e ev (set_events events c))
                  (set_pending (u64 (m_pendingEventCount m + 1)) m), Some expire_at)
      | _ => None
      end.

Definition addEvent (fd : nat) (e : Event) (cb : option nat) (fiber : nat) (timeout_ms : Z) (cancel_flag : option nat)
    (now : Z) (s : option nat) (m : IoManager) : option (IoManager * Z) :=
  let '(m, p) := match find_context fd m with Some p => (m, Some p) | None => grow_context fd m end in
  p ← p;
  '(m, r) ← add_locked p fd e cb fiber timeout_ms cancel_flag now s m;
  match r with
  | Some expire_at => Some (onIoWaitAdded expire_at m, 0)
  | None => Some (m, -1)
  end.

(** Tells epoll that [e] is no longer waited for. *)
Definition ctl_without (p fd : nat) (events : Z) (m : IoManager) : IoManager * bool :=
  let '(k, rt) := epoll_ctl (op_of events EPOLL_CTL_DEL) fd (Z.lor EPOLLET events, p) (io_kernel m) in
  (set_kernel k m, rt =? 0).

Definition del_locked (p fd : nat) (e : Event) (m : IoManager) : option (IoManager * option Z) :=
  c ← io_heap m !! p;
  if negb (has e (fc_events c)) then Some (m, None)
  else
    let events := without e (fc_events c) in
    let '(m, ok) := ctl_without p fd events m in
    if negb ok then Some (m, None)
    else
      Some (put_context p (set_context e EventContext0 (set_events events c))
              (set_pending (u64 (m_pendingEventCount m - 1)) m), Some (ev_expire_at (getContext e c))).
Definition removed (r : IoManager * option Z) : IoManager * bool :=
  match r.2 with Some expire_at => (onIoWaitRemoved expire_at r.1, true) | None => (r.1, false) end.
Definition delEvent (fd : nat) (e : Event) (m : IoManager) : option (IoManager * bool) :=
  match find_context fd m with
  | Some p => r ← del_locked p fd e m; Some (removed r)
  | None => Some (m, false)
  end.

(** The event of a context triggered, its deadline and flag forgotten; [note] says whether
    the flag is set to [ECANCELED] before, unless it was set already. *)
Definition note_flag (note : bool) (flag : option nat) (m : IoManager) : IoManager :=
  match flag with
  | Some a => if note && (flag_of m a =? 0) then write_flag a ECANCELED m else m
  | None => m
  end.
Definition fire_event (note : bool) (thread : Z) (p : nat) (e : Event) (m : IoManager) : option (IoManager * Z) :=
  c ← io_heap m !! p;
  let ev := getContext e c in
  let m := note_flag note (ev_cancel_flag ev) m in
  '(c, tasks) ← triggerEvent thread e (set_context e (mkEvent (ev_scheduler ev) (ev_fiber ev) (ev_cb ev) 0 None) c);
  Some (add_tasks tasks (put_context p c (set_pending (u64 (m_pendingEventCount m - 1)) m)), ev_expire_at ev).

Definition cancel_locked (thread : Z) (p fd : nat) (e : Event) (m : IoManager) : option (IoManager * option Z) :=
  c ← io_heap m !! p;
  if negb (has e (fc_events c)) then Some (m, None)
  else
    let '(m, ok) := ctl_without p fd (without e (fc_events c)) m in
    if negb ok then Some (m, None)
    else '(m, expire_at) ← fire_event true thread p e m; Some (m, Some expire_at).
Definition cancelEvent (thread : Z) (fd : nat) (e : Event) (m : IoManager) : option (IoManager * bool) :=
  match find_context fd m with
  | Some p => r ← cancel_locked thread p fd e m; Some (removed r)
  | None => Some (m, false)
  end.

(** One event of several triggered under the lock. *)
Definition fire_if (b note : bool) (thread : Z) (p : nat) (e : Event) (m : IoManager) : option IoManager :=
  if b then '(m, expire_at) ← fire_event note thread p e m; Some (onIoWaitRemoved expire_at m) else Some m.
Definition waits (p : nat) (e : Event) (m : IoManager) : bool :=
  match io_heap m !! p with Some c => has e (fc_events c) | None => false end.

Definition cancel_all_locked (thread : Z) (p fd : nat) (m : IoManager) : option (IoManager * bool) :=
  c ← io_heap m !! p;
  if fc_events c =? 0 then Some (m, false)
  else
    let '(k, rt) := epoll_ctl EPOLL_CTL_DEL fd (0, p) (io_kernel m) in
    let m := set_kernel k m in
    if negb (rt =? 0) then Some (m, false)
    else
      m ← fire_if (waits p READ m) true thread p READ m;
      m ← fire_if (waits p WRITE m) true thread p WRITE m;
      c ← io_heap m !! p;
      if fc_events c =? 0 then Some (m, true) else None.
Definition cancelAll (thread : Z) (fd : nat) (m : IoManager) : option (IoManager * bool) :=
  match find_context fd m with Some p => cancel_all_locked thread p fd m | None => Some (m, false) end.

(** ** The idle loop *)

(** The wait given to [epoll_wait]: [MAX_TIMEOUT] without a deadline, and a cast to [int]. *)
Definition wait_ms (next_timeout : Z) : Z :=
  if negb (next_timeout =? UINT64_MAX) then if 3000 <? i32 next_timeout then 3000 else i32 next_timeout else 3000.

(** What [epoll_wait] reports: the pipe, or a context with its events. *)
Inductive Report : Type := Tickled | Ready (p : nat) (events : Z).

Definition real_events (reported events : Z) : Z :=
  let reported :=
    if negb (Z.land reported (Z.lor EPOLLERR EPOLLHUP) =? 0) then Z.lor reported (Z.land (Z.lor EPOLLIN EPOLLOUT) events)
    else reported in
  Z.lor (if negb (Z.land reported EPOLLIN =? 0) then bit READ else 0)
    (if negb (Z.land reported EPOLLOUT =? 0) then bit WRITE else 0).

Definition ready_locked (thread : Z) (p : nat) (reported : Z) (m : IoManager) : option IoManager :=
  c ← io_heap m !! p;
  let real := real_events reported (fc_events c) in
  if Z.land (fc_events c) real =? 0 then Some m
  else
    let left := Z.land (fc_events c) (Z.lnot real) in
    let '(m, ok) := ctl_without p (fc_fd c) left m in
    if negb ok then Some m
    else
      m ← fire_if (has READ real) false thread p READ m;
      fire_if (has WRITE real) false thread p WRITE m.
Definition report (thread : Z) (m : option IoManager) (r : Report) : option IoManager :=
  m ← m; match r with Tickled => Some m | Ready p events => ready_locked thread p events m end.

(** [checkIoExpired]: the waits whose time is over, then their flags and their cancellation. *)
Definition overdue (now : Z) (e : Event) (c : FdContext) : bool :=
  has e (fc_events c) && negb (ev_expire_at (getContext e c) =? 0) && (ev_expire_at (getContext e c) <=? now).
Definition expired_of (now : Z) (m : IoManager) (p : nat) : list (nat * Event * option nat) :=
  match io_heap m !! p with
  | Some c =>
      (if overdue now READ c then [(fc_fd c, READ, ev_cancel_flag (fc_read c))] else []) ++
      (if overdue now WRITE c then [(fc_fd c, WRITE, ev_cancel_flag (fc_write c))] else [])
  | None => []
  end.
Definition expire_item (thread : Z) (m : option IoManager) (item : nat * Event * option nat) : option IoManager :=
  m ← m;
  let '(fd, e, flag) := item in
  let m := match flag with Some a => write_flag a ETIMEDOUT m | None => m end in
  fst <$> cancelEvent thread fd e m.
Definition checkIoExpired (now thread : Z) (m : IoManager) : option IoManager :=
  let m := refresh_if_dirty m in
  if (m_nextIoExpire m =? UINT64_MAX) || (now <? m_nextIoExpire m) then Some m
  else foldl (expire_item thread) (Some m) (m_fdContexts m ≫= expired_of now m).

(** [stopping(timeout)]; [idle] is what [Scheduler::stopping] answers. *)
Definition stopping (now : Z) (idle : bool) (m : IoManager) : IoManager * Z * bool :=
  let '(t, timeout) := getNextTimer now (io_timers m) in
  let '(m, io_timeout) := getNextIoExpire now (set_io_timers t m) in
  let timeout := if timeout =? UINT64_MAX then io_timeout
                 else if negb (io_timeout =? UINT64_MAX) then Z.min timeout io_timeout else timeout in
  (m, timeout, (timeout =? UINT64_MAX) && (m_pendingEventCount m =? 0) && idle).

(** A turn of [idle] after [epoll_wait] returned [reports], the timers' callbacks scheduled on
    [self]; [n] is what it returned. *)
Definition idle_turn (self : nat) (now thread : Z) (tmp : nat) (n : Z) (reports : list Report) (m : IoManager)
  : option IoManager :=
  let '(t, _, cbs) := listExpiredCb now tmp (io_timers m) in
  let m := add_tasks ((λ cb, (self, TCb cb, -1)) <$> omap id cbs) (set_io_timers t m) in
  m ← foldl (report thread) (Some m) reports;
  if n <=? 0 then checkIoExpired now thread m else Some m.
End iomanager.
Arguments IoManager : clear implicits.

(** [do_io] ([hook.cc]): what it does on [EAGAIN], its flag at [a], and what it returns when its
    fiber runs again, if it does not try once more. *)
Definition do_io_wait `{epoll : !Epoll Kernel} (fd : nat) (e : Event) (fiber : nat) (timeout : Z) (a : nat) (now : Z)
    (s : option nat) (m : IoManager Kernel) : option (IoManager Kernel * Z) :=
  addEvent fd e None fiber timeout (Some a) now s (write_flag a 0 m).
Definition do_io_resumed {Kernel} (a : nat) (m : IoManager Kernel) : option Z :=
  if flag_of m a =? 0 then None else Some (flag_of m a).
