(* ===== verification/IoFacts.v ===== *)
(** * What the I/O manager keeps

    The invariant of [IoManager.v], which every section under a lock preserves, what its
    sections do to the tasks that wait, and its deadlines. *)

From Stdlib Require Import Permutation.
From stdpp Require Import options.
From AAC_tactics Require Import AAC.
From AAC_tactics Require Import Instances.
From S2P Require Import Prelude.
From S2P Require Import CStd.
From S2P Require Import Timer.
From S2P Require Import IoManager.

Import Instances.Lists.

#[local] Set Default Proof Using "Type*".

#[local] Instance perm_lift {A} : AAC_lift (@Permutation A) (@Permutation A).
Proof. split; [apply Permutation_Equivalence|solve_proper]. Qed.

(** ** Events as two booleans *)

Definition mask (r w : bool) : Z := Z.lor (if r then 1 else 0) (if w then 4 else 0).
Definition of_event {A} (e : Event) (r w : A) : A := match e with READ => r | WRITE => w end.

Lemma has_mask e r w : has e (mask r w) = of_event e r w.
Proof. by destruct e, r, w. Qed.

Lemma without_mask e r w : without e (mask r w) = of_event e (mask false w) (mask r false).
Proof. by destruct e, r, w. Qed.

Lemma with_mask e r w : Z.lor (mask r w) (bit e) = of_event e (mask true w) (mask r true).
Proof. by destruct e, r, w. Qed.

Lemma mask_zero r w : mask r w = 0 ↔ r = false ∧ w = false.
Proof. destruct r, w; split; intros H; (done || by destruct H). Qed.

Lemma mask_and r w r' w' : Z.land (mask r w) (mask r' w') = mask (r && r') (w && w').
Proof. by destruct r, w, r', w'. Qed.

Lemma mask_diff r w r' w' : Z.land (mask r w) (Z.lnot (mask r' w')) = mask (r && negb r') (w && negb w').
Proof. by destruct r, w, r', w'. Qed.

(** What epoll reports, as the events it is taken for. *)
Lemma real_events_mask reported events : ∃ r w, real_events reported events = mask r w.
Proof.
  unfold real_events. cbv zeta. set (x := if negb _ then Z.lor _ _ else _).
  exists (negb (Z.land x EPOLLIN =? 0)), (negb (Z.land x EPOLLOUT =? 0)). done.
Qed.

(** ** Contexts *)

(** A context that waits has a scheduler and either a fiber or a callback; one that does not
    is empty. *)
Definition ev_tasks (ev : EventContext) : list (nat * Task) :=
  match ev_scheduler ev, ev_cb ev, ev_fiber ev with
  | Some s, Some cb, _ => [(s, TCb cb)]
  | Some s, None, Some f => [(s, TFiber f)]
  | _, _, _ => []
  end.
Definition ev_ok (b : bool) (ev : EventContext) : Prop :=
  if b then (∃ s f, ev_scheduler ev = Some s ∧ ev_fiber ev = Some f ∧ ev_cb ev = None) ∨
                  (∃ s cb, ev_scheduler ev = Some s ∧ ev_fiber ev = None ∧ ev_cb ev = Some cb)
  else ev = EventContext0.
Definition ctx_ok (c : FdContext) : Prop :=
  ∃ r w, fc_events c = mask r w ∧ ev_ok r (fc_read c) ∧ ev_ok w (fc_write c).
Definition ctx_tasks (c : FdContext) : list (nat * Task) := ev_tasks (fc_read c) ++ ev_tasks (fc_write c).

(** The context without [e]. *)
Definition disarmed (e : Event) (c : FdContext) : FdContext :=
  set_context e EventContext0 (set_events (without e (fc_events c)) c).

Lemma disarmed_ok e c : ctx_ok c → ctx_ok (disarmed e c).
Proof.
  intros (r & w & Hm & Hr & Hw). unfold disarmed. rewrite Hm, without_mask. destruct e; cbn.
  - by exists false, w.
  - by exists r, false.
Qed.

Lemma ev_tasks_waiting ev : ev_ok true ev → ∃ s t, ev_scheduler ev = Some s ∧ ev_tasks ev = [(s, t)].
Proof.
  intros [(s & f & Hs & Hf & Hc)|(s & cb & Hs & Hf & Hc)]; unfold ev_tasks; rewrite Hs, Hf, Hc; eauto.
Qed.

Lemma has_ok e c : ctx_ok c → ev_ok (has e (fc_events c)) (getContext e c).
Proof. intros (r & w & Hm & Hr & Hw). rewrite Hm, has_mask. by destruct e. Qed.

Lemma disarmed_tasks e c : ctx_tasks c ≡ₚ ev_tasks (getContext e c) ++ ctx_tasks (disarmed e c).
Proof.
  destruct c, e; unfold ctx_tasks, disarmed; cbn; [done|]. by rewrite app_nil_r, Permutation_app_comm.
Qed.

(** ** The tasks that wait *)

Definition heap_tasks (heap : gmap nat FdContext) : list (nat * Task) := map_to_list heap ≫= λ pc, ctx_tasks pc.2.

Lemma heap_tasks_delete heap p c : heap !! p = Some c → heap_tasks heap ≡ₚ ctx_tasks c ++ heap_tasks (delete p heap).
Proof. intros Hp. unfold heap_tasks. by rewrite <-(map_to_list_delete heap p c Hp). Qed.

Lemma heap_tasks_insert heap p c c' :
  heap !! p = Some c → ctx_tasks c ++ heap_tasks (<[p := c']> heap) ≡ₚ ctx_tasks c' ++ heap_tasks heap.
Proof.
  intros Hp. rewrite (heap_tasks_delete heap p c), (heap_tasks_delete (<[p := c']> heap) p c') by (done || by rewrite lookup_insert_eq).
  rewrite delete_insert_eq. rewrite !(assoc_L app). by rewrite (Permutation_app_comm (ctx_tasks c)).
Qed.

Lemma heap_tasks_fresh heap p c : heap !! p = None → heap_tasks (<[p := c]> heap) ≡ₚ ctx_tasks c ++ heap_tasks heap.
Proof. intros Hp. unfold heap_tasks. by rewrite (map_to_list_insert heap p c Hp). Qed.

Section facts.
Context {Kernel : Type} `{epoll : !Epoll Kernel}.
Implicit Types m : IoManager Kernel.

Record heap_ok m : Prop := mkHeapOk {
  ho_ctx : map_Forall (λ _ c, ctx_ok c) (io_heap m);
  ho_pending : m_pendingEventCount m = u64 (Z.of_nat (length (heap_tasks (io_heap m))));
  ho_vector : ∀ fd p, m_fdContexts m !! fd = Some p → ∃ c, io_heap m !! p = Some c ∧ fc_fd c = fd
}.

(** The list of interest holds exactly the contexts with events, with their events. *)
Definition kernel_ok m : Prop := ∀ fd events p,
  interest (io_kernel m) !! fd = Some (events, p) ↔
  ∃ c, io_heap m !! p = Some c ∧ fc_fd c = fd ∧ fc_events c ≠ 0 ∧ events = Z.lor EPOLLET (fc_events c).

Record io_ok m : Prop := mkIoOk { io_heap_ok : heap_ok m; io_kernel_ok : kernel_ok m }.

(** [m'] comes from [m] by [added] tasks that began to wait, [dropped] that stopped, and the
    ones handed to their schedulers. *)
Definition handed (added dropped : list (nat * Task)) m m' : Prop :=
  ∃ sent, io_tasks m' = io_tasks m ++ sent ∧
    added ++ heap_tasks (io_heap m) ≡ₚ dropped ++ sent.*1 ++ heap_tasks (io_heap m').

(** What a change of deadlines, flags and tickles leaves as it is. *)
Record same_waits m m' : Prop := mkSame {
  sw_heap : io_heap m' = io_heap m;
  sw_vector : m_fdContexts m' = m_fdContexts m;
  sw_pending : m_pendingEventCount m' = m_pendingEventCount m;
  sw_tasks : io_tasks m' = io_tasks m;
  sw_kernel : io_kernel m' = io_kernel m
}.

Lemma same_ok m m' : same_waits m m' → io_ok m → io_ok m'.
Proof.
  intros [Hh Hv Hp Ht Hk] [[H1 H2 H3] H4]. split; [split|].
  - by rewrite Hh.
  - by rewrite Hh, Hp.
  - by rewrite Hh, Hv.
  - unfold kernel_ok. by rewrite Hh, Hk.
Qed.

Lemma same_handed m m' : same_waits m m' → handed [] [] m m'.
Proof. intros [Hh _ _ Ht _]. exists []. by rewrite Ht, Hh, app_nil_r. Qed.

Lemma same_refl m : same_waits m m.
Proof. by split. Qed.

Lemma same_trans m1 m2 m3 : same_waits m1 m2 → same_waits m2 m3 → same_waits m1 m3.
Proof. intros [] []. split; congruence. Qed.

Lemma added_same expire_at m : same_waits m (onIoWaitAdded expire_at m).
Proof. unfold onIoWaitAdded. destruct (_ =? _); [done|]. by destruct (_ || _). Qed.

Lemma removed_same expire_at m : same_waits m (onIoWaitRemoved expire_at m).
Proof. unfold onIoWaitRemoved. by destruct (_ && _). Qed.

Lemma refresh_same m : same_waits m (refresh_if_dirty m).
Proof. unfold refresh_if_dirty, refreshNextIoExpire. by destruct (m_ioExpireDirty m). Qed.

Lemma note_same note flag m : same_waits m (note_flag note flag m).
Proof. unfold note_flag. destruct flag; [|done]. by destruct (_ && _). Qed.

Lemma handed_trans a1 d1 a2 d2 m1 m2 m3 : handed a1 d1 m1 m2 → handed a2 d2 m2 m3 → handed (a2 ++ a1) (d1 ++ d2) m1 m3.
Proof.
  intros (s1 & H1 & P1) (s2 & H2 & P2). exists (s1 ++ s2). rewrite H2, H1, fmap_app, <-app_assoc. split; [done|].
  aac_rewrite P1. aac_rewrite P2. aac_reflexivity.
Qed.

Lemma handed_same_r a d m m1 m2 : handed a d m m1 → same_waits m1 m2 → handed a d m m2.
Proof. intros (s & H & P) [Hh _ _ Ht _]. exists s. by rewrite Ht, Hh. Qed.

Lemma handed_same_l a d m m1 m2 : same_waits m m1 → handed a d m1 m2 → handed a d m m2.
Proof. intros [Hh _ _ Ht _] (s & H & P). exists s. by rewrite <-Ht, <-Hh. Qed.

(** ** One context changed *)

Lemma u64_shift a b : u64 (u64 a + b) = u64 (a + b).
Proof. unfold u64. by rewrite Z.add_mod_idemp_l. Qed.

Lemma heap_put m m' p c c' n :
  heap_ok m → io_heap m !! p = Some c → ctx_ok c' → fc_fd c' = fc_fd c →
  io_heap m' = <[p := c']> (io_heap m) → m_fdContexts m' = m_fdContexts m →
  m_pendingEventCount m' = u64 (m_pendingEventCount m + n) →
  Z.of_nat (length (ctx_tasks c')) = Z.of_nat (length (ctx_tasks c)) + n → heap_ok m'.
Proof.
  intros [H1 H2 H3] Hp Hc Hfd Hh Hv Hn Hl. split.
  - rewrite Hh. by apply map_Forall_insert_2.
  - rewrite Hh, Hn, H2, u64_shift. f_equal. pose proof (Permutation_length (heap_tasks_insert _ p c c' Hp)) as Hlen.
    rewrite !length_app in Hlen. lia.
  - rewrite Hh, Hv. intros fd q Hq. destruct (H3 fd q Hq) as (c1 & Hc1 & Hfd1). destruct (decide (q = p)) as [->|Hne].
    + exists c'. rewrite lookup_insert_eq. simplify_eq. by rewrite Hfd.
    + exists c1. by rewrite lookup_insert_ne.
Qed.

(** epoll told of the new events of a context. *)
Lemma kernel_put m m' p c c' :
  kernel_ok m → io_heap m !! p = Some c → fc_fd c' = fc_fd c → io_heap m' = <[p := c']> (io_heap m) →
  (fc_events c = 0 → interest (io_kernel m) !! fc_fd c = None) →
  interest (io_kernel m') = (if fc_events c' =? 0 then delete (fc_fd c) (interest (io_kernel m))
                             else <[fc_fd c := (Z.lor EPOLLET (fc_events c'), p)]> (interest (io_kernel m))) →
  kernel_ok m'.
Proof.
  intros Hk Hp Hfd Hh Hnew Hi fd events q. unfold kernel_ok in Hk. rewrite Hi, Hh.
  assert (∀ q c1, io_heap m !! q = Some c1 → fc_events c1 ≠ 0 → fc_fd c1 = fc_fd c → q = p ∨ fc_events c = 0) as Hone.
  { intros q1 c1 Hq1 He1 Hf1. destruct (decide (fc_events c = 0)) as [|He]; [by right|left].
    assert (interest (io_kernel m) !! fc_fd c = Some (Z.lor EPOLLET (fc_events c), p)) as E by (apply Hk; eauto).
    assert (interest (io_kernel m) !! fc_fd c = Some (Z.lor EPOLLET (fc_events c1), q1)) as E1 by (apply Hk; eauto).
    congruence. }
  assert (∀ q c1, io_heap m !! q = Some c1 → fc_events c1 ≠ 0 → fc_fd c1 = fc_fd c → q = p) as Hone'.
  { intros q1 c1 Hq1 He1 Hf1. destruct (Hone q1 c1 Hq1 He1 Hf1) as [|He]; [done|]. exfalso.
    assert (interest (io_kernel m) !! fc_fd c = Some (Z.lor EPOLLET (fc_events c1), q1)) as E1 by (apply Hk; eauto).
    rewrite (Hnew He) in E1. discriminate. }
  destruct (Z.eqb_spec (fc_events c') 0) as [Hz|Hz].
  - rewrite lookup_delete_Some, Hk. split.
    + intros [Hne (c1 & Hq & Hf & He & Hev)]. exists c1. rewrite lookup_insert_ne by (intros ->; simplify_eq). done.
    + intros (c1 & Hq & Hf & He & Hev). rewrite lookup_insert_Some in Hq. destruct Hq as [[-> ->]|[Hne Hq]]; [done|].
      split; [|by exists c1]. intros <-. symmetry in Hf. apply Hne. symmetry. by eapply Hone'.
  - rewrite lookup_insert_Some, Hk. split.
    + intros [[<- [= <- <-]]|[Hne (c1 & Hq & Hf & He & Hev)]].
      * exists c'. by rewrite lookup_insert_eq.
      * exists c1. rewrite lookup_insert_ne by (intros ->; simplify_eq). done.
    + intros (c1 & Hq & Hf & He & Hev). rewrite lookup_insert_Some in Hq. destruct Hq as [[-> ->]|[Hne Hq]].
      * left. by rewrite <-Hfd, Hev.
      * right. split; [|by exists c1]. intros <-. apply Hne. symmetry. by eapply Hone'.
Qed.
(** ** The sections *)

Lemma fire_event_spec note thread p e c m :
  io_heap m !! p = Some c → ctx_ok c → has e (fc_events c) = true →
  ∃ s t, ev_tasks (getContext e c) = [(s, t)] ∧
    fire_event note thread p e m =
      Some (add_tasks [(s, t, thread)] (put_context p (disarmed e c)
              (set_pending (u64 (m_pendingEventCount m - 1)) (note_flag note (ev_cancel_flag (getContext e c)) m))),
            ev_expire_at (getContext e c)).
Proof.
  intros Hp Hc Hhas. pose proof (has_ok e c Hc) as Hev. rewrite Hhas in Hev.
  assert (has e (fc_events (set_context e (mkEvent (ev_scheduler (getContext e c)) (ev_fiber (getContext e c))
    (ev_cb (getContext e c)) 0 None) c)) = true) as Hhas' by (by destruct e).
  unfold fire_event. rewrite Hp. cbn [mbind option_bind]. unfold triggerEvent. rewrite Hhas'.
  destruct Hev as [(s & f & Hs & Hf & Hcb)|(s & cb & Hs & Hf & Hcb)].
  - exists s, (TFiber f). unfold ev_tasks. rewrite Hs, Hf, Hcb. split; [done|].
    clear -Hs Hf Hcb epoll. destruct c as [[] [] ? ?], e; cbn in *; subst; cbn; by rewrite (sw_pending _ _ (note_same note _ m)).
  - exists s, (TCb cb). unfold ev_tasks. rewrite Hs, Hf, Hcb. split; [done|].
    clear -Hs Hf Hcb epoll. destruct c as [[] [] ? ?], e; cbn in *; subst; cbn; by rewrite (sw_pending _ _ (note_same note _ m)).
Qed.

(** What a fired event leaves: the heap, the count, and the task handed over. *)
Lemma fire_event_moves m m' note thread p e c expire :
  heap_ok m → io_heap m !! p = Some c → has e (fc_events c) = true →
  fire_event note thread p e m = Some (m', expire) →
  heap_ok m' ∧ handed [] [] m m' ∧ io_heap m' = <[p := disarmed e c]> (io_heap m) ∧ io_kernel m' = io_kernel m ∧
  m_fdContexts m' = m_fdContexts m.
Proof.
  intros Hok Hp Hhas E. pose proof (ho_ctx _ Hok p c Hp) as Hc.
  destruct (fire_event_spec note thread p e c m Hp Hc Hhas) as (s & t & Ht & E').
  rewrite E' in E. injection E as <- <-. pose proof (note_same note (ev_cancel_flag (getContext e c)) m) as [Nh Nv Np Nt Nk].
  pose proof (disarmed_tasks e c) as Htasks. rewrite Ht in Htasks.
  split_and!.
  - eapply (heap_put m _ p c (disarmed e c) (-1)); [done|done|by apply disarmed_ok|by destruct e| | | |].
    + cbn. by rewrite Nh.
    + cbn. by rewrite Nv.
    + cbn. done.
    + apply Permutation_length in Htasks. cbn [length app] in Htasks. lia.
  - exists [(s, t, thread)]. cbn. rewrite Nt, Nh. split; [done|].
    pose proof (heap_tasks_insert _ p c (disarmed e c) Hp) as P. rewrite Htasks in P. cbn [app fmap list_fmap fst] in *.
    apply (Permutation_app_inv_l (ctx_tasks (disarmed e c))). rewrite <-P. by rewrite Permutation_middle.
  - cbn. by rewrite Nh.
  - cbn. by rewrite Nk.
  - cbn. by rewrite Nv.
Qed.

Lemma ctl_keeps p fd events m : io_ok m →
  ∀ c, io_heap m !! p = Some c → fc_fd c = fd → fc_events c ≠ 0 →
  ∃ k, ctl_without p fd events m = (set_kernel k m, true) ∧
    interest k = if events =? 0 then delete fd (interest (io_kernel m))
                 else <[fd := (Z.lor EPOLLET events, p)]> (interest (io_kernel m)).
Proof.
  intros [_ Hk] c Hp Hfd He. assert (is_Some (interest (io_kernel m) !! fd)) as Hi.
  { exists (Z.lor EPOLLET (fc_events c), p). apply Hk. by exists c. }
  unfold ctl_without, op_of. destruct (Z.eqb_spec events 0) as [->|Hne].
  - destruct (ctl_del fd (Z.lor EPOLLET 0, p) (io_kernel m) Hi) as [H1 H2]. destruct (epoll_ctl _ _ _ _) as [k rt].
    cbn in *. subst rt. by exists k.
  - destruct (ctl_mod fd (Z.lor EPOLLET events, p) (io_kernel m) Hi) as [H1 H2]. destruct (epoll_ctl _ _ _ _) as [k rt].
    cbn in *. subst rt. by exists k.
Qed.

Lemma has_nonzero e events : has e events = true → events ≠ 0.
Proof. intros H ->. by destruct e. Qed.

Lemma set_kernel_heap k m : heap_ok m → heap_ok (set_kernel k m).
Proof. by intros [H1 H2 H3]. Qed.

Lemma cancel_locked_ok thread p e c m : io_ok m → io_heap m !! p = Some c →
  ∃ m' r, cancel_locked thread p (fc_fd c) e m = Some (m', r) ∧ io_ok m' ∧ handed [] [] m m' ∧
    if has e (fc_events c) then r = Some (ev_expire_at (getContext e c)) else r = None ∧ m' = m.
Proof.
  intros Hok Hp. unfold cancel_locked. rewrite Hp. cbn [mbind option_bind].
  destruct (has e (fc_events c)) eqn:Hhas; cbn [negb];
    [|exists m, None; split; [done|]; split; [done|]; split; [apply same_handed, same_refl|done]].
  destruct (ctl_keeps p (fc_fd c) (without e (fc_events c)) m Hok c Hp eq_refl (has_nonzero _ _ Hhas)) as (k & -> & Hi).
  cbn [negb]. pose proof (set_kernel_heap k m (io_heap_ok _ Hok)) as Hh.
  assert (ctx_ok c) as Hc by (by apply (ho_ctx _ Hh p)).
  destruct (fire_event_spec true thread p e c (set_kernel k m) Hp Hc Hhas) as (s & t & Ht & E).
  destruct (fire_event_moves _ _ _ _ _ _ _ _ Hh Hp Hhas E) as (Hh' & Hm & Hheap & Hker & _).
  rewrite E. cbn [mbind option_bind]. eexists _, _. split; [done|]. split; [|split; [exact Hm|done]].
  split; [done|]. eapply (kernel_put m _ p c (disarmed e c)); [apply Hok|done|by destruct e|done| |].
  - intros Hz. by rewrite Hz in Hhas; destruct e.
  - rewrite Hker. cbn. rewrite Hi. replace (fc_events (disarmed e c)) with (without e (fc_events c)) by (by destruct e). done.
Qed.

Lemma del_locked_ok p e c m : io_ok m → io_heap m !! p = Some c →
  ∃ m' r, del_locked p (fc_fd c) e m = Some (m', r) ∧ io_ok m' ∧
    if has e (fc_events c) then r = Some (ev_expire_at (getContext e c)) ∧ handed [] (ev_tasks (getContext e c)) m m' ∧
      io_tasks m' = io_tasks m
    else r = None ∧ m' = m.
Proof.
  intros Hok Hp. unfold del_locked. rewrite Hp. cbn [mbind option_bind].
  destruct (has e (fc_events c)) eqn:Hhas; cbn [negb]; [|by exists m, None].
  destruct (ctl_keeps p (fc_fd c) (without e (fc_events c)) m Hok c Hp eq_refl (has_nonzero _ _ Hhas)) as (k & -> & Hi).
  cbn [negb]. pose proof (io_heap_ok _ Hok) as Hh. pose proof (ho_ctx _ Hh p c Hp) as Hc.
  pose proof (has_ok e c Hc) as Hev. rewrite Hhas in Hev. destruct (ev_tasks_waiting _ Hev) as (s & t & _ & Ht).
  pose proof (disarmed_tasks e c) as Htasks. rewrite Ht in *.
  eexists _, _. split; [done|]. split; [split|].
  - eapply (heap_put m _ p c (disarmed e c) (-1)); [done|done|by apply disarmed_ok|by destruct e|done..|].
    apply Permutation_length in Htasks. cbn [length app] in Htasks. lia.
  - eapply (kernel_put m _ p c (disarmed e c)); [apply Hok|done|by destruct e|done| |].
    + intros Hz. by rewrite Hz in Hhas; destruct e.
    + cbn. rewrite Hi. replace (fc_events (disarmed e c)) with (without e (fc_events c)) by (by destruct e). done.
  - split; [done|]. split; [|done]. exists []. cbn. rewrite app_nil_r. split; [done|].
    pose proof (heap_tasks_insert _ p c (disarmed e c) Hp) as P. rewrite Htasks in P. cbn [app fmap list_fmap fst] in *.
    apply (Permutation_app_inv_l (ctx_tasks (disarmed e c))). rewrite <-P. by rewrite Permutation_middle.
Qed.
Definition disarmed_if (b : bool) (e : Event) (c : FdContext) : FdContext := if b then disarmed e c else c.

Lemma fire_if_ok b note thread p e c m :
  heap_ok m → io_heap m !! p = Some c → (b = true → has e (fc_events c) = true) →
  ∃ m', fire_if b note thread p e m = Some m' ∧ heap_ok m' ∧ handed [] [] m m' ∧
    io_heap m' = <[p := disarmed_if b e c]> (io_heap m) ∧ io_kernel m' = io_kernel m ∧ m_fdContexts m' = m_fdContexts m.
Proof.
  intros Hok Hp Hb. destruct b; cbn [fire_if disarmed_if].
  - specialize (Hb eq_refl). pose proof (ho_ctx _ Hok p c Hp) as Hc.
    destruct (fire_event_spec note thread p e c m Hp Hc Hb) as (s & t & _ & E).
    destruct (fire_event_moves _ _ _ _ _ _ _ _ Hok Hp Hb E) as (Hh & Hm & Hheap & Hk & Hv). rewrite E. cbn [mbind option_bind].
    set (m1 := add_tasks _ _) in *. pose proof (removed_same (ev_expire_at (getContext e c)) m1) as Hs.
    eexists. split; [done|]. split; [|split; [by eapply handed_same_r|]].
    + destruct Hs as [S1 S2 S3 S4 S5]. destruct Hh as [H1 H2 H3]. split; rewrite S1; [done|by rewrite S3|by rewrite S2].
    + destruct Hs as [S1 S2 S3 S4 S5]. by rewrite S1, S5, S2.
  - exists m. split; [done|]. split; [done|]. split; [apply same_handed, same_refl|]. by rewrite insert_id.
Qed.

Lemma fire_both r w note thread p c m :
  heap_ok m → io_heap m !! p = Some c → (r = true → has READ (fc_events c) = true) →
  (w = true → has WRITE (fc_events c) = true) →
  ∃ m1 m', fire_if r note thread p READ m = Some m1 ∧ waits p WRITE m1 = has WRITE (fc_events c) ∧
    fire_if w note thread p WRITE m1 = Some m' ∧ heap_ok m' ∧ handed [] [] m m' ∧
    io_heap m' = <[p := disarmed_if w WRITE (disarmed_if r READ c)]> (io_heap m) ∧ io_kernel m' = io_kernel m ∧
    m_fdContexts m' = m_fdContexts m.
Proof.
  intros Hok Hp Hr Hw. pose proof (ho_ctx _ Hok p c Hp) as (rd & wr & Hev & _).
  assert (has WRITE (fc_events (disarmed_if r READ c)) = has WRITE (fc_events c)) as Hwr.
  { destruct r; [|done]. cbn. rewrite Hev. by destruct rd, wr. }
  destruct (fire_if_ok r note thread p READ c m Hok Hp Hr) as (m1 & E1 & Hok1 & M1 & H1 & K1 & V1).
  destruct (fire_if_ok w note thread p WRITE (disarmed_if r READ c) m1 Hok1) as (m' & E2 & Hok2 & M2 & H2 & K2 & V2).
  - by rewrite H1, lookup_insert_eq.
  - by rewrite Hwr.
  - exists m1, m'. split; [done|]. split; [unfold waits; by rewrite H1, lookup_insert_eq|]. split; [done|]. split; [done|].
    split; [by eapply (handed_trans [] [] [] [])|]. split; [by rewrite H2, H1, insert_insert_eq|].
    split; [by rewrite K2|by rewrite V2].
Qed.

Lemma disarmed_both_events r w c : ctx_ok c →
  fc_events (disarmed_if w WRITE (disarmed_if r READ c)) = Z.land (fc_events c) (Z.lnot (mask r w)) ∧
  fc_fd (disarmed_if w WRITE (disarmed_if r READ c)) = fc_fd c.
Proof.
  intros (rd & wr & Hev & _). destruct c as [a b fd events]. cbn in Hev. subst events. destruct r, w; cbn; by destruct rd, wr.
Qed.

Lemma cancel_all_ok thread p c m : io_ok m → io_heap m !! p = Some c →
  ∃ m' b, cancel_all_locked thread p (fc_fd c) m = Some (m', b) ∧ io_ok m' ∧ handed [] [] m m' ∧
    b = negb (fc_events c =? 0) ∧ io_heap m' = <[p := set_events 0 (mkFd EventContext0 EventContext0 (fc_fd c) 0)]> (io_heap m).
Proof.
  intros Hok Hp. pose proof (io_heap_ok _ Hok) as Hh. pose proof (ho_ctx _ Hh p c Hp) as Hc.
  destruct Hc as (rd & wr & Hev & Hrd & Hwr). unfold cancel_all_locked. rewrite Hp. cbn [mbind option_bind].
  destruct (Z.eqb_spec (fc_events c) 0) as [Hz|Hz].
  { exists m, false. split; [done|]. split; [done|]. split; [apply same_handed, same_refl|]. split; [done|].
    rewrite Hev in Hz. apply mask_zero in Hz as [-> ->]. cbn in Hrd, Hwr. rewrite insert_id; [done|]. rewrite Hp.
    destruct c. cbn in *. by subst. }
  assert (is_Some (interest (io_kernel m) !! fc_fd c)) as Hi.
  { exists (Z.lor EPOLLET (fc_events c), p). apply Hok. by exists c. }
  destruct (ctl_del (fc_fd c) (0, p) (io_kernel m) Hi) as [E1 E2]. destruct (epoll_ctl _ _ _ _) as [k rt]. cbn [fst snd] in *.
  subst rt. cbn [Z.eqb negb]. pose proof (set_kernel_heap k m Hh) as Hhk.
  destruct (fire_both (has READ (fc_events c)) (has WRITE (fc_events c)) true thread p c (set_kernel k m) Hhk Hp)
    as (m1 & m' & F1 & W1 & F2 & Hok' & Hm & Hheap & Hk & Hv); [done..|].
  assert (waits p READ (set_kernel k m) = has READ (fc_events c)) as -> by (unfold waits; cbn; by rewrite Hp).
  rewrite F1. cbn [mbind option_bind]. rewrite W1, F2. cbn [mbind option_bind]. rewrite Hheap, lookup_insert_eq.
  set (c' := disarmed_if _ WRITE _) in *.
  assert (c' = mkFd EventContext0 EventContext0 (fc_fd c) 0) as Hc'.
  { subst c'. destruct c as [a b fd events]. cbn in *. subst events. destruct rd, wr; cbn in *; by subst. }
  rewrite Hc' in *. cbn [fc_events Z.eqb]. exists m', true. split; [done|]. split; [split; [done|]|].
  - eapply (kernel_put m _ p c _); [apply Hok|done| |exact Hheap|done|]; [done|]. rewrite Hk. exact E2.
  - split; [exact Hm|]. split; [done|]. by rewrite Hheap.
Qed.

(** epoll may only report what it was told to: else the second event is triggered without a
    waiter, which is an assertion. *)
Lemma ready_ok thread p reported c m : io_ok m → io_heap m !! p = Some c →
  let real := real_events reported (fc_events c) in
  if Z.land (fc_events c) real =? 0 then ready_locked thread p reported m = Some m
  else if Z.land real (Z.lnot (fc_events c)) =? 0 then
    ∃ m', ready_locked thread p reported m = Some m' ∧ io_ok m' ∧ handed [] [] m m'
  else ready_locked thread p reported m = None.
Proof.
  intros Hok Hp real. pose proof (io_heap_ok _ Hok) as Hh. pose proof (ho_ctx _ Hh p c Hp) as Hc.
  unfold ready_locked. rewrite Hp. cbn [mbind option_bind]. fold real.
  destruct (Z.eqb_spec (Z.land (fc_events c) real) 0) as [|Hz]; [done|].
  destruct (real_events_mask reported (fc_events c)) as (r & w & Hreal). fold real in Hreal. rewrite Hreal in *.
  assert (fc_events c ≠ 0) as He by (intros E; by rewrite E in Hz).
  destruct (ctl_keeps p (fc_fd c) (Z.land (fc_events c) (Z.lnot (mask r w))) m Hok c Hp eq_refl He) as (k & -> & Hi).
  cbn [negb]. rewrite !has_mask. cbn [of_event]. pose proof (set_kernel_heap k m Hh) as Hhk.
  pose proof Hc as (rd & wr & Hev & _).
  destruct (Z.eqb_spec (Z.land (mask r w) (Z.lnot (fc_events c))) 0) as [Hsub|Hsub].
  - destruct (fire_both r w false thread p c (set_kernel k m) Hhk Hp)
      as (m1 & m' & F1 & _ & F2 & Hok' & Hm & Hheap & Hk & Hv).
    { intros ->. rewrite Hev in *. rewrite has_mask. rewrite mask_diff, mask_zero in Hsub. by destruct rd, Hsub. }
    { intros ->. rewrite Hev in *. rewrite has_mask. rewrite mask_diff, mask_zero in Hsub. by destruct wr, Hsub. }
    exists m'. rewrite F1. cbn [mbind option_bind]. split; [done|]. split; [split; [done|]|exact Hm].
    destruct (disarmed_both_events r w c Hc) as [Ev Fd].
    eapply (kernel_put m _ p c _); [apply Hok|done|exact Fd|exact Hheap|done|]. rewrite Hk, Ev. exact Hi.
  - rewrite Hev in *. rewrite mask_diff, mask_zero in Hsub. rewrite mask_and, mask_zero in Hz.
    assert (∀ e b, of_event e r w = true → of_event e rd wr = false → b = true →
      ∀ m, io_heap m !! p = Some c → fire_if b false thread p e m = None) as Hnone.
    { intros e b Hr Hrd -> m2 Hm2. cbn [fire_if]. unfold fire_event. rewrite Hm2. cbn [mbind option_bind]. unfold triggerEvent.
      replace (fc_events (set_context e _ c)) with (fc_events c) by (by destruct e). by rewrite Hev, has_mask, Hrd. }
    destruct r, rd; cbn in Hsub, Hz.
    + destruct (fire_if_ok true false thread p READ c (set_kernel k m) Hhk Hp) as (m1 & F1 & Hok1 & _ & H1 & _ & _).
      { intros _. by rewrite Hev, has_mask. }
      rewrite F1. cbn [mbind option_bind]. destruct w, wr; try (exfalso; by apply Hsub).
      cbn [fire_if]. unfold fire_event. rewrite H1, lookup_insert_eq. cbn [mbind option_bind disarmed_if]. unfold triggerEvent.
      replace (has WRITE _) with false; [done|]. cbn. by rewrite Hev.
    + by rewrite (Hnone READ true).
    + destruct w, wr; exfalso; (by apply Hsub) || (by apply Hz).
    + destruct w, wr; exfalso; (by apply Hsub) || (by apply Hz).
Qed.
Definition task_of (cb : option nat) (fiber : nat) : Task := match cb with Some cb => TCb cb | None => TFiber fiber end.
Definition expire_of (now timeout_ms : Z) : Z := if timeout_ms =? UINT64_MAX then 0 else u64 (now + timeout_ms).

(** The context that begins to wait. *)
Definition armed_ctx (e : Event) (cb : option nat) (fiber : nat) (timeout_ms : Z) (flag : option nat) (now : Z) (s : nat)
    (c : FdContext) : FdContext :=
  set_context e (mkEvent (Some s) (match cb with Some _ => None | None => Some fiber end) cb (expire_of now timeout_ms)
                   (if expire_of now timeout_ms =? 0 then None else flag))
    (set_events (Z.lor (fc_events c) (bit e)) c).

Lemma armed_ctx_ok e cb fiber timeout_ms flag now s c : ctx_ok c → has e (fc_events c) = false →
  ctx_ok (armed_ctx e cb fiber timeout_ms flag now s c) ∧
  ctx_tasks (armed_ctx e cb fiber timeout_ms flag now s c) ≡ₚ (s, task_of cb fiber) :: ctx_tasks c.
Proof.
  intros (r & w & Hev & Hr & Hw) Hhas. rewrite Hev, has_mask in Hhas. unfold armed_ctx. rewrite Hev, with_mask.
  assert (∀ d a, ev_ok true (mkEvent (Some s) (match cb with Some _ => None | None => Some fiber end) cb d a)) as Hok.
  { intros d a. destruct cb as [cb|]; [right|left]; eauto. }
  destruct e; cbn in Hhas; subst; unfold ctx_tasks; cbn in *.
  - split; [|rewrite Hr; by destruct cb]. exists true, w. split; [done|]. split; [exact (Hok 0 None)|exact Hw].
  - split; [|rewrite Hw; cbn; rewrite app_nil_r, Permutation_app_comm; by destruct cb].
    exists r, true. split; [done|]. split; [exact Hr|exact (Hok 0 None)].
Qed.

Lemma add_locked_spec p e cb fiber timeout_ms flag now s c m : io_ok m → io_heap m !! p = Some c →
  has e (fc_events c) = false →
  ∃ k rt, epoll_ctl (op_of (fc_events c) EPOLL_CTL_ADD) (fc_fd c) (Z.lor EPOLLET (Z.lor (fc_events c) (bit e)), p) (io_kernel m) = (k, rt) ∧
    add_locked p (fc_fd c) e cb fiber timeout_ms flag now (Some s) m =
      Some (if rt =? 0 then
              (put_context p (armed_ctx e cb fiber timeout_ms flag now s c)
                 (set_pending (u64 (m_pendingEventCount m + 1)) (set_kernel k m)), Some (expire_of now timeout_ms))
            else (set_kernel k m, None)).
Proof.
  intros Hok Hp Hhas. destruct (epoll_ctl _ _ _ _) as [k rt] eqn:E. exists k, rt. split; [done|].
  unfold add_locked. rewrite Hp. cbn [mbind option_bind]. rewrite Hhas, E. destruct (rt =? 0); cbn [negb]; [|done].
  pose proof (has_ok e c (ho_ctx _ (io_heap_ok _ Hok) p c Hp)) as Hev. rewrite Hhas in Hev. cbn in Hev. by rewrite Hev.
Qed.

Lemma add_locked_ok p e cb fiber timeout_ms flag now s c m : io_ok m → io_heap m !! p = Some c →
  has e (fc_events c) = false →
  ∃ m' r, add_locked p (fc_fd c) e cb fiber timeout_ms flag now (Some s) m = Some (m', r) ∧ io_ok m' ∧
    (r = None ∨ r = Some (expire_of now timeout_ms)) ∧
    handed (match r with Some _ => [(s, task_of cb fiber)] | None => [] end) [] m m'.
Proof.
  intros Hok Hp Hhas. pose proof (io_heap_ok _ Hok) as Hh. pose proof (ho_ctx _ Hh p c Hp) as Hc.
  destruct (add_locked_spec p e cb fiber timeout_ms flag now s c m Hok Hp Hhas) as (k & rt & E & ->).
  destruct (armed_ctx_ok e cb fiber timeout_ms flag now s c Hc Hhas) as [Harm Htasks]. set (c' := armed_ctx _ _ _ _ _ _ _ _) in *.
  assert (fc_fd c' = fc_fd c) as Hfd by (by destruct e).
  assert (fc_events c' = Z.lor (fc_events c) (bit e)) as Hev by (by destruct e).
  assert (fc_events c' ≠ 0) as Hne.
  { rewrite Hev. destruct Hc as (r & w & -> & _). rewrite with_mask. by destruct e, r, w. }
  destruct (Z.eqb_spec rt 0) as [->|Hrt].
  - eexists _, _. split; [done|]. split; [split|split; [by right|]].
    + eapply (heap_put m _ p c c' 1); [done|done|done|done|done..|].
      apply Permutation_length in Htasks. cbn [length] in Htasks. lia.
    + assert ((fc_events c = 0 → interest (io_kernel m) !! fc_fd c = None) ∧
              interest k = <[fc_fd c := (Z.lor EPOLLET (fc_events c'), p)]> (interest (io_kernel m))) as [Hnew Hi].
      { rewrite Hev. unfold op_of in E. destruct (Z.eqb_spec (fc_events c) 0) as [Hz|Hz].
        - pose proof (ctl_add (fc_fd c) (Z.lor EPOLLET (Z.lor (fc_events c) (bit e)), p) (io_kernel m)) as Hadd.
          rewrite E in Hadd. destruct (Hadd eq_refl). done.
        - pose proof (ctl_mod (fc_fd c) (Z.lor EPOLLET (Z.lor (fc_events c) (bit e)), p) (io_kernel m)) as Hmod.
          rewrite E in Hmod. destruct Hmod as [_ Hmod]; [|done].
          exists (Z.lor EPOLLET (fc_events c), p). apply Hok. by exists c. }
      eapply (kernel_put m _ p c c'); [apply Hok|done|done|done|exact Hnew|]. cbn. rewrite Hi.
      by destruct (Z.eqb_spec (fc_events c') 0).
    + exists []. cbn. rewrite app_nil_r. split; [done|]. pose proof (heap_tasks_insert _ p c c' Hp) as P.
      rewrite Htasks in P. apply (Permutation_app_inv_l (ctx_tasks c)). rewrite P. cbn [app fmap list_fmap].
      by rewrite Permutation_middle.
  - eexists _, _. split; [done|]. split; [split|split; [by left|]].
    + by apply set_kernel_heap.
    + intros fd events q. cbn. pose proof (ctl_failed (op_of (fc_events c) EPOLL_CTL_ADD) (fc_fd c)
        (Z.lor EPOLLET (Z.lor (fc_events c) (bit e)), p) (io_kernel m)) as Hf.
      rewrite E in Hf. cbn in Hf. rewrite Hf by done. apply Hok.
    + exists []. cbn. by rewrite app_nil_r.
Qed.

(** ** More contexts *)

Lemma alloc_spec n fd heap heap' l : alloc_contexts n fd heap = (heap', l) →
  heap ⊆ heap' ∧ heap_tasks heap' ≡ₚ heap_tasks heap ∧ length l = n ∧
  (∀ p c, heap' !! p = Some c → heap !! p = None → c = FdContext0 (fc_fd c)) ∧
  (∀ i p, l !! i = Some p → heap' !! p = Some (FdContext0 (fd + i))).
Proof.
  revert fd heap heap' l. induction n as [|n IH]; intros fd heap heap' l E; cbn [alloc_contexts] in E.
  - injection E as <- <-. split_and!; [done|done|done|by intros p c -> |by intros i p Hi].
  - set (p0 := fresh (dom heap)) in *. destruct (alloc_contexts n (S fd) (<[p0 := FdContext0 fd]> heap)) as [h1 l1] eqn:E1.
    injection E as <- <-. destruct (IH _ _ _ _ E1) as (Hsub & Ht & Hl & Hnew & Hat).
    assert (heap !! p0 = None) as Hfresh by (apply not_elem_of_dom, is_fresh).
    assert (heap ⊆ h1) as Hsub' by (etrans; [by apply insert_subseteq|exact Hsub]).
    split_and!.
    + done.
    + rewrite Ht. by rewrite heap_tasks_fresh.
    + cbn. by rewrite Hl.
    + intros p c Hp Hnone. destruct (decide (p = p0)) as [->|Hne].
      * assert (h1 !! p0 = Some (FdContext0 fd)) as E2 by (eapply lookup_weaken; [by rewrite lookup_insert_eq|exact Hsub]).
        rewrite E2 in Hp. by injection Hp as <-.
      * apply (Hnew p c Hp). by rewrite lookup_insert_ne.
    + intros [|i] p Hi; cbn in Hi.
      * injection Hi as <-. rewrite Nat.add_0_r. eapply lookup_weaken; [by rewrite lookup_insert_eq|exact Hsub].
      * rewrite (Hat i p Hi). do 2 f_equal. lia.
Qed.

Lemma contextResize_ok size m : io_ok m → io_ok (contextResize size m) ∧ handed [] [] m (contextResize size m).
Proof.
  intros [[H1 H2 H3] Hk]. unfold contextResize. destruct (alloc_contexts _ _ _) as [heap l] eqn:E.
  destruct (alloc_spec _ _ _ _ _ E) as (Hsub & Ht & Hl & Hnew & Hat).
  assert (∀ p c, heap !! p = Some c → io_heap m !! p = Some c ∨ c = FdContext0 (fc_fd c)) as Hcase.
  { intros p c Hp. destruct (io_heap m !! p) as [c1|] eqn:E1; [left|right; by eapply Hnew].
    pose proof (lookup_weaken _ _ _ _ E1 Hsub). congruence. }
  split; [split; [split|]|].
  - intros p c Hp. cbn in Hp. destruct (Hcase p c Hp) as [Hm| ->]; [by eapply H1|]. by exists false, false.
  - cbn. rewrite H2. do 2 f_equal. symmetry. by apply Permutation_length.
  - intros fd p Hp. cbn in Hp |- *. apply lookup_app_Some in Hp as [Hp|[Hge Hp]].
    + apply lookup_take_Some in Hp as [Hp _]. destruct (H3 fd p Hp) as (c & Hc & Hfd). exists c.
      split; [by eapply lookup_weaken|done].
    + eexists. split; [by eapply Hat|]. cbn. lia.
  - intros fd events p. cbn. unfold kernel_ok in Hk. rewrite Hk. split; intros (c & Hc & Hf & He & Hev); exists c.
    + split; [by eapply lookup_weaken|done].
    + destruct (Hcase p c Hc) as [|Hz]; [done|]. by rewrite Hz in He.
  - exists []. cbn. by rewrite app_nil_r, Ht.
Qed.
(** ** Runs

    The sections of any number of threads, in any order, with the tasks that begin to wait
    and the ones taken back by [delEvent]. *)

Inductive io_step : list (nat * Task) → list (nat * Task) → IoManager Kernel → IoManager Kernel → Prop :=
  | io_step_resize size m : io_step [] [] m (contextResize size m)
  | io_step_add p c e cb fiber timeout_ms flag now s m m' d :
      io_heap m !! p = Some c → add_locked p (fc_fd c) e cb fiber timeout_ms flag now (Some s) m = Some (m', Some d) →
      io_step [(s, task_of cb fiber)] [] m m'
  | io_step_refused p c e cb fiber timeout_ms flag now s m m' :
      io_heap m !! p = Some c → add_locked p (fc_fd c) e cb fiber timeout_ms flag now (Some s) m = Some (m', None) →
      io_step [] [] m m'
  | io_step_del p c e m m' d :
      io_heap m !! p = Some c → del_locked p (fc_fd c) e m = Some (m', Some d) →
      io_step [] (ev_tasks (getContext e c)) m m'
  | io_step_cancel thread p c e m m' r :
      io_heap m !! p = Some c → cancel_locked thread p (fc_fd c) e m = Some (m', r) → io_step [] [] m m'
  | io_step_cancel_all thread p c m m' b :
      io_heap m !! p = Some c → cancel_all_locked thread p (fc_fd c) m = Some (m', b) → io_step [] [] m m'
  | io_step_ready thread p reported c m m' :
      io_heap m !! p = Some c → ready_locked thread p reported m = Some m' → io_step [] [] m m'
  | io_step_timers l m : io_step l.*1 [] m (add_tasks l m)
  | io_step_note m m' : same_waits m m' → io_step [] [] m m'.

Inductive io_run : list (nat * Task) → list (nat * Task) → IoManager Kernel → IoManager Kernel → Prop :=
  | io_run_nil m : io_run [] [] m m
  | io_run_cons a d a' d' m1 m2 m3 : io_run a d m1 m2 → io_step a' d' m2 m3 → io_run (a' ++ a) (d ++ d') m1 m3.

Lemma io_run_once a d m m' : io_step a d m m' → io_run a d m m'.
Proof. intros H. rewrite <-(app_nil_r a). exact (io_run_cons [] [] a d m m m' (io_run_nil m) H). Qed.

Lemma io_run_trans a1 d1 a2 d2 m1 m2 m3 : io_run a1 d1 m1 m2 → io_run a2 d2 m2 m3 → io_run (a2 ++ a1) (d1 ++ d2) m1 m3.
Proof.
  intros H1 H2. revert H1. induction H2 as [m|a d a' d' m2 m3 m4 H2 IH Hs]; intros H1; [by rewrite app_nil_r|].
  rewrite <-app_assoc, (app_assoc d1). eapply io_run_cons; [by apply IH|done].
Qed.

Lemma io_step_ok a d m m' : io_step a d m m' → io_ok m → io_ok m' ∧ handed a d m m'.
Proof.
  intros [size m0|p c e cb fiber to flag now s m0 m1 r Hp E|p c e cb fiber to flag now s m0 m1 Hp E|p c e m0 m1 r Hp E|
    thread p c e m0 m1 r Hp E|thread p c m0 m1 b Hp E|thread p reported c m0 m1 Hp E|l m0|m0 m1 Hs] Hok.
  - by apply contextResize_ok.
  - destruct (has e (fc_events c)) eqn:Hhas.
    { unfold add_locked in E. rewrite Hp in E. cbn [mbind option_bind] in E. by rewrite Hhas in E. }
    destruct (add_locked_ok p e cb fiber to flag now s c m0 Hok Hp Hhas) as (m2 & r' & E' & Hok' & _ & Hm).
    rewrite E' in E. by injection E as -> ->.
  - destruct (has e (fc_events c)) eqn:Hhas.
    { unfold add_locked in E. rewrite Hp in E. cbn [mbind option_bind] in E. by rewrite Hhas in E. }
    destruct (add_locked_ok p e cb fiber to flag now s c m0 Hok Hp Hhas) as (m2 & r' & E' & Hok' & _ & Hm).
    rewrite E' in E. by injection E as -> ->.
  - destruct (del_locked_ok p e c m0 Hok Hp) as (m2 & r' & E' & Hok' & Hm). rewrite E' in E. injection E as -> ->.
    destruct (has e (fc_events c)); [|by destruct Hm]. by destruct Hm as (_ & Hm & _).
  - destruct (cancel_locked_ok thread p e c m0 Hok Hp) as (m2 & r' & E' & Hok' & Hm & _). rewrite E' in E. by injection E as -> ->.
  - destruct (cancel_all_ok thread p c m0 Hok Hp) as (m2 & b' & E' & Hok' & Hm & _). rewrite E' in E. by injection E as -> ->.
  - pose proof (ready_ok thread p reported c m0 Hok Hp) as Hr. cbv zeta in Hr. destruct (_ =? 0).
    { rewrite Hr in E. injection E as <-. split; [done|apply same_handed, same_refl]. }
    destruct (_ =? 0); [|by rewrite Hr in E]. destruct Hr as (m2 & E' & Hok' & Hm). rewrite E' in E. by injection E as ->.
  - split; [by destruct Hok as [[] ?]|]. by exists l.
  - split; [by eapply same_ok|by apply same_handed].
Qed.

Lemma io_run_ok a d m m' : io_run a d m m' → io_ok m → io_ok m' ∧ handed a d m m'.
Proof.
  induction 1 as [m|a d a' d' m1 m2 m3 H1 IH Hs]; intros Hok; [split; [done|apply same_handed, same_refl]|].
  destruct (IH Hok) as [Hok2 M1]. destruct (io_step_ok _ _ _ _ Hs Hok2) as [Hok3 M2].
  split; [done|by eapply handed_trans].
Qed.

Lemma IoManager0_ok k now : interest k = ∅ → io_ok (IoManager0 k now).
Proof.
  intros Hi. apply contextResize_ok. split; [split|].
  - apply map_Forall_empty.
  - cbn. unfold heap_tasks. by rewrite map_to_list_empty.
  - done.
  - intros fd events p. cbn. rewrite Hi, lookup_empty. split; [done|]. by intros (c & Hc & _).
Qed.

(** ** The methods are runs *)

Lemma find_context_ok fd p m : heap_ok m → find_context fd m = Some p → ∃ c, io_heap m !! p = Some c ∧ fc_fd c = fd.
Proof. intros Hh. unfold find_context. destruct (_ <? _)%nat; [|done]. apply Hh. Qed.

Lemma addEvent_run fd e cb fiber timeout_ms flag now s m m' rt : io_ok m →
  addEvent fd e cb fiber timeout_ms flag now (Some s) m = Some (m', rt) →
  rt = 0 ∧ io_run [(s, task_of cb fiber)] [] m m' ∨ rt = -1 ∧ io_run [] [] m m'.
Proof.
  intros Hok E. unfold addEvent in E.
  assert (∃ m1 p, match find_context fd m with Some p => (m, Some p) | None => grow_context fd m end = (m1, p) ∧
    io_ok m1 ∧ io_run [] [] m m1 ∧ (∀ p', p = Some p' → ∃ c, io_heap m1 !! p' = Some c ∧ fc_fd c = fd)) as (m1 & p & E1 & Hok1 & Hr1 & Hp).
  { destruct (find_context fd m) as [p|] eqn:Ef.
    - exists m, (Some p). split; [done|]. split; [done|]. split; [apply io_run_nil|]. intros p' [= <-].
      by apply find_context_ok; [apply Hok|].
    - unfold grow_context. destruct (contextResize_ok (fd * 3 / 2) m Hok) as [Hok1 _].
      eexists _, _. split; [done|]. split; [done|]. split; [apply io_run_once, io_step_resize|]. intros p' Hp'.
      by apply (ho_vector _ (io_heap_ok _ Hok1)). }
  rewrite E1 in E. destruct p as [p|]; [|done]. cbn [mbind option_bind] in E.
  destruct (Hp p eq_refl) as (c & Hc & <-). destruct (add_locked _ _ _ _ _ _ _ _ _ _) as [[m2 [d|]]|] eqn:E2; [| |done].
  - injection E as <- <-. left. split; [done|]. eapply (io_run_trans [] [] [_] [] m m1); [done|].
    eapply (io_run_trans [_] [] [] []); [apply io_run_once; by eapply io_step_add|apply io_run_once, io_step_note, added_same].
  - injection E as <- <-. right. split; [done|]. eapply (io_run_trans [] [] [] [] m m1); [done|].
    apply io_run_once. by eapply io_step_refused.
Qed.

Lemma removed_run r : io_run [] [] r.1 (removed r).1.
Proof. apply io_run_once, io_step_note. unfold removed. destruct r as [m [d|]]; [apply removed_same|apply same_refl]. Qed.

Lemma cancelEvent_run thread fd e m m' b : io_ok m → cancelEvent thread fd e m = Some (m', b) → io_run [] [] m m'.
Proof.
  intros Hok E. unfold cancelEvent in E. destruct (find_context fd m) as [p|] eqn:Ef; [|injection E as <- _; apply io_run_nil].
  destruct (find_context_ok fd p m (io_heap_ok _ Hok) Ef) as (c & Hc & <-).
  destruct (cancel_locked _ _ _ _ _) as [r|] eqn:E1; [|done]. cbn [mbind option_bind] in E. injection E as E.
  assert (m' = (removed r).1) as -> by (by rewrite E). destruct r as [m1 r].
  eapply (io_run_trans [] [] [] [] m m1); [apply io_run_once; by eapply io_step_cancel|apply (removed_run (m1, r))].
Qed.

Lemma delEvent_run fd e m m' b : io_ok m → delEvent fd e m = Some (m', b) →
  ∃ d, io_run [] d m m' ∧ io_tasks m' = io_tasks m ∧ if b then length d = 1%nat else d = [].
Proof.
  intros Hok E. unfold delEvent in E.
  destruct (find_context fd m) as [p|] eqn:Ef; [|injection E as <- <-; exists []; split; [apply io_run_nil|done]].
  destruct (find_context_ok fd p m (io_heap_ok _ Hok) Ef) as (c & Hc & <-).
  destruct (del_locked_ok p e c m Hok Hc) as (m1 & r & E1 & Hok1 & H1). rewrite E1 in E. cbn [mbind option_bind] in E.
  injection E as E. destruct (has e (fc_events c)) eqn:Hhas.
  - destruct H1 as (-> & _ & Ht). pose proof (has_ok e c (ho_ctx _ (io_heap_ok _ Hok) p c Hc)) as Hev. rewrite Hhas in Hev.
    destruct (ev_tasks_waiting _ Hev) as (s & t & _ & Hlen). unfold removed in E. cbn in E. injection E as <- <-.
    exists (ev_tasks (getContext e c)). split; [|rewrite Hlen, (sw_tasks _ _ (removed_same _ m1)); by split].
    rewrite <-(app_nil_r (ev_tasks _)).
    eapply (io_run_trans [] _ [] [] m m1); [apply io_run_once; by eapply io_step_del|apply io_run_once, io_step_note, removed_same].
  - destruct H1 as [-> ->]. unfold removed in E. cbn in E. injection E as <- <-. exists []. split; [apply io_run_nil|done].
Qed.

Lemma cancelAll_run thread fd m m' b : io_ok m → cancelAll thread fd m = Some (m', b) → io_run [] [] m m'.
Proof.
  intros Hok E. unfold cancelAll in E. destruct (find_context fd m) as [p|] eqn:Ef; [|injection E as <- _; apply io_run_nil].
  destruct (find_context_ok fd p m (io_heap_ok _ Hok) Ef) as (c & Hc & <-). apply io_run_once. by eapply io_step_cancel_all.
Qed.

Lemma report_none thread reports : foldl (report thread) (None : option (IoManager Kernel)) reports = None.
Proof. by induction reports as [|r l IH]. Qed.

Lemma expire_none thread items : foldl (expire_item thread) (None : option (IoManager Kernel)) items = None.
Proof. by induction items as [|r l IH]. Qed.

Lemma reports_run thread reports m m' : io_ok m → foldl (report thread) (Some m) reports = Some m' → io_run [] [] m m'.
Proof.
  revert m. induction reports as [|[|p events] l IH]; intros m Hok E.
  - injection E as <-. apply io_run_nil.
  - by apply IH.
  - change (foldl (report thread) (ready_locked thread p events m) l = Some m') in E. destruct (ready_locked thread p events m) as [m1|] eqn:E1.
    2: { by rewrite report_none in E. }
    assert (io_run [] [] m m1) as H1.
    { destruct (io_heap m !! p) as [c|] eqn:Hp; [|by unfold ready_locked in E1; rewrite Hp in E1].
      apply io_run_once. by eapply io_step_ready. }
    eapply (io_run_trans [] [] [] []); [exact H1|]. apply IH; [exact (proj1 (io_run_ok _ _ _ _ H1 Hok))|done].
Qed.

Lemma expired_run thread items m m' : io_ok m → foldl (expire_item thread) (Some m) items = Some m' → io_run [] [] m m'.
Proof.
  revert m. induction items as [|[[fd e] flag] l IH]; intros m Hok E.
  - injection E as <-. apply io_run_nil.
  - set (m0 := match flag with Some a => write_flag a ETIMEDOUT m | None => m end).
    change (foldl (expire_item thread) (fst <$> cancelEvent thread fd e m0) l = Some m') in E.
    assert (same_waits m m0) as Hs by (by subst m0; destruct flag).
    assert (io_ok m0) as Hok0 by (by eapply same_ok).
    destruct (cancelEvent thread fd e m0) as [[m1 b]|] eqn:E1.
    2: { cbn in E. by rewrite expire_none in E. }
    cbn in E. pose proof (cancelEvent_run _ _ _ _ _ _ Hok0 E1) as H1.
    eapply (io_run_trans [] [] [] [] m m0); [by apply io_run_once, io_step_note|].
    eapply (io_run_trans [] [] [] [] m0 m1); [done|]. apply IH; [exact (proj1 (io_run_ok _ _ _ _ H1 Hok0))|done].
Qed.

Lemma idle_turn_run self now thread tmp n reports m m' : io_ok m →
  idle_turn self now thread tmp n reports m = Some m' → ∃ a, io_run a [] m m'.
Proof.
  intros Hok E. unfold idle_turn in E. destruct (listExpiredCb now tmp (io_timers m)) as [[t x] cbs].
  set (l := (λ cb, (self, TCb cb, -1)) <$> omap id cbs) in *. set (m1 := add_tasks l (set_io_timers t m)) in *.
  assert (io_run l.*1 [] m m1) as H1.
  { rewrite <-(app_nil_r l.*1). eapply (io_run_trans [] [] _ []); [by apply io_run_once, (io_step_note _ (set_io_timers t m))|].
    apply io_run_once, io_step_timers. }
  exists l.*1. destruct (io_run_ok _ _ _ _ H1 Hok) as [Hok1 _].
  destruct (foldl (report thread) (Some m1) reports) as [m2|] eqn:E2; [|done]. cbn [mbind option_bind] in E.
  pose proof (reports_run _ _ _ _ Hok1 E2) as H2. destruct (io_run_ok _ _ _ _ H2 Hok1) as [Hok2 _].
  pose proof (io_run_trans _ _ [] [] _ _ _ H1 H2) as H12. cbn [app] in H12.
  destruct (n <=? 0); [|by injection E as <-]. unfold checkIoExpired in E. cbv zeta in E.
  pose proof (refresh_same m2) as Hs. assert (io_run [] [] m2 (refresh_if_dirty m2)) as H3 by (by apply io_run_once, io_step_note).
  pose proof (io_run_trans _ _ [] [] _ _ _ H12 H3) as H13. cbn [app] in H13.
  destruct (_ || _); [by injection E as <-|].
  pose proof (expired_run _ _ _ _ (same_ok _ _ Hs Hok2) E) as H4. exact (io_run_trans _ _ [] [] _ _ _ H13 H4).
Qed.
(** ** Deadlines

    What holds when the methods run one at a time. *)

Definition context_at m (fd : nat) : option FdContext := p ← m_fdContexts m !! fd; io_heap m !! p.
Definition deadline m (d : Z) : Prop :=
  d ≠ 0 ∧ ∃ fd c e, context_at m fd = Some c ∧ ev_expire_at (getContext e c) = d.

Record deadlines_ok m : Prop := mkDeadlinesOk {
  dl_range : ∀ d, deadline m d → 0 < d ≤ UINT64_MAX;
  dl_below : ∀ d, deadline m d → m_nextIoExpire m ≤ d;
  dl_exact : m_ioExpireDirty m = false → m_nextIoExpire m = UINT64_MAX ∨ deadline m (m_nextIoExpire m);
  dl_next : m_nextIoExpire m ≤ UINT64_MAX
}.

Lemma deadlines_added m m1 d : deadlines_ok m → 0 ≤ d ≤ UINT64_MAX →
  m_nextIoExpire m1 = m_nextIoExpire m → m_ioExpireDirty m1 = m_ioExpireDirty m →
  (∀ x, deadline m1 x ↔ deadline m x ∨ (x = d ∧ d ≠ 0)) → deadlines_ok (onIoWaitAdded d m1).
Proof.
  intros [R B X N] Hd Hn Hb Hx.
  assert (∀ x, deadline (onIoWaitAdded d m1) x ↔ deadline m x ∨ (x = d ∧ d ≠ 0)) as Hx'.
  { intros x. rewrite <-Hx. unfold onIoWaitAdded. destruct (_ =? _); [done|]. by destruct (_ || _). }
  assert (∀ x, deadline m x → 0 < x ≤ UINT64_MAX ∧ m_nextIoExpire m ≤ x) as Hall by (intros x H; split; auto).
  split.
  - intros x [H|[-> H]]%Hx'; [by apply R|lia].
  - intros x H%Hx'. unfold onIoWaitAdded. rewrite Hn. destruct (Z.eqb_spec d 0); [destruct H as [H|H]; [rewrite Hn; by apply B|lia]|].
    destruct (Z.eqb_spec (m_nextIoExpire m) UINT64_MAX), (Z.ltb_spec d (m_nextIoExpire m)); cbn; rewrite ?Hn;
      destruct H as [H|H]; try (specialize (Hall x H)); lia.
  - intros Hf. rewrite Hx'. unfold onIoWaitAdded in *. destruct (Z.eqb_spec d 0).
    + rewrite Hn. rewrite Hb in Hf. destruct (X Hf); auto.
    + rewrite Hn in *. destruct ((m_nextIoExpire m =? UINT64_MAX) || (d <? m_nextIoExpire m)); cbn in *; [auto|].
      rewrite Hn. rewrite Hb in Hf. destruct (X Hf); auto.
  - unfold onIoWaitAdded. rewrite Hn. destruct (_ =? _); [lia|]. destruct (_ || _); cbn; lia.
Qed.

Lemma deadlines_removed m m1 d : deadlines_ok m →
  m_nextIoExpire m1 = m_nextIoExpire m → m_ioExpireDirty m1 = m_ioExpireDirty m →
  (∀ x, deadline m1 x → deadline m x) → (∀ x, deadline m x → deadline m1 x ∨ x = d) →
  deadlines_ok (onIoWaitRemoved d m1).
Proof.
  intros [R B X N] Hn Hb H1 H2.
  assert (∀ x, deadline (onIoWaitRemoved d m1) x ↔ deadline m1 x) as Hx by (intros x; unfold onIoWaitRemoved; by destruct (_ && _)).
  assert (m_nextIoExpire (onIoWaitRemoved d m1) = m_nextIoExpire m) as Hn'.
  { unfold onIoWaitRemoved. by destruct (_ && _). }
  split; [intros x H%Hx; by apply R, H1|intros x H%Hx; rewrite Hn'; by apply B, H1| |by rewrite Hn'].
  intros Hf. rewrite Hx, Hn'. unfold onIoWaitRemoved in Hf. rewrite Hn in Hf.
  destruct (Z.eqb_spec d 0) as [Hd|Hd], (Z.eqb_spec (m_nextIoExpire m) d) as [He|He]; cbn in Hf; try discriminate; rewrite Hb in Hf;
    (destruct (X Hf) as [|Hdl]; [by left|right]); destruct (H2 _ Hdl) as [|E]; try done; exfalso; try lia.
  all: destruct Hdl as [Hz _]; lia.
Qed.

(** What a change of one event of one context does to the deadlines. *)
Lemma deadline_put m m1 p e c c' : heap_ok m → io_heap m !! p = Some c → fc_fd c' = fc_fd c →
  io_heap m1 = <[p := c']> (io_heap m) → m_fdContexts m1 = m_fdContexts m →
  (∀ e', e' ≠ e → getContext e' c' = getContext e' c) →
  (∀ x, deadline m1 x → deadline m x ∨ (x = ev_expire_at (getContext e c') ∧ x ≠ 0)) ∧
  (∀ x, deadline m x → deadline m1 x ∨ x = ev_expire_at (getContext e c)) ∧
  (m_fdContexts m !! fc_fd c = Some p → ev_expire_at (getContext e c') ≠ 0 → deadline m1 (ev_expire_at (getContext e c'))).
Proof.
  intros Hok Hp Hfd Hh Hv Hoth. unfold deadline, context_at. rewrite Hh, Hv. split_and!.
  - intros x [Hx (fd & c1 & e1 & Hc & He)]. destruct (m_fdContexts m !! fd) as [q|] eqn:Hq; [|done]. cbn in Hc.
    destruct (decide (q = p)) as [->|Hne].
    + rewrite lookup_insert_eq in Hc. injection Hc as <-. destruct (decide (e1 = e)) as [->|Hee].
      * right. by split.
      * left. split; [done|]. exists fd, c, e1. rewrite Hq. cbn. by rewrite <-Hoth.
    + rewrite lookup_insert_ne in Hc by done. left. split; [done|]. exists fd, c1, e1. by rewrite Hq.
  - intros x [Hx (fd & c1 & e1 & Hc & He)]. destruct (m_fdContexts m !! fd) as [q|] eqn:Hq; [|done]. cbn in Hc.
    destruct (decide (q = p)) as [->|Hne].
    + rewrite Hp in Hc. injection Hc as <-. destruct (decide (e1 = e)) as [->|Hee]; [by right|].
      left. split; [done|]. exists fd, c', e1. rewrite Hq. cbn. rewrite lookup_insert_eq. by rewrite Hoth.
    + left. split; [done|]. exists fd, c1, e1. rewrite Hq. cbn. by rewrite lookup_insert_ne.
  - intros Hq Hx. split; [done|]. exists (fc_fd c), c', e. rewrite Hq. cbn. by rewrite lookup_insert_eq.
Qed.

Lemma min_expire_spec next x : next ≤ UINT64_MAX → 0 ≤ x ≤ UINT64_MAX →
  min_expire next x = if x =? 0 then next else Z.min next x.
Proof.
  intros Hn Hx. unfold min_expire. destruct (Z.eqb_spec x 0); [done|]. cbn [negb andb].
  destruct (Z.eqb_spec next UINT64_MAX), (Z.ltb_spec x next); cbn; lia.
Qed.

Lemma scan_least m l acc : acc ≤ UINT64_MAX →
  (∀ p c e, p ∈ l → io_heap m !! p = Some c → 0 ≤ ev_expire_at (getContext e c) ≤ UINT64_MAX) →
  let r := foldl (scan_context m) acc l in
  r ≤ acc ∧ (∀ p c e, p ∈ l → io_heap m !! p = Some c → ev_expire_at (getContext e c) ≠ 0 → r ≤ ev_expire_at (getContext e c)) ∧
  (r = acc ∨ r ≠ 0 ∧ ∃ p c e, p ∈ l ∧ io_heap m !! p = Some c ∧ ev_expire_at (getContext e c) = r).
Proof.
  revert acc. induction l as [|p l IH]; intros acc Hacc Hr; cbn [foldl].
  { split_and!; [lia|by intros p c e ?%elem_of_nil|by left]. }
  assert (scan_context m acc p ≤ acc ∧
    (∀ c e, io_heap m !! p = Some c → ev_expire_at (getContext e c) ≠ 0 → scan_context m acc p ≤ ev_expire_at (getContext e c)) ∧
    (scan_context m acc p = acc ∨ scan_context m acc p ≠ 0 ∧
       ∃ c e, io_heap m !! p = Some c ∧ ev_expire_at (getContext e c) = scan_context m acc p)) as (S1 & S2 & S3).
  { unfold scan_context. destruct (io_heap m !! p) as [c|] eqn:Hp; [|by split_and!; [lia|done|left]].
    pose proof (Hr p c READ ltac:(left) Hp) as Hrd. pose proof (Hr p c WRITE ltac:(left) Hp) as Hwr. cbn in Hrd, Hwr.
    rewrite (min_expire_spec acc) by lia.
    assert ((if ev_expire_at (fc_read c) =? 0 then acc else acc `min` ev_expire_at (fc_read c)) ≤ UINT64_MAX) as Hm
      by (destruct (_ =? _); lia).
    rewrite min_expire_spec by lia.
    destruct (Z.eqb_spec (ev_expire_at (fc_read c)) 0), (Z.eqb_spec (ev_expire_at (fc_write c)) 0); split_and!; try lia;
      try (intros c' [] [= <-]; cbn; lia).
    - destruct (Z.min_spec acc (ev_expire_at (fc_write c))) as [[_ ->]|[_ ->]]; [by left|right]. split; [done|]. by exists c, WRITE.
    - destruct (Z.min_spec acc (ev_expire_at (fc_read c))) as [[_ ->]|[_ ->]]; [by left|right]. split; [done|]. by exists c, READ.
    - destruct (Z.min_spec (acc `min` ev_expire_at (fc_read c)) (ev_expire_at (fc_write c))) as [[_ ->]|[_ ->]].
      + destruct (Z.min_spec acc (ev_expire_at (fc_read c))) as [[_ ->]|[_ ->]]; [by left|right]. split; [done|]. by exists c, READ.
      + right. split; [done|]. by exists c, WRITE. }
  destruct (IH (scan_context m acc p)) as (I1 & I2 & I3); [lia|intros; eapply Hr; [by right|done]|].
  split_and!; [lia| |].
  - intros q c e [->|Hq]%elem_of_cons Hc Hx; [|by eapply I2]. specialize (S2 c e Hc Hx). lia.
  - destruct I3 as [->|(Hz & q & c & e & Hq & Hc & He)].
    + destruct S3 as [->|(Hz & c & e & Hc & He)]; [by left|right]. split; [done|]. exists p, c, e. split; [by left|done].
    + right. split; [done|]. exists q, c, e. split; [by right|done].
Qed.

Lemma refreshNext_ok m : deadlines_ok m → heap_ok m → deadlines_ok (refreshNextIoExpire m).
Proof.
  intros [R B X N] Hok.
  assert (∀ p c e, p ∈ m_fdContexts m → io_heap m !! p = Some c → ev_expire_at (getContext e c) ≠ 0 →
            deadline m (ev_expire_at (getContext e c))) as Hd.
  { intros p c e [fd Hfd]%list_elem_of_lookup Hc Hz. split; [done|]. exists fd, c, e. unfold context_at. rewrite Hfd. by cbn. }
  destruct (scan_least m (m_fdContexts m) UINT64_MAX) as (S1 & S2 & S3); [done| |].
  { intros p c e Hp Hc. destruct (decide (ev_expire_at (getContext e c) = 0)) as [->|Hz]; [done|].
    specialize (R _ (Hd p c e Hp Hc Hz)). lia. }
  split; [apply R| | |exact S1].
  - intros d [Hz (fd & c & e & Hc & He)]. unfold context_at in Hc. cbn in Hc.
    destruct (m_fdContexts m !! fd) as [p|] eqn:Hp; [|done]. cbn in Hc. subst d. apply (S2 p c e); [|done|done].
    by eapply list_elem_of_lookup_2.
  - intros _. change (m_nextIoExpire (refreshNextIoExpire m)) with (foldl (scan_context m) UINT64_MAX (m_fdContexts m)).
    destruct S3 as [->|(Hz & p & c & e & Hp & Hc & He)]; [by left|right]. rewrite <-He in Hz |- *. exact (Hd p c e Hp Hc Hz).
Qed.

Lemma refresh_if_ok m : deadlines_ok m → heap_ok m →
  deadlines_ok (refresh_if_dirty m) ∧ m_ioExpireDirty (refresh_if_dirty m) = false.
Proof. intros H1 H2. unfold refresh_if_dirty. destruct (m_ioExpireDirty m) eqn:E; [split; [by apply refreshNext_ok|done]|done]. Qed.
Lemma deadlines_same m m' : io_heap m' = io_heap m → m_fdContexts m' = m_fdContexts m →
  m_nextIoExpire m' = m_nextIoExpire m → m_ioExpireDirty m' = m_ioExpireDirty m → deadlines_ok m → deadlines_ok m'.
Proof.
  intros Hh Hv Hn Hb [R B X N]. assert (∀ d, deadline m' d ↔ deadline m d) as Hd.
  { intros d. unfold deadline, context_at. by rewrite Hh, Hv. }
  split; [intros d H%Hd; by apply R|intros d H%Hd; rewrite Hn; by apply B| |by rewrite Hn].
  rewrite Hb, Hn. intros Hf. destruct (X Hf) as [|H]; [by left|right; by apply Hd].
Qed.

Lemma note_expire note flag m : m_nextIoExpire (note_flag note flag m) = m_nextIoExpire m ∧
  m_ioExpireDirty (note_flag note flag m) = m_ioExpireDirty m.
Proof. unfold note_flag. destruct flag; [|done]. by destruct (_ && _). Qed.

Lemma disarmed_other e e' c : e' ≠ e → getContext e' (disarmed e c) = getContext e' c.
Proof. by destruct e, e'. Qed.

Lemma disarmed_this e c : getContext e (disarmed e c) = EventContext0.
Proof. by destruct e. Qed.

Lemma deadlines_disarmed m m1 p e c : deadlines_ok m → heap_ok m → io_heap m !! p = Some c →
  io_heap m1 = <[p := disarmed e c]> (io_heap m) → m_fdContexts m1 = m_fdContexts m →
  m_nextIoExpire m1 = m_nextIoExpire m → m_ioExpireDirty m1 = m_ioExpireDirty m →
  deadlines_ok (onIoWaitRemoved (ev_expire_at (getContext e c)) m1).
Proof.
  intros Hd Hok Hp Hh Hv Hn Hb.
  destruct (deadline_put m m1 p e c (disarmed e c) Hok Hp) as (D1 & D2 & _); [by destruct e|done|done|by intros; apply disarmed_other|].
  eapply deadlines_removed; [exact Hd|done|done| |exact D2]. intros x Hx. destruct (D1 x Hx) as [|[Hz Hne]]; [done|].
  rewrite disarmed_this in Hz. by subst.
Qed.

Lemma fire_deadlines note thread p e c m m' expire : deadlines_ok m → heap_ok m → io_heap m !! p = Some c →
  has e (fc_events c) = true → fire_event note thread p e m = Some (m', expire) → deadlines_ok (onIoWaitRemoved expire m').
Proof.
  intros Hd Hok Hp Hhas E. destruct (fire_event_spec note thread p e c m Hp (ho_ctx _ Hok p c Hp) Hhas) as (s & t & _ & E').
  destruct (fire_event_moves _ _ _ _ _ _ _ _ Hok Hp Hhas E) as (_ & _ & Hh & _ & Hv). rewrite E' in E. injection E as <- <-.
  destruct (note_expire note (ev_cancel_flag (getContext e c)) m) as [N1 N2].
  by eapply deadlines_disarmed.
Qed.

Lemma find_context_Some fd p m : find_context fd m = Some p ↔ m_fdContexts m !! fd = Some p.
Proof.
  unfold find_context. destruct (Nat.ltb_spec fd (length (m_fdContexts m))) as [|H]; [done|].
  split; [done|]. intros Hp%lookup_lt_Some. lia.
Qed.

(** A wait that is cancelled. *)
Record cancelled (thread : Z) (p : nat) (e : Event) (c : FdContext) m m' : Prop := mkCancelled {
  ca_ok : io_ok m';
  ca_heap : io_heap m' = <[p := disarmed e c]> (io_heap m);
  ca_vector : m_fdContexts m' = m_fdContexts m;
  ca_tasks : io_tasks m' = io_tasks m ++ ((λ st, (st, thread)) <$> ev_tasks (getContext e c));
  ca_flags : io_flags m' = io_flags (note_flag true (ev_cancel_flag (getContext e c)) m);
  ca_deadlines : deadlines_ok m → deadlines_ok m'
}.

Lemma cancelEvent_spec thread fd e p c m : io_ok m → m_fdContexts m !! fd = Some p → io_heap m !! p = Some c →
  has e (fc_events c) = true → ∃ m', cancelEvent thread fd e m = Some (m', true) ∧ cancelled thread p e c m m'.
Proof.
  intros Hok Hv Hp Hhas. pose proof (io_heap_ok _ Hok) as Hh. destruct (ho_vector _ Hh fd p Hv) as (c1 & Hc1 & Hfd).
  rewrite Hp in Hc1. injection Hc1 as <-. subst fd. pose proof (ho_ctx _ Hh p c Hp) as Hc.
  destruct (cancel_locked_ok thread p e c m Hok Hp) as (m1 & r & E & Hok1 & _ & Hr). rewrite Hhas in Hr. subst r.
  unfold cancelEvent. rewrite (proj2 (find_context_Some _ _ _) Hv), E. cbn [mbind option_bind removed fst snd].
  eexists. split; [done|]. unfold cancel_locked in E. rewrite Hp in E. cbn [mbind option_bind] in E. rewrite Hhas in E. cbn [negb] in E.
  destruct (ctl_keeps p (fc_fd c) (without e (fc_events c)) m Hok c Hp eq_refl (has_nonzero _ _ Hhas)) as (k & Ek & _).
  rewrite Ek in E. cbn [negb] in E. pose proof (set_kernel_heap k m Hh) as Hhk.
  destruct (fire_event_spec true thread p e c (set_kernel k m) Hp Hc Hhas) as (s & t & Ht & E').
  rewrite E' in E. cbn [mbind option_bind] in E. injection E as E.
  destruct (fire_event_moves _ _ _ _ _ _ _ _ Hhk Hp Hhas E') as (_ & _ & H1 & _ & H2).
  pose proof (removed_same (ev_expire_at (getContext e c)) m1) as [S1 S2 S3 S4 S5].
  pose proof (note_same true (ev_cancel_flag (getContext e c)) (set_kernel k m)) as [N1 N2 N3 N4 N5].
  split.
  - eapply same_ok; [apply removed_same|done].
  - rewrite S1, <-E. exact H1.
  - rewrite S2, <-E. exact H2.
  - rewrite S4, Ht, <-E. cbn. by rewrite N4.
  - assert (io_flags (onIoWaitRemoved (ev_expire_at (getContext e c)) m1) = io_flags m1) as -> by (unfold onIoWaitRemoved; by destruct (_ && _)).
    rewrite <-E. cbn. unfold note_flag, flag_of. destruct (ev_cancel_flag _); [|done]. cbn. by destruct (_ =? 0).
  - intros Hd. rewrite <-E. eapply (fire_deadlines true thread p e c (set_kernel k m)); [by apply (deadlines_same m)|done..].
Qed.
(** *** The sweep of [checkIoExpired] *)

Definition valid_item m (item : nat * Event * option nat) : Prop :=
  ∃ c, context_at m item.1.1 = Some c ∧ has item.1.2 (fc_events c) = true ∧ item.2 = ev_cancel_flag (getContext item.1.2 c).
Definition item_tasks (thread : Z) m (item : nat * Event * option nat) : list (nat * Task * Z) :=
  match context_at m item.1.1 with Some c => (λ st, (st, thread)) <$> ev_tasks (getContext item.1.2 c) | None => [] end.
(** The context of [fd] without the events of [items]. *)
Definition after_items (items : list (nat * Event * option nat)) (fd : nat) (c : FdContext) : FdContext :=
  disarmed_if (bool_decide ((fd, WRITE) ∈ items.*1)) WRITE (disarmed_if (bool_decide ((fd, READ) ∈ items.*1)) READ c).

Record swept (thread : Z) (items : list (nat * Event * option nat)) m m' : Prop := mkSwept {
  sp_ok : io_ok m';
  sp_vector : m_fdContexts m' = m_fdContexts m;
  sp_context : ∀ fd c, context_at m fd = Some c → context_at m' fd = Some (after_items items fd c);
  sp_tasks : io_tasks m' = io_tasks m ++ (items ≫= item_tasks thread m);
  sp_flags : ∀ a, flag_of m' a = if bool_decide (Some a ∈ items.*2) then ETIMEDOUT else flag_of m a;
  sp_deadlines : deadlines_ok m → deadlines_ok m'
}.

Lemma disarmed_comm c : ctx_ok c → disarmed WRITE (disarmed READ c) = disarmed READ (disarmed WRITE c).
Proof. intros (r & w & Hev & _). destruct c as [a b fd events]. cbn in Hev. subst. by destruct r, w. Qed.

Lemma disarmed_has e e' c : ctx_ok c → e' ≠ e → has e' (fc_events (disarmed e c)) = has e' (fc_events c).
Proof.
  intros (r & w & Hev & _) Hne. destruct c as [a b fd events]. cbn in Hev. subst. by destruct e, e', r, w.
Qed.

Lemma context_at_ok m fd c : io_ok m → context_at m fd = Some c →
  ∃ p, m_fdContexts m !! fd = Some p ∧ io_heap m !! p = Some c ∧ ctx_ok c ∧ fc_fd c = fd.
Proof.
  intros Hok Hc. unfold context_at in Hc. destruct (m_fdContexts m !! fd) as [p|] eqn:Hp; [|done]. cbn in Hc. exists p.
  destruct (ho_vector _ (io_heap_ok _ Hok) fd p Hp) as (c1 & Hc1 & Hfd). rewrite Hc in Hc1. injection Hc1 as <-.
  split; [done|]. split; [done|]. split; [|done]. by apply (ho_ctx _ (io_heap_ok _ Hok) p).
Qed.

(** Another descriptor has another context. *)
Lemma context_put m m1 fd p c c' : io_ok m → m_fdContexts m !! fd = Some p → io_heap m !! p = Some c →
  io_heap m1 = <[p := c']> (io_heap m) → m_fdContexts m1 = m_fdContexts m →
  ∀ fd', context_at m1 fd' = if decide (fd' = fd) then Some c' else context_at m fd'.
Proof.
  intros Hok Hv Hp Hh Hv1 fd'. unfold context_at. rewrite Hv1, Hh. destruct (decide (fd' = fd)) as [->|Hne].
  - rewrite Hv. cbn. by rewrite lookup_insert_eq.
  - destruct (m_fdContexts m !! fd') as [q|] eqn:Hq; [|done]. cbn. rewrite lookup_insert_ne; [done|]. intros <-.
    destruct (ho_vector _ (io_heap_ok _ Hok) _ _ Hv) as (c1 & H1 & F1).
    destruct (ho_vector _ (io_heap_ok _ Hok) _ _ Hq) as (c2 & H2 & F2). congruence.
Qed.

Lemma after_cons fd e flag items c : ctx_ok c → (fd, e) ∉ items.*1 →
  after_items items fd (disarmed e c) = after_items ((fd, e, flag) :: items) fd c.
Proof.
  intros Hc Hnot. unfold after_items. cbn [fmap list_fmap fst].
  destruct e.
  - rewrite (bool_decide_false ((fd, READ) ∈ items.*1)) by done.
    rewrite (bool_decide_true ((fd, READ) ∈ (fd, READ) :: items.*1)) by left.
    rewrite (bool_decide_ext ((fd, WRITE) ∈ (fd, READ) :: items.*1) ((fd, WRITE) ∈ items.*1)) by (rewrite elem_of_cons; naive_solver).
    done.
  - rewrite (bool_decide_false ((fd, WRITE) ∈ items.*1)) by done.
    rewrite (bool_decide_true ((fd, WRITE) ∈ (fd, WRITE) :: items.*1)) by left.
    rewrite (bool_decide_ext ((fd, READ) ∈ (fd, WRITE) :: items.*1) ((fd, READ) ∈ items.*1)) by (rewrite elem_of_cons; naive_solver).
    destruct (bool_decide _); cbn [disarmed_if]; [|done]. by rewrite disarmed_comm.
Qed.

Lemma after_other fd fd' e flag items c : fd' ≠ fd → after_items ((fd, e, flag) :: items) fd' c = after_items items fd' c.
Proof.
  intros Hne. unfold after_items. cbn [fmap list_fmap fst].
  rewrite (bool_decide_ext ((fd', WRITE) ∈ (fd, e) :: items.*1) ((fd', WRITE) ∈ items.*1)) by (rewrite elem_of_cons; naive_solver).
  by rewrite (bool_decide_ext ((fd', READ) ∈ (fd, e) :: items.*1) ((fd', READ) ∈ items.*1)) by (rewrite elem_of_cons; naive_solver).
Qed.

Lemma expire_items_spec thread items m : io_ok m → NoDup items.*1 → Forall (valid_item m) items →
  ∃ m', foldl (expire_item thread) (Some m) items = Some m' ∧ swept thread items m m'.
Proof.
  revert m. induction items as [|[[fd e] flag] items IH]; intros m Hok Hnd Hval.
  { exists m. split; [done|]. split; [done|done|by intros|cbn; by rewrite app_nil_r|done|done]. }
  apply NoDup_cons in Hnd as [Hnot Hnd]. apply Forall_cons in Hval as [(c & Hc & Hhas & Hflag) Hval]. cbn in Hc, Hhas, Hflag.
  destruct (context_at_ok m fd c Hok Hc) as (p & Hv & Hp & Hctx & Hfd).
  set (m0 := match flag with Some a => write_flag a ETIMEDOUT m | None => m end).
  assert (same_waits m m0) as Hs by (by subst m0; destruct flag). pose proof Hs as [S1 S2 S3 S4 S5].
  pose proof (same_ok _ _ Hs Hok) as Hok0.
  destruct (cancelEvent_spec thread fd e p c m0 Hok0) as (m1 & E & [K1 K2 K3 K4 K5 K6]); [by rewrite S2|by rewrite S1|done|].
  assert (∀ fd', context_at m1 fd' = if decide (fd' = fd) then Some (disarmed e c) else context_at m fd') as Hctx1.
  { apply (context_put m m1 fd p c); [done..|by rewrite K2, S1|by rewrite K3, S2]. }
  destruct (IH m1 K1 Hnd) as (m' & E' & [P1 P2 P3 P4 P5 P6]).
  { apply Forall_forall. intros [[fd1 e1] flag1] Hin. rewrite Forall_forall in Hval. destruct (Hval _ Hin) as (c1 & Hc1 & Hh1 & Hf1).
    unfold valid_item. cbn in *. rewrite Hctx1. destruct (decide (fd1 = fd)) as [->|]; [|by exists c1].
    rewrite Hc in Hc1. injection Hc1 as <-. assert (e1 ≠ e) as Hne by (intros ->; apply Hnot; apply list_elem_of_fmap; by eexists (_, _)).
    exists (disarmed e c). rewrite disarmed_has, disarmed_other by done. done. }
  exists m'. split.
  { change (foldl (expire_item thread) (fst <$> cancelEvent thread fd e m0) items = Some m'). by rewrite E. }
  split; [done|by rewrite P2, K3| | | |].
  - intros fd' c' Hc'. destruct (decide (fd' = fd)) as [->|Hne].
    + rewrite Hc in Hc'. injection Hc' as <-. rewrite (P3 fd (disarmed e c)) by (by rewrite Hctx1, decide_True).
      f_equal. by apply after_cons.
    + rewrite after_other by done. apply P3. by rewrite Hctx1, decide_False.
  - rewrite P4, K4, S4, <-app_assoc. f_equal. cbn [mbind list_bind]. unfold item_tasks at 2. cbn [fst snd]. rewrite Hc. f_equal.
    clear -Hctx1 Hval Hnot Hc. induction items as [|[[fd1 e1] flag1] items IH]; [done|].
    apply Forall_cons in Hval as [(c1 & Hc1 & _) Hval]. apply not_elem_of_cons in Hnot as [Hne Hnot]. cbn in Hne.
    cbn [mbind list_bind]. rewrite IH by done. f_equal. unfold item_tasks. cbn [fst snd] in *. rewrite Hctx1.
    destruct (decide (fd1 = fd)) as [->|]; [|done]. rewrite Hc. rewrite disarmed_other; [done|]. by intros ->.
  - intros a. rewrite P5. cbn [fmap list_fmap snd].
    assert (flag_of m1 a = if decide (flag = Some a) then ETIMEDOUT else flag_of m a) as Hf1.
    { unfold flag_of. rewrite K5, <-Hflag. subst m0. destruct flag as [b|]; cbn.
      - unfold flag_of. cbn. rewrite lookup_insert_eq. cbn. destruct (decide (Some b = Some a)) as [[= ->]|Hne].
        + by rewrite lookup_insert_eq.
        + by rewrite lookup_insert_ne by congruence.
      - done. }
    rewrite Hf1. destruct (decide (flag = Some a)) as [->|Hne].
    + rewrite (bool_decide_true (Some a ∈ Some a :: _)) by left. by destruct (bool_decide _).
    + by rewrite (bool_decide_ext (Some a ∈ flag :: items.*2) (Some a ∈ items.*2)) by (rewrite elem_of_cons; naive_solver).
  - intros Hd. apply P6, K6. subst m0. destruct flag; [by apply (deadlines_same m)|done].
Qed.
Definition overdue_items (now : Z) m : list (nat * Event * option nat) := m_fdContexts m ≫= expired_of now m.

Lemma overdue_elem now m fd e flag : io_ok m →
  (fd, e, flag) ∈ overdue_items now m ↔
  ∃ c, context_at m fd = Some c ∧ overdue now e c = true ∧ flag = ev_cancel_flag (getContext e c).
Proof.
  intros Hok. unfold overdue_items. rewrite list_elem_of_bind. split.
  - intros (p & Hin & [i Hp]%list_elem_of_lookup). unfold expired_of in Hin.
    destruct (ho_vector _ (io_heap_ok _ Hok) i p Hp) as (c & Hc & Hfd). rewrite Hc in Hin. exists c. rewrite Hfd in Hin.
    assert (context_at m i = Some c) as Hat by (unfold context_at; by rewrite Hp).
    apply elem_of_app in Hin as [Hin|Hin]; destruct (overdue now _ c) eqn:Ho; try by apply elem_of_nil in Hin.
    all: apply list_elem_of_singleton in Hin; injection Hin as -> -> ->; done.
  - intros (c & Hat & Ho & ->). destruct (context_at_ok m fd c Hok Hat) as (p & Hv & Hp & _ & Hfd). exists p.
    split; [|by eapply list_elem_of_lookup_2]. unfold expired_of. rewrite Hp, Hfd. apply elem_of_app.
    destruct e; rewrite Ho; [left|right]; by apply list_elem_of_singleton.
Qed.

Lemma overdue_keys now m fd e : io_ok m →
  (fd, e) ∈ (overdue_items now m).*1 ↔ ∃ c, context_at m fd = Some c ∧ overdue now e c = true.
Proof.
  intros Hok. rewrite list_elem_of_fmap. split.
  - intros ([[fd1 e1] flag] & [= -> ->] & Hin). apply overdue_elem in Hin as (c & Hc & Ho & _); [|done]. eauto.
  - intros (c & Hc & Ho). exists (fd, e, ev_cancel_flag (getContext e c)). split; [done|]. apply overdue_elem; eauto.
Qed.

Lemma vector_nodup m : io_ok m → NoDup (m_fdContexts m).
Proof.
  intros Hok. apply NoDup_alt. intros i j p Hi Hj.
  destruct (ho_vector _ (io_heap_ok _ Hok) i p Hi) as (c & Hc & <-). destruct (ho_vector _ (io_heap_ok _ Hok) j p Hj) as (c' & Hc' & <-).
  congruence.
Qed.

Lemma overdue_nodup now m : io_ok m → NoDup (overdue_items now m).*1.
Proof.
  intros Hok. unfold overdue_items. rewrite fmap_bind. apply NoDup_bind; [| |by apply vector_nodup].
  - intros p1 p2 [fd e] [i H1]%list_elem_of_lookup [j H2]%list_elem_of_lookup E1 E2.
    destruct (ho_vector _ (io_heap_ok _ Hok) i p1 H1) as (c1 & Hc1 & F1). destruct (ho_vector _ (io_heap_ok _ Hok) j p2 H2) as (c2 & Hc2 & F2).
    unfold expired_of in E1, E2. rewrite Hc1, F1 in E1. rewrite Hc2, F2 in E2.
    assert (fd = i) as ->.
    { rewrite fmap_app, elem_of_app in E1. destruct (overdue now READ c1), (overdue now WRITE c1); set_solver. }
    assert (i = j) as ->.
    { rewrite fmap_app, elem_of_app in E2. destruct (overdue now READ c2), (overdue now WRITE c2); set_solver. }
    congruence.
  - intros p _. unfold expired_of. destruct (io_heap m !! p) as [c|]; [|apply NoDup_nil_2].
    destruct (overdue now READ c), (overdue now WRITE c); cbn; repeat (apply NoDup_cons; split); try apply NoDup_nil_2; set_solver.
Qed.

Lemma overdue_valid now m : io_ok m → Forall (valid_item m) (overdue_items now m).
Proof.
  intros Hok. apply Forall_forall. intros [[fd e] flag] (c & Hc & Ho & Hf)%overdue_elem; [|done]. exists c. cbn.
  split; [done|]. split; [|done]. unfold overdue in Ho. by apply andb_prop in Ho as [[Ho _]%andb_prop _].
Qed.

Lemma overdue_deadline now m fd e c : context_at m fd = Some c → overdue now e c = true →
  deadline m (ev_expire_at (getContext e c)) ∧ ev_expire_at (getContext e c) ≤ now.
Proof.
  intros Hc Ho. unfold overdue in Ho. apply andb_prop in Ho as [[_ Hz]%andb_prop Hle]. split; [|lia].
  split; [|by exists fd, c, e]. by destruct (Z.eqb_spec (ev_expire_at (getContext e c)) 0).
Qed.

Lemma swept_same_l thread items m m1 m2 : same_waits m m1 → io_flags m1 = io_flags m → (deadlines_ok m → deadlines_ok m1) →
  swept thread items m1 m2 → swept thread items m m2.
Proof.
  intros [S1 S2 S3 S4 S5] Sf Sd [P1 P2 P3 P4 P5 P6].
  assert (∀ fd, context_at m1 fd = context_at m fd) as Hat by (intros fd; unfold context_at; by rewrite S1, S2).
  split; [done|by rewrite P2, S2| | | |auto].
  - intros fd c Hc. apply P3. by rewrite Hat.
  - rewrite P4, S4. f_equal. apply list_bind_ext; [|done]. intros x. unfold item_tasks. by rewrite Hat.
  - intros a. rewrite P5. unfold flag_of. by rewrite Sf.
Qed.

Lemma checkIoExpired_spec now thread m : io_ok m → deadlines_ok m → now < UINT64_MAX →
  ∃ m', checkIoExpired now thread m = Some m' ∧ swept thread (overdue_items now m) m m'.
Proof.
  intros Hok Hd Hnow. pose proof (refresh_same m) as Hs. pose proof (same_ok _ _ Hs Hok) as Hok1.
  destruct (refresh_if_ok m Hd (io_heap_ok _ Hok)) as [Hd1 _].
  assert (io_flags (refresh_if_dirty m) = io_flags m) as Hf by (unfold refresh_if_dirty; by destruct (m_ioExpireDirty m)).
  assert (overdue_items now (refresh_if_dirty m) = overdue_items now m) as Hitems.
  { unfold overdue_items, expired_of. destruct Hs as [S1 S2 _ _ _]. by rewrite S1, S2. }
  set (m1 := refresh_if_dirty m) in *. unfold checkIoExpired. fold m1. cbv zeta.
  destruct ((m_nextIoExpire m1 =? UINT64_MAX) || (now <? m_nextIoExpire m1)) eqn:Hguard.
  - exists m1. split; [done|]. apply (swept_same_l thread _ m m1 m1); [done|done|done|].
    replace (overdue_items now m) with (@nil (nat * Event * option nat)).
    + split; [done|done|by intros|cbn; by rewrite app_nil_r|done|done].
    + symmetry. apply elem_of_nil_inv. intros [[fd e] flag]. rewrite <-Hitems, overdue_elem by done. intros (c & Hc & Ho & _).
      destruct (overdue_deadline now m1 fd e c Hc Ho) as [Hdl Hle]. pose proof (dl_below _ Hd1 _ Hdl). lia.
  - destruct (expire_items_spec thread (overdue_items now m) m1 Hok1) as (m' & E & Hsw).
    + by apply overdue_nodup.
    + rewrite <-Hitems. by apply overdue_valid.
    + exists m'. split; [|by apply (swept_same_l thread _ m m1 m')]. rewrite <-Hitems in E. exact E.
Qed.

(** The least deadline, and the time until it. *)
Lemma getNextIoExpire_spec now m : io_ok m → deadlines_ok m → 0 ≤ now < UINT64_MAX →
  let r := getNextIoExpire now m in
  same_waits m r.1 ∧ deadlines_ok r.1 ∧
  ((∀ d, deadline m d → d = UINT64_MAX) ∧ r.2 = UINT64_MAX ∨
   ∃ d, deadline m d ∧ (∀ x, deadline m x → d ≤ x) ∧ r.2 = Z.max 0 (d - now)).
Proof.
  intros Hok Hd Hnow r. unfold r, getNextIoExpire. cbn [fst snd]. pose proof (refresh_same m) as Hs.
  destruct (refresh_if_ok m Hd (io_heap_ok _ Hok)) as [Hd1 Hfalse]. set (m1 := refresh_if_dirty m) in *.
  assert (∀ d, deadline m1 d ↔ deadline m d) as Hdl.
  { intros d. unfold deadline, context_at. destruct Hs as [S1 S2 _ _ _]. by rewrite S1, S2. }
  split; [done|]. split; [done|]. destruct Hd1 as [R B X N].
  destruct (Z.eqb_spec (m_nextIoExpire m1) UINT64_MAX) as [He|He].
  - left. split; [|done]. intros d H%Hdl. specialize (R d H). specialize (B d H). lia.
  - right. destruct (X Hfalse) as [|Hm]; [done|]. exists (m_nextIoExpire m1). split; [by apply Hdl|].
    split; [by intros x H%Hdl; apply B|]. specialize (R _ Hm).
    destruct (Z.leb_spec (m_nextIoExpire m1) now); [lia|]. rewrite u64_id; [lia|]. unfold in_u64. unfold UINT64_MAX in *. lia.
Qed.
(** *** Every method *)

(** A manager between two calls, with room for the growth of [addEvent]. *)
Record io_seq m : Prop := mkIoSeq {
  seq_ok : io_ok m;
  seq_deadlines : deadlines_ok m;
  seq_room : (2 ≤ length (m_fdContexts m))%nat
}.

Definition awaits m (fd : nat) (e : Event) : bool :=
  match context_at m fd with Some c => has e (fc_events c) | None => false end.

Lemma grow_seq fd m : io_seq m → (length (m_fdContexts m) ≤ fd)%nat →
  io_seq (grow_context fd m).1 ∧ (fd < length (m_fdContexts (grow_context fd m).1))%nat ∧
  same_waits (grow_context fd m).1 (set_vector (io_heap (grow_context fd m).1) (m_fdContexts (grow_context fd m).1) m) ∧
  ∀ fd', context_at (grow_context fd m).1 fd' =
    match context_at m fd' with
    | Some c => Some c
    | None => if (fd' <? length (m_fdContexts (grow_context fd m).1))%nat then Some (FdContext0 fd') else None
    end.
Proof.
  intros [Hok Hd Hroom] Hfd. unfold grow_context. cbn [fst]. pose proof (contextResize_ok (fd * 3 / 2) m Hok) as [Hok1 _].
  assert (fd < fd * 3 / 2)%nat as Hsize by (apply (Nat.div_le_lower_bound _ 2 (S fd)); lia).
  set (n := (fd * 3 / 2)%nat) in *. clearbody n. unfold contextResize in *. rewrite take_ge in * by lia.
  destruct (alloc_contexts _ _ _) as [heap l] eqn:E. destruct (alloc_spec _ _ _ _ _ E) as (Hsub & Ht & Hl & Hnew & Hat).
  set (m1 := set_vector heap (m_fdContexts m ++ l) m) in *.
  assert (length (m_fdContexts m1) = n)%nat as Hlen by (cbn; rewrite length_app; lia).
  assert (∀ fd', context_at m1 fd' = match context_at m fd' with Some c => Some c
            | None => if (fd' <? length (m_fdContexts m1))%nat then Some (FdContext0 fd') else None end) as Hctx.
  { intros fd'. unfold context_at. rewrite Hlen. change (m_fdContexts m1) with (m_fdContexts m ++ l). change (io_heap m1) with heap.
    destruct (m_fdContexts m !! fd') as [p|] eqn:Hp.
    - rewrite (lookup_app_l_Some _ _ _ _ Hp). cbn. destruct (ho_vector _ (io_heap_ok _ Hok) _ _ Hp) as (c & Hc & _).
      rewrite Hc. by apply (lookup_weaken _ _ _ _ Hc).
    - apply lookup_ge_None in Hp. rewrite lookup_app_r by done. cbn [mbind option_bind].
      destruct (Nat.ltb_spec fd' n) as [Hlt|Hge].
      + destruct (lookup_lt_is_Some_2 l (fd' - length (m_fdContexts m))) as [p Hp']; [lia|]. rewrite Hp'. cbn [mbind option_bind].
        rewrite (Hat _ _ Hp'). by replace (length (m_fdContexts m) + (fd' - length (m_fdContexts m)))%nat with fd' by lia.
      + by rewrite lookup_ge_None_2 by lia. }
  assert (∀ d, deadline m1 d ↔ deadline m d) as Hdl.
  { intros d. unfold deadline. split; intros [Hz (f & c & e & Hc & He)]; (split; [done|]); exists f, c, e; (split; [|done]).
    - rewrite Hctx in Hc. destruct (context_at m f); [done|]. destruct (_ <? _)%nat; [|done]. injection Hc as <-. by destruct e; subst d.
    - by rewrite Hctx, Hc. }
  split; [split; [done| |rewrite Hlen; lia]|split; [rewrite Hlen; lia|split; [done|done]]].
  destruct Hd as [R B X N]. split; [intros d H%Hdl; by apply R|intros d H%Hdl; by apply B| |done].
  intros Hf. destruct (X Hf) as [|H]; [by left|right; by apply Hdl].
Qed.

Lemma context_exists m fd : io_ok m → (fd < length (m_fdContexts m))%nat → ∃ c, context_at m fd = Some c.
Proof.
  intros Hok Hlt. destruct (lookup_lt_is_Some_2 _ _ Hlt) as [p Hp]. destruct (ho_vector _ (io_heap_ok _ Hok) fd p Hp) as (c & Hc & _).
  exists c. unfold context_at. by rewrite Hp.
Qed.

Lemma expire_of_range now timeout_ms : 0 ≤ expire_of now timeout_ms ≤ UINT64_MAX.
Proof.
  unfold expire_of. destruct (_ =? _); [done|]. pose proof (u64_range (now + timeout_ms)) as H. exact H.
Qed.

(** [addEvent] on a context that is there. *)
Lemma add_present_seq fd p e cb fiber timeout_ms flag now s c m : io_seq m → m_fdContexts m !! fd = Some p →
  io_heap m !! p = Some c → has e (fc_events c) = false →
  ∃ m' rt, (r ← add_locked p fd e cb fiber timeout_ms flag now (Some s) m;
            match r.2 with Some d => Some (onIoWaitAdded d r.1, 0) | None => Some (r.1, -1) end) = Some (m', rt) ∧
    io_seq m' ∧ (rt = 0 ∨ rt = -1) ∧
    ∀ fd', context_at m' fd' =
      if bool_decide (rt = 0 ∧ fd' = fd) then Some (armed_ctx e cb fiber timeout_ms flag now s c) else context_at m fd'.
Proof.
  intros [Hok Hd Hroom] Hv Hp Hhas. destruct (ho_vector _ (io_heap_ok _ Hok) fd p Hv) as (c1 & Hc1 & Hfd).
  rewrite Hp in Hc1. injection Hc1 as <-. subst fd.
  destruct (add_locked_spec p e cb fiber timeout_ms flag now s c m Hok Hp Hhas) as (k & rt & _ & E).
  destruct (add_locked_ok p e cb fiber timeout_ms flag now s c m Hok Hp Hhas) as (m1 & r & E1 & Hok1 & _ & _).
  rewrite E in E1. injection E1 as E1. rewrite E. cbn [mbind option_bind].
  set (c' := armed_ctx e cb fiber timeout_ms flag now s c) in *. destruct (Z.eqb_spec rt 0) as [Hz|Hz]; cbn [fst snd].
  - injection E1 as E1 E2. set (d := expire_of now timeout_ms) in *. pose proof (added_same d m1) as Hs. pose proof Hs as [S1 S2 _ _ _].
    assert (io_heap m1 = <[p := c']> (io_heap m)) as Hh by (by rewrite <-E1).
    assert (m_fdContexts m1 = m_fdContexts m) as Hvm by (by rewrite <-E1).
    destruct (deadline_put m m1 p e c c' (io_heap_ok _ Hok) Hp) as (D1 & D2 & D3); [by destruct e|done|done|by intros []; destruct e|].
    assert (ev_expire_at (getContext e c') = d) as He by (by destruct e). rewrite He in *.
    assert (getContext e c = EventContext0) as Hempty.
    { pose proof (has_ok e c (ho_ctx _ (io_heap_ok _ Hok) p c Hp)) as H. by rewrite Hhas in H. }
    rewrite E1. eexists _, 0. split; [done|]. split; [split|split; [by left|]].
    + by apply (same_ok m1).
    + apply (deadlines_added m); [done|apply expire_of_range|by rewrite <-E1|by rewrite <-E1|].
      intros x. split; [intros H; destruct (D1 x H) as [|[Hx1 Hx2]]; [by left|right; split; [done|congruence]]|].
      intros [H|[Hx H]]; [|rewrite Hx; by apply D3]. destruct (D2 x H) as [|E3]; [done|].
      rewrite Hempty in E3. cbn in E3. subst x. by destruct H.
    + by rewrite S2, Hvm.
    + intros fd'. rewrite (context_put m _ (fc_fd c) p c c'); [|done|done|done|by rewrite S1|by rewrite S2].
      destruct (decide (fd' = fc_fd c)); [rewrite bool_decide_true by done|rewrite bool_decide_false by naive_solver]; done.
  - injection E1 as E1 E2. eexists _, (-1). split; [done|]. split; [split|split; [by right|]].
    + by rewrite E1.
    + by apply (deadlines_same m).
    + done.
    + intros fd'. rewrite bool_decide_false by naive_solver. done.
Qed.

Lemma addEvent_seq fd e cb fiber timeout_ms flag now s m : io_seq m → awaits m fd e = false →
  ∃ m' rt, addEvent fd e cb fiber timeout_ms flag now (Some s) m = Some (m', rt) ∧ io_seq m' ∧ (rt = 0 ∨ rt = -1) ∧
    awaits m' fd e = bool_decide (rt = 0) ∧
    ∀ fd' e', (fd', e') ≠ (fd, e) → awaits m' fd' e' = awaits m fd' e'.
Proof.
  intros Hseq Hw.
  assert (∃ m1 p c, match find_context fd m with Some p => (m, Some p) | None => grow_context fd m end = (m1, Some p) ∧
    io_seq m1 ∧ m_fdContexts m1 !! fd = Some p ∧ io_heap m1 !! p = Some c ∧ has e (fc_events c) = false ∧
    ∀ fd' e', awaits m1 fd' e' = awaits m fd' e') as (m1 & p & c & E1 & Hseq1 & Hv & Hp & Hhas & Hsame).
  { destruct (find_context fd m) as [p|] eqn:Ef.
    - destruct (find_context_ok fd p m (io_heap_ok _ (seq_ok _ Hseq)) Ef) as (c & Hc & _). apply find_context_Some in Ef.
      exists m, p, c. split_and!; [done|done|done|done| |done]. unfold awaits, context_at in Hw. rewrite Ef in Hw. cbn in Hw. by rewrite Hc in Hw.
    - assert (length (m_fdContexts m) ≤ fd)%nat as Hge.
      { apply lookup_ge_None. destruct (m_fdContexts m !! fd) eqn:E; [|done]. by apply find_context_Some in E; rewrite E in Ef. }
      destruct (grow_seq fd m Hseq Hge) as (Hseq1 & Hlt & _ & Hctx). destruct (grow_context fd m) as [m1 r] eqn:Eg. cbn [fst] in *.
      assert (r = m_fdContexts m1 !! fd) as Hr by (unfold grow_context in Eg; by injection Eg as <- <-).
      destruct (lookup_lt_is_Some_2 _ _ Hlt) as [p Hp]. destruct (ho_vector _ (io_heap_ok _ (seq_ok _ Hseq1)) fd p Hp) as (c & Hc & _).
      exists m1, p, c. rewrite Hr, Hp.
      assert (∀ fd' e', awaits m1 fd' e' = awaits m fd' e') as Hsame.
      { intros fd' e'. unfold awaits. rewrite Hctx. destruct (context_at m fd'); [done|]. destruct (_ <? _)%nat; [|done]. by destruct e'. }
      split_and!; [done|done|done|done| |done]. rewrite <-Hw, <-Hsame. unfold awaits, context_at. rewrite Hp. cbn. by rewrite Hc. }
  destruct (add_present_seq fd p e cb fiber timeout_ms flag now s c m1 Hseq1 Hv Hp Hhas) as (m' & rt & E & Hseq' & Hrt & Hctx).
  exists m', rt. unfold addEvent. rewrite E1. cbn [mbind option_bind].
  assert (context_at m1 fd = Some c) as Hat by (unfold context_at; by rewrite Hv).
  pose proof (ho_ctx _ (io_heap_ok _ (seq_ok _ Hseq1)) p c Hp) as (r & w & Hev & _).
  split; [|split; [done|split; [done|split]]].
  - destruct (add_locked _ _ _ _ _ _ _ _ _ _) as [[m2 [d|]]|]; cbn in *; done.
  - unfold awaits. rewrite Hctx. case_bool_decide as Hb.
    + destruct Hb as [-> _]. rewrite bool_decide_true by done. unfold armed_ctx. destruct e; cbn; rewrite Hev; by destruct r, w.
    + rewrite Hat, Hhas. symmetry. apply bool_decide_false. naive_solver.
  - intros fd' e' Hne. rewrite <-Hsame. unfold awaits. rewrite Hctx. case_bool_decide as Hb; [|done]. destruct Hb as [_ ->].
    rewrite Hat. unfold armed_ctx. destruct e, e'; cbn; rewrite ?Hev; try done; by destruct r, w.
Qed.
(** Of what waited, [l] waits no more. *)
Definition no_more (l : list (nat * Event)) m m' : Prop :=
  ∀ fd e, awaits m' fd e = awaits m fd e && negb (bool_decide ((fd, e) ∈ l)).

Lemma awaits_none m fd e : context_at m fd = None → awaits m fd e = false.
Proof. intros H. unfold awaits. by rewrite H. Qed.

Lemma no_more_none m fd e : awaits m fd e = false → no_more [(fd, e)] m m.
Proof.
  intros H fd' e'. case_bool_decide as Hin; [|by rewrite andb_true_r].
  apply list_elem_of_singleton in Hin as [= -> ->]. by rewrite H.
Qed.

Lemma awaits_at m fd e p c : m_fdContexts m !! fd = Some p → io_heap m !! p = Some c → awaits m fd e = has e (fc_events c).
Proof. intros Hv Hp. unfold awaits, context_at. rewrite Hv. cbn. by rewrite Hp. Qed.

Lemma disarmed_events e c : fc_events (disarmed e c) = without e (fc_events c).
Proof. by destruct e. Qed.

(** One context changed to one that waits for less. *)
Lemma no_more_put l fd p c c' m m1 : io_ok m → m_fdContexts m !! fd = Some p → io_heap m !! p = Some c →
  io_heap m1 = <[p := c']> (io_heap m) → m_fdContexts m1 = m_fdContexts m →
  (∀ e, has e (fc_events c') = has e (fc_events c) && negb (bool_decide ((fd, e) ∈ l))) →
  (∀ fd' e, (fd', e) ∈ l → fd' = fd) → no_more l m m1.
Proof.
  intros Hok Hv Hp Hh Hv1 Hc Hl fd' e. unfold awaits at 1. rewrite (context_put m m1 fd p c c') by done.
  destruct (decide (fd' = fd)) as [->|Hne]; [by rewrite Hc, (awaits_at m fd e p c)|].
  rewrite bool_decide_false by (intros H; by apply Hne, (Hl fd' e)). by rewrite andb_true_r.
Qed.

Lemma disarmed_no_more e c : ctx_ok c → ∀ e' (fd : nat),
  has e' (fc_events (disarmed e c)) = has e' (fc_events c) && negb (bool_decide ((fd, e') ∈ [(fd, e)])).
Proof.
  intros (r & w & Hev & _) e' fd. rewrite disarmed_events, Hev, (bool_decide_ext _ (e' = e)) by set_solver.
  by destruct e, e', r, w.
Qed.

Lemma delEvent_seq fd e m : io_seq m →
  ∃ m', delEvent fd e m = Some (m', awaits m fd e) ∧ io_seq m' ∧ io_tasks m' = io_tasks m ∧ io_flags m' = io_flags m ∧
    no_more [(fd, e)] m m'.
Proof.
  intros Hseq. destruct Hseq as [Hok Hd Hroom]. unfold delEvent. destruct (find_context fd m) as [p|] eqn:Ef.
  - apply find_context_Some in Ef as Hv. destruct (ho_vector _ (io_heap_ok _ Hok) fd p Hv) as (c & Hp & Hfd). subst fd.
    destruct (del_locked_ok p e c m Hok Hp) as (m1 & r & E & Hok1 & Hr). rewrite E. cbn [mbind option_bind].
    rewrite (awaits_at m _ e p c Hv Hp). destruct (has e (fc_events c)) eqn:Hhas.
    + destruct Hr as (-> & _ & Ht). unfold removed. cbn [fst snd]. eexists. split; [done|].
      unfold del_locked in E. rewrite Hp in E. cbn [mbind option_bind] in E. rewrite Hhas in E. cbn [negb] in E.
      destruct (ctl_keeps p (fc_fd c) (without e (fc_events c)) m Hok c Hp eq_refl (has_nonzero _ _ Hhas)) as (k & Ek & _).
      rewrite Ek in E. cbn [negb] in E. injection E as E.
      pose proof (removed_same (ev_expire_at (getContext e c)) m1) as Hs. pose proof Hs as [S1 S2 S3 S4 S5].
      assert (io_heap m1 = <[p := disarmed e c]> (io_heap m)) as Hh by (by rewrite <-E).
      assert (m_fdContexts m1 = m_fdContexts m) as Hvm by (by rewrite <-E).
      assert (io_flags (onIoWaitRemoved (ev_expire_at (getContext e c)) m1) = io_flags m1) as Hfl by (unfold onIoWaitRemoved; by destruct (_ && _)).
      split; [split; [by eapply same_ok| |by rewrite S2, Hvm]|].
      { eapply (deadlines_disarmed m m1 p e c); [done|apply Hok|done|done|done|by rewrite <-E|by rewrite <-E]. }
      split; [by rewrite S4|]. split; [by rewrite Hfl, <-E|].
      apply (no_more_put _ (fc_fd c) p c (disarmed e c)); [done..|by rewrite S1|by rewrite S2| |by intros fd' e' [= -> ->]%list_elem_of_singleton].
      intros e'. apply disarmed_no_more. by apply (ho_ctx _ (io_heap_ok _ Hok) p).
    + destruct Hr as [-> ->]. exists m. split; [done|]. split; [done|]. split; [done|]. split; [done|]. apply no_more_none.
      by rewrite (awaits_at m _ e p c Hv Hp).
  - assert (awaits m fd e = false) as Hw.
    { apply awaits_none. unfold context_at. destruct (m_fdContexts m !! fd) eqn:E; [|done]. apply find_context_Some in E. congruence. }
    rewrite Hw. exists m. split; [done|]. split; [by split|]. split; [done|]. split; [done|]. by apply no_more_none.
Qed.

(** The tasks of the waiters, as they are handed over. *)
Definition waiter_tasks (thread : Z) m (key : nat * Event) : list (nat * Task * Z) :=
  match context_at m key.1 with Some c => (λ st, (st, thread)) <$> ev_tasks (getContext key.2 c) | None => [] end.

Lemma waiter_once thread m fd e : io_ok m → awaits m fd e = true → ∃ s t, waiter_tasks thread m (fd, e) = [(s, t, thread)].
Proof.
  intros Hok Hw. unfold awaits, waiter_tasks in *. cbn [fst snd]. destruct (context_at m fd) as [c|] eqn:Hc; [|done].
  destruct (context_at_ok m fd c Hok Hc) as (_ & _ & _ & Hctx & _). pose proof (has_ok e c Hctx) as Hev. rewrite Hw in Hev.
  destruct (ev_tasks_waiting _ Hev) as (s & t & _ & ->). by exists s, t.
Qed.

Lemma waiter_none thread p fd e c m : m_fdContexts m !! fd = Some p → io_heap m !! p = Some c → ctx_ok c →
  has e (fc_events c) = false → waiter_tasks thread m (fd, e) = [].
Proof.
  intros Hv Hp Hc Hhas. unfold waiter_tasks, context_at. cbn [fst snd]. rewrite Hv. cbn [mbind option_bind]. rewrite Hp.
  pose proof (has_ok e c Hc) as H. rewrite Hhas in H. cbn [ev_ok] in H. by rewrite H.
Qed.

Lemma waiter_unawaited thread m fd e : io_ok m → awaits m fd e = false → waiter_tasks thread m (fd, e) = [].
Proof.
  intros Hok Hw. unfold awaits in Hw. destruct (context_at m fd) as [c|] eqn:Hc; [|unfold waiter_tasks; cbn [fst snd]; by rewrite Hc].
  destruct (context_at_ok m fd c Hok Hc) as (p & Hv & Hp & Hctx & _). by apply (waiter_none thread p fd e c).
Qed.

Lemma waiter_at thread p fd e c m : m_fdContexts m !! fd = Some p → io_heap m !! p = Some c →
  waiter_tasks thread m (fd, e) = (λ st, (st, thread)) <$> ev_tasks (getContext e c).
Proof. intros Hv Hp. unfold waiter_tasks, context_at. cbn [fst snd]. rewrite Hv. cbn [mbind option_bind]. by rewrite Hp. Qed.

Lemma cancelEvent_seq thread fd e m : io_seq m →
  ∃ m', cancelEvent thread fd e m = Some (m', awaits m fd e) ∧ io_seq m' ∧ no_more [(fd, e)] m m' ∧
    io_tasks m' = io_tasks m ++ waiter_tasks thread m (fd, e).
Proof.
  intros Hseq. destruct Hseq as [Hok Hd Hroom]. destruct (awaits m fd e) eqn:Hw.
  - unfold awaits in Hw. destruct (context_at m fd) as [c|] eqn:Hat; [|done].
    destruct (context_at_ok m fd c Hok Hat) as (p & Hv & Hp & Hc & _).
    destruct (cancelEvent_spec thread fd e p c m Hok Hv Hp Hw) as (m' & E & [K1 K2 K3 K4 K5 K6]).
    exists m'. split; [done|]. split; [split; [done|by apply K6|by rewrite K3]|]. split; [|by rewrite (waiter_at thread p fd e c)].
    apply (no_more_put _ fd p c (disarmed e c)); [done..| |by intros fd' e' [= -> ->]%list_elem_of_singleton].
    intros e'. by apply disarmed_no_more.
  - exists m. split; [|split; [by split|split; [by apply no_more_none|by rewrite (waiter_unawaited thread m fd e Hok Hw), app_nil_r]]].
    unfold cancelEvent. destruct (find_context fd m) as [p|] eqn:Ef; [|done]. apply find_context_Some in Ef.
    destruct (ho_vector _ (io_heap_ok _ Hok) fd p Ef) as (c & Hp & <-). rewrite (awaits_at m _ e p c Ef Hp) in Hw.
    destruct (cancel_locked_ok thread p e c m Hok Hp) as (m1 & r & E & _ & _ & Hr). rewrite Hw in Hr. destruct Hr as [-> ->].
    by rewrite E.
Qed.

Lemma fire_if_deadlines b note thread p e c m m' : deadlines_ok m → heap_ok m → io_heap m !! p = Some c →
  (b = true → has e (fc_events c) = true) → fire_if b note thread p e m = Some m' → deadlines_ok m'.
Proof.
  intros Hd Hok Hp Hb E. destruct b; [|by injection E as <-]. cbn [fire_if] in E.
  destruct (fire_event note thread p e m) as [[m1 d]|] eqn:E1; [|done]. cbn [mbind option_bind] in E. injection E as <-.
  eapply fire_deadlines; [done|done|done|by apply Hb|done].
Qed.

Lemma fire_both_deadlines r w note thread p c m m1 m' : deadlines_ok m → heap_ok m → io_heap m !! p = Some c →
  (r = true → has READ (fc_events c) = true) → (w = true → has WRITE (fc_events c) = true) →
  fire_if r note thread p READ m = Some m1 → fire_if w note thread p WRITE m1 = Some m' → deadlines_ok m'.
Proof.
  intros Hd Hok Hp Hr Hw E1 E2. destruct (fire_if_ok r note thread p READ c m Hok Hp Hr) as (m2 & E & Hok1 & _ & Hh & _ & _).
  rewrite E in E1. injection E1 as ->. eapply fire_if_deadlines; [by eapply (fire_if_deadlines r)|done| | |done].
  - by rewrite Hh, lookup_insert_eq.
  - intros Hb. specialize (Hw Hb). pose proof (ho_ctx _ Hok p c Hp) as Hc. destruct r; [|done]. cbn [disarmed_if].
    by rewrite disarmed_has.
Qed.
Lemma fire_if_tasks b note thread p e c m m' : heap_ok m → io_heap m !! p = Some c →
  (b = true → has e (fc_events c) = true) → fire_if b note thread p e m = Some m' →
  io_tasks m' = io_tasks m ++ (if b then (λ st, (st, thread)) <$> ev_tasks (getContext e c) else []).
Proof.
  intros Hok Hp Hb E. destruct b; cbn [fire_if] in E; [|injection E as <-; by rewrite app_nil_r].
  destruct (fire_event_spec note thread p e c m Hp (ho_ctx _ Hok p c Hp) (Hb eq_refl)) as (s & t & Ht & E').
  rewrite E' in E. cbn [mbind option_bind] in E. injection E as <-.
  rewrite (sw_tasks _ _ (removed_same _ _)), Ht. cbn. by rewrite (sw_tasks _ _ (note_same _ _ _)).
Qed.

Lemma fire_both_tasks r w note thread p fd c m m1 m' : heap_ok m → m_fdContexts m !! fd = Some p → io_heap m !! p = Some c →
  (r = true → has READ (fc_events c) = true) → (w = true → has WRITE (fc_events c) = true) →
  fire_if r note thread p READ m = Some m1 → fire_if w note thread p WRITE m1 = Some m' →
  io_tasks m' = io_tasks m ++ (((if r then [(fd, READ)] else []) ++ (if w then [(fd, WRITE)] else [])) ≫= waiter_tasks thread m).
Proof.
  intros Hok Hv Hp Hr Hw E1 E2. destruct (fire_if_ok r note thread p READ c m Hok Hp Hr) as (m2 & E & Hok1 & _ & Hh & _ & _).
  rewrite E in E1. injection E1 as ->. pose proof (ho_ctx _ Hok p c Hp) as Hc.
  rewrite (fire_if_tasks w note thread p WRITE (disarmed_if r READ c) m1 m' Hok1); [| | |done].
  - rewrite (fire_if_tasks r note thread p READ c m m1 Hok Hp Hr E), <-app_assoc. f_equal.
    rewrite bind_app. f_equal; [destruct r|destruct w]; cbn [mbind list_bind]; rewrite ?app_nil_r, ?(waiter_at thread p fd _ c); try done.
    by destruct r.
  - by rewrite Hh, lookup_insert_eq.
  - intros Hb. specialize (Hw Hb). destruct r; [|done]. cbn [disarmed_if]. by rewrite disarmed_has.
Qed.

Lemma cancelAll_seq thread fd m : io_seq m →
  ∃ m', cancelAll thread fd m = Some (m', awaits m fd READ || awaits m fd WRITE) ∧ io_seq m' ∧
    no_more [(fd, READ); (fd, WRITE)] m m' ∧
    io_tasks m' = io_tasks m ++ ([(fd, READ); (fd, WRITE)] ≫= waiter_tasks thread m).
Proof.
  intros Hseq. destruct Hseq as [Hok Hd Hroom]. unfold cancelAll. destruct (find_context fd m) as [p|] eqn:Ef.
  - apply find_context_Some in Ef as Hv. destruct (ho_vector _ (io_heap_ok _ Hok) fd p Hv) as (c & Hp & Hfd). subst fd.
    destruct (cancel_all_ok thread p c m Hok Hp) as (m1 & b & E & Hok1 & _ & -> & Hh). rewrite E.
    rewrite !(awaits_at m _ _ p c Hv Hp). pose proof (ho_ctx _ (io_heap_ok _ Hok) p c Hp) as Hc. pose proof Hc as (r & w & Hev & _).
    exists m1. split; [rewrite Hev; by destruct r, w|].
    assert (m_fdContexts m1 = m_fdContexts m ∧ deadlines_ok m1 ∧
      io_tasks m1 = io_tasks m ++ ([(fc_fd c, READ); (fc_fd c, WRITE)] ≫= waiter_tasks thread m)) as (Hv1 & Hd1 & Ht1).
    { assert (∀ e, has e (fc_events c) = false → waiter_tasks thread m (fc_fd c, e) = []) as Hnone
        by (intros e; by apply (waiter_none thread p)).
      unfold cancel_all_locked in E. rewrite Hp in E. cbn [mbind option_bind] in E. destruct (Z.eqb_spec (fc_events c) 0) as [Hz|Hz].
      { injection E as <-. split; [done|]. split; [done|]. cbn [mbind list_bind].
        rewrite !Hnone by (rewrite Hz; done). by rewrite app_nil_r. }
      assert (is_Some (interest (io_kernel m) !! fc_fd c)) as Hi by (exists (Z.lor EPOLLET (fc_events c), p); apply Hok; by exists c).
      destruct (ctl_del (fc_fd c) (0, p) (io_kernel m) Hi) as [E1 _]. destruct (epoll_ctl _ _ _ _) as [k rt]. cbn [snd] in E1. subst rt.
      cbn [Z.eqb negb] in E.
      pose proof (set_kernel_heap k m (io_heap_ok _ Hok)) as Hhk. assert (deadlines_ok (set_kernel k m)) as Hdk by (by apply (deadlines_same m)).
      destruct (fire_both (has READ (fc_events c)) (has WRITE (fc_events c)) true thread p c (set_kernel k m) Hhk Hp)
        as (m2 & m3 & F1 & W1 & F2 & _ & _ & _ & _ & V3); [done..|].
      assert (waits p READ (set_kernel k m) = has READ (fc_events c)) as Hw by (unfold waits; cbn; by rewrite Hp).
      rewrite Hw, F1 in E. cbn [mbind option_bind] in E. rewrite W1, F2 in E. cbn [mbind option_bind] in E.
      destruct (io_heap m3 !! p) as [c3|]; [|done]. cbn [mbind option_bind] in E. destruct (_ =? 0); [|done]. injection E as <-.
      split; [done|]. split; [by eapply (fire_both_deadlines _ _ true thread p c (set_kernel k m) m2 m3)|].
      rewrite (fire_both_tasks _ _ true thread p (fc_fd c) c (set_kernel k m) m2 m3 Hhk Hv Hp) by done. f_equal. cbn [mbind list_bind].
      destruct (has READ (fc_events c)) eqn:H1, (has WRITE (fc_events c)) eqn:H2; cbn [mbind list_bind app];
        rewrite ?(Hnone READ H1), ?(Hnone WRITE H2); done. }
    split; [split; [done|done|by rewrite Hv1]|]. split; [|done].
    eapply (no_more_put _ (fc_fd c) p c); [done..|exact Hh|done| |by intros fd' e' [[= -> ->]|[= -> ->]%list_elem_of_singleton]%elem_of_cons].
    intros e. rewrite (bool_decide_true ((fc_fd c, e) ∈ _)) by (destruct e; set_solver). rewrite andb_false_r. by destruct e.
  - assert (∀ e, awaits m fd e = false) as Hw.
    { intros e. apply awaits_none. unfold context_at. destruct (m_fdContexts m !! fd) eqn:E; [|done].
      apply find_context_Some in E. congruence. }
    assert (context_at m fd = None) as Hnone.
    { unfold context_at. destruct (m_fdContexts m !! fd) eqn:E; [|done]. apply find_context_Some in E. congruence. }
    rewrite !Hw. exists m. split; [done|]. split; [by split|]. split.
    + intros fd' e'. case_bool_decide as Hin; [|by rewrite andb_true_r]. assert (fd' = fd) as -> by set_solver. by rewrite Hw.
    + cbn [mbind list_bind]. unfold waiter_tasks. cbn [fst snd]. rewrite Hnone. by rewrite app_nil_r.
Qed.

Definition woken_at (fd : nat) (real : Z) : list (nat * Event) :=
  (if has READ real then [(fd, READ)] else []) ++ (if has WRITE real then [(fd, WRITE)] else []).

(** A report of a context of the vector, with events it waits for. *)
Definition fits_report m (r : Report) : Prop :=
  match r with
  | Tickled => True
  | Ready p reported => ∃ fd c, m_fdContexts m !! fd = Some p ∧ io_heap m !! p = Some c ∧
      Z.land (real_events reported (fc_events c)) (Z.lnot (fc_events c)) = 0
  end.
(** What a report wakes. *)
Definition woken m (r : Report) : list (nat * Event) :=
  match r with
  | Tickled => []
  | Ready p reported =>
      match io_heap m !! p with Some c => woken_at (fc_fd c) (real_events reported (fc_events c)) | None => [] end
  end.
Definition report_context (r : Report) : list nat := match r with Tickled => [] | Ready p _ => [p] end.

Lemma woken_at_elem fd r w fd' e : (fd', e) ∈ woken_at fd (mask r w) ↔ fd' = fd ∧ of_event e r w = true.
Proof. unfold woken_at. rewrite !has_mask. cbn [of_event]. destruct e, r, w; cbn; set_solver. Qed.

Lemma ready_seq thread p reported m : io_seq m → fits_report m (Ready p reported) →
  ∃ m', ready_locked thread p reported m = Some m' ∧ io_seq m' ∧ m_fdContexts m' = m_fdContexts m ∧
    (∀ q, q ≠ p → io_heap m' !! q = io_heap m !! q) ∧ no_more (woken m (Ready p reported)) m m' ∧
    io_tasks m' = io_tasks m ++ (woken m (Ready p reported) ≫= waiter_tasks thread m).
Proof.
  intros [Hok Hd Hroom] (fd & c & Hv & Hp & Hfit). destruct (ho_vector _ (io_heap_ok _ Hok) fd p Hv) as (c1 & Hp1 & Hfd).
  rewrite Hp in Hp1. injection Hp1 as <-. subst fd. cbn [woken]. rewrite Hp.
  pose proof (ready_ok thread p reported c m Hok Hp) as Hr. cbv zeta in Hr.
  pose proof (ho_ctx _ (io_heap_ok _ Hok) p c Hp) as Hc. pose proof Hc as (rd & wr & Hev & _).
  destruct (real_events_mask reported (fc_events c)) as (r & w & Hreal). rewrite Hreal in *.
  assert ((r = true → rd = true) ∧ (w = true → wr = true)) as [Hrd Hwr].
  { rewrite Hev, mask_diff, mask_zero in Hfit. by destruct r, w, rd, wr, Hfit. }
  destruct (Z.eqb_spec (Z.land (fc_events c) (mask r w)) 0) as [Hz|Hz].
  - exists m. split; [done|]. split; [by split|]. split; [done|]. split; [done|].
    rewrite Hev, mask_and, mask_zero in Hz. destruct Hz as [Hz1 Hz2].
    split; [|unfold woken_at; rewrite !has_mask; cbn [of_event]; destruct r, w; cbn; rewrite ?app_nil_r; try done;
      [by rewrite (Hrd eq_refl) in Hz1..|by rewrite (Hwr eq_refl) in Hz2]].
    intros fd' e'. rewrite bool_decide_false; [by rewrite andb_true_r|]. rewrite woken_at_elem. intros [_ He].
    destruct e'; cbn in He; subst; [by rewrite (Hrd eq_refl) in Hz1|by rewrite (Hwr eq_refl) in Hz2].
  - rewrite Hfit in Hr. cbn [Z.eqb] in Hr. destruct Hr as (m' & E & Hok' & _). exists m'. split; [done|].
    unfold ready_locked in E. rewrite Hp in E. cbn [mbind option_bind] in E. rewrite Hreal in E. apply Z.eqb_neq in Hz. rewrite Hz in E.
    destruct (ctl_keeps p (fc_fd c) (Z.land (fc_events c) (Z.lnot (mask r w))) m Hok c Hp eq_refl) as (k & Ek & _).
    { intros E0. by rewrite E0 in Hz. }
    rewrite Ek in E. cbn [negb] in E. rewrite !has_mask in E. cbn [of_event] in E.
    pose proof (set_kernel_heap k m (io_heap_ok _ Hok)) as Hhk. assert (deadlines_ok (set_kernel k m)) as Hdk by (by apply (deadlines_same m)).
    assert ((r = true → has READ (fc_events c) = true) ∧ (w = true → has WRITE (fc_events c) = true)) as [H1 H2].
    { rewrite Hev, !has_mask. by split. }
    destruct (fire_both r w false thread p c (set_kernel k m) Hhk Hp H1 H2) as (m2 & m3 & F1 & _ & F2 & _ & _ & Hh & _ & V3).
    rewrite F1 in E. cbn [mbind option_bind] in E. rewrite F2 in E. injection E as <-.
    split; [split; [done|by eapply (fire_both_deadlines r w false thread p c (set_kernel k m) m2 m3)|by rewrite V3]|].
    split; [done|]. split; [intros q Hq; by rewrite Hh, lookup_insert_ne|].
    split; [|unfold woken_at; rewrite !has_mask; cbn [of_event];
      by rewrite (fire_both_tasks r w false thread p (fc_fd c) c (set_kernel k m) m2 m3 Hhk Hv Hp H1 H2 F1 F2)].
    eapply (no_more_put _ (fc_fd c) p c); [done..|exact Hh|done| |intros fd' e'; rewrite woken_at_elem; by intros []].
    intros e. destruct (disarmed_both_events r w c Hc) as [-> _]. rewrite Hev, mask_diff, !has_mask.
    rewrite (bool_decide_ext _ (of_event e r w = true)) by (rewrite woken_at_elem; naive_solver). by destruct e, r, w, rd, wr.
Qed.

Lemma no_more_trans l1 l2 m1 m2 m3 : no_more l1 m1 m2 → no_more l2 m2 m3 → no_more (l1 ++ l2) m1 m3.
Proof.
  intros H1 H2 fd e. rewrite H2, H1. rewrite (bool_decide_ext ((fd, e) ∈ l1 ++ l2) ((fd, e) ∈ l1 ∨ (fd, e) ∈ l2)) by apply elem_of_app.
  rewrite bool_decide_or, negb_orb. by rewrite andb_assoc.
Qed.

Lemma reports_seq thread reports m : io_seq m → Forall (fits_report m) reports → NoDup (reports ≫= report_context) →
  ∃ m', foldl (report thread) (Some m) reports = Some m' ∧ io_seq m' ∧ no_more (reports ≫= woken m) m m' ∧
    io_tasks m' = io_tasks m ++ ((reports ≫= woken m) ≫= waiter_tasks thread m).
Proof.
  revert m. induction reports as [|[|p reported] l IH]; intros m Hseq Hfit Hnd.
  - exists m. split; [done|]. split; [done|]. split; [intros fd e; cbn; by rewrite andb_true_r|]. cbn. by rewrite app_nil_r.
  - apply Forall_cons in Hfit as [_ Hfit]. by apply IH.
  - apply Forall_cons in Hfit as [Hf Hfit]. cbn [mbind list_bind report_context app] in Hnd. apply NoDup_cons in Hnd as [Hnot Hnd].
    destruct (ready_seq thread p reported m Hseq Hf) as (m1 & E & Hseq1 & Hv & Hoth & Hst & Ht).
    assert (∀ r, r ∈ l → ∀ q, q ∈ report_context r → io_heap m1 !! q = io_heap m !! q) as Hq.
    { intros r Hr q Hin. apply Hoth. intros ->. apply Hnot, list_elem_of_bind. eauto. }
    destruct (IH m1 Hseq1) as (m' & E' & Hseq' & Hst' & Ht'); [|done|].
    { rewrite Forall_forall in *. intros [|q rep] Hr; [done|]. destruct (Hfit _ Hr) as (fd & c & F1 & F2 & F3). exists fd, c.
      rewrite Hv, (Hq _ Hr q) by (by left). done. }
    exists m'. split; [change (foldl (report thread) (ready_locked thread p reported m) l = Some m'); by rewrite E|]. split; [done|].
    assert (l ≫= woken m1 = l ≫= woken m) as Hwk.
    { apply Forall_bind_ext, Forall_forall. intros [|q rep] Hr; [done|]. cbn [woken]. by rewrite (Hq _ Hr q) by (by left). }
    rewrite Hwk in Hst', Ht'. split; [cbn [mbind list_bind]; by eapply no_more_trans|].
    rewrite Ht', Ht, <-app_assoc. cbn [mbind list_bind]. rewrite bind_app. f_equal. f_equal.
    apply Forall_bind_ext, Forall_forall. intros [fd e] (r & Hin & Hr)%list_elem_of_bind. destruct r as [|q rep]; [by apply elem_of_nil in Hin|].
    rewrite Forall_forall in Hfit. destruct (Hfit _ Hr) as (fd1 & c & F1 & F2 & _). pose proof Hseq as [Hok _ _].
    assert (fd = fd1) as ->.
    { destruct (ho_vector _ (io_heap_ok _ Hok) fd1 q F1) as (c1 & F3 & <-). cbn [woken] in Hin. rewrite F3 in Hin.
      unfold woken_at in Hin. apply elem_of_app in Hin as [Hin|Hin]; destruct (has _ _); set_solver. }
    unfold waiter_tasks, context_at. cbn [fst snd]. rewrite Hv, F1. cbn [mbind option_bind]. by rewrite (Hq _ Hr q) by (by left).
Qed.

Lemma swept_seq thread items m m' : io_seq m → swept thread items m m' → io_seq m'.
Proof. intros [Hok Hd Hroom] [P1 P2 P3 P4 P5 P6]. split; [done|by apply P6|by rewrite P2]. Qed.

Lemma swept_no_more thread items m m' : io_ok m → swept thread items m m' → no_more items.*1 m m'.
Proof.
  intros Hok [P1 P2 P3 P4 P5 P6] fd e. unfold awaits. destruct (context_at m fd) as [c|] eqn:Hat.
  - rewrite (P3 fd c Hat). destruct (context_at_ok m fd c Hok Hat) as (p & _ & _ & (r & w & Hev & _) & _). unfold after_items.
    assert (∀ rd wr, has e (fc_events (disarmed_if wr WRITE (disarmed_if rd READ c))) = has e (fc_events c) && negb (of_event e rd wr)) as ->.
    { intros rd wr. destruct c as [a b x events]. cbn in Hev. subst. by destruct e, rd, wr, r, w. }
    by destruct e.
  - unfold context_at in *. rewrite P2. destruct (m_fdContexts m !! fd) as [p|] eqn:Hp; [|done].
    destruct (ho_vector _ (io_heap_ok _ Hok) fd p Hp) as (c & Hc & _). cbn in Hat. congruence.
Qed.
Lemma seq_tasks l t m : io_seq m → io_seq (add_tasks l (set_io_timers t m)).
Proof.
  intros [[[H1 H2 H3] H4] Hd Hr]. split; [split; [by split|done]| |done]. by apply (deadlines_same m).
Qed.

(** What a turn schedules for the timers. *)
Definition timer_tasks (self : nat) (now : Z) (tmp : nat) m : list (nat * Task * Z) :=
  (λ cb, (self, TCb cb, -1)) <$> omap id (listExpiredCb now tmp (io_timers m)).2.

Lemma idle_turn_seq self now thread tmp n reports m : io_seq m → (n ≤ 0 → reports = []) → Forall (fits_report m) reports →
  NoDup (reports ≫= report_context) → now < UINT64_MAX →
  ∃ m', idle_turn self now thread tmp n reports m = Some m' ∧ io_seq m' ∧
    (let l := (reports ≫= woken m) ++ if n <=? 0 then (overdue_items now m).*1 else [] in
     no_more l m m' ∧ io_tasks m' = io_tasks m ++ timer_tasks self now tmp m ++ (l ≫= waiter_tasks thread m)) ∧
    (n ≤ 0 → ∀ fd e flag, (fd, e, flag) ∈ overdue_items now m → ∀ a, flag = Some a → flag_of m' a = ETIMEDOUT).
Proof.
  intros Hseq Hn Hfit Hnd Hnow. unfold idle_turn, timer_tasks. destruct (listExpiredCb now tmp (io_timers m)) as [[t x] cbs].
  set (l := (λ cb, (self, TCb cb, -1)) <$> omap id cbs). pose proof (seq_tasks l t m Hseq) as Hseq1.
  set (m1 := add_tasks l (set_io_timers t m)) in *.
  destruct (reports_seq thread reports m1 Hseq1 Hfit Hnd) as (m2 & E2 & Hseq2 & Hst2 & Ht2). rewrite E2. cbn [mbind option_bind].
  destruct (Z.leb_spec n 0) as [Hle|Hgt].
  - rewrite (Hn Hle) in *. injection E2 as E2. subst m2.
    destruct (checkIoExpired_spec now thread m1 (seq_ok _ Hseq1) (seq_deadlines _ Hseq1) Hnow) as (m3 & E3 & Hsw).
    exists m3. split; [done|]. split; [by eapply swept_seq|]. split.
    { split; [by apply (swept_no_more thread _ m1 m3 (seq_ok _ Hseq1) Hsw)|]. rewrite (sp_tasks _ _ _ _ Hsw).
      change (io_tasks m1) with (io_tasks m ++ l). rewrite <-app_assoc. cbn [mbind list_bind app snd]. by rewrite list_fmap_bind. }
    intros _ fd e flag Hin a ->. rewrite (sp_flags _ _ _ _ Hsw). rewrite bool_decide_true; [done|].
    apply list_elem_of_fmap. exists (fd, e, Some a). split; [done|exact Hin].
  - exists m2. split; [done|]. split; [done|]. split; [|lia]. rewrite app_nil_r. split; [done|]. rewrite Ht2.
    change (io_tasks m1) with (io_tasks m ++ l). by rewrite <-app_assoc.
Qed.

Lemma addEvent_twice fd e cb fiber timeout_ms flag now s m : awaits m fd e = true →
  addEvent fd e cb fiber timeout_ms flag now s m = None.
Proof.
  unfold awaits, context_at. destruct (m_fdContexts m !! fd) as [p|] eqn:Hv; [|done]. cbn [mbind option_bind].
  destruct (io_heap m !! p) as [c|] eqn:Hp; [|done]. intros Hw. unfold addEvent.
  rewrite (proj2 (find_context_Some _ _ _) Hv). cbn [mbind option_bind]. unfold add_locked. rewrite Hp.
  cbn [mbind option_bind]. by rewrite Hw.
Qed.

(** A method of one thread between the calls of the others. *)
Inductive io_call : IoManager Kernel → IoManager Kernel → Prop :=
  | call_add fd e cb fiber timeout_ms flag now s m m' rt :
      addEvent fd e cb fiber timeout_ms flag now (Some s) m = Some (m', rt) → io_call m m'
  | call_del fd e m m' b : delEvent fd e m = Some (m', b) → io_call m m'
  | call_cancel thread fd e m m' b : cancelEvent thread fd e m = Some (m', b) → io_call m m'
  | call_cancel_all thread fd m m' b : cancelAll thread fd m = Some (m', b) → io_call m m'
  | call_idle self now thread tmp n reports m m' :
      (n ≤ 0 → reports = []) → Forall (fits_report m) reports → NoDup (reports ≫= report_context) → 0 ≤ now < UINT64_MAX →
      idle_turn self now thread tmp n reports m = Some m' → io_call m m'
  | call_stopping now idle m : 0 ≤ now < UINT64_MAX → io_call m (stopping now idle m).1.1.

Lemma stopping_same now idle m :
  (stopping now idle m).1.1 = refresh_if_dirty (set_io_timers (getNextTimer now (io_timers m)).1 m).
Proof. unfold stopping, getNextIoExpire. by destruct (getNextTimer now (io_timers m)). Qed.

Lemma call_seq m m' : io_call m m' → io_seq m → io_seq m'.
Proof.
  intros [fd e cb fiber to flag now s m0 m1 rt E|fd e m0 m1 b E|thread fd e m0 m1 b E|thread fd m0 m1 b E|
    self now thread tmp n reports m0 m1 Hn Hf Hd Hnow E|now idle m0 Hnow] Hseq.
  - destruct (awaits m0 fd e) eqn:Hw; [by rewrite addEvent_twice in E|].
    destruct (addEvent_seq fd e cb fiber to flag now s m0 Hseq Hw) as (m2 & rt' & E' & Hs & _). rewrite E' in E. by injection E as -> _.
  - destruct (delEvent_seq fd e m0 Hseq) as (m2 & E' & Hs & _). rewrite E' in E. by injection E as -> _.
  - destruct (cancelEvent_seq thread fd e m0 Hseq) as (m2 & E' & Hs & _). rewrite E' in E. by injection E as -> _.
  - destruct (cancelAll_seq thread fd m0 Hseq) as (m2 & E' & Hs & _). rewrite E' in E. by injection E as -> _.
  - destruct (idle_turn_seq self now thread tmp n reports m0 Hseq Hn Hf Hd) as (m2 & E' & Hs & _); [lia|].
    rewrite E' in E. by injection E as ->.
  - rewrite stopping_same. set (m1 := set_io_timers _ m0). assert (io_seq m1) as [Hok Hdl Hr].
    { destruct Hseq as [[[H1 H2 H3] H4] Hdl Hr]. split; [split; [by split|done]| |done]. by apply (deadlines_same m0). }
    split; [eapply same_ok; [apply refresh_same|done]|by apply refresh_if_ok; [|apply Hok]|].
    by rewrite (sw_vector _ _ (refresh_same m1)).
Qed.

Inductive io_calls : IoManager Kernel → IoManager Kernel → Prop :=
  | calls_nil m : io_calls m m
  | calls_cons m1 m2 m3 : io_calls m1 m2 → io_call m2 m3 → io_calls m1 m3.

Lemma calls_seq m m' : io_calls m m' → io_seq m → io_seq m'.
Proof. induction 1 as [|m1 m2 m3 _ IH Hc]; [done|]. intros Hseq. by eapply call_seq; [|apply IH]. Qed.

Lemma no_deadlines m : (∀ fd c e, context_at m fd = Some c → ev_expire_at (getContext e c) = 0) → ∀ d, ¬ deadline m d.
Proof. intros H d [Hz (fd & c & e & Hc & He)]. rewrite (H fd c e Hc) in He. by subst. Qed.

Lemma IoManager0_shape (k : Kernel) now : ∃ heap l, alloc_contexts 32 0 ∅ = (heap, l) ∧
  IoManager0 k now = mkIo heap l 0 UINT64_MAX false ∅ [] 0 (TimerManager0 now) k.
Proof. unfold IoManager0, contextResize. cbn [take m_fdContexts length Nat.sub io_heap]. destruct (alloc_contexts 32 0 ∅) as [heap l]. by exists heap, l. Qed.

Lemma IoManager0_seq (k : Kernel) now : interest k = ∅ → io_seq (IoManager0 k now).
Proof.
  intros Hi. pose proof (IoManager0_ok k now Hi) as Hok. destruct (IoManager0_shape k now) as (heap & l & E & Hm). rewrite Hm in *.
  destruct (alloc_spec _ _ _ _ _ E) as (_ & _ & Hl & _ & Hat). clear E Hm.
  assert (∀ d, ¬ deadline (mkIo heap l 0 UINT64_MAX false ∅ [] 0 (TimerManager0 now) k) d) as Hnone.
  { apply no_deadlines. intros fd c e Hc. destruct (context_at_ok _ fd c Hok Hc) as (p & Hv & Hp & _). cbn [m_fdContexts io_heap] in Hv, Hp.
    rewrite (Hat _ _ Hv) in Hp. injection Hp as <-. by destruct e. }
  split; [done| |cbn [m_fdContexts]; lia].
  split; [by intros d ?%Hnone|by intros d ?%Hnone|by left|done].
Qed.
(** ** What goes wrong between the sections *)

(** A report of both events, taken under the lock when only one is left. *)
Lemma stale_report thread p c m : io_ok m → io_heap m !! p = Some c → fc_events c = bit READ →
  ready_locked thread p (Z.lor EPOLLIN EPOLLOUT) m = None.
Proof.
  intros Hok Hp Hev. pose proof (ready_ok thread p (Z.lor EPOLLIN EPOLLOUT) c m Hok Hp) as H. by rewrite Hev in H.
Qed.

Lemma shrunk size fd m : (size ≤ fd)%nat → find_context fd (contextResize size m) = None.
Proof.
  intros Hle. unfold find_context. destruct (Nat.ltb_spec fd (length (m_fdContexts (contextResize size m)))) as [Hlt|]; [|done].
  unfold contextResize in Hlt. destruct (alloc_contexts _ _ _) as [heap l] eqn:E.
  assert (length l = size - length (take size (m_fdContexts m)))%nat as Hl.
  { clear Hlt. revert E. generalize (io_heap m). generalize (length (take size (m_fdContexts m))) at 2 as i.
    generalize (size - length (take size (m_fdContexts m)))%nat as n. intros n. revert heap l.
    induction n as [|n IH]; intros heap l i h E; cbn in E; [by injection E as _ <-|].
    destruct (alloc_contexts n _ _) as [h1 l1] eqn:E1. injection E as _ <-. cbn. f_equal. by eapply IH. }
  cbn in Hlt. rewrite length_app, Hl, length_take in Hlt. lia.
Qed.

Lemma pending_waits fd e m : io_ok m → awaits m fd e = true → Z.of_nat (length (heap_tasks (io_heap m))) < 2 ^ 64 →
  m_pendingEventCount m ≠ 0.
Proof.
  intros Hok Hw Hlen. rewrite (ho_pending _ (io_heap_ok _ Hok)), u64_id by (unfold in_u64, UINT64_MAX; lia).
  unfold awaits in Hw. destruct (context_at m fd) as [c|] eqn:Hat; [|done].
  destruct (context_at_ok m fd c Hok Hat) as (p & _ & Hp & Hc & _). pose proof (has_ok e c Hc) as Hev. rewrite Hw in Hev.
  destruct (ev_tasks_waiting _ Hev) as (s & t & _ & Ht).
  pose proof (Permutation_length (heap_tasks_delete _ p c Hp)) as Hl. rewrite length_app in Hl.
  pose proof (Permutation_length (disarmed_tasks e c)) as Hl2. rewrite Ht in Hl2. cbn in Hl2. lia.
Qed.

(** A growth for a smaller descriptor, decided before a growth for a larger one: the larger's
    context is forgotten. *)
Lemma lost_context size fd e thread now idle m : io_ok m → awaits m fd e = true → (size ≤ fd)%nat →
  Z.of_nat (length (heap_tasks (io_heap m))) < 2 ^ 64 →
  let m' := contextResize size m in
  delEvent fd e m' = Some (m', false) ∧ cancelEvent thread fd e m' = Some (m', false) ∧
  cancelAll thread fd m' = Some (m', false) ∧ (stopping now idle m').2 = false.
Proof.
  intros Hok Hw Hle Hlen m'. pose proof (shrunk size fd m Hle) as Hf. fold m' in Hf.
  unfold delEvent, cancelEvent, cancelAll. rewrite Hf. split; [done|]. split; [done|]. split; [done|].
  assert (m_pendingEventCount m' = m_pendingEventCount m) as Hp by (subst m'; unfold contextResize; by destruct (alloc_contexts _ _ _)).
  unfold stopping, getNextIoExpire. destruct (getNextTimer now (io_timers m')) as [t to]. cbn [snd].
  replace (m_pendingEventCount (refresh_if_dirty (set_io_timers t m'))) with (m_pendingEventCount m').
  - rewrite Hp. destruct (Z.eqb_spec (m_pendingEventCount m) 0) as [H0|]; [|by rewrite andb_false_r].
    by apply (pending_waits fd e m) in H0.
  - by rewrite (sw_pending _ _ (refresh_same (set_io_timers t m'))).
Qed.

(** A deadline noted after its wait has gone: nothing takes it back. *)
Lemma stale_deadline d now thread idle m : io_ok m → (∀ x, ¬ deadline m x) → m_ioExpireDirty m = false →
  m_nextIoExpire m = UINT64_MAX → 0 < d ≤ now → now < UINT64_MAX →
  let m' := onIoWaitAdded d m in
  checkIoExpired now thread m' = Some m' ∧ (getNextIoExpire now m').2 = 0 ∧ (stopping now idle m').2 = false.
Proof.
  intros Hok Hnone Hdirty Hnext Hd Hnow m'.
  assert (m_nextIoExpire m' = d ∧ m_ioExpireDirty m' = false) as [Hn Hf].
  { subst m'. unfold onIoWaitAdded. rewrite Hnext. destruct (Z.eqb_spec d 0); [lia|]. by cbn. }
  assert (io_ok m') as Hok' by (eapply same_ok; [apply added_same|done]).
  assert (∀ x, ¬ deadline m' x) as Hnone'.
  { intros x [Hz (fd & c & e & Hc & He)]. apply (Hnone x). split; [done|]. exists fd, c, e. split; [|done].
    destruct (added_same d m) as [S1 S2 _ _ _]. unfold context_at in *. by rewrite <-S1, <-S2. }
  assert (refresh_if_dirty m' = m') as Hr by (unfold refresh_if_dirty; by rewrite Hf).
  assert ((getNextIoExpire now m').2 = 0) as H2.
  { unfold getNextIoExpire. rewrite Hr. cbn [snd]. rewrite Hn. destruct (Z.eqb_spec d UINT64_MAX); [lia|]. by destruct (Z.leb_spec d now); [|lia]. }
  split; [|split; [done|]].
  - unfold checkIoExpired. rewrite Hr. cbv zeta. rewrite Hn. destruct (Z.eqb_spec d UINT64_MAX), (Z.ltb_spec now d); try lia. cbn [orb].
    change (m_fdContexts m' ≫= expired_of now m') with (overdue_items now m').
    replace (overdue_items now m') with (@nil (nat * Event * option nat)); [done|]. symmetry. apply elem_of_nil_inv.
    intros [[fd e] flag]. rewrite overdue_elem by done. intros (c & Hc & Ho & _). destruct (overdue_deadline now m' fd e c Hc Ho) as [Hdl _]. by apply (Hnone' _ Hdl).
  - unfold stopping. destruct (getNextTimer now (io_timers m')) as [t to]. unfold getNextIoExpire in *. cbn [snd] in *. rewrite Hr in H2.
    assert (refresh_if_dirty (set_io_timers t m') = set_io_timers t m') as -> by (unfold refresh_if_dirty; cbn; by rewrite Hf).
    change (m_nextIoExpire (set_io_timers t m')) with (m_nextIoExpire m'). rewrite Hn in *.
    rewrite H2. destruct (Z.eqb_spec to UINT64_MAX); [done|]. change (negb (0 =? UINT64_MAX)) with true. cbn iota.
    destruct (Z.eqb_spec (to `min` 0) UINT64_MAX); [unfold UINT64_MAX in *; lia|done].
Qed.

Lemma added_flags d m : io_flags (onIoWaitAdded d m) = io_flags m.
Proof. unfold onIoWaitAdded. destruct (d =? 0); [done|]. by destruct (_ || _). Qed.

(** The flag of a wait without a timeout is not kept. *)
Lemma cancel_seen fd e fiber timeout a now s thread m m1 : io_seq m → awaits m fd e = false →
  do_io_wait fd e fiber timeout a now (Some s) m = Some (m1, 0) →
  ∃ m2, cancelEvent thread fd e m1 = Some (m2, true) ∧
    do_io_resumed a m2 = if expire_of now timeout =? 0 then None else Some ECANCELED.
Proof.
  intros Hseq Hw E. unfold do_io_wait in E. assert (io_seq (write_flag a 0 m)) as Hseq0.
  { destruct Hseq as [Hok Hd Hr]. split; [by apply (same_ok m)|by apply (deadlines_same m)|done]. }
  assert (awaits (write_flag a 0 m) fd e = false) as Hw0 by done.
  destruct (addEvent_seq fd e None fiber timeout (Some a) now s _ Hseq0 Hw0) as (m' & rt & E' & Hseq1 & _ & Hw1 & _).
  rewrite E' in E. injection E as -> ->. rewrite bool_decide_true in Hw1 by done.
  assert (∃ c, context_at m1 fd = Some c ∧ ev_cancel_flag (getContext e c) = (if expire_of now timeout =? 0 then None else Some a) ∧
    io_flags m1 = <[a := 0]> (io_flags m)) as (c & Hat & Hflag & Hfl).
  { unfold addEvent in E'. set (m0 := write_flag a 0 m) in *.
    assert (∃ m2 p, match find_context fd m0 with Some p => (m0, Some p) | None => grow_context fd m0 end = (m2, Some p) ∧
      m_fdContexts m2 !! fd = Some p ∧ io_flags m2 = io_flags m0) as (m2 & p & E2 & Hv & Hfl2).
    { destruct (find_context fd m0) as [p|] eqn:Ef; [exists m0, p; split; [done|]; split; [by apply find_context_Some|done]|].
      destruct (grow_context fd m0) as [m2 [p|]] eqn:Eg; [|done]. exists m2, p. split; [done|]. unfold grow_context in Eg. injection Eg as <- Eg.
      split; [done|]. unfold contextResize. by destruct (alloc_contexts _ _ _). }
    rewrite E2 in E'. cbn [mbind option_bind] in E'. unfold add_locked in E'. destruct (io_heap m2 !! p) as [c|] eqn:Hp; [|done].
    cbn [mbind option_bind] in E'. destruct (has e (fc_events c)); [done|]. destruct (epoll_ctl _ _ _ _) as [k rt].
    destruct (negb (rt =? 0)); [done|]. destruct (getContext e c) as [[] [] [] ? ?]; try done. cbn [mbind option_bind] in E'. injection E' as <-.
    set (m3 := put_context _ _ _). eexists. split; [|split].
    - unfold context_at. rewrite (sw_vector _ _ (added_same _ m3)), (sw_heap _ _ (added_same _ m3)).
      change (m_fdContexts m3) with (m_fdContexts m2). rewrite Hv. cbn [mbind option_bind]. subst m3. cbn. by rewrite lookup_insert_eq.
    - by destruct e.
    - rewrite added_flags. exact Hfl2. }
  destruct (context_at_ok m1 fd c (seq_ok _ Hseq1) Hat) as (p & Hv & Hp & _). rewrite (awaits_at m1 fd e p c Hv Hp) in Hw1.
  destruct (cancelEvent_spec thread fd e p c m1 (seq_ok _ Hseq1) Hv Hp Hw1) as (m2 & E2 & Hca). exists m2. split; [done|].
  unfold do_io_resumed, flag_of. rewrite (ca_flags _ _ _ _ _ _ Hca), Hflag. destruct (expire_of now timeout =? 0).
  - cbn. by rewrite Hfl, lookup_insert_eq.
  - unfold note_flag, flag_of. rewrite Hfl, lookup_insert_eq. cbn. by rewrite lookup_insert_eq.
Qed.

Lemma long_wait t : 2 ^ 31 ≤ t < 2 ^ 32 → wait_ms t < 0.
Proof.
  intros Ht. unfold wait_ms. assert (i32 t = t - 2 ^ 32) as ->.
  { unfold i32. replace (t + 2 ^ 31) with (t - 2 ^ 31 + 1 * 2 ^ 32) by lia. rewrite Z.mod_add by lia. rewrite Z.mod_small; lia. }
  destruct (Z.eqb_spec t UINT64_MAX); [unfold UINT64_MAX in *; lia|]. cbn [negb]. destruct (Z.ltb_spec 3000 (t - 2 ^ 32)); lia.
Qed.
Lemma IoManager0_empty (k : Kernel) now :
  io_tasks (IoManager0 k now) = [] ∧ heap_tasks (io_heap (IoManager0 k now)) = [].
Proof.
  destruct (IoManager0_shape k now) as (heap & l & E & ->). destruct (alloc_spec _ _ _ _ _ E) as (_ & Ht & _). clear E.
  split; [done|]. cbn [io_heap]. apply Permutation_nil. symmetry. rewrite Ht. unfold heap_tasks. by rewrite map_to_list_empty.
Qed.
End facts.
