(* ===== verification/ByteArray.v ===== *)
(** * Byte arrays

    [ByteArray] ([core/io/bytearray.h], [bytearray.cc]): a chain of blocks of
    [m_baseSize] bytes with a position in it.  The chain is a list of blocks, [m_cur] the
    index of a block or null; sizes are [nat], as they count bytes in memory.  What a new
    block holds is a parameter.  A method runs in [BM] and returns, throws, or follows a
    null pointer.  A [float] or [double] is its bits.  The host is little-endian. *)

From Stdlib Require Import Ascii.
From stdpp Require Import options.
From S2P Require Import Prelude.
From S2P Require Import CStd.
From S2P Require Import Bytes.

#[local] Set Default Proof Using "Type*".

Record ByteArray : Type := mkBA {
  m_baseSize : nat;
  m_position : nat;
  m_capacity : nat;
  m_size : nat;
  m_little : bool;
  m_nodes : list Bytes;
  m_cur : option nat;
  m_allocs : nat
}.

(** [m_allocs] counts the blocks allocated so far; it only tells one allocation from
    another. *)
Definition set_ba_pos (pos : nat) (b : ByteArray) : ByteArray :=
  let '(mkBA a _ c d e f g h) := b in mkBA a pos c d e f g h.
Definition set_ba_capacity (cap : nat) (b : ByteArray) : ByteArray :=
  let '(mkBA a p _ d e f g h) := b in mkBA a p cap d e f g h.
Definition set_ba_size (size : nat) (b : ByteArray) : ByteArray :=
  let '(mkBA a p c _ e f g h) := b in mkBA a p c size e f g h.
Definition setIsLittleEndian (val : bool) (b : ByteArray) : ByteArray :=
  let '(mkBA a p c d _ f g h) := b in mkBA a p c d val f g h.
Definition set_ba_nodes (nodes : list Bytes) (b : ByteArray) : ByteArray :=
  let '(mkBA a p c d e _ g h) := b in mkBA a p c d e nodes g h.
Definition set_ba_cur (cur : option nat) (b : ByteArray) : ByteArray :=
  let '(mkBA a p c d e f _ h) := b in mkBA a p c d e f cur h.
Definition set_ba_allocs (n : nat) (b : ByteArray) : ByteArray :=
  let '(mkBA a p c d e f g _) := b in mkBA a p c d e f g n.

Definition getReadSize (b : ByteArray) : nat := m_size b - m_position b.
Definition getCapacity (b : ByteArray) : nat := m_capacity b - m_position b.

(** How a method ends: with a result, with [std::out_of_range], or reading through a null
    pointer. *)
Inductive BR (A : Type) : Type := Ret (a : A) | OutOfRange | NullDeref.
Arguments Ret {A} _.
Arguments OutOfRange {A}.
Arguments NullDeref {A}.

Definition BM (A : Type) : Type := ByteArray → ByteArray * BR A.

#[global] Instance BM_ret : MRet BM := λ A a b, (b, Ret a).
#[global] Instance BM_bind : MBind BM := λ A B k m b,
  match m b with
  | (b, Ret a) => k a b
  | (b, OutOfRange) => (b, OutOfRange)
  | (b, NullDeref) => (b, NullDeref)
  end.

(** [m_cur->next] *)
Definition next_node (nodes : list Bytes) (k : nat) : option nat :=
  if (S k <? length nodes)%nat then Some (S k) else None.

Definition cur_node (b : ByteArray) : option (nat * Bytes) :=
  k ← m_cur b; node ← m_nodes b !! k; Some (k, node).

(** [memcpy] into a block. *)
Definition splice (at_ : nat) (buf node : Bytes) : Bytes :=
  take at_ node ++ buf ++ drop (at_ + length buf) node.

Section bytearray.
Context (junk : nat → nat → ascii).

(** [new Node(s)] *)
Definition new_node (alloc s : nat) : Bytes := junk alloc <$> seq 0 s.

Definition ByteArray0 (base_size : nat) : ByteArray :=
  mkBA base_size 0 base_size 0 false [new_node 0 base_size] (Some 0%nat) 1.

Definition clear : BM unit := λ b,
  (set_ba_nodes (take 1 (m_nodes b)) (set_ba_cur (Some 0%nat)
     (set_ba_capacity (m_baseSize b) (set_ba_size 0 (set_ba_pos 0 b)))), Ret tt).

(** [count] is [ceil(1.0 * size / m_baseSize)], exact below [2^53]. *)
Definition addCapacity (size : nat) (b : ByteArray) : ByteArray :=
  if (size =? 0)%nat then b
  else
    let old_cap := getCapacity b in
    if (size <=? old_cap)%nat then b
    else
      let size := (size - old_cap)%nat in
      let count := ((size + m_baseSize b - 1) / m_baseSize b)%nat in
      let first := length (m_nodes b) in
      let b := set_ba_nodes (m_nodes b ++ ((λ k, new_node (m_allocs b + k) (m_baseSize b)) <$> seq 0 count))
                 (set_ba_capacity (m_capacity b + count * m_baseSize b)
                    (set_ba_allocs (m_allocs b + count) b)) in
      if (old_cap =? 0)%nat then set_ba_cur (if (count =? 0)%nat then None else Some first) b else b.

(** The loop of [write]; a unit of fuel per block. *)
Fixpoint write_loop (fuel npos : nat) (buf : Bytes) : BM unit := λ b,
  match buf, fuel with
  | [], _ | _, O => (b, Ret tt)
  | _, S fuel =>
      match cur_node b with
      | None => (b, NullDeref)
      | Some (k, node) =>
          let ncap := (length node - npos)%nat in
          let size := length buf in
          if (size <=? ncap)%nat then
            let b := set_ba_nodes (<[k := splice npos buf node]> (m_nodes b)) b in
            let b := if (length node =? npos + size)%nat
                     then set_ba_cur (next_node (m_nodes b) k) b else b in
            (set_ba_pos (m_position b + size) b, Ret tt)
          else
            let b := set_ba_nodes (<[k := splice npos (take ncap buf) node]> (m_nodes b)) b in
            let b := set_ba_cur (next_node (m_nodes b) k) (set_ba_pos (m_position b + ncap) b) in
            write_loop fuel 0 (drop ncap buf) b
      end
  end.

Definition write (buf : Bytes) : BM unit := λ b,
  if (length buf =? 0)%nat then (b, Ret tt)
  else
    let b := addCapacity (length buf) b in
    match cur_node b with
    | None => (b, NullDeref)
    | Some _ =>
        match write_loop (S (length (m_nodes b))) (m_position b mod m_baseSize b) buf b with
        | (b, Ret _) => (if (m_size b <? m_position b)%nat then set_ba_size (m_position b) b else b, Ret tt)
        | r => r
        end
    end.

(** The loop of [read]. *)
Fixpoint read_loop (fuel npos size : nat) : BM Bytes := λ b,
  match size, fuel with
  | O, _ | _, O => (b, Ret [])
  | _, S fuel =>
      match cur_node b with
      | None => (b, NullDeref)
      | Some (k, node) =>
          let ncap := (length node - npos)%nat in
          if (size <=? ncap)%nat then
            let b' := if (length node =? npos + size)%nat
                      then set_ba_cur (next_node (m_nodes b) k) b else b in
            (set_ba_pos (m_position b + size) b', Ret (take size (drop npos node)))
          else
            let b := set_ba_cur (next_node (m_nodes b) k) (set_ba_pos (m_position b + ncap) b) in
            match read_loop fuel 0 (size - ncap) b with
            | (b, Ret rest) => (b, Ret (drop npos node ++ rest))
            | r => r
            end
      end
  end.

(** [read(buf, size)]; the block is looked at even when [size] is 0. *)
Definition read (size : nat) : BM Bytes := λ b,
  if (getReadSize b <? size)%nat then (b, OutOfRange)
  else
    match cur_node b with
    | None => (b, NullDeref)
    | Some _ => read_loop (S (length (m_nodes b))) (m_position b mod m_baseSize b) size b
    end.

(** [read(buf, size, position)], which starts in the current block whatever the position;
    the difference is unsigned. *)
Definition read_at (size position : nat) : BM Bytes := λ b,
  if (position <=? m_size b)%nat && (m_size b - position <? size)%nat then (b, OutOfRange)
  else
    match cur_node b with
    | None => (b, NullDeref)
    | Some _ => (b, (read_loop (S (length (m_nodes b))) (position mod m_baseSize b) size b).2)
    end.

(** The loops of [setPosition]. *)
Fixpoint seek (v k : nat) (nodes : list Bytes) : option (option nat) :=
  match nodes with
  | [] => None
  | node :: rest =>
      if (length node <? v)%nat then seek (v - length node) (S k) rest
      else if (v =? length node)%nat then Some (match rest with [] => None | _ => Some (S k) end)
      else Some (Some k)
  end.

Definition setPosition (v : nat) : BM unit := λ b,
  if (m_capacity b <? v)%nat then (b, OutOfRange)
  else
    let b := set_ba_pos v b in
    let b := if (m_size b <? v)%nat then set_ba_size v b else b in
    match seek v 0 (m_nodes b) with
    | Some cur => (set_ba_cur cur b, Ret tt)
    | None => (b, NullDeref)
    end.

Definition toString : BM string := λ b,
  if (getReadSize b =? 0)%nat then (b, Ret "")
  else
    match read_at (getReadSize b) (m_position b) b with
    | (b, Ret l) => (b, Ret (text l))
    | (b, OutOfRange) => (b, OutOfRange)
    | (b, NullDeref) => (b, NullDeref)
    end.

(** ** Buffers for [readv] and [writev]

    An [iovec] is a block, where in it, and how much. *)

Record iovec : Type := mkIov { iov_node : nat; iov_base : nat; iov_len : nat }.

Fixpoint buffers_loop (fuel : nat) (nodes : list Bytes) (cur : option nat) (npos len : nat)
  : option (list iovec) :=
  match len, fuel with
  | O, _ | _, O => Some []
  | _, S fuel =>
      k ← cur; node ← nodes !! k;
      let ncap := (length node - npos)%nat in
      if (len <=? ncap)%nat then Some [mkIov k npos len]
      else cons (mkIov k npos ncap) <$> buffers_loop fuel nodes (next_node nodes k) 0 (len - ncap)
  end.

Definition getReadBuffers (len : nat) : BM (nat * list iovec) := λ b,
  let len := Nat.min len (getReadSize b) in
  if (len =? 0)%nat then (b, Ret (0%nat, []))
  else
    match buffers_loop (S (length (m_nodes b))) (m_nodes b) (m_cur b) (m_position b mod m_baseSize b) len with
    | Some l => (b, Ret (len, l))
    | None => (b, NullDeref)
    end.

(** [getReadBuffers(buffers, len, position)]: [len] is cut to what there is to read from
    [m_position], not from [position]. *)
Definition getReadBuffers_at (len position : nat) : BM (nat * list iovec) := λ b,
  let len := Nat.min len (getReadSize b) in
  if (len =? 0)%nat then (b, Ret (0%nat, []))
  else
    match buffers_loop (S (length (m_nodes b))) (m_nodes b) (Some (position / m_baseSize b)%nat)
            (position mod m_baseSize b) len with
    | Some l => (b, Ret (len, l))
    | None => (b, NullDeref)
    end.

Definition getWriteBuffers (len : nat) : BM (nat * list iovec) := λ b,
  if (len =? 0)%nat then (b, Ret (0%nat, []))
  else
    let b := addCapacity len b in
    match buffers_loop (S (length (m_nodes b))) (m_nodes b) (m_cur b) (m_position b mod m_baseSize b) len with
    | Some l => (b, Ret (len, l))
    | None => (b, NullDeref)
    end.

(** ** Files

    [writeToFile] answers what the file holds then; [readFromFile] takes what the file
    holds.  Opening a file is not modelled. *)

Fixpoint to_file_loop (fuel : nat) (base : nat) (nodes : list Bytes) (cur : option nat) (pos read_size : nat)
  : option Bytes :=
  match read_size, fuel with
  | O, _ | _, O => Some []
  | _, S fuel =>
      k ← cur; node ← nodes !! k;
      let diff := (pos mod base)%nat in
      let len := Nat.min (base - diff) read_size in
      app (take len (drop diff node)) <$> to_file_loop fuel base nodes (next_node nodes k) (pos + len) (read_size - len)
  end.

Definition writeToFile : BM Bytes := λ b,
  match to_file_loop (S (length (m_nodes b))) (m_baseSize b) (m_nodes b) (m_cur b) (m_position b) (getReadSize b) with
  | Some l => (b, Ret l)
  | None => (b, NullDeref)
  end.

(** [eof] is seen by the read that finds less than it asked for. *)
Fixpoint from_file_loop (fuel base : nat) (ifs : Bytes) : BM unit :=
  match fuel with
  | O => mret tt
  | S fuel =>
      write (take base ifs) ≫= λ _,
      if (length ifs <? base)%nat then mret tt else from_file_loop fuel base (drop base ifs)
  end.

Definition readFromFile (ifs : Bytes) : BM unit := λ b, from_file_loop (S (length ifs)) (m_baseSize b) ifs b.

(** ** Values of a fixed width *)

(** An unsigned or two's-complement value of [n] bytes as it is in memory, in the order
    of the array. *)
Definition write_fixed (n : nat) (value : Z) : BM unit := λ b,
  write (le_bytes n (if m_little b then value else byteswap n value)) b.

Definition read_fixed (n : nat) : BM Z := λ b,
  match read n b with
  | (b, Ret l) => (b, Ret (if m_little b then le_value l else byteswap n (le_value l)))
  | (b, OutOfRange) => (b, OutOfRange)
  | (b, NullDeref) => (b, NullDeref)
  end.

(** The value of [n] bytes read as signed. *)
Definition signed (n : nat) (v : Z) : Z :=
  if v <? 2 ^ (8 * Z.of_nat n - 1) then v else v - 2 ^ (8 * Z.of_nat n).

Definition writeFint8 (value : Z) : BM unit := write (le_bytes 1 value).
Definition writeFuint8 (value : Z) : BM unit := write (le_bytes 1 value).
Definition writeFint16 : Z → BM unit := write_fixed 2.
Definition writeFuint16 : Z → BM unit := write_fixed 2.
Definition writeFint32 : Z → BM unit := write_fixed 4.
Definition writeFuint32 : Z → BM unit := write_fixed 4.
Definition writeFint64 : Z → BM unit := write_fixed 8.
Definition writeFuint64 : Z → BM unit := write_fixed 8.

Definition readFuint8 : BM Z := l ← read 1; mret (le_value l).
Definition readFint8 : BM Z := v ← readFuint8; mret (signed 1 v).
Definition readFuint16 : BM Z := read_fixed 2.
Definition readFint16 : BM Z := v ← read_fixed 2; mret (signed 2 v).
Definition readFuint32 : BM Z := read_fixed 4.
Definition readFint32 : BM Z := v ← read_fixed 4; mret (signed 4 v).
Definition readFuint64 : BM Z := read_fixed 8.
Definition readFint64 : BM Z := v ← read_fixed 8; mret (signed 8 v).

(** [float] and [double], by their bits. *)
Definition writeFloat (bits : Z) : BM unit := writeFuint32 bits.
Definition writeDouble (bits : Z) : BM unit := writeFuint64 bits.
Definition readFloat : BM Z := readFuint32.
Definition readDouble : BM Z := readFuint64.

(** ** Values of variable width *)


Definition EncodeZigzag32 (v : Z) : Z := if v <? 0 then u32 (u32 (- v) * 2 - 1) else u32 (v * 2).
Definition EncodeZigzag64 (v : Z) : Z := if v <? 0 then u64 (u64 (- v) * 2 - 1) else u64 (v * 2).
Definition DecodeZigzag32 (v : Z) : Z := i32 (Z.lxor (Z.shiftr v 1) (u32 (- Z.land v 1))).
Definition DecodeZigzag64 (v : Z) : Z := i64 (Z.lxor (Z.shiftr v 1) (u64 (- Z.land v 1))).

(** The bytes the loops of [writeUint32] and [writeUint64] put in [tmp], at most [fuel]. *)
Fixpoint varint (fuel : nat) (value : Z) : Bytes :=
  match fuel with
  | O => []
  | S fuel =>
      if 0x80 <=? value
      then byte (Z.lor (Z.land value 0x7F) 0x80) :: varint fuel (Z.shiftr value 7)
      else [byte value]
  end.

Definition writeUint32 (value : Z) : BM unit := write (varint 5 value).
Definition writeUint64 (value : Z) : BM unit := write (varint 10 value).
Definition writeInt32 (value : Z) : BM unit := writeUint32 (EncodeZigzag32 value).
Definition writeInt64 (value : Z) : BM unit := writeUint64 (EncodeZigzag64 value).

(** The loop of [readUint32] and [readUint64]: [i] goes up by 7 below [w]. *)
Fixpoint read_varint (fuel : nat) (w i result : Z) : BM Z :=
  match fuel with
  | O => mret result
  | S fuel =>
      b ← readFuint8;
      if b <? 0x80 then mret (Z.lor result (Z.shiftl b i `mod` 2 ^ w))
      else
        let result := Z.lor result (Z.shiftl (Z.land b 0x7F) i `mod` 2 ^ w) in
        if i + 7 <? w then read_varint fuel w (i + 7) result else mret result
  end.

Definition readUint32 : BM Z := read_varint 5 32 0 0.
Definition readUint64 : BM Z := read_varint 10 64 0 0.
Definition readInt32 : BM Z := v ← readUint32; mret (DecodeZigzag32 v).
Definition readInt64 : BM Z := v ← readUint64; mret (DecodeZigzag64 v).

(** ** Strings *)

Definition writeStringF16 (value : string) : BM unit :=
  _ ← writeFuint16 (str_size value `mod` 2 ^ 16); write (chars value).
Definition writeStringF32 (value : string) : BM unit :=
  _ ← writeFuint32 (str_size value `mod` 2 ^ 32); write (chars value).
Definition writeStringF64 (value : string) : BM unit :=
  _ ← writeFuint64 (str_size value); write (chars value).
Definition writeStringVint (value : string) : BM unit :=
  _ ← writeUint64 (str_size value); write (chars value).
Definition writeStringWithoutLength (value : string) : BM unit := write (chars value).

Definition read_sized (len : BM Z) : BM string := n ← len; l ← read (Z.to_nat n); mret (text l).
Definition readStringF16 : BM string := read_sized readFuint16.
Definition readStringF32 : BM string := read_sized readFuint32.
Definition readStringF64 : BM string := read_sized readFuint64.
Definition readStringVint : BM string := read_sized readUint64.

(** [std::setw(2)], [std::hex] *)
Definition hex_digit (n : Z) : ascii := ascii_of_N (Z.to_N (if n <? 10 then 48 + n else 87 + n)).
Fixpoint hex_bytes (i : nat) (l : Bytes) : string :=
  match l with
  | [] => ""
  | c :: l =>
      let pair := String (hex_digit (byte_of c / 16)) (String (hex_digit (byte_of c `mod` 16)) " ") in
      (if (0 <? i)%nat && (i mod 32 =? 0)%nat then String "010" pair else pair) +:+ hex_bytes (S i) l
  end.
Definition toHexString : BM string := s ← toString; mret (hex_bytes 0 (chars s)).
End bytearray.

Section examples.
#[local] Definition zeros : nat → nat → ascii := λ _ _, "000"%char.

(** Two values across blocks of three bytes. *)
Example write_read :
  ((_ ← writeFuint32 zeros 0x01020304; _ ← writeInt32 zeros (-5); _ ← writeStringVint zeros "ab";
    _ ← setPosition 0; v ← readFuint32; x ← readInt32; s ← readStringVint; h ← mret "";
    mret (v, x, s)) (ByteArray0 zeros 3)).2 = Ret (0x01020304, -5, "ab").
Proof. by vm_compute. Qed.

Example hex_of :
  ((_ ← writeFuint16 zeros 0x0AF0; _ ← setPosition 0; toHexString) (ByteArray0 zeros 3)).2 = Ret "0a f0 ".
Proof. by vm_compute. Qed.
End examples.
