(* ===== verification/ByteArrayFacts.v ===== *)
(** * Facts about byte arrays

    The chain of blocks behaves as one flat buffer with a position, whatever the size of
    the blocks; what is written with one of the typed methods is read back by its
    counterpart. *)

From Stdlib Require Import Ascii.
From stdpp Require Import options.
From S2P Require Import Prelude.
From S2P Require Import CStd.
From S2P Require Import Bytes.
From S2P Require Import ByteArray.

#[local] Set Default Proof Using "Type*".

(** ** Lists in blocks *)

Lemma length_splice p (buf l : Bytes) : (p + length buf ≤ length l)%nat → length (splice p buf l) = length l.
Proof. intros H. unfold splice. rewrite !length_app, length_take, length_drop. lia. Qed.

Lemma lookup_splice p (buf l : Bytes) i :
  (p + length buf ≤ length l)%nat →
  splice p buf l !! i =
  if (i <? p)%nat then l !! i else if (i <? p + length buf)%nat then buf !! (i - p)%nat else l !! i.
Proof.
  intros H. unfold splice. destruct (Nat.ltb_spec i p).
  - rewrite lookup_app_l by (rewrite length_take; lia). by rewrite lookup_take_lt.
  - rewrite lookup_app_r by (rewrite length_take; lia). rewrite length_take, Nat.min_l by lia.
    destruct (Nat.ltb_spec i (p + length buf)).
    + by rewrite lookup_app_l by lia.
    + rewrite lookup_app_r by lia. rewrite lookup_drop. f_equal. lia.
Qed.

(** Two writes next to each other, and a write into a part. *)
Lemma splice_splice p (b1 b2 l : Bytes) :
  (p + length b1 + length b2 ≤ length l)%nat →
  splice (p + length b1) b2 (splice p b1 l) = splice p (b1 ++ b2) l.
Proof.
  intros H. apply list_eq. intros i. assert (p + length b1 ≤ length l)%nat by lia.
  rewrite !lookup_splice by (rewrite ?length_splice, ?length_app; lia).
  rewrite length_app. destruct (Nat.ltb_spec i (p + length b1)), (Nat.ltb_spec i p),
    (Nat.ltb_spec i (p + (length b1 + length b2))), (Nat.ltb_spec i (p + length b1 + length b2));
    try done; try lia.
  - by rewrite lookup_app_l by lia.
  - rewrite lookup_app_r by lia. f_equal. lia.
Qed.

Section chain.
Context (B : nat) (HB : (0 < B)%nat).

Definition blocks (nodes : list Bytes) : Prop := Forall (λ n, length n = B) nodes.

Lemma concat_length nodes : blocks nodes → length (concat nodes) = (B * length nodes)%nat.
Proof. induction 1 as [|n nodes Hn _ IH]; [done|]. simpl. rewrite length_app, IH, Hn. lia. Qed.

Lemma concat_lookup nodes k node i : blocks nodes → nodes !! k = Some node → (i < B)%nat →
  concat nodes !! (k * B + i)%nat = node !! i.
Proof.
  intros H. revert k. induction H as [|n nodes Hn _ IH]; intros k Hk Hi; [done|].
  destruct k as [|k]; simpl in *.
  - injection Hk as ->. by rewrite lookup_app_l by lia.
  - rewrite lookup_app_r by lia. rewrite <-(IH k Hk Hi). f_equal. lia.
Qed.

Lemma blocks_insert nodes k node : blocks nodes → length node = B → blocks (<[k := node]> nodes).
Proof. intros H Hn. by apply Forall_insert. Qed.

Lemma concat_insert nodes k node : blocks nodes → (k < length nodes)%nat → length node = B →
  concat (<[k := node]> nodes) = splice (k * B) node (concat nodes).
Proof.
  intros H. revert k. induction H as [|n nodes Hn _ IH]; intros k Hk Hl; [simpl in Hk; lia|].
  destruct k as [|k]; simpl.
  - unfold splice. simpl. by rewrite drop_app_length' by lia.
  - rewrite IH by (simpl in Hk; lia || done). unfold splice.
    rewrite take_app_ge, drop_app_ge, <-app_assoc by lia. do 2 f_equal; [|f_equal]; f_equal; lia.
Qed.

Lemma splice_block k npos (buf node l : Bytes) :
  (npos + length buf ≤ length node)%nat → (k * B + length node ≤ length l)%nat →
  (∀ i, (i < length node)%nat → l !! (k * B + i)%nat = node !! i) →
  splice (k * B) (splice npos buf node) l = splice (k * B + npos) buf l.
Proof.
  intros H1 H2 Hl. apply list_eq. intros i. pose proof (length_splice npos buf node H1) as Hlen.
  rewrite !lookup_splice by (rewrite ?Hlen; lia). rewrite Hlen.
  destruct (Nat.ltb_spec i (k * B)), (Nat.ltb_spec i (k * B + length node)),
    (Nat.ltb_spec (i - k * B) npos), (Nat.ltb_spec (i - k * B) (npos + length buf)),
    (Nat.ltb_spec i (k * B + npos)), (Nat.ltb_spec i (k * B + npos + length buf)); try done; try lia.
  - rewrite <-Hl by lia. f_equal. lia.
  - f_equal. lia.
  - rewrite <-Hl by lia. f_equal. lia.
Qed.

(** The block a position is in. *)
Definition node_at (n p : nat) : option nat := if (p / B <? n)%nat then Some (p / B)%nat else None.

Lemma node_at_in n k i : (i < B)%nat → (k < n)%nat → node_at n (k * B + i) = Some k.
Proof.
  intros Hi Hk. unfold node_at. replace ((k * B + i) / B)%nat with k.
  - by destruct (Nat.ltb_spec k n); [|lia].
  - rewrite Nat.add_comm, Nat.div_add, Nat.div_small by lia. lia.
Qed.

Lemma node_at_next (nodes : list Bytes) k : node_at (length nodes) (k * B + B) = next_node nodes k.
Proof.
  unfold node_at, next_node. replace (k * B + B)%nat with (S k * B)%nat by lia. by rewrite Nat.div_mul by lia.
Qed.

(** ** The loops *)

Definition moved (p : nat) (nodes : list Bytes) (b : ByteArray) : ByteArray :=
  set_ba_pos p (set_ba_cur (node_at (length nodes) p) (set_ba_nodes nodes b)).

Lemma write_loop_spec fuel npos (buf : Bytes) b k :
  blocks (m_nodes b) → m_cur b = Some k → (k < length (m_nodes b))%nat → (npos < B)%nat →
  m_position b = (k * B + npos)%nat → (0 < length buf)%nat →
  (m_position b + length buf ≤ B * length (m_nodes b))%nat → (length (m_nodes b) - k ≤ fuel)%nat →
  ∃ nodes, write_loop fuel npos buf b = (moved (m_position b + length buf) nodes b, Ret tt) ∧
    blocks nodes ∧ length nodes = length (m_nodes b) ∧
    concat nodes = splice (m_position b) buf (concat (m_nodes b)).
Proof.
  revert npos buf b k. induction fuel as [|fuel IH]; intros npos buf b k Hb Hc Hk Hn Hp Hl Hmax Hf; [lia|].
  destruct buf as [|c buf']; [simpl in Hl; lia|]. cbn [write_loop]. set (buf := c :: buf') in *.
  destruct (lookup_lt_is_Some_2 (m_nodes b) k Hk) as [node Hnode].
  assert (length node = B) as Hlen by (by eapply Forall_lookup_1 in Hb).
  unfold cur_node. rewrite Hc. cbn [mbind option_bind]. rewrite Hnode. cbn [mbind option_bind]. rewrite Hlen.
  pose proof (concat_length _ Hb) as Hcl.
  assert (∀ i, (i < length node)%nat → concat (m_nodes b) !! (k * B + i)%nat = node !! i) as Hlook.
  { intros i Hi. apply concat_lookup; [done|done|lia]. }
  destruct (Nat.leb_spec (length buf) (B - npos)).
  - exists (<[k := splice npos buf node]> (m_nodes b)).
    assert (length (splice npos buf node) = B) as Hs by (rewrite length_splice; lia).
    split_and!; [|by apply blocks_insert|by rewrite length_insert|].
    + f_equal. unfold moved. rewrite length_insert, Hp.
      destruct (Nat.eqb_spec B (npos + length buf)) as [E|E].
      * replace (k * B + npos + length buf)%nat with (k * B + B)%nat by lia.
        rewrite node_at_next. destruct b; simpl in *. rewrite Hp. f_equal; [lia|].
        unfold next_node. by rewrite length_insert.
      * rewrite <-Nat.add_assoc, node_at_in by lia. destruct b; simpl in *. rewrite Hp, Hc. f_equal. lia.
    + rewrite concat_insert by done. rewrite Hp. apply splice_block; [lia|nia|done].
  - set (b1 := set_ba_cur _ _).
    assert (length (take (B - npos) buf) = (B - npos)%nat) as Ht by (rewrite length_take; lia).
    assert (length (splice npos (take (B - npos) buf) node) = B) as Hs by (rewrite length_splice; lia).
    assert (S k < length (m_nodes b))%nat as Hk1 by nia.
    assert (m_position b1 = (m_position b + (B - npos))%nat) as Hp1 by (unfold b1; by destruct b).
    assert (m_nodes b1 = <[k := splice npos (take (B - npos) buf) node]> (m_nodes b)) as Hn1 by (unfold b1; by destruct b).
    assert (m_cur b1 = Some (S k)) as Hc1.
    { unfold b1, next_node. destruct b; cbn -[Nat.ltb] in *. rewrite length_insert.
      by destruct (Nat.ltb_spec (S k) (length m_nodes)); [|lia]. }
    destruct (IH 0%nat (drop (B - npos) buf) b1 (S k)) as (nodes & Hrun & Hbl & Hln & Hco);
      rewrite ?Hp1, ?Hn1, ?length_insert, ?length_drop; [by apply blocks_insert|done|lia|lia|lia|lia|lia|lia|].
    { exists nodes. rewrite Hn1 in Hln, Hco. rewrite length_insert in Hln.
      split_and!; [|done|done|].
      * change (write_loop fuel 0 (drop (B - npos) buf) b1 = (moved (m_position b + length buf) nodes b, Ret tt)).
        rewrite Hrun, Hp1, length_drop.
        replace (m_position b + (B - npos) + (length buf - (B - npos)))%nat with (m_position b + length buf)%nat by lia.
        unfold moved, b1. by destruct b.
      * rewrite Hco, Hp1, concat_insert by done.
        rewrite (splice_block k npos) by (rewrite ?Ht; done || lia || nia).
        rewrite <-Hp, <-Ht at 1. rewrite splice_splice by (rewrite Ht, length_drop; lia).
        by rewrite take_drop. }
Qed.
End chain.

Section chain.
Context (B : nat) (HB : (0 < B)%nat).

Lemma take_block nodes k node npos n : blocks B nodes → nodes !! k = Some node → (npos + n ≤ B)%nat →
  take n (drop (k * B + npos) (concat nodes)) = take n (drop npos node).
Proof.
  intros Hb Hk Hn. assert (length node = B) as Hlen by (by eapply Forall_lookup_1 in Hb).
  apply list_eq. intros i. destruct (decide (i < n)%nat) as [Hi|Hi].
  - rewrite !lookup_take_lt, !lookup_drop by done. rewrite <-Nat.add_assoc. apply (concat_lookup B); [done..|lia].
  - by rewrite !lookup_take_ge by lia.
Qed.

Definition at_pos (p : nat) (b : ByteArray) : ByteArray :=
  set_ba_pos p (set_ba_cur (node_at B (length (m_nodes b)) p) b).

Lemma read_loop_spec fuel npos size b k :
  blocks B (m_nodes b) → m_cur b = Some k → (k < length (m_nodes b))%nat → (npos < B)%nat →
  (k * B + npos + size ≤ B * length (m_nodes b))%nat → (length (m_nodes b) - k ≤ fuel)%nat → (0 < size)%nat →
  read_loop fuel npos size b =
  (set_ba_pos (m_position b + size) (set_ba_cur (node_at B (length (m_nodes b)) (k * B + npos + size)) b),
   Ret (take size (drop (k * B + npos) (concat (m_nodes b))))).
Proof.
  revert npos size b k. induction fuel as [|fuel IH]; intros npos size b k Hb Hc Hk Hn Hmax Hf Hs; [lia|].
  destruct size as [|size']; [lia|]. cbn [read_loop]. set (size := S size') in *.
  destruct (lookup_lt_is_Some_2 (m_nodes b) k Hk) as [node Hnode].
  assert (length node = B) as Hlen by (by eapply Forall_lookup_1 in Hb).
  unfold cur_node. rewrite Hc. cbn [mbind option_bind]. rewrite Hnode. cbn [mbind option_bind]. rewrite Hlen.
  destruct (Nat.leb_spec size (B - npos)).
  - rewrite (take_block (m_nodes b) k node) by (done || lia). f_equal.
    destruct (Nat.eqb_spec B (npos + size)) as [E|E].
    + replace (k * B + npos + size)%nat with (k * B + B)%nat by lia. by rewrite (node_at_next B HB); destruct b.
    + rewrite <-Nat.add_assoc, (node_at_in B) by lia. destruct b; simpl in *. by rewrite Hc.
  - assert (S k < length (m_nodes b))%nat as Hk1 by nia.
    set (b1 := set_ba_cur _ _).
    assert (m_nodes b1 = m_nodes b) as Hn1 by (unfold b1; by destruct b).
    assert (m_cur b1 = Some (S k)) as Hc1.
    { unfold b1, next_node. destruct b; cbn -[Nat.ltb] in *. by destruct (Nat.ltb_spec (S k) (length m_nodes)); [|lia]. }
    rewrite (IH 0%nat (size - (B - npos))%nat b1 (S k)); rewrite ?Hn1; [|done..|lia|lia|lia|lia].
    f_equal.
    + replace (S k * B + 0 + (size - (B - npos)))%nat with (k * B + npos + size)%nat by lia.
      replace (m_position b1 + (size - (B - npos)))%nat with (m_position b + size)%nat
        by (unfold b1; destruct b; simpl; lia).
      unfold b1. by destruct b.
    + f_equal. set (X := drop (k * B + npos) (concat (m_nodes b))).
      assert (drop npos node = take (B - npos) X) as ->.
      { unfold X. rewrite (take_block (m_nodes b) k node) by (done || lia). by rewrite take_ge by (rewrite length_drop; lia). }
      replace (S k * B + 0)%nat with (k * B + npos + (B - npos))%nat by lia. rewrite <-drop_drop. fold X.
      rewrite take_take_drop. f_equal. lia.
Qed.

Lemma read_loop_0 fuel npos b : read_loop fuel npos 0 b = (b, Ret []).
Proof. by destruct fuel. Qed.

Lemma seek_spec nodes v k n : blocks B nodes → (v ≤ B * length nodes)%nat → n = (k + length nodes)%nat →
  nodes ≠ [] → seek v k nodes = Some (node_at B n (k * B + v)).
Proof.
  intros Hb. revert v k. induction Hb as [|node nodes Hl Hb IH]; intros v k Hv -> Hne; [done|].
  cbn [seek length] in *. rewrite Hl. destruct (Nat.ltb_spec B v).
  - rewrite (IH (v - B)%nat (S k)) by (lia || (destruct nodes; [simpl in Hv; lia|done])). do 2 f_equal; lia.
  - destruct (Nat.eqb_spec v B) as [->|Hne'].
    + f_equal. unfold node_at. replace (k * B + B)%nat with (S k * B)%nat by lia. rewrite Nat.div_mul by lia.
      match goal with |- context [Nat.ltb ?x ?y] => destruct (Nat.ltb_spec x y) end;
        destruct nodes; simpl in *; lia || done.
    + by rewrite (node_at_in B) by lia.
Qed.
End chain.

(** ** The invariant *)

Record ba_ok (b : ByteArray) : Prop := {
  ba_base : (0 < m_baseSize b)%nat;
  ba_blocks : blocks (m_baseSize b) (m_nodes b);
  ba_some : m_nodes b ≠ [];
  ba_cap : m_capacity b = (m_baseSize b * length (m_nodes b))%nat;
  ba_size : (m_size b ≤ m_capacity b)%nat;
  ba_pos : (m_position b ≤ m_size b)%nat;
  ba_cur : m_cur b = node_at (m_baseSize b) (length (m_nodes b)) (m_position b)
}.

(** What the array holds, as one buffer. *)
Definition contents (b : ByteArray) : Bytes := take (m_size b) (concat (m_nodes b)).

Lemma drop_contents p b : (p ≤ m_size b)%nat →
  drop p (contents b) = take (m_size b - p) (drop p (concat (m_nodes b))).
Proof. intros H. unfold contents. rewrite take_drop_commute. do 2 f_equal. lia. Qed.

Lemma contents_length b : ba_ok b → length (contents b) = m_size b.
Proof.
  intros [H0 Hb _ Hc Hs _ _]. unfold contents. rewrite length_take, (concat_length (m_baseSize b)) by done. lia.
Qed.

Section ops.
Context (junk : nat → nat → ascii).

Lemma new_node_length alloc s : length (new_node junk alloc s) = s.
Proof. unfold new_node. by rewrite length_fmap, length_seq. Qed.

Lemma ByteArray0_ok base : (0 < base)%nat → ba_ok (ByteArray0 junk base) ∧ contents (ByteArray0 junk base) = [].
Proof.
  intros H. split; [|done]. split; simpl; [done| |done|lia|lia|lia|].
  - constructor; [apply new_node_length|done].
  - unfold node_at. by rewrite Nat.Div0.div_0_l.
Qed.

Lemma addCapacity_ok size b : ba_ok b → (0 < size)%nat →
  ba_ok (addCapacity junk size b) ∧ (m_position b + size ≤ m_capacity (addCapacity junk size b))%nat ∧
  ∃ more, m_nodes (addCapacity junk size b) = m_nodes b ++ more ∧
    m_position (addCapacity junk size b) = m_position b ∧ m_size (addCapacity junk size b) = m_size b ∧
    m_little (addCapacity junk size b) = m_little b ∧ m_baseSize (addCapacity junk size b) = m_baseSize b.
Proof.
  intros Hok Hs. pose proof Hok as [H0 Hb Hne Hc Hsz Hp Hcur]. unfold addCapacity, getCapacity.
  destruct (Nat.eqb_spec size 0); [lia|]. destruct (Nat.leb_spec size (m_capacity b - m_position b)).
  { split_and!; [done|lia|]. exists []. by rewrite app_nil_r. }
  set (need := (size - (m_capacity b - m_position b))%nat).
  set (count := ((need + m_baseSize b - 1) / m_baseSize b)%nat).
  assert (need ≤ count * m_baseSize b)%nat as Hcount.
  { unfold count. pose proof (Nat.div_mod (need + m_baseSize b - 1) (m_baseSize b) ltac:(lia)).
    pose proof (Nat.mod_upper_bound (need + m_baseSize b - 1) (m_baseSize b) ltac:(lia)). nia. }
  assert (count ≠ 0)%nat as Hc0 by (intros E; rewrite E in Hcount; unfold need in *; lia).
  set (more := (λ k, new_node junk (m_allocs b + k) (m_baseSize b)) <$> seq 0 count).
  assert (length more = count) as Hm by (unfold more; by rewrite length_fmap, length_seq).
  assert (blocks (m_baseSize b) more) as Hbm.
  { unfold more, blocks. apply Forall_fmap, Forall_true. intros k. apply new_node_length. }
  destruct (Nat.eqb_spec count 0) as [|_]; [done|].
  assert (ba_ok (set_ba_cur (node_at (m_baseSize b) (length (m_nodes b) + count) (m_position b))
            (set_ba_nodes (m_nodes b ++ more) (set_ba_capacity (m_capacity b + count * m_baseSize b)
               (set_ba_allocs (m_allocs b + count) b))))) as Hok'.
  { destruct b; simpl in *. split; simpl; [done|by apply Forall_app|by destruct m_nodes| |lia|done|].
    - rewrite length_app, Hm. lia.
    - by rewrite length_app, Hm. }
  destruct (Nat.eqb_spec (m_capacity b - m_position b) 0) as [E|E].
  - assert (node_at (m_baseSize b) (length (m_nodes b) + count) (m_position b) = Some (length (m_nodes b))) as Hat.
    { unfold node_at. replace (m_position b) with (length (m_nodes b) * m_baseSize b)%nat by lia.
      rewrite Nat.div_mul by lia. by destruct (Nat.ltb_spec (length (m_nodes b)) (length (m_nodes b) + count)); [|lia]. }
    rewrite Hat in Hok'. split_and!; [done|destruct b; simpl in *; lia|]. exists more. by destruct b.
  - assert (node_at (m_baseSize b) (length (m_nodes b) + count) (m_position b) = m_cur b) as Hat.
    { rewrite Hcur. unfold node_at. assert (m_position b / m_baseSize b < length (m_nodes b))%nat.
      { apply Nat.Div0.div_lt_upper_bound. lia. }
      by destruct (Nat.ltb_spec (m_position b / m_baseSize b) (length (m_nodes b))),
        (Nat.ltb_spec (m_position b / m_baseSize b) (length (m_nodes b) + count)); try lia. }
    rewrite Hat in Hok'. split_and!; [by destruct b|destruct b; simpl in *; lia|]. exists more. by destruct b.
Qed.

Lemma cur_node_at b : ba_ok b → (m_position b < m_capacity b)%nat →
  m_cur b = Some (m_position b / m_baseSize b)%nat ∧
  (m_position b / m_baseSize b < length (m_nodes b))%nat ∧ is_Some (cur_node b).
Proof.
  intros [H0 Hb Hne Hc Hsz Hp Hcur] Hlt.
  assert (m_position b / m_baseSize b < length (m_nodes b))%nat as Hk by (apply Nat.Div0.div_lt_upper_bound; lia).
  unfold node_at in Hcur. destruct (Nat.ltb_spec (m_position b / m_baseSize b) (length (m_nodes b))); [|lia].
  split_and!; [done|done|]. unfold cur_node. rewrite Hcur. simpl.
  destruct (lookup_lt_is_Some_2 (m_nodes b) _ Hk) as [node ->]. by eexists.
Qed.

Lemma pos_split b : ba_ok b →
  m_position b = (m_position b / m_baseSize b * m_baseSize b + m_position b mod m_baseSize b)%nat ∧
  (m_position b mod m_baseSize b < m_baseSize b)%nat.
Proof.
  intros [H0 _ _ _ _ _ _]. pose proof (Nat.div_mod (m_position b) (m_baseSize b) ltac:(lia)).
  split; [lia|]. apply Nat.mod_upper_bound. lia.
Qed.

(** The flat buffer after a write at a position inside it. *)
Definition overwrite (p : nat) (buf data : Bytes) : Bytes := take p data ++ buf ++ drop (p + length buf) data.

Lemma take_splice n m p (buf flat : Bytes) : (p ≤ n)%nat → m = Nat.max n (p + length buf) →
  (m ≤ length flat)%nat → take m (splice p buf flat) = overwrite p buf (take n flat).
Proof.
  intros Hp -> Hm. unfold splice, overwrite. rewrite take_take, Nat.min_l by done.
  rewrite take_app_ge by (rewrite length_take; lia). rewrite length_take, Nat.min_l by lia. f_equal.
  rewrite take_app_ge by lia. f_equal. rewrite take_drop_commute.
  destruct (decide (n ≤ p + length buf)%nat).
  - rewrite Nat.max_r by done. rewrite !drop_ge; [done|rewrite length_take; lia..].
  - rewrite Nat.max_l by lia. do 2 f_equal. lia.
Qed.

(** [write] is a write into the flat buffer. *)
Lemma ba_write_ok buf b : ba_ok b → ∃ b', write junk buf b = (b', Ret tt) ∧ ba_ok b' ∧
  m_position b' = (m_position b + length buf)%nat ∧ contents b' = overwrite (m_position b) buf (contents b) ∧
  m_little b' = m_little b ∧ m_baseSize b' = m_baseSize b.
Proof.
  intros Hok. unfold write. destruct (Nat.eqb_spec (length buf) 0) as [E|E].
  { exists b. assert (buf = []) as -> by (by destruct buf). split_and!; [done|done|simpl; lia| |done|done].
    unfold overwrite. simpl. by rewrite Nat.add_0_r, take_drop. }
  destruct (addCapacity_ok (length buf) b Hok ltac:(lia)) as (Hok1 & Hcap & more & Hn & Hp & Hs & Hl & Hbs).
  set (b1 := addCapacity junk (length buf) b) in *. rewrite <-Hp in Hcap.
  pose proof (ba_base _ Hok1) as H0. pose proof (ba_cap _ Hok1) as Hcap1.
  destruct (cur_node_at b1 Hok1 ltac:(lia)) as (Hc & Hk & [node ->]).
  destruct (pos_split b1 Hok1) as [Hsp Hmod].
  destruct (write_loop_spec (m_baseSize b1) H0 (S (length (m_nodes b1))) (m_position b1 mod m_baseSize b1) buf b1 _
    (ba_blocks _ Hok1) Hc Hk Hmod Hsp ltac:(lia) ltac:(lia) ltac:(lia)) as (nodes & -> & Hbl & Hln & Hco).
  set (b2 := moved _ _ _ _).
  assert (contents (set_ba_size (Nat.max (m_size b1) (m_position b1 + length buf)) b2) =
          overwrite (m_position b) buf (contents b)) as Hcon.
  { unfold contents, b2, moved. destruct b1; simpl in *. rewrite Hco. subst m_position m_size m_nodes.
    rewrite (take_splice (ByteArray.m_size b)); [|apply Hok|done|].
    - f_equal. rewrite concat_app. rewrite take_app_le; [done|].
      rewrite (concat_length (ByteArray.m_baseSize b)) by apply Hok. pose proof (ba_cap _ Hok). pose proof (ba_size _ Hok). lia.
    - rewrite (concat_length m_baseSize) by apply Hok1. pose proof (ba_size _ Hok1) as Hsz. simpl in *. lia. }
  assert (ba_ok (set_ba_size (Nat.max (m_size b1) (m_position b1 + length buf)) b2)) as Hok2.
  { destruct Hok1 as [_ _ Hne _ Hsz Hps _]. unfold b2, moved. destruct b1; simpl in *.
    split; simpl; [done|done|by destruct nodes, m_nodes| |lia|lia|done]. by rewrite Hln. }
  assert (∀ b', b' = set_ba_size (Nat.max (m_size b1) (m_position b1 + length buf)) b2 →
    ba_ok b' ∧ m_position b' = (m_position b + length buf)%nat ∧
    contents b' = overwrite (m_position b) buf (contents b) ∧ m_little b' = m_little b ∧ m_baseSize b' = m_baseSize b) as Hall.
  { intros b' ->. split_and!; [done| |done|..]; unfold b2, moved; rewrite <-?Hp, <-?Hl, <-?Hbs; by destruct b1. }
  eexists. split; [done|]. apply Hall. unfold b2, moved. destruct b1; simpl in *.
  destruct (Nat.ltb_spec m_size (m_position + length buf)); simpl; f_equal; lia.
Qed.

(** [read] is a read of the flat buffer, if there is a block to look at. *)
Lemma ba_read_ok n b : ba_ok b → (n ≤ getReadSize b)%nat → (m_position b < m_capacity b ∨ 0 < n)%nat →
  ∃ b', read n b = (b', Ret (take n (drop (m_position b) (contents b)))) ∧ ba_ok b' ∧
    m_position b' = (m_position b + n)%nat ∧ contents b' = contents b ∧
    m_little b' = m_little b ∧ m_baseSize b' = m_baseSize b ∧ m_capacity b' = m_capacity b.
Proof.
  intros Hok Hn Hlt. unfold getReadSize in Hn. pose proof Hok as [H0 Hb Hne Hc Hsz Hps Hcur].
  unfold read, getReadSize. destruct (Nat.ltb_spec (m_size b - m_position b) n); [lia|].
  destruct (cur_node_at b Hok ltac:(lia)) as (Hcu & Hk & [node ->]).
  destruct n as [|n'].
  { rewrite read_loop_0. exists b. split_and!; [done|done|lia|done..]. }
  set (n := S n') in *. destruct (pos_split b Hok) as [Hsp Hmod].
  rewrite (read_loop_spec (m_baseSize b) H0 _ _ n b _ Hb Hcu Hk Hmod) by lia. rewrite <-Hsp.
  assert (take n (drop (m_position b) (concat (m_nodes b))) = take n (drop (m_position b) (contents b))) as ->.
  { rewrite drop_contents by done. by rewrite take_take, Nat.min_l by lia. }
  eexists. split; [done|]. destruct b; simpl in *. split_and!; try done. split; simpl; try done. lia.
Qed.

Lemma read_short n b : (getReadSize b < n)%nat → read n b = (b, OutOfRange).
Proof. intros H. unfold read. by destruct (Nat.ltb_spec (getReadSize b) n); [|lia]. Qed.

(** A read of nothing behind the last block. *)
Lemma read_null b : ba_ok b → m_position b = m_capacity b → read 0 b = (b, NullDeref).
Proof.
  intros [H0 Hb Hne Hc Hsz Hps Hcur] E. unfold read, getReadSize. simpl. unfold cur_node. rewrite Hcur.
  unfold node_at. rewrite E, Hc, Nat.mul_comm, Nat.div_mul by lia.
  by destruct (Nat.ltb_spec (length (m_nodes b)) (length (m_nodes b))); [lia|].
Qed.

(** [setPosition] inside the capacity; behind the end it makes what the blocks hold part
    of the array. *)
Lemma setPosition_ok v b : ba_ok b → (v ≤ m_capacity b)%nat →
  ∃ b', setPosition v b = (b', Ret tt) ∧ ba_ok b' ∧ m_position b' = v ∧
    m_size b' = Nat.max (m_size b) v ∧ take (m_size b) (contents b') = contents b ∧
    m_little b' = m_little b ∧ m_baseSize b' = m_baseSize b.
Proof.
  intros [H0 Hb Hne Hc Hsz Hps Hcur] Hv. unfold setPosition. destruct (Nat.ltb_spec (m_capacity b) v); [lia|].
  set (b1 := if (m_size _ <? v)%nat then _ else _).
  assert (b1 = set_ba_size (Nat.max (m_size b) v) (set_ba_pos v b)) as ->.
  { unfold b1. destruct b; simpl. destruct (Nat.ltb_spec m_size v); simpl; f_equal; lia. }
  assert (m_nodes (set_ba_size (Nat.max (m_size b) v) (set_ba_pos v b)) = m_nodes b) as -> by (by destruct b).
  rewrite (seek_spec (m_baseSize b) H0 (m_nodes b) v 0 (length (m_nodes b))) by (done || lia).
  eexists. split; [done|]. destruct b; simpl in *. split_and!; try done.
  - split; simpl; try done; lia.
  - unfold contents. simpl. by rewrite take_take, Nat.min_l by lia.
Qed.

Lemma clear_ok b : ba_ok b → ∃ b', clear b = (b', Ret tt) ∧ ba_ok b' ∧ m_position b' = 0%nat ∧ contents b' = [] ∧
  m_little b' = m_little b ∧ m_baseSize b' = m_baseSize b.
Proof.
  intros [H0 Hb Hne Hc Hsz Hps Hcur]. eexists. split; [done|]. destruct b; simpl in *.
  destruct m_nodes as [|node nodes]; [done|]. split_and!; try done. split; simpl; [done| |done|lia|lia|lia|].
  - rewrite take_0. apply Forall_cons in Hb as [Hn _]. by constructor.
  - unfold node_at. by rewrite Nat.Div0.div_0_l.
Qed.

(** [toString] is what there is to read. *)
Lemma toString_ok b : ba_ok b → toString b = (b, Ret (text (drop (m_position b) (contents b)))).
Proof.
  intros Hok. pose proof Hok as [H0 Hb Hne Hc Hsz Hps Hcur]. pose proof (contents_length b Hok) as Hlen. unfold toString.
  destruct (Nat.eqb_spec (getReadSize b) 0) as [E|E]; unfold getReadSize in *.
  { rewrite drop_ge by lia. done. }
  unfold read_at. destruct (Nat.leb_spec (m_position b) (m_size b)); [|lia].
  destruct (Nat.ltb_spec (m_size b - m_position b) (m_size b - m_position b)); [lia|]. cbn [andb].
  destruct (cur_node_at b Hok ltac:(lia)) as (Hcu & Hk & [node ->]). destruct (pos_split b Hok) as [Hsp Hmod].
  rewrite (read_loop_spec (m_baseSize b) H0 _ _ _ b _ Hb Hcu Hk Hmod) by lia. rewrite <-Hsp. simpl.
  by rewrite drop_contents by done.
Qed.
End ops.

(** ** What a method writes, what a method reads *)

Lemma overwrite_length p (buf data : Bytes) : (p ≤ length data)%nat →
  length (overwrite p buf data) = Nat.max (length data) (p + length buf).
Proof. intros H. unfold overwrite. rewrite !length_app, length_take, length_drop. lia. Qed.

Lemma overwrite_overwrite p (b1 b2 data : Bytes) : (p ≤ length data)%nat →
  overwrite (p + length b1) b2 (overwrite p b1 data) = overwrite p (b1 ++ b2) data.
Proof.
  intros H. unfold overwrite. rewrite length_app.
  assert (take (p + length b1) (take p data ++ b1 ++ drop (p + length b1) data) = take p data ++ b1) as ->.
  { rewrite app_assoc. apply take_app_length'. rewrite length_app, length_take. lia. }
  assert (drop (p + length b1 + length b2) (take p data ++ b1 ++ drop (p + length b1) data) =
          drop (p + (length b1 + length b2)) data) as ->.
  { rewrite app_assoc, drop_app_ge by (rewrite length_app, length_take; lia).
    rewrite drop_drop. f_equal. rewrite length_app, length_take. lia. }
  by rewrite <-!app_assoc.
Qed.

Lemma overwrite_read p (buf data : Bytes) : (p ≤ length data)%nat → buf `prefix_of` drop p (overwrite p buf data).
Proof.
  intros H. unfold overwrite. rewrite drop_app_length' by (rewrite length_take; lia). by eexists.
Qed.

Section typed.
Context (junk : nat → nat → ascii) (little : bool).

Definition after (b : ByteArray) (bs : Bytes) (b' : ByteArray) : Prop :=
  ba_ok b' ∧ m_position b' = (m_position b + length bs)%nat ∧
  contents b' = overwrite (m_position b) bs (contents b) ∧ m_little b' = little ∧ m_baseSize b' = m_baseSize b.

Definition puts (w : BM unit) (bs : Bytes) : Prop := ∀ b,
  ba_ok b → m_little b = little → ∃ b', w b = (b', Ret tt) ∧ after b bs b'.

Definition gets_from {A} (r : BM A) (bs : Bytes) (a : A) : Prop := ∀ b,
  ba_ok b → m_little b = little → bs `prefix_of` drop (m_position b) (contents b) →
  ∃ b', r b = (b', Ret a) ∧ ba_ok b' ∧ m_position b' = (m_position b + length bs)%nat ∧
    contents b' = contents b ∧ m_little b' = little ∧ m_baseSize b' = m_baseSize b.

Lemma puts_write bs : puts (write junk bs) bs.
Proof.
  intros b Hok Hl. destruct (ba_write_ok junk bs b Hok) as (b' & -> & Hok' & Hp & Hc & Hl' & Hb).
  exists b'. split; [done|]. unfold after. split_and!; congruence || done.
Qed.

Lemma puts_ret : puts (mret tt) [].
Proof.
  intros b Hok Hl. exists b. split; [done|]. unfold after, overwrite. split_and!; [done|simpl; lia| |done|done].
  simpl. by rewrite Nat.add_0_r, take_drop.
Qed.

Lemma puts_bind (w1 w2 : BM unit) bs1 bs2 : puts w1 bs1 → puts w2 bs2 → puts (w1 ≫= λ _, w2) (bs1 ++ bs2).
Proof.
  intros H1 H2 b Hok Hl. destruct (H1 b Hok Hl) as (b1 & E1 & Hok1 & Hp1 & Hc1 & Hl1 & Hb1).
  destruct (H2 b1 Hok1 Hl1) as (b2 & E2 & Hok2 & Hp2 & Hc2 & Hl2 & Hb2).
  exists b2. split; [unfold mbind, BM_bind; by rewrite E1|]. unfold after.
  split_and!; [done|rewrite length_app; lia| |done|congruence].
  rewrite Hc2, Hp1, Hc1. apply overwrite_overwrite. rewrite contents_length by done. apply Hok.
Qed.

Lemma gets_read bs : bs ≠ [] → gets_from (read (length bs)) bs bs.
Proof.
  intros Hne b Hok Hl [rest Hpre]. pose proof (f_equal length Hpre) as Hlen.
  rewrite length_drop, length_app, contents_length in Hlen by done.
  assert (0 < length bs)%nat by (destruct bs; simpl; [done|lia]).
  destruct (ba_read_ok (length bs) b Hok) as (b' & E & Hok' & Hp & Hc & Hl' & Hb & _); [unfold getReadSize; lia|lia|].
  rewrite Hpre, take_app_length in E. exists b'. split_and!; [done..|congruence|done].
Qed.

Lemma gets_ret {A} (a : A) : gets_from (mret a) [] a.
Proof. intros b Hok Hl _. exists b. split_and!; try done; simpl; lia. Qed.

Lemma gets_bind {A C} (r : BM A) (k : A → BM C) bs1 bs2 a c :
  gets_from r bs1 a → gets_from (k a) bs2 c → gets_from (r ≫= k) (bs1 ++ bs2) c.
Proof.
  intros H1 H2 b Hok Hl [rest Hpre]. destruct (H1 b Hok Hl) as (b1 & E1 & Hok1 & Hp1 & Hc1 & Hl1 & Hb1).
  { exists (bs2 ++ rest). by rewrite Hpre, app_assoc. }
  destruct (H2 b1 Hok1 Hl1) as (b2 & E2 & Hok2 & Hp2 & Hc2 & Hl2 & Hb2).
  { exists rest. rewrite Hp1, Hc1, <-drop_drop, Hpre, <-app_assoc. apply drop_app_length. }
  exists b2. split; [unfold mbind, BM_bind; by rewrite E1|].
  split_and!; [done|rewrite length_app; lia|congruence|done|congruence].
Qed.

Lemma gets_map {A C} (r : BM A) (f : A → C) bs a : gets_from r bs a → gets_from (r ≫= λ x, mret (f x)) bs (f a).
Proof.
  intros H. rewrite <-(app_nil_r bs). eapply gets_bind; [done|apply gets_ret].
Qed.

(** ** Fixed widths *)

Lemma le_bytes_mod n v : le_bytes n (v `mod` 2 ^ (8 * Z.of_nat n)) = le_bytes n v.
Proof.
  rewrite <-le_value_bytes. pose proof (le_bytes_value (le_bytes n v)) as H. by rewrite le_bytes_length in H.
Qed.

Lemma byteswap_mod n v : byteswap n (v `mod` 2 ^ (8 * Z.of_nat n)) = byteswap n v.
Proof. unfold byteswap. by rewrite le_bytes_mod. Qed.

Definition fixed_bytes (n : nat) (v : Z) : Bytes := le_bytes n (if little then v else byteswap n v).

Lemma puts_fixed n v : puts (write_fixed junk n v) (fixed_bytes n v).
Proof. intros b Hok Hl. unfold write_fixed, fixed_bytes. rewrite Hl. by apply puts_write. Qed.

Lemma gets_fixed n v : (0 < n)%nat → gets_from (read_fixed n) (fixed_bytes n v) (v `mod` 2 ^ (8 * Z.of_nat n)).
Proof.
  intros Hn b Hok Hl Hpre. assert (length (fixed_bytes n v) = n) as Hlen by apply le_bytes_length.
  destruct (gets_read (fixed_bytes n v)) with (b := b) as (b' & E & H); [intros E; rewrite E in Hlen; simpl in Hlen; lia|done..|].
  rewrite Hlen in E. exists b'. unfold read_fixed. rewrite E. split; [|done]. do 2 f_equal.
  rewrite (proj1 (proj2 (proj2 (proj2 H)))). unfold fixed_bytes. rewrite le_value_bytes.
  case_match; [done|]. rewrite byteswap_mod, <-(byteswap_mod n v). apply byteswap_twice.
  apply Z.mod_pos_bound. apply Z.pow_pos_nonneg; lia.
Qed.

Lemma signed_mod n v : (0 < n)%nat → - 2 ^ (8 * Z.of_nat n - 1) ≤ v < 2 ^ (8 * Z.of_nat n - 1) →
  signed n (v `mod` 2 ^ (8 * Z.of_nat n)) = v.
Proof.
  intros Hn Hv. unfold signed. replace (8 * Z.of_nat n) with (8 * Z.of_nat n - 1 + 1) by lia.
  rewrite Z.add_simpl_r. set (h := 8 * Z.of_nat n - 1) in *. rewrite Z.pow_add_r, Z.pow_1_r by lia.
  destruct (Z.leb_spec 0 v).
  - rewrite Z.mod_small by lia. by destruct (Z.ltb_spec v (2 ^ h)); [|lia].
  - rewrite <-(Z.mod_add _ 1), Z.mod_small by lia. destruct (Z.ltb_spec (v + 1 * (2 ^ h * 2)) (2 ^ h)); lia.
Qed.
End typed.

(** ** Bits *)

Lemma lor_shift a b i : 0 ≤ i → 0 ≤ a < 2 ^ i → 0 ≤ b → Z.lor a (Z.shiftl b i) = a + b * 2 ^ i.
Proof.
  intros Hi Ha Hb. rewrite <-Z.shiftl_mul_pow2 by done. rewrite <-Z.lxor_lor, <-Z.add_nocarry_lxor; [done|..].
  all: apply Z.bits_inj'; intros n Hn; rewrite Z.land_spec, Z.bits_0.
  all: destruct (Z.ltb_spec n i); [rewrite (Z.shiftl_spec_low b) by lia; apply andb_false_r|].
  all: rewrite <-(Z.mod_small a (2 ^ i)) by done; by rewrite Z.mod_pow2_bits_high by lia.
Qed.

Lemma land_127 v : Z.land v 0x7F = v `mod` 128.
Proof. change 0x7F with (Z.ones 7). by rewrite Z.land_ones by lia. Qed.

Lemma lxor_ones x n : 0 ≤ n → 0 ≤ x < 2 ^ n → Z.lxor x (2 ^ n - 1) = 2 ^ n - 1 - x.
Proof.
  intros Hn Hx. replace (2 ^ n - 1) with (Z.ones n) by (rewrite Z.ones_equiv; lia).
  assert (Z.ldiff x (Z.ones n) = 0) as Hl by (rewrite Z.ldiff_ones_r, Z.shiftr_div_pow2, Z.div_small by lia; apply Z.shiftl_0_l).
  rewrite Z.sub_nocarry_ldiff by done. apply Z.bits_inj'. intros m Hm.
  rewrite Z.lxor_spec, Z.ldiff_spec. pose proof (f_equal (λ z, Z.testbit z m) Hl) as Hb. simpl in Hb.
  rewrite Z.ldiff_spec, Z.bits_0 in Hb. by destruct (Z.testbit x m), (Z.testbit (Z.ones n) m).
Qed.

(** ** Variable widths *)

Lemma varint_byte v : byte_of (byte (Z.lor (Z.land v 0x7F) 0x80)) = v `mod` 128 + 128.
Proof.
  rewrite land_127. pose proof (Z.mod_pos_bound v 128 ltac:(lia)).
  rewrite (lor_shift (v `mod` 128) 1 7 ltac:(lia) H ltac:(lia) : Z.lor _ 0x80 = _). rewrite byte_of_byte; lia.
Qed.

Lemma varint_length fuel v : (length (varint fuel v) ≤ fuel)%nat.
Proof. revert v. induction fuel as [|fuel IH]; intros v; simpl; [lia|]. case_match; simpl; [|lia]. specialize (IH (Z.shiftr v 7)). lia. Qed.

Section typed.
Context (junk : nat → nat → ascii) (little : bool).
#[local] Abbreviation puts := (puts little).
#[local] Abbreviation gets_from := (gets_from little).

Lemma gets_byte c : gets_from readFuint8 [c] (byte_of c).
Proof.
  unfold readFuint8. rewrite <-(app_nil_r [c]). eapply gets_bind; [apply gets_read|]; [done|].
  replace (byte_of c) with (le_value [c]) by (simpl; lia). apply gets_ret.
Qed.

Lemma gets_varint fuel w i result v :
  0 ≤ i < w → 0 ≤ result < 2 ^ i → 0 ≤ v < 2 ^ (w - i) → v < 2 ^ (7 * Z.of_nat fuel) → (0 < fuel)%nat →
  gets_from (read_varint fuel w i result) (varint fuel v) (result + v * 2 ^ i).
Proof.
  revert i result v. induction fuel as [|fuel IH]; intros i result v Hi Hr Hv Hvf Hf; [lia|].
  assert (2 ^ w = 2 ^ i * 2 ^ (w - i)) as Hw by (rewrite <-Z.pow_add_r by lia; f_equal; lia).
  cbn [read_varint varint]. destruct (Z.leb_spec 0x80 v).
  - assert (7 < w - i) as Hwi.
    { destruct (Z.ltb_spec 7 (w - i)); [done|]. pose proof (Z.pow_le_mono_r 2 (w - i) 7). lia. }
    assert (fuel ≠ 0%nat) as Hf0 by (intros ->; change (2 ^ (7 * Z.of_nat 1)) with 128 in Hvf; lia).
    pose proof (Z.mod_pos_bound v 128 ltac:(lia)) as Hm. pose proof (Z.div_mod v 128 ltac:(lia)) as Hdm.
    change (?c :: ?l) with ([c] ++ l). eapply gets_bind; [apply gets_byte|].
    rewrite varint_byte. destruct (Z.ltb_spec (v `mod` 128 + 128) 0x80); [lia|].
    rewrite (land_127 (_ + _)). replace ((v `mod` 128 + 128) `mod` 128) with (v `mod` 128)
      by (change 128 with (1 * 128) at 3; by rewrite Z.mod_add, Z.mod_mod by lia).
    assert (2 ^ (i + 7) = 2 ^ i * 128) as H7 by (by rewrite Z.pow_add_r by lia).
    assert (2 ^ (w - i) = 128 * 2 ^ (w - (i + 7))) as Hw7.
    { change 128 with (2 ^ 7). rewrite <-Z.pow_add_r by lia. f_equal. lia. }
    assert (0 < 2 ^ (w - (i + 7))) by (apply Z.pow_pos_nonneg; lia).
    assert (Z.shiftl (v `mod` 128) i `mod` 2 ^ w = Z.shiftl (v `mod` 128) i) as ->.
    { rewrite Z.shiftl_mul_pow2 by lia. apply Z.mod_small. nia. }
    rewrite lor_shift by lia. destruct (Z.ltb_spec (i + 7) w); [|lia].
    replace (result + v * 2 ^ i) with (result + v `mod` 128 * 2 ^ i + Z.shiftr v 7 * 2 ^ (i + 7)).
    2: { rewrite Z.shiftr_div_pow2 by lia. change (2 ^ 7) with 128. rewrite H7. nia. }
    assert (2 ^ (7 * Z.of_nat (S fuel)) = 128 * 2 ^ (7 * Z.of_nat fuel)) as Hfu.
    { change 128 with (2 ^ 7). rewrite <-Z.pow_add_r by lia. f_equal. lia. }
    apply IH; [lia|nia| | |lia]; rewrite Z.shiftr_div_pow2 by lia; change (2 ^ 7) with 128.
    + split; [apply Z.div_pos; lia|]. apply Z.div_lt_upper_bound; lia.
    + apply Z.div_lt_upper_bound; lia.
  - rewrite <-(app_nil_r [byte v]). eapply gets_bind; [apply gets_byte|].
    rewrite byte_of_byte by lia. destruct (Z.ltb_spec v 0x80); [|lia].
    rewrite Z.mod_small.
    + rewrite lor_shift by lia. apply gets_ret.
    + rewrite Z.shiftl_mul_pow2 by lia. assert (0 < 2 ^ i) by (apply Z.pow_pos_nonneg; lia). nia.
Qed.

Lemma gets_uint32 v : 0 ≤ v < 2 ^ 32 → gets_from readUint32 (varint 5 v) v.
Proof.
  intros Hv. pose proof (gets_varint 5 32 0 0 v) as H. rewrite Z.pow_0_r, Z.mul_1_r, Z.add_0_l in H.
  apply H; [lia|lia|done| |lia]. change (7 * Z.of_nat 5) with 35. lia.
Qed.

Lemma gets_uint64 v : 0 ≤ v < 2 ^ 64 → gets_from readUint64 (varint 10 v) v.
Proof.
  intros Hv. pose proof (gets_varint 10 64 0 0 v) as H. rewrite Z.pow_0_r, Z.mul_1_r, Z.add_0_l in H.
  apply H; [lia|lia|done| |lia]. change (7 * Z.of_nat 10) with 70. lia.
Qed.

(** The zigzag code on [w] bits, of which the two widths are instances. *)
Lemma zigzag w v (e := if v <? 0 then ((- v) `mod` 2 ^ w * 2 - 1) `mod` 2 ^ w else (v * 2) `mod` 2 ^ w) :
  0 < w → - 2 ^ (w - 1) ≤ v < 2 ^ (w - 1) →
  0 ≤ e < 2 ^ w ∧
  (Z.lxor (Z.shiftr e 1) ((- Z.land e 1) `mod` 2 ^ w) + 2 ^ (w - 1)) `mod` 2 ^ w - 2 ^ (w - 1) = v.
Proof.
  intros Hw Hv. assert (2 ^ w = 2 * 2 ^ (w - 1)) as E by (rewrite <-Z.pow_succ_r by lia; f_equal; lia).
  set (h := 2 ^ (w - 1)) in *. assert (∀ x, Z.land x 1 = x `mod` 2) as Hl by (intros x; apply (Z.land_ones x 1); lia).
  rewrite Hl, Z.shiftr_div_pow2 by lia. change (2 ^ 1) with 2. unfold e. clear e. destruct (Z.ltb_spec v 0).
  - rewrite (Z.mod_small (- v)), Z.mod_small by lia. split; [lia|].
    replace (- v * 2 - 1) with (1 + (- v - 1) * 2) by lia. rewrite Z.div_add, Z.mod_add by lia.
    change (1 / 2 + (- v - 1)) with (0 + (- v - 1)). change (- (1 mod 2)) with (-1).
    replace ((-1) `mod` 2 ^ w) with (2 ^ w - 1) by (apply (Z.mod_unique _ _ (-1)); lia).
    rewrite lxor_ones by lia.
    replace (2 ^ w - 1 - (0 + (- v - 1)) + h) with (v + h + 1 * 2 ^ w) by lia.
    rewrite Z.mod_add, Z.mod_small by lia. lia.
  - rewrite Z.mod_small by lia. split; [lia|]. rewrite Z.mod_mul, Z.div_mul by lia.
    change (- 0) with 0. rewrite Z.mod_0_l, Z.lxor_0_r, Z.mod_small by lia. lia.
Qed.

Lemma zigzag32 v : - 2 ^ 31 ≤ v < 2 ^ 31 → 0 ≤ EncodeZigzag32 v < 2 ^ 32 ∧ DecodeZigzag32 (EncodeZigzag32 v) = v.
Proof. intros H. by apply (zigzag 32 v). Qed.

Lemma zigzag64 v : in_i64 v → 0 ≤ EncodeZigzag64 v < 2 ^ 64 ∧ DecodeZigzag64 (EncodeZigzag64 v) = v.
Proof. intros [H1 H2]. apply (zigzag 64 v); unfold INT64_MIN, INT64_MAX in *; lia. Qed.

(** ** Strings *)

Lemma puts_string (put_len : BM unit) bs value : puts put_len bs →
  puts (_ ← put_len; write junk (chars value)) (bs ++ chars value).
Proof. intros H. apply puts_bind; [done|apply puts_write]. Qed.

Lemma gets_string (get_len : BM Z) bs value : value ≠ "" → gets_from get_len bs (str_size value) →
  gets_from (read_sized get_len) (bs ++ chars value) value.
Proof.
  intros Hne H. unfold read_sized. eapply gets_bind; [done|].
  assert (Z.to_nat (str_size value) = length (chars value)) as ->.
  { unfold str_size. by rewrite Nat2Z.id, chars_length. }
  pose proof (gets_map little (read (length (chars value))) text (chars value) (chars value)) as Hm.
  rewrite text_chars in Hm. apply Hm, gets_read. by destruct value.
Qed.

(** ** The typed values *)

Inductive Item : Type :=
  | Fint8 (v : Z) | Fuint8 (v : Z) | Fint16 (v : Z) | Fuint16 (v : Z) | Fint32 (v : Z) | Fuint32 (v : Z)
  | Fint64 (v : Z) | Fuint64 (v : Z) | Int32 (v : Z) | Uint32 (v : Z) | Int64 (v : Z) | Uint64 (v : Z)
  | Float (bits : Z) | Double (bits : Z)
  | StringF16 (s : string) | StringF32 (s : string) | StringF64 (s : string) | StringVint (s : string).

(** In the range of its C++ type; a string not empty, and no longer than its length field
    can say. *)
Definition item_ok (x : Item) : Prop :=
  match x with
  | Fint8 v => - 2 ^ 7 ≤ v < 2 ^ 7 | Fuint8 v => 0 ≤ v < 2 ^ 8
  | Fint16 v => - 2 ^ 15 ≤ v < 2 ^ 15 | Fuint16 v => 0 ≤ v < 2 ^ 16
  | Fint32 v | Int32 v => - 2 ^ 31 ≤ v < 2 ^ 31
  | Fuint32 v | Uint32 v | Float v => 0 ≤ v < 2 ^ 32
  | Fint64 v | Int64 v => in_i64 v
  | Fuint64 v | Uint64 v | Double v => 0 ≤ v < 2 ^ 64
  | StringF16 s => s ≠ "" ∧ str_size s < 2 ^ 16
  | StringF32 s => s ≠ "" ∧ str_size s < 2 ^ 32
  | StringF64 s | StringVint s => s ≠ "" ∧ str_size s < 2 ^ 64
  end.

Definition write_item (x : Item) : BM unit :=
  match x with
  | Fint8 v => writeFint8 junk v | Fuint8 v => writeFuint8 junk v
  | Fint16 v => writeFint16 junk v | Fuint16 v => writeFuint16 junk v
  | Fint32 v => writeFint32 junk v | Fuint32 v => writeFuint32 junk v
  | Fint64 v => writeFint64 junk v | Fuint64 v => writeFuint64 junk v
  | Int32 v => writeInt32 junk v | Uint32 v => writeUint32 junk v
  | Int64 v => writeInt64 junk v | Uint64 v => writeUint64 junk v
  | Float v => writeFloat junk v | Double v => writeDouble junk v
  | StringF16 s => writeStringF16 junk s | StringF32 s => writeStringF32 junk s
  | StringF64 s => writeStringF64 junk s | StringVint s => writeStringVint junk s
  end.

(** The counterpart of [write_item]. *)
Definition read_item (x : Item) : BM Item :=
  match x with
  | Fint8 _ => v ← readFint8; mret (Fint8 v) | Fuint8 _ => v ← readFuint8; mret (Fuint8 v)
  | Fint16 _ => v ← readFint16; mret (Fint16 v) | Fuint16 _ => v ← readFuint16; mret (Fuint16 v)
  | Fint32 _ => v ← readFint32; mret (Fint32 v) | Fuint32 _ => v ← readFuint32; mret (Fuint32 v)
  | Fint64 _ => v ← readFint64; mret (Fint64 v) | Fuint64 _ => v ← readFuint64; mret (Fuint64 v)
  | Int32 _ => v ← readInt32; mret (Int32 v) | Uint32 _ => v ← readUint32; mret (Uint32 v)
  | Int64 _ => v ← readInt64; mret (Int64 v) | Uint64 _ => v ← readUint64; mret (Uint64 v)
  | Float _ => v ← readFloat; mret (Float v) | Double _ => v ← readDouble; mret (Double v)
  | StringF16 _ => s ← readStringF16; mret (StringF16 s) | StringF32 _ => s ← readStringF32; mret (StringF32 s)
  | StringF64 _ => s ← readStringF64; mret (StringF64 s) | StringVint _ => s ← readStringVint; mret (StringVint s)
  end.

Definition write_items (l : list Item) : BM unit := foldr (λ x m, write_item x ≫= λ _, m) (mret tt) l.
Fixpoint read_items (l : list Item) : BM (list Item) :=
  match l with
  | [] => mret []
  | x :: l => y ← read_item x; ys ← read_items l; mret (y :: ys)
  end.

Lemma gets_unsigned n v : (0 < n)%nat → 0 ≤ v < 2 ^ (8 * Z.of_nat n) →
  gets_from (read_fixed n) (fixed_bytes little n v) v.
Proof. intros Hn Hv. rewrite <-(Z.mod_small v (2 ^ (8 * Z.of_nat n))) at 2 by done. by apply gets_fixed. Qed.

Lemma gets_signed n v : (0 < n)%nat → - 2 ^ (8 * Z.of_nat n - 1) ≤ v < 2 ^ (8 * Z.of_nat n - 1) →
  gets_from (read_fixed n ≫= λ v, mret (signed n v)) (fixed_bytes little n v) v.
Proof. intros Hn Hv. rewrite <-(signed_mod n v) at 2 by done. apply gets_map. by apply gets_fixed. Qed.

Lemma gets_u8 v : 0 ≤ v < 2 ^ 8 → gets_from readFuint8 (le_bytes 1 v) v.
Proof. intros Hv. cbn [le_bytes]. rewrite <-(byte_of_byte v) at 2 by lia. apply gets_byte. Qed.

Lemma gets_s8 v : - 2 ^ 7 ≤ v < 2 ^ 7 → gets_from readFint8 (le_bytes 1 v) v.
Proof.
  intros Hv. unfold readFint8. rewrite <-(signed_mod 1 v) at 2 by (done || lia). apply gets_map.
  cbn [le_bytes]. change (2 ^ (8 * Z.of_nat 1)) with 256. rewrite <-(byte_of_mod v). apply gets_byte.
Qed.

(** Every item is written as some bytes its counterpart reads it back from. *)
Lemma item_bytes x : item_ok x → ∃ bs, puts (write_item x) bs ∧ gets_from (read_item x) bs x.
Proof.
  destruct x as [v|v|v|v|v|v|v|v|v|v|v|v|v|v|s|s|s|s]; cbn [item_ok write_item read_item];
    try intros Hv; eexists.
  - split; [apply puts_write|by apply gets_map, gets_s8].
  - split; [apply puts_write|by apply gets_map, gets_u8].
  - split; [apply puts_fixed|apply gets_map, (gets_signed 2); [lia|done]].
  - split; [apply puts_fixed|apply gets_map, (gets_unsigned 2); [lia|done]].
  - split; [apply puts_fixed|apply gets_map, (gets_signed 4); [lia|done]].
  - split; [apply puts_fixed|apply gets_map, (gets_unsigned 4); [lia|done]].
  - split; [apply puts_fixed|apply gets_map, (gets_signed 8); [lia|]]. unfold in_i64, INT64_MIN, INT64_MAX in Hv.
    change (8 * Z.of_nat 8 - 1) with 63. lia.
  - split; [apply puts_fixed|apply gets_map, (gets_unsigned 8); [lia|done]].
  - destruct (zigzag32 v Hv) as [He Hd]. split; [apply puts_write|]. apply gets_map.
    unfold readInt32. rewrite <-Hd at 2. by apply gets_map, gets_uint32.
  - split; [apply puts_write|by apply gets_map, gets_uint32].
  - destruct (zigzag64 v Hv) as [He Hd]. split; [apply puts_write|]. apply gets_map.
    unfold readInt64. rewrite <-Hd at 2. by apply gets_map, gets_uint64.
  - split; [apply puts_write|by apply gets_map, gets_uint64].
  - split; [apply puts_fixed|apply gets_map, (gets_unsigned 4); [lia|done]].
  - split; [apply puts_fixed|apply gets_map, (gets_unsigned 8); [lia|done]].
  - destruct Hv as [Hne Hv]. pose proof (str_size_pos s).
    split; [apply puts_string, puts_fixed|]. apply gets_map, gets_string; [done|]. rewrite Z.mod_small by lia.
    apply (gets_unsigned 2); [lia|]. split; [done|exact Hv].
  - destruct Hv as [Hne Hv]. pose proof (str_size_pos s).
    split; [apply puts_string, puts_fixed|]. apply gets_map, gets_string; [done|]. rewrite Z.mod_small by lia.
    apply (gets_unsigned 4); [lia|]. split; [done|exact Hv].
  - destruct Hv as [Hne Hv]. pose proof (str_size_pos s).
    split; [apply puts_string, puts_fixed|]. apply gets_map, gets_string; [done|].
    apply (gets_unsigned 8); [lia|]. split; [done|exact Hv].
  - destruct Hv as [Hne Hv]. pose proof (str_size_pos s).
    split; [apply puts_string, puts_write|]. apply gets_map, gets_string; [done|]. by apply gets_uint64.
Qed.

Lemma items_bytes l : Forall item_ok l →
  ∃ bs, puts (write_items l) bs ∧ gets_from (read_items l) bs l.
Proof.
  induction 1 as [|x l Hx _ (bs2 & Hp2 & Hg2)]; [exists []; split; [apply puts_ret|apply gets_ret]|].
  destruct (item_bytes x Hx) as (bs1 & Hp1 & Hg1). exists (bs1 ++ bs2). split; [by apply puts_bind|].
  cbn [read_items]. eapply gets_bind; [done|]. rewrite <-(app_nil_r bs2). eapply gets_bind; [done|]. apply gets_ret.
Qed.
End typed.

(** ** Buffers *)

Definition iov_bytes (nodes : list Bytes) (v : iovec) : Bytes :=
  take (iov_len v) (drop (iov_base v) (default [] (nodes !! iov_node v))).

Lemma buffers_spec B fuel nodes k npos len : (0 < B)%nat →
  blocks B nodes → (k < length nodes)%nat → (npos < B)%nat →
  (k * B + npos + len ≤ B * length nodes)%nat → (length nodes - k ≤ fuel)%nat → (0 < len)%nat →
  ∃ l, buffers_loop fuel nodes (Some k) npos len = Some l ∧
    (l ≫= iov_bytes nodes) = take len (drop (k * B + npos) (concat nodes)).
Proof.
  intros HB Hb. revert npos len k. induction fuel as [|fuel IH]; intros npos len k Hk Hn Hmax Hf Hs; [lia|].
  destruct len as [|len']; [lia|]. cbn [buffers_loop]. set (len := S len') in *.
  destruct (lookup_lt_is_Some_2 nodes k Hk) as [node Hnode].
  assert (length node = B) as Hlen by (by eapply Forall_lookup_1 in Hb).
  cbn [mbind option_bind]. rewrite Hnode. cbn [mbind option_bind]. rewrite Hlen.
  destruct (Nat.leb_spec len (B - npos)).
  - eexists. split; [done|]. cbn [mbind list_bind]. rewrite app_nil_r. unfold iov_bytes. cbn [iov_len iov_base iov_node]. rewrite Hnode. symmetry. by apply take_block; [..|lia].
  - assert (S k < length nodes)%nat as Hk1 by nia.
    destruct (IH 0%nat (len - (B - npos))%nat (S k)) as (l & Hl & Hbytes); [lia..|].
    assert (next_node nodes k = Some (S k)) as ->.
    { unfold next_node. by destruct (Nat.ltb_spec (S k) (length nodes)); [|lia]. }
    rewrite Hl. eexists. split; [done|]. rewrite bind_cons, Hbytes.
    change (iov_bytes nodes (mkIov k npos (B - npos))) with (take (B - npos) (drop npos (default [] (nodes !! k)))).
    rewrite Hnode. change (default [] (Some node)) with node.
    rewrite <-(take_block B HB nodes k node npos (B - npos)) by (done || lia).
    set (X := drop (k * B + npos) (concat nodes)).
    replace (S k * B + 0)%nat with (k * B + npos + (B - npos))%nat by lia. rewrite <-drop_drop. fold X.
    rewrite take_take_drop. f_equal. lia.
Qed.

Lemma getReadBuffers_ok len b : ba_ok b → ∃ l, 
  getReadBuffers len b = (b, Ret (Nat.min len (getReadSize b), l)) ∧
  (l ≫= iov_bytes (m_nodes b)) = take len (drop (m_position b) (contents b)).
Proof.
  intros Hok. pose proof Hok as [H0 Hb Hne Hc Hsz Hps Hcur]. unfold getReadBuffers.
  assert (take len (drop (m_position b) (contents b)) =
          take (Nat.min len (getReadSize b)) (drop (m_position b) (concat (m_nodes b)))) as ->.
  { rewrite drop_contents by done. by rewrite take_take. }
  destruct (Nat.eqb_spec (Nat.min len (getReadSize b)) 0) as [E|E].
  { exists []. rewrite E. done. }
  unfold getReadSize in *. destruct (cur_node_at b Hok ltac:(lia)) as (Hcu & Hk & _).
  destruct (pos_split b Hok) as [Hsp Hmod].
  destruct (buffers_spec (m_baseSize b) (S (length (m_nodes b))) (m_nodes b) _ _ (Nat.min len (m_size b - m_position b))
    H0 Hb Hk Hmod) as (l & Hl & Hbytes); [lia..|].
  exists l. rewrite Hcu, Hl. split; [done|]. by rewrite Hbytes, <-Hsp.
Qed.

(** ** Files *)

Lemma to_file_loop_spec B fuel nodes k pos size : (0 < B)%nat →
  blocks B nodes → (k < length nodes)%nat → (k * B ≤ pos)%nat → (pos < S k * B)%nat →
  (pos + size ≤ B * length nodes)%nat → (length nodes - k ≤ fuel)%nat → 
  to_file_loop fuel B nodes (Some k) pos size = Some (take size (drop pos (concat nodes))).
Proof.
  intros HB Hb. revert size pos k. induction fuel as [|fuel IH]; intros size pos k Hk Hp1 Hp2 Hmax Hf; [lia|].
  destruct size as [|size']; [done|]. cbn [to_file_loop]. set (size := S size') in *.
  destruct (lookup_lt_is_Some_2 nodes k Hk) as [node Hnode].
  cbn [mbind option_bind]. rewrite Hnode. cbn [mbind option_bind].
  assert (pos mod B = pos - k * B)%nat as ->.
  { symmetry. apply (Nat.mod_unique pos B k); lia. }
  set (len := Nat.min (B - (pos - k * B)) size).
  rewrite <-(take_block B HB nodes k node (pos - k * B) len) by (done || lia).
  replace (k * B + (pos - k * B))%nat with pos by lia.
  destruct (decide (len = size)) as [Heq|Hne].
  - rewrite Heq, Nat.sub_diag. assert (∀ cur, to_file_loop fuel B nodes cur (pos + size) 0 = Some []) as -> by (by destruct fuel).
    simpl. by rewrite app_nil_r.
  - assert (S k < length nodes)%nat by nia.
    assert (next_node nodes k = Some (S k)) as ->.
    { unfold next_node. by destruct (Nat.ltb_spec (S k) (length nodes)); [|lia]. }
    rewrite IH by lia. simpl. f_equal. rewrite <-drop_drop. rewrite take_take_drop. f_equal. lia.
Qed.

Lemma writeToFile_ok b : ba_ok b → writeToFile b = (b, Ret (drop (m_position b) (contents b))).
Proof.
  intros Hok. pose proof Hok as [H0 Hb Hne Hc Hsz Hps Hcur]. unfold writeToFile, getReadSize.
  destruct (decide (m_position b = m_size b)) as [E|E].
  { rewrite drop_ge by (rewrite contents_length by done; lia).
    by replace (m_size b - m_position b)%nat with 0%nat by lia. }
  destruct (cur_node_at b Hok ltac:(lia)) as (Hcu & Hk & _). destruct (pos_split b Hok) as [Hsp Hmod].
  rewrite Hcu, to_file_loop_spec, drop_contents; [done|done|done|done|lia..].
Qed.

Section from_file.
Context (junk : nat → nat → ascii).

Lemma puts_file little fuel base ifs : (0 < base)%nat → (length ifs < fuel)%nat →
  puts little (from_file_loop junk fuel base ifs) ifs.
Proof.
  intros Hb. revert ifs. induction fuel as [|fuel IH]; intros ifs Hf; [lia|]. simpl.
  match goal with |- puts _ ?w0 _ => set (w := w0) end. rewrite <-(take_drop base ifs). subst w. apply puts_bind; [apply puts_write|].
  destruct (Nat.ltb_spec (length ifs) base).
  - rewrite drop_ge by lia. apply puts_ret.
  - apply IH. rewrite length_drop. lia.
Qed.
End from_file.

(** ** The flat buffer *)

Inductive BaOp : Type :=
  | OWrite (buf : Bytes) | ORead (n : nat) | OSetPosition (v : nat) | OClear | OToString | OReadBuffers (len : nat)
  | OToFile | OFromFile (ifs : Bytes).

(** What an operation shows: bytes, or [std::out_of_range]. *)
Inductive BaOut : Type := OutBytes (l : Bytes) | OutThrow | OutCrash.

Definition out_of {A} (f : A → Bytes) (r : BR A) : BaOut :=
  match r with Ret a => OutBytes (f a) | OutOfRange => OutThrow | NullDeref => OutCrash end.

Record Flat : Type := mkFlat { f_position : nat; f_data : Bytes }.

(** [None] for the two uses a flat buffer has no answer for: a read of no bytes, which may
    look at a block that is not there, and a position behind the end. *)
Definition flat_op (op : BaOp) (f : Flat) : option (Flat * BaOut) :=
  let '(mkFlat p d) := f in
  match op with
  | OWrite buf => Some (mkFlat (p + length buf) (overwrite p buf d), OutBytes [])
  | ORead n =>
      if (n =? 0)%nat then None
      else if (length d - p <? n)%nat then Some (f, OutThrow)
      else Some (mkFlat (p + n) d, OutBytes (take n (drop p d)))
  | OSetPosition v => if (v <=? length d)%nat then Some (mkFlat v d, OutBytes []) else None
  | OClear => Some (mkFlat 0 [], OutBytes [])
  | OToString => Some (f, OutBytes (drop p d))
  | OReadBuffers len => Some (f, OutBytes (take len (drop p d)))
  | OToFile => Some (f, OutBytes (drop p d))
  | OFromFile ifs => Some (mkFlat (p + length ifs) (overwrite p ifs d), OutBytes [])
  end.

Fixpoint flat_ops (ops : list BaOp) (f : Flat) : option (Flat * list BaOut) :=
  match ops with
  | [] => Some (f, [])
  | op :: ops => '(f, o) ← flat_op op f; '(f, os) ← flat_ops ops f; Some (f, o :: os)
  end.

Section flat.
Context (junk : nat → nat → ascii).

Definition ba_op (op : BaOp) (b : ByteArray) : ByteArray * BaOut :=
  match op with
  | OWrite buf => let '(b, r) := write junk buf b in (b, out_of (λ _, []) r)
  | ORead n => let '(b, r) := read n b in (b, out_of id r)
  | OSetPosition v => let '(b, r) := setPosition v b in (b, out_of (λ _, []) r)
  | OClear => let '(b, r) := clear b in (b, out_of (λ _, []) r)
  | OToString => let '(b, r) := toString b in (b, out_of chars r)
  | OReadBuffers len =>
      let '(b, r) := getReadBuffers len b in (b, out_of (λ x, x.2 ≫= iov_bytes (m_nodes b)) r)
  | OToFile => let '(b, r) := writeToFile b in (b, out_of id r)
  | OFromFile ifs => let '(b, r) := readFromFile junk ifs b in (b, out_of (λ _, []) r)
  end.

Fixpoint ba_ops (ops : list BaOp) (b : ByteArray) : ByteArray * list BaOut :=
  match ops with
  | [] => (b, [])
  | op :: ops => let '(b, o) := ba_op op b in let '(b, os) := ba_ops ops b in (b, o :: os)
  end.

Definition shows (b : ByteArray) (f : Flat) : Prop :=
  ba_ok b ∧ m_position b = f_position f ∧ contents b = f_data f.

Lemma ba_op_flat op b f f' o : shows b f → flat_op op f = Some (f', o) →
  ∃ b', ba_op op b = (b', o) ∧ shows b' f'.
Proof.
  intros (Hok & Hp & Hd) H. destruct f as [p d]. simpl in Hp, Hd.
  pose proof (contents_length b Hok) as Hlen. rewrite Hd in Hlen. pose proof Hok as [_ _ _ _ Hsz Hps _].
  destruct op as [buf|n|v| | |len| |ifs]; cbn [flat_op ba_op] in *.
  - destruct (ba_write_ok junk buf b Hok) as (b' & -> & Hok' & Hp' & Hd' & _). injection H as <- <-.
    exists b'. split; [done|]. split_and!; simpl; [done|congruence|congruence].
  - destruct (Nat.eqb_spec n 0); [done|]. destruct (Nat.ltb_spec (length d - p) n); injection H as <- <-.
    + rewrite read_short by (unfold getReadSize; lia). exists b. by split.
    + destruct (ba_read_ok n b Hok) as (b' & -> & Hok' & Hp' & Hd' & _); [unfold getReadSize; lia|lia|].
      exists b'. split; [simpl; by rewrite Hp, Hd|]. split_and!; simpl; [done|congruence|congruence].
  - destruct (Nat.leb_spec v (length d)); [|done]. injection H as <- <-.
    destruct (setPosition_ok v b Hok) as (b' & -> & Hok' & Hp' & Hs' & Hd' & _); [lia|].
    exists b'. split; [done|]. split_and!; simpl; [done|done|].
    rewrite <-Hd, <-Hd'. rewrite take_ge; [done|]. rewrite contents_length by done. lia.
  - injection H as <- <-. destruct (clear_ok b Hok) as (b' & -> & Hok' & Hp' & Hd' & _). by exists b'.
  - injection H as <- <-. rewrite toString_ok by done. exists b. split; [simpl; by rewrite chars_text, Hp, Hd|by split].
  - injection H as <- <-. destruct (getReadBuffers_ok len b Hok) as (l & -> & Hl). exists b.
    split; [simpl; by rewrite Hl, Hp, Hd|by split].
  - injection H as <- <-. rewrite writeToFile_ok by done. exists b. split; [simpl; by rewrite Hp, Hd|by split].
  - injection H as <- <-. pose proof Hok as [Hb _ _ _ _ _ _]. unfold readFromFile.
    destruct (puts_file junk (m_little b) (S (length ifs)) (m_baseSize b) ifs Hb ltac:(lia) b Hok eq_refl)
      as (b' & -> & Hok' & Hp' & Hd' & _).
    exists b'. split; [done|]. split_and!; simpl; [done|congruence|congruence].
Qed.

Lemma ba_ops_flat ops b f f' os : shows b f → flat_ops ops f = Some (f', os) →
  ∃ b', ba_ops ops b = (b', os) ∧ shows b' f'.
Proof.
  revert b f os. induction ops as [|op ops IH]; intros b f os Hs H; simpl in *.
  { injection H as <- <-. by exists b. }
  destruct (flat_op op f) as [[f1 o]|] eqn:E1; [|done]. cbn [mbind option_bind] in H.
  destruct (flat_ops ops f1) as [[f2 os']|] eqn:E2; [|done]. cbn [mbind option_bind] in H. injection H as <- <-.
  destruct (ba_op_flat op b f f1 o Hs E1) as (b1 & -> & Hs1).
  destruct (IH b1 f1 os' Hs1 E2) as (b2 & -> & Hs2). by exists b2.
Qed.
End flat.
