(* ===== verification/Theorems.v ===== *)
(** * The properties of the store

    The theorems a client of the store relies on, each instantiated from the lemmas of
    the components, with a concrete run that shows its hypotheses can hold.  The
    theorems quantify over the hash function, the bucket order and the random draws
    ([StdImpl]); the concrete runs use [plain_impl]. *)

From stdpp Require Import options.
From stdpp Require Import vector finite.
From S2P Require Import Prelude.
From S2P Require Import CStd.
From S2P Require Import Double.
From S2P Require Import Glob.
From S2P Require Import Scan.
From S2P Require Import Store.
From S2P Require Import Evict.
From S2P Require Import StoreFacts.
From S2P Require Import StrOps.
From S2P Require Import HashOps.
From S2P Require Import ListOps.
From S2P Require Import SetOps.
From S2P Require Import ZSetOps.
From S2P Require Import StreamOps.
From S2P Require Import StreamFacts.
From S2P Require Import KeySpace.
From S2P Require Import EvictFacts.
From S2P Require Import KeyOps.
From S2P Require Import Commands.
From S2P Require Import Refinement.
From S2P Require Import MultiKey.
From S2P Require Import SetAlgebra.

#[local] Set Default Proof Using "Type*".

(** ** Concrete stores *)

(** A store on which one command ran. *)
Definition after {C} `{impl : !StdImpl} `{family : !KeyCommands C} (c : C) (db : Z) (key : string)
  (now : Z) (s : KvStore) : KvStore := (run c db key now s).1.

Lemma after_wf {C} `{impl : !StdImpl} `{family : !KeyCommands C} (c : C) db key now s :
  args_ok c → wf s → wf (after c db key now s).
Proof. intros Ha Hs. by apply (commands_refine c db key now s Ha Hs). Qed.

(** The key [k] of database 0 holds [v], set at time 5. *)
Definition one_string `{impl : !StdImpl} (k v : string) : KvStore :=
  after (CSetOpt v false false (-1) (-1)) 0 k 5 KvStore0.

Lemma one_string_wf `{impl : !StdImpl} k v : wf (one_string k v).
Proof. apply after_wf; [exact I|apply wf_init]. Qed.

Section theorems.
Context `{impl : !StdImpl}.

(** ** Refinement of the abstract keyspace *)

(** C2: A freshly created store that runs any sequence of the one-key commands of the
    six families, at times that never run backwards, gives the replies of the abstract
    keyspace (a map from database and key to a typed value with an expiry time, from
    which nothing is ever removed because of time), stays well-formed, and shows from
    then on exactly the unexpired values of that keyspace.  No memory limit is set. *)
Theorem store_refines_keyspace (rqs : list (Request Command)) (t : Z) :
  Forall (λ rq, args_ok (rq_cmd rq)) rqs → clock_from t rqs →
  (run_all rqs KvStore0).2 = (spec_all rqs empty_keyspace).2 ∧
  wf (run_all rqs KvStore0).1 ∧
  (∀ t' db key, last_clock t rqs ≤ t' →
     view (run_all rqs KvStore0).1 t' db key =
     av_live t' ((spec_all rqs empty_keyspace).1 db key)).
Proof.
  intros Ha Hc. apply (run_all_refines rqs KvStore0 t); [apply wf_init|done..|].
  intros t' db key _. unfold view, live, raw, getShard.
  assert (m_shards KvStore0 !!! shardIdx key = Shard0) as ->
    by apply (vlookup_replicate kShardCount Shard0).
  unfold db_map, Shard0. simpl. rewrite lookup_empty. simpl. by rewrite lookup_empty.
Qed.

(** Every one-key command of the six families (strings and expiry, hashes, lists,
    sets, sorted sets, streams) does to a well-formed store what its specification on
    typed values says: the reply, the value left at the key at any time, every other key
    untouched, the store well-formed again.  A missing key and an empty container are the
    same thing, an emptied container disappears unless it is a stream, another type is
    refused and left alone. *)
Theorem families_refine (c : Command) db key now s :
  args_ok c → wf s → refines_spec c db key now s.
Proof. apply commands_refine. Qed.

(** ** Eviction *)

(** With a memory limit and an evicting policy, the loop that evicts always ends
    (the fuel it is given, one more than the number of live keys, is enough), and it
    ends with the estimated memory within the limit or with nothing left the policy
    may evict.  It only ever removes entries, and keeps the store well-formed. *)
Theorem evict_ends now s :
  evict_off s = false → wf s →
  let s' := (evictIfNeededLocked now s).1 in
  (∃ s1, evict_loop (S (length (live_entries now s))) now 0 s = Some s1 ∧ s' = s1) ∧
  (usedMemoryApprox now s' ≤ m_maxmemory s ∨ candidates now s' = []) ∧
  wf s' ∧
  (∀ db key, raw s' db key = raw s db key ∨ raw s' db key = None).
Proof.
  intros Hoff Hs s'. split_and!.
  - destruct (evict_loop_runs (S (length (live_entries now s))) now 0 s) as (s1 & Hl & _); [lia|].
    exists s1. split; [done|]. unfold s', evictIfNeededLocked. rewrite Hoff. cbn [fst]. by rewrite Hl.
  - by apply evict_result.
  - by apply evict_wf.
  - intros db key. apply evict_removes.
Qed.

(** Each eviction happens above the limit, takes a live entry the policy may
    evict and removes nothing else; under an LRU or TTL policy no sampled candidate is
    less recently used, or nearer to its expiry, than the victim; under a [volatile-]
    policy the whole loop leaves every key without an expiry time alone. *)
Theorem evict_picks now k s s' :
  wf s → evict_step now k s = Some s' →
  (∃ v, v ∈ candidates now s ∧ m_maxmemory s < usedMemoryApprox now s ∧
    (∀ i db key, db_map (m_shards s' !!! i) db !! key =
       if decide (i = c_shard v ∧ db = c_db v ∧ key = c_key v) then None
       else db_map (m_shards s !!! i) db !! key) ∧
    (use_random (m_maxmemory_policy s) = false →
     ∀ c, c ∈ take 16 (candidates now s) →
       (use_ttl (m_maxmemory_policy s) = true → c_ttl_left v ≤ c_ttl_left c) ∧
       (use_ttl (m_maxmemory_policy s) = false → use_lru (m_maxmemory_policy s) = true →
        c_lru v ≤ c_lru c))) ∧
  (volatile_only (m_maxmemory_policy s) = true →
   ∀ db key e, raw s db key = Some e → e_expire_at_ms e ≤ 0 →
     raw (evictIfNeededLocked now s).1 db key = Some e).
Proof.
  intros Hs (v & Hv & -> & Hm & Hc)%evict_step_Some. split; [exists v; split_and!; [done|done| |]|].
  - intros. apply evict_victim_map.
  - intros Hr. by eapply choose_victim_least.
  - intros Hvol db key e He Hx. by apply evict_volatile.
Qed.

(** ** Several keys at once *)

(** On keys that all hold sets, [SINTER], [SUNION] and [SDIFF] answer the sorted
    members, each once, of the intersection, of the union, and of the first set without
    the others; the [STORE] forms make the destination exactly that set (the key
    disappears when it is empty), drop its expiry, answer the cardinality and change no
    other key; a source of another type makes them answer the error and change nothing. *)
Theorem set_algebra db dest keys now s X Xs :
  Forall2 (λ v X, val_set v = Some (Some X)) (views s now db keys) (X :: Xs) →
  (lists_set (setInter db keys now s).2 (λ m, m ∈ X ∧ Forall (m ∈.) Xs) ∧
   lists_set (setUnion db keys now s).2 (λ m, m ∈ X ∨ Exists (m ∈.) Xs) ∧
   lists_set (setDiff db keys now s).2 (λ m, m ∈ X ∧ Forall (m ∉.) Xs)) ∧
  ∀ keys', keys' ≠ [] →
    let vals := views s now db keys' in
    stores_fold db dest now s (spec_inter None vals) (setInterStore db dest keys' now) ∧
    stores_fold db dest now s (spec_union ∅ vals) (setUnionStore db dest keys' now) ∧
    stores_fold db dest now s (spec_diff vals) (setDiffStore db dest keys' now).
Proof.
  intros H. split; [by apply set_algebra_members|]. intros keys' Hk. by apply set_algebra_stores.
Qed.

(** Commands over several keys.  [DEL] counts the distinct live keys among its
    arguments, removes exactly the keys named and keeps the store well-formed; [EXISTS]
    counts the live keys among its arguments, with repetitions, and changes nothing a
    client can see.  [MSETNX] is all or nothing: when no key of the pairs is live it
    answers 1 and sets every one of them to its value (the last one given, without an
    expiry), otherwise it answers 0 and changes nothing. *)
Theorem many_keys db keys pairs now s :
  let del := delMany db keys now s in
  let ex := existsMany db keys now s in
  let set := msetnx db pairs now s in
  let free := forallb (λ p, negb (is_live s now db p.1)) pairs in
  (del.2 = Z.of_nat (size (filter (λ key, is_live s now db key = true) (list_to_set keys : gset string))) ∧
   (wf s → wf del.1) ∧
   (∀ t db' key', now ≤ t → view del.1 t db' key' =
      if decide (db' = db ∧ key' ∈ keys) then None else view s t db' key')) ∧
  (ex.2 = Z.of_nat (length (filter (λ key, is_live s now db key = true) keys)) ∧ unchanged now s ex.1) ∧
  set.2 = (if free then 1 else 0) ∧
  (wf s → wf set.1) ∧
  (∀ t db' key', now ≤ t → view set.1 t db' key' =
     match (list_to_map (reverse pairs) : gmap string string) !! key' with
     | Some v => if free && bool_decide (db' = db) then Some (plain_string v)
                 else view s t db' key'
     | None => view s t db' key'
     end).
Proof. split_and!; first [apply delMany_spec|apply existsMany_spec|apply msetnx_spec]. Qed.

(** [RENAME] and [RENAMENX] between two different keys: a missing source is the
    error -2; with NX a live destination makes it answer 0, changing nothing;
    otherwise the destination holds the source's value with its expiry, the source is
    gone and nothing else changes. *)
Theorem rename_moves db src dst nx now s :
  src ≠ dst →
  let s' := (renameKey db src dst nx now s).1 in
  let r := (renameKey db src dst nx now s).2 in
  match view s now db src with
  | None => r = fail (-2) tt err_no_key ∧ unchanged now s s'
  | Some a =>
      if nx && is_live s now db dst then r = ok 0 tt ∧ unchanged now s s'
      else r = ok 1 tt ∧ (wf s → wf s') ∧
        ∀ t db' key', now ≤ t → view s' t db' key' =
          if decide ((db', key') = (db, src)) then None
          else if decide ((db', key') = (db, dst)) then av_live t (Some a)
          else view s t db' key'
  end.
Proof. apply renameKey_spec. Qed.

(** Two writes that no watcher hears of.  A rename onto a missing key of the same
    shard creates it without moving its watch version; [EXPIRE] with a non-positive time
    deletes a live key without moving any watch token. *)
Theorem untold_writes db src dst nx seconds now s a :
  wf s → src ≠ dst → shardIdx src = shardIdx dst → seconds ≤ 0 →
  view s now db src = Some a → view s now db dst = None →
  (let s' := (renameKey db src dst nx now s).1 in
   view s' now db dst = av_live now (Some a) ∧
   watch_version s' db dst = watch_version s db dst) ∧
  (let s' := (expire db src seconds now s).1 in
   (expire db src seconds now s).2 = 1 ∧ (∀ t, view s' t db src = None) ∧
   (∀ db' key', shard_watchToken db' key' (getShard s' key') = shard_watchToken db' key' (getShard s key'))).
Proof.
  intros Hs Hne Hsh Hn Ha Hd. cbv zeta. split.
  - split; [|apply renameKey_watch; [done|congruence|by right]].
    pose proof (renameKey_spec db src dst nx now s Hne) as H. cbv zeta in H.
    rewrite Ha in H. unfold is_live in H. rewrite Hd in H.
    rewrite bool_decide_eq_false_2, andb_false_r in H by (by intros []).
    destruct H as (_ & _ & ->); [|lia]. by rewrite decide_False, decide_True by congruence.
  - destruct (expire_deletes db src seconds now s a Hs Ha Hn). split_and!; [done|done|].
    by apply (expire_quiet (CExpire seconds)).
Qed.

(** [RPOPLPUSH] between different keys moves the last element of the source to the
    head of the destination; when the destination holds another type the element has
    already left the source and is lost. *)
Theorem rpoplpush_moves db src dst now1 now2 s l x ex :
  wf s → src ≠ dst → now1 ≤ now2 →
  view s now1 db src = Some (mkAVal (VList (l ++ [x])) ex) →
  let s' := (listRPopLPush db src dst now1 now2 s).1 in
  let r := (listRPopLPush db src dst now1 now2 s).2 in
  wf s' ∧
  (∀ t, view s' t db src = av_live t (list_value l ex)) ∧
  match list_at (view s now2 db dst) with
  | Some (m, ex') => r = mkRes true (Some x) None ∧
      ∀ t, view s' t db dst = av_live t (Some (mkAVal (VList (x :: m)) ex'))
  | None => r = mkRes false (Some x) (Some kWrongType) ∧
      ∀ t, now2 ≤ t → view s' t db dst = view s t db dst
  end.
Proof. apply rpoplpush_spec. Qed.

(** ** Whole databases *)

(** [DBSIZE] answers the number of live keys of the database, over all shards;
    [KEYS] answers the live keys that match the pattern, in ascending order, each once;
    neither changes anything a client can see.  A client that follows the cursors of
    [SCAN] from 0 until 0 comes back, while nothing else runs, gets exactly the answer of
    [KEYS], after at most one call more than there are keys. *)
Theorem databases_listed db pattern count now s :
  wf s → 0 < count →
  let l := (keys db pattern now s).2 in
  unchanged now s (keys db pattern now s).1 ∧ unchanged now s (dbsize db now s).1 ∧
  StronglySorted String.le l ∧ NoDup l ∧
  (∀ key, key ∈ l ↔ is_live s now db key = true ∧ matchGlob pattern key = true) ∧
  (∃ X : gset string, (∀ key, key ∈ X ↔ is_live s now db key = true) ∧
     (dbsize db now s).2 = Z.of_nat (size X)) ∧
  (scan_client (S (length l)) db 0 pattern count now s).2 = Some l.
Proof.
  intros Hs Hn. cbv zeta. destruct (keys_spec db pattern now s Hs) as [Hu ->].
  destruct (dbsize_spec db now s Hs) as [Hd HX].
  rewrite scan_client_spec, scan_all_complete by done.
  split_and!; [done|done|apply all_keys_sorted|by apply all_keys_NoDup| |done|done].
  intros key. by apply all_keys_elem.
Qed.

(** [FLUSHDB] empties its database and no other, [FLUSHALL] every database; they
    change the watch token of every key of the database, respectively of the 16
    databases, even when the epoch counter wraps around.  The background purge changes
    nothing a client can see, answers the number of entries it freed, and leaves no
    expired entry in a map it could visit in full. *)
Theorem sweeps_exact db max_scan now s :
  (let s' := (flushdb db s).1 in
   (wf s → wf s') ∧
   (∀ t db' key, view s' t db' key = if decide (db' = db) then None else view s t db' key) ∧
   (∀ key, shard_watchToken db key (getShard s' key) ≠ shard_watchToken db key (getShard s key))) ∧
  (let s' := (flushall s).1 in
   wf s' ∧ (∀ t db key, view s' t db key = None) ∧
   (∀ db key, 0 ≤ db < Z.of_nat kMaxDb →
      shard_watchToken db key (getShard s' key) ≠ shard_watchToken db key (getShard s key))) ∧
  (let s' := (purgeExpiredActive max_scan now s).1 in
   unchanged now s s' ∧
   (purgeExpiredActive max_scan now s).2 = stored s - stored s' ∧
   (∀ db key e, Z.of_nat (size (db_map (getShard s key) db)) ≤ max_scan → 0 < max_scan →
      raw s' db key = Some e → isExpired e now = false)).
Proof. split_and!; [apply flushdb_spec|apply flushall_spec|apply purgeExpiredActive_spec]. Qed.

(** ** Strings *)

(** Any sequence of [INCRBY]s on a key that holds a counter without an expiry
    leaves the decimal form of the sum, wrapped to 64 bits: the number written by one
    is read back by the next, and an overflow is not an error but wraps around. *)
Theorem counter_adds db key ds s n :
  wf s → in_i64 n → (∀ t, view s t db key = counter_value n 0) →
  ∀ t, view (incr_all db key ds s).1 t db key = counter_value (i64 (n + sumZ ds.*1)) 0.
Proof. apply incr_all_counter. Qed.

End theorems.

(** ** Sorted sets *)

(** The ranking of a sorted set without NaN scores is its members, each once, with
    their scores, ascending by score and then by member; the reverse ranking is exactly
    its mirror image.  The rank [ZRANK] and [ZREVRANK] find for a member is the number of
    members that come before it, and the single pass of [ZPOPMIN] and [ZPOPMAX] over the
    members picks the first of the ranking. *)
Theorem ranking z :
  no_nan z →
  (StronglySorted (not_above (rank_lt false)) (rankedZset z false) ∧
   NoDup (rankedZset z false).*2 ∧
   (∀ d m, (d, m) ∈ rankedZset z false ↔ z !! m = Some d) ∧
   rankedZset z true = reverse (rankedZset z false)) ∧
  (∀ reverse m d, z !! m = Some d →
   ∃ i, list_find (λ p, p.2 = m) (rankedZset z reverse) = Some (i, (d, m)) ∧
        i = size (filter (λ kv, rank_lt reverse (kv.2, kv.1) (d, m) = true) z)) ∧
  (∀ max, zpop_best max z = (λ p, (p.2, p.1)) <$> head (rankedZset z max)).
Proof.
  intros Hz. split; [split_and!|split].
  - by apply rankedZset_sorted.
  - apply rankedZset_members_nodup.
  - intros d m. apply rankedZset_elem.
  - by apply rankedZset_reverse.
  - intros reverse m d. by apply rank_counts.
  - intros max. by apply zpop_best_ranked.
Qed.

(** The options of [ZADD]: no member is ever lost and the first count is the number
    of new ones; with NX every old score stays; with XX no member is added; with GT a
    score only goes up.  [ZRANGEBYSCORE] keeps of the ranking the scores within the
    bounds, drops the first [offset] and takes [count] of them (at least one: the limit
    is looked at after an item was added); [ZCOUNT] counts the members within the
    bounds. *)
Theorem zadd_and_byscore opt z members :
  Forall (λ p, d_is_nan p.1 = false) members → no_nan z →
  (let '(z', added, updated) := zadd_opt_loop opt z members in
   dom z ⊆ dom z' ∧ added = Z.of_nat (size z') - Z.of_nat (size z) ∧
   (nx opt = true → z ⊆ z') ∧
   (xx opt = true → dom z' = dom z) ∧
   (gt opt = true → ∀ m old new, z !! m = Some old → z' !! m = Some new →
      new = old ∨ d_ltb old new = true)) ∧
  ∀ min max offset count ranked,
    byscore_loop min max offset count ranked 0 [] =
      (λ p, (p.2, p.1)) <$>
        limit_items offset count (filter (λ p, scoreInRange p.1 min max = true) ranked) ∧
    foldl (λ n kv, if scoreInRange kv.2 min max then n + 1 else n) 0 (map_iter z) =
      Z.of_nat (size (filter (λ kv, scoreInRange kv.2 min max = true) z)).
Proof.
  intros Hm Hz. split; [|intros; split; [apply byscore_spec|apply zcount_loop_spec]].
  destruct (zadd_opt_loop opt z members) as [[z' added] updated] eqn:E.
  destruct (zadd_opt_count _ _ _ _ _ _ E) as [Hd Ha]. split_and!; [done|done|..].
  - intros Hnx. pose proof (zadd_opt_nx opt z members Hnx) as H. by rewrite E in H.
  - intros Hxx. pose proof (zadd_opt_xx opt z members Hxx) as H. by rewrite E in H.
  - intros Hgt m old new Hold Hnew. eapply (zadd_opt_gt opt z members m); [done|done| |by eapply Hz|done].
    by rewrite E.
Qed.

(** ** Streams *)

(** [XADD *] answers an identifier above every one the stream ever used, appends
    the entry under it and keeps the identifiers strictly increasing and distinct, also
    when the clock stands still or runs backwards, until the sequence number is used up. *)
Theorem xadd_increases now fields v ids :
  ids_ok v ids → 0 ≤ sv_last_ms v → 0 ≤ sv_last_seq v < UINT64_MAX →
  let '(ms, seq) := next_auto now v in
  id_lt (sv_last_ms v, sv_last_seq v) (ms, seq) ∧
  ∃ v', xadd_step now "*" fields v = inr (v', formatStreamId ms seq) ∧
        ids_ok v' (ids ++ [(ms, seq)]) ∧ NoDup (se_id <$> sv_entries v').
Proof.
  intros Hids Hms Hseq. pose proof (xadd_ids now fields v ids Hids Hms Hseq) as H.
  destruct (next_auto now v) as [ms seq]. destruct H as (Hlt & v' & Hx & Hv').
  split; [done|]. exists v'. split_and!; [done|done|]. apply stream_ids_distinct. by eexists.
Qed.

(** The deliveries of a consumer group.  [XREADGROUP] adds to the pending lists
    exactly the entries it delivers, each of them in the stream, at most [count]; [XACK]
    takes out as many deliveries as it answers, all of them named by the client;
    [XCLAIM] moves deliveries between consumers without losing or duplicating any, and
    returns entries of the stream that the client named.  All keep delivery records only
    for pending identifiers. *)
Theorem group_deliveries `{impl : !StdImpl} group v :
  (∀ now consumer id count v' picked,
   read_group_step now group consumer id count v = Some (v', picked) →
   ∃ gs gs',
     sv_groups v !! group = Some gs ∧ v' = with_groups v (<[group := gs']> (sv_groups v)) ∧
     pending_ids (gs_consumers gs') ≡ₚ (se_id <$> picked) ++ pending_ids (gs_consumers gs) ∧
     (∀ item, item ∈ picked → item ∈ sv_entries v) ∧
     (0 < count → Z.of_nat (length picked) ≤ count) ∧ (group_ok gs → group_ok gs')) ∧
  (∀ ids v' acked,
   xack_step group ids v = Some (v', acked) →
   ∃ gs gs' removed,
     sv_groups v !! group = Some gs ∧ v' = with_groups v (<[group := gs']> (sv_groups v)) ∧
     gs_last_id gs' = gs_last_id gs ∧
     pending_ids (gs_consumers gs) ≡ₚ removed ++ pending_ids (gs_consumers gs') ∧
     acked = Z.of_nat (length removed) ∧ Forall (.∈ ids) removed ∧
     (group_ok gs → group_ok gs')) ∧
  (∀ now consumer min_idle_ms ids force v' out,
   xclaim_step now group consumer min_idle_ms ids force v = Some (v', out) →
   ∃ gs gs',
     sv_groups v !! group = Some gs ∧ v' = with_groups v (<[group := gs']> (sv_groups v)) ∧
     pending_ids (gs_consumers gs') ≡ₚ pending_ids (gs_consumers gs) ∧
     (∀ item, item ∈ out → item ∈ sv_entries v ∧ se_id item ∈ ids) ∧
     (group_ok gs → group_ok gs')).
Proof.
  split_and!; intros; [by eapply read_group_step_spec|by eapply xack_step_spec|by eapply xclaim_step_spec].
Qed.

