(* ===== verification/ServerTheorems.v ===== *)
(** * The properties of the server

    The theorems on the protocol, the sessions, command dispatch, transactions,
    publish/subscribe, the blocking lists and the cluster slots, each instantiated from
    the lemmas of its component.  [ServerWitnesses.v] runs the conditional ones. *)

From Stdlib Require Import Ascii.
From stdpp Require Import options.
From stdpp Require Import vector finite.
From S2P Require Import Prelude.
From S2P Require Import CStd.
From S2P Require Import Double.
From S2P Require Import Glob.
From S2P Require Import Store.
From S2P Require Import Evict.
From S2P Require Import StoreFacts.
From S2P Require Import StreamOps.
From S2P Require Import StreamFacts.
From S2P Require Import KeySpace.
From S2P Require Import EvictFacts.
From S2P Require Import KeyOps.
From S2P Require Import Commands.
From S2P Require Import Refinement.
From S2P Require Import SetAlgebra.
From S2P Require Import Resp.
From S2P Require Import RespReader.
From S2P Require Import RespFacts.
From S2P Require Import ClusterSlot.
From S2P Require Import Slowlog.
From S2P Require Import PubSub.
From S2P Require Import Session.
From S2P Require Import Request.
From S2P Require Import CmdKeys.
From S2P Require Import CmdColl.
From S2P Require Import Rdb.
From S2P Require Import RdbFacts.
From S2P Require Import CmdRdb.
From S2P Require Import Aof.
From S2P Require Import Server.
From S2P Require Import Blocking.
From S2P Require Import Dispatch.
From S2P Require Import DispatchFacts.
From S2P Require Import Transactions.
From S2P Require Import StoreInv.
From S2P Require Import HandlerInv.
From S2P Require Import ServerInv.
From S2P Require Import BlockingFacts.
From S2P Require Import Answers.
From S2P Require Import AofFacts.

#[local] Set Default Proof Using "Type*".

(** ** The whole server *)

(** C1: In every state the server reaches from its start, whatever connections send for the
    commands of the table, open and close, and however blocked clients interleave: every
    entry of the store is in the shard of its key and holds only what its type says, no
    container but a stream is empty, the publish/subscribe maps agree with each other, the
    slow log is within its bound, and the blocking hub holds only waiters whose frames
    exist.  Requests for the commands of [left_out], [RESTORE] among them, are not part of
    these runs. *)
Theorem server_reach_ok `{impl : !StdImpl} clk pass aof role w :
  world_steps (World0 clk pass aof role) w → world_ok w.
Proof. intros H. eapply world_steps_ok; [exact H|apply World0_ok]. Qed.

(** C8: The handlers of the data commands, given any request, well-formed or not, keep every
    entry of the store consistent with its type: all those that see only the database
    ([DUMP] among them), and [LPUSH] and [RPUSH], which also serve blocked clients, with
    the rest of the server's invariant.  [RESTORE] is the exception: a forged payload for a
    key that is not there breaks it in any store. *)
Theorem handlers_keep_types `{impl : !StdImpl} :
  Forall (λ h : DataHandler, ∀ db req s clk, wf s → wf (h db req (s, clk)).1.1) (key_handlers ++ coll_handlers) ∧
  Forall (λ h : Handler, ∀ req e e' r, world_ok (e_world e) → h req e = Some (e', r) → world_ok (e_world e'))
    [cmd_LPUSH; cmd_RPUSH] ∧
  ∀ reserves db key s clk, view s (clk 0%nat) db key = None →
    ¬ wf (cmd_RESTORE reserves db (bulks ["RESTORE"; key; "0"; text (forged 2)]) (s, clk)).1.1.
Proof.
  split; [|split].
  - apply Forall_app. split; (eapply Forall_impl; [first [apply key_handlers_wf|apply coll_handlers_wf]|]);
      intros h Hh db req s clk; apply (Hh db req (s, clk)).
  - apply Forall_cons; split; [intros req; exact (mw_push "lpush" true req)|].
    apply Forall_singleton. intros req. exact (mw_push "rpush" false req).
  - intros reserves db key s clk Hv. by apply restore_breaks.
Qed.

(** C11: Every request is answered: a request that is not a blocking command, and whose
    transaction, if it is an [EXEC], holds none, gets a reply whatever the state. *)
Theorem requests_answered `{impl : !StdImpl} pushed yield scheduled clients fuel req e :
  upperArg (astr req 0) ∉ ["BLPOP"; "BRPOP"; "BRPOPLPUSH"] →
  Forall (λ cmd, upperArg (astr cmd 0) ∉ waiting) (c_multi_queue (e_ctx e)) →
  is_Some (dispatch (builtin pushed yield scheduled clients) (S (S fuel)) req e).
Proof. apply dispatch_answers. Qed.

(** ** The protocol *)

(** C3: What the encoder writes, followed by anything, is read back as the same value,
    consuming exactly the bytes written; appending to the session's write buffer, with
    its shortcuts, writes the same bytes.  The value must hold no line break in a line,
    no integer the encoder gets wrong and no array too large to reserve. *)
Theorem resp_round_trip reserves v rest out :
  resp_wf reserves v →
  (∃ v', tryParse reserves (chars (encode v) ++ rest) out = Some (POk, v', String.length (encode v)) ∧
         reply_of v' = reply_of v) ∧
  ∀ wb, appendResponse v wb = wb +:+ encode v.
Proof. intros Hv. split; [by apply tryParse_encode|apply appendResponse_encode]. Qed.

(** C9: The parser ends on every input, and a value it accepts takes at least one
    character and at most one more than there are: a command is never read twice, and
    the reader runs past its buffer by one character at most (on "$-1" without its line
    break). *)
Theorem parser_bounds reserves data out :
  ∃ st v n, tryParse reserves data out = Some (st, v, n) ∧
    (st = POk → 1 ≤ n ≤ length data + 1)%nat.
Proof. apply tryParse_within. Qed.

(** C10: On a command cut anywhere the parser asks for more, and never takes the part for
    a command; the only cuts it gives up on are right after a "*" or a "$". *)
Theorem parser_incremental reserves v k out :
  is_command reserves v → (k < String.length (encode v))%nat →
  ∃ v' n,
    tryParse reserves (take k (chars (encode v))) out = Some (NeedMore, v', n) ∨
    tryParse reserves (take k (chars (encode v))) out = Some (PError_, v', n) ∧
    (last (take k (chars (encode v))) = Some "*"%char ∨ last (take k (chars (encode v))) = Some "$"%char).
Proof. apply tryParse_cut. Qed.

(** C4: [recvCommand] ends whatever the peer sends, and keeps the buffer's invariant.
    When the peer sends a command, in pieces of any size, the session receives exactly
    that command and keeps exactly the bytes behind it; unless a piece ends right after
    a "*" or a "$", on which the session is closed. *)
Theorem session_delivers reserves {net : Type} (read : net → Z → net * list ascii) fuel s n out :
  (∀ n k, 0 < k → Z.of_nat (length (read n k).2) ≤ k) → session_ok s → recv_steps s ≤ Z.of_nat fuel →
  (∃ r s' n' out', recvCommand reserves read fuel s n out = Some (r, s', n', out') ∧ session_ok s') ∧
  ∀ stream v rest,
    reads_stream read stream → (m_readPos s ≤ length (m_data s))%nat →
    is_command reserves v → Z.of_nat (String.length (encode v)) ≤ kMaxBufferSize →
    unread s ++ stream n = chars (encode v) ++ rest →
    delivered stream v rest (recvCommand reserves read fuel s n out).
Proof.
  intros Hb Hs Hf. split; [by apply recvCommand_total|]. intros. by apply recvCommand_delivers.
Qed.

(** Replies the client cannot read.  A negative integer whose last digit is not 0 is
    written as the one ten above it, and -1, which [TTL] answers, as a text that is no
    number; an error text with a line break, such as the name of an unknown command that
    the server repeats, ends at the break, and its rest is read as the next reply. *)
Theorem replies_off_protocol reserves n msg i rest out :
  - INT64_MAX ≤ n < -20 → Z.rem n 10 ≠ 0 → find_crlf (chars msg) = Some i →
  encode (resp_integer n) = ":" +:+ to_string (n + 10) +:+ crlf ∧
  encode (resp_integer (-1)) = ":-/1" +:+ crlf ∧
  (∃ v', tryParse reserves (chars (encode (resp_err msg)) ++ rest) out = Some (POk, v', (i + 3)%nat) ∧
         reply_of v' = PError (text (take i (chars msg)))) ∧
  (i + 3 < String.length (encode (resp_err msg)))%nat.
Proof.
  intros Hn Hr Hi. split_and!; [|done|by apply error_splits..].
  change (encode (resp_integer n)) with (":" +:+ appendInt64 n +:+ crlf). by rewrite appendInt64_off.
Qed.

(** ** Dispatch *)

(** Dispatch goes by the upper case of the name: the table finds exactly the
    handler registered under it, and neither the gates nor the [MULTI] step distinguish
    two spellings. *)
Theorem dispatch_by_name `{impl : !StdImpl} pushed yield scheduled clients c w raw raw' h :
  let table := builtin pushed yield scheduled clients in
  (find_handler table raw = Some h ↔ (upperArg raw, h) ∈ builtin_commands pushed yield scheduled clients) ∧
  (upperArg raw = upperArg raw' →
     gate c w raw = gate c w raw' ∧ multi_step c raw = multi_step c raw' ∧
     find_handler table raw = find_handler table raw').
Proof.
  split; [apply builtin_finds_iff|]. intros H.
  split_and!; [by apply gate_case|by apply multi_step_case|by apply find_case].
Qed.

(** The gates.  On a replica, but for the stream of its master, a command of the
    mutating list; in publish/subscribe mode, anything but the six commands allowed
    there; before authentication, when a password is required, anything but [AUTH] and
    [PING], whatever the case of the name: each is answered with an error and changes
    nothing at all. *)
Theorem gates_hold `{impl : !StdImpl} m fuel req e :
  let up := upperArg (astr req 0) in
  w_role (e_world e) = Some Slave ∧ c_repl_apply (e_ctx e) = false ∧ isMutatingCommand up = true ∨
  c_pubsub_mode (e_ctx e) = true ∧
    up ∉ ["SUBSCRIBE"; "UNSUBSCRIBE"; "PSUBSCRIBE"; "PUNSUBSCRIBE"; "PING"; "QUIT"] ∨
  w_pass (e_world e) ≠ "" ∧ c_authenticated (e_ctx e) = false ∧ up ≠ "AUTH" ∧ up ≠ "PING" →
  ∃ r, dispatch m fuel req e = Some (e, r) ∧ r_type r = RError.
Proof.
  intros up H. assert (is_Some (gate (e_ctx e) (e_world e) (astr req 0))) as [err Hg]
    by (by apply gate_closed).
  by eapply dispatch_closed.
Qed.

(** C7: A client that has not authenticated, where a password is required, sends any
    requests, of which none is [AUTH] with the password: it stays unauthenticated, and
    of everything the server holds only the clock and the slow log move. *)
Theorem unauthenticated_contained `{impl : !StdImpl} pushed yield scheduled clients fuel aof repl reqs e :
  isAuthRequired (e_world e) = true → c_authenticated (e_ctx e) = false →
  Forall (λ req, ¬ (upperArg (astr req 0) = "AUTH" ∧ astr req 1 = w_pass (e_world e))) reqs →
  ∃ e' rs, serve (builtin pushed yield scheduled clients) (S fuel) aof repl reqs e = Some (e', rs) ∧
    same_shared (e_world e) (e_world e') ∧ c_authenticated (e_ctx e') = false.
Proof. intros Hr Ha Hf. by apply locked_serve. Qed.

(** ** Transactions *)

(** In [MULTI] mode a request other than [EXEC] and [DISCARD] is answered with an
    error and changes nothing, or answered [QUEUED] and changes nothing but the queue,
    at whose end it now is. *)
Theorem multi_only_queues `{impl : !StdImpl} m fuel req e :
  c_multi_mode (e_ctx e) = true → upperArg (astr req 0) ≠ "EXEC" → upperArg (astr req 0) ≠ "DISCARD" →
  ∃ r, (dispatch m fuel req e = Some (e, r) ∧ r_type r = RError) ∨
       (dispatch m fuel req e = Some (enqueue req e, r) ∧ r = resp_queued).
Proof. apply dispatch_in_multi. Qed.

(** C6: [EXEC] answers null, runs nothing and shows no change to anyone when a watched
    token moved; otherwise it runs the queued commands in order, each on what the one
    before left and logged before the next, and answers their replies, one each, in an
    array.  Either way the connection leaves [MULTI] mode and watches nothing before the
    first command runs. *)
Theorem exec_runs_queue `{impl : !StdImpl} pushed yield scheduled clients fuel req e :
  let table := builtin pushed yield scheduled clients in
  exec_request table req e →
  Forall (λ cmd, upperArg (astr cmd 0) ∉ waiting) (c_multi_queue (e_ctx e)) →
  ∃ s', armed (w_store (e_world e)) s' ∧
  if moved (w_store (e_world e)) (c_watched (e_ctx e)) then
    ∃ w', dispatch table (S (S fuel)) req e = Some (mkEnv (left_multi (e_ctx e)) w', resp_nullBulk) ∧
          same_shared (with_store s' (e_world e)) w'
  else
    ∃ rsps e1 w',
      exec_trace (dispatchExecOne table (S fuel)) (c_multi_queue (e_ctx e))
        (mkEnv (left_multi (e_ctx e)) (with_store s' (e_world (tick e)))) rsps e1 ∧
      length rsps = length (c_multi_queue (e_ctx e)) ∧
      dispatch table (S (S fuel)) req e = Some (mkEnv (e_ctx e1) w', resp_array rsps) ∧
      same_shared (e_world e1) w'.
Proof.
  intros table Hreq Hq. destruct (moved _ _) eqn:Hm.
  - destruct (dispatch_exec_aborts table (S fuel) req e Hreq Hm) as (s' & w' & ? & ? & ?).
    exists s'. split; [done|]. by exists w'.
  - destruct (dispatch_exec_runs table (S fuel) req e Hreq Hm) as (s' & rsps & e1 & w' & Ha & Ht & Hd & Hs).
    { intros cmd e' Hin. apply one_answers. by apply (proj1 (Forall_forall _ _) Hq). }
    exists s'. split; [done|]. exists rsps, e1, w'. split_and!; [done|by eapply exec_trace_length|done..].
Qed.

(** C5: Optimistic locking.  A client that watched nothing watches keys; another one then
    runs a command of the six families that announces its writes (all but the [EXPIRE]
    forms, [TTL] and [PTTL]) and changes the value of one of them: whatever else the
    first client's context has become, its [EXEC] answers null, runs nothing and leaves
    every value as it was.  No memory limit is set, and the key's version counter has
    not wrapped. *)
Theorem optimistic_lock `{impl : !StdImpl} (c : Command) now one req_w req_x e e1 r v ctx w :
  no_nulls (drop 1 (r_array req_w)) → c_watched (e_ctx e) = [] →
  cmd_WATCH req_w e = Some (e1, r) → v ∈ drop 1 (r_array req_w) →
  args_ok c → announces c = true →
  let s := w_store (e_world e) in let s1 := w_store (e_world e1) in
  let db := c_db (e_ctx e) in let key := r_str v in
  wf s → evict_off s = true → in_u64 (watch_version s db key) →
  av_value <$> (spec c now (view s now db key)).1 ≠ av_value <$> view s now db key →
  argc req_x = 1%nat → c_multi_mode ctx = true → c_watched ctx = c_watched (e_ctx e1) →
  w_store w = (run c db key now s1).1 →
  ∃ s', cmd_EXEC one req_x (mkEnv ctx w) = Some (mkEnv (left_multi ctx) (with_store s' w), resp_nullBulk) ∧
    ∀ t db' key', view s' t db' key' = view (w_store w) t db' key'.
Proof. apply watch_then_exec. Qed.

(** [handleClient] logs a mutating command when it is answered [QUEUED]: the command
    is in the append-only file and with the replicas although it has not run, and stays
    there when the transaction is discarded and nothing of it ever runs. *)
Theorem queued_logged `{impl : !StdImpl} m fuel aof repl req dis e :
  well_formed req = true → gate (e_ctx e) (e_world e) (astr req 0) = None →
  c_multi_mode (e_ctx e) = true → upperArg (astr req 0) ∉ unqueued →
  isMutatingCommand (cmdNameFromRequest req) = true →
  well_formed dis = true → upperArg (astr dis 0) = "DISCARD" → argc dis = 1%nat →
  gate (e_ctx e) (e_world e) (astr dis 0) = None →
  find_handler m (astr dis 0) = Some (Fn (λ _, cmd_DISCARD)) → c_quit (e_ctx e) = false →
  ∃ e', serve m (S fuel) aof repl [req; dis] e = Some (e', [resp_queued; resp_ok]) ∧
    c_multi_mode (e_ctx e') = false ∧ c_multi_queue (e_ctx e') = [] ∧
    same_shared (logged aof repl req (e_world e)) (e_world e').
Proof. apply queued_then_discarded. Qed.

(** ** Blocking lists *)


(** ** Publish/subscribe *)

(** However sessions come and go, a published message goes exactly to the live
    sessions subscribed to the channel and, once per pattern, to the live sessions
    subscribed to a matching pattern; after a session was removed nothing is pushed to
    it and it has no subscription. *)
Theorem publish_reaches `{impl : !StdImpl} alive h channel :
  hub_reach alive h →
  (∀ s, s ∈ channel_targets alive channel h ↔
        alive s = true ∧ channel ∈ names_of s (si_of (hub_channels h))) ∧
  (∀ pattern s, (pattern, s) ∈ pattern_targets alive channel h ↔
        alive s = true ∧ matchGlob pattern channel = true ∧
        pattern ∈ names_of s (si_of (hub_patterns h))) ∧
  (∀ s message p, ((s, p) ∉ pushes alive channel message (removeSession alive s h)) ∧
        subscriptionCount s (removeSession alive s h) = 0).
Proof.
  intros H%hub_reach_ok. split_and!; intros; [by apply channel_targets_spec|by apply pattern_targets_spec|].
  by apply removeSession_gone.
Qed.

(** ** Cluster slots *)

(** Every key has one of the 16384 slots, and a key with a hash tag has the slot of
    its tag alone: keys that share a tag share a slot.  Every entry of the CRC table is
    eight steps of the polynomial division on its index, but entries 202 and 203, which
    are off by [0x80]; the table-driven loop computes the CRC of every text on which it
    does not meet these two, and the wrong slot for the key ["user:80"], on which it
    does. *)
Theorem slot_of_key key pre tag post data :
  0 ≤ keyToSlot key < kClusterSlotCount ∧
  (find_char "{" pre = None → find_char "}" tag = None → tag ≠ "" →
   keyToSlot (pre +:+ "{" +:+ tag +:+ "}" +:+ post) = Z.land (crc16 tag) (kClusterSlotCount - 1)) ∧
  (∀ i, (i < 256)%nat →
     default 0 (kCrc16Table !! i) = Z.lxor (table_ref i) (if (i =? 202)%nat || (i =? 203)%nat then 0x80 else 0)) ∧
  (avoids_wrong 0 (chars data) = true → crc16 data = crc_ref data) ∧
  keyToSlot "user:80" ≠ Z.land (crc_ref "user:80") (kClusterSlotCount - 1).
Proof.
  split_and!; [apply keyToSlot_range..|apply keyToSlot_tagged|apply table_steps|apply crc16_ref|apply crc16_wrong].
Qed.

(** ** Persistence *)


(** A snapshot cut anywhere behind its magic is never loaded: the call fails and the
    store stays as it is. *)
Theorem rdb_truncated `{impl : !StdImpl} reserves json saved_at now now' s s0 k :
  storable reserves now s → (7 ≤ k < length (dump saved_at now s))%nat →
  ∃ o, loadFromString reserves json (take k (dump saved_at now s)) now' s0 = (s0, o) ∧ o ≠ Done (ok true tt).
Proof. apply load_truncated. Qed.

(** What [DUMP] answers for a key, [RESTORE] takes under another, on this store or
    another: the value is the same, with the expiry the request says, unless the key is
    there already; [DUMP] changes nothing.  But [RESTORE] checks nothing behind the magic
    of a payload: a hand-made one leaves a list without elements, which no other command
    does and the invariant of the store excludes; another an entry whose type is no
    enumerator. *)
Theorem dump_restores `{impl : !StdImpl} reserves db key db2 key2 req req2 e ttl s clk s2 clk2 :
  argc req = 2%nat → anull req 1 = false → astr req 1 = key →
  live s (clk 0%nat) db key = Some e → wf s → wf s2 →
  in_i64 (e_expire_at_ms e) → storable_value reserves (entry_value e) →
  argc req2 = 4%nat → anull req2 1 = false → anull req2 2 = false → anull req2 3 = false →
  astr req2 1 = key2 → parseInt64Arg' (arg req2 2) = Some ttl →
  astr req2 3 = r_str (cmd_DUMP db req (s, clk)).2 →
  (cmd_DUMP db req (s, clk)).1.1 = s ∧
  (∃ s2' o, cmd_RESTORE reserves db2 req2 (s2, clk2) = ((s2', λ k, clk2 (S k)), restore_reply o) ∧
    restored db2 key2 ttl (clk2 0%nat) false (entry_value e) s2 (s2', o)) ∧
  (∀ now, view s2 now db2 key2 = None →
    (let r := restoreKey reserves db2 key2 0 (forged 2) false now s2 in
     r.2 = Done (ok true tt) ∧ (∀ t, view r.1 t db2 key2 = Some (mkAVal (VList []) 0)) ∧ ¬ wf r.1) ∧
    (restoreKey reserves db2 key2 0 (forged 9) false now s2).2 = NoType).
Proof.
  intros. split; [|split].
  - by eapply dump_then_restore.
  - by eapply dump_then_restore.
  - intros now. apply restore_forged.
Qed.

(** C14: The append-only file: [rewrite], then [replay] of its text on a fresh server
    through the parser, the dispatcher and the handlers, ends with true and a well-formed
    store that shows every value of the old one, each with an expiry that is due, counted
    from a reading of the clock during the replay, as late as it was after the rewrite
    and at most 999 ms later, and nothing else.  The store must have one database, no
    stream, scores of six digits, expiries before the year 38 million and sizes the
    parser takes. *)
Theorem aof_round_trip `{impl : !StdImpl} reserves pushed yield scheduled clients fuel d now s w :
  let run_one := dispatch (builtin pushed yield scheduled clients) (S fuel) in
  only_db d s → 0 ≤ d ≤ 15 → wf s → in_time now → fresh w →
  Forall (λ kv, rewritable kv.2) (snap_get d (snapshot now s)) →
  Forall (λ req, fits reserves (args_of req)) (buildRewriteCommands now s) →
  ∃ w' K, replay reserves run_one (rewrite now s) w = Some (w', ok true tt) ∧ wf (w_store w') ∧
    (∃ n, ∀ k, w_clock w' k = w_clock w (n + k)%nat) ∧
    holds_keyspace (w_store w') (w_clock w' 0%nat) K ∧
    ∀ db key, match view s now db key with
              | None => K db key = None
              | Some a => kept (w_clock w) now a (K db key)
              end.
Proof. apply rewrite_replay. Qed.

(** What the append-only file loses without a word.  Where a password is required,
    a replay refuses every command of a rewritten file, leaves the server as it is and
    answers true.  With two databases, [SELECT] is written only the first time one comes
    up over all shards, so a key of a later shard is replayed into the other. *)
Theorem replay_loses :
  (∀ `{impl : !StdImpl} reserves pushed yield scheduled clients fuel now s w,
    w_pass w ≠ "" → Forall (λ req, fits reserves (args_of req)) (buildRewriteCommands now s) →
    replay reserves (dispatch (builtin pushed yield scheduled clients) (S fuel)) (rewrite now s) w = Some (w, ok true tt)) ∧
  ∃ (impl : StdImpl) s w', wf s ∧
    replay (λ _, true) (dispatch (builtin (λ _ _, true) id false []) 2) (rewrite 9 s)
      (World0 (λ _, 9) "" None None) = Some (w', ok true tt) ∧
    view s 9 1 "b" = Some (mkAVal (VList ["x"]) 0) ∧ view s 9 0 "b" = None ∧
    view (w_store w') 9 1 "b" = None ∧ view (w_store w') 9 0 "b" = Some (mkAVal (VList ["x"]) 0).
Proof.
  split; [intros; by apply replay_refused|]. destruct replay_mixes as (w' & H1 & H2 & H3).
  exists plain_impl, two_dbs, w'. by split_and!; [apply two_dbs_wf|..].
Qed.

(** ** Handlers that fail *)

(** Commands that cannot do what they are for.  The parser of stream identifiers
    accepts ["*"] and nothing else (it compares the end of the number it scanned in a
    copy with an address in the original string), so no explicit identifier is ever
    accepted; [XREAD], which counts one key too few, answers an error to every request
    and reads nothing; and [GETEX key], without options, answers the value and leaves
    nothing of it: the options default to 0 seconds, which the store takes for an expiry
    now. *)
Theorem commands_that_fail `{impl : !StdImpl} id db req key s clk v ex :
  (parseStreamIdToken id = (if bool_decide (id = "*") then Some (mkId 0 0 true) else None) ∧
   ∃ clk' r, cmd_XREAD db req (s, clk) = ((s, clk'), r) ∧ r_type r = RError) ∧
  (wf s → evict_off s = true → 0 < clk 0%nat → in_i64 (clk 0%nat) →
   argc req = 2%nat → anull req 1 = false → astr req 1 = key →
   view s (clk 0%nat) db key = Some (mkAVal (VString v) ex) →
   ∃ s', cmd_GETEX db req (s, clk) = ((s', λ k, clk (S k)), resp_bulk v) ∧ wf s' ∧
     (∀ t, clk 0%nat ≤ t → view s' t db key = None)).
Proof. split; [split; [apply parseStreamIdToken_star|apply cmd_XREAD_fails]|apply cmd_GETEX_expires]. Qed.
