(* ===== verification/DistTheorems.v ===== *)
(** * The properties of replication and of the cluster

    The theorems on the backlog, PSYNC and the replica's loop, and on the cluster's state,
    its configuration file and its bus.  [DistWitnesses.v] runs the conditional ones. *)

From Stdlib Require Import Ascii.
From stdpp Require Import options.
From S2P Require Import Prelude.
From S2P Require Import CStd.
From S2P Require Import Store.
From S2P Require Import Resp.
From S2P Require Import RespReader.
From S2P Require Import RespFacts.
From S2P Require Import ClusterSlot.
From S2P Require Import PubSub.
From S2P Require Import Session.
From S2P Require Import Request.
From S2P Require Import Rdb.
From S2P Require Import Server.
From S2P Require Import Replication.
From S2P Require Import ReplFacts.

#[local] Set Default Proof Using "Type*".

(** ** Replication *)

(** C15: What a replica that comes back is sent.  Whatever a replication manager has been
    through, its backlog is the end of the stream of everything it propagated, at most a
    MiB.  A PSYNC with its id (or "?") and an offset inside the backlog is sent the stream
    from that offset, to the byte; any other one, the offset of a replica that misses
    nothing included, is sent the whole database, with the offset the manager has once
    the dump is done. *)
Theorem psync_answers alive stream r offset :
  repl_reach alive stream r → str_size stream ≤ INT64_MAX → in_i64 offset →
  m_offset r = str_size stream ∧ 0 ≤ oldest_offset r ≤ m_offset r ∧
  m_offset r - oldest_offset r ≤ kMaxBacklogBytes ∧
  (m_role r = Master → ∀ replid bytes r',
    handlePsync replid offset (Some bytes) r r' =
    if (bool_decide (replid = "?") || bool_decide (replid = m_repl_id r)) &&
       (oldest_offset r <=? offset) && (offset <? m_offset r)
    then mkPsync PsyncPartial (resp_simple "CONTINUE") (str_drop (Z.to_nat offset) stream)
    else mkPsync PsyncFull (resp_simple (fullresync_line r')) (text bytes)).
Proof.
  intros Hr Hmax Hoff. pose proof (reach_ok alive stream r Hr Hmax) as Hlog.
  split_and!; [apply Hlog|by apply (oldest_range stream)|by apply (oldest_range stream)|by apply (oldest_range stream)|].
  intros Hm replid bytes r'. unfold handlePsync. rewrite Hm, (partial_ok stream) by done.
  by destruct (_ && _).
Qed.

