(* ===== verification/CoreTheorems.v ===== *)
(** * The properties of the framework's core

    The theorems on byte arrays and the other parts of the framework below the key-value
    server.  [CoreWitnesses.v] runs the conditional ones. *)

From Stdlib Require Import Ascii.
From stdpp Require Import options.
From S2P Require Import Prelude.
From S2P Require Import CStd.
From S2P Require Import Bytes.
From S2P Require Import ByteArray.
From S2P Require Import ByteArrayFacts.
From S2P Require Import Timer.
From S2P Require Import TimerFacts.
From S2P Require Import IoManager.
From S2P Require Import IoFacts.

#[local] Set Default Proof Using "Type*".

(** ** Byte arrays *)

(** C19: A byte array is one flat buffer with a position, whatever the size of its blocks
    and whatever new memory holds: for every sequence of writes, non-empty reads, moves inside the
    array, clears, [toString], [getReadBuffers] and
    file transfers, the array answers what the flat buffer
    answers, [std::out_of_range] included, and ends holding the same bytes at the same
    position; no null block is followed, as a read of nothing at the end of a block would. *)
Theorem bytearray_flat junk base ops f os :
  (0 < base)%nat → flat_ops ops (mkFlat 0 []) = Some (f, os) →
  ∃ b, ba_ops junk ops (ByteArray0 junk base) = (b, os) ∧ ba_ok b ∧
    m_position b = f_position f ∧ contents b = f_data f.
Proof.
  intros Hb Hf. destruct (ByteArray0_ok junk base Hb) as [Hok Hc].
  destruct (ba_ops_flat junk ops (ByteArray0 junk base) (mkFlat 0 []) f os) as (b & Hrun & Hs);
    [by split_and!|done|]. by exists b.
Qed.

(** C20: What the typed methods write they read back: any sequence of values in the ranges
    of their types, fixed and variable width, signed and unsigned, of either byte order, and
    of strings with any of the length fields, not empty and no longer than the field says, written at any position of an array with blocks of any size, is
    read from that position as the same sequence, ending where the writing ended. *)
Theorem bytearray_round_trip junk b l :
  ba_ok b → Forall item_ok l →
  ∃ b1 b2 b3, write_items junk l b = (b1, Ret tt) ∧ setPosition (m_position b) b1 = (b2, Ret tt) ∧
    read_items l b2 = (b3, Ret l) ∧ m_position b3 = m_position b1 ∧ contents b3 = contents b1.
Proof.
  intros Hok Hl. destruct (items_bytes junk (m_little b) l Hl) as (bs & Hw & Hr).
  destruct (Hw b Hok eq_refl) as (b1 & E1 & Hok1 & Hp1 & Hc1 & Hl1 & Hb1).
  pose proof Hok1 as [_ _ _ _ Hsz Hps _].
  destruct (setPosition_ok (m_position b) b1 Hok1) as (b2 & E2 & Hok2 & Hp2 & Hs2 & Hc2 & Hl2 & Hb2); [lia|].
  assert (contents b2 = contents b1) as Hc12.
  { rewrite <-Hc2. rewrite take_ge; [done|]. rewrite contents_length by done. lia. }
  destruct (Hr b2 Hok2) as (b3 & E3 & _ & Hp3 & Hc3 & _); [congruence| |].
  { rewrite Hc12, Hc1, Hp2. apply overwrite_read. rewrite contents_length by done. apply Hok. }
  exists b1, b2, b3. split_and!; [done..|lia|congruence].
Qed.

(** ** Timers *)

(** C22: [listExpiredCb] hands out the callbacks of exactly the timers that are due, earliest
    first (all of them when the clock went back by more than an hour): a due recurring
    timer stays in the set at [now_ms + m_ms], a due one-shot timer leaves it and forgets
    its callback, every other timer is as it was; the set stays ordered. *)
Theorem timers_fire {Cb} now tmp (m : TimerManager Cb) :
  timers_ok m →
  ∃ m', listExpiredCb now tmp m = (m', due now m, m_cb <$> omap (m_heap m !!.) (due now m)) ∧
    timers_ok m' ∧ ordered (m_heap m) (due now m) ∧
    ∀ a t, m_heap m !! a = Some t → a ∈ m_timers m →
      m_heap m' !! a = Some (if decide (a ∈ due now m) then fired now t else t) ∧
      (a ∈ m_timers m' ↔ a ∉ due now m ∨ m_recurring t = true).
Proof.
  intros Hok. destruct (listExpired_spec now tmp m Hok) as (m' & E & He). exists m'.
  split_and!; [done|by eapply expired_ok|by apply due_ordered|]. destruct He as [Hh Ht _].
  intros a t Ha Hin. rewrite Hh, Ht, Ha. split; [by destruct (decide _)|]. unfold recurs. rewrite Ha. naive_solver.
Qed.

(** The time [getNextTimer] answers is exact: with the clock going forward, some timer
    is due at [now'] when and only when a timer is armed and that much time has passed, so
    that a fiber that sleeps for the answer neither misses a timer nor wakes in vain;
    without a timer the answer is [~0ull]. *)
Theorem idle_sleep_exact {Cb} now now' (m : TimerManager Cb) :
  timers_ok m → clock_fits now m → m_previouseTime m ≤ now → now ≤ now' →
  (due now' m ≠ [] ↔ m_timers m ≠ [] ∧ now + (getNextTimer now m).2 ≤ now') ∧
  (m_timers m = [] → (getNextTimer now m).2 = UINT64_MAX).
Proof.
  intros Hok Hfit Hp Hn. split; [by apply next_timer_due|]. intros Ht. unfold getNextTimer. simpl. by rewrite Ht.
Qed.

(** C21: A timer that was cancelled, or is not recurring and was handed out, is never handed
    out again, whatever is added, cancelled, refreshed, reset or expired afterwards; and
    [cancel] always finds the timer it erases. *)
Theorem timer_lifetime {Cb} now0 l m a m1 l' (m' : TimerManager Cb) :
  timer_run (TimerManager0 now0) l m →
  (cancel a m = Some (m1, true) ∨ one_shot_fired a m m1) →
  timer_run m1 l' m' →
  (a ∉ l') ∧ is_Some (cancel a m').
Proof.
  intros Hr Ha Hr'. destruct (timer_run_ok _ _ _ (TimerManager0_ok now0) Hr) as [Hok _].
  assert (timers_ok m1 ∧ dead m1 a) as [Hok1 Hd].
  { destruct Ha as [Hc|Hc]; [destruct (cancel_ok _ _ _ _ Hok Hc) as (? & Hd & _); auto|by eapply one_shot_fired_dead]. }
  destruct (timer_run_ok _ _ _ Hok1 Hr') as [Hok' Hd']. split; [by apply Hd'|by apply cancel_defined].
Qed.

(** ** The I/O manager *)

Section io.
Context {Kernel : Type} `{epoll : !Epoll Kernel}.

(** C24: Every task is resumed exactly once.  However the sections of any number of threads
    interleave, a task that began to wait with [addEvent] was either taken back by
    [delEvent], or handed to the scheduler it waited under, or still waits, and this once;
    [m_pendingEventCount] counts the ones that wait, and epoll is told to watch exactly the
    descriptors they wait for, with exactly their events. *)
Theorem io_conserves (k0 : Kernel) (now : Z) (begun dropped : list (nat * Task)) (m : IoManager Kernel) :
  `(interest k0 = ∅) → `(io_run begun dropped (IoManager0 k0 now) m) →
  let waits := heap_tasks (io_heap m) in
  begun ≡ₚ dropped ++ (io_tasks m).*1 ++ waits ∧
  m_pendingEventCount m = u64 (Z.of_nat (length waits)) ∧
  (∀ fd events p, interest (io_kernel m) !! fd = Some (events, p) ↔
     ∃ c, io_heap m !! p = Some c ∧ fc_fd c = fd ∧ fc_events c ≠ 0 ∧ events = Z.lor EPOLLET (fc_events c)).
Proof.
  intros Hi Hrun. destruct (io_run_ok _ _ _ _ Hrun (IoManager0_ok k0 now Hi)) as [[[_ Hp _] Hk] (sent & Ht & Hperm)].
  split; [|split; [exact Hp|exact Hk]]. destruct (IoManager0_empty k0 now) as [E1 E2]. rewrite E1 in Ht. rewrite E2, app_nil_r in Hperm.
  by rewrite Ht.
Qed.

(** C25: What the methods do, one after another from a new manager.  Waiting for an event
    nobody waits for succeeds or is refused by epoll, and waiting twice for the same is an
    assertion; [delEvent], [cancelEvent] and [cancelAll] never fail: they answer whether
    anyone waited, and nobody does any more; every other wait stays.  [delEvent] schedules
    nothing; the two that cancel schedule the waiter of each event they end, one task on
    the calling thread, and nothing else. *)
Theorem io_methods (k0 : Kernel) (now0 : Z) (m : IoManager Kernel) (fd : nat) (e : Event) (cb : option nat) (fiber s : nat)
    (timeout_ms now thread : Z) (flag : option nat) :
  `(interest k0 = ∅) → `(io_calls (IoManager0 k0 now0) m) →
  (if awaits m fd e then addEvent fd e cb fiber timeout_ms flag now (Some s) m = None
   else ∃ m' rt, addEvent fd e cb fiber timeout_ms flag now (Some s) m = Some (m', rt) ∧ (rt = 0 ∨ rt = -1) ∧
     awaits m' fd e = bool_decide (rt = 0) ∧ ∀ fd' e', (fd', e') ≠ (fd, e) → awaits m' fd' e' = awaits m fd' e') ∧
  (∃ m', delEvent fd e m = Some (m', awaits m fd e) ∧ no_more [(fd, e)] m m' ∧ io_tasks m' = io_tasks m) ∧
  (∃ m', cancelEvent thread fd e m = Some (m', awaits m fd e) ∧ no_more [(fd, e)] m m' ∧
     io_tasks m' = io_tasks m ++ waiter_tasks thread m (fd, e)) ∧
  (∃ m', cancelAll thread fd m = Some (m', awaits m fd READ || awaits m fd WRITE) ∧
     no_more [(fd, READ); (fd, WRITE)] m m' ∧
     io_tasks m' = io_tasks m ++ waiter_tasks thread m (fd, READ) ++ waiter_tasks thread m (fd, WRITE)) ∧
  (if awaits m fd e then ∃ st t, waiter_tasks thread m (fd, e) = [(st, t, thread)] else waiter_tasks thread m (fd, e) = []).
Proof.
  intros Hi Hcalls. pose proof (calls_seq _ _ Hcalls (IoManager0_seq k0 now0 Hi)) as Hseq. split_and!.
  - destruct (awaits m fd e) eqn:Hw; [by apply addEvent_twice|].
    destruct (addEvent_seq fd e cb fiber timeout_ms flag now s m Hseq Hw) as (m' & rt & E & _ & H). eauto.
  - destruct (delEvent_seq fd e m Hseq) as (m' & E & _ & Ht & _ & Hs). eauto.
  - destruct (cancelEvent_seq thread fd e m Hseq) as (m' & E & _ & Hs & Ht). eauto.
  - destruct (cancelAll_seq thread fd m Hseq) as (m' & E & _ & Hs & Ht). cbn [mbind list_bind] in Ht. rewrite app_nil_r in Ht. eauto.
  - pose proof (seq_ok _ Hseq) as Hok. destruct (awaits m fd e) eqn:Hw; [by apply waiter_once|by apply waiter_unawaited].
Qed.

(** C26: Timeouts.  With the methods called one after another, [getNextIoExpire] answers
    exactly the time until the least deadline.  A turn of [idle] never fails on reports of
    what is waited for; besides the due timers' callbacks it schedules exactly the waiters
    of what is reported and, when epoll reported nothing, of the waits whose deadline has
    passed, one task each ([waiter_once]); those and only those no longer wait; the latter
    have [ETIMEDOUT] in their flags. *)
Theorem io_timeouts (k0 : Kernel) (now0 now thread n : Z) (self tmp : nat) (m : IoManager Kernel) (reports : list Report) :
  `(interest k0 = ∅) → `(io_calls (IoManager0 k0 now0) m) → `(0 ≤ now < UINT64_MAX) → `(n ≤ 0 → reports = []) →
  `(Forall (fits_report m) reports) → `(NoDup (reports ≫= report_context)) →
  ((∀ d, deadline m d → d = UINT64_MAX) ∧ (getNextIoExpire now m).2 = UINT64_MAX ∨
   ∃ d, deadline m d ∧ (∀ x, deadline m x → d ≤ x) ∧ (getNextIoExpire now m).2 = Z.max 0 (d - now)) ∧
  ∃ m', idle_turn self now thread tmp n reports m = Some m' ∧
    (let l := (reports ≫= woken m) ++ if n <=? 0 then (overdue_items now m).*1 else [] in
     no_more l m m' ∧ io_tasks m' = io_tasks m ++ timer_tasks self now tmp m ++ (l ≫= waiter_tasks thread m)) ∧
    (∀ fd e, awaits m fd e = true → ∃ s t, waiter_tasks thread m (fd, e) = [(s, t, thread)]) ∧
    (∀ fd e, (fd, e) ∈ (overdue_items now m).*1 ↔ ∃ c, context_at m fd = Some c ∧ overdue now e c = true) ∧
    (n ≤ 0 → ∀ fd e flag, (fd, e, flag) ∈ overdue_items now m → ∀ a, flag = Some a → flag_of m' a = ETIMEDOUT).
Proof.
  intros Hi Hcalls Hnow Hn Hfit Hnd. pose proof (calls_seq _ _ Hcalls (IoManager0_seq k0 now0 Hi)) as Hseq.
  pose proof (seq_ok _ Hseq) as Hok. split.
  - by apply (getNextIoExpire_spec now m Hok (seq_deadlines _ Hseq) Hnow).
  - destruct (idle_turn_seq self now thread tmp n reports m Hseq Hn Hfit Hnd) as (m' & E & _ & Hs & Hf); [lia|].
    exists m'. split; [done|]. split; [done|]. split; [|split; [|done]]; intros fd e; [by apply waiter_once|by apply overdue_keys].
Qed.

(** C39: What goes wrong.  A report of both events handled when only the reader is left is an
    assertion.  A growth of the vector decided before a larger one forgets the larger one's
    context: its wait can no longer be taken back or cancelled, and the manager never stops.
    A deadline noted after its wait was deleted stays for good: the idle loop no longer
    sleeps and the manager never stops.  The flag of a wait without a timeout is dropped, so
    that a hooked call that is cancelled tries again.  Timeouts of 2^31 to 2^32 milliseconds
    reach [epoll_wait] as negative, that is without end.  While events arrive, no deadline
    is looked at. *)
Theorem io_faults (k0 : Kernel) (now0 now thread d t : Z) (m : IoManager Kernel) (fd size a fiber s tmp : nat) (e : Event)
    (idle : bool) :
  `(interest k0 = ∅) → `(io_calls (IoManager0 k0 now0) m) →
  `(Z.of_nat (length (heap_tasks (io_heap m))) < 2 ^ 64) → `(0 < d ≤ now) → `(now < UINT64_MAX) → `(2 ^ 31 ≤ t < 2 ^ 32) →
  (∀ p c, io_heap m !! p = Some c → fc_events c = bit READ → ready_locked thread p (Z.lor EPOLLIN EPOLLOUT) m = None) ∧
  (awaits m fd e = true → (size ≤ fd)%nat → let m' := contextResize size m in
     delEvent fd e m' = Some (m', false) ∧ cancelEvent thread fd e m' = Some (m', false) ∧
     cancelAll thread fd m' = Some (m', false) ∧ (stopping now idle m').2 = false) ∧
  ((∀ x, ¬ deadline m x) → m_ioExpireDirty m = false → m_nextIoExpire m = UINT64_MAX → let m' := onIoWaitAdded d m in
     checkIoExpired now thread m' = Some m' ∧ (getNextIoExpire now m').2 = 0 ∧ (stopping now idle m').2 = false) ∧
  (∀ m1, awaits m fd e = false → do_io_wait fd e fiber UINT64_MAX a now (Some s) m = Some (m1, 0) →
     ∃ m2, cancelEvent thread fd e m1 = Some (m2, true) ∧ do_io_resumed a m2 = None) ∧
  wait_ms t < 0 ∧
  (∀ m1, idle_turn s now thread tmp 1 [Tickled] m = Some m1 → ∀ fd e, awaits m1 fd e = awaits m fd e).
Proof.
  intros Hi Hcalls Hlen Hd Hnow Ht. pose proof (calls_seq _ _ Hcalls (IoManager0_seq k0 now0 Hi)) as Hseq.
  pose proof (seq_ok _ Hseq) as Hok. split_and!.
  - intros p c. by apply stale_report.
  - intros Hw Hle. by apply lost_context.
  - intros Hnone Hdirty Hnext. by apply stale_deadline.
  - intros m1 Hw E. exact (cancel_seen fd e fiber UINT64_MAX a now s thread m m1 Hseq Hw E).
  - by apply long_wait.
  - intros m1 E fd' e'. destruct (idle_turn_seq s now thread tmp 1 [Tickled] m Hseq) as (m2 & E2 & _ & Hs & _);
      [lia|by repeat constructor|apply NoDup_nil_2|done|].
    rewrite E2 in E. injection E as ->. rewrite (proj1 Hs fd' e'). by rewrite andb_true_r.
Qed.
End io.
