(* ===== verification/NetTheorems.v ===== *)
(** * The properties of the RPC and HTTP parts

    [NetWitnesses.v] runs the conditional ones. *)

From stdpp Require Import options.
From S2P Require Import Prelude.
From S2P Require Import CStd.
From S2P Require Import PubSub.
From S2P Require Import Server.
From S2P Require Import Replication.
From S2P Require Import Sentinel.
From S2P Require Import Election.
From S2P Require Import KvNode.
From S2P Require Import SentinelFacts.
From S2P Require Import Bytes.
From S2P Require Import WebSocket.
From S2P Require Import Http2.

#[local] Set Default Proof Using "Type*".

(** ** Sentinels *)

(** C17: Election safety.  However the threads and handlers of any number of sentinels
    interleave, and whatever requests are delayed, repeated or lost, no two sentinels win
    the election of the same term: a winner has the votes of a majority in that term, and
    a sentinel votes once per term. *)
Theorem election_safe `{impl : !StdImpl} {node} `{EqDecision node} (all : list node) ids peers addr y i j t :
  well_configured all ids peers addr → sys_reach ids peers addr y →
  (i, WonElection t) ∈ sys_log y → (j, WonElection t) ∈ sys_log y → i = j.
Proof.
  intros Hcfg Hr Hi Hj. pose proof (reach_inv all ids peers addr y Hcfg Hr) as Hinv.
  eapply elected_once; [done..|by apply (inv_log _ _ _ _ y Hinv)|by apply (inv_log _ _ _ _ y Hinv)].
Qed.

(** C40: Winning is not yet leading: [becomeLeader] does not look at the term again, and
    three well configured sentinels reach a state in which two of them are leaders of the
    same term, one of which never won it. *)
Theorem two_leaders : ∃ y : System (node := Three),
  well_configured three_all three_id three_peers three_addr ∧
  sys_reach (impl := plain_impl) three_id three_peers three_addr y ∧
  leads y S0 = (Leader, 2) ∧ leads y S1 = (Leader, 2) ∧ (S0, WonElection 2) ∉ sys_log y.
Proof.
  pose proof usurping_trace as H. destruct (exec _ _ usurping _) as [y|] eqn:E; [|done].
  exists y. split; [apply three_configured|]. split.
  - eapply (exec_reach (impl := plain_impl)); [apply three_complete|apply three_started|exact E].
  - unfold leads in *. injection H as -> -> -> -> ->. clear. split; [done|]. split; [done|].
    rewrite !not_elem_of_cons. split_and!; try done. apply not_elem_of_nil.
Qed.

(** C18: A failover gives the nodes one master: the node promoted answered the last check,
    is no master, and no replica that answered has received more; it becomes a master,
    every other monitored node that can be reached, but the failed one, follows it, and the
    sentinel announces it.  When it cannot be reached nothing changes. *)
Theorem failover_promotes `{impl : !StdImpl} (alive : Sess → bool) (nids : Endpoint → string)
    (clock draw : Z) (s : SentinelManager) (kv : gmap Endpoint ReplicationManager) (failed : string) (e : Endpoint) :
  m_kvNodes s !! "" = None → selectBestReplica s = node_key e → plain_endpoint e → node_key e ≠ failed →
  let '(_, kv', s', lines) := run (kv_answer alive nids) clock draw (handleFailover failed) kv s in
  best_choice s (node_key e) ∧
  if bool_decide (is_Some (kv !! e)) then
    lines = [FailoverComplete (node_key e)] ∧ master_endpoint s' = Some e ∧
    (∀ n, is_Some (kv' !! n) ↔ is_Some (kv !! n)) ∧
    (∀ r, kv' !! e = Some r → Replication.m_role r = Master) ∧
    (∀ n r, n ∈ m_monitoredNodes s → node_key n ≠ node_key e → node_key n ≠ failed →
       kv' !! n = Some r → follows e r) ∧
    (∀ n, node_key n = failed → kv' !! n = kv !! n)
  else lines = [CannotPromote (node_key e)] ∧ s' = s ∧ kv' = kv.
Proof.
  intros Hempty Hbest He Hne. rewrite (failover_run alive nids clock draw s kv failed e (m_currentTerm s)) by done.
  assert (best_choice s (node_key e)) as Hb.
  { rewrite <-Hbest. apply selectBestReplica_spec; [done|]. rewrite Hbest. by destruct e as [[] ?]. }
  destruct (bool_decide_reflect (is_Some (kv !! e))) as [Hin|Hout]; [|done].
  pose proof (λ n, repointed alive (node_key e) failed e (m_monitoredNodes s) n (proj1 He) (alter (repoint alive ("", 0)) e kv)) as Hrep.
  cbv zeta in Hrep. split; [done|]. split_and!; [done|by destruct e| | | |].
  - intros n. destruct (Hrep n) as (_ & _ & -> & _). apply lookup_alter_is_Some.
  - intros r. destruct (Hrep e) as (H1 & _). rewrite H1, lookup_alter_eq.
    + intros (r0 & _ & ->)%fmap_Some. apply promoted.
    + unfold spared. by rewrite bool_decide_eq_true_2.
  - intros n r Hmon Hk Hf. destruct (Hrep n) as (_ & _ & _ & H4). apply H4; [|by left].
    unfold spared. by rewrite !bool_decide_eq_false_2.
  - intros n Hf. destruct (Hrep n) as (H1 & _). rewrite H1.
    + apply lookup_alter_ne. intros ->. done.
    + unfold spared. by rewrite (bool_decide_eq_true_2 (node_key n = failed)), orb_true_r.
Qed.

(** ** WebSocket *)

(** C27: A message arrives as it was sent.  A side sends fragments, pings and pongs and then
    a last frame, masked if it is the client; from those bytes the other side's
    [WSRecvMessage] gets the concatenated data and the opcode of the first fragment that
    has one, answers each ping with a pong, and leaves what follows unread, however the
    bytes are cut by the reads and writes. *)
Theorem ws_round_trip (reads writes : Bytes → nat → nat) (max_size r : Z) (sender : bool) (l : list WsItem)
    (msg : Message) (i o i' o' rest : Bytes) (c c' : bool) :
  `(moves reads writes) → `(max_size ≤ 2 ^ 31) → `(Forall item_fits l) → `(frame_ok msg) →
  `(Z.of_nat (length ((l ≫= item_data) ++ msg.2)) < max_size) →
  ∃ w, WSSendMessage writes msg sender true r (send_items writes sender l (mkStream i o c)) =
         (mkStream i (o ++ w) c, i32 (Z.of_nat (length msg.2) + 2)) ∧
       WSRecvMessage reads writes max_size (negb sender) (mkStream (w ++ rest) o' c') =
         Some (mkStream rest (o' ++ (l ≫= item_reply)) c',
               Some (opcode_after (foldl item_opcode 0 l) msg.1, (l ≫= item_data) ++ msg.2)).
Proof.
  intros [Hr Hw] Hmax Hl Hm Hsize. exists ((l ≫= item_bytes sender) ++ concat (frame_buffers msg sender true r)). split.
  - rewrite send_items_ok by done. rewrite send_message_ok by (done || apply Hm). by rewrite app_assoc.
  - rewrite <-app_assoc. by apply recv_message.
Qed.

(** C28: [WSRecvMessage] ends on every input, whatever the reads and writes do: it returns a
    message of at least one byte below the limit, having written nothing but pongs, or
    nothing and the stream is closed. *)
Theorem ws_recv_ends (reads writes : Bytes → nat → nat) (max_size : Z) (client : bool) (s : Stream) :
  `(max_size ≤ 2 ^ 31) →
  ∃ r, WSRecvMessage reads writes max_size client s = Some r ∧
    match r.2 with
    | None => st_closed r.1 = true
    | Some m => m.2 ≠ [] ∧ Z.of_nat (length m.2) < max_size ∧ st_closed r.1 = st_closed s ∧
        ∃ n, st_out r.1 = st_out s ++ concat (replicate n (head_bytes pong_head))
    end.
Proof. intros Hmax. apply recv_total; [done|lia|done|by left]. Qed.


(** ** HTTP/2 *)

(** C29: What [HPack::encode] writes, [HPack::decode] reads back: every header of any map
    whose strings have a size of 32 bits, added to the headers already there; and the
    decoder ends on every input. *)
Theorem hpack_round_trip (headers known : gmap string string) :
  `(map_Forall (λ n v, sized (n, v)) headers) →
  hpack_decode (hpack_encode headers) known = Some (headers ∪ known, Done () []) ∧
  ∀ l m, is_Some (hpack_decode l m).
Proof.
  intros Hsize. split; [|intros; by apply decode_loop_total]. unfold hpack_decode, hpack_encode.
  rewrite headers_round_trip; [|apply Forall_forall; intros [n v] Hin; apply Hsize; by apply map_iter_elem|done].
  rewrite foldl_insert by (rewrite map_iter_perm; apply NoDup_fst_map_to_list). do 3 f_equal.
  rewrite <-(list_to_map_to_list headers) at 2. apply list_to_map_proper; [|apply map_iter_perm].
  rewrite map_iter_perm. apply NoDup_fst_map_to_list.
Qed.

(** C30: What the decoder does not read.  A header with a name from the table, encoded as the
    standard says, is read with its value's length for the index of the name and its value's
    text for a string; the first byte of one alone makes the decoder read past its input.
    Changes of the dynamic table, Huffman strings and indices outside the static table are
    refused. *)
Theorem hpack_faults (i : Z) (l v rest : Bytes) :
  (`(0 < i < 62) → `((0 < length v < 62)%nat) →
   decode_header (byte (64 + i) :: encodeStringLiteral v ++ rest) =
     match kStaticTable !! length v with
     | Some (n, _) => and_then (decodeStringLiteral (v ++ rest)) (λ x rest, Done (n, text x) rest)
     | None => Refused
     end) ∧
  (`(0 < i < 62) → decode_header [byte (64 + i)] = Undefined) ∧
  (`(32 <= i < 64) → decode_header (byte i :: l) = Refused) ∧
  (`(i = 0 ∨ 62 ≤ i < 127) → decode_header (byte (128 + i) :: l) = Refused) ∧
  (`(0 ≤ i < 127) → decodeStringLiteral (byte (128 + i) :: l) = Refused).
Proof.
  split_and!.
  - apply indexed_name.
  - apply indexed_name_alone.
  - apply table_update.
  - apply outside_table.
  - apply huffman_refused.
Qed.

(** C31: A connection that has not seen the preface takes the preface and any frames after
    it, and ends with the effects of the settings and acknowledgements among them, the last
    value of a setting winning and every other frame skipped, whatever part of a frame
    header follows; when a frame whose header came is cut, it answers [false] with those
    effects kept.  The settings a connection sends are such a frame, so the peer's limits
    become the ones sent. *)
Theorem http2_frames (c d : Http2Connection) (frames : list H2Frame) (f : H2Frame) (rest : Bytes) (n : nat) :
  `(h2_receivedPreface c = false) → `(Forall h2_frame_ok (f :: frames)) → `((length rest < kSize)%nat) →
  `((kSize ≤ n < length (encode_frame f))%nat) → `(0 ≤ h2_maxFrameSize d < 2 ^ 32) →
  `(0 ≤ h2_maxConcurrentStreams d < 2 ^ 32) →
  let taken := foldl frame_effect (with_preface c) frames in
  onFrame (kConnectionPreface ++ (frames ≫= encode_frame) ++ rest) c = Some (taken, true) ∧
  onFrame (kConnectionPreface ++ (frames ≫= encode_frame) ++ take n (encode_frame f)) c = Some (taken, false) ∧
  onFrame (kConnectionPreface ++ sendLocalSettings d) c =
    Some (mkH2 true (h2_settingsAcked c) (h2_maxFrameSize d) (h2_maxConcurrentStreams d), true) ∧
  ∀ l e, is_Some (onFrame l e).
Proof.
  intros Hc [Hf Hframes]%Forall_cons Hrest Hn Hsize Hstreams taken. pose proof (frames_length frames Hframes) as Hl.
  split_and!; [..|apply onFrame_total]; rewrite onFrame_preface by done.
  - rewrite frames_step by (rewrite ?length_app; lia || done). by apply frames_loop_end.
  - rewrite frames_step by (rewrite ?length_app; lia || done).
    replace (_ - _)%nat with (S (length kConnectionPreface + (length (frames ≫= encode_frame) - length frames) + (n - 1)))
      by (rewrite length_app, length_take; unfold kSize in Hn; lia).
    by apply frames_loop_cut.
  - change (length kConnectionPreface) with (S 23). cbn [Nat.add].
    rewrite local_settings, <-(app_nil_r (encode_frame _)). rewrite frame_step by (split; [|done]; by apply local_ok).
    rewrite frames_loop_end by (cbn; lia). by vm_compute.
Qed.
