(* ===== verification/ServiceTheorems.v ===== *)
(** * The properties of the service layer: RPC clients and guards

    [ServiceWitnesses.v] runs the conditional ones. *)

From stdpp Require Import options.
From S2P Require Import Prelude.
From S2P Require Import CStd.
From S2P Require Import Double.
From S2P Require Import LoadBalancer.
From S2P Require Import CircuitBreaker.
From S2P Require Import RateLimit.
From S2P Require Import Bytes.
From S2P Require Import WebSocket.
From S2P Require Import RpcClient.

#[local] Set Default Proof Using "Type*".

(** ** The load balancer *)

(** A selection returns -1 exactly when the strategy finds none, and otherwise a healthy
    node: for the least connections one no busier than any healthy node, for a canary call
    a canary if one is healthy and for the others none as long as a stable one is, in the
    caller's zone if a healthy node is there. *)
Theorem lb_selects (b : RpcLoadBalancer) (ctx : RpcLbContext) (draw : Z) :
  `(0 ≤ b_rrIndex b) → `(b_rrIndex b + Z.of_nat (length (b_nodes b)) ≤ 2 ^ 64) →
  let r := (selectNode draw ctx b).2 in
  (r = -1 ∧ finds_none b) ∨
  (¬ finds_none b ∧ ∃ n, node_at_index (b_nodes b) r n ∧ n_healthy n = true ∧ prefers b ctx n).
Proof. intros H0 H1. by apply selectNode_ok. Qed.

(** C36: The round robins are fair.  As many weighted selections as the healthy weights add up
    to serve the nodes in order, each as often as its weight, from where the last round
    stopped; as many plain ones as there are nodes serve every healthy node. *)
Theorem lb_fair (b : RpcLoadBalancer) (ctx : RpcLbContext) (draws : list Z) :
  `(0 ≤ b_rrIndex b) → `(b_rrIndex b + Z.of_nat (length draws) < 2 ^ 64) →
  `(0 ≤ b_wrrIndex b) → `(b_wrrIndex b + Z.of_nat (length draws) < 2 ^ 64) →
  match b_strategy b with
  | WeightedRoundRobin =>
      weights_ok (b_nodes b) → schedule (b_nodes b) ≠ [] → Z.of_nat (length (schedule (b_nodes b))) < 2 ^ 31 →
      length draws = length (schedule (b_nodes b)) →
      turns ctx draws b = rotate (Z.to_nat (b_wrrIndex b)) (schedule (b_nodes b))
  | RoundRobin =>
      (length (b_nodes b) ≤ length draws)%nat →
      ∀ i n, node_at_index (b_nodes b) i n → n_healthy n = true → i ∈ turns ctx draws b
  | _ => True
  end.
Proof.
  intros H0 H1 H2 H3. destruct (b_strategy b) eqn:Hs; try done.
  - intros Hlen i n Hn Hh. by eapply rr_serves.
  - intros Hw Hl Hlt Hlen. apply rotated; [by rewrite turns_length|done|]. rewrite turns_length. by apply turns_wrr.
Qed.

(** ** Circuit breakers *)

(** C34: What an RPC breaker guarantees however calls and late results interleave.  Opened, it
    lets nothing through until its time is over and stays open; and when it then lets a
    request through, that one and all others of the half-open period are together no more
    than the trials allowed.  In the middle of such a period the same holds, counting the
    trials it remembers, and fewer successes were counted than close it.  Closed, fewer
    failures were counted than open it. *)
Theorem breaker_guards (config : RpcCircuitBreakerConfig) (b : RpcCircuitBreaker) (n : nat) (t : Z) (l : list CbEvent) :
  `(config_ok config) → `(cb_reach config (b, n)) → `(0 ≤ cb_openedAt b ≤ t) → `(clock_ok t l) →
  `(Forall (λ e, ev_time e < cb_openedAt b + openDurationMs config) l) → `(openDurationMs config ≤ UINT64_MAX) →
  match cb_state b with
  | Open =>
      (let '(b', admitted) := cb_exec l b in cb_state b' = Open ∧ admitted = 0) ∧
      ∀ now b' l', allowRequest now b = (b', true) → half_open_through l' b' →
        1 + (cb_exec l' b').2 ≤ Z.max 1 (halfOpenMaxCalls config)
  | HalfOpen =>
      (∀ l', half_open_through l' b → cb_halfOpenCalls b + (cb_exec l' b).2 ≤ Z.max 1 (halfOpenMaxCalls config)) ∧
      1 ≤ cb_halfOpenCalls b ∧ 0 ≤ cb_successes b < successThreshold config
  | Closed => 0 ≤ cb_failures b < failureThreshold config
  end.
Proof.
  intros Hok Hr Ht Hc Hl Hd. pose proof (cb_reach_inv _ _ Hok Hr) as [Hcfg Hinv].
  destruct (cb_state b) eqn:Hs; [done| |].
  - split; [|intros now b' l'; by apply (half_open_begins config b)].
    rewrite <-Hcfg in Hl, Hd. pose proof (open_rejects l b t Hs Ht Hc Hl Hd) as H. destruct (cb_exec l b). naive_solver.
  - destruct Hinv as (Hsucc & Hcalls & _). split; [|split; [lia|done]].
    intros l'. apply (half_open_admits config); [done|done|lia].
Qed.

(** An RPC breaker with enough trials recovers: when no request is under way, one is let
    through, unless the breaker is open and its time is not over; and when half open it
    closes after as many successes, one after the other, as are still wanted. *)
Theorem breaker_recovers (config : RpcCircuitBreakerConfig) (b : RpcCircuitBreaker) (now : Z) :
  `(config_ok config) → `(successThreshold config ≤ Z.max 1 (halfOpenMaxCalls config)) → `(cb_reach config (b, O)) →
  ((cb_state b = Open → openDurationMs config ≤ u64 (now - cb_openedAt b)) → (allowRequest now b).2 = true) ∧
  (cb_state b = HalfOpen →
     cb_state (probes (Z.to_nat (successThreshold config - cb_successes b)) now b) = Closed).
Proof. intros Hok Hst Hr. split; [by apply (idle_admits config)|by apply (probes_close config)]. Qed.

(** C38: What breakers do not do.  An RPC breaker whose configuration wants more successes than
    it allows trials never recovers: it does open, and from every open state whose time is
    over, as many requests as there are trials, all answered, leave it half open with
    nothing under way, and from then on it refuses every request.  Its failures need not be
    consecutive: whatever the threshold, calls of which never more than two fail in a row
    open it.  The HTTP breaker only looks at statuses set before it runs: requests whose
    response still says OK never open it, whatever their servlets answer. *)
Theorem breakers_fail :
  (∀ config, config_ok config → Z.max 1 (halfOpenMaxCalls config) < successThreshold config →
     (∃ b, cb_reach config (b, O) ∧ cb_state b = Open ∧ cb_openedAt b = 0) ∧
     ∀ b now, cb_reach config (b, O) → cb_state b = Open → openDurationMs config ≤ u64 (now - cb_openedAt b) →
       let b' := probes (Z.to_nat (Z.max 1 (halfOpenMaxCalls config))) now b in
       cb_reach config (b', O) ∧ cb_state b' = HalfOpen ∧
       ∀ l, (∀ e, e ∈ l → ∃ now, e = Ask now) → cb_exec l b' = (b', 0)) ∧
  (∀ config, config_ok config → ∃ l, (failures_in_row 0 l ≤ 2)%nat ∧
     cb_state (cb_exec l (RpcCircuitBreaker0 config)).1 = Open) ∧
  (∀ b l, hb_state b ≠ Open → Forall (λ e, e.2 = 200) l → hb_exec l b = (b, replicate (length l) 0)).
Proof.
  split; [|split].
  - intros config Hok Hlt. split; [by apply failures_open|]. intros b now. by apply recovery_fails.
  - intros config Hok. exists (two_of_three (Z.to_nat (Z.max 2 (failureThreshold config) - 2))).
    split; [by rewrite two_of_three_runs|]. apply two_of_three_opens; [done|lia|lia].
  - intros b l. apply hb_inert.
Qed.

(** ** Rate limits *)

(** C35: A sliding window limits exactly.  Over any sequence of arrivals the requests of a key
    are let through just as the reference says that looks back over all it let through:
    when fewer than the maximum of them lie in the last window.  Requests of other keys do
    not count. *)
Theorem window_exact {Request} (f : Request → string) (rate burst : double) (key : string) (l : list Arrival)
    (t0 now : Z) :
  `(0 < d_to_int burst) → `(ordered now (snd <$> own f key l)) → `(Z.of_nat (length (own f key l)) < 2 ^ 31) →
  rl_answers f key l (RateLimitMiddleware0 SlidingWindow rate burst (Some f) t0) =
  (λ ok : bool, if ok then 0 else -1) <$> window_ref (d_to_int rate) (d_to_int burst) [] (snd <$> own f key l).
Proof. intros Hpos Ho Hlen. by apply (window_middleware f key l _ _ _ now). Qed.

(** ** RPC *)

(** C32: Calls are answered.  Requests framed one after the other reach the server's handler in
    order, however the reads and writes cut them, and on the bytes it writes back the
    client's calls return its answers, in order; both sides consume everything. *)
Theorem rpc_served {Envelope St : Type} (reads writes : Bytes → nat → nat) (serialize : Envelope → option Bytes)
    (parse : Bytes → option Envelope) (dispatch : Envelope → St → St * Envelope) (l : list Envelope)
    (wires rwires : list Bytes) (st : St) :
  `(moves reads writes) → `(∀ m wire, serialize m = Some wire → parse wire = Some m) →
  `(wired serialize l wires) → `(wired serialize (answers dispatch l st).2 rwires) →
  rpc_handleClient reads writes serialize parse dispatch st (mkStream (concat (rpc_frame <$> wires)) [] false) =
    Some ((answers dispatch l st).1, mkStream [] (concat (rpc_frame <$> rwires)) false) ∧
  channel_calls reads writes serialize parse l (mkStream (concat (rpc_frame <$> rwires)) [] false) =
    (mkStream [] (concat (rpc_frame <$> wires)) false, Some <$> (answers dispatch l st).2).
Proof.
  intros [Hr Hw] Hparse Hl Hrs. split.
  - unfold rpc_handleClient. apply (serve_ok reads writes Hr Hw serialize parse Hparse dispatch l wires rwires); [done..|].
    cbn [st_in]. pose proof (Forall2_length _ _ _ Hl) as Hlen. rewrite Hlen. clear.
    induction wires as [|w wires IH]; [cbn; lia|]. cbn [length fmap list_fmap concat] in *. rewrite length_app. cbn. lia.
  - rewrite <-(app_nil_r (concat (rpc_frame <$> rwires))).
    apply (calls_ok reads writes Hr Hw serialize parse Hparse dispatch l wires _ rwires); [done..|]. by rewrite (answers_length serialize parse).
Qed.

(** Retries.  A call that the interceptors let pass makes at most the attempts the policy
    allows, sleeping between them for the delays of the policy, doubled up to the maximum; it
    succeeds with the response of its last attempt, or fails after all of them. *)
Theorem rpc_retries {Envelope : Type} (request_id : Envelope → Z) (serviceName methodName : string)
    (request empty : Envelope) (metadata : RpcMetadata) (attempts : nat → Attempt) (m : RpcChannelManager) :
  `(cm_interceptors m = []) →
  let config := default RpcServiceConfig0 (cm_configs m !! serviceName) in
  let policy := retryPolicy config in
  let all := delays (Z.to_nat (maxAttempts policy) - 1) (baseDelayMs policy) (maxDelayMs policy) in
  let '(_, ok, response, ev) := cm_call request_id serviceName methodName request empty metadata attempts m in
  Z.of_nat (length (reached ev)) ≤ Z.max 0 (maxAttempts policy) ∧
  (∃ k, slept ev = take k all) ∧
  if (ok : bool) then ∃ j n, Z.of_nat j < maxAttempts policy ∧ last ev = Some (Reached n) ∧
    at_send (attempts j) (n_host n) (n_port n) request = Answered response
  else slept ev = all.
Proof.
  intros Hi config policy all. unfold cm_call. fold config. rewrite Hi. cbn [run_before negb].
  set (v := mkInvocation _ _ _ _ _ _ _ _ _).
  pose proof (retry_spec request_id (Z.to_nat (maxAttempts policy)) 0 attempts config (baseDelayMs policy) v m) as H.
  fold policy. destruct (retry_loop _ _ _ _ _ _ _ _) as [[[m' v'] ok] ev]. destruct H as (Hr & Hs & Hok).
  split_and!; [lia|exact Hs|]. destruct ok; [|exact Hok].
  destruct Hok as (j & n & r & Hj & Hl & Hsend & ->). exists j, n. split_and!; [lia|done|done].
Qed.

(** C33: A method whose nodes do not answer is left alone: over any number of calls and retries
    made while the clock goes forward, within the time its breaker stays open, no more nodes
    are reached than failures open the breaker. *)
Theorem dead_service_spared {Envelope : Type} (request_id : Envelope → Z) (service key : string) (b : RpcCircuitBreaker)
    (l : list Doing) (m : RpcChannelManager) (t0 : Z) :
  `(breaker_of (Envelope := Envelope) service key m = Some b) → `(config_ok (cb_config b)) → `(cb_state b = Closed) →
  `(0 ≤ cb_failures b < failureThreshold (cb_config b)) → `(0 ≤ t0) → `(openDurationMs (cb_config b) ≤ UINT64_MAX) →
  `(rising t0 (readings l)) → `(Forall (λ t, t < t0 + openDurationMs (cb_config b)) (readings l)) →
  `(Forall (λ x : Doing, never_answers x.1.1 ∧ iv_serviceName x.2 = service ∧ cb_key x.2 = key) l) →
  Z.of_nat (length (do_calls request_id l m).2) ≤ failureThreshold (cb_config b) - cb_failures b.
Proof.
  intros Hb Hok Hs Hf H0 Hd Hr Hlt Hall.
  pose proof (dead_bound request_id service key t0 l m b t0 Hb Hok ltac:(by rewrite Hs) H0 Hd ltac:(lia) Hr Hlt Hall) as H.
  unfold remaining in H. by rewrite Hs in H.
Qed.
