(* ===== verification/Witnesses.v ===== *)
(** * The theorems at work

    Concrete runs, under [plain_impl], of the theorems that have hypotheses: each
    hypothesis is discharged by evaluation or by the invariants. *)

From stdpp Require Import options.
From stdpp Require Import vector finite.
From S2P Require Import Prelude.
From S2P Require Import CStd.
From S2P Require Import Double.
From S2P Require Import Glob.
From S2P Require Import Scan.
From S2P Require Import Store.
From S2P Require Import Evict.
From S2P Require Import StoreFacts.
From S2P Require Import StrOps.
From S2P Require Import HashOps.
From S2P Require Import ListOps.
From S2P Require Import SetOps.
From S2P Require Import ZSetOps.
From S2P Require Import StreamOps.
From S2P Require Import StreamFacts.
From S2P Require Import KeySpace.
From S2P Require Import EvictFacts.
From S2P Require Import KeyOps.
From S2P Require Import Commands.
From S2P Require Import Refinement.
From S2P Require Import MultiKey.
From S2P Require Import SetAlgebra.
From S2P Require Import Theorems.

#[local] Existing Instance plain_impl.

(** ** Stores to start from *)

Definition some_list : KvStore := after (CPush ["a"; "b"] false) 0 "l" 5 KvStore0.
Lemma some_list_wf : wf some_list.
Proof. apply after_wf; [done|apply wf_init]. Qed.

Definition two_sets : KvStore :=
  after (CSadd ["y"; "z"]) 0 "s2" 6 (after (CSadd ["x"; "y"]) 0 "s1" 5 KvStore0).
Lemma two_sets_wf : wf two_sets.
Proof. apply after_wf; [done|]. apply after_wf; [done|apply wf_init]. Qed.

(** ** Refinement *)

Definition some_requests : list (Request Command) :=
  [mkRequest (inl (inl (inl (CSetOpt "v" false false 10 (-1))))) 0 "k" 1;
   mkRequest (inl (inl (inr (CHset "f" "w")))) 0 "h" 2;
   mkRequest (inl (inr (inl (CPush ["a"; "b"] false)))) 0 "l" 2;
   mkRequest (inl (inl (inl CGet))) 0 "k" 20000].

Lemma store_refines_keyspace_witness :
  (run_all some_requests KvStore0).2 = (spec_all some_requests empty_keyspace).2 ∧
  wf (run_all some_requests KvStore0).1 ∧
  (∀ t' db key, 20000 ≤ t' →
     view (run_all some_requests KvStore0).1 t' db key =
     av_live t' ((spec_all some_requests empty_keyspace).1 db key)).
Proof.
  apply (store_refines_keyspace some_requests 0).
  - repeat constructor; simpl; done.
  - simpl; lia.
Defined.

(** One command of each family. *)
Lemma families_refine_witness :
  refines_spec (inl (inl (inl (CIncrBy 1))) : Command) 0 "k" 9 (one_string "k" "41") ∧
  refines_spec (inl (inl (inr (CHincrby "f" 3))) : Command) 0 "h" 9 KvStore0 ∧
  refines_spec (inl (inr (inl (CLrange 0 (-1)))) : Command) 0 "l" 9 some_list ∧
  refines_spec (inl (inr (inr (CSrem ["x"; "q"]))) : Command) 0 "s1" 9 two_sets ∧
  refines_spec (inr (inl (CZadd [(of_Z 2, "b"); (of_Z 1, "a")])) : Command) 0 "z" 9 KvStore0 ∧
  refines_spec (inr (inr (CXadd [("f", "v")])) : Command) 0 "x" 9 KvStore0 ∧
  (run (CIncrBy 1) 0 "k" 9 (one_string "k" "41")).2 = ok true (Some 42).
Proof.
  split_and!; [apply families_refine; [done|apply one_string_wf]|apply families_refine; [done|apply wf_init]
    |apply families_refine; [done|apply some_list_wf]|apply families_refine; [done|apply two_sets_wf]
    |apply families_refine; [done|apply wf_init]|apply families_refine; [done|apply wf_init]
    |by vm_compute].
Defined.

(** ** Eviction *)

(** [one_string] with a memory limit of one byte. *)
Definition tight (policy : string) : KvStore :=
  (setMaxMemoryPolicy policy (setMaxMemory 1 (one_string "k" "v")).1).1.

Lemma tight_wf policy : wf (tight policy).
Proof. intros i db key e. apply (one_string_wf "k" "v"). Qed.

Lemma evict_ends_witness :
  let s := tight "allkeys-lru" in
  let s' := (evictIfNeededLocked 9 s).1 in
  (∃ s1, evict_loop (S (length (live_entries 9 s))) 9 0 s = Some s1 ∧ s' = s1) ∧
  (usedMemoryApprox 9 s' ≤ m_maxmemory s ∨ candidates 9 s' = []) ∧
  wf s' ∧
  (∀ db key, raw s' db key = raw s db key ∨ raw s' db key = None).
Proof. apply (evict_ends 9 (tight "allkeys-lru")); [by vm_compute|apply tight_wf]. Defined.

Definition evicted : KvStore := default KvStore0 (evict_step 9 0 (tight "allkeys-lru")).

Lemma evict_picks_witness :
  (∃ v, v ∈ candidates 9 (tight "allkeys-lru") ∧
    m_maxmemory (tight "allkeys-lru") < usedMemoryApprox 9 (tight "allkeys-lru") ∧
    (∀ i db key, db_map (m_shards evicted !!! i) db !! key =
       if decide (i = c_shard v ∧ db = c_db v ∧ key = c_key v) then None
       else db_map (m_shards (tight "allkeys-lru") !!! i) db !! key) ∧
    (use_random "allkeys-lru" = false →
     ∀ c, c ∈ take 16 (candidates 9 (tight "allkeys-lru")) →
       (use_ttl "allkeys-lru" = true → c_ttl_left v ≤ c_ttl_left c) ∧
       (use_ttl "allkeys-lru" = false → use_lru "allkeys-lru" = true → c_lru v ≤ c_lru c))) ∧
  (volatile_only "allkeys-lru" = true →
   ∀ db key e, raw (tight "allkeys-lru") db key = Some e → e_expire_at_ms e ≤ 0 →
     raw (evictIfNeededLocked 9 (tight "allkeys-lru")).1 db key = Some e).
Proof.
  apply (evict_picks 9 0 (tight "allkeys-lru") evicted); [apply tight_wf|].
  assert (is_Some (evict_step 9 0 (tight "allkeys-lru"))) as [x Hx]
    by (apply not_eq_None_Some; vm_compute; discriminate).
  unfold evicted. by rewrite Hx.
Defined.

(** ** Several keys *)

Lemma set_algebra_witness :
  let X : gset string := {["x"; "y"]} in let Y : gset string := {["y"; "z"]} in
  (lists_set (setInter 0 ["s1"; "s2"] 9 two_sets).2 (λ m, m ∈ X ∧ Forall (m ∈.) [Y]) ∧
   lists_set (setUnion 0 ["s1"; "s2"] 9 two_sets).2 (λ m, m ∈ X ∨ Exists (m ∈.) [Y]) ∧
   lists_set (setDiff 0 ["s1"; "s2"] 9 two_sets).2 (λ m, m ∈ X ∧ Forall (m ∉.) [Y])) ∧
  ∀ keys', keys' ≠ [] →
    let vals := views two_sets 9 0 keys' in
    stores_fold 0 "d" 9 two_sets (spec_inter None vals) (setInterStore 0 "d" keys' 9) ∧
    stores_fold 0 "d" 9 two_sets (spec_union ∅ vals) (setUnionStore 0 "d" keys' 9) ∧
    stores_fold 0 "d" 9 two_sets (spec_diff vals) (setDiffStore 0 "d" keys' 9).
Proof.
  intros X Y. apply (set_algebra 0 "d" ["s1"; "s2"] 9 two_sets X [Y]).
  assert (views two_sets 9 0 ["s1"; "s2"] = [Some (mkAVal (VSet X) 0); Some (mkAVal (VSet Y) 0)])
    as -> by by vm_compute.
  repeat constructor.
Defined.

Lemma rename_moves_witness :
  let s' := (renameKey 0 "k" "j" false 9 (one_string "k" "v")).1 in
  (renameKey 0 "k" "j" false 9 (one_string "k" "v")).2 = ok 1 tt ∧
  view s' 9 0 "j" = Some (plain_string "v") ∧ view s' 9 0 "k" = None.
Proof.
  assert ("k" ≠ "j") as Hne by discriminate.
  pose proof (rename_moves 0 "k" "j" false 9 (one_string "k" "v") Hne) as H. cbv zeta in H |- *.
  assert (view (one_string "k" "v") 9 0 "k" = Some (plain_string "v")) as Hv by by vm_compute.
  rewrite Hv in H. cbn [andb] in H. destruct H as (Hr & _ & Hview).
  split; [exact Hr|]. rewrite !Hview by lia. by split.
Defined.

(** "k" and "{" have the same shard under [plain_impl]. *)
Lemma untold_writes_witness :
  (let s' := (renameKey 0 "k" "{" false 9 (one_string "k" "v")).1 in
   view s' 9 0 "{" = Some (plain_string "v") ∧
   watch_version s' 0 "{" = watch_version (one_string "k" "v") 0 "{") ∧
  (let s' := (expire 0 "k" (-1) 9 (one_string "k" "v")).1 in
   (expire 0 "k" (-1) 9 (one_string "k" "v")).2 = 1 ∧ (∀ t, view s' t 0 "k" = None) ∧
   (∀ db' key', shard_watchToken db' key' (getShard s' key') =
                shard_watchToken db' key' (getShard (one_string "k" "v") key'))).
Proof.
  apply (untold_writes 0 "k" "{" false (-1) 9 (one_string "k" "v") (plain_string "v"));
    [apply one_string_wf|discriminate|by vm_compute..].
Defined.

Lemma rpoplpush_moves_witness :
  let s' := (listRPopLPush 0 "l" "m" 9 9 some_list).1 in
  wf s' ∧
  (∀ t, view s' t 0 "l" = av_live t (list_value ["a"] 0)) ∧
  (listRPopLPush 0 "l" "m" 9 9 some_list).2 = mkRes true (Some "b") None ∧
  (∀ t, view s' t 0 "m" = av_live t (Some (mkAVal (VList ["b"]) 0))).
Proof.
  assert ("l" ≠ "m") as Hne by discriminate.
  assert (view some_list 9 0 "l" = Some (mkAVal (VList (["a"] ++ ["b"])) 0)) as Hv by by vm_compute.
  pose proof (rpoplpush_moves 0 "l" "m" 9 9 some_list ["a"] "b" 0 some_list_wf Hne (Z.le_refl 9) Hv)
    as (Hw & Hs & Hd).
  assert (view some_list 9 0 "m" = None) as Hm by by vm_compute.
  rewrite Hm in Hd. cbn [list_at] in Hd. destruct Hd as [Hr Hd]. by split_and!.
Defined.

(** ** Whole databases *)

Lemma databases_listed_witness :
  let l := (keys 0 "s?" 9 two_sets).2 in
  l = ["s1"; "s2"] ∧ (dbsize 0 9 two_sets).2 = 2 ∧ NoDup l ∧
  (scan_client (S (length l)) 0 0 "s?" 1 9 two_sets).2 = Some l.
Proof.
  assert (0 < 1) as H1 by lia.
  destruct (databases_listed 0 "s?" 1 9 two_sets two_sets_wf H1) as (_ & _ & _ & Hnd & _ & _ & Hscan).
  split_and!; [by vm_compute|by vm_compute|exact Hnd|exact Hscan].
Defined.

(** ** Strings *)

(** Beyond the largest 64-bit integer the counter wraps around. *)
Lemma counter_adds_witness :
  view (incr_all 0 "k" [(2 ^ 63 - 1, 6); (1, 7)] (one_string "k" "41")).1 9 0 "k" =
  counter_value (- 2 ^ 63 + 41) 0.
Proof.
  assert (wf (one_string "k" "41")) as Hw by apply one_string_wf.
  assert (∀ t, view (one_string "k" "41") t 0 "k" = counter_value 41 0) as Hv.
  { intros t. rewrite view_raw.
    assert (abs_entry <$> raw (one_string "k" "41") 0 "k" = counter_value 41 0) as -> by by vm_compute.
    done. }
  apply (counter_adds 0 "k" [(2 ^ 63 - 1, 6); (1, 7)] (one_string "k" "41") 41 Hw); [|exact Hv].
  vm_compute; split; discriminate.
Defined.

(** ** Sorted sets *)

Definition scores : gmap string double := {["a" := of_Z 3; "b" := of_Z 1; "c" := of_Z 3]}.

Lemma scores_no_nan : no_nan scores.
Proof.
  assert (Forall (λ kv : string * double, d_is_nan kv.2 = false) (map_to_list scores)) as H
    by (vm_compute; repeat constructor).
  intros m d Hm. rewrite Forall_forall in H. apply (H (m, d)). by apply elem_of_map_to_list.
Qed.

Lemma ranking_witness :
  (rankedZset scores false).*2 = ["b"; "a"; "c"] ∧
  rankedZset scores true = reverse (rankedZset scores false) ∧
  zpop_best true scores = Some ("c", of_Z 3) ∧
  zpop_best true scores = (λ p, (p.2, p.1)) <$> head (rankedZset scores true).
Proof.
  destruct (ranking scores scores_no_nan) as ((_ & _ & _ & Hrev) & _ & Hpop).
  split_and!; [by vm_compute|exact Hrev|by vm_compute|apply Hpop].
Defined.

Lemma zadd_and_byscore_witness :
  let opt := mkZadd false false true false false in
  let members := [(of_Z 2, "a"); (of_Z 2, "b")] in
  let '(z', added, updated) := zadd_opt_loop opt scores members in
  added = 0 ∧ updated = 1 ∧ dom scores ⊆ dom z'.
Proof.
  intros opt members.
  pose proof (zadd_and_byscore opt scores members) as H.
  assert (zadd_opt_loop opt scores members = (<["b" := of_Z 2]> scores, 0, 1)) as E by by vm_compute.
  rewrite E in H |- *. destruct H as ((Hd & _) & _); [repeat constructor|apply scores_no_nan|].
  by split_and!.
Defined.

(** ** Streams *)

Definition some_group : StreamGroupState :=
  mkGroup "5-0" {["c" := mkConsumer "5-0" ["5-0"] {["5-0" := mkMeta 5 1]}]}.
Definition some_stream : StreamVal :=
  mkStream [mkStreamEntry "5-0" {["f" := "v"]}; mkStreamEntry "5-1" {["f" := "w"]}] 5 1
    {["g" := some_group]}.

Lemma some_ids_ok : ids_ok some_stream [(5, 0); (5, 1)].
Proof.
  split; [by vm_compute|]. split.
  - constructor; [by repeat constructor|]. apply Forall_singleton. right. simpl. lia.
  - apply Forall_cons. split; [|apply Forall_singleton].
    + split_and!; simpl; [lia|lia|]. left. right. simpl. lia.
    + split_and!; simpl; [lia|lia|]. by right.
Qed.

(** The clock has run back to 3. *)
Lemma xadd_increases_witness :
  next_auto 3 some_stream = (5, 2) ∧
  ∃ v', xadd_step 3 "*" [("f", "x")] some_stream = inr (v', formatStreamId 5 2) ∧
        ids_ok v' ([(5, 0); (5, 1)] ++ [(5, 2)]) ∧ NoDup (se_id <$> sv_entries v').
Proof.
  split; [by vm_compute|].
  apply (xadd_increases 3 [("f", "x")] some_stream [(5, 0); (5, 1)] some_ids_ok); by vm_compute.
Defined.

Definition read_result : StreamVal * list StreamEntry :=
  default (some_stream, []) (read_group_step 9 "g" "c" ">" 10 some_stream).

Definition ack_result : StreamVal * Z :=
  default (some_stream, 0) (xack_step "g" ["5-0"; "9-9"] some_stream).

Definition claim_result : StreamVal * list StreamEntry :=
  default (some_stream, []) (xclaim_step 9 "g" "d" 0 ["5-0"] false some_stream).

Lemma group_deliveries_witness :
  ((se_id <$> read_result.2) = ["5-1"] ∧
   ∃ gs gs',
     sv_groups some_stream !! "g" = Some gs ∧
     read_result.1 = with_groups some_stream (<["g" := gs']> (sv_groups some_stream)) ∧
     pending_ids (gs_consumers gs') ≡ₚ (se_id <$> read_result.2) ++ pending_ids (gs_consumers gs) ∧
     (∀ item, item ∈ read_result.2 → item ∈ sv_entries some_stream) ∧
     (0 < 10 → Z.of_nat (length read_result.2) ≤ 10) ∧ (group_ok gs → group_ok gs')) ∧
  (ack_result.2 = 1 ∧
   ∃ gs gs' removed,
     sv_groups some_stream !! "g" = Some gs ∧
     ack_result.1 = with_groups some_stream (<["g" := gs']> (sv_groups some_stream)) ∧
     gs_last_id gs' = gs_last_id gs ∧
     pending_ids (gs_consumers gs) ≡ₚ removed ++ pending_ids (gs_consumers gs') ∧
     ack_result.2 = Z.of_nat (length removed) ∧ Forall (.∈ ["5-0"; "9-9"]) removed ∧
     (group_ok gs → group_ok gs')) ∧
  ((se_id <$> claim_result.2) = ["5-0"] ∧
   ∃ gs gs',
     sv_groups some_stream !! "g" = Some gs ∧
     claim_result.1 = with_groups some_stream (<["g" := gs']> (sv_groups some_stream)) ∧
     pending_ids (gs_consumers gs') ≡ₚ pending_ids (gs_consumers gs) ∧
     (∀ item, item ∈ claim_result.2 → item ∈ sv_entries some_stream ∧ se_id item ∈ ["5-0"]) ∧
     (group_ok gs → group_ok gs')).
Proof.
  destruct (group_deliveries "g" some_stream) as (Hread & Hack & Hclaim). split_and!.
  - by vm_compute.
  - apply (Hread 9 "c" ">" 10). by vm_compute.
  - by vm_compute.
  - apply (Hack ["5-0"; "9-9"]). by vm_compute.
  - by vm_compute.
  - apply (Hclaim 9 "d" 0 ["5-0"] false). by vm_compute.
Defined.
