(* ===== verification/ServerWitnesses.v ===== *)
(** * The server's theorems at work

    Concrete runs, under [plain_impl], of the server's theorems that have hypotheses. *)

From Stdlib Require Import Ascii.
From stdpp Require Import options.
From stdpp Require Import vector finite.
From S2P Require Import Prelude.
From S2P Require Import CStd.
From S2P Require Import Double.
From S2P Require Import Glob.
From S2P Require Import Store.
From S2P Require Import Evict.
From S2P Require Import StoreFacts.
From S2P Require Import StreamOps.
From S2P Require Import StreamFacts.
From S2P Require Import KeySpace.
From S2P Require Import EvictFacts.
From S2P Require Import KeyOps.
From S2P Require Import Commands.
From S2P Require Import Refinement.
From S2P Require Import SetAlgebra.
From S2P Require Import Resp.
From S2P Require Import RespReader.
From S2P Require Import RespFacts.
From S2P Require Import ClusterSlot.
From S2P Require Import Slowlog.
From S2P Require Import PubSub.
From S2P Require Import Session.
From S2P Require Import Request.
From S2P Require Import CmdKeys.
From S2P Require Import CmdColl.
From S2P Require Import Rdb.
From S2P Require Import RdbFacts.
From S2P Require Import CmdRdb.
From S2P Require Import Aof.
From S2P Require Import Server.
From S2P Require Import Blocking.
From S2P Require Import Dispatch.
From S2P Require Import DispatchFacts.
From S2P Require Import Transactions.
From S2P Require Import StoreInv.
From S2P Require Import HandlerInv.
From S2P Require Import ServerInv.
From S2P Require Import BlockingFacts.
From S2P Require Import Answers.
From S2P Require Import AofFacts.
From S2P Require Import Theorems.
From S2P Require Import ServerTheorems.
From S2P Require Import Witnesses.

#[local] Existing Instance plain_impl.

(** ** A server to start from *)

Definition clock (k : nat) : Z := 5 + Z.of_nat k.
Definition cmd (l : list string) : RespValue := bulks l.

Definition table : gmap string HandlerRef := builtin (λ _ _, true) id false [].
Definition world (pass : string) : World := World0 clock pass (Some true) (Some Master).
Definition env : Env := mkEnv (connect 1 "peer" 7 (world "")) (world "").

(** The same connection in [MULTI] mode. *)
Definition in_multi (queue : list RespValue) (e : Env) : Env :=
  mkEnv (set_c_multi true queue (e_ctx e)) (e_world e).

(** ** The whole server *)

Definition after_set : option (Env * RespValue) :=
  handle_request table 2 true true (cmd ["SET"; "k"; "v"]) env.

Lemma server_reach_ok_witness :
  ∃ e, after_set = Some (e, resp_ok) ∧ length (w_events (e_world e)) = 2%nat ∧ world_ok (e_world e).
Proof.
  assert (snd <$> after_set = Some resp_ok) as Hr by by vm_compute.
  assert (length ∘ w_events ∘ e_world ∘ fst <$> after_set = Some 2%nat) as Hl by by vm_compute.
  destruct after_set as [[e r]|] eqn:E; [|discriminate]. injection Hr as ->. injection Hl as Hl.
  exists e. split_and!; [done|exact Hl|]. apply (server_reach_ok clock "" (Some true) (Some Master)).
  eapply steps_cons; [|apply steps_refl].
  apply (step_request (λ _ _, true) id false [] 2 true true (e_ctx env) (cmd ["SET"; "k"; "v"]) (world "") e resp_ok);
    [intros v; apply steps_refl|by vm_compute|constructor|exact E].
Defined.

(** An [EXEC] with two queued commands. *)
Lemma requests_answered_witness :
  is_Some (dispatch table 2 (cmd ["exec"]) (in_multi [cmd ["SET"; "k"; "v"]; cmd ["GET"; "k"]] env)).
Proof.
  apply (requests_answered (λ _ _, true) id false [] 0).
  - apply (bool_decide_unpack _). by vm_compute.
  - apply (bool_decide_unpack _). by vm_compute.
Defined.

(** ** The protocol *)

Lemma get_is_command : is_command (λ _, true) (cmd ["GET"; "k"]).
Proof. split_and!; [done|vm_compute; discriminate|done|]. repeat constructor; vm_compute; discriminate. Qed.

Lemma resp_round_trip_witness :
  (∃ v', tryParse (λ _, true) (chars (encode (cmd ["GET"; "k"])) ++ chars "*1") RespValue0 =
           Some (POk, v', 20%nat) ∧ reply_of v' = PArray [PBulk "GET"; PBulk "k"]) ∧
  appendResponse (cmd ["GET"; "k"]) ":1" = ":1" +:+ encode (cmd ["GET"; "k"]).
Proof.
  destruct (resp_round_trip (λ _, true) (cmd ["GET"; "k"]) (chars "*1") RespValue0) as [Hp Ha].
  - apply is_command_wf, get_is_command.
  - split; [exact Hp|apply Ha].
Defined.

Lemma parser_incremental_witness :
  ∃ v' n, let cut := take 7 (chars (encode (cmd ["GET"; "k"]))) in
    tryParse (λ _, true) cut RespValue0 = Some (NeedMore, v', n) ∨
    tryParse (λ _, true) cut RespValue0 = Some (PError_, v', n) ∧
    (last cut = Some "*"%char ∨ last cut = Some "$"%char).
Proof. apply (parser_incremental (λ _, true) (cmd ["GET"; "k"]) 7 RespValue0 get_is_command). vm_compute. lia. Defined.

(** A peer whose bytes come three at a time. *)
Definition read3 (net : list ascii) (k : Z) : list ascii * list ascii :=
  (drop (Nat.min 3 (Z.to_nat k)) net, take (Nat.min 3 (Z.to_nat k)) net).

Lemma session_delivers_witness :
  delivered (λ net : list ascii, net) (cmd ["GET"; "k"]) (chars "*1")
    (recvCommand (λ _, true) read3 (Z.to_nat (recv_steps Session0)) Session0
       (chars (encode (cmd ["GET"; "k"])) ++ chars "*1") RespValue0).
Proof.
  refine (proj2 (session_delivers (λ _, true) read3 (Z.to_nat (recv_steps Session0)) Session0
    (chars (encode (cmd ["GET"; "k"])) ++ chars "*1") RespValue0 _ _ _) (λ net, net) _ _ _ _ _ _ _).
  - intros n k Hk. unfold read3. cbn [snd]. rewrite length_take. lia.
  - apply session_ok_0.
  - rewrite Z2Nat.id; [lia|]. pose proof (recv_steps_pos Session0 session_ok_0). lia.
  - intros n k Hk. unfold read3. cbn [fst snd]. split_and!; [by rewrite take_drop|rewrite length_take; lia|].
    intros Hn. destruct n as [|c n]; [done|]. destruct (Nat.min 3 (Z.to_nat k)) eqn:E; [lia|discriminate].
  - simpl. lia.
  - apply get_is_command.
  - vm_compute. discriminate.
  - reflexivity.
Defined.

Lemma replies_off_protocol_witness :
  encode (resp_integer (-21)) = ":-11" +:+ crlf ∧
  ∃ v', tryParse (λ _, true) (chars (encode (resp_err ("E" +:+ crlf +:+ "+OK")))) RespValue0 =
          Some (POk, v', 4%nat) ∧ reply_of v' = PError "E".
Proof.
  destruct (replies_off_protocol (λ _, true) (-21) ("E" +:+ crlf +:+ "+OK") 1 [] RespValue0) as (H1 & _ & H2 & _);
    [by vm_compute|by vm_compute|by vm_compute|].
  split; [exact H1|]. rewrite app_nil_r in H2. exact H2.
Defined.

(** ** Dispatch *)

(** A write on a replica, in lower case. *)
Lemma gates_hold_witness :
  let e := mkEnv (connect 1 "peer" 7 (world "")) (World0 clock "" None (Some Slave)) in
  ∃ r, dispatch table 2 (cmd ["set"; "k"; "v"]) e = Some (e, r) ∧ r_type r = RError.
Proof. apply gates_hold. left. split_and!; by vm_compute. Defined.

Lemma unauthenticated_contained_witness :
  let e := mkEnv (connect 1 "peer" 7 (world "secret")) (world "secret") in
  ∃ e' rs, serve table 2 true true [cmd ["PING"]; cmd ["AUTH"; "guess"]; cmd ["FLUSHALL"]] e = Some (e', rs) ∧
    same_shared (e_world e) (e_world e') ∧ c_authenticated (e_ctx e') = false.
Proof.
  apply (unauthenticated_contained (λ _ _, true) id false [] 1); [by vm_compute|by vm_compute|].
  repeat constructor; intros [H1 H2]; vm_compute in H1, H2; congruence.
Defined.

(** ** Transactions *)

Lemma multi_only_queues_witness :
  ∃ r, (dispatch table 2 (cmd ["SET"; "k"; "v"]) (in_multi [] env) = Some (in_multi [] env, r) ∧ r_type r = RError) ∨
       (dispatch table 2 (cmd ["SET"; "k"; "v"]) (in_multi [] env) =
          Some (enqueue (cmd ["SET"; "k"; "v"]) (in_multi [] env), r) ∧ r = resp_queued).
Proof. apply multi_only_queues; [by vm_compute|vm_compute; discriminate..]. Defined.

Lemma exec_runs_queue_witness :
  let e := in_multi [cmd ["SET"; "k"; "v"]; cmd ["GET"; "k"]] env in
  ∃ rsps e1 w', length rsps = 2%nat ∧
    dispatch table 2 (cmd ["EXEC"]) e = Some (mkEnv (e_ctx e1) w', resp_array rsps).
Proof.
  intros e.
  assert (exec_request table (cmd ["EXEC"]) e) as Hreq.
  { split; [by vm_compute|by vm_compute|by vm_compute| |by vm_compute|by vm_compute].
    apply builtin_finds_iff. registered. }
  assert (Forall (λ c, upperArg (astr c 0) ∉ waiting) (c_multi_queue (e_ctx e))) as Hq
    by (apply (bool_decide_unpack _); by vm_compute).
  destruct (exec_runs_queue (λ _ _, true) id false [] 0 (cmd ["EXEC"]) e Hreq Hq) as (s' & _ & H).
  change (moved (w_store (e_world e)) (c_watched (e_ctx e))) with false in H. cbv iota in H.
  destruct H as (rsps & e1 & w' & _ & Hl & Hd & _). by exists rsps, e1, w'.
Defined.

(** The client watches "k" and queues; another one sets it. *)
Definition set_k : Command := inl (inl (inl (CSetOpt "v" false false (-1) (-1)))).

Lemma optimistic_lock_witness :
  ∃ e1 r s', cmd_WATCH (cmd ["WATCH"; "k"]) env = Some (e1, r) ∧
    let ctx := set_c_multi true [cmd ["GET"; "k"]] (e_ctx e1) in
    let w := set_w_data (run set_k 0 "k" 9 (w_store (e_world e1))).1 clock (e_world e1) in
    cmd_EXEC (dispatchExecOne table 1) (cmd ["EXEC"]) (mkEnv ctx w) =
      Some (mkEnv (left_multi ctx) (with_store s' w), resp_nullBulk).
Proof.
  assert (is_Some (cmd_WATCH (cmd ["WATCH"; "k"]) env)) as [[e1 r] HW]
    by (apply not_eq_None_Some; vm_compute; discriminate).
  destruct (optimistic_lock set_k 9 (dispatchExecOne table 1) (cmd ["WATCH"; "k"]) (cmd ["EXEC"]) env e1 r
    (resp_bulk "k") (set_c_multi true [cmd ["GET"; "k"]] (e_ctx e1))
    (set_w_data (run set_k 0 "k" 9 (w_store (e_world e1))).1 clock (e_world e1))) as (s' & Hx & _).
  - by repeat constructor.
  - done.
  - exact HW.
  - apply list_elem_of_here.
  - done.
  - done.
  - apply wf_init.
  - by vm_compute.
  - vm_compute. split; discriminate.
  - vm_compute. discriminate.
  - done.
  - by destruct (e_ctx e1).
  - by destruct (e_ctx e1).
  - by destruct (e_world e1).
  - exists e1, r, s'. split; [done|exact Hx].
Defined.

(** [SET] is queued and the transaction discarded: the append-only file and the replicas
    have the [SET]. *)
Lemma queued_logged_witness :
  ∃ e', serve table 2 true true [cmd ["SET"; "k"; "v"]; cmd ["DISCARD"]] (in_multi [] env) =
          Some (e', [resp_queued; resp_ok]) ∧
    w_store (e_world e') = w_store (e_world env) ∧
    w_events (e_world e') = [EvAof (cmd ["SET"; "k"; "v"]); EvPropagate (cmd ["SET"; "k"; "v"])].
Proof.
  destruct (queued_logged table 1 true true (cmd ["SET"; "k"; "v"]) (cmd ["DISCARD"]) (in_multi [] env))
    as (e' & Hs & _ & _ & clk & sl & Hw); [by vm_compute..| |by vm_compute|by vm_compute|by vm_compute|by vm_compute|by vm_compute| |by vm_compute|].
  - apply (bool_decide_unpack _). by vm_compute.
  - apply builtin_finds_iff. registered.
  - exists e'. split; [exact Hs|]. rewrite Hw. by split.
Defined.

(** ** Blocking lists and publish/subscribe *)



Definition one_subscriber : PubSubHub := subscribe "news" 3 (psubscribe "n*" 3 PubSubHub0).

Lemma publish_reaches_witness :
  channel_targets (λ _, true) "news" one_subscriber = [3%nat] ∧
  (∀ s, s ∈ channel_targets (λ _, true) "news" one_subscriber ↔
        true = true ∧ "news" ∈ names_of s (si_of (hub_channels one_subscriber))).
Proof.
  split; [by vm_compute|].
  apply (publish_reaches (λ _, true) one_subscriber "news").
  apply (reach_op (λ _, true) (psubscribe "n*" 3 PubSubHub0) (OpSubscribe "news" 3)).
  apply (reach_op (λ _, true) PubSubHub0 (OpPsubscribe "n*" 3)). apply reach_start.
Defined.

(** ** Persistence *)

(** A string, a list and a sorted set with an expiry, in two databases. *)
Definition stored : KvStore :=
  after (CExpire 100) 1 "z" 6 (after (CZadd [(of_Z 1, "a"); (of_Z 2, "b")]) 1 "z" 5
    (after (CPush ["a"; "b"] false) 0 "l" 5 (one_string "k" "v"))).

Lemma stored_wf : wf stored.
Proof. do 3 (apply after_wf; [done|]). apply one_string_wf. Qed.

Lemma stored_storable : storable (λ _, true) 9 stored.
Proof. apply (bool_decide_unpack _). by vm_compute. Qed.


Lemma rdb_truncated_witness :
  ∃ o, loadFromString (λ _, true) (λ _ _ s, (s, Threw)) (take 60 (dump 8 9 stored)) 9 stored = (stored, o) ∧
    o ≠ Done (ok true tt).
Proof. apply rdb_truncated; [apply stored_storable|vm_compute; lia]. Defined.

Definition dumped : RespValue := (cmd_DUMP 0 (cmd ["DUMP"; "l"]) (stored, clock)).2.

Definition list_entry : Entry := default Entry0 (live stored 5 0 "l").

Lemma dump_restores_witness :
  ∃ s2' o, cmd_RESTORE (λ _, true) 3 (cmd ["RESTORE"; "l2"; "70"; r_str dumped]) (KvStore0, clock) =
      ((s2', λ k, clock (S k)), restore_reply o) ∧
    view s2' 9 3 "l2" = Some (mkAVal (VList ["a"; "b"]) 75).
Proof.
  destruct (dump_restores (λ _, true) 0 "l" 3 "l2" (cmd ["DUMP"; "l"]) (cmd ["RESTORE"; "l2"; "70"; r_str dumped])
    list_entry 70 stored clock KvStore0 clock) as (_ & (s2' & o & H1 & H2) & _);
    [done|done|done|by vm_compute|apply stored_wf|apply wf_init|apply (bool_decide_unpack _); by vm_compute
    |apply (bool_decide_unpack _); by vm_compute|done|done|done|done|done|by vm_compute|done|].
  exists s2', o. split; [exact H1|]. destruct H2 as (_ & _ & H2). rewrite H2, decide_True by done. by vm_compute.
Defined.

(** A store of one database, with an expiry 100 seconds ahead. *)
Definition aof_store : KvStore :=
  after (CExpire 100) 0 "z" 6 (after (CZadd [(of_Z 1, "a"); (of_Z 2, "b")]) 0 "z" 5
    (after (CHset "f" "v") 0 "h" 5 (after (CPush ["a"; "b"] false) 0 "l" 5 (one_string "k" "v")))).

Lemma aof_store_wf : wf aof_store.
Proof. do 4 (apply after_wf; [done|]). apply one_string_wf. Qed.

Lemma aof_store_db : only_db 0 aof_store.
Proof.
  assert (∀ i, map_Forall (λ db _, db = 0) (m_dbs (m_shards aof_store !!! i))) as H
    by (apply (bool_decide_unpack _); by vm_compute).
  intros i db m Hm. by apply (H i db m).
Qed.

(** A clock that stops after some readings, so that its times stay below the bound. *)
Definition still (k : nat) : Z := 5 + Z.of_nat (Nat.min k 50).

Lemma world_fresh : fresh (World0 still "" (Some true) (Some Master)).
Proof.
  split; try done; [apply wf_init| |unfold still, in_time; intros k; cbn [w_clock World0]; lia..].
  intros t db key. rewrite view_raw. unfold raw, World0. cbn [w_store].
  assert (getShard KvStore0 key = Shard0) as -> by apply vlookup_replicate.
  unfold db_map, Shard0. cbn [m_dbs]. by rewrite lookup_empty.
Qed.

Lemma aof_round_trip_witness :
  ∃ w', replay (λ _, true) (dispatch table 2) (rewrite 9 aof_store) (World0 still "" (Some true) (Some Master)) =
      Some (w', ok true tt) ∧
    (∀ t, 100 ≤ t → view (w_store w') t 0 "l" = Some (mkAVal (VList ["a"; "b"]) 0)).
Proof.
  destruct (aof_round_trip (λ _, true) (λ _ _, true) id false [] 1 0 9 aof_store (World0 still "" (Some true) (Some Master)))
    as (w' & K & H1 & _ & (n & Hn) & H2 & H3);
    [apply aof_store_db|lia|apply aof_store_wf|unfold in_time; lia|apply world_fresh
    |apply (bool_decide_unpack _); by vm_compute|apply (bool_decide_unpack _); by vm_compute|].
  exists w'. split; [exact H1|]. intros t Ht. rewrite H2.
  - specialize (H3 0 "l").
    assert (view aof_store 9 0 "l" = Some (mkAVal (VList ["a"; "b"]) 0)) as Hv by by vm_compute.
    rewrite Hv in H3. destruct H3 as (ex & -> & Hex). cbn in Hex. by rewrite Hex.
  - rewrite Hn. unfold still, World0. cbn [w_clock]. lia.
Defined.

Lemma replay_loses_witness :
  replay (λ _, true) (dispatch table 2) (rewrite 9 aof_store) (World0 still "secret" None None) =
    Some (World0 still "secret" None None, ok true tt).
Proof.
  refine (proj1 replay_loses _ (λ _, true) (λ _ _, true) id false [] 1%nat 9 aof_store (World0 still "secret" None None) _ _);
    [discriminate|apply (bool_decide_unpack _); by vm_compute].
Defined.

(** ** GETEX *)

Lemma commands_that_fail_witness :
  ∃ s', cmd_GETEX 0 (cmd ["GETEX"; "k"]) (one_string "k" "v", clock) = ((s', λ k, clock (S k)), resp_bulk "v") ∧
    ∀ t, 5 ≤ t → view s' t 0 "k" = None.
Proof.
  destruct (proj2 (commands_that_fail "" 0 (cmd ["GETEX"; "k"]) "k" (one_string "k" "v") clock "v" 0))
    as (s' & H1 & _ & H2).
  - apply one_string_wf.
  - by vm_compute.
  - done.
  - vm_compute. split; discriminate.
  - done.
  - done.
  - done.
  - by vm_compute.
  - exists s'. split; [exact H1|exact H2].
Defined.
