(* ===== verification/DistWitnesses.v ===== *)
(** * The properties of replication at concrete inputs *)

From Stdlib Require Import Ascii.
From stdpp Require Import options.
From S2P Require Import Prelude.
From S2P Require Import CStd.
From S2P Require Import Bytes.
From S2P Require Import Store.
From S2P Require Import Resp.
From S2P Require Import RespReader.
From S2P Require Import RespFacts.
From S2P Require Import ClusterSlot.
From S2P Require Import Session.
From S2P Require Import Request.
From S2P Require Import CmdKeys.
From S2P Require Import Server.
From S2P Require Import ServerInv.
From S2P Require Import Replication.
From S2P Require Import ReplFacts.
From S2P Require Import DistTheorems.

#[local] Set Default Proof Using "Type*".

(** A master that has propagated two writes. *)
Definition write (k v : string) : RespValue := bulks ["SET"; k; v].
Definition anyone : nat → bool := λ _, true.
Definition propagated (cmd : RespValue) (r : ReplicationManager) : ReplicationManager :=
  (propagateCommand anyone cmd r).1.
Definition master1 : ReplicationManager := propagated (write "a" "1") (ReplicationManager0 "f00").
Definition master2 : ReplicationManager := propagated (write "b" "2") master1.

Lemma master2_reach : repl_reach anyone (encode_all [write "a" "1"; write "b" "2"]) master2.
Proof.
  exact (reach_step _ _ _ _ _ (reach_step _ _ _ _ _ (reach_new _ "f00") (step_propagate _ (write "a" "1") _))
           (step_propagate _ (write "b" "2") master1)).
Qed.

Lemma psync_answers_witness :
  handlePsync "f00" 27 (Some []) master2 master2 =
  mkPsync PsyncPartial (resp_simple "CONTINUE") (encode (write "b" "2")).
Proof.
  destruct (psync_answers anyone (encode_all [write "a" "1"; write "b" "2"]) master2 27) as (_ & _ & _ & H).
  - apply master2_reach.
  - by vm_compute.
  - by vm_compute.
  - by rewrite (H eq_refl "f00" [] master2).
Defined.





