(* ===== verification/CoreWitnesses.v ===== *)
(** * The properties of the framework's core at concrete inputs *)

From Stdlib Require Import Ascii.
From stdpp Require Import options.
From S2P Require Import Prelude.
From S2P Require Import CStd.
From S2P Require Import Bytes.
From S2P Require Import ByteArray.
From S2P Require Import ByteArrayFacts.
From S2P Require Import Timer.
From S2P Require Import TimerFacts.
From S2P Require Import IoManager.
From S2P Require Import IoFacts.
From S2P Require Import CoreTheorems.

#[local] Set Default Proof Using "Type*".

(** ** Byte arrays: blocks of three bytes that hold zeros when they are new. *)

Definition cleared : nat → nat → ascii := λ _ _, "000"%char.

Lemma bytearray_flat_witness :
  ∃ b, ba_ops cleared [OWrite (chars "abcdefgh"); OSetPosition 2; OWrite (chars "XY"); ORead 9; ORead 4; OToString]
         (ByteArray0 cleared 3) =
       (b, [OutBytes []; OutBytes []; OutBytes []; OutThrow; OutBytes (chars "efgh"); OutBytes []]) ∧
    ba_ok b ∧ m_position b = 8%nat ∧ contents b = chars "abXYefgh".
Proof. apply (bytearray_flat cleared 3 _ (mkFlat 8 (chars "abXYefgh"))); [lia|by vm_compute]. Defined.

Lemma bytearray_round_trip_witness :
  ∃ b1 b2 b3,
    write_items cleared [Fuint32 0x01020304; Int32 (-5); StringVint "abcdef"; Int64 (- 2 ^ 63)] (ByteArray0 cleared 3)
      = (b1, Ret tt) ∧
    setPosition (m_position (ByteArray0 cleared 3)) b1 = (b2, Ret tt) ∧
    read_items [Fuint32 0x01020304; Int32 (-5); StringVint "abcdef"; Int64 (- 2 ^ 63)] b2 =
      (b3, Ret [Fuint32 0x01020304; Int32 (-5); StringVint "abcdef"; Int64 (- 2 ^ 63)]) ∧
    m_position b3 = m_position b1 ∧ contents b3 = contents b1.
Proof.
  apply bytearray_round_trip.
  - apply (ByteArray0_ok cleared 3). lia.
  - do 4 (apply Forall_cons; split; [by vm_compute|]). constructor.
Defined.

(** ** Timers: a one-shot timer after 10 ms and a recurring one every 4 ms, added at 100. *)

Definition two_timers : TimerManager nat :=
  (addTimer 8 4 (Some 2%nat) true 100 (addTimer 3 10 (Some 1%nat) false 100 (TimerManager0 100)).1).1.

Lemma two_timers_run : timer_run (TimerManager0 100) [] two_timers.
Proof.
  apply (run_step _ [] _ [] _ (step_add 3 10 (Some 1%nat) false 100 (TimerManager0 100) eq_refl)).
  apply (run_step _ [] _ [] _ (step_add 8 4 (Some 2%nat) true 100
    (addTimer 3 10 (Some 1%nat) false 100 (TimerManager0 100)).1 eq_refl)). constructor.
Qed.

Lemma two_timers_ok : timers_ok two_timers.
Proof. exact (proj1 (timer_run_ok _ _ _ (TimerManager0_ok 100) two_timers_run)). Qed.

Lemma timers_fire_witness :
  ∃ m', listExpiredCb 110 0 two_timers = (m', [8; 3]%nat, [Some 2; Some 1]%nat) ∧
    (m_timers m' = [8]%nat ∧ next_of (m_heap m') 8 = 114).
Proof.
  destruct (timers_fire 110 0 two_timers two_timers_ok) as (m' & E & _).
  exists m'. split; [exact E|]. apply (f_equal (λ r, r.1.1)) in E. cbn [fst snd] in E. rewrite <-E. by vm_compute.
Defined.

Lemma idle_sleep_exact_witness :
  (getNextTimer 101 two_timers).2 = 3 ∧ due 103 two_timers = [] ∧ due 104 two_timers ≠ [].
Proof.
  assert (clock_fits 101 two_timers) as Hfit.
  { split; [lia|]. intros a Ha.
    assert (Forall (λ a, 0 ≤ next_of (m_heap two_timers) a < 2 ^ 64) (m_timers two_timers)) as H
      by (do 2 (apply Forall_cons; split; [by vm_compute|]); constructor).
    rewrite Forall_forall in H. by apply H. }
  split; [done|]. split.
  - by vm_compute.
  - apply (idle_sleep_exact 101 104 two_timers two_timers_ok Hfit); [done|done|]. split; [done|]. by vm_compute.
Defined.

Lemma timer_lifetime_witness :
  ∃ m1, cancel 3 two_timers = Some (m1, true) ∧ (3%nat ∉ (listExpiredCb 200 0 m1).1.2) ∧
    is_Some (cancel 3 (listExpiredCb 200 0 m1).1.1).
Proof.
  destruct (cancel 3 two_timers) as [[m1 b]|] eqn:E; [|by vm_compute in E].
  assert (b = true) as -> by (apply (f_equal (fmap snd)) in E; vm_compute in E; congruence).
  exists m1. split; [done|].
  destruct (timer_lifetime 100 [] two_timers 3 m1 ((listExpiredCb 200 0 m1).1.2 ++ []) (listExpiredCb 200 0 m1).1.1)
    as [H1 H2]; [apply two_timers_run|by left| |].
  - eapply run_step; [apply step_expire|constructor].
  - split; [|done]. by rewrite app_nil_r in H1.
Defined.

(** ** The I/O manager, over an epoll that is a table *)

Definition table_ctl (op : EpollOp) (fd : nat) (ev : Z * nat) (k : gmap nat (Z * nat)) : gmap nat (Z * nat) * Z :=
  match op, k !! fd with
  | EPOLL_CTL_ADD, None => (<[fd := ev]> k, 0)
  | EPOLL_CTL_MOD, Some _ => (<[fd := ev]> k, 0)
  | EPOLL_CTL_DEL, Some _ => (delete fd k, 0)
  | _, _ => (k, -1)
  end.

#[local] Instance epoll_table : Epoll (gmap nat (Z * nat)).
Proof.
  refine {| epoll_ctl := table_ctl; interest := id |}.
  - intros op fd ev k. unfold table_ctl. by destruct op, (k !! fd).
  - intros fd ev k. unfold table_ctl. cbn. by destruct (k !! fd).
  - intros fd ev k [x Hx]. unfold table_ctl. cbn in *. by rewrite Hx.
  - intros fd ev k [x Hx]. unfold table_ctl. cbn in *. by rewrite Hx.
Defined.

Lemma table_new : interest (∅ : gmap nat (Z * nat)) = ∅.
Proof. done. Qed.

(** Fiber 7 waits for descriptor 5 under scheduler 0, for 100 ms, with its flag at 3. *)
#[local] Notation io_new := (IoManager0 (∅ : gmap nat (Z * nat)) 0).
Definition io_waits : IoManager (gmap nat (Z * nat)) :=
  from_option fst io_new (addEvent 5 READ None 7 100 (Some 3%nat) 0 (Some 0%nat) io_new).
Definition io_done : IoManager (gmap nat (Z * nat)) := from_option fst io_waits (cancelEvent 1 5 READ io_waits).

Lemma io_waits_eq : addEvent 5 READ None 7 100 (Some 3%nat) 0 (Some 0%nat) io_new = Some (io_waits, 0).
Proof. by vm_compute. Qed.

Lemma io_waits_calls : io_calls io_new io_waits.
Proof. eapply calls_cons; [apply calls_nil|]. eapply call_add. exact io_waits_eq. Qed.

Lemma io_done_eq : cancelEvent 1 5 READ io_waits = Some (io_done, true).
Proof. by vm_compute. Qed.

Lemma io_done_run : io_run [(0%nat, TFiber 7)] [] io_new io_done.
Proof.
  pose proof (IoManager0_ok (∅ : gmap nat (Z * nat)) 0 table_new) as Hok.
  destruct (addEvent_run 5 READ None 7 100 (Some 3%nat) 0 0 io_new io_waits 0 Hok io_waits_eq) as [[_ R1]|[H _]]; [|discriminate H].
  destruct (io_run_ok _ _ _ _ R1 Hok) as [Hok1 _].
  exact (io_run_trans [(0%nat, TFiber 7)] [] [] [] _ _ _ R1 (cancelEvent_run _ _ _ _ _ _ Hok1 io_done_eq)).
Qed.

Lemma io_conserves_witness :
  [(0%nat, TFiber 7)] ≡ₚ (io_tasks io_done).*1 ++ heap_tasks (io_heap io_done) ∧ m_pendingEventCount io_done = 0.
Proof.
  destruct (io_conserves (∅ : gmap nat (Z * nat)) 0 [(0%nat, TFiber 7)] [] io_done table_new io_done_run) as (H1 & H2 & _).
  split; [exact H1|]. rewrite H2. by vm_compute.
Defined.

Lemma io_methods_witness :
  ∃ m', cancelEvent 1 5 READ io_waits = Some (m', true) ∧ io_tasks m' = [(0%nat, TFiber 7, 1)].
Proof.
  destruct (io_methods (∅ : gmap nat (Z * nat)) 0 io_waits 5 READ None 7 0 100 0 1 None table_new io_waits_calls) as (_ & _ & (m' & H1 & _ & H2) & _).
  exists m'. split; [rewrite H1; by vm_compute|]. rewrite H2. by vm_compute.
Defined.

(** At 150 ms, epoll reporting nothing. *)
Lemma io_timeouts_witness :
  ∃ m', idle_turn 0 150 1 99 0 [] io_waits = Some m' ∧ flag_of m' 3 = ETIMEDOUT ∧ awaits m' 5 READ = false ∧
    io_tasks m' = [(0%nat, TFiber 7, 1)].
Proof.
  destruct (io_timeouts (∅ : gmap nat (Z * nat)) 0 150 1 0 0 99 io_waits [] table_new io_waits_calls) as (_ & m' & H1 & [H2 H4] & _ & _ & H3).
  - split; by vm_compute.
  - done.
  - constructor.
  - apply NoDup_nil_2.
  - exists m'. split; [exact H1|]. split.
    + apply (H3 (Z.le_refl 0) 5%nat READ (Some 3%nat)); [|done].
      change (overdue_items 150 io_waits) with (m_fdContexts io_waits ≫= expired_of 150 io_waits).
      replace (m_fdContexts io_waits ≫= expired_of 150 io_waits) with [(5%nat, READ, Some 3%nat)] by (by vm_compute). by left.
    + split; [rewrite (H2 5%nat READ); by vm_compute|]. rewrite H4. by vm_compute.
Defined.

Lemma io_faults_witness :
  (∃ m1 m2, do_io_wait 5 READ 7 UINT64_MAX 3 10 (Some 0%nat) io_new = Some (m1, 0) ∧
     cancelEvent 1 5 READ m1 = Some (m2, true) ∧ do_io_resumed 3 m2 = None) ∧
  wait_ms (2 ^ 31) < 0.
Proof.
  destruct (io_faults (∅ : gmap nat (Z * nat)) 0 10 1 5 (2 ^ 31) io_new 5 0 3 7 0 99 READ true table_new (calls_nil _)) as (_ & _ & _ & H4 & H5 & _).
  - rewrite (proj2 (IoManager0_empty _ _)). cbn. lia.
  - lia.
  - by vm_compute.
  - lia.
  - split; [|exact H5].
    set (m1 := from_option fst io_new (do_io_wait 5 READ 7 UINT64_MAX 3 10 (Some 0%nat) io_new)).
    assert (do_io_wait 5 READ 7 UINT64_MAX 3 10 (Some 0%nat) io_new = Some (m1, 0)) as E by (by vm_compute).
    destruct (H4 m1) as (m2 & H6 & H7); [by vm_compute|exact E|]. exists m1, m2. split; [exact E|]. split; [exact H6|exact H7].
Defined.
