(* ===== verification/NetWitnesses.v ===== *)
(** * The properties of the RPC and HTTP parts at concrete inputs *)

From stdpp Require Import options.
From S2P Require Import Prelude.
From S2P Require Import CStd.
From S2P Require Import PubSub.
From S2P Require Import Server.
From S2P Require Import Replication.
From S2P Require Import Sentinel.
From S2P Require Import Election.
From S2P Require Import KvNode.
From S2P Require Import SentinelFacts.
From S2P Require Import Bytes.
From S2P Require Import WebSocket.
From S2P Require Import Http2.
From S2P Require Import NetTheorems.

#[local] Set Default Proof Using "Type*".

Lemma election_safe_witness : ∃ y : System (node := Three),
  (S1, WonElection 2) ∈ sys_log y ∧ ∀ j, (j, WonElection 2) ∈ sys_log y → j = S1.
Proof.
  pose proof usurping_trace as H. destruct (exec _ _ usurping _) as [y|] eqn:E; [|done].
  assert ((S1, WonElection 2) ∈ sys_log y) as Hw.
  { injection H as _ _ _ _ ->. clear. right. left. }
  exists y. split; [done|]. intros j Hj.
  refine (election_safe (impl := plain_impl) _ _ _ _ y j S1 2 three_configured _ Hj Hw).
  exact (exec_reach (impl := plain_impl) _ _ _ _ three_complete _ _ _ three_started E).
Defined.

(** A sentinel that watches a master that is down and two replicas. *)
Definition node_at (role : NodeRole) (host : string) (offset : Z) (alive : bool) : NodeState :=
  mkNode host 6380 role "f00" offset alive 0.
Definition watching : SentinelManager :=
  set_nodes (<["m:6380" := node_at MASTER "m" 9 false]> (<["r1:6380" := node_at REPLICA "r1" 7 true]>
    (<["r2:6380" := node_at REPLICA "r2" 9 true]> ∅)))
    (setMonitoredNodes [("m", 6380); ("r1", 6380); ("r2", 6380)] (SentinelManager0 5000 0)).
Definition watched : gmap Endpoint ReplicationManager :=
  <[("r1", 6380) := ReplicationManager0 "1"]> (<[("r2", 6380) := ReplicationManager0 "2"]> ∅).

Lemma failover_promotes_witness :
  let '(_, kv', s', lines) :=
    run (kv_answer (λ _, true) (λ e, e.1)) 9 6000 (handleFailover (impl := plain_impl) "m:6380") watched watching in
  lines = [FailoverComplete "r2:6380"] ∧ master_endpoint s' = Some ("r2", 6380) ∧
  (∀ r, kv' !! ("r1", 6380) = Some r → follows ("r2", 6380) r).
Proof.
  pose proof (failover_promotes (impl := plain_impl) (λ _, true) (λ e, e.1) 9 6000 watching watched "m:6380" ("r2", 6380)) as H.
  destruct (run _ _ _ _ _ _) as [[[u kv'] s'] lines]. destruct H as (_ & H1 & H2 & _ & _ & H3 & _).
  - by vm_compute.
  - by vm_compute.
  - split_and!; [done| |done..]. cbn. set_solver.
  - done.
  - split_and!; [done|done|]. intros r. by apply H3; [set_solver|..].
Defined.

(** Reads and writes of three bytes at most. *)
Definition thrice (l : Bytes) (n : nat) : nat := 3.
Lemma thrice_moves : moves thrice thrice.
Proof. split; intros; unfold thrice; lia. Qed.

Definition hello_first : list WsItem := [ItemFrame (TEXT_FRAME, chars "hel") 5; ItemPing].
Definition hello_last : Message := (CONTINUE, chars "lo").

Lemma ws_round_trip_witness :
  ∃ w, WSSendMessage thrice hello_last true true 7 (send_items thrice true hello_first (mkStream [] [] false)) =
         (mkStream [] w false, 4) ∧
       WSRecvMessage thrice thrice 1000 false (mkStream w [] false) =
         Some (mkStream [] (head_bytes pong_head) false, Some (TEXT_FRAME, chars "hello")).
Proof.
  destruct (ws_round_trip thrice thrice 1000 7 true hello_first hello_last [] [] [] [] [] false false) as (w & H1 & H2).
  - apply thrice_moves.
  - lia.
  - apply Forall_cons. split; [split; [by right; left|done]|by apply Forall_singleton].
  - split; [by left|done].
  - done.
  - exists w. split; [exact H1|]. rewrite app_nil_r in H2. exact H2.
Defined.

(** A message cut short: the stream is closed. *)
Lemma ws_recv_ends_witness :
  ∃ s, WSRecvMessage thrice thrice 1000 true (mkStream (head_bytes (frame_head TEXT_FRAME false true 9)) [] false) = Some (s, None) ∧
    st_closed s = true.
Proof.
  destruct (ws_recv_ends thrice thrice 1000 true (mkStream (head_bytes (frame_head TEXT_FRAME false true 9)) [] false))
    as ([s [m|]] & H1 & H2); [lia| |].
  - exfalso. clear -H1. vm_compute in H1. discriminate H1.
  - by exists s.
Defined.


(** Two headers, one of them in the table. *)
Lemma hpack_round_trip_witness :
  let headers := <[":method" := "GET"]> {["content-type" := "application/json"]} : gmap string string in
  hpack_decode (hpack_encode headers) ∅ = Some (headers, Done () []).
Proof.
  intros headers. destruct (hpack_round_trip headers ∅) as [H _]; [|by rewrite (right_id_L ∅ (∪)) in H].
  apply map_Forall_insert_2; [by split; vm_compute|]. apply map_Forall_singleton. by split; vm_compute.
Defined.

(** The path of the fourth entry, as the standard writes it: ["/"] is taken for a length. *)
Lemma hpack_faults_witness :
  decode_header (byte 68 :: encodeStringLiteral (chars "/sample/path")) = Refused ∧
  decode_header [byte 68] = Undefined.
Proof.
  destruct (hpack_faults 4 [] (chars "/sample/path") []) as (H1 & H2 & _). rewrite app_nil_r in H1.
  split; [|exact (H2 ltac:(lia))]. specialize (H1 ltac:(lia) ltac:(cbn; lia)).
  change (64 + 4) with 68 in H1. rewrite H1. by vm_compute.
Defined.

(** An acknowledgement, then a frame of settings cut after its header. *)
Lemma http2_frames_witness :
  onFrame (kConnectionPreface ++ encode_frame FAck ++ take 11 (encode_frame (FSettings [(SETTINGS_MAX_FRAME_SIZE, 32768)])))
    Http2Connection0 = Some (mkH2 true true 16384 100, false).
Proof.
  destruct (http2_frames Http2Connection0 Http2Connection0 [FAck] (FSettings [(SETTINGS_MAX_FRAME_SIZE, 32768)]) [] 11)
    as (_ & H & _).
  - done.
  - repeat constructor; by vm_compute.
  - unfold kSize. cbn. lia.
  - unfold kSize. cbn. lia.
  - by vm_compute.
  - by vm_compute.
  - exact H.
Defined.
