(* ===== verification/ServiceWitnesses.v ===== *)
(** * The conditional properties of the service layer, at concrete inputs *)

From Stdlib Require Import Ascii.
From stdpp Require Import strings relations options.
From S2P Require Import Prelude.
From S2P Require Import CStd.
From S2P Require Import Double.
From S2P Require Import Bytes.
From S2P Require Import WebSocket.
From S2P Require Import LoadBalancer.
From S2P Require Import CircuitBreaker.
From S2P Require Import RateLimit.
From S2P Require Import RpcClient.
From S2P Require Import ServiceTheorems.

#[local] Set Default Proof Using "Type*".

(** ** The load balancer *)

Definition lb_node (id : string) (weight active : Z) (healthy : bool) : RpcNode :=
  mkRpcNode id id 9000 weight healthy active 0 0 ∅.
Definition lb_pair (strategy : LoadBalanceStrategy) : RpcLoadBalancer :=
  mkLb strategy [lb_node "a" 3 5 true; lb_node "b" 9 0 false; lb_node "c" 1 2 true] 0 1.

Lemma lb_selects_witness :
  (selectNode 0 RpcLbContext0 (lb_pair LeastConnections)).2 = 2 ∧
  ∃ n, node_at_index (b_nodes (lb_pair LeastConnections)) 2 n ∧ n_healthy n = true ∧
       prefers (lb_pair LeastConnections) RpcLbContext0 n.
Proof.
  destruct (lb_selects (lb_pair LeastConnections) RpcLbContext0 0) as [[H _]|[_ H]]; [done|by cbn| |].
  - vm_compute in H. discriminate H.
  - split; [done|]. exact H.
Defined.

Lemma lb_fair_witness : turns RpcLbContext0 [0; 0; 0; 0] (lb_pair WeightedRoundRobin) = [0; 0; 2; 0].
Proof.
  rewrite (lb_fair (lb_pair WeightedRoundRobin) RpcLbContext0 [0; 0; 0; 0]); [done|done|done|done|done| |done|done|done].
  intros n Hn _. cbn in Hn. set_unfold in Hn. destruct Hn as [->|[->|[->|[]]]]; cbn; lia.
Defined.

(** ** Circuit breakers *)

Definition quick : RpcCircuitBreakerConfig := mkCbConfig 1 2 5000 3.
Definition opened : RpcCircuitBreaker := mkCb quick Open 1 0 0 100.

Lemma opened_reach : cb_reach quick (opened, O).
Proof. eapply rtc_l; [by apply (step_admit 50)|]. eapply rtc_l; [by apply (step_failure 100)|]. by apply rtc_refl. Qed.

Lemma breaker_guards_witness :
  let '(b, admitted) := cb_exec [Ask 200; Failed 300; Ask 5099] opened in cb_state b = Open ∧ admitted = 0.
Proof.
  refine (proj1 (breaker_guards quick opened O 100 [Ask 200; Failed 300; Ask 5099] _ opened_reach _ _ _ _)).
  - by cbn.
  - cbn. lia.
  - cbn. lia.
  - repeat constructor.
  - done.
Defined.

Definition half_open : RpcCircuitBreaker := mkCb quick HalfOpen 0 1 1 100.
Lemma half_open_reach : cb_reach quick (half_open, O).
Proof.
  unfold cb_reach. eapply rtc_r; [|apply (step_success (mkCb quick HalfOpen 0 0 1 100) 0)].
  eapply rtc_r; [apply opened_reach|]. by apply (step_admit 5100).
Qed.

Lemma breaker_recovers_witness :
  (allowRequest 5200 half_open).2 = true ∧ cb_state (probes 1 5200 half_open) = Closed.
Proof.
  destruct (breaker_recovers quick half_open 5200) as [H1 H2]; [by cbn|by cbn|exact half_open_reach|].
  split; [by apply H1|by apply H2].
Defined.

(** ** Rate limits *)

(** Two requests in ten milliseconds for each user. *)
Definition second : Z := 1000000.
Definition arrivals : list (Arrival (Request := string)) :=
  [("ann", 0, 0); ("bob", 0, second); ("ann", 0, 2 * second); ("ann", 0, 9 * second); ("bob", 0, 9 * second); ("ann", 0, 10 * second)].

Lemma window_exact_witness :
  rl_answers id "ann" arrivals (RateLimitMiddleware0 SlidingWindow (of_Z 2) (of_Z 10) (Some id) 0) = [0; 0; -1; 0].
Proof.
  rewrite (window_exact id (of_Z 2) (of_Z 10) "ann" arrivals 0 0); [by vm_compute|by vm_compute| |by vm_compute].
  assert (snd <$> own id "ann" arrivals = [0; 2 * second; 9 * second; 10 * second]) as -> by by vm_compute.
  unfold second. cbn. lia.
Defined.

(** ** RPC *)

(** An echo server that counts, with envelopes that are their own wire form. *)
Definition count_echo (m : Bytes) (n : Z) : Z * Bytes := (n + 1, "r"%char :: m).
Definition three_at_most (l : Bytes) (n : nat) : nat := 3.

Lemma rpc_served_witness :
  let wires := [chars "ping"; chars "status"] in
  let rwires := [chars "rping"; chars "rstatus"] in
  rpc_handleClient three_at_most three_at_most Some Some count_echo 0 (mkStream (concat (rpc_frame <$> wires)) [] false) =
    Some (2, mkStream [] (concat (rpc_frame <$> rwires)) false) ∧
  channel_calls three_at_most three_at_most Some Some wires (mkStream (concat (rpc_frame <$> rwires)) [] false) =
    (mkStream [] (concat (rpc_frame <$> wires)) false, Some <$> rwires).
Proof.
  refine (rpc_served three_at_most three_at_most Some Some count_echo [chars "ping"; chars "status"] _ _ 0 _ _ _ _).
  - split; intros; unfold three_at_most; lia.
  - by intros m wire [= ->].
  - apply Forall2_cons. split; [by split|]. apply Forall2_cons. by split; [split|].
  - apply Forall2_cons. split; [by split|]. apply Forall2_cons. by split; [split|].
Defined.

Definition one_node : RpcChannelManager (Envelope := Z) :=
  set_lbs {["kv" := mkLb RoundRobin [lb_node "a" 1 0 true] 0 0]}
    (registerService "kv" (mkService RoundRobin (mkRetry 3 50 60) RpcCircuitBreakerConfig0) RpcChannelManager0).
Definition md0 : RpcMetadata := mkMetadata "" ∅.
(** The node answers the third attempt. *)
Definition third_time (i : nat) : Attempt (Envelope := Z) :=
  mkAttempt 0 (Z.of_nat i) (Z.of_nat i) (λ host port e, if (i <? 2)%nat then NoChannel else Answered (e + 1)).

Lemma rpc_retries_witness :
  let '(_, ok, response, ev) := cm_call id "kv" "get" 41 0 md0 third_time one_node in
  ok = true ∧ response = 42 ∧ ∃ k, slept ev = take k [50; 60].
Proof.
  pose proof (rpc_retries id "kv" "get" 41 0 md0 third_time one_node eq_refl) as H. cbv zeta in H.
  assert ((λ r, (r.1.1.2, r.1.2)) (cm_call id "kv" "get" 41 0 md0 third_time one_node) = (true, 42)) as Hr by by vm_compute.
  destruct (cm_call _ _ _ _ _ _ _ _) as [[[m ok] r] ev]. injection Hr as -> ->. destruct H as (_ & (k & Hk) & _).
  split_and!; [done|done|]. exists k. exact Hk.
Defined.

(** Ten attempts, none answered, reach five nodes. *)
Definition call_of (i : nat) : Doing (Envelope := Z) :=
  (mkAttempt 0 (Z.of_nat i) (Z.of_nat i) (λ _ _ _, NoChannel), RpcServiceConfig0, mkInvocation "kv" "get" 41 0 md0 "" 0 false "").

Lemma dead_service_spared_witness :
  Z.of_nat (length (do_calls id (call_of <$> seq 0 10) one_node).2) ≤ 5.
Proof.
  refine (dead_service_spared id "kv" "kv#get" (RpcCircuitBreaker0 RpcCircuitBreakerConfig0) (call_of <$> seq 0 10) one_node 0 _ _ _ _ _ _ _ _ _).
  - by vm_compute.
  - by cbn.
  - done.
  - by cbn.
  - done.
  - done.
  - cbn. lia.
  - cbn. repeat constructor.
  - repeat (constructor; [by split|]). constructor.
Defined.
